(* ===== verification/_CoqProject ===== *)
-Q . S2P
Prelude.v
Errors.v
GoLib.v
B64.v
Utf8.v
GoStr.v
SortedMap.v
Json.v
Alg.v
StrictJson.v
Key.v
Thumbprint.v
RawJson.v
Lenient.v
KeyParse.v
KeySet.v
Slices.v
Sharing.v
Float.v
Dates.v
Claims.v
Options.v
Jws.v
Heap.v
Revoke.v
HttpAuth.v
Profiles.v
IdTokens.v
Login.v
AesKw.v
JweAlg.v
Jwe.v
Nested.v
Opaque.v
Rotation.v
JwtTest.v
Cmw.v
CacheControl.v
Fetch.v
Fetcher.v
Standards.v
Watch.v
Outage.v
ExampleStructs.v
Examples.v
Witness.v
