(* ===== verification/Prelude.v ===== *)
(** * A verified model of the Go module github.com/NyeKo-ItL/jwt

    The module signs, parses, encrypts and decrypts JSON Web Tokens, keeps and
    fetches the keys for it, remembers revoked identifiers and guards HTTP
    handlers.  This library translates its Go code, function by function, into
    executable definitions and proves what they promise.  Paths below are under
    src/.

    ** The parts of the program, and the files that model them

    - Foundations.  Prelude (bytes, results, tactics, hints, shared lemmas),
      Errors (errors.go, internal/errors: sentinels and errors.Is), GoLib and
      GoStr (the functions of strings, bytes, strconv the code calls), SortedMap
      (the order of strings, slices.Sort, maps in key order), Utf8, Float
      (strconv and float64), B64 (internal/b64), Json, RawJson and StrictJson
      (encoding/json/v2 as the code configures it; strictjson.go), Lenient
      (encoding/json's own decoder).
    - Keys.  Alg (internal/alg, alg.go: algorithms, signers, verifiers), Key
      (key.go: the JWK, its JSON form and rules, verifierForAlg), Thumbprint
      (thumbprint.go), KeyParse (internal/keyparse, internal/bytes: OpenSSH and
      raw keys), KeySet (keyset.go, keyprovider.go, over values), Slices and
      Sharing (the same with slices that share arrays: what a caller can write to).
    - Tokens.  Dates and Claims (claims.go, header.go), Options and Jws (jwt.go: options,
      Sign, Parse, ParseInsecure and the verification they share), Profiles and
      IdTokens (idtoken.go, atclaims.go: the validators; the claim structs as
      JSON), Login (Parse into such a struct, then its checks), Cmw (cmw.go), AesKw, JweAlg and Jwe
      (jwe.go, jwe_direct.go, jwe_aeskw.go, jwe_rsa.go, jwe_ecdh.go), Nested (a
      signed token inside an encrypted one).
    - Services.  Heap and Revoke (revoke.go), HttpAuth (httpauth.go), Opaque
      (opaque.go, rotation.go), CacheControl, Fetch and Fetcher (keyfetch.go: the
      caching rules, the HTTP side, the concurrent KeyFetcher).
    - Around the module.  JwtTest (jwttest/jwttest.go), Rotation
      (the rotator of examples/refresh_rotation), ExampleStructs and Examples
      (the five mains under examples/ and the structs they declare), Standards, Watch and Outage
      (.github/standards: diff.go, watch.go, main.go).
    - Witness applies the theorems that have hypotheses to concrete inputs.

    They meet as the code's packages do.  Jws looks a key up through a
    [KeyProvider], which KeySet, Fetcher and JwtTest implement, asks Key for the
    verifier of a key, and hands the payload to Claims; HttpAuth, Cmw and Jwe
    call [parseVerified] of Jws, the fetcher calls [parseKeySet] of KeySet.  The
    claim structs promise each other their member names and that they are read
    back ([Flat], [FlatLaws], [Embeds] in IdTokens); Login, Nested and Examples
    are proved against that interface.

    ** How state and effects are written

    A Go string or byte slice is [bytes] (in Sharing a slice is a view of an
    array that others may see); a fallible function returns [res], with
    an error as the list of the sentinels it wraps.  Structs are records, closed
    interfaces are inductive types.  A method of a mutable object takes its state
    and returns it; what happens under one lock is one step.  Jws and Jwe return
    the list of the callbacks they make beside the result, a main what it
    prints.  KeyFetcher is a step
    relation over flights and calls, with the clock of the run time that its
    deadlines count on, the revocation store and the key set are
    histories of calls compared with a simpler object, and a standards run is a
    fold over the goroutines in the order they finish.  Clocks, networks and
    the order in which a map is ranged over are arguments, quantified in the
    theorems.  Integers that can wrap are written with their wrap-around
    ([wrap64], the generation counter modulo 2^64, durations).

    ** What the theorems show

    - Tokens: exactly which tokens [parseVerified] accepts, exactly which
      callbacks it consults and in what order, that "none" is never accepted, that a verifier is
      only built for a key and algorithm that belong together, which claims pass,
      and that what Sign produces Parse reads back; the claims a caller reads in
      its struct are the ones that were validated, and an ID token that passes is
      meant for the client (Alg, Key, Jws, StrictJson, Profiles, Login).
    - Encoding: canonical base64url, the JSON printer and parser are inverse,
      JWKs, key sets, claims, the token structs of every provider, wrappers and
      signed wrappers round-trip, the input of a thumbprint is
      the canonical text, octet by octet, for printable names of curves (B64,
      Json, Key, KeySet, Claims, IdTokens, Thumbprint, Cmw).  What a struct comes
      back as is stated with its losses: a date is read back to within 15.26
      microseconds, to itself when it is whole, and never leaves the years 1 to
      9999 (Dates), and an empty audience comes back absent.
    - Keys: the key set refines an ordered list with unique kids, no write of a
      caller to memory reaches a key that a set or provider holds, exactly
      which documents are read as a JWK Set and which key or diagnostic each
      element gives, exactly which OpenSSH blobs are read (KeySet, Sharing,
      KeyParse).
    - Fetching: every request, redirects included, is admitted by the URL policy;
      redirects are bounded; at most one flight, rate limits, where a returned key
      comes from and for how long, and that every call returns within the timeout
      of a fetch though the network never answers (Fetch, Fetcher).
    - Services: the revocation store refines a map of expiry times, never loses a
      live revocation, and its heap is bounded by the most identifiers it ever
      held; middleware only lets verified requests through and writes challenges
      that read back as the attributes that were meant, whatever goes into them;
      refresh-token rotation accepts only the live token, never one that was
      rotated away, and burns a family on reuse (Revoke, HttpAuth, Rotation).
    - Encryption: JWE round-trips for all key-management families, exactly what
      decrypts, key wrap is inverted, nested tokens need both layers, and what is
      signed and encrypted is read back (AesKw, JweAlg, Jwe, Nested).
    - Around: the fakes answer as the real implementations and pass the
      conformance suites; the standards watch is silent exactly when nothing has
      changed and never takes an outage for a change; every example prints what it
      means to, for any clock within the life of its token (JwtTest, Standards,
      Outage, Examples).

    ** Fuel

    Recursion that is not structural has fuel with a proof that it is enough or
    bounds what is modelled: the JSON parser has twice the length of its input
    plus two ([parse_total]; RawJson the same, [raw_array_total]; Lenient,
    [lparse_total]); the heap loops
    and the sweep of expired revocations have the length of the heap
    ([heap_correct], [removeExpired_loop_spec]); trimming white space has the
    length of the text; a numbered registry key has the size of the map
    ([fresh_key_new]).  The number of requests a download can make before its
    deadline is an argument of Fetch (in Fetcher a network has answered when one
    more exchange would not change the download, [download_answered]); ten are enough without a redirect policy
    of the caller ([redirects_bounded]).

    ** Parameters

    Code that is not under src/ is a class with, where a theorem needs it, a
    class of its documented laws: [Crypto] with [CryptoLaws] (the crypto packages), [AES] with
    [AESLaws], [JweCrypto], [Entropy] with [JweLaws] (GCM, OAEP, ECDH,
    crypto/rand), [HashRegistry] (which hashes are linked), [Unicode] (lower case
    beyond ASCII), [Strconv] and [Unquoter] (quoting and unquoting beyond plain
    text), [URL] and [NetURL] with [NetURLLaws] (net/url), [Mime] (parameters of a
    media type), [X509] (DER), in Examples the sizes of digests and keys and that
    generated keys sign, [Decoders] (encoding/xml and the
    texts of the errors of encoding/json), [MapRange] (the order of a range).
    Witness instantiates each of them and proves the laws of its instances.

    ** Not modelled

    The text of error messages (except in the standards watch, which prints
    it); constant-time comparison, which is equality as a function; which of
    several errors of one JSON object is reported; the transport under net/http;
    the monotonic reading that a [time.Time] may carry, so that a [Time] is its
    wall-clock nanoseconds (the timers of Fetcher have a clock of their own); the
    JSON of the standards baseline, whose reading is a parameter of Outage and is
    taken to give back the snapshot that was written; command-line flags; doc.go,
    which holds no code. *)

From Stdlib Require Export ZArith Lia Strings.Byte.
From stdpp Require Export base tactics decidable gmap strings list numbers.

#[global] Open Scope Z_scope.

(** ** Byte strings

    A Go [string] and a Go [[]byte] are both finite sequences of bytes; the
    conversion between the two copies the contents and nothing else, so one
    type models both. *)

Abbreviation byte := Byte.byte.
Abbreviation bytes := (list Byte.byte).

(** A Go string literal. *)
Definition go (s : string) : bytes := String.list_byte_of_string s.
Arguments go : simpl never.

Declare Scope go_scope.
Delimit Scope go_scope with go.
Notation "# s" := (go s%string) (at level 1, s at level 0, format "# s") : go_scope.
#[global] Open Scope go_scope.

#[export] Instance byte_eq_dec : EqDecision byte := Byte.byte_eq_dec.

#[export] Instance byte_countable : Countable byte :=
  inj_countable Byte.to_N Byte.of_N Byte.of_to_N.

(** The unsigned value of a byte and its inverse, which wraps modulo 256. *)
Definition bz (b : byte) : Z := Z.of_N (Byte.to_N b).
Definition zb (z : Z) : byte :=
  match Byte.of_N (Z.to_N (z mod 256)) with Some b => b | None => x00 end.

Lemma bz_range b : 0 ≤ bz b < 256.
Proof. destruct b; vm_compute; split; congruence. Qed.

Lemma zb_bz b : zb (bz b) = b.
Proof. destruct b; reflexivity. Qed.

Lemma bz_zb z : bz (zb z) = z mod 256.
Proof.
  unfold bz, zb.
  assert (Hz : 0 ≤ z mod 256 < 256) by (apply Z.mod_pos_bound; lia).
  destruct (Byte.of_N (Z.to_N (z mod 256))) as [b|] eqn:E.
  - apply Byte.to_of_N in E. rewrite E. lia.
  - apply Byte.of_N_None_iff in E. lia.
Qed.

Lemma bz_inj b c : bz b = bz c → b = c.
Proof. intros H. rewrite <- (zb_bz b), <- (zb_bz c). by rewrite H. Qed.

(** Equality of bytes as a test, and a test of the first byte. *)
Definition beq (c d : byte) : bool := Byte.eqb c d.
Arguments beq : simpl never.

Lemma beq_true c d : beq c d = true ↔ c = d.
Proof. split; [apply Byte.byte_dec_bl|apply Byte.byte_dec_lb]. Qed.

Lemma beq_false c d : beq c d = false ↔ c ≠ d.
Proof. rewrite <- beq_true. by destruct (beq c d). Qed.

Lemma beq_refl c : beq c c = true.
Proof. by apply beq_true. Qed.

Definition eat (c : byte) (s : bytes) : option bytes :=
  match s with d :: t => if beq d c then Some t else None | [] => None end.

Lemma eat_cons c s : eat c (c :: s) = Some s.
Proof. unfold eat. by rewrite beq_refl. Qed.

Lemma eat_Some c s t : eat c s = Some t ↔ s = c :: t.
Proof.
  split; [|intros ->; apply eat_cons]. destruct s as [|d s]; [done|]. simpl.
  destruct (beq d c) eqn:E; [|done]. apply beq_true in E. naive_solver.
Qed.

Lemma eat_ne c d s : d ≠ c → eat c (d :: s) = None.
Proof. intros H. unfold eat. by apply beq_false in H as ->. Qed.

(** A property of one byte is decided by evaluating it at all 256. *)
Definition all_bytes : list byte := (λ n, zb (Z.of_nat n)) <$> seq 0 256.

Lemma byte_forall (P : byte → bool) : forallb P all_bytes = true → ∀ b, P b = true.
Proof.
  intros H b. rewrite forallb_forall in H. apply H.
  apply list_elem_of_In, list_elem_of_fmap. exists (Z.to_nat (bz b)).
  pose proof (bz_range b). split.
  - rewrite Z2Nat.id by lia. by rewrite zb_bz.
  - apply elem_of_seq. lia.
Qed.

(** A literal with a quotation mark wherever [s] has an apostrophe: JSON text. *)
Definition gq (s : string) : bytes := (λ c, if beq c "'"%byte then x22 else c) <$> go s.
Arguments gq : simpl never.
Notation "#' s" := (gq s%string) (at level 1, s at level 0, format "#' s") : go_scope.

(** [len] is Go's [len]. *)
Definition len {A} (l : list A) : Z := Z.of_nat (length l).

Lemma len_nonneg {A} (l : list A) : 0 ≤ len l.
Proof. unfold len. lia. Qed.

Lemma len_app {A} (l k : list A) : len (l ++ k) = len l + len k.
Proof. unfold len. rewrite length_app. lia. Qed.

Lemma len_nil_inv {A} (l : list A) : len l = 0 → l = [].
Proof. destruct l; unfold len; simpl; [done|lia]. Qed.

(** ** Fallible code

    A Go function returning [(T, error)] returns a [result]: [Ok v] for a nil
    error, [Err e] otherwise.  The error type is left open here; [Errors]
    fixes it. *)

Inductive result (E A : Type) : Type :=
  | Ok (a : A)
  | Err (e : E).
Arguments Ok {E A} a.
Arguments Err {E A} e.

#[export] Instance result_ret {E} : MRet (result E) := λ A a, Ok a.
#[export] Instance result_bind {E} : MBind (result E) := λ A B k r,
  match r with Ok a => k a | Err e => Err e end.
#[export] Instance result_fmap {E} : FMap (result E) := λ A B f r,
  match r with Ok a => Ok (f a) | Err e => Err e end.

#[export] Instance result_eq_dec {E A} `{EqDecision E, EqDecision A} :
  EqDecision (result E A).
Proof. solve_decision. Defined.

Definition is_ok {E A} (r : result E A) : bool :=
  match r with Ok _ => true | Err _ => false end.

(** [if err := f(); err != nil { return wrap(err) }]. *)
Definition map_err {E F A} (f : E → F) (r : result E A) : result F A :=
  match r with Ok a => Ok a | Err e => Err (f e) end.

Definition of_option {E A} (e : E) (o : option A) : result E A :=
  match o with Some a => Ok a | None => Err e end.

Lemma bind_Ok {E A B} (r : result E A) (k : A → result E B) b :
  (r ≫= k) = Ok b ↔ ∃ a, r = Ok a ∧ k a = Ok b.
Proof. destruct r; simpl; naive_solver. Qed.

Lemma bind_Err {E A B} (r : result E A) (k : A → result E B) e :
  (r ≫= k) = Err e ↔ r = Err e ∨ ∃ a, r = Ok a ∧ k a = Err e.
Proof. destruct r; simpl; naive_solver. Qed.

Lemma fmap_Ok {E A B} (f : A → B) (r : result E A) b :
  f <$> r = Ok b ↔ ∃ a, r = Ok a ∧ f a = b.
Proof. destruct r; simpl; naive_solver. Qed.

Lemma map_err_Ok {E F A} (f : E → F) (r : result E A) a :
  map_err f r = Ok a ↔ r = Ok a.
Proof. destruct r; simpl; naive_solver. Qed.

Lemma of_option_Ok {E A} (e : E) (o : option A) a :
  of_option e o = Ok a ↔ o = Some a.
Proof. destruct o; simpl; naive_solver. Qed.

Lemma Ok_inj {E A} (a b : A) : (Ok a : result E A) = Ok b → a = b.
Proof. by intros [= ->]. Qed.

(** ** Automation *)

(** [crush_match] splits every [match] and [if] that a hypothesis or the goal
    is stuck on, keeping the equations. *)
Ltac crush_match := repeat (case_match; simplify_eq/=; try done).

(** [inv_ok H] turns [H : program = Ok v] into the facts the successful path
    goes through. *)
Ltac inv_ok H :=
  repeat first
    [ progress simplify_eq/=
    | match type of H with
      | (_ ≫= _) = Ok _ => apply bind_Ok in H; destruct H as (? & ? & H)
      | map_err _ _ = Ok _ => rewrite map_err_Ok in H
      | of_option _ _ = Ok _ => rewrite of_option_Ok in H
      | (if ?b then Err _ else _) = Ok _ => destruct b eqn:?; [discriminate H|]
      | (if ?b then _ else Err _) = Ok _ => destruct b eqn:?; [|discriminate H]
      | (match ?o with _ => _ end) = Ok _ => destruct o eqn:?; try discriminate H
      end ].

(** [inv_ok] on the intermediate results too. *)
Ltac inv_all := repeat
  match goal with
  | H : ?x = Ok _ |- _ =>
      lazymatch x with
      | (_ ≫= _) => idtac | (if _ then _ else _) => idtac
      | match _ with _ => _ end => idtac
      end; progress inv_ok H
  end.

(** Boolean facts as propositions. *)
Ltac bool_prop := repeat
  match goal with
  | H : (_ && _) = true |- _ => apply andb_true_iff in H; destruct H
  | H : (_ || _) = false |- _ => apply orb_false_iff in H; destruct H
  | H : negb _ = true |- _ => apply negb_true_iff in H
  | H : negb _ = false |- _ => apply negb_false_iff in H
  | H : beq _ _ = true |- _ => apply beq_true in H
  | H : beq _ _ = false |- _ => apply beq_false in H
  | H : bool_decide _ = true |- _ => apply bool_decide_eq_true in H
  | H : bool_decide _ = false |- _ => apply bool_decide_eq_false in H
  | H : (_ =? _) = true |- _ => apply Z.eqb_eq in H
  | H : (_ =? _) = false |- _ => apply Z.eqb_neq in H
  | H : (_ <? _) = true |- _ => apply Z.ltb_lt in H
  | H : (_ <? _) = false |- _ => apply Z.ltb_ge in H
  | H : (_ <=? _) = true |- _ => apply Z.leb_le in H
  | H : (_ <=? _) = false |- _ => apply Z.leb_gt in H
  end.

(** [lia] with division and remainder by constants. *)
Ltac div_lia := Z.to_euclidean_division_equations; lia.

Create HintDb jwt.
#[export] Hint Resolve bz_range len_nonneg : jwt.
Create Rewrite HintDb jwt_rw.
#[export] Hint Rewrite zb_bz bz_zb @len_app : jwt_rw.

(** ** Generic lemmas *)

Lemma Forall_elem {A} (P : A → Prop) l x : Forall P l → x ∈ l → P x.
Proof. intros Hl Hx. eapply List.Forall_forall; [done|]. by apply list_elem_of_In. Qed.

Lemma forallb_elem {A} (P : A → bool) l x : forallb P l = true → x ∈ l → P x = true.
Proof. intros Hl Hx. eapply forallb_forall; [done|]. by apply list_elem_of_In. Qed.

Lemma existsb_bool_decide {A} `{EqDecision A} (x : A) l :
  existsb (λ y, bool_decide (y = x)) l = bool_decide (x ∈ l).
Proof.
  apply eq_true_iff_eq. rewrite existsb_exists, bool_decide_eq_true. split.
  - intros (y & Hy & Hd). bool_prop. subst. by apply list_elem_of_In.
  - intros H. exists x. rewrite <- list_elem_of_In. split; [done|].
    by apply bool_decide_eq_true.
Qed.

(** Or-ing a value into the low bits below a shifted one is addition: the way
    Go assembles an integer from octets. *)
Lemma land_shiftl_low a b n :
  0 ≤ n → 0 ≤ b < 2 ^ n → Z.land (Z.shiftl a n) b = 0.
Proof.
  intros Hn Hb. apply Z.bits_inj'. intros i Hi. rewrite Z.land_spec, Z.bits_0.
  destruct (decide (i < n)).
  - by rewrite Z.shiftl_spec_low by lia.
  - rewrite <- (Z.mod_small b (2 ^ n)) by done.
    by rewrite Z.mod_pow2_bits_high, andb_false_r by lia.
Qed.

Lemma lor_shiftl_add a b n :
  0 ≤ n → 0 ≤ b < 2 ^ n → Z.lor (Z.shiftl a n) b = a * 2 ^ n + b.
Proof.
  intros Hn Hb. rewrite <- Z.shiftl_mul_pow2 by done.
  rewrite Z.add_nocarry_lxor by (by apply land_shiftl_low).
  symmetry. apply Z.lxor_lor. by apply land_shiftl_low.
Qed.
