(* ===== verification/Errors.v ===== *)
(** * Errors: the sentinel values of errors.go and internal/errors

    Go errors form a tree through [%w]; [errors.Is] asks whether a sentinel
    occurs in it.  An error is modelled by the list of its leaves, in the
    order the format strings wrap them; the text of the messages is not
    modelled, except for what [ErrText] carries. *)

From S2P Require Import Prelude.

Inductive cause : Type :=
  (* internal/errors *)
  | ErrInvalidSignature | ErrWeakKey | ErrUnsupportedAlgorithm
  | ErrKeyTypeMismatch | ErrMalformedKey
  (* errors.go *)
  | ErrExpired | ErrNotYetValid | ErrIssuerMismatch | ErrAudienceMismatch
  | ErrAlgorithmNotAllowed | ErrNoAllowedAlgorithms | ErrMissingClaim
  | ErrMalformedToken | ErrTypeMismatch | ErrKeyNotFound | ErrOctNotServable
  | ErrKeyUsage | ErrUnsupportedCritical
  (* jwt.go *)
  | ErrInvalidClaims | ErrInvalidDestination
  (* claims.go *)
  | ErrInvalidClaim | errNumericDateRange
  (* strictjson.go, internal/b64 *)
  | errNotObject | errNewline
  (* keyprovider.go *)
  | ErrKeyProvider | ErrVerifierProvider
  (* keyfetch.go, jwe.go *)
  | ErrKeyFetch | ErrDecryptionFailed
  (* httpauth.go *)
  | ErrNoClaimsInContext
  (* revoke.go *)
  | ErrInvalidRevocationID | ErrInvalidRevocationCapacity | ErrRevocationStoreFull
  (* package context *)
  | DeadlineExceeded | Canceled
  (* an error of the standard library's decoders, which wraps no sentinel *)
  | ErrText (msg : string)
  (* a run-time panic (a failed type assertion, say), carried as an error so
     that its absence can be stated *)
  | Panicked
  (* the error value of a caller-supplied callback *)
  | ForeignErr (id : Z).

#[export] Instance cause_eq_dec : EqDecision cause.
Proof. solve_decision. Defined.

Abbreviation error := (list cause).

(** A Go function returning only an [error]: [None] is nil. *)
Abbreviation err_opt := (option error).

Abbreviation res := (result error).

(** [errors.Is(err, target)]. *)
Definition errors_Is (e : error) (target : cause) : bool :=
  bool_decide (target ∈ e).

(** [fmt.Errorf("%w: %w", c, err)]. *)
Definition wrap (c : cause) (e : error) : error := c :: e.

(** [fmt.Errorf("%w: ...", c)] and a bare sentinel. *)
Definition fail {A} (c : cause) : res A := Err [c].

(** [if err := f(); err != nil { return err }]. *)
Definition check {A} (e : err_opt) (k : res A) : res A :=
  match e with Some e => Err e | None => k end.

Lemma check_Ok {A} e (k : res A) a : check e k = Ok a ↔ e = None ∧ k = Ok a.
Proof. destruct e; simpl; naive_solver. Qed.

Lemma errors_Is_wrap e c : errors_Is (wrap c e) c = true.
Proof. apply bool_decide_eq_true. apply elem_of_cons. by left. Qed.

Lemma errors_Is_cons e c d :
  errors_Is (d :: e) c = bool_decide (c = d) || errors_Is e c.
Proof.
  apply eq_true_iff_eq. unfold errors_Is.
  rewrite orb_true_iff, !bool_decide_eq_true. apply elem_of_cons.
Qed.

#[export] Hint Rewrite errors_Is_wrap : jwt_rw.
