(* ===== verification/GoLib.v ===== *)
(** * GoLib: the functions of Go's strings, bytes and strconv packages that
    the module calls

    Each definition is the library function restricted to the way the module
    calls it; where a function depends on the Unicode tables, the ASCII part is
    written out and the tables are a parameter ([Unicode]). *)

From S2P Require Import Prelude.

(** ** Searching *)

(** [strings.IndexByte]; [None] is -1. *)
Fixpoint IndexByte (s : bytes) (c : byte) : option nat :=
  match s with
  | [] => None
  | x :: t => if bool_decide (x = c) then Some O else S <$> IndexByte t c
  end.

(** [strings.Contains(s, string(c))] for a one-byte needle. *)
Definition ContainsByte (s : bytes) (c : byte) : bool := bool_decide (c ∈ s).

(** [strings.ContainsAny] for an ASCII character list. *)
Definition ContainsAny (s chars : bytes) : bool :=
  existsb (λ x, bool_decide (x ∈ chars)) s.

Definition HasPrefix (s p : bytes) : bool := bool_decide (take (length p) s = p).

(** [strings.TrimLeft] and [strings.TrimRight] for an ASCII cutset. *)
Fixpoint TrimLeft (s cutset : bytes) : bytes :=
  match s with
  | x :: t => if bool_decide (x ∈ cutset) then TrimLeft t cutset else s
  | [] => []
  end.

Definition TrimRight (s cutset : bytes) : bytes := rev (TrimLeft (rev s) cutset).

(** [strings.Join]. *)
Fixpoint Join (elems : list bytes) (sep : bytes) : bytes :=
  match elems with
  | [] => []
  | [s] => s
  | s :: t => s ++ sep ++ Join t sep
  end.

(** ** Case *)

Definition is_upper (c : byte) : bool := (65 <=? bz c) && (bz c <=? 90).
Definition is_lower (c : byte) : bool := (97 <=? bz c) && (bz c <=? 122).
Definition is_digit (c : byte) : bool := (48 <=? bz c) && (bz c <=? 57).

Definition lower_ascii (c : byte) : byte := if is_upper c then zb (bz c + 32) else c.

Definition is_ascii (s : bytes) : bool := forallb (λ c, bz c <? 128) s.

(** [unicode.ToLower] applied to every rune of a string that is not ASCII. *)
Class Unicode := { MapToLower : bytes → bytes }.

(** [strings.ToLower]: the ASCII fast path, then the rune map. *)
Definition ToLower `{Unicode} (s : bytes) : bytes :=
  if is_ascii s then map lower_ascii s else MapToLower s.

(** [strings.EqualFold(s, t)] for an ASCII [t].  Under simple folding only two
    runes outside ASCII fold to an ASCII letter: U+017F (octets C5 BF) to
    [s] and U+212A (octets E2 84 AA) to [k]. *)
Fixpoint EqualFold (s t : bytes) {struct s} : bool :=
  match s, t with
  | [], [] => true
  | xc5 :: xbf :: s', c :: t' =>
      bool_decide (lower_ascii c = "s"%byte) && EqualFold s' t'
  | xe2 :: x84 :: xaa :: s', c :: t' =>
      bool_decide (lower_ascii c = "k"%byte) && EqualFold s' t'
  | x :: s', c :: t' => bool_decide (lower_ascii x = lower_ascii c) && EqualFold s' t'
  | _, _ => false
  end.

(** ** Decimal integers *)

Fixpoint uint_bytes (d : Decimal.uint) : bytes :=
  match d with
  | Decimal.Nil => []
  | Decimal.D0 d => "0"%byte :: uint_bytes d
  | Decimal.D1 d => "1"%byte :: uint_bytes d
  | Decimal.D2 d => "2"%byte :: uint_bytes d
  | Decimal.D3 d => "3"%byte :: uint_bytes d
  | Decimal.D4 d => "4"%byte :: uint_bytes d
  | Decimal.D5 d => "5"%byte :: uint_bytes d
  | Decimal.D6 d => "6"%byte :: uint_bytes d
  | Decimal.D7 d => "7"%byte :: uint_bytes d
  | Decimal.D8 d => "8"%byte :: uint_bytes d
  | Decimal.D9 d => "9"%byte :: uint_bytes d
  end.

(** [strconv.FormatInt(z, 10)]. *)
Definition FormatInt (z : Z) : bytes :=
  match Z.to_int z with
  | Decimal.Pos d => uint_bytes d
  | Decimal.Neg d => "-"%byte :: uint_bytes d
  end.

(** The value of a string of decimal digits. *)
Definition dec_value (s : bytes) : Z :=
  fold_left (λ acc c, 10 * acc + (bz c - 48)) s 0.

(** ** Big-endian integers: [big.Int.SetBytes], [FillBytes], [binary.BigEndian] *)

Definition be_val (b : bytes) : Z := fold_left (λ acc c, 256 * acc + bz c) b 0.

(** The low [n] octets of [z], most significant first. *)
Fixpoint be_bytes (n : nat) (z : Z) : bytes :=
  match n with
  | O => []
  | S n => be_bytes n (z / 256) ++ [zb z]
  end.

(** [big.Int.BitLen]. *)
Definition BitLen (z : Z) : Z := if z =? 0 then 0 else Z.log2 (Z.abs z) + 1.

Lemma fold_be b : ∀ a,
  fold_left (λ acc c, 256 * acc + bz c) b a = a * 256 ^ len b + be_val b.
Proof.
  unfold be_val. induction b as [|c b IH]; intros a; cbn [fold_left].
  - unfold len. simpl. lia.
  - rewrite IH, (IH (256 * 0 + bz c)).
    assert (Hp : 256 ^ len (c :: b) = 256 * 256 ^ len b).
    { unfold len. simpl length. rewrite Nat2Z.inj_succ, Z.pow_succ_r by lia. done. }
    rewrite Hp. lia.
Qed.

Lemma be_val_app b c : be_val (b ++ c) = be_val b * 256 ^ len c + be_val c.
Proof. unfold be_val at 1. rewrite fold_left_app. apply fold_be. Qed.

Lemma be_val_snoc b c : be_val (b ++ [c]) = 256 * be_val b + bz c.
Proof. rewrite be_val_app. unfold len, be_val at 2. simpl. lia. Qed.

Lemma be_val_bound b : 0 ≤ be_val b < 256 ^ len b.
Proof.
  induction b as [|c b IH] using rev_ind; [vm_compute; split; congruence|].
  rewrite be_val_snoc, len_app. pose proof (bz_range c). pose proof (len_nonneg b).
  rewrite Z.pow_add_r by (unfold len; lia). change (256 ^ len [c]) with 256. lia.
Qed.

Lemma length_be_bytes n z : length (be_bytes n z) = n.
Proof.
  revert z. induction n as [|n IH]; intros z; simpl; [done|].
  rewrite length_app, IH. simpl. lia.
Qed.

Lemma be_val_bytes n z : be_val (be_bytes n z) = z mod 256 ^ Z.of_nat n.
Proof.
  revert z. induction n as [|n IH]; intros z.
  - simpl. by rewrite Z.mod_1_r.
  - cbn [be_bytes]. rewrite be_val_snoc, IH, bz_zb.
    rewrite Nat2Z.inj_succ, Z.pow_succ_r by lia.
    rewrite Z.rem_mul_r by (try apply Z.pow_nonzero; lia). lia.
Qed.

Lemma be_bytes_val b : be_bytes (length b) (be_val b) = b.
Proof.
  induction b as [|c b IH] using rev_ind; [done|].
  rewrite length_app, Nat.add_comm. cbn [length Nat.add be_bytes].
  rewrite be_val_snoc. pose proof (bz_range c). f_equal.
  - replace ((256 * be_val b + bz c) / 256) with (be_val b) by div_lia. apply IH.
  - f_equal. apply bz_inj. rewrite bz_zb. div_lia.
Qed.

Lemma be_val_inj b c : length b = length c → be_val b = be_val c → b = c.
Proof. intros Hl Hv. rewrite <- (be_bytes_val b), <- (be_bytes_val c). by rewrite Hl, Hv. Qed.

(** ** IndexByte *)

Lemma IndexByte_None s c : IndexByte s c = None ↔ c ∉ s.
Proof.
  induction s as [|x s IH]; simpl; [split; [intros _; apply not_elem_of_nil|done]|].
  rewrite not_elem_of_cons. case_bool_decide as Hx.
  - subst. naive_solver.
  - destruct (IndexByte s c); simpl; naive_solver.
Qed.

Lemma IndexByte_Some s c i :
  IndexByte s c = Some i ↔ ∃ a b, s = a ++ c :: b ∧ c ∉ a ∧ i = length a.
Proof.
  revert i. induction s as [|x s IH]; simpl; intros i.
  - split; [done|]. by intros ([|y a] & w & Hs & _).
  - case_bool_decide as Hx.
    + subst x. split.
      * intros [= <-]. exists [], s. split; [done|]. split; [apply not_elem_of_nil|done].
      * intros ([|y a] & b & Hs & Ha & ->); [done|]. simplify_eq/=.
        rewrite not_elem_of_cons in Ha. naive_solver.
    + split.
      * destruct (IndexByte s c) as [j|] eqn:Hj; [|done]. intros [= <-].
        destruct (proj1 (IH j) eq_refl) as (a & b & -> & Ha & ->). exists (x :: a), b.
        split; [done|]. rewrite not_elem_of_cons. naive_solver.
      * intros ([|y a] & b & Hs & Ha & ->); simplify_eq/=.
        rewrite not_elem_of_cons in Ha. destruct Ha as [_ Ha].
        by rewrite (proj2 (IH (length a))) by eauto.
Qed.

Lemma IndexByte_app a c b : c ∉ a → IndexByte (a ++ c :: b) c = Some (length a).
Proof. intros Ha. apply IndexByte_Some. eauto. Qed.

(** The two sides of a separator found at its index. *)
Lemma drop_sep {A} (a : list A) c b : drop (S (length a)) (a ++ c :: b) = b.
Proof. by rewrite cons_middle, app_assoc, drop_app_length' by (rewrite length_app; simpl; lia). Qed.

Lemma take_sep {A} (a : list A) c b : take (length a) (a ++ c :: b) = a.
Proof. apply take_app_length. Qed.
