(* ===== verification/B64.v ===== *)
(** * B64: internal/b64, canonical unpadded base64url

    [EncodeToString] and [DecodeString] are [base64.RawURLEncoding]'s methods
    (alphabet of RFC 4648 section 5, no padding); [Encode] and [Decode] are the
    functions of internal/b64/b64.go on top of them. *)

From S2P Require Import Prelude Errors GoLib.

(** ** encoding/base64 *)

(** The character of a 6-bit value, and back. *)
Definition enc6 (n : Z) : byte :=
  if n <? 26 then zb (65 + n)
  else if n <? 52 then zb (71 + n)
  else if n <? 62 then zb (n - 4)
  else if n =? 62 then "-"%byte else "_"%byte.

Definition dec6 (c : byte) : option Z :=
  if is_upper c then Some (bz c - 65)
  else if is_lower c then Some (bz c - 71)
  else if is_digit c then Some (bz c + 4)
  else if bool_decide (c = "-"%byte) then Some 62
  else if bool_decide (c = "_"%byte) then Some 63
  else None.

(** [val>>k & 0x3F] and [byte(val>>k)]. *)
Definition sextet (v k : Z) : byte := enc6 (Z.land (Z.shiftr v k) 63).
Definition octet (v k : Z) : byte := zb (Z.shiftr v k).
Arguments enc6 : simpl never.
Arguments dec6 : simpl never.
Arguments sextet : simpl never.
Arguments octet : simpl never.

Fixpoint EncodeToString (src : bytes) : bytes :=
  match src with
  | b0 :: b1 :: b2 :: t =>
      let v := Z.lor (Z.shiftl (bz b0) 16) (Z.lor (Z.shiftl (bz b1) 8) (bz b2)) in
      sextet v 18 :: sextet v 12 :: sextet v 6 :: sextet v 0 :: EncodeToString t
  | [b0; b1] =>
      let v := Z.lor (Z.shiftl (bz b0) 16) (Z.shiftl (bz b1) 8) in
      [sextet v 18; sextet v 12; sextet v 6]
  | [b0] =>
      let v := Z.shiftl (bz b0) 16 in
      [sextet v 18; sextet v 12]
  | [] => []
  end.

Definition corrupt {A} : res A := Err [ErrText "illegal base64 data"].

(** The values of the characters, CR and LF skipped: the first loop of
    [decodeQuantum]. *)
Fixpoint sextets (s : bytes) : option (list Z) :=
  match s with
  | [] => Some []
  | c :: t =>
      if bool_decide (c ∈ [x0a; x0d]) then sextets t
      else d ← dec6 c; ds ← sextets t; Some (d :: ds)
  end.

(** [decodeQuantum] over the whole input.  A quantum of one character is
    corrupt; in [Strict] mode the bits a short quantum does not use must be
    zero. *)
Fixpoint quanta (strict : bool) (ds : list Z) : res bytes :=
  match ds with
  | d0 :: d1 :: d2 :: d3 :: t =>
      let v := Z.lor (Z.shiftl d0 18)
                 (Z.lor (Z.shiftl d1 12) (Z.lor (Z.shiftl d2 6) d3)) in
      rest ← quanta strict t;
      Ok (octet v 16 :: octet v 8 :: octet v 0 :: rest)
  | [d0; d1; d2] =>
      let v := Z.lor (Z.shiftl d0 18) (Z.lor (Z.shiftl d1 12) (Z.shiftl d2 6)) in
      if strict && negb (bz (octet v 0) =? 0) then corrupt
      else Ok [octet v 16; octet v 8]
  | [d0; d1] =>
      let v := Z.lor (Z.shiftl d0 18) (Z.shiftl d1 12) in
      if strict && (negb (bz (octet v 8) =? 0) || negb (bz (octet v 0) =? 0)) then corrupt
      else Ok [octet v 16]
  | [_] => corrupt
  | [] => Ok []
  end.

(** [RawURLEncoding.DecodeString], with [Strict()] when [strict]. *)
Definition DecodeString (strict : bool) (s : bytes) : res bytes :=
  match sextets s with
  | Some ds => quanta strict ds
  | None => corrupt
  end.

(** ** internal/b64 *)

Definition Encode (b : bytes) : bytes := EncodeToString b.

Definition Decode (s : bytes) : res bytes :=
  if ContainsAny s [x0d; x0a] then fail errNewline else DecodeString true s.

(** The alphabet, as RFC 7515 section 2 states it. *)
Definition is_b64url (c : byte) : bool :=
  is_upper c || is_lower c || is_digit c || bool_decide (c = "-"%byte) || bool_decide (c = "_"%byte).

(** ** Characters *)

Lemma dec6_enc6 n : 0 ≤ n < 64 → dec6 (enc6 n) = Some n.
Proof.
  intros Hn.
  assert (Hall : forallb (λ n, bool_decide (dec6 (enc6 n) = Some n))
                   (Z.of_nat <$> seq 0 64) = true) by (vm_compute; done).
  rewrite forallb_forall in Hall.
  specialize (Hall n). rewrite bool_decide_eq_true in Hall. apply Hall.
  apply list_elem_of_In, list_elem_of_fmap. exists (Z.to_nat n).
  split; [lia|]. apply elem_of_seq. lia.
Qed.

(** What [dec6] accepts is the alphabet, and [enc6] undoes it. *)
Definition dec6_ok (c : byte) : bool :=
  match dec6 c with
  | Some n => (0 <=? n) && (n <? 64) && bool_decide (enc6 n = c) && is_b64url c
              && negb (bool_decide (c ∈ [x0d; x0a]))
  | None => negb (is_b64url c)
  end.

Lemma dec6_ok_all c : dec6_ok c = true.
Proof. revert c. apply byte_forall. vm_compute. reflexivity. Qed.

Lemma dec6_Some c n :
  dec6 c = Some n →
  0 ≤ n < 64 ∧ enc6 n = c ∧ is_b64url c = true ∧ c ∉ [x0d; x0a].
Proof.
  intros Hc. pose proof (dec6_ok_all c) as H. unfold dec6_ok in H.
  rewrite Hc in H. bool_prop. eauto with lia.
Qed.

Lemma is_b64url_dec6 c : is_b64url c = true → is_Some (dec6 c).
Proof.
  intros Hc. pose proof (dec6_ok_all c) as H. unfold dec6_ok in H.
  destruct (dec6 c); [eauto|]. by rewrite Hc in H.
Qed.

Lemma enc6_b64url n : 0 ≤ n < 64 → is_b64url (enc6 n) = true.
Proof. intros Hn. by destruct (dec6_Some _ _ (dec6_enc6 n Hn)) as (_ & _ & ? & _). Qed.

(** ** Quanta as arithmetic *)

Lemma sextet_spec v k : 0 ≤ k → sextet v k = enc6 (v / 2 ^ k mod 64).
Proof.
  intros Hk. unfold sextet. rewrite Z.shiftr_div_pow2 by done.
  change 63 with (Z.ones 6). by rewrite Z.land_ones by lia.
Qed.

Lemma octet_spec v k : 0 ≤ k → bz (octet v k) = v / 2 ^ k mod 256.
Proof. intros Hk. unfold octet. by rewrite bz_zb, Z.shiftr_div_pow2. Qed.

Lemma octet_bz v k b : 0 ≤ k → v / 2 ^ k mod 256 = bz b → octet v k = b.
Proof. intros Hk Hv. apply bz_inj. by rewrite octet_spec. Qed.

Lemma assemble3 a b c :
  0 ≤ b < 256 → 0 ≤ c < 256 →
  Z.lor (Z.shiftl a 16) (Z.lor (Z.shiftl b 8) c) = a * 65536 + b * 256 + c.
Proof. intros. rewrite (lor_shiftl_add b), (lor_shiftl_add a) by lia. lia. Qed.

Lemma assemble4 a b c d :
  0 ≤ b < 64 → 0 ≤ c < 64 → 0 ≤ d < 64 →
  Z.lor (Z.shiftl a 18) (Z.lor (Z.shiftl b 12) (Z.lor (Z.shiftl c 6) d))
  = a * 262144 + b * 4096 + c * 64 + d.
Proof.
  intros. rewrite (lor_shiftl_add c), (lor_shiftl_add b), (lor_shiftl_add a) by lia.
  lia.
Qed.

Lemma assemble2 a b k m :
  0 ≤ m ≤ k → 0 ≤ b < 2 ^ (k - m) →
  Z.lor (Z.shiftl a k) (Z.shiftl b m) = a * 2 ^ k + b * 2 ^ m.
Proof.
  intros Hm Hb. rewrite (Z.shiftl_mul_pow2 b) by lia. apply lor_shiftl_add; [lia|].
  replace k with (k - m + m) by lia. rewrite Z.pow_add_r by lia.
  pose proof (Z.pow_pos_nonneg 2 m). nia.
Qed.

Lemma assemble4_0 a b c :
  0 ≤ b < 64 → 0 ≤ c < 64 →
  Z.lor (Z.shiftl a 18) (Z.lor (Z.shiftl b 12) (Z.shiftl c 6))
  = a * 262144 + b * 4096 + c * 64.
Proof.
  intros. rewrite (assemble2 b) by lia. rewrite lor_shiftl_add by lia. lia.
Qed.

(** The sextet values of a byte string. *)
Fixpoint digits (src : bytes) : list Z :=
  match src with
  | b0 :: b1 :: b2 :: t =>
      let v := bz b0 * 65536 + bz b1 * 256 + bz b2 in
      [v / 262144; v / 4096 mod 64; v / 64 mod 64; v mod 64] ++ digits t
  | [b0; b1] =>
      let v := bz b0 * 65536 + bz b1 * 256 in
      [v / 262144; v / 4096 mod 64; v / 64 mod 64]
  | [b0] =>
      let v := bz b0 * 65536 in [v / 262144; v / 4096 mod 64]
  | [] => []
  end.

Lemma list_ind3 {A} (P : list A → Prop) :
  P [] → (∀ a, P [a]) → (∀ a b, P [a; b]) →
  (∀ a b c l, P l → P (a :: b :: c :: l)) → ∀ l, P l.
Proof.
  intros H0 H1 H2 H3. fix IH 1. intros [|a [|b [|c l]]].
  - exact H0.
  - apply H1.
  - apply H2.
  - apply H3, IH.
Qed.

Lemma list_ind4 {A} (P : list A → Prop) :
  P [] → (∀ a, P [a]) → (∀ a b, P [a; b]) → (∀ a b c, P [a; b; c]) →
  (∀ a b c d l, P l → P (a :: b :: c :: d :: l)) → ∀ l, P l.
Proof.
  intros H0 H1 H2 H3 H4. fix IH 1. intros [|a [|b [|c [|d l]]]].
  - exact H0.
  - apply H1.
  - apply H2.
  - apply H3.
  - apply H4, IH.
Qed.

Ltac byte_ranges := repeat
  match goal with
  | b : byte |- _ =>
      lazymatch goal with
      | _ : 0 ≤ bz b < 256 |- _ => fail
      | _ => pose proof (bz_range b)
      end
  end.

Lemma digits_range src : Forall (λ d, 0 ≤ d < 64) (digits src).
Proof.
  induction src as [|a|a b|a b c l IH] using list_ind3; cbn [digits app];
    byte_ranges; repeat (apply Forall_cons_2; [div_lia|]); auto.
Qed.

Lemma EncodeToString_digits src : EncodeToString src = enc6 <$> digits src.
Proof.
  induction src as [|a|a b|a b c l IH] using list_ind3; cbn -[Z.lor Z.shiftl];
    byte_ranges; [done| | |].
  - rewrite !sextet_spec, Z.shiftl_mul_pow2 by lia. repeat (f_equal; try div_lia).
  - rewrite !sextet_spec, assemble2 by lia.
    repeat (f_equal; try div_lia).
  - rewrite assemble3, !sextet_spec, IH by lia. repeat (f_equal; try div_lia).
Qed.

Lemma sextets_enc6 ds : Forall (λ d, 0 ≤ d < 64) ds → sextets (enc6 <$> ds) = Some ds.
Proof.
  induction 1 as [|d ds Hd _ IH]; [done|]. cbn [fmap list_fmap sextets].
  case_bool_decide as Hin.
  - by destruct (dec6_Some _ _ (dec6_enc6 d Hd)) as (_ & _ & _ & Hn); set_solver.
  - fold (fmap enc6 ds). by rewrite dec6_enc6, IH.
Qed.

Lemma sextets_Some s ds :
  sextets s = Some ds → ContainsAny s [x0d; x0a] = false →
  s = enc6 <$> ds ∧ Forall (λ d, 0 ≤ d < 64) ds.
Proof.
  revert ds. induction s as [|c s IH]; intros ds; cbn [sextets ContainsAny existsb];
    [by intros [= <-]|].
  intros Hs Hc. bool_prop. case_bool_decide; [set_solver|].
  destruct (dec6 c) as [d|] eqn:Hd; [|done].
  destruct (sextets s) as [ds'|]; simplify_eq/=.
  destruct (dec6_Some _ _ Hd) as (? & <- & _ & _).
  destruct (IH _ eq_refl) as [-> ?]; [done|]. by split; [|constructor].
Qed.

(** ** Decoding inverts encoding, and only accepts what encoding produces *)

Lemma quanta_digits strict src : quanta strict (digits src) = Ok src.
Proof.
  induction src as [|a|a b|a b c l IH] using list_ind3;
    cbn [digits app quanta]; byte_ranges; [done| | |].
  - rewrite assemble2, !octet_spec by div_lia.
    rewrite (octet_bz _ _ a) by div_lia.
    case_match eqn:E; [|done]. exfalso. bool_prop.
    apply orb_true_iff in H1 as [H1|H1]; bool_prop; div_lia.
  - rewrite assemble4_0, !octet_spec by div_lia.
    rewrite (octet_bz _ _ a), (octet_bz _ _ b) by div_lia.
    case_match eqn:E; [|done]. exfalso. bool_prop. div_lia.
  - rewrite assemble4, IH by div_lia. cbn [mbind result_bind].
    by rewrite (octet_bz _ _ a), (octet_bz _ _ b), (octet_bz _ _ c) by div_lia.
Qed.

Lemma quanta_strict_inv ds src :
  Forall (λ d, 0 ≤ d < 64) ds → quanta true ds = Ok src → ds = digits src.
Proof.
  revert src. induction ds as [|d|d e|d e f|d e f g ds IH] using list_ind4;
    intros src Hds; cbn [quanta]; intros H; [by simplify_eq/=|done| | |].
  - repeat (apply Forall_cons_1 in Hds as [? Hds]; cbv beta in * ).
    rewrite assemble2 in H by lia.
    destruct (true && _) eqn:E; [discriminate H|]. injection H as <-.
    cbn [andb] in E. bool_prop. cbn [digits].
    rewrite !octet_spec in * by lia. repeat (f_equal; try div_lia).
  - repeat (apply Forall_cons_1 in Hds as [? Hds]; cbv beta in * ).
    rewrite assemble4_0 in H by lia.
    destruct (true && _) eqn:E; [discriminate H|]. injection H as <-.
    cbn [andb] in E. bool_prop. cbn [digits].
    rewrite !octet_spec in * by lia. repeat (f_equal; try div_lia).
  - repeat (apply Forall_cons_1 in Hds as [? Hds]; cbv beta in * ).
    rewrite assemble4 in H by lia. inv_ok H.
    erewrite (IH _ Hds) by eassumption. cbn [digits app].
    rewrite !octet_spec by lia. repeat (f_equal; try div_lia).
Qed.

Lemma ContainsAny_Encode src : ContainsAny (Encode src) [x0d; x0a] = false.
Proof.
  unfold Encode, ContainsAny. rewrite EncodeToString_digits.
  apply not_true_iff_false. rewrite existsb_exists. intros (c & Hc & Hin).
  apply list_elem_of_In, list_elem_of_fmap in Hc as (d & -> & Hd).
  destruct (dec6_Some _ _ (dec6_enc6 d (Forall_elem _ _ _ (digits_range src) Hd))) as (_ & _ & _ & Hn).
  bool_prop. done.
Qed.

Lemma Decode_Encode_ok src : Decode (Encode src) = Ok src.
Proof.
  unfold Decode. rewrite ContainsAny_Encode. unfold DecodeString, Encode.
  rewrite EncodeToString_digits, sextets_enc6 by apply digits_range.
  apply quanta_digits.
Qed.

Lemma Decode_Some s src : Decode s = Ok src → s = Encode src.
Proof.
  unfold Decode, DecodeString, Encode. intros H.
  destruct (ContainsAny s _) eqn:Hn; [discriminate|].
  destruct (sextets s) as [ds|] eqn:Hs; [|discriminate].
  destruct (sextets_Some _ _ Hs Hn) as [-> Hr].
  rewrite EncodeToString_digits. f_equal. by apply quanta_strict_inv.
Qed.

Lemma Decode_inj s t src : Decode s = Ok src → Decode t = Ok src → s = t.
Proof. intros ->%Decode_Some ->%Decode_Some. done. Qed.

Lemma Encode_inj b c : Encode b = Encode c → b = c.
Proof.
  intros H. pose proof (Decode_Encode_ok b) as Hb. rewrite H, Decode_Encode_ok in Hb.
  congruence.
Qed.

Lemma Encode_alphabet src : forallb is_b64url (Encode src) = true.
Proof.
  unfold Encode. rewrite EncodeToString_digits. apply forallb_forall. intros c Hc.
  apply list_elem_of_In, list_elem_of_fmap in Hc as (d & -> & Hd).
  apply enc6_b64url. exact (Forall_elem _ _ _ (digits_range src) Hd).
Qed.

Lemma Encode_no_dot src : "."%byte ∉ Encode src.
Proof.
  intros H. by pose proof (forallb_elem _ _ _ (Encode_alphabet src) H).
Qed.

Lemma Encode_nil_inv src : Encode src = [] → src = [].
Proof. intros H. apply Encode_inj. by rewrite H. Qed.

Lemma len_Encode src : len (Encode src) = (8 * len src + 5) / 6.
Proof.
  unfold Encode. induction src as [|a|a b|a b c l IH] using list_ind3; [done..|].
  cbn [EncodeToString]. unfold len in *. cbn [length]. rewrite !Nat2Z.inj_succ, IH. div_lia.
Qed.

#[export] Hint Rewrite Decode_Encode_ok : jwt_rw.
#[export] Hint Resolve Encode_no_dot Decode_Encode_ok : jwt.

(** C28: base64url is a bijection between byte strings and the strings
    [Decode] accepts: every byte string has an encoding, that encoding decodes
    to it, and no other string does, so an encoded segment is not malleable;
    the accepted strings use the RFC 7515 alphabet only. *)
Theorem b64_canonical (s b : bytes) :
  (Decode s = Ok b ↔ s = Encode b) ∧
  (Decode s = Ok b → forallb is_b64url s = true).
Proof.
  assert (Hd : Decode s = Ok b ↔ s = Encode b).
  { split; [apply Decode_Some|intros ->; apply Decode_Encode_ok]. }
  split; [done|]. intros ->%Decode_Some. apply Encode_alphabet.
Qed.
