(* ===== verification/Utf8.v ===== *)
(** * Utf8: UTF-8 as Go's unicode/utf8 decodes it

    [rune_fold] is the loop [for _, r := range s]: it hands over the octets of
    each well-formed rune (Unicode table 3-7, Go's [acceptRanges]), and one
    octet at a time where the text is not well formed. *)

From S2P Require Import Prelude.

Definition in_range (lo hi : Z) (c : byte) : bool := (lo <=? bz c) && (bz c <=? hi).
Definition is_cont (c : byte) : bool := in_range 128 191 c.

Definition rune1 (c : byte) : bool := bz c <? 128.
Definition rune2 (c c1 : byte) : bool := in_range 194 223 c && is_cont c1.
Definition rune3 (c c1 c2 : byte) : bool :=
  (if bz c =? 224 then in_range 160 191 c1
   else if bz c =? 237 then in_range 128 159 c1
   else in_range 225 239 c && is_cont c1) && is_cont c2.
Definition rune4 (c c1 c2 c3 : byte) : bool :=
  (if bz c =? 240 then in_range 144 191 c1
   else if bz c =? 244 then in_range 128 143 c1
   else in_range 241 243 c && is_cont c1) && is_cont c2 && is_cont c3.

Section Fold.
Context {A : Type} (nil : A) (good : bytes → A → A) (bad : byte → A → A).

Fixpoint rune_fold (s : bytes) : A :=
  match s with
  | [] => nil
  | c :: t =>
      if rune1 c then good [c] (rune_fold t) else
      match t with
      | [] => bad c (rune_fold t)
      | c1 :: t1 =>
          if rune2 c c1 then good [c; c1] (rune_fold t1) else
          match t1 with
          | [] => bad c (rune_fold t)
          | c2 :: t2 =>
              if rune3 c c1 c2 then good [c; c1; c2] (rune_fold t2) else
              match t2 with
              | [] => bad c (rune_fold t)
              | c3 :: t3 =>
                  if rune4 c c1 c2 c3 then good [c; c1; c2; c3] (rune_fold t3)
                  else bad c (rune_fold t)
              end
          end
      end
  end.
End Fold.

(** [utf8.ValidString]. *)
Definition utf8_valid (s : bytes) : bool := rune_fold true (λ _ b, b) (λ _ _, false) s.

(** [utf8.AppendRune]. *)
Definition utf8_encode (v : Z) : bytes :=
  if v <? 128 then [zb v]
  else if v <? 2048 then [zb (192 + v / 64); zb (128 + v mod 64)]
  else if v <? 65536 then
    [zb (224 + v / 4096); zb (128 + v / 64 mod 64); zb (128 + v mod 64)]
  else
    [zb (240 + v / 262144); zb (128 + v / 4096 mod 64);
     zb (128 + v / 64 mod 64); zb (128 + v mod 64)].

(** The octets of one well-formed rune. *)
Definition is_rune (r : bytes) : bool :=
  match r with
  | [c] => rune1 c
  | [c; c1] => rune2 c c1
  | [c; c1; c2] => rune3 c c1 c2
  | [c; c1; c2; c3] => rune4 c c1 c2 c3
  | _ => false
  end.

Ltac rune_unfold := unfold rune1, rune2, rune3, rune4, is_cont, in_range in *.

Lemma rune2_not1 c c1 : rune2 c c1 = true → rune1 c = false.
Proof. rune_unfold. intros. bool_prop. lia. Qed.

Lemma rune3_head c c1 c2 : rune3 c c1 c2 = true → 224 ≤ bz c ≤ 239.
Proof.
  rune_unfold. intros. bool_prop.
  destruct (bz c =? 224) eqn:?; [|destruct (bz c =? 237) eqn:?]; bool_prop; lia.
Qed.

Lemma rune4_head c c1 c2 c3 : rune4 c c1 c2 c3 = true → 240 ≤ bz c ≤ 244.
Proof.
  rune_unfold. intros. bool_prop.
  destruct (bz c =? 240) eqn:?; [|destruct (bz c =? 244) eqn:?]; bool_prop; lia.
Qed.

Lemma rune1_lt c : rune1 c = true ↔ bz c < 128.
Proof. rune_unfold. apply Z.ltb_lt. Qed.

Lemma rune2_false c c1 : 224 ≤ bz c → rune2 c c1 = false.
Proof. intros. rune_unfold. apply andb_false_iff. left. apply andb_false_iff. lia. Qed.

Lemma rune3_false c c1 c2 : 240 ≤ bz c → rune3 c c1 c2 = false.
Proof.
  intros. apply not_true_iff_false. intros H3%rune3_head. lia.
Qed.

Lemma rune1_false c : 128 ≤ bz c → rune1 c = false.
Proof. intros. rune_unfold. lia. Qed.

(** Folding over a well-formed rune. *)
Lemma rune_fold_good {A} (nil : A) good bad r t :
  is_rune r = true →
  rune_fold nil good bad (r ++ t) = good r (rune_fold nil good bad t).
Proof.
  destruct r as [|c [|c1 [|c2 [|c3 [|]]]]]; cbn [is_rune app rune_fold]; intros H;
    try discriminate.
  - by rewrite H.
  - by rewrite (rune2_not1 _ _ H), H.
  - pose proof (rune3_head _ _ _ H).
    by rewrite rune1_false, rune2_false, H by lia.
  - pose proof (rune4_head _ _ _ _ H).
    by rewrite rune1_false, rune2_false, rune3_false, H by lia.
Qed.

(** Induction along the runes of a well-formed string. *)
Lemma utf8_ind (P : bytes → Prop) :
  P [] → (∀ r t, is_rune r = true → utf8_valid t = true → P t → P (r ++ t)) →
  ∀ s, utf8_valid s = true → P s.
Proof.
  intros H0 Hr. unfold utf8_valid in *.
  assert (H : ∀ n s, (length s <= n)%nat →
    rune_fold true (λ _ b, b) (λ _ _, false) s = true → P s); [|eauto].
  induction n as [|n IH]; intros s Hn Hs.
  { by destruct s; [|simpl in Hn; lia]. }
  destruct s as [|c t]; [done|]. cbn [rune_fold] in Hs. simpl in Hn.
  destruct (rune1 c) eqn:H1.
  { apply (Hr [c]); [done|done|]. apply IH; [lia|done]. }
  destruct t as [|c1 t1]; [done|]. simpl in Hn. destruct (rune2 c c1) eqn:H2.
  { apply (Hr [c; c1]); [done|done|]. apply IH; [lia|done]. }
  destruct t1 as [|c2 t2]; [done|]. simpl in Hn. destruct (rune3 c c1 c2) eqn:H3.
  { apply (Hr [c; c1; c2]); [done|done|]. apply IH; [lia|done]. }
  destruct t2 as [|c3 t3]; [done|]. simpl in Hn. destruct (rune4 c c1 c2 c3) eqn:H4; [|done].
  apply (Hr [c; c1; c2; c3]); [done|done|]. apply IH; [lia|done].
Qed.

Lemma utf8_valid_app s t : utf8_valid s = true → utf8_valid (s ++ t) = utf8_valid t.
Proof.
  revert s. apply utf8_ind; [done|]. intros r s Hr _ IH. rewrite <- app_assoc.
  unfold utf8_valid in *. by rewrite rune_fold_good by done.
Qed.

Lemma utf8_valid_rune r t : is_rune r = true → utf8_valid (r ++ t) = utf8_valid t.
Proof. intros Hr. unfold utf8_valid. by rewrite rune_fold_good. Qed.

Lemma is_rune_encode v :
  0 ≤ v < 55296 ∨ 57344 ≤ v < 1114112 → is_rune (utf8_encode v) = true.
Proof.
  intros Hv. unfold utf8_encode.
  destruct (v <? 128) eqn:?; [|destruct (v <? 2048) eqn:?;
    [|destruct (v <? 65536) eqn:?]]; cbn [is_rune]; rune_unfold; bool_prop;
    rewrite !bz_zb.
  - apply Z.ltb_lt. div_lia.
  - repeat (apply andb_true_iff; split); apply Z.leb_le; div_lia.
  - destruct (_ =? 224) eqn:?; [|destruct (_ =? 237) eqn:?]; bool_prop;
      repeat (apply andb_true_iff; split); apply Z.leb_le; div_lia.
  - destruct (_ =? 240) eqn:?; [|destruct (_ =? 244) eqn:?]; bool_prop;
      repeat (apply andb_true_iff; split); apply Z.leb_le; div_lia.
Qed.
