(* ===== verification/GoStr.v ===== *)
(** * GoStr: more of packages strings and strconv

    Splitting, trimming of white space and unsigned decimal numbers, as the
    loops of the Go library, with the lemmas the clients use. *)

From S2P Require Import Prelude Errors GoLib Utf8.

(** ** Splitting *)

(** [strings.Split] at a one-byte separator. *)
Fixpoint Split (s : bytes) (sep : byte) : list bytes :=
  match s with
  | [] => [ [] ]
  | c :: s =>
      if beq c sep then [] :: Split s sep
      else match Split s sep with
           | p :: ps => (c :: p) :: ps
           | [] => [ [c] ]
           end
  end.

(** [strings.Cut] at a one-byte separator: before, after, found. *)
Definition Cut (s : bytes) (sep : byte) : bytes * bytes * bool :=
  match IndexByte s sep with
  | Some i => (take i s, drop (S i) s, true)
  | None => (s, [], false)
  end.

Definition HasSuffix (s suffix : bytes) : bool :=
  (length suffix <=? length s)%nat && bool_decide (drop (length s - length suffix) s = suffix).

Definition TrimSuffix (s suffix : bytes) : bytes :=
  if HasSuffix s suffix then take (length s - length suffix) s else s.

(** ** White space *)

(** The encodings of the runes [unicode.IsSpace] holds of. *)
Definition space_runes : list bytes :=
  [ [x09]; [x0a]; [x0b]; [x0c]; [x0d]; [x20]; [xc2; x85]; [xc2; xa0]; [xe1; x9a; x80];
    [xe2; x80; x80]; [xe2; x80; x81]; [xe2; x80; x82]; [xe2; x80; x83]; [xe2; x80; x84];
    [xe2; x80; x85]; [xe2; x80; x86]; [xe2; x80; x87]; [xe2; x80; x88]; [xe2; x80; x89];
    [xe2; x80; x8a]; [xe2; x80; xa8]; [xe2; x80; xa9]; [xe2; x80; xaf]; [xe2; x81; x9f];
    [xe3; x80; x80] ].

(** Drops leading runes of a list of encodings; the length is enough fuel. *)
Fixpoint trim_runes (fuel : nat) (runes : list bytes) (s : bytes) : bytes :=
  match fuel with
  | O => s
  | S fuel =>
      match find (HasPrefix s) runes with
      | Some p => trim_runes fuel runes (drop (length p) s)
      | None => s
      end
  end.

(** [strings.TrimSpace]: from the left, then from the right. *)
Definition TrimSpace (s : bytes) : bytes :=
  let s := trim_runes (length s) space_runes s in
  rev (trim_runes (length s) (@rev byte <$> space_runes) (rev s)).

(** ** Unsigned decimals *)

Inductive num_error : Type := ErrSyntax | ErrRange.

Definition maxUint64 : Z := 18446744073709551615.

(** The loop of [strconv.ParseUint(s, 10, 64)]: a range error is returned at
    the digit that overflows, before the rest is looked at. *)
Fixpoint parse_uint_loop (n : Z) (s : bytes) : result num_error Z :=
  match s with
  | [] => Ok n
  | c :: s =>
      if negb (is_digit c) then Err ErrSyntax
      else if maxUint64 / 10 + 1 <=? n then Err ErrRange
      else
        let n1 := n * 10 + (bz c - 48) in
        if maxUint64 <? n1 then Err ErrRange else parse_uint_loop n1 s
  end.

Definition ParseUint (s : bytes) : result num_error Z :=
  match s with [] => Err ErrSyntax | _ => parse_uint_loop 0 s end.

(** ** Unquoting *)

(** [strconv.Unquote] of a double-quoted string that has an escape, a newline
    or text that is not UTF-8. *)
Class Unquoter := { UnquoteSlow : bytes → option bytes }.

(** [strconv.Unquote] of a string that starts and ends with a quotation mark,
    of which [inner] is the text in between. *)
Definition Unquote `{Unquoter} (inner : bytes) : option bytes :=
  match IndexByte (inner ++ [x22]) x22 with
  | None => None
  | Some i =>
      let head := take i inner in
      if negb (bool_decide (x5c ∈ head)) && negb (bool_decide (x0a ∈ head)) && utf8_valid head
      then if (i =? length inner)%nat then Some inner else None
      else UnquoteSlow inner
  end.

(** ** Facts *)

Lemma Split_nonempty s sep : Split s sep ≠ [].
Proof. destruct s as [|c s]; cbn [Split]; [done|]. destruct (beq c sep); [done|]. by destruct (Split s sep). Qed.

Lemma Split_plain p sep : sep ∉ p → Split p sep = [p].
Proof.
  induction p as [|c p IH]; intros Hp; [done|]. rewrite not_elem_of_cons in Hp. destruct Hp as [Hc Hp].
  cbn [Split]. rewrite (proj2 (beq_false c sep)) by done. by rewrite IH.
Qed.

Lemma Split_cons p sep t : sep ∉ p → Split (p ++ sep :: t) sep = p :: Split t sep.
Proof.
  induction p as [|c p IH]; intros Hp; cbn [app Split]; [by rewrite beq_refl|].
  rewrite not_elem_of_cons in Hp. destruct Hp as [Hc Hp].
  rewrite (proj2 (beq_false c sep)) by done. by rewrite IH.
Qed.

(** ** Case folding *)

(** The first rune of a string, folded, and the rest: one step of [EqualFold]. *)
Definition head_fold (s : bytes) : option (byte * bytes) :=
  match s with
  | [] => None
  | xc5 :: xbf :: s => Some ("s"%byte, s)
  | xe2 :: x84 :: xaa :: s => Some ("k"%byte, s)
  | x :: s => Some (lower_ascii x, s)
  end.

Definition fold_step (s t : bytes) : bool :=
  match head_fold s, t with
  | None, [] => true
  | Some (w, s), c :: t => bool_decide (w = lower_ascii c) && EqualFold s t
  | _, _ => false
  end.

Lemma bool_decide_sym {A} `{EqDecision A} (x y : A) : bool_decide (x = y) = bool_decide (y = x).
Proof. by apply bool_decide_ext. Qed.

Lemma EqualFold_step s t : EqualFold s t = fold_step s t.
Proof.
  unfold fold_step. destruct s as [|x s]; [by destruct t|].
  destruct t as [|c t].
  - destruct x; try reflexivity.
    + destruct s as [|y s]; [done|]. by destruct y.
    + destruct s as [|y s]; [done|]. destruct y; try done. destruct s as [|z s]; [done|]. by destruct z.
  - destruct x; try reflexivity.
    + destruct s as [|y s]; [done|]. destruct y; try done. cbn. by rewrite bool_decide_sym.
    + destruct s as [|y s]; [done|]. destruct y; try done. destruct s as [|z s]; [done|].
      destruct z; try done. cbn. by rewrite bool_decide_sym.
Qed.

Lemma head_fold_length s w s' : head_fold s = Some (w, s') → (length s' < length s)%nat.
Proof.
  intros Hs. destruct s as [|x s]; [done|]. cbn [length]. apply Nat.lt_succ_r.
  destruct x; cbn [head_fold] in Hs; try (injection Hs as _ <-; done).
  - destruct s as [|y s]; [by injection Hs as _ <-|].
    destruct y; injection Hs as _ <-; cbn [length]; lia.
  - destruct s as [|y s]; [by injection Hs as _ <-|].
    destruct y; try (injection Hs as _ <-; cbn [length]; lia).
    destruct s as [|z s]; [by injection Hs as _ <-|].
    destruct z; injection Hs as _ <-; cbn [length]; lia.
Qed.

(** A string that equals two ASCII names up to case shows them equal up to case. *)
Lemma EqualFold_det n : ∀ s t t', (length s < n)%nat →
  EqualFold s t = true → EqualFold s t' = true → map lower_ascii t = map lower_ascii t'.
Proof.
  induction n as [|n IH]; intros s t t' Hn; [lia|]. rewrite !EqualFold_step. unfold fold_step.
  destruct (head_fold s) as [[w s']|] eqn:Hs; [|by destruct t, t'].
  apply head_fold_length in Hs. destruct t as [|c t], t' as [|c' t']; try done.
  intros [Hc Ht]%andb_true_iff [Hc' Ht']%andb_true_iff. bool_prop.
  cbn [map]. rewrite <- Hc, <- Hc'. f_equal. apply (IH s'); [lia|done|done].
Qed.

Lemma EqualFold_differ s t t' :
  map lower_ascii t ≠ map lower_ascii t' → EqualFold s t = true → EqualFold s t' = false.
Proof.
  intros Hne Ht. destruct (EqualFold s t') eqn:Ht'; [|done].
  destruct Hne. apply (EqualFold_det (S (length s)) s); [lia|done|done].
Qed.
