(* ===== verification/SortedMap.v ===== *)
(** * SortedMap: the order of Go strings and maps enumerated in it

    A map whose entries are written in the order of their keys is a list in that
    order: [put] is the assignment to a key. *)

From stdpp Require Import sorting.
From S2P Require Import Prelude.

(** ** Definitions *)

(** The order of Go strings. *)
Fixpoint blt (a b : bytes) : bool :=
  match a, b with
  | _, [] => false
  | [], _ :: _ => true
  | x :: a, y :: b => if bz x =? bz y then blt a b else bz x <? bz y
  end.

(** [m[k] = v]. *)
Fixpoint put {A} (k : bytes) (v : A) (m : list (bytes * A)) : list (bytes * A) :=
  match m with
  | [] => [(k, v)]
  | (k', v') :: m =>
      if blt k k' then (k, v) :: (k', v') :: m
      else if bool_decide (k = k') then (k, v) :: m
      else (k', v') :: put k v m
  end.

(** ** Facts *)

Lemma blt_irrefl a : blt a a = false.
Proof. induction a as [|x a IH]; [done|]. cbn [blt]. by rewrite Z.eqb_refl. Qed.

Lemma blt_trans a : ∀ b c, blt a b = true → blt b c = true → blt a c = true.
Proof.
  induction a as [|x a IH]; intros [|y b] [|z c]; cbn [blt]; try done.
  destruct (bz x =? bz y) eqn:E1, (bz y =? bz z) eqn:E2; bool_prop; intros H1 H2.
  - rewrite (proj2 (Z.eqb_eq _ _)) by lia. by eapply IH.
  - rewrite (proj2 (Z.eqb_neq _ _)) by lia. apply Z.ltb_lt. bool_prop. lia.
  - rewrite (proj2 (Z.eqb_neq _ _)) by lia. apply Z.ltb_lt. bool_prop. lia.
  - bool_prop. rewrite (proj2 (Z.eqb_neq _ _)) by lia. apply Z.ltb_lt. lia.
Qed.

Lemma blt_total a : ∀ b, blt a b = false → a = b ∨ blt b a = true.
Proof.
  induction a as [|x a IH]; intros [|y b]; cbn [blt]; try (by auto).
  destruct (bz x =? bz y) eqn:E; bool_prop.
  - rewrite E, Z.eqb_refl. intros [->|?]%IH; [left|by right]. f_equal. by apply bz_inj.
  - intros Hlt. bool_prop. rewrite (proj2 (Z.eqb_neq _ _)) by lia. right. apply Z.ltb_lt. lia.
Qed.

Lemma blt_ne a b : blt a b = true → a ≠ b.
Proof. intros Hlt ->. by rewrite blt_irrefl in Hlt. Qed.

(** Labels in order. *)
Definition in_order (l : list bytes) : Prop := StronglySorted (λ a b, blt a b = true) l.

Lemma in_order_NoDup l : in_order l → NoDup l.
Proof.
  induction 1 as [|a l Hl IH Ha]; constructor; [|done]. intros Hin.
  pose proof (Forall_elem _ _ _ Ha Hin) as Hb. cbn in Hb. by rewrite blt_irrefl in Hb.
Qed.

Section Put.
Context {A : Type}.
Implicit Type m : list (bytes * A).

Lemma put_elem k v m x : x ∈ put k v m → x = (k, v) ∨ x ∈ m.
Proof.
  induction m as [|[k' v'] m IH]; cbn [put]; [rewrite list_elem_of_singleton; by left|].
  rewrite (elem_of_cons m). destruct (blt k k'); [by rewrite !elem_of_cons|].
  case_bool_decide; rewrite elem_of_cons; naive_solver.
Qed.

Lemma put_label k v m l : l ∈ (put k v m).*1 → l = k ∨ l ∈ m.*1.
Proof.
  intros ([l' a] & -> & Hin)%list_elem_of_fmap. apply put_elem in Hin as [[= -> ->]|Hin]; [by left|right].
  apply list_elem_of_fmap. by exists (l', a).
Qed.

Lemma put_order k v m : in_order m.*1 → in_order (put k v m).*1.
Proof.
  induction m as [|[k' v'] m IH]; cbn [put]; [repeat constructor|].
  rewrite fmap_cons. cbn [fst]. intros Hs. inversion Hs as [|? ? Hm Hk']; subst.
  destruct (blt k k') eqn:E.
  - rewrite !fmap_cons. cbn [fst]. constructor; [done|]. constructor; [done|].
    eapply list.Forall_impl; [exact Hk'|]. intros z. by apply blt_trans.
  - case_bool_decide as Hk; [by subst|]. rewrite fmap_cons. cbn [fst]. constructor; [by apply IH|].
    apply list.Forall_forall. intros z Hz. apply put_label in Hz as [->|Hz].
    + by destruct (blt_total _ _ E).
    + exact (Forall_elem _ _ _ Hk' Hz).
Qed.

(** A label above the others goes last. *)
Lemma put_last k v m : Forall (λ l, blt l k = true) m.*1 → put k v m = m ++ [(k, v)].
Proof.
  induction m as [|[k' v'] m IH]; [done|]. rewrite fmap_cons, list.Forall_cons. cbn [put fst]. intros [Hk Hm].
  destruct (blt k k') eqn:E.
  - pose proof (blt_trans _ _ _ E Hk) as Hb. by rewrite blt_irrefl in Hb.
  - rewrite bool_decide_eq_false_2 by (by intros ->; rewrite blt_irrefl in Hk). by rewrite IH.
Qed.

(** A new label goes between others. *)
Lemma put_split k v m : k ∉ m.*1 → ∃ m1 m2, m = m1 ++ m2 ∧ put k v m = m1 ++ (k, v) :: m2.
Proof.
  induction m as [|[k' v'] m IH]; [by exists [], []|]. rewrite fmap_cons, not_elem_of_cons. cbn [put fst].
  intros [Hk Hm]. destruct (blt k k'); [by exists [], ((k', v') :: m)|].
  rewrite bool_decide_eq_false_2 by done. destruct (IH Hm) as (m1 & m2 & -> & ->).
  by exists ((k', v') :: m1), m2.
Qed.
End Put.

(** ** Sorting *)

Fixpoint insert_sorted (x : bytes) (l : list bytes) : list bytes :=
  match l with
  | [] => [x]
  | y :: l => if blt y x then y :: insert_sorted x l else x :: y :: l
  end.

(** [slices.Sort] of strings: equal strings cannot be told apart, so that every
    algorithm gives this list. *)
Definition Sort (l : list bytes) : list bytes := fold_right insert_sorted [] l.

Definition ble (a b : bytes) : Prop := blt b a = false.

Lemma ble_trans a b c : ble a b → ble b c → ble a c.
Proof.
  unfold ble. intros H1 H2. destruct (blt c a) eqn:E; [|done].
  destruct (blt_total _ _ H1) as [->|Hab]; [congruence|].
  by rewrite (blt_trans _ _ _ E Hab) in H2.
Qed.

Lemma ble_antisym a b : ble a b → ble b a → a = b.
Proof. intros H1 H2. destruct (blt_total _ _ H1) as [->|H]; [done|]. unfold ble in H2. congruence. Qed.

Lemma insert_sorted_perm x l : insert_sorted x l ≡ₚ x :: l.
Proof.
  induction l as [|y l IH]; [done|]. cbn [insert_sorted]. destruct (blt y x); [|done]. rewrite IH. apply Permutation_swap.
Qed.

Lemma Sort_perm l : Sort l ≡ₚ l.
Proof. induction l as [|x l IH]; [done|]. change (insert_sorted x (Sort l) ≡ₚ x :: l). by rewrite insert_sorted_perm, IH. Qed.

Lemma insert_sorted_order x l : StronglySorted ble l → StronglySorted ble (insert_sorted x l).
Proof.
  induction 1 as [|y l Hl IH Hy]; cbn [insert_sorted]; [by repeat constructor|]. destruct (blt y x) eqn:E.
  - constructor; [done|]. apply list.Forall_forall. intros z. rewrite insert_sorted_perm, elem_of_cons.
    intros [->|Hz]; [|exact (Forall_elem _ _ _ Hy Hz)].
    unfold ble. destruct (blt x y) eqn:E2; [|done]. pose proof (blt_trans _ _ _ E E2) as Hb. by rewrite blt_irrefl in Hb.
  - constructor; [by constructor|]. constructor; [done|]. eapply list.Forall_impl; [exact Hy|].
    intros z. by apply ble_trans.
Qed.

Lemma Sort_order l : StronglySorted ble (Sort l).
Proof. induction l as [|x l IH]; [constructor|]. by apply insert_sorted_order. Qed.

(** A permuted list sorts to the same list. *)
Lemma sorted_unique l1 : ∀ l2, StronglySorted ble l1 → StronglySorted ble l2 → l1 ≡ₚ l2 → l1 = l2.
Proof.
  induction l1 as [|x l1 IH]; intros l2 H1 H2 Hp; [by apply Permutation_nil_l in Hp|].
  destruct l2 as [|y l2]; [by apply Permutation_nil_r in Hp|].
  apply StronglySorted_inv in H1 as [H1 Hx], H2 as [H2 Hy].
  assert (x = y) as ->.
  { destruct (decide (x = y)) as [|Hne]; [done|].
    assert (Hin : y ∈ x :: l1) by (rewrite Hp; by left). assert (Hin' : x ∈ y :: l2) by (rewrite <- Hp; by left).
    rewrite elem_of_cons in Hin, Hin'. destruct Hin as [->|Hin]; [done|]. destruct Hin' as [->|Hin']; [done|].
    apply ble_antisym; [exact (Forall_elem _ _ _ Hx Hin)|exact (Forall_elem _ _ _ Hy Hin')]. }
  f_equal. apply IH; [done|done|]. by apply Permutation_cons_inv in Hp.
Qed.

Lemma Sort_permuted l1 l2 : l1 ≡ₚ l2 → Sort l1 = Sort l2.
Proof. intros Hp. apply sorted_unique; [apply Sort_order..|]. by rewrite !Sort_perm. Qed.

Lemma elem_Sort x l : x ∈ Sort l ↔ x ∈ l.
Proof. by rewrite Sort_perm. Qed.
