(* ===== verification/Json.v ===== *)
(** * Json: encoding/json/v2 as strictjson.go uses it, and encoding/json's
    encoder

    [parse] is the syntax [jsonv2.Unmarshal] accepts by default (RFC 8259 with
    UTF-8 checked, duplicate member names refused after unescaping, nesting
    bounded, nothing but white space after the value), as a function to a tree.
    [print] is the compact form [json.Marshal] emits.  A
    [map[string]jsontext.Value] is a member list with distinct names.

    The parser consumes fuel; [parse] supplies twice the input length plus two,
    and [parse_total] shows that is always enough. *)

From S2P Require Import Prelude Errors GoLib Utf8.

Inductive json : Type :=
  | JNull
  | JBool (b : bool)
  | JNum (lit : bytes)        (* the literal, as written *)
  | JStr (s : bytes)          (* unescaped *)
  | JArr (l : list json)
  | JObj (m : list (bytes * json)).

(** ** Strings *)

Definition hex_value (c : byte) : option Z :=
  if is_digit c then Some (bz c - 48)
  else if in_range 97 102 c then Some (bz c - 87)
  else if in_range 65 70 c then Some (bz c - 55)
  else None.

Definition hex4 (a b c d : byte) : option Z :=
  a ← hex_value a; b ← hex_value b; c ← hex_value c; d ← hex_value d;
  Some (((a * 16 + b) * 16 + c) * 16 + d).

(** The two-character escapes of RFC 8259 section 7. *)
Definition simple_escape (e : byte) : option byte :=
  match e with
  | x22 => Some x22 | x5c => Some x5c | x2f => Some x2f
  | "b" => Some x08 | "f" => Some x0c | "n" => Some x0a
  | "r" => Some x0d | "t" => Some x09
  | _ => None
  end%byte.

Definition is_surrogate (v : Z) : bool := (55296 <=? v) && (v <? 57344).
Definition is_high (v : Z) : bool := (55296 <=? v) && (v <? 56320).
Definition is_low (v : Z) : bool := (56320 <=? v) && (v <? 57344).

Definition push {B} (r : bytes) (o : option (bytes * B)) : option (bytes * B) :=
  match o with Some (s, rest) => Some (r ++ s, rest) | None => None end.

(** The rest of a string literal after its opening quotation mark:
    [jsonwire.ConsumeString] with UTF-8 validation. *)
Fixpoint parse_str (s : bytes) : option (bytes * bytes) :=
  match s with
  | [] => None
  | c :: t =>
      if beq c x22 then Some ([], t)
      else if beq c x5c then
        match t with
        | [] => None
        | e :: t =>
            match simple_escape e with
            | Some c => push [c] (parse_str t)
            | None =>
                if negb (beq e "u"%byte) then None else
                match t with
                | a :: b :: c :: d :: t' =>
                    match hex4 a b c d with
                    | None => None
                    | Some v =>
                        if negb (is_surrogate v) then push (utf8_encode v) (parse_str t')
                        else
                        match t' with
                        | bs :: u :: a' :: b' :: c' :: d' :: t'' =>
                            if negb (beq bs x5c && beq u "u"%byte) then None else
                            match hex4 a' b' c' d' with
                            | None => None
                            | Some w =>
                                if is_high v && is_low w then
                                  push (utf8_encode (65536 + (v - 55296) * 1024 + (w - 56320)))
                                    (parse_str t'')
                                else None
                            end
                        | _ => None
                        end
                    end
                | _ => None
                end
            end
        end
      else if bz c <? 32 then None
      else if rune1 c then push [c] (parse_str t)
      else
      match t with
      | [] => None
      | c1 :: t1 =>
          if rune2 c c1 then push [c; c1] (parse_str t1) else
          match t1 with
          | [] => None
          | c2 :: t2 =>
              if rune3 c c1 c2 then push [c; c1; c2] (parse_str t2) else
              match t2 with
              | [] => None
              | c3 :: t3 =>
                  if rune4 c c1 c2 c3 then push [c; c1; c2; c3] (parse_str t3) else None
              end
          end
      end
  end.

(** ** Numbers *)

Fixpoint span_digits (s : bytes) : bytes * bytes :=
  match s with
  | c :: t => if is_digit c then let '(d, r) := span_digits t in (c :: d, r) else ([], s)
  | [] => ([], [])
  end.

Definition parse_int (s : bytes) : option (bytes * bytes) :=
  match s with
  | c :: t =>
      if beq c "0"%byte then Some ([c], t)
      else if is_digit c then let '(d, r) := span_digits t in Some (c :: d, r) else None
  | [] => None
  end.

(** One or more digits. *)
Definition digits1 (s : bytes) : option (bytes * bytes) :=
  match span_digits s with ([], _) => None | p => Some p end.

Definition parse_frac (s : bytes) : option (bytes * bytes) :=
  match eat "."%byte s with
  | Some t => push ["."%byte] (digits1 t)
  | None => Some ([], s)
  end.

Definition parse_exp (s : bytes) : option (bytes * bytes) :=
  match s with
  | e :: t =>
      if beq e "e"%byte || beq e "E"%byte then
        match t with
        | sg :: t' =>
            if beq sg "+"%byte || beq sg "-"%byte
            then push [e; sg] (digits1 t') else push [e] (digits1 t)
        | [] => None
        end
      else Some ([], s)
  | [] => Some ([], s)
  end.

(** [jsonwire.ConsumeNumber]. *)
Definition parse_number (s : bytes) : option (bytes * bytes) :=
  let '(sign, s) := match eat "-"%byte s with
                    | Some t => (["-"%byte], t)
                    | None => ([], s)
                    end in
  '(i, s) ← parse_int s;
  '(f, s) ← parse_frac s;
  '(e, s) ← parse_exp s;
  Some (sign ++ i ++ f ++ e, s).

(** ** Values *)

Definition is_ws (c : byte) : bool := bool_decide (c ∈ [x20; x09; x0d; x0a]).

Fixpoint skip_ws (s : bytes) : bytes :=
  match s with
  | c :: t => if is_ws c then skip_ws t else s
  | [] => []
  end.

Fixpoint strip_prefix (p s : bytes) : option bytes :=
  match p, s with
  | [], _ => Some s
  | c :: p', d :: s' => if bool_decide (c = d) then strip_prefix p' s' else None
  | _, [] => None
  end.

Inductive pres : Type :=
  | POk (v : json) (rest : bytes)
  | PFail
  | PFuel.

Definition of_opt {A} (f : A → json) (o : option (A * bytes)) : pres :=
  match o with Some (a, r) => POk (f a) r | None => PFail end.

Definition literal (p s : bytes) (v : json) : pres :=
  match strip_prefix p s with Some r => POk v r | None => PFail end.

(** [jsontext]'s limit on nested arrays and objects. *)
Definition maxNestingDepth : Z := 10000.

Fixpoint pvalue (n : nat) (d : Z) (s : bytes) {struct n} : pres :=
  match n with
  | O => PFuel
  | S n =>
      match s with
      | [] => PFail
      | c :: t =>
          if beq c "{"%byte then
            if maxNestingDepth <=? d then PFail else
            match eat "}"%byte (skip_ws t) with
            | Some r => POk (JObj []) r
            | None => pmembers n (d + 1) [] (skip_ws t)
            end
          else if beq c "["%byte then
            if maxNestingDepth <=? d then PFail else
            match eat "]"%byte (skip_ws t) with
            | Some r => POk (JArr []) r
            | None => pelems n (d + 1) [] (skip_ws t)
            end
          else if beq c x22 then of_opt JStr (parse_str t)
          else if beq c "t"%byte then literal #"true" s (JBool true)
          else if beq c "f"%byte then literal #"false" s (JBool false)
          else if beq c "n"%byte then literal #"null" s JNull
          else of_opt JNum (parse_number s)
      end
  end
with pelems (n : nat) (d : Z) (acc : list json) (s : bytes) {struct n} : pres :=
  match n with
  | O => PFuel
  | S n =>
      match pvalue n d s with
      | POk v r =>
          let acc := acc ++ [v] in
          match eat ","%byte (skip_ws r), eat "]"%byte (skip_ws r) with
          | Some r', _ => pelems n d acc (skip_ws r')
          | None, Some r' => POk (JArr acc) r'
          | None, None => PFail
          end
      | p => p
      end
  end
with pmembers (n : nat) (d : Z) (acc : list (bytes * json)) (s : bytes) {struct n} : pres :=
  match n with
  | O => PFuel
  | S n =>
      match eat x22 s ≫= parse_str with
      | None => PFail
      | Some (k, r) =>
          if bool_decide (k ∈ acc.*1) then PFail else
          match eat ":"%byte (skip_ws r) with
          | None => PFail
          | Some r' =>
              match pvalue n d (skip_ws r') with
              | POk v r =>
                  let acc := acc ++ [(k, v)] in
                  match eat ","%byte (skip_ws r), eat "}"%byte (skip_ws r) with
                  | Some r', _ => pmembers n d acc (skip_ws r')
                  | None, Some r' => POk (JObj acc) r'
                  | None, None => PFail
                  end
              | p => p
              end
          end
      end
  end.

Definition fuel_error : cause := ErrText "model: out of fuel".
Definition json_error : cause := ErrText "jsontext: syntax error".

(** A complete JSON text. *)
Definition parse (data : bytes) : res json :=
  match pvalue (2 * length data + 2) 0 (skip_ws data) with
  | POk v r => match skip_ws r with [] => Ok v | _ => fail json_error end
  | PFail => fail json_error
  | PFuel => fail fuel_error
  end.

(** ** json.Marshal *)

Definition hex_digit (n : Z) : byte := if n <? 10 then zb (48 + n) else zb (87 + n).

(** [appendString] with HTML escaping, one rune at a time. *)
Definition escape1 (c : byte) : bytes :=
  if beq c x22 || beq c x5c then [x5c; c]
  else if beq c x08 then #"\b"
  else if beq c x0c then #"\f"
  else if beq c x0a then #"\n"
  else if beq c x0d then #"\r"
  else if beq c x09 then #"\t"
  else if (bz c <? 32) || bool_decide (c ∈ #"<>&") then
    #"\u00" ++ [hex_digit (bz c / 16); hex_digit (bz c mod 16)]
  else [c].

Definition escape (r : bytes) : bytes :=
  match r with
  | [c] => escape1 c
  | _ =>
      if bool_decide (r = [xe2; x80; xa8]) then #"\u2028"
      else if bool_decide (r = [xe2; x80; xa9]) then #"\u2029"
      else r
  end.

Definition quote_body (s : bytes) : bytes :=
  rune_fold [] (λ r acc, escape r ++ acc) (λ _ acc, #"\ufffd" ++ acc) s.

Definition quote (s : bytes) : bytes := x22 :: quote_body s ++ [x22].

Fixpoint print (j : json) : bytes :=
  match j with
  | JNull => #"null"
  | JBool true => #"true"
  | JBool false => #"false"
  | JNum lit => lit
  | JStr s => quote s
  | JArr l => #"[" ++ Join (print <$> l) #"," ++ #"]"
  | JObj m =>
      #"{" ++ Join ((λ kv, quote (fst kv) ++ #":" ++ print (snd kv)) <$> m) #"," ++ #"}"
  end.

(** ** Well-formed values

    What strict decoding promises of the value it returns: strings are UTF-8,
    numbers are RFC 8259 literals, member names are distinct. *)

Definition num_ok (lit : bytes) : Prop := parse_number lit = Some (lit, []).

Fixpoint wf (j : json) : Prop :=
  match j with
  | JNull | JBool _ => True
  | JNum lit => num_ok lit
  | JStr s => utf8_valid s = true
  | JArr l => fold_right (λ v P, wf v ∧ P) True l
  | JObj m =>
      NoDup m.*1 ∧
      fold_right (λ kv P, (utf8_valid (fst kv) = true ∧ wf (snd kv)) ∧ P) True m
  end.

Fixpoint depth (j : json) : Z :=
  match j with
  | JArr l => 1 + fold_right (λ v d, Z.max (depth v) d) 0 l
  | JObj m => 1 + fold_right (λ kv d, Z.max (depth (snd kv)) d) 0 m
  | _ => 0
  end.

Lemma json_ind' (P : json → Prop) :
  P JNull → (∀ b, P (JBool b)) → (∀ n, P (JNum n)) → (∀ s, P (JStr s)) →
  (∀ l, Forall P l → P (JArr l)) →
  (∀ m, Forall (λ kv, P (snd kv)) m → P (JObj m)) → ∀ j, P j.
Proof.
  intros Hn Hb Hu Hs Ha Ho. fix IH 1. intros [|b|n|s|l|m].
  - exact Hn.
  - apply Hb.
  - apply Hu.
  - apply Hs.
  - apply Ha. induction l as [|v l IHl]; constructor; [apply IH|exact IHl].
  - apply Ho. induction m as [|[k v] m IHm]; constructor; [apply IH|exact IHm].
Qed.

Lemma wf_arr l : wf (JArr l) ↔ Forall wf l.
Proof.
  cbn [wf]. induction l as [|v l IH]; cbn [fold_right].
  - split; [constructor|done].
  - rewrite IH. split; [by intros [??]; constructor|].
    intros H. by apply Forall_cons_1 in H.
Qed.

Lemma wf_obj m :
  wf (JObj m) ↔
  NoDup m.*1 ∧ Forall (λ kv, utf8_valid (fst kv) = true ∧ wf (snd kv)) m.
Proof.
  cbn [wf]. f_equiv. induction m as [|v m IH]; cbn [fold_right].
  - split; [constructor|done].
  - rewrite IH. split; [by intros [??]; constructor|].
    intros H. by apply Forall_cons_1 in H.
Qed.

Lemma depth_arr_elem l v : v ∈ l → depth v < depth (JArr l).
Proof.
  cbn [depth]. induction l as [|w l IH]; cbn [fold_right]; [by intros ?%elem_of_nil|].
  intros [->|H]%elem_of_cons; [lia|]. specialize (IH H). lia.
Qed.

Lemma depth_obj_elem m k v : (k, v) ∈ m → depth v < depth (JObj m).
Proof.
  cbn [depth]. induction m as [|w l IH]; cbn [fold_right]; [by intros ?%elem_of_nil|].
  intros [<-|H]%elem_of_cons; [simpl; lia|]. specialize (IH H). lia.
Qed.

(** ** Strings round-trip *)

(** The part of [parse_str] that a raw rune takes. *)
Definition is_special (c : byte) : bool :=
  (bz c <? 32) || bool_decide (c = x22) || bool_decide (c = x5c).

Lemma parse_str_raw r t :
  is_rune r = true → (match r with c :: _ => is_special c | [] => true end) = false →
  parse_str (r ++ t) = push r (parse_str t).
Proof.
  destruct r as [|c [|c1 [|c2 [|c3 [|]]]]]; cbn [is_rune app]; intros H Hs;
    try discriminate; unfold is_special in Hs; bool_prop; cbn [parse_str];
    rewrite (proj2 (beq_false _ _)) by done;
    rewrite (proj2 (beq_false _ _)) by done;
    rewrite (proj2 (Z.ltb_ge _ _)) by done.
  - by rewrite H.
  - by rewrite (rune2_not1 _ _ H), H.
  - pose proof (rune3_head _ _ _ H).
    by rewrite rune1_false, rune2_false, H by lia.
  - pose proof (rune4_head _ _ _ _ H).
    by rewrite rune1_false, rune2_false, rune3_false, H by lia.
Qed.

Lemma escape_long r :
  (1 < length r)%nat → r ≠ [xe2; x80; xa8] → r ≠ [xe2; x80; xa9] → escape r = r.
Proof.
  intros Hl H1 H2. unfold escape. destruct r as [|c [|c1 r]]; [done|simpl in Hl; lia|].
  by rewrite !bool_decide_eq_false_2.
Qed.

Lemma is_rune_not_special r :
  is_rune r = true → (1 < length r)%nat →
  (match r with c :: _ => is_special c | [] => true end) = false.
Proof.
  intros Hr Hl.
  assert (Hc : ∀ c, 128 ≤ bz c → is_special c = false).
  { intros c. pose proof (byte_forall (λ c, (bz c <? 128) || negb (is_special c)) eq_refl c) as H.
    cbv beta in H. intros. apply orb_true_iff in H as [H|H]; bool_prop; [lia|done]. }
  destruct r as [|c [|c1 [|c2 [|c3 [|]]]]]; cbn [is_rune length] in *; try discriminate;
    try lia; apply Hc.
  - pose proof (rune2_not1 _ _ Hr). rune_unfold. bool_prop. lia.
  - pose proof (rune3_head _ _ _ Hr). lia.
  - pose proof (rune4_head _ _ _ _ Hr). lia.
Qed.

Lemma parse_str_escape r t :
  is_rune r = true → parse_str (escape r ++ t) = push r (parse_str t).
Proof.
  intros Hr. destruct (decide (length r = 1%nat)) as [Hl|Hl].
  - destruct r as [|c [|]]; try discriminate. cbn [is_rune] in Hr.
    destruct c; try (vm_compute in Hr; discriminate); reflexivity.
  - assert (Hl' : (1 < length r)%nat).
    { destruct r as [|? [|]]; simpl in *; try discriminate; lia. }
    destruct (decide (r = [xe2; x80; xa8])) as [->|H1]; [reflexivity|].
    destruct (decide (r = [xe2; x80; xa9])) as [->|H2]; [reflexivity|].
    rewrite escape_long by done. apply parse_str_raw; [done|].
    by apply is_rune_not_special.
Qed.

Lemma parse_str_quote s rest :
  utf8_valid s = true → parse_str (quote_body s ++ x22 :: rest) = Some (s, rest).
Proof.
  revert s. apply utf8_ind; [done|]. intros r t Hr _ IH. unfold quote_body in *.
  rewrite rune_fold_good, <- app_assoc, parse_str_escape, IH by done. done.
Qed.

(** Every string the decoder returns is UTF-8. *)
Lemma push_Some {B} r (o : option (bytes * B)) s x :
  push r o = Some (s, x) ↔ ∃ t, o = Some (t, x) ∧ s = r ++ t.
Proof. destruct o as [[t y]|]; simpl; naive_solver. Qed.

Lemma hex_value_range c v : hex_value c = Some v → 0 ≤ v < 16.
Proof. unfold hex_value, is_digit, in_range. intros. crush_match; bool_prop; lia. Qed.

Lemma hex4_range a b c d v : hex4 a b c d = Some v → 0 ≤ v < 65536.
Proof.
  unfold hex4. intros.
  destruct (hex_value a) eqn:Ha; [|done]. destruct (hex_value b) eqn:Hb; [|done].
  destruct (hex_value c) eqn:Hc; [|done]. destruct (hex_value d) eqn:Hd; [|done].
  simplify_eq/=. apply hex_value_range in Ha, Hb, Hc, Hd. lia.
Qed.

Lemma simple_escape_rune e c : simple_escape e = Some c → is_rune [c] = true.
Proof. destruct e; intros [= <-]; reflexivity. Qed.

(** [parse_str] consumes its input and yields UTF-8. *)
Lemma utf8_encode_valid v t :
  0 ≤ v < 1114112 → is_surrogate v = false →
  utf8_valid t = true → utf8_valid (utf8_encode v ++ t) = true.
Proof.
  intros Hv Hs Ht. rewrite utf8_valid_rune; [done|]. apply is_rune_encode.
  unfold is_surrogate in Hs. apply andb_false_iff in Hs. lia.
Qed.

Lemma parse_str_spec s t r :
  parse_str s = Some (t, r) → utf8_valid t = true ∧ (length r < length s)%nat.
Proof.
  assert (H : ∀ n s t r, (length s <= n)%nat → parse_str s = Some (t, r) →
    utf8_valid t = true ∧ (length r < length s)%nat); [|eauto].
  clear. induction n as [|n IH]; intros s t r Hn Hp.
  { by destruct s; [|simpl in Hn; lia]. }
  assert (Hpush : ∀ ru s', (length s' < length s)%nat →
    (∀ u, utf8_valid u = true → utf8_valid (ru ++ u) = true) →
    push ru (parse_str s') = Some (t, r) →
    utf8_valid t = true ∧ (length r < length s)%nat).
  { intros ru s' Hl Hv (u & Hu & ->)%push_Some.
    destruct (IH s' u r ltac:(lia) Hu). split; [auto|lia]. }
  destruct s as [|c s]; [done|]. cbn [parse_str] in Hp. simpl in Hn.
  destruct (beq c x22) eqn:?; [simplify_eq/=; split; [done|simpl; lia]|].
  destruct (beq c x5c) eqn:?.
  - destruct s as [|e s]; [done|]. destruct (simple_escape e) as [c'|] eqn:He.
    { revert Hp. apply Hpush; [simpl; lia|]. intros u Hu.
      by rewrite utf8_valid_rune by (by eapply simple_escape_rune). }
    destruct (negb (beq e "u"%byte)); [done|].
    destruct s as [|a1 [|a2 [|a3 [|a4 s]]]]; try done.
    destruct (hex4 a1 a2 a3 a4) as [v|] eqn:Hv; [|done]. apply hex4_range in Hv.
    destruct (negb (is_surrogate v)) eqn:Hsur; bool_prop.
    { revert Hp. apply Hpush; [simpl; lia|]. intros u. apply utf8_encode_valid; [lia|done]. }
    destruct s as [|b1 [|b2 [|b3 [|b4 [|b5 [|b6 s]]]]]]; try done.
    destruct (negb (beq b1 x5c && beq b2 "u"%byte)); [done|].
    destruct (hex4 b3 b4 b5 b6) as [w|] eqn:Hw; [|done].
    destruct (is_high v && is_low w) eqn:Hhl; [|done].
    unfold is_high, is_low in Hhl. bool_prop.
    revert Hp. apply Hpush; [simpl; lia|]. intros u. apply utf8_encode_valid; [lia|].
    unfold is_surrogate. apply andb_false_iff. right. apply Z.ltb_ge. lia.
  - assert (Hrune : ∀ ru u, is_rune ru = true → utf8_valid u = true →
      utf8_valid (ru ++ u) = true) by (intros; by rewrite utf8_valid_rune).
    destruct (bz c <? 32); [done|].
    destruct (rune1 c) eqn:?; [revert Hp; apply Hpush; simpl; [lia|]; intros u; by apply (Hrune [c])|].
    destruct s as [|c1 s]; [done|].
    destruct (rune2 c c1) eqn:?; [revert Hp; apply Hpush; simpl; [lia|]; intros u; by apply (Hrune [c; c1])|].
    destruct s as [|c2 s]; [done|].
    destruct (rune3 c c1 c2) eqn:?; [revert Hp; apply Hpush; simpl; [lia|]; intros u; by apply (Hrune [c; c1; c2])|].
    destruct s as [|c3 s]; [done|].
    destruct (rune4 c c1 c2 c3) eqn:?; [|done].
    revert Hp; apply Hpush; simpl; [lia|]; intros u; by apply (Hrune [c; c1; c2; c3]).
Qed.

(** ** Numbers round-trip *)

(** What may follow a number for the literal to end there. *)
Definition num_stop (s : bytes) : bool :=
  match s with
  | c :: _ => negb (is_digit c || beq c "."%byte || beq c "e"%byte || beq c "E"%byte)
  | [] => true
  end.

Lemma span_digits_eq s d r : span_digits s = (d, r) → s = d ++ r.
Proof.
  revert d r. induction s as [|c s IH]; simpl; intros d r; [naive_solver|].
  destruct (is_digit c); [|naive_solver].
  destruct (span_digits s) as [d' r'] eqn:E. intros [= <- <-]. simpl. f_equal. by apply IH.
Qed.

(** [r'] stops a number wherever [r] does. *)
Definition agree (r r' : bytes) : Prop := num_stop r' = true ∨ head r' = head r.

Lemma agree_app x r r' : agree r r' → agree (x ++ r) (x ++ r').
Proof. destruct x; [done|]. intros _. by right. Qed.

Lemma agree_nil r : agree r [].
Proof. by left. Qed.

Lemma num_stop_cons c r :
  num_stop (c :: r) = true →
  is_digit c = false ∧ c ≠ "."%byte ∧ c ≠ "e"%byte ∧ c ≠ "E"%byte.
Proof. simpl. intros H. bool_prop. done. Qed.

(** A sub-parser of numbers returns what it consumed, and of its rest only the
    first octet matters. *)
Definition num_parser (p : bytes → option (bytes * bytes)) : Prop :=
  ∀ s x r, p s = Some (x, r) →
    s = x ++ r ∧ ∀ r', agree r r' → p (x ++ r') = Some (x, r').

Lemma span_digits_stop r r' :
  agree r r' → span_digits r = ([], r) → span_digits r' = ([], r').
Proof.
  intros Ha Hr. destruct r' as [|c r']; [done|]. simpl. destruct Ha as [Hs|Hh].
  - by destruct (num_stop_cons _ _ Hs) as [-> _].
  - destruct r as [|d r]; [done|]. simplify_eq/=. destruct (is_digit d); [|done].
    by destruct (span_digits r).
Qed.

Lemma span_digits_local s d r r' :
  span_digits s = (d, r) → agree r r' → span_digits (d ++ r') = (d, r').
Proof.
  revert d. induction s as [|c s IH]; simpl; intros d.
  - intros [= <- <-] Ha. by apply (span_digits_stop []).
  - destruct (is_digit c) eqn:Hc.
    + destruct (span_digits s) as [d' r0] eqn:E. intros [= <- ->] Ha.
      cbn [app span_digits]. by rewrite Hc, (IH d').
    + intros [= <- <-] Ha. apply (span_digits_stop (c :: s)); [done|]. simpl. by rewrite Hc.
Qed.

Lemma digits1_parser : num_parser digits1.
Proof.
  intros s x r H. unfold digits1 in *. destruct (span_digits s) as [d r0] eqn:E.
  destruct d as [|c d]; [done|]. simplify_eq/=. split; [exact (span_digits_eq _ _ _ E)|].
  intros r' Ha. pose proof (span_digits_local _ _ _ _ E Ha) as Hl.
  cbn [app span_digits] in Hl. by rewrite Hl.
Qed.

Lemma digits1_nonempty s d r : digits1 s = Some (d, r) → d ≠ [].
Proof. unfold digits1. by destruct (span_digits s) as [[]]; intros; simplify_eq/=. Qed.

Lemma parse_int_parser : num_parser parse_int.
Proof.
  intros [|c s] x r H; [done|]. cbn [parse_int] in H.
  destruct (beq c "0"%byte) eqn:Hc.
  { simplify_eq/=. split; [done|]. intros r' _. by rewrite Hc. }
  destruct (is_digit c) eqn:Hd; [|done]. destruct (span_digits s) as [d r0] eqn:E.
  simplify_eq/=. split; [by rewrite <- (span_digits_eq _ _ _ E)|].
  intros r' Ha. by rewrite Hc, Hd, (span_digits_local _ _ _ _ E Ha).
Qed.

Lemma parse_frac_parser : num_parser parse_frac.
Proof.
  intros s x r H. unfold parse_frac in *. destruct (eat "."%byte s) as [t|] eqn:E.
  - apply eat_Some in E as ->. apply push_Some in H as (d & Hd & ->).
    destruct (digits1_parser _ _ _ Hd) as [-> Hx]. split; [done|]. intros r' Ha.
    cbn [app]. rewrite eat_cons. by rewrite (Hx r' Ha).
  - simplify_eq/=. split; [done|]. intros [|c r'] Ha; [done|].
    destruct Ha as [Hs|Hh].
    + destruct (num_stop_cons _ _ Hs) as (_ & ? & _). by rewrite eat_ne.
    + destruct r; simplify_eq/=. by destruct (beq _ "."%byte).
Qed.

Lemma parse_exp_parser : num_parser parse_exp.
Proof.
  intros s x r H.
  assert (Hempty : ∀ c u r', agree (c :: u) r' → beq c "e"%byte || beq c "E"%byte = false →
    parse_exp r' = Some ([], r')).
  { intros c u [|c' r'] [Hs|Hh] Hc; try done; cbn [parse_exp].
    - destruct (num_stop_cons _ _ Hs) as (_ & _ & ?%beq_false & ?%beq_false).
      by rewrite H0, H1.
    - simplify_eq/=. by rewrite Hc. }
  destruct s as [|e s]; cbn [parse_exp] in H.
  { simplify_eq/=. split; [done|]. intros [|c r'] [Hs|Hh]; try done.
    destruct (num_stop_cons _ _ Hs) as (_ & _ & ?%beq_false & ?%beq_false).
    cbn [parse_exp]. by rewrite H, H0. }
  destruct (beq e "e"%byte || beq e "E"%byte) eqn:Ee.
  2:{ simplify_eq/=. split; [done|]. intros r' Ha. by eapply Hempty. }
  destruct s as [|sg s]; [done|].
  destruct (beq sg "+"%byte || beq sg "-"%byte) eqn:Esg;
    apply push_Some in H as (d & Hd & ->);
    destruct (digits1_parser _ _ _ Hd) as [Hs Hx].
  - rewrite Hs. split; [done|]. intros r' Ha. cbn [app parse_exp].
    by rewrite Ee, Esg, (Hx r' Ha).
  - pose proof (digits1_nonempty _ _ _ Hd).
    rewrite Hs. split; [done|]. intros r' Ha. destruct d as [|d1 d]; [done|].
    cbn [app parse_exp] in *. simplify_eq/=. by rewrite Ee, Esg, (Hx r' Ha).
Qed.

(** The optional minus sign, as a sub-parser. *)
Definition parse_sign (s : bytes) : bytes * bytes :=
  match eat "-"%byte s with Some t => (["-"%byte], t) | None => ([], s) end.

Lemma parse_sign_local s sg r r' :
  parse_sign s = (sg, r) → head r' = head r → r ≠ [] →
  s = sg ++ r ∧ parse_sign (sg ++ r') = (sg, r').
Proof.
  unfold parse_sign. destruct (eat "-"%byte s) as [t|] eqn:E; intros [= <- <-] Hh Hr.
  - apply eat_Some in E as ->. split; [done|]. cbn [app]. by rewrite eat_cons.
  - split; [done|]. destruct s as [|c s]; [done|]. destruct r' as [|c' r']; simplify_eq/=.
    by destruct (beq c "-"%byte).
Qed.

Lemma parse_int_nonempty s i r : parse_int s = Some (i, r) → i ≠ [].
Proof. destruct s as [|c s]; simpl; [done|]. intros. crush_match. Qed.

Lemma parse_number_parser : num_parser parse_number.
Proof.
  intros s x r H. unfold parse_number in H. fold (parse_sign s) in H.
  destruct (parse_sign s) as [sg s1] eqn:E1.
  destruct (parse_int s1) as [[i s2]|] eqn:Ei; [|done]. cbn [mbind option_bind] in H.
  destruct (parse_frac s2) as [[f s3]|] eqn:Ef; [|done]. cbn [mbind option_bind] in H.
  destruct (parse_exp s3) as [[e s4]|] eqn:Ee; [|done]. cbn [mbind option_bind] in H.
  injection H as <- <-. pose proof (parse_int_nonempty _ _ _ Ei) as Hi0.
  destruct (parse_int_parser _ _ _ Ei) as [-> Hi].
  destruct (parse_frac_parser _ _ _ Ef) as [-> Hf].
  destruct (parse_exp_parser _ _ _ Ee) as [-> He].
  assert (Hne : i ++ f ++ e ++ s4 ≠ []) by (by destruct i).
  split.
  { destruct (parse_sign_local _ _ _ _ E1 eq_refl Hne) as [-> _].
    by rewrite <- !app_assoc. }
  intros r' Ha. unfold parse_number. fold (parse_sign ((sg ++ i ++ f ++ e) ++ r')).
  rewrite <- !app_assoc.
  destruct (parse_sign_local s sg _ (i ++ f ++ e ++ r') E1) as [_ ->];
    [by destruct i|done|].
  rewrite Hi by (by repeat apply agree_app). cbn [mbind option_bind].
  rewrite Hf by (by repeat apply agree_app). cbn [mbind option_bind].
  by rewrite He.
Qed.

Lemma parse_number_lit lit rest :
  num_ok lit → num_stop rest = true → parse_number (lit ++ rest) = Some (lit, rest).
Proof. intros H Hr. apply (parse_number_parser _ _ _ H). by left. Qed.

Lemma parse_number_spec s lit r :
  parse_number s = Some (lit, r) → num_ok lit ∧ (length r < length s)%nat.
Proof.
  intros H. destruct (parse_number_parser _ _ _ H) as [-> Hl]. split.
  - specialize (Hl [] (agree_nil r)). by rewrite app_nil_r in Hl.
  - rewrite length_app. destruct lit; [|simpl; lia].
    by specialize (Hl [] (agree_nil r)).
Qed.

(** ** The parser consumes, respects the depth bound, and returns well-formed
    values *)

Lemma skip_ws_length s : (length (skip_ws s) <= length s)%nat.
Proof. induction s as [|c s IH]; simpl; [lia|]. destruct (is_ws c); simpl; lia. Qed.

Lemma eat_length c s t : eat c s = Some t → length s = S (length t).
Proof. by intros ->%eat_Some. Qed.

Lemma eat_ws_length c s t : eat c (skip_ws s) = Some t → (length t < length s)%nat.
Proof. intros H%eat_length. pose proof (skip_ws_length s). lia. Qed.

Lemma strip_prefix_length p s r :
  strip_prefix p s = Some r → length s = (length p + length r)%nat.
Proof.
  revert s. induction p as [|c p IH]; intros [|d s]; simpl; try naive_solver.
  case_bool_decide; [|done]. intros H'. by rewrite (IH _ H').
Qed.

Definition member_ok (d : Z) (kv : bytes * json) : Prop :=
  utf8_valid (fst kv) = true ∧ wf (snd kv) ∧ depth (snd kv) + d ≤ maxNestingDepth.

Definition value_spec (d : Z) (s : bytes) (p : pres) : Prop :=
  match p with
  | POk v r => (length r < length s)%nat ∧ wf v ∧ depth v + d ≤ maxNestingDepth
  | _ => True
  end.

Definition elems_spec (d : Z) (acc : list json) (s : bytes) (p : pres) : Prop :=
  match p with
  | POk v r =>
      (length r < length s)%nat ∧ ∃ l, v = JArr (acc ++ l) ∧
      Forall (λ v, wf v ∧ depth v + d ≤ maxNestingDepth) l
  | _ => True
  end.

Definition members_spec (d : Z) (acc : list (bytes * json)) (s : bytes) (p : pres) : Prop :=
  match p with
  | POk v r =>
      (length r < length s)%nat ∧ ∃ m, v = JObj (acc ++ m) ∧
      (NoDup acc.*1 → NoDup (acc ++ m).*1) ∧ Forall (member_ok d) m
  | _ => True
  end.

Lemma depth_arr_le l d :
  d ≤ maxNestingDepth → Forall (λ v, wf v ∧ depth v + d ≤ maxNestingDepth) l →
  depth (JArr l) + d ≤ maxNestingDepth + 1.
Proof.
  intros Hd. cbn [depth]. induction 1 as [|v l [_ Hv] _ IH]; cbn [fold_right]; lia.
Qed.

Lemma depth_obj_le m d :
  d ≤ maxNestingDepth → Forall (member_ok d) m → depth (JObj m) + d ≤ maxNestingDepth + 1.
Proof.
  intros Hd. cbn [depth]. induction 1 as [|v l (_ & _ & Hv) _ IH]; cbn [fold_right]; lia.
Qed.

Lemma NoDup_keys_snoc (acc : list (bytes * json)) k v :
  k ∉ acc.*1 → NoDup acc.*1 → NoDup (acc ++ [(k, v)]).*1.
Proof.
  intros Hk Hacc. rewrite fmap_app. apply list.NoDup_app. split; [done|]. split.
  - intros x Hx Hx'. apply list_elem_of_singleton in Hx'. by subst.
  - apply NoDup_singleton.
Qed.

Section Step.
Variable n : nat.
Hypothesis IHv : ∀ d s, d ≤ maxNestingDepth → value_spec d s (pvalue n d s).
Hypothesis IHe : ∀ d acc s, d ≤ maxNestingDepth → elems_spec d acc s (pelems n d acc s).
Hypothesis IHm : ∀ d acc s, d ≤ maxNestingDepth → members_spec d acc s (pmembers n d acc s).

Lemma pvalue_step d s : d ≤ maxNestingDepth → value_spec d s (pvalue (S n) d s).
Proof.
  intros Hd. destruct s as [|c t]; [done|]. cbn [pvalue].
  assert (Hlit : ∀ p v, (0 < length p)%nat → wf v → depth v = 0 →
    value_spec d (c :: t) (literal p (c :: t) v)).
  { intros p v Hp Hw H0. unfold literal.
    destruct (strip_prefix p (c :: t)) as [r|] eqn:E; [|done].
    apply strip_prefix_length in E. simpl in *. split; [lia|]. split; [done|lia]. }
  destruct (beq c "{"%byte).
  { destruct (maxNestingDepth <=? d) eqn:?; [done|]. bool_prop.
    destruct (eat "}"%byte (skip_ws t)) as [r|] eqn:E.
    - apply eat_ws_length in E. simpl. split; [lia|].
      split; [by split; [constructor|]|lia].
    - specialize (IHm (d + 1) [] (skip_ws t) ltac:(lia)).
      pose proof (skip_ws_length t). destruct (pmembers _ _ _ _) as [v r| |]; [|done..].
      destruct IHm as (? & m & -> & Hnd & Hm). simpl in Hnd |- *. split; [lia|].
      split; [|pose proof (depth_obj_le m (d + 1) ltac:(lia) Hm); simpl in *; lia].
      apply wf_obj. split; [apply Hnd; constructor|].
      eapply list.Forall_impl; [exact Hm|]. by intros kv (? & ? & _). }
  destruct (beq c "["%byte).
  { destruct (maxNestingDepth <=? d) eqn:?; [done|]. bool_prop.
    destruct (eat "]"%byte (skip_ws t)) as [r|] eqn:E.
    - apply eat_ws_length in E. simpl. split; [lia|]. split; [done|lia].
    - specialize (IHe (d + 1) [] (skip_ws t) ltac:(lia)).
      pose proof (skip_ws_length t). destruct (pelems _ _ _ _) as [v r| |]; [|done..].
      destruct IHe as (? & l & -> & Hl). simpl. split; [lia|].
      split; [|pose proof (depth_arr_le l (d + 1) ltac:(lia) Hl); simpl in *; lia].
      apply wf_arr. eapply list.Forall_impl; [exact Hl|]. by intros v (? & _). }
  destruct (beq c x22).
  { unfold of_opt. destruct (parse_str t) as [[x r]|] eqn:E; [|done].
    apply parse_str_spec in E as [??]. simpl. split; [lia|]. split; [done|lia]. }
  destruct (beq c "t"%byte); [by apply Hlit; [simpl; lia|..]|].
  destruct (beq c "f"%byte); [by apply Hlit; [simpl; lia|..]|].
  destruct (beq c "n"%byte); [by apply Hlit; [simpl; lia|..]|].
  unfold of_opt. destruct (parse_number _) as [[x r]|] eqn:E; [|done].
  apply parse_number_spec in E as [??]. simpl in *. split; [lia|]. split; [done|lia].
Qed.

Lemma pelems_step d acc s : d ≤ maxNestingDepth → elems_spec d acc s (pelems (S n) d acc s).
Proof.
  intros Hd. cbn [pelems]. specialize (IHv d s Hd).
  destruct (pvalue n d s) as [v r| |]; [|done..]. destruct IHv as (Hl & Hw & Hdep).
  destruct (eat ","%byte (skip_ws r)) as [r'|] eqn:E.
  + apply eat_ws_length in E. pose proof (skip_ws_length r').
    specialize (IHe d (acc ++ [v]) (skip_ws r') Hd).
    destruct (pelems _ _ _ _) as [v' r''| |]; [|done..].
    destruct IHe as (? & l & -> & Hf). split; [lia|]. exists (v :: l).
    rewrite <- app_assoc. split; [done|]. by constructor.
  + destruct (eat "]"%byte (skip_ws r)) as [r'|] eqn:E'; [|done].
    apply eat_ws_length in E'. split; [lia|]. exists [v]. split; [done|]. by repeat constructor.
Qed.

Lemma pmembers_step d acc s :
  d ≤ maxNestingDepth → members_spec d acc s (pmembers (S n) d acc s).
Proof.
  intros Hd. cbn [pmembers].
  destruct (eat x22 s ≫= parse_str) as [[k r]|] eqn:Ek; [|done].
  destruct (eat x22 s) as [s'|] eqn:Es; [|done]. cbn [mbind option_bind] in Ek.
  apply eat_length in Es. apply parse_str_spec in Ek as [Hk Hlr].
  case_bool_decide as Hin; [done|].
  destruct (eat ":"%byte (skip_ws r)) as [r'|] eqn:E; [|done]. apply eat_ws_length in E.
  pose proof (skip_ws_length r').
  specialize (IHv d (skip_ws r') Hd). destruct (pvalue n d _) as [v r1| |]; [|done..].
  destruct IHv as (Hl & Hw & Hdep).
  assert (Hmem : member_ok d (k, v)) by done.
  destruct (eat ","%byte (skip_ws r1)) as [r2|] eqn:E1.
  + apply eat_ws_length in E1. pose proof (skip_ws_length r2).
    specialize (IHm d (acc ++ [(k, v)]) (skip_ws r2) Hd).
    destruct (pmembers _ _ _ _) as [v' r''| |]; [|done..].
    destruct IHm as (? & l & -> & Hnd & Hf). split; [lia|]. exists ((k, v) :: l).
    rewrite <- app_assoc in *. split; [done|]. split; [|by constructor].
    intros Hacc. apply Hnd. by apply NoDup_keys_snoc.
  + destruct (eat "}"%byte (skip_ws r1)) as [r2|] eqn:E2; [|done].
    apply eat_ws_length in E2. split; [lia|]. exists [(k, v)]. split; [done|].
    split; [|by repeat constructor]. by apply NoDup_keys_snoc.
Qed.
End Step.

Lemma parser_spec n :
  (∀ d s, d ≤ maxNestingDepth → value_spec d s (pvalue n d s)) ∧
  (∀ d acc s, d ≤ maxNestingDepth → elems_spec d acc s (pelems n d acc s)) ∧
  (∀ d acc s, d ≤ maxNestingDepth → members_spec d acc s (pmembers n d acc s)).
Proof.
  induction n as [|n (IHv & IHe & IHm)]; [done|].
  auto using pvalue_step, pelems_step, pmembers_step.
Qed.

(** ** Fuel *)

Lemma pvalue_length n d s v r :
  d ≤ maxNestingDepth → pvalue n d s = POk v r → (length r < length s)%nat.
Proof.
  intros Hd H. pose proof (proj1 (parser_spec n) d s Hd) as Hs. rewrite H in Hs. apply Hs.
Qed.

Lemma fuel_enough n :
  (∀ d s, d ≤ maxNestingDepth → (2 * length s + 1 <= n)%nat → pvalue n d s ≠ PFuel) ∧
  (∀ d acc s, d ≤ maxNestingDepth → (2 * length s + 2 <= n)%nat → pelems n d acc s ≠ PFuel) ∧
  (∀ d acc s, d ≤ maxNestingDepth → (2 * length s + 2 <= n)%nat → pmembers n d acc s ≠ PFuel).
Proof.
  induction n as [|n (IHv & IHe & IHm)]; [repeat split; intros; lia|]. split; [|split].
  - intros d [|c t] Hd Hn; [done|]. cbn [pvalue]. simpl in Hn.
    pose proof (skip_ws_length t).
    destruct (beq c "{"%byte); [|destruct (beq c "["%byte)].
    1,2: destruct (maxNestingDepth <=? d) eqn:?; [done|]; bool_prop;
      case_match; [done|]; (apply IHm || apply IHe); lia.
    unfold of_opt, literal. by repeat case_match.
  - intros d acc s Hd Hn. cbn [pelems]. specialize (IHv d s Hd ltac:(lia)).
    destruct (pvalue n d s) as [v r| |] eqn:E; [|done..].
    apply pvalue_length in E; [|done].
    destruct (eat ","%byte (skip_ws r)) as [r'|] eqn:E1; [|by case_match].
    apply eat_ws_length in E1. pose proof (skip_ws_length r'). apply IHe; lia.
  - intros d acc s Hd Hn. cbn [pmembers].
    destruct (eat x22 s) as [s'|] eqn:Es; [|done]. cbn [mbind option_bind].
    destruct (parse_str s') as [[k r]|] eqn:Ek; [|done].
    apply eat_length in Es. apply parse_str_spec in Ek as [_ Hlr].
    case_bool_decide; [done|].
    destruct (eat ":"%byte (skip_ws r)) as [r'|] eqn:E; [|done]. apply eat_ws_length in E.
    pose proof (skip_ws_length r').
    specialize (IHv d (skip_ws r') Hd ltac:(lia)).
    destruct (pvalue n d (skip_ws r')) as [v r1| |] eqn:Ev; [|done..].
    apply pvalue_length in Ev; [|done].
    destruct (eat ","%byte (skip_ws r1)) as [r2|] eqn:E1; [|by case_match].
    apply eat_ws_length in E1. pose proof (skip_ws_length r2). apply IHm; lia.
Qed.

Lemma parse_total data : parse data ≠ fail fuel_error.
Proof.
  unfold parse. pose proof (skip_ws_length data).
  destruct (fuel_enough (2 * length data + 2)) as (Hv & _ & _).
  specialize (Hv 0 (skip_ws data) ltac:(done) ltac:(lia)).
  unfold fail. by repeat case_match.
Qed.

Lemma parse_wf data j : parse data = Ok j → wf j ∧ depth j ≤ maxNestingDepth.
Proof.
  unfold parse, fail. intros H.
  pose proof (proj1 (parser_spec (2 * length data + 2)) 0 (skip_ws data) ltac:(done)) as Hs.
  destruct (pvalue _ _ _) as [v r| |]; [|done..]. destruct (skip_ws r); simplify_eq/=.
  destruct Hs as (_ & ? & ?). split; [done|lia].
Qed.

(** ** Printing then parsing *)

(** The first octet of a value: never white space nor a closing delimiter. *)
Definition value_head (c : byte) : bool :=
  negb (is_ws c || beq c "]"%byte || beq c "}"%byte).

Definition starts_value (s : bytes) : Prop := ∃ c t, s = c :: t ∧ value_head c = true.

Lemma num_head lit :
  num_ok lit → ∃ c t, lit = c :: t ∧ is_digit c || beq c "-"%byte = true.
Proof.
  intros H. unfold num_ok, parse_number in H. destruct lit as [|c t]; [done|].
  exists c, t. split; [done|]. destruct (beq c "-"%byte) eqn:E; [by rewrite orb_true_r|].
  unfold eat in H. rewrite E in H. unfold parse_int in H.
  destruct (beq c "0"%byte) eqn:E0; [by apply beq_true in E0 as ->|].
  by destruct (is_digit c).
Qed.

Lemma num_head_value c :
  is_digit c || beq c "-"%byte = true →
  value_head c = true ∧ beq c "{"%byte = false ∧ beq c "["%byte = false ∧ beq c x22 = false ∧
  beq c "t"%byte = false ∧ beq c "f"%byte = false ∧ beq c "n"%byte = false.
Proof.
  intros Hc.
  pose proof (byte_forall (λ c, negb (is_digit c || beq c "-"%byte) ||
    (value_head c && negb (beq c "{"%byte) && negb (beq c "["%byte) && negb (beq c x22) &&
     negb (beq c "t"%byte) && negb (beq c "f"%byte) && negb (beq c "n"%byte))) eq_refl c) as H.
  cbv beta in H. rewrite Hc in H. simpl in H. 
  repeat (apply andb_true_iff in H as [H ?]). rewrite !negb_true_iff in *. done.
Qed.

Lemma starts_value_cons c t : value_head c = true → starts_value (c :: t).
Proof. intros H. by exists c, t. Qed.

Lemma print_head j : wf j → starts_value (print j).
Proof.
  destruct j as [|[]|lit|s|l|m]; intros Hw; try (by apply starts_value_cons).
  destruct (num_head lit Hw) as (c & t & -> & Hc). apply starts_value_cons.
  by apply num_head_value.
Qed.

Lemma starts_value_ws s rest : starts_value s → skip_ws (s ++ rest) = s ++ rest.
Proof.
  intros (c & t & -> & Hc). unfold value_head in Hc. bool_prop. simpl.
  by destruct (is_ws c).
Qed.

Lemma starts_value_eat s c rest :
  starts_value s → value_head c = false → eat c (s ++ rest) = None.
Proof.
  intros (d & t & -> & Hc) Hv. cbn [app]. apply eat_ne. intros ->. congruence.
Qed.

Lemma Join_cons2 x y (l : list bytes) sep : Join (x :: y :: l) sep = x ++ sep ++ Join (y :: l) sep.
Proof. reflexivity. Qed.

Lemma eat_ws_delim c rest : is_ws c = false → eat c (skip_ws (c :: rest)) = Some rest.
Proof. intros H. simpl. rewrite H. apply eat_cons. Qed.

Lemma eat_ws_other c d rest : is_ws d = false → d ≠ c → eat c (skip_ws (d :: rest)) = None.
Proof. intros H Hd. simpl. rewrite H. by apply eat_ne. Qed.

Definition prints (j : json) : Prop :=
  ∀ n d rest, depth j + d ≤ maxNestingDepth → (2 * length (print j) + 1 <= n)%nat →
    num_stop rest = true → pvalue n d (print j ++ rest) = POk j rest.

Lemma pelems_print l v n d acc rest :
  Forall (λ v, wf v ∧ depth v + d ≤ maxNestingDepth ∧ prints v) (v :: l) →
  (2 * length (Join (print <$> v :: l) #",") + 2 <= n)%nat →
  pelems n d acc (Join (print <$> v :: l) #"," ++ "]"%byte :: rest)
  = POk (JArr (acc ++ v :: l)) rest.
Proof.
  revert v n acc. induction l as [|w l IH]; intros v n acc Hl Hn;
    apply Forall_cons_1 in Hl as [(Hw & Hd & Hp) Hl]; (destruct n as [|n]; [lia|]).
  - cbn [fmap list_fmap Join pelems] in *. rewrite Hp by (done || lia).
    by rewrite eat_ws_other, eat_ws_delim.
  - cbn [fmap list_fmap] in *. rewrite Join_cons2 in *. rewrite !length_app in Hn.
    rewrite <- !app_assoc. cbn [pelems]. rewrite Hp by (done || lia).
    change (#"," ++ ?x) with (","%byte :: x). rewrite eat_ws_delim by done.
    assert (Hw' : starts_value (Join (print w :: (print <$> l)) #",")).
    { apply Forall_cons_1 in Hl as [(Hww & _) _]. apply print_head in Hww as (c & t & Hc & ?).
      destruct l; cbn [fmap list_fmap]; rewrite ?Join_cons2; cbn [Join]; rewrite Hc;
        by apply starts_value_cons. }
    rewrite starts_value_ws by done. change (length #",") with 1%nat in Hn.
    rewrite (IH w) by (done || (cbn [fmap list_fmap]; lia)).
    by rewrite <- app_assoc.
Qed.

Lemma pmembers_print m kv n d acc rest :
  Forall (λ kv, member_ok d kv ∧ prints (snd kv)) (kv :: m) →
  NoDup (acc ++ kv :: m).*1 →
  let body := Join ((λ kv, quote (fst kv) ++ #":" ++ print (snd kv)) <$> kv :: m) #"," in
  (2 * length body + 2 <= n)%nat →
  pmembers n d acc (body ++ "}"%byte :: rest) = POk (JObj (acc ++ kv :: m)) rest.
Proof.
  revert kv n acc. induction m as [|kw m IH]; intros [k v] n acc Hl Hnd body Hn;
    apply Forall_cons_1 in Hl as [((Hk & Hw & Hd) & Hp) Hl]; simpl in Hk, Hw, Hd, Hp;
    (destruct n as [|n]; [lia|]);
    assert (Hkey : ∀ tl, eat x22 (quote k ++ #":" ++ tl) ≫= parse_str = Some (k, ":"%byte :: tl))
      by (intros; unfold quote; simpl; rewrite <- app_assoc; apply (parse_str_quote k _ Hk));
    assert (Hfresh : bool_decide (k ∈ acc.*1) = false)
      by (apply bool_decide_eq_false; intros Hin; rewrite fmap_app in Hnd;
          apply list.NoDup_app in Hnd as (_ & Hdis & _); apply (Hdis k Hin); by left);
    assert (Hlen : ∀ x, length (quote k ++ #":" ++ x) = (length (quote k) + 1 + length x)%nat)
      by (intros; rewrite !length_app; simpl; lia).
  - subst body. cbn [fmap list_fmap Join fst snd] in *. rewrite Hlen in Hn.
    rewrite <- !app_assoc. cbn [pmembers]. rewrite Hkey, Hfresh, eat_ws_delim by done.
    rewrite starts_value_ws by (by apply print_head). rewrite Hp by (done || lia).
    by rewrite eat_ws_other, eat_ws_delim.
  - subst body. cbn [fmap list_fmap fst snd] in *. rewrite Join_cons2 in *.
    rewrite length_app, Hlen, length_app in Hn. change (length #",") with 1%nat in Hn.
    rewrite <- !app_assoc. cbn [pmembers]. rewrite Hkey, Hfresh, eat_ws_delim by done.
    rewrite starts_value_ws by (by apply print_head). rewrite Hp by (done || lia).
    change (#"," ++ ?x) with (","%byte :: x). rewrite eat_ws_delim by done.
    assert (Hq : ∀ l, starts_value (Join ((quote kw.1 ++ #":" ++ print kw.2) :: l) #",")).
    { intros [|]; rewrite ?Join_cons2; by apply starts_value_cons. }
    rewrite starts_value_ws by done.
    rewrite (IH kw); [by rewrite <- app_assoc|done|by rewrite <- app_assoc|].
    cbn [fmap list_fmap]. lia.
Qed.

Lemma depth_arr_pos l : 1 ≤ depth (JArr l).
Proof.
  cbn [depth]. enough (0 ≤ fold_right (λ v d, Z.max (depth v) d) 0 l) by lia.
  induction l; simpl; lia.
Qed.

Lemma depth_obj_pos m : 1 ≤ depth (JObj m).
Proof.
  cbn [depth]. enough (0 ≤ fold_right (λ kv d, Z.max (depth (snd kv)) d) 0 m) by lia.
  induction m; simpl; lia.
Qed.

Lemma Join_starts s l : starts_value s → starts_value (Join (s :: l) #",").
Proof.
  intros (c & t & -> & Hc). destruct l; rewrite ?Join_cons2; by apply starts_value_cons.
Qed.

Lemma prints_arr l : wf (JArr l) → Forall prints l → prints (JArr l).
Proof.
  intros Hw IH n d rest Hd Hn Hr. apply wf_arr in Hw. destruct n as [|n]; [lia|].
  pose proof (depth_arr_pos l) as Hpos.
  cbn [print] in *. rewrite !length_app in Hn.
  change (length #"[") with 1%nat in Hn. change (length #"]") with 1%nat in Hn.
  rewrite <- !app_assoc. change (#"[" ++ ?x) with ("["%byte :: x). cbn [pvalue].
  change (beq "[" "{") with false. change (beq "[" "[") with true. cbv iota.
  rewrite (proj2 (Z.leb_gt _ _)) by lia.
  destruct l as [|v l]; [reflexivity|].
  assert (Hq : starts_value (Join (print <$> v :: l) #",")).
  { apply Join_starts, print_head. by apply Forall_cons_1 in Hw as [? _]. }
  rewrite starts_value_ws, starts_value_eat by done.
  apply (pelems_print l v n (d + 1) []); [|lia].
  rewrite list.Forall_forall. intros w Hin.
  pose proof (Forall_elem _ _ _ Hw Hin). pose proof (Forall_elem _ _ _ IH Hin).
  pose proof (depth_arr_elem _ _ Hin). split; [done|]. split; [lia|done].
Qed.

Lemma prints_obj m : wf (JObj m) → Forall (λ kv, prints (snd kv)) m → prints (JObj m).
Proof.
  intros Hw IH n d rest Hd Hn Hr. apply wf_obj in Hw as [Hnd Hw].
  destruct n as [|n]; [lia|]. pose proof (depth_obj_pos m) as Hpos.
  cbn [print] in *. rewrite !length_app in Hn.
  change (length #"{") with 1%nat in Hn. change (length #"}") with 1%nat in Hn.
  rewrite <- !app_assoc. change (#"{" ++ ?x) with ("{"%byte :: x). cbn [pvalue].
  change (beq "{" "{") with true. cbv iota.
  rewrite (proj2 (Z.leb_gt _ _)) by lia.
  destruct m as [|kv m]; [reflexivity|].
  set (pr := λ kv : bytes * json, quote kv.1 ++ #":" ++ print kv.2) in *.
  assert (Hq : starts_value (Join (pr <$> kv :: m) #",")).
  { apply Join_starts. by apply starts_value_cons. }
  rewrite starts_value_ws, starts_value_eat by done.
  apply (pmembers_print m kv n (d + 1) []); [|done|fold pr; lia].
  rewrite list.Forall_forall. intros [k w] Hin.
  pose proof (Forall_elem _ _ _ Hw Hin) as [??]. pose proof (Forall_elem _ _ _ IH Hin).
  pose proof (depth_obj_elem _ _ _ Hin). unfold member_ok. simpl in *.
  repeat split; try done; lia.
Qed.

Lemma print_parse j : wf j → prints j.
Proof.
  induction j as [|b|lit|s|l IH|m IH] using json_ind'; intros Hw.
  - intros [|n] d rest Hd Hn Hr; [lia|reflexivity].
  - intros [|n] d rest Hd Hn Hr; [lia|by destruct b].
  - intros [|n] d rest Hd Hn Hr; [lia|].
    destruct (num_head lit Hw) as (c & t & -> & Hc).
    destruct (num_head_value c Hc) as (_ & E1 & E2 & E3 & E4 & E5 & E6).
    cbn [print app pvalue]. rewrite E1, E2, E3, E4, E5, E6. unfold of_opt.
    change (c :: t ++ rest) with ((c :: t) ++ rest). by rewrite parse_number_lit.
  - intros [|n] d rest Hd Hn Hr; [lia|].
    cbn [print]. unfold quote. cbn [app]. rewrite <- app_assoc. cbn [pvalue]. simpl.
    by rewrite (parse_str_quote s).
  - apply prints_arr; [done|]. apply wf_arr in Hw. rewrite list.Forall_forall in *. auto.
  - apply prints_obj; [done|]. apply wf_obj in Hw as [_ Hw].
    rewrite list.Forall_forall in *. intros kv Hin. apply IH; [done|]. by apply Hw.
Qed.

Lemma parse_print j : wf j → depth j ≤ maxNestingDepth → parse (print j) = Ok j.
Proof.
  intros Hw Hd. unfold parse. pose proof (print_head j Hw) as Hh.
  rewrite <- (app_nil_r (print j)) at 2. rewrite starts_value_ws by done.
  by rewrite (print_parse j Hw) by (done || lia).
Qed.

(** the strict decoder and the encoder agree: what [json.Marshal]
    prints for a well-formed value parses back to that value, and every value
    the decoder returns is well formed (UTF-8 strings, distinct member names at
    every level, canonical literals, bounded nesting), hence survives the round
    trip. *)
Theorem json_roundtrip (j : json) (data : bytes) :
  (wf j ∧ depth j ≤ maxNestingDepth → parse (print j) = Ok j) ∧
  (parse data = Ok j → wf j ∧ depth j ≤ maxNestingDepth ∧ parse (print j) = Ok j).
Proof.
  split; [intros [??]; by apply parse_print|].
  intros H. apply parse_wf in H as [??]. split; [done|]. split; [done|]. by apply parse_print.
Qed.

(** the decoder is total: the fuel [parse] supplies is never exhausted,
    whatever the input. *)
Theorem json_parse_total (data : bytes) :
  (∃ j, parse data = Ok j) ∨ parse data = fail json_error.
Proof.
  pose proof (parse_total data) as Hf. unfold parse in *.
  destruct (pvalue _ _ _) as [v r| |]; [|by right|done].
  destruct (skip_ws r); [left; by eexists|by right].
Qed.

(** ** The length of what is printed *)

Lemma escape_len r : is_rune r = true → len (escape r) ≤ 6 * len r.
Proof.
  intros Hr. destruct r as [|c [|c1 r]]; [done| |].
  - cbn [escape]. pose proof (byte_forall (λ c, len (escape1 c) <=? 6) ltac:(by vm_compute) c) as Hc.
    cbv beta in Hc. change (len [c]) with 1. bool_prop. lia.
  - cbn [escape]. pose proof (len_nonneg r). assert (2 ≤ len (c :: c1 :: r)) by (unfold len in *; cbn [length]; lia).
    case_bool_decide; [change (len #"\u2028") with 6; lia|].
    case_bool_decide; [change (len #"\u2029") with 6; lia|lia].
Qed.

Lemma quote_len s : utf8_valid s = true → len (quote s) ≤ 6 * len s + 2.
Proof.
  assert (Hb : utf8_valid s = true → len (quote_body s) ≤ 6 * len s).
  { revert s. apply utf8_ind; [done|]. intros r t Hr _ IH. unfold quote_body in *.
    rewrite rune_fold_good, !len_app by done. pose proof (escape_len r Hr). lia. }
  intros Hs. specialize (Hb Hs). unfold quote. change (x22 :: quote_body s ++ [x22]) with ([x22] ++ quote_body s ++ [x22]).
  rewrite !len_app. change (len [x22]) with 1. lia.
Qed.

(** What the members of an object take, with their separators. *)
Definition members_len (m : list (bytes * json)) : Z :=
  foldr (λ kv n, len (quote (fst kv)) + len (print (snd kv)) + 2 + n) 0 m.

Lemma members_len_cons kv m :
  members_len (kv :: m) = len (quote (fst kv)) + len (print (snd kv)) + 2 + members_len m.
Proof. done. Qed.

Lemma members_len_app m m' : members_len (m ++ m') = members_len m + members_len m'.
Proof. induction m as [|kv m IH]; [done|]. cbn [app]. rewrite !members_len_cons, IH. lia. Qed.

Lemma print_obj_len m : len (print (JObj m)) ≤ 2 + members_len m.
Proof.
  cbn [print]. rewrite !len_app. change (len #"{") with 1. change (len #"}") with 1.
  assert (Hj : len (Join ((λ kv, quote (fst kv) ++ #":" ++ print (snd kv)) <$> m) #",") ≤ members_len m); [|lia].
  induction m as [|kv m IH]; [done|]. destruct m as [|kv' m].
  - cbn [fmap list_fmap Join]. rewrite members_len_cons, !len_app. change (len #":") with 1. change (members_len []) with 0. lia.
  - cbn [fmap list_fmap]. rewrite Join_cons2, !len_app. cbn [fmap list_fmap] in IH.
    rewrite members_len_cons. change (len #":") with 1. change (len #",") with 1. lia.
Qed.
