(* ===== verification/Alg.v ===== *)
(** * Alg: internal/alg, the built-in JWS algorithms

    Algorithm names, key families, and the concrete signers and verifiers with
    the validation their constructors do.  The cryptographic primitives of
    crypto/* are the operations of the class [Crypto]; [CryptoLaws] states the
    documented behaviour the round-trip theorems use. *)

From S2P Require Import Prelude Errors GoLib.

(** ** Algorithm names *)

Abbreviation Algorithm := bytes.

Definition HS256 : Algorithm := #"HS256".
Definition HS384 : Algorithm := #"HS384".
Definition HS512 : Algorithm := #"HS512".
Definition RS256 : Algorithm := #"RS256".
Definition RS384 : Algorithm := #"RS384".
Definition RS512 : Algorithm := #"RS512".
Definition PS256 : Algorithm := #"PS256".
Definition PS384 : Algorithm := #"PS384".
Definition PS512 : Algorithm := #"PS512".
Definition ES256 : Algorithm := #"ES256".
Definition ES384 : Algorithm := #"ES384".
Definition ES512 : Algorithm := #"ES512".
Definition Ed25519 : Algorithm := #"Ed25519".
Definition EdDSA : Algorithm := #"EdDSA".

Inductive Family : Type :=
  | FamilyUnknown | FamilyHMAC | FamilyRSAPSS | FamilyRSAPKCS1 | FamilyECDSA | FamilyEdDSA.

#[export] Instance Family_eq_dec : EqDecision Family.
Proof. solve_decision. Defined.

Definition FamilyOf (name : Algorithm) : Family :=
  if bool_decide (name ∈ [HS256; HS384; HS512]) then FamilyHMAC
  else if bool_decide (name ∈ [PS256; PS384; PS512]) then FamilyRSAPSS
  else if bool_decide (name ∈ [RS256; RS384; RS512]) then FamilyRSAPKCS1
  else if bool_decide (name ∈ [ES256; ES384; ES512]) then FamilyECDSA
  else if bool_decide (name ∈ [Ed25519; EdDSA]) then FamilyEdDSA
  else FamilyUnknown.

(** [crypto.Hash], for the hashes the module links in. *)
Inductive Hash : Type := SHA256 | SHA384 | SHA512.

#[export] Instance Hash_eq_dec : EqDecision Hash.
Proof. solve_decision. Defined.

Definition Hash_Size (h : Hash) : Z :=
  match h with SHA256 => 32 | SHA384 => 48 | SHA512 => 64 end.

Definition HashOf (name : Algorithm) : option Hash :=
  if bool_decide (name ∈ [HS256; RS256; PS256]) then Some SHA256
  else if bool_decide (name ∈ [HS384; RS384; PS384]) then Some SHA384
  else if bool_decide (name ∈ [HS512; RS512; PS512]) then Some SHA512
  else None.

Definition IsPSS (name : Algorithm) : bool :=
  bool_decide (name = PS256) || bool_decide (name = PS384) || bool_decide (name = PS512).

Definition IsPKCS1 (name : Algorithm) : bool :=
  bool_decide (name = RS256) || bool_decide (name = RS384) || bool_decide (name = RS512).

(** [elliptic.Curve]; [OtherCurve] is any implementation that is not one of
    the three the module supports. *)
Inductive Curve : Type := P256 | P384 | P521 | OtherCurve (bits : Z).

#[export] Instance Curve_eq_dec : EqDecision Curve.
Proof. solve_decision. Defined.

Definition BitSize (c : Curve) : Z :=
  match c with P256 => 256 | P384 => 384 | P521 => 521 | OtherCurve b => b end.

Definition ECDSAParams (name : Algorithm) : option (Curve * Hash * Z) :=
  if bool_decide (name = ES256) then Some (P256, SHA256, 32)
  else if bool_decide (name = ES384) then Some (P384, SHA384, 48)
  else if bool_decide (name = ES512) then Some (P521, SHA512, 66)
  else None.

(** ** Keys of the standard library *)

(** [ecdsa.PublicKey]; [None] is a nil field. *)
Record ECDSAPublicKey := mkECDSAPublicKey {
  ec_Curve : option Curve;
  ec_X : option Z;
  ec_Y : option Z }.

Record ECDSAPrivateKey := mkECDSAPrivateKey {
  ecp_PublicKey : ECDSAPublicKey;
  ecp_D : option Z }.

Record RSAPublicKey := mkRSAPublicKey {
  rsa_N : option Z;
  rsa_E : Z }.

Record RSAPrivateKey := mkRSAPrivateKey {
  rsap_PublicKey : RSAPublicKey;
  rsap_D : option Z;
  rsap_Primes : list (option Z) }.

Definition ed25519_PublicKeySize : Z := 32.
Definition ed25519_PrivateKeySize : Z := 64.
Definition ed25519_SignatureSize : Z := 64.

(** ** The primitives of crypto/* *)

Class Crypto := {
  (** [hmac.New(h.New, key); Write(in); Sum(nil)] *)
  HMAC : Hash → bytes → bytes → bytes;
  (** [h.New(); Write(in); Sum(nil)] *)
  HashSum : Hash → bytes → bytes;
  (** the affine point is a point of the curve other than infinity *)
  on_curve : Curve → Z → Z → bool;
  (** the point of a scalar in range; [None] when [priv.ECDH()] fails *)
  scalar_point : Curve → Z → option (Z * Z);
  ecdsa_Sign : Curve → Z → Hash → bytes → res (Z * Z);
  ecdsa_Verify : Curve → Z * Z → bytes → Z → Z → bool;
  (** [priv.Validate()] *)
  rsa_Validate : RSAPrivateKey → bool;
  rsa_SignPSS : RSAPrivateKey → Hash → bytes → res bytes;
  rsa_VerifyPSS : Z → Z → Hash → bytes → bytes → bool;
  rsa_VerifyPKCS1v15 : Z → Z → Hash → bytes → bytes → bool;
  ed25519_NewKeyFromSeed : bytes → bytes;
  ed25519_Sign : bytes → bytes → bytes;
  ed25519_Verify : bytes → bytes → bytes → bool;
}.

(** ** Signers and verifiers *)

(** [optKID]. *)
Definition optKID (kid : list bytes) : bytes :=
  match kid with k :: _ => k | [] => [] end.

Record hmacSigner := mkHmacSigner {
  hs_alg : Algorithm; hs_key : bytes; hs_kid : bytes; hs_hash : Hash }.
Record ecdsaSigner := mkEcdsaSigner {
  es_alg : Algorithm; es_curve : Curve; es_D : Z; es_kid : bytes;
  es_hash : Hash; es_size : Z }.
Record ecdsaVerifier := mkEcdsaVerifier {
  ev_alg : Algorithm; ev_curve : Curve; ev_X : Z; ev_Y : Z; ev_kid : bytes;
  ev_hash : Hash; ev_size : Z }.
Record rsaPSSSigner := mkRsaPSSSigner {
  ps_alg : Algorithm; ps_key : RSAPrivateKey; ps_kid : bytes; ps_hash : Hash }.
Record rsaVerifier := mkRsaVerifier {
  rv_alg : Algorithm; rv_N : Z; rv_E : Z; rv_kid : bytes; rv_hash : Hash; rv_pss : bool }.
Record ed25519Signer := mkEd25519Signer { eds_key : bytes; eds_kid : bytes }.
Record ed25519Verifier := mkEd25519Verifier {
  edv_alg : Algorithm; edv_key : bytes; edv_kid : bytes }.

(** The interfaces [Signer] and [Verifier]: the built-in implementations and
    any the caller supplies. *)
Inductive Signer : Type :=
  | SHmac (s : hmacSigner)
  | SEcdsa (s : ecdsaSigner)
  | SRsaPSS (s : rsaPSSSigner)
  | SEd25519 (s : ed25519Signer)
  | SCustom (alg : Algorithm) (kid : bytes) (sign : bytes → res bytes).

Inductive Verifier : Type :=
  | VHmac (s : hmacSigner)
  | VEcdsa (v : ecdsaVerifier)
  | VRsa (v : rsaVerifier)
  | VEd25519 (v : ed25519Verifier)
  | VCustom (alg : Algorithm) (kid : bytes) (verify : bytes → bytes → err_opt).

Definition Signer_Algorithm (s : Signer) : Algorithm :=
  match s with
  | SHmac s => hs_alg s | SEcdsa s => es_alg s | SRsaPSS s => ps_alg s
  | SEd25519 _ => Ed25519 | SCustom a _ _ => a
  end.

Definition Signer_KeyID (s : Signer) : bytes :=
  match s with
  | SHmac s => hs_kid s | SEcdsa s => es_kid s | SRsaPSS s => ps_kid s
  | SEd25519 s => eds_kid s | SCustom _ k _ => k
  end.

Definition Verifier_Algorithm (v : Verifier) : Algorithm :=
  match v with
  | VHmac s => hs_alg s | VEcdsa v => ev_alg v | VRsa v => rv_alg v
  | VEd25519 v => edv_alg v | VCustom a _ _ => a
  end.

Definition Verifier_KeyID (v : Verifier) : bytes :=
  match v with
  | VHmac s => hs_kid s | VEcdsa v => ev_kid v | VRsa v => rv_kid v
  | VEd25519 v => edv_kid v | VCustom _ k _ => k
  end.

Section Alg.
Context `{Crypto}.

(** *** Signing *)

Definition hmac_Sign (s : hmacSigner) (msg : bytes) : bytes :=
  HMAC (hs_hash s) (hs_key s) msg.

(** [FillBytes] panics on a value that does not fit; the values [ecdsa]
    returns are below the group order, which fits [size] octets. *)
Definition ecdsa_sig (size : Z) (r s : Z) : bytes :=
  be_bytes (Z.to_nat size) r ++ be_bytes (Z.to_nat size) s.

Definition ecdsaSigner_Sign (s : ecdsaSigner) (msg : bytes) : res bytes :=
  '(r, t) ← ecdsa_Sign (es_curve s) (es_D s) (es_hash s) (HashSum (es_hash s) msg);
  Ok (ecdsa_sig (es_size s) r t).

Definition Sign_with (s : Signer) (msg : bytes) : res bytes :=
  match s with
  | SHmac s => Ok (hmac_Sign s msg)
  | SEcdsa s => ecdsaSigner_Sign s msg
  | SRsaPSS s => rsa_SignPSS (ps_key s) (ps_hash s) (HashSum (ps_hash s) msg)
  | SEd25519 s => Ok (ed25519_Sign (eds_key s) msg)
  | SCustom _ _ f => f msg
  end.

(** *** Verifying *)

(** A verdict: nil or [ErrInvalidSignature]. *)
Definition verdict (b : bool) : err_opt := if b then None else Some [ErrInvalidSignature].

(** [hmac.Equal] compares in constant time; as a function it is equality. *)
Definition hmac_Verify (s : hmacSigner) (msg sig : bytes) : err_opt :=
  verdict (bool_decide (hmac_Sign s msg = sig)).

Definition ecdsaVerifier_Verify (v : ecdsaVerifier) (msg sig : bytes) : err_opt :=
  if negb (len sig =? 2 * ev_size v) then Some [ErrInvalidSignature]
  else
    let r := be_val (take (Z.to_nat (ev_size v)) sig) in
    let s := be_val (drop (Z.to_nat (ev_size v)) sig) in
    verdict (ecdsa_Verify (ev_curve v) (ev_X v, ev_Y v) (HashSum (ev_hash v) msg) r s).

Definition rsaVerifier_Verify (v : rsaVerifier) (msg sig : bytes) : err_opt :=
  let sum := HashSum (rv_hash v) msg in
  if rv_pss v then verdict (rsa_VerifyPSS (rv_N v) (rv_E v) (rv_hash v) sum sig)
  else verdict (rsa_VerifyPKCS1v15 (rv_N v) (rv_E v) (rv_hash v) sum sig).

Definition ed25519Verifier_Verify (v : ed25519Verifier) (msg sig : bytes) : err_opt :=
  if negb (len sig =? ed25519_SignatureSize) || negb (ed25519_Verify (edv_key v) msg sig)
  then Some [ErrInvalidSignature] else None.

Definition Verify_with (v : Verifier) (msg sig : bytes) : err_opt :=
  match v with
  | VHmac s => hmac_Verify s msg sig
  | VEcdsa v => ecdsaVerifier_Verify v msg sig
  | VRsa v => rsaVerifier_Verify v msg sig
  | VEd25519 v => ed25519Verifier_Verify v msg sig
  | VCustom _ _ f => f msg sig
  end.

(** *** Constructors *)

Definition newHmacSigner (a : Algorithm) (key : bytes) (kid : list bytes) : res hmacSigner :=
  match HashOf a with
  | None => fail ErrUnsupportedAlgorithm
  | Some h =>
      if negb (bool_decide (FamilyOf a = FamilyHMAC)) then fail ErrUnsupportedAlgorithm
      else if len key <? Hash_Size h then fail ErrWeakKey
      else Ok (mkHmacSigner a key (optKID kid) h)
  end.

Definition NewHMACSigner a key kid : res Signer := SHmac <$> newHmacSigner a key kid.
Definition NewHMACVerifier a key kid : res Verifier := VHmac <$> newHmacSigner a key kid.

(** [key.ECDH()]: nil error exactly for a point of the curve. *)
Definition validateECDSAPublicKey (key : option ECDSAPublicKey) (curve : Curve) : res (Z * Z) :=
  match key with
  | Some (mkECDSAPublicKey (Some c) (Some x) (Some y)) =>
      if negb (bool_decide (c = curve)) then fail ErrKeyTypeMismatch
      else if negb (on_curve c x y) then fail ErrMalformedKey
      else Ok (x, y)
  | _ => fail ErrMalformedKey
  end.

Definition validateECDSAPrivateKey (key : option ECDSAPrivateKey) (curve : Curve) : res Z :=
  match key with
  | Some (mkECDSAPrivateKey (mkECDSAPublicKey (Some c) (Some x) (Some y)) (Some d)) =>
      if negb (bool_decide (c = curve)) then fail ErrKeyTypeMismatch
      else match scalar_point c d with
           | None => fail ErrMalformedKey
           | Some p =>
               if negb (on_curve c x y) then fail ErrMalformedKey
               else if negb (bool_decide (p = (x, y))) then fail ErrMalformedKey
               else Ok d
           end
  | _ => fail ErrMalformedKey
  end.

Definition NewECDSASigner a (key : option ECDSAPrivateKey) kid : res Signer :=
  match ECDSAParams a with
  | None => fail ErrUnsupportedAlgorithm
  | Some (curve, h, size) =>
      d ← validateECDSAPrivateKey key curve;
      Ok (SEcdsa (mkEcdsaSigner a curve d (optKID kid) h size))
  end.

Definition NewECDSAVerifier a (key : option ECDSAPublicKey) kid : res Verifier :=
  match ECDSAParams a with
  | None => fail ErrUnsupportedAlgorithm
  | Some (curve, h, size) =>
      '(x, y) ← validateECDSAPublicKey key curve;
      Ok (VEcdsa (mkEcdsaVerifier a curve x y (optKID kid) h size))
  end.

Definition minRSABits : Z := 2048.
Definition maxRSABits : Z := 8192.

(** The modulus of a key that passes. *)
Definition validateRSAPublicKey (key : option RSAPublicKey) : res Z :=
  match key with
  | Some (mkRSAPublicKey (Some n) e) =>
      if (n <=? 0) || negb (Z.testbit n 0) || (e <? 3) || negb (Z.testbit e 0)
      then fail ErrMalformedKey
      else if BitLen n <? minRSABits then fail ErrWeakKey
      else if maxRSABits <? BitLen n then fail ErrMalformedKey
      else Ok n
  | _ => fail ErrMalformedKey
  end.

Definition validateRSAPrivateKey (key : option RSAPrivateKey) : res RSAPrivateKey :=
  match key with
  | None => fail ErrMalformedKey
  | Some k =>
      _ ← validateRSAPublicKey (Some (rsap_PublicKey k));
      match rsap_D k with
      | None => fail ErrMalformedKey
      | Some _ => if rsa_Validate k then Ok k else fail ErrMalformedKey
      end
  end.

Definition NewRSAPSSSigner a (key : option RSAPrivateKey) kid : res Signer :=
  match HashOf a with
  | None => fail ErrUnsupportedAlgorithm
  | Some h =>
      if negb (IsPSS a) then fail ErrUnsupportedAlgorithm
      else k ← validateRSAPrivateKey key; Ok (SRsaPSS (mkRsaPSSSigner a k (optKID kid) h))
  end.

Definition newRSAVerifier a (key : option RSAPublicKey) kid h pss : res Verifier :=
  n ← validateRSAPublicKey key;
  Ok (VRsa (mkRsaVerifier a n (from_option rsa_E 0 key) kid h pss)).

Definition NewRSAPSSVerifier a key kid : res Verifier :=
  match HashOf a with
  | None => fail ErrUnsupportedAlgorithm
  | Some h =>
      if negb (IsPSS a) then fail ErrUnsupportedAlgorithm
      else newRSAVerifier a key (optKID kid) h true
  end.

Definition NewRSAPKCS1Verifier a key kid : res Verifier :=
  match HashOf a with
  | None => fail ErrUnsupportedAlgorithm
  | Some h =>
      if negb (IsPKCS1 a) then fail ErrUnsupportedAlgorithm
      else newRSAVerifier a key (optKID kid) h false
  end.

Definition NewEd25519Signer (key : bytes) kid : res Signer :=
  if negb (len key =? ed25519_PrivateKeySize) then fail ErrMalformedKey
  else Ok (SEd25519 (mkEd25519Signer key (optKID kid))).

Definition NewEd25519VerifierFor a (key : bytes) kid : res Verifier :=
  if negb (bool_decide (a = Ed25519)) && negb (bool_decide (a = EdDSA))
  then fail ErrUnsupportedAlgorithm
  else if negb (len key =? ed25519_PublicKeySize) then fail ErrMalformedKey
  else Ok (VEd25519 (mkEd25519Verifier a key (optKID kid))).

Definition NewEd25519Verifier key kid : res Verifier := NewEd25519VerifierFor Ed25519 key kid.
End Alg.

(** ** Documented behaviour of the primitives

    A signature made with a private key verifies under its public half; RSA-PSS
    is randomised, so [rsa_SignPSS] stands for one run of it. *)

Class CryptoLaws `{Crypto} := {
  ecdsa_Sign_ok : ∀ c d h digest r s size p,
    scalar_point c d = Some p → size = (BitSize c + 7) / 8 →
    ecdsa_Sign c d h digest = Ok (r, s) →
    0 ≤ r < 256 ^ size ∧ 0 ≤ s < 256 ^ size ∧ ecdsa_Verify c p digest r s = true;
  rsa_SignPSS_ok : ∀ k n h digest sig,
    rsa_N (rsap_PublicKey k) = Some n → rsa_Validate k = true →
    rsa_SignPSS k h digest = Ok sig →
    rsa_VerifyPSS n (rsa_E (rsap_PublicKey k)) h digest sig = true;
  ed25519_Sign_len : ∀ k msg, len (ed25519_Sign k msg) = ed25519_SignatureSize;
  ed25519_Sign_ok : ∀ seed msg,
    let k := ed25519_NewKeyFromSeed seed in
    ed25519_Verify (drop 32 k) msg (ed25519_Sign k msg) = true;
}.

(** ** What the constructors establish *)

Section Invariant.
Context `{Crypto}.

(** The strength and family rules of RFC 7518 a verifier satisfies. *)
Definition verifier_wf (v : Verifier) : Prop :=
  match v with
  | VHmac s =>
      FamilyOf (hs_alg s) = FamilyHMAC ∧ HashOf (hs_alg s) = Some (hs_hash s) ∧
      Hash_Size (hs_hash s) ≤ len (hs_key s)
  | VEcdsa v =>
      ECDSAParams (ev_alg v) = Some (ev_curve v, ev_hash v, ev_size v) ∧
      on_curve (ev_curve v) (ev_X v) (ev_Y v) = true
  | VRsa v =>
      FamilyOf (rv_alg v) = (if rv_pss v then FamilyRSAPSS else FamilyRSAPKCS1) ∧
      HashOf (rv_alg v) = Some (rv_hash v) ∧
      2048 ≤ BitLen (rv_N v) ≤ 8192 ∧ Z.odd (rv_N v) = true ∧
      3 ≤ rv_E v ∧ Z.odd (rv_E v) = true
  | VEd25519 v => FamilyOf (edv_alg v) = FamilyEdDSA ∧ len (edv_key v) = 32
  | VCustom _ _ _ => True
  end.

(** The verifier is for [a] and [kid] and is well formed. *)
Definition built_for (a : Algorithm) (kid : list bytes) (v : Verifier) : Prop :=
  Verifier_Algorithm v = a ∧ Verifier_KeyID v = optKID kid ∧ verifier_wf v.

Lemma IsPSS_family a : IsPSS a = true → FamilyOf a = FamilyRSAPSS.
Proof.
  unfold IsPSS. rewrite !orb_true_iff, !bool_decide_eq_true.
  intros [[->| ->]| ->]; reflexivity.
Qed.

Lemma IsPKCS1_family a : IsPKCS1 a = true → FamilyOf a = FamilyRSAPKCS1.
Proof.
  unfold IsPKCS1. rewrite !orb_true_iff, !bool_decide_eq_true.
  intros [[->| ->]| ->]; reflexivity.
Qed.

Lemma NewHMACVerifier_built a key kid v :
  NewHMACVerifier a key kid = Ok v → built_for a kid v ∧ FamilyOf a = FamilyHMAC.
Proof.
  unfold NewHMACVerifier, newHmacSigner. destruct (HashOf a) eqn:Hh; [|done].
  case_bool_decide; simpl; [|done]. destruct (len key <? _) eqn:?; [done|].
  intros [= <-]. bool_prop. done.
Qed.

Lemma NewECDSAVerifier_built a key kid v :
  NewECDSAVerifier a key kid = Ok v → built_for a kid v.
Proof.
  unfold NewECDSAVerifier. destruct (ECDSAParams a) as [[[c h] size]|] eqn:Hp; [|done].
  unfold validateECDSAPublicKey. destruct key as [[[c'|] [x|] [y|]]|]; try done.
  case_bool_decide; simpl; [|done]. destruct (on_curve c' x y) eqn:?; [|done].
  intros [= <-]. subst. done.
Qed.

Lemma newRSAVerifier_built a key kid h pss v :
  newRSAVerifier a key (optKID kid) h pss = Ok v → HashOf a = Some h →
  FamilyOf a = (if pss then FamilyRSAPSS else FamilyRSAPKCS1) → built_for a kid v.
Proof.
  unfold newRSAVerifier, validateRSAPublicKey. intros Hv Hh Hf.
  destruct key as [[[n|] e]|]; try done.
  destruct (_ || _) eqn:Hb in Hv; [done|]. destruct (BitLen n <? _) eqn:? in Hv; [done|].
  destruct (_ <? BitLen n) eqn:? in Hv; [done|]. simpl in Hv. simplify_eq/=.
  unfold minRSABits, maxRSABits in *. bool_prop.
  repeat split; simpl; try done; lia.
Qed.

Lemma NewRSAPSSVerifier_built a key kid v :
  NewRSAPSSVerifier a key kid = Ok v → built_for a kid v.
Proof.
  unfold NewRSAPSSVerifier. destruct (HashOf a) eqn:Hh; [|done].
  destruct (IsPSS a) eqn:?; [|done]. simpl. intros Hv.
  eapply newRSAVerifier_built; [done|done|]. by apply IsPSS_family.
Qed.

Lemma NewRSAPKCS1Verifier_built a key kid v :
  NewRSAPKCS1Verifier a key kid = Ok v → built_for a kid v.
Proof.
  unfold NewRSAPKCS1Verifier. destruct (HashOf a) eqn:Hh; [|done].
  destruct (IsPKCS1 a) eqn:?; [|done]. simpl. intros Hv.
  eapply newRSAVerifier_built; [done|done|]. by apply IsPKCS1_family.
Qed.

Lemma NewEd25519VerifierFor_built a key kid v :
  NewEd25519VerifierFor a key kid = Ok v → built_for a kid v.
Proof.
  unfold NewEd25519VerifierFor. destruct (_ && _) eqn:Ha; [done|].
  destruct (len key =? _) eqn:?; [|done]. intros [= <-].
  unfold ed25519_PublicKeySize in *. bool_prop. split; [done|]. split; [done|]. split; [|done].
  apply andb_false_iff in Ha. rewrite !negb_false_iff, !bool_decide_eq_true in Ha.
  by destruct Ha as [->| ->].
Qed.
End Invariant.

(** ** Signing and verifying *)

(** [v] holds the public counterpart of [s]'s key, for the same algorithm. *)
Definition counterpart `{Crypto} (s : Signer) (v : Verifier) : Prop :=
  match s, v with
  | SHmac s, VHmac v => s = v
  | SEcdsa s, VEcdsa v =>
      es_alg s = ev_alg v ∧ es_curve s = ev_curve v ∧ es_hash s = ev_hash v ∧
      es_size s = ev_size v ∧ ECDSAParams (es_alg s) = Some (es_curve s, es_hash s, es_size s) ∧
      scalar_point (es_curve s) (es_D s) = Some (ev_X v, ev_Y v)
  | SRsaPSS s, VRsa v =>
      ps_alg s = rv_alg v ∧ ps_hash s = rv_hash v ∧ rv_pss v = true ∧
      rsa_N (rsap_PublicKey (ps_key s)) = Some (rv_N v) ∧
      rsa_E (rsap_PublicKey (ps_key s)) = rv_E v ∧ rsa_Validate (ps_key s) = true
  | SEd25519 s, VEd25519 v =>
      ∃ seed, eds_key s = ed25519_NewKeyFromSeed seed ∧ edv_key v = drop 32 (eds_key s)
  | SCustom _ _ f, VCustom _ _ g => ∀ m sig, f m = Ok sig → g m sig = None
  | _, _ => False
  end.

Lemma ECDSAParams_size a c h size :
  ECDSAParams a = Some (c, h, size) → size = (BitSize c + 7) / 8 ∧ 0 ≤ size.
Proof.
  unfold ECDSAParams. intros. crush_match; split; done.
Qed.

(** [SetBytes] of each half of the fixed-width encoding gives the pair back. *)
Lemma ecdsa_sig_split size r s :
  0 ≤ size → 0 ≤ r < 256 ^ size → 0 ≤ s < 256 ^ size →
  len (ecdsa_sig size r s) = 2 * size ∧
  be_val (take (Z.to_nat size) (ecdsa_sig size r s)) = r ∧
  be_val (drop (Z.to_nat size) (ecdsa_sig size r s)) = s.
Proof.
  intros Hs Hr Ht. unfold ecdsa_sig. split.
  { rewrite len_app. unfold len. rewrite !length_be_bytes. lia. }
  rewrite take_app_length', drop_app_length' by (by rewrite length_be_bytes).
  rewrite !be_val_bytes, !Z2Nat.id, !Z.mod_small by done. done.
Qed.

Lemma verdict_None b : verdict b = None ↔ b = true.
Proof. by destruct b. Qed.

Section SignVerify.
Context `{CryptoLaws}.

Lemma sign_verify s v msg sig :
  counterpart s v → Sign_with s msg = Ok sig → Verify_with v msg sig = None.
Proof.
  destruct s, v; simpl; try done.
  - intros <- [= <-]. apply verdict_None. by apply bool_decide_eq_true.
  - intros (Ha & Hc & Hh & Hz & Hp & Hpt). unfold ecdsaSigner_Sign. intros Hs.
    apply bind_Ok in Hs as ([r t] & Hrt & [= <-]).
    destruct (ECDSAParams_size _ _ _ _ Hp) as [Hsz Hpos].
    destruct (ecdsa_Sign_ok _ _ _ _ _ _ _ _ Hpt Hsz Hrt) as (Hr & Ht & Hv).
    destruct (ecdsa_sig_split _ _ _ Hpos Hr Ht) as (Hl & Hrv & Htv).
    unfold ecdsaVerifier_Verify. rewrite <- Hz, <- Hc, <- Hh, Hl, Z.eqb_refl. simpl.
    rewrite Hrv, Htv. by apply verdict_None.
  - intros (Ha & Hh & Hpss & Hn & He & Hval) Hs.
    unfold rsaVerifier_Verify. rewrite Hpss, <- Hh, <- He. apply verdict_None.
    by eapply rsa_SignPSS_ok.
  - intros (seed & Hk & Hpub) [= <-].
    unfold ed25519Verifier_Verify. rewrite ed25519_Sign_len, Hpub, Hk, ed25519_Sign_ok. done.
  - intros Hf Hs. by apply Hf.
Qed.

(** A signature any signer produces is accepted by the verifier that
    holds the public counterpart of its key: in particular the fixed-width
    R||S form of an ECDSA signature decodes to the pair that was signed. *)
Theorem sign_then_verify s v msg sig :
  counterpart s v → Sign_with s msg = Ok sig → Verify_with v msg sig = None.
Proof. apply sign_verify. Qed.
End SignVerify.

(** An ECDSA verifier accepts no other signature length (a DER signature, for
    one); an HMAC verifier accepts exactly one signature per message. *)
Lemma ecdsa_length `{Crypto} v msg sig :
  ecdsaVerifier_Verify v msg sig = None → len sig = 2 * ev_size v.
Proof.
  unfold ecdsaVerifier_Verify. destruct (len sig =? _) eqn:E; [|done]. by bool_prop.
Qed.

Lemma hmac_unique `{Crypto} s msg sig :
  hmac_Verify s msg sig = None ↔ sig = hmac_Sign s msg.
Proof.
  unfold hmac_Verify. rewrite verdict_None, bool_decide_eq_true. done.
Qed.
