(* ===== verification/StrictJson.v ===== *)
(** * StrictJson: strictjson.go, strict decoding of untrusted JSON

    A typed decode is the syntactic [Json.parse] followed by a function on the
    tree: [encoding/json/v2] matches member names exactly, ignores unknown
    members, sets a value to its zero on [null] and rejects any other type
    mismatch.  When several members of one object are wrong, which error comes
    first is not modelled. *)

From S2P Require Import Prelude Errors GoLib Utf8 Json.

(** ** Typed decoding *)

Definition type_error : cause := ErrText "json: cannot unmarshal into Go value".

(** A member of an object. *)
Fixpoint assoc (name : bytes) (m : list (bytes * json)) : option json :=
  match m with
  | (k, v) :: m => if bool_decide (k = name) then Some v else assoc name m
  | [] => None
  end.

(** A struct field: its zero value when the member is absent. *)
Definition field {A} (m : list (bytes * json)) (name : bytes) (zero : A)
    (dec : json → res A) : res A :=
  match assoc name m with Some j => dec j | None => Ok zero end.

Definition dec_string (j : json) : res bytes :=
  match j with JStr s => Ok s | JNull => Ok [] | _ => fail type_error end.

(** [[]string], whose nil and empty values differ. *)
Fixpoint dec_all {A} (dec : json → res A) (l : list json) : res (list A) :=
  match l with
  | [] => Ok []
  | j :: l => a ← dec j; t ← dec_all dec l; Ok (a :: t)
  end.

Definition dec_slice {A} (dec : json → res A) (j : json) : res (option (list A)) :=
  match j with
  | JArr l => Some <$> dec_all dec l
  | JNull => Ok None
  | _ => fail type_error
  end.

Definition dec_strings : json → res (option (list bytes)) := dec_slice dec_string.

(** A pointer: [null] is nil. *)
Definition dec_ptr {A} (dec : json → res A) (j : json) : res (option A) :=
  match j with JNull => Ok None | _ => Some <$> dec j end.

(** [map[string]jsontext.Value]. *)
Definition dec_map (j : json) : res (list (bytes * json)) :=
  match j with JObj m => Ok m | JNull => Ok [] | _ => fail type_error end.

(** A struct whose members are decoded by [f]. *)
Definition dec_struct {A} (zero : A) (f : list (bytes * json) → res A) (j : json) : res A :=
  match j with JObj m => f m | JNull => Ok zero | _ => fail type_error end.

(** ** strictjson.go *)

Definition decodeStrict {A} (dec : json → res A) (data : bytes) : res A :=
  j ← parse data; dec j.

(** [jsonv2.Unmarshal] into a destination of any type: the text of an object to
    its value. *)
Definition decodeObjectInto {A} (unmarshal : bytes → res A) (data : bytes) : res A :=
  match TrimLeft data [x20; x09; x0d; x0a] with
  | c :: _ => if beq c "{"%byte then unmarshal data else fail errNotObject
  | [] => fail errNotObject
  end.

(** Into a type whose value is a function of the tree. *)
Definition decodeObject {A} (dec : json → res A) : bytes → res A :=
  decodeObjectInto (decodeStrict dec).

Definition registeredHeaderNames : list bytes :=
  [ #"alg"; #"jku"; #"jwk"; #"kid"; #"x5u"; #"x5c"; #"x5t"; #"x5t#S256"; #"typ"; #"cty";
   #"crit"; #"enc"; #"zip"; #"epk"; #"apu"; #"apv"; #"iv"; #"tag"; #"p2s"; #"p2c";
   #"ek"; #"psk_id"].

Definition headerMembers (headerJSON : bytes) : res (list (bytes * json)) :=
  map_err (wrap ErrMalformedToken) (decodeObject dec_map headerJSON).

(** The loop over the listed names, then the final return. *)
Fixpoint checkCriticalNames (members : list (bytes * json)) (names : list bytes) : err_opt :=
  match names with
  | [] => Some [ErrUnsupportedCritical]
  | name :: names =>
      if bool_decide (name ∈ registeredHeaderNames) then Some [ErrUnsupportedCritical]
      else match assoc name members with
           | None => Some [ErrUnsupportedCritical]
           | Some _ => checkCriticalNames members names
           end
  end.

Definition checkCritical (members : list (bytes * json)) : err_opt :=
  match assoc #"crit" members with
  | None => None
  | Some raw =>
      match dec_strings raw with
      | Err _ | Ok None => Some [ErrUnsupportedCritical]
      | Ok (Some []) => Some [ErrUnsupportedCritical]
      | Ok (Some names) => checkCriticalNames members names
      end
  end.

(** ** Facts *)

Lemma assoc_elem name m j : assoc name m = Some j → (name, j) ∈ m.
Proof.
  induction m as [|[k v] m IH]; simpl; [done|]. case_bool_decide; subst.
  - intros [= ->]. by left.
  - intros H'. right. auto.
Qed.

Lemma assoc_None name m : assoc name m = None ↔ name ∉ m.*1.
Proof.
  induction m as [|[k v] m IH]; simpl.
  - split; [intros _ ?%elem_of_nil|]; done.
  - case_bool_decide; subst.
    + split; [done|]. intros H. exfalso. apply H. by left.
    + rewrite IH, not_elem_of_cons. split; [intros Hn; split; [congruence|done]|by intros [_ ?]].
Qed.

Lemma assoc_NoDup name m j : NoDup m.*1 → (name, j) ∈ m → assoc name m = Some j.
Proof.
  induction m as [|[k v] m IH]; simpl; intros Hnd Hin; [by apply elem_of_nil in Hin|].
  apply list.NoDup_cons in Hnd as [Hk Hnd]. apply elem_of_cons in Hin as [[= <- <-]|Hin].
  - by rewrite bool_decide_eq_true_2.
  - rewrite bool_decide_eq_false_2; [auto|]. intros ->. apply Hk.
    apply list_elem_of_fmap. by exists (name, j).
Qed.

(** An object decoded with [decodeObject] is an object: [null], which
    [decodeStrict] takes for a zero value, is refused. *)
Lemma TrimLeft_ws data c t :
  TrimLeft data [x20; x09; x0d; x0a] = c :: t → skip_ws data = c :: t.
Proof. induction data as [|d data IH]; simpl; [done|]. unfold is_ws. case_bool_decide; auto. Qed.

Lemma pvalue_object n d t v r :
  pvalue n d ("{"%byte :: t) = POk v r → ∃ m, v = JObj m.
Proof.
  destruct n as [|n]; [done|]. cbn [pvalue]. simpl.
  destruct (maxNestingDepth <=? d) eqn:?; [done|]. bool_prop.
  destruct (eat "}"%byte (skip_ws t)); [intros [= <- _]; by eexists|].
  intros H. pose proof (parser_spec n) as (_ & _ & Hm).
  specialize (Hm (d + 1) [] (skip_ws t) ltac:(lia)). rewrite H in Hm.
  destruct Hm as (_ & m & -> & _). by eexists.
Qed.

Lemma of_opt_POk {A} (f : A → json) o v r : of_opt f o = POk v r → ∃ x, v = f x.
Proof. unfold of_opt. destruct o as [[x s]|]; [|done]. intros [= <- _]. by exists x. Qed.

Lemma literal_POk p s v v' r : literal p s v' = POk v r → v = v'.
Proof. unfold literal. case_match; [|done]. by intros [= <- _]. Qed.

Lemma pvalue_other n d c t m r : c ≠ "{"%byte → pvalue n d (c :: t) ≠ POk (JObj m) r.
Proof.
  intros Hne. destruct n as [|n]; [done|]. cbn [pvalue]. apply beq_false in Hne as ->.
  destruct (beq c "["%byte).
  { destruct (maxNestingDepth <=? d) eqn:?; [done|]. bool_prop.
    destruct (eat "]"%byte (skip_ws t)); [done|].
    pose proof (parser_spec n) as (_ & He & _).
    specialize (He (d + 1) [] (skip_ws t) ltac:(lia)).
    destruct (pelems _ _ _ _) as [v r'| |]; [|done..].
    destruct He as (_ & l & -> & _). done. }
  repeat case_match;
    (intros H'; first [apply of_opt_POk in H' as [? ?]|apply literal_POk in H']; done).
Qed.

Lemma decodeObject_Ok {A} (dec : json → res A) data a :
  decodeObject dec data = Ok a ↔ ∃ m, parse data = Ok (JObj m) ∧ dec (JObj m) = Ok a.
Proof.
  unfold decodeObject, decodeObjectInto. split.
  - destruct (TrimLeft data _) as [|c t] eqn:Ht; [done|]. destruct (beq c "{"%byte) eqn:Hc; [|done].
    apply beq_true in Hc as ->. apply TrimLeft_ws in Ht.
    intros H. apply bind_Ok in H as (j & Hj & Hd). revert Hj. unfold parse. rewrite Ht.
    destruct (pvalue _ _ _) as [v r| |] eqn:Hv; [|done..].
    destruct (pvalue_object _ _ _ _ _ Hv) as [m ->].
    destruct (skip_ws r); [|done]. intros [= <-]. by exists m.
  - intros (m & Hp & Hd).
    assert (Ht : ∃ t, TrimLeft data [x20; x09; x0d; x0a] = "{"%byte :: t).
    { revert Hp. unfold parse. generalize (2 * length data + 2)%nat. intros n.
      destruct (skip_ws data) as [|c t] eqn:Hs; [by destruct n|].
      destruct (decide (c = "{"%byte)) as [->|Hne].
      - intros _. exists t. revert Hs. clear. induction data as [|d data IH]; simpl; [done|].
        unfold is_ws. case_bool_decide; auto.
      - destruct (pvalue n 0 (c :: t)) as [v r| |] eqn:Hv; [|done..].
        destruct (skip_ws r); [|done]. intros [= ->]. by destruct (pvalue_other _ _ _ _ _ _ Hne Hv). }
    destruct Ht as [t ->]. simpl. unfold decodeStrict. rewrite Hp. done.
Qed.

Lemma checkCriticalNames_Some members names :
  checkCriticalNames members names = Some [ErrUnsupportedCritical].
Proof.
  induction names as [|n names IH]; simpl; [done|].
  case_bool_decide; [done|]. by destruct (assoc n members).
Qed.

Lemma checkCritical_crit members :
  checkCritical members =
    if bool_decide (#"crit" ∈ members.*1) then Some [ErrUnsupportedCritical] else None.
Proof.
  unfold checkCritical. destruct (assoc #"crit" members) as [raw|] eqn:E.
  - rewrite bool_decide_eq_true_2.
    2:{ apply assoc_elem in E. apply list_elem_of_fmap. by exists (#"crit", raw). }
    destruct (dec_strings raw) as [[[|n ns]|]|]; try done. apply checkCriticalNames_Some.
  - apply assoc_None in E. by rewrite bool_decide_eq_false_2.
Qed.

(** C7: no extension is implemented, so a header passes exactly when it has
    no "crit" member at all, and any other header fails with
    ErrUnsupportedCritical, whatever the member holds. *)
Theorem checkCritical_spec members :
  checkCritical members =
    if bool_decide (#"crit" ∈ members.*1) then Some [ErrUnsupportedCritical] else None.
Proof. apply checkCritical_crit. Qed.

(** ** Building objects field by field *)

Lemma assoc_app name m m' :
  assoc name (m ++ m') = assoc name m ∪ assoc name m'.
Proof.
  induction m as [|[k v] m IH]; simpl; [by rewrite (left_id_L None (∪))|].
  by case_bool_decide; [destruct (assoc name m')|].
Qed.

Lemma assoc_cons_ne name n j m : n ≠ name → assoc name ((n, j) :: m) = assoc name m.
Proof. intros H. simpl. by rewrite bool_decide_eq_false_2. Qed.

Lemma assoc_cons_eq n j m : assoc n ((n, j) :: m) = Some j.
Proof. simpl. by rewrite bool_decide_eq_true_2. Qed.

Lemma union_Some_l {A} (x : A) o : Some x ∪ o = Some x.
Proof. by destruct o. Qed.

(** A string field with [omitempty], and a list of strings with it. *)
Definition omit (name s : bytes) : list (bytes * json) :=
  match s with [] => [] | _ => [(name, JStr s)] end.

Definition omit_list (name : bytes) (l : list bytes) : list (bytes * json) :=
  match l with [] => [] | _ => [(name, JArr (JStr <$> l))] end.

Lemma assoc_omit_ne name n s : n ≠ name → assoc name (omit n s) = None.
Proof. intros H. destruct s; [done|]. simpl. by rewrite bool_decide_eq_false_2. Qed.

Lemma assoc_omit_list_ne name n l : n ≠ name → assoc name (omit_list n l) = None.
Proof. intros H. destruct l; [done|]. simpl. by rewrite bool_decide_eq_false_2. Qed.

Lemma assoc_omit_eq n s :
  assoc n (omit n s) = match s with [] => None | _ => Some (JStr s) end.
Proof. destruct s; [done|]. simpl. by rewrite bool_decide_eq_true_2. Qed.

Lemma assoc_omit_list_eq n l :
  assoc n (omit_list n l) = match l with [] => None | _ => Some (JArr (JStr <$> l)) end.
Proof. destruct l; [done|]. simpl. by rewrite bool_decide_eq_true_2. Qed.

Lemma dec_all_strings l : dec_all dec_string (JStr <$> l) = Ok l.
Proof.
  induction l as [|s l IH]; [done|]. rewrite fmap_cons. cbn [dec_all dec_string].
  unfold mbind, result_bind. by rewrite IH.
Qed.

Lemma dec_omit s :
  match match s with [] => None | _ :: _ => Some (JStr s) end with
  | Some j => dec_string j
  | None => Ok []
  end = Ok s.
Proof. by destruct s. Qed.

Lemma dec_omit_list l :
  default [] <$>
  match match l with [] => None | _ :: _ => Some (JArr (JStr <$> l)) end with
  | Some j => dec_strings j
  | None => Ok None
  end = Ok l.
Proof.
  destruct l as [|s l]; [done|]. unfold dec_strings, dec_slice. by rewrite dec_all_strings.
Qed.

Lemma omit_names n s : (omit n s).*1 `sublist_of` [n].
Proof. destruct s; simpl; repeat constructor. Qed.

Lemma omit_list_names n l : (omit_list n l).*1 `sublist_of` [n].
Proof. destruct l; simpl; repeat constructor. Qed.

Lemma names_app (m m' : list (bytes * json)) n ns :
  m.*1 `sublist_of` [n] → m'.*1 `sublist_of` ns → (m ++ m').*1 `sublist_of` n :: ns.
Proof. intros. rewrite fmap_app. by apply (sublist_app _ [n]). Qed.

(** A member that the strict decoder can return, of bounded depth. *)
Definition member_wf (d : Z) (kv : bytes * json) : Prop :=
  (utf8_valid kv.1 = true ∧ wf kv.2) ∧ depth kv.2 ≤ d.

Lemma str_member_wf d n s :
  0 ≤ d → utf8_valid n = true → utf8_valid s = true → member_wf d (n, JStr s).
Proof. by intros. Qed.

Lemma omit_wf d n s :
  0 ≤ d → utf8_valid n = true → utf8_valid s = true → Forall (member_wf d) (omit n s).
Proof. intros. destruct s; repeat constructor; done. Qed.

Lemma omit_len name s :
  utf8_valid s = true → members_len (omit name s) ≤ len (quote name) + 6 * len s + 4.
Proof.
  intros Hs. pose proof (quote_len s Hs). pose proof (len_nonneg (quote name)). pose proof (len_nonneg s).
  destruct s as [|c s]; cbn [omit]; [change (members_len []) with 0; lia|].
  rewrite members_len_cons. change (members_len []) with 0. cbn [fst snd print]. lia.
Qed.

Lemma strings_wf l : Forall (λ s, utf8_valid s = true) l → wf (JArr (JStr <$> l)) ∧ depth (JArr (JStr <$> l)) ≤ 1.
Proof.
  intros Hl. split.
  - apply wf_arr, list.Forall_fmap. exact Hl.
  - cbn [depth]. cut (fold_right (λ v d, Z.max (depth v) d) 0 (JStr <$> l) ≤ 0); [lia|].
    clear Hl. induction l; [done|]. rewrite fmap_cons. cbn [fold_right depth]. lia.
Qed.

Lemma omit_list_wf d n l :
  1 ≤ d → utf8_valid n = true → Forall (λ s, utf8_valid s = true) l →
  Forall (member_wf d) (omit_list n l).
Proof.
  intros Hd Hn Hl. pose proof (strings_wf l Hl) as [Hw Hdep].
  destruct l; [constructor|]. apply list.Forall_singleton. split; [done|]. simpl in *. lia.
Qed.

Lemma obj_wf d m : 0 ≤ d → NoDup m.*1 → Forall (member_wf d) m → wf (JObj m) ∧ depth (JObj m) ≤ 1 + d.
Proof.
  intros Hd Hnd Hm. split.
  - apply wf_obj. split; [done|]. eapply list.Forall_impl; [done|]. by intros [k v] [? _].
  - cut (fold_right (λ kv d, Z.max (depth (snd kv)) d) 0 m ≤ d); [simpl; lia|].
    clear Hnd. induction Hm as [|[k v] m [_ Hv] _ IH]; simpl in *; lia.
Qed.

(** Decoding what was encoded. *)
Lemma decodeObject_print {A} (dec : json → res A) m :
  wf (JObj m) → depth (JObj m) ≤ maxNestingDepth →
  decodeObject dec (print (JObj m)) = dec (JObj m).
Proof.
  intros Hw Hd. pose proof (parse_print _ Hw Hd) as Hp.
  unfold decodeObject, decodeObjectInto, decodeStrict. rewrite Hp. reflexivity.
Qed.

Ltac assoc_simpl := repeat first
  [ rewrite assoc_app
  | rewrite assoc_omit_ne by discriminate
  | rewrite assoc_omit_list_ne by discriminate
  | rewrite assoc_omit_eq | rewrite assoc_omit_list_eq
  | rewrite assoc_cons_ne by discriminate | rewrite assoc_cons_eq
  | rewrite (left_id_L None (∪)) | rewrite (right_id_L None (∪))
  | rewrite union_Some_l
  | progress cbn [assoc] ].
