(* ===== verification/Key.v ===== *)
(** * Key: key.go, the JSON Web Key

    The [Key] struct, its JSON form in both directions, the canonical-form
    checks, conversion from and to the standard library's keys, and
    [verifierForAlg], where the key's type and declared usage meet the token's
    algorithm.  [Key.Clone] copies slices; on values it is the identity (Sharing
    has it over shared arrays). *)

From S2P Require Import Prelude Errors GoLib Utf8 B64 Json StrictJson Alg.

Abbreviation KeyType := bytes.

Definition KeyTypeRSA : KeyType := #"RSA".
Definition KeyTypeEC : KeyType := #"EC".
Definition KeyTypeOKP : KeyType := #"OKP".
Definition KeyTypeOct : KeyType := #"oct".

Definition MaxRSAKeyBits : Z := 8192.

(** Nil and empty slices are not told apart by any operation on a key, so a
    list stands for both. *)
Record Key := mkKey {
  Kty : KeyType;
  Kid : bytes;
  Use : bytes;
  KeyOps : list bytes;
  KeyAlg : bytes;          (* the field Alg *)
  key_n : bytes;
  key_e : bytes;
  key_crv : bytes;
  key_x : bytes;
  key_y : bytes;
  key_k : bytes }.

#[export] Instance Key_eq_dec : EqDecision Key.
Proof. solve_decision. Defined.

(** [Key{Kty: kty, Kid: kid}]. *)
Definition blank_key (kty kid : bytes) : Key :=
  mkKey kty kid [] [] [] [] [] [] [] [] [].

Definition zero_key : Key := blank_key [] [].

(** ** JSON *)

Record jwkJSON := mkJwkJSON {
  j_kty : bytes; j_kid : bytes; j_use : bytes; j_key_ops : list bytes; j_alg : bytes;
  j_n : bytes; j_e : bytes; j_crv : bytes; j_x : bytes; j_y : bytes; j_k : bytes }.

Definition zero_jwk : jwkJSON := mkJwkJSON [] [] [] [] [] [] [] [] [] [] [].

Definition jwk_members (j : jwkJSON) : list (bytes * json) :=
  [(#"kty", JStr (j_kty j))] ++ omit #"kid" (j_kid j) ++ omit #"use" (j_use j) ++
  omit_list #"key_ops" (j_key_ops j) ++ omit #"alg" (j_alg j) ++ omit #"n" (j_n j) ++
  omit #"e" (j_e j) ++ omit #"crv" (j_crv j) ++ omit #"x" (j_x j) ++ omit #"y" (j_y j) ++
  omit #"k" (j_k j).

Definition dec_jwk : json → res jwkJSON := dec_struct zero_jwk (λ m,
  kty ← field m #"kty" [] dec_string;
  kid ← field m #"kid" [] dec_string;
  use ← field m #"use" [] dec_string;
  ops ← default [] <$> field m #"key_ops" None dec_strings;
  alg ← field m #"alg" [] dec_string;
  n ← field m #"n" [] dec_string;
  e ← field m #"e" [] dec_string;
  crv ← field m #"crv" [] dec_string;
  x ← field m #"x" [] dec_string;
  y ← field m #"y" [] dec_string;
  k ← field m #"k" [] dec_string;
  Ok (mkJwkJSON kty kid use ops alg n e crv x y k)).

(** [if len(b) > 0 { j.N = b64.Encode(b) }]. *)
Definition enc_material (b : bytes) : bytes := if 0 <? len b then Encode b else [].

(** The closure [dec] of UnmarshalJSON. *)
Definition dec_material (s : bytes) : res bytes :=
  if bool_decide (s = []) then Ok [] else Decode s.

Definition Key_jwk (k : Key) : jwkJSON :=
  mkJwkJSON (Kty k) (Kid k) (Use k) (KeyOps k) (KeyAlg k) (enc_material (key_n k))
    (enc_material (key_e k)) (key_crv k) (enc_material (key_x k)) (enc_material (key_y k)) [].

Definition Key_MarshalJSON (k : Key) : res bytes :=
  if bool_decide (Kty k = KeyTypeOct) then fail ErrOctNotServable
  else Ok (print (JObj (jwk_members (Key_jwk k)))).

(** *** The canonical-form checks *)

Definition sigKeyOps (op : bytes) : bool := bool_decide (op ∈ [ #"sign"; #"verify"]).
Definition encKeyOps (op : bytes) : bool :=
  bool_decide (op ∈ [ #"encrypt"; #"decrypt"; #"wrapKey"; #"unwrapKey"]).
Definition deriveKeyOps (op : bytes) : bool := bool_decide (op ∈ [ #"deriveKey"; #"deriveBits"]).

(** The bit the switch of the loop sets. *)
Definition operationClass (op : bytes) : Z :=
  if sigKeyOps op then 1 else if encKeyOps op then 2 else if deriveKeyOps op then 4 else 0.

Definition inconsistent_op (use op : bytes) : bool :=
  (bool_decide (use = #"sig") && negb (sigKeyOps op)) ||
  (bool_decide (use = #"enc") && negb (encKeyOps op) && negb (deriveKeyOps op)).

(** The loop over [key_ops], with the values seen and the uint8 class mask. *)
Fixpoint checkKeyOps (use : bytes) (seen : list bytes) (classes : Z) (ops : list bytes) : res Z :=
  match ops with
  | [] => Ok classes
  | op :: ops =>
      if bool_decide (op ∈ seen) then fail ErrMalformedKey
      else if inconsistent_op use op then fail ErrMalformedKey
      else checkKeyOps use (op :: seen) (Z.lor classes (operationClass op)) ops
  end.

Definition curveByName (s : bytes) : option Curve :=
  if bool_decide (s = #"P-256") then Some P256
  else if bool_decide (s = #"P-384") then Some P384
  else if bool_decide (s = #"P-521") then Some P521
  else None.

Definition curveName (c : Curve) : bytes :=
  match c with P256 => #"P-256" | P384 => #"P-384" | P521 => #"P-521" | OtherCurve _ => [] end.

(** [(c.Params().BitSize + 7) / 8]. *)
Definition coord_size (c : Curve) : Z := (BitSize c + 7) / 8.

(** [b[0] == 0], guarded by [len(b) > 0]. *)
Definition leading_zero (b : bytes) : bool :=
  match b with c :: _ => beq c x00 | [] => false end.

(** [len(b) > 0 && len(b) != size]. *)
Definition bad_size (b : bytes) (size : Z) : bool := (0 <? len b) && negb (len b =? size).

Definition checkMaterial (k : Key) : err_opt :=
  if bool_decide (Kty k = KeyTypeRSA) then
    if leading_zero (key_n k) || leading_zero (key_e k) then Some [ErrMalformedKey]
    else if MaxRSAKeyBits <? BitLen (be_val (key_n k)) then Some [ErrMalformedKey]
    else None
  else if bool_decide (Kty k = KeyTypeEC) then
    match curveByName (key_crv k) with
    | Some c =>
        if bad_size (key_x k) (coord_size c) || bad_size (key_y k) (coord_size c)
        then Some [ErrMalformedKey] else None
    | None => None
    end
  else if bool_decide (Kty k = KeyTypeOKP) then
    if bool_decide (key_crv k = #"Ed25519") && bad_size (key_x k) ed25519_PublicKeySize
    then Some [ErrMalformedKey] else None
  else None.

Definition checkCanonical (k : Key) : err_opt :=
  match checkKeyOps (Use k) [] 0 (KeyOps k) with
  | Err e => Some e
  | Ok classes =>
      if negb (classes =? 0) && negb (Z.land classes (classes - 1) =? 0)
      then Some [ErrMalformedKey]
      else checkMaterial k
  end.

(** The body of [UnmarshalJSON] after the object is decoded. *)
Definition key_of_jwk (j : jwkJSON) : res Key :=
  n ← dec_material (j_n j);
  e ← dec_material (j_e j);
  x ← dec_material (j_x j);
  y ← dec_material (j_y j);
  k ← dec_material (j_k j);
  let parsed := mkKey (j_kty j) (j_kid j) (j_use j) (j_key_ops j) (j_alg j)
                  n e (j_crv j) x y k in
  check (checkCanonical parsed) (Ok parsed).

Definition Key_UnmarshalJSON (b : bytes) : res Key :=
  j ← decodeObject dec_jwk b;
  key_of_jwk j.

(** [UnmarshalJSON] on a member of a larger document. *)
Definition dec_key (j : json) : res Key :=
  match j with
  | JObj _ => j ← dec_jwk j; key_of_jwk j
  | _ => fail errNotObject
  end.

(** ** From and to the standard library's keys *)

(** [big.Int.Bytes]: minimal big-endian. *)
Definition big_Bytes (z : Z) : bytes := be_bytes (Z.to_nat ((BitLen z + 7) / 8)) z.

Inductive PublicKey : Type :=
  | RSAPub (n e : Z)
  | ECPub (c : Curve) (x y : Z)
  | EdPub (key : bytes).

Definition with_material (k : Key) (n e crv x y secret : bytes) : Key :=
  mkKey (Kty k) (Kid k) (Use k) (KeyOps k) (KeyAlg k) n e crv x y secret.

Definition FromRSAPublicKey (pub : option RSAPublicKey) (kid : list bytes) : Key :=
  let k := blank_key KeyTypeRSA (optKID kid) in
  match pub with
  | Some (mkRSAPublicKey (Some n) e) =>
      if (n <=? 0) || (e <=? 0) then k
      else with_material k (big_Bytes n) (big_Bytes e) [] [] [] []
  | _ => k
  end.

Definition FromEd25519PublicKey (pub : bytes) (kid : list bytes) : Key :=
  with_material (blank_key KeyTypeOKP (optKID kid)) [] [] #"Ed25519" pub [] [].

Definition FromHMACSecret (secret : bytes) (kid : list bytes) : Key :=
  with_material (blank_key KeyTypeOct (optKID kid)) [] [] [] [] [] secret.

Definition Secret (k : Key) : res bytes :=
  if negb (bool_decide (Kty k = KeyTypeOct)) then fail ErrKeyTypeMismatch
  else if len (key_k k) =? 0 then fail ErrMalformedKey
  else Ok (key_k k).

(** [permitsVerify] and [sameAlgorithm]. *)
Definition sameAlgorithm (keyAlg tokenAlg : Algorithm) : bool :=
  let isEd a := bool_decide (a = Ed25519) || bool_decide (a = EdDSA) in
  bool_decide (keyAlg = tokenAlg) || (isEd keyAlg && isEd tokenAlg).

Definition permitsVerify (k : Key) (alg : Algorithm) : err_opt :=
  if negb (bool_decide (Use k = [])) && negb (bool_decide (Use k = #"sig"))
  then Some [ErrKeyUsage]
  else if (0 <? len (KeyOps k)) && negb (bool_decide (#"verify" ∈ KeyOps k))
  then Some [ErrKeyUsage]
  else if negb (bool_decide (KeyAlg k = [])) && negb (sameAlgorithm (KeyAlg k) alg)
  then Some [ErrKeyUsage]
  else None.

(** [math.MaxInt64 + 1] and [int64(^uint32(0)>>1)]. *)
Definition two63 : Z := 9223372036854775808.

(** The conversion of an integer to [int64]. *)
Definition wrap64 (z : Z) : Z := (z + two63) mod (2 * two63) - two63.

Definition maxExponent : Z := 2147483647.

Section Key.
Context `{Crypto}.

Definition FromECDSAPublicKey (pub : option ECDSAPublicKey) (kid : list bytes) : Key :=
  let k := blank_key KeyTypeEC (optKID kid) in
  match pub with
  | Some (mkECDSAPublicKey (Some c) (Some x) (Some y)) =>
      let crv := curveName c in
      if bool_decide (crv = []) then k
      else
        let k := with_material k [] [] crv [] [] [] in
        let size := Z.to_nat (coord_size c) in
        if on_curve c x y
        then with_material k [] [] crv (be_bytes size x) (be_bytes size y) []
        else k
  | _ => k
  end.

Definition Key_PublicKey (k : Key) : res PublicKey :=
  if bool_decide (Kty k = KeyTypeRSA) then
    if (len (key_n k) =? 0) || (len (key_e k) =? 0) ||
       leading_zero (key_n k) || leading_zero (key_e k)
    then fail ErrMalformedKey
    else
      let n := be_val (key_n k) in
      let e := be_val (key_e k) in
      if (n <=? 0) || (MaxRSAKeyBits <? BitLen n) || negb (Z.testbit n 0) || negb (e <? two63)
      then fail ErrMalformedKey
      else if (e <? 3) || (maxExponent <? e) || negb (Z.testbit e 0)
      then fail ErrMalformedKey
      else Ok (RSAPub n e)
  else if bool_decide (Kty k = KeyTypeEC) then
    match curveByName (key_crv k) with
    | None => fail ErrMalformedKey
    | Some c =>
        if (len (key_x k) =? 0) || (len (key_y k) =? 0) then fail ErrMalformedKey
        else if negb (len (key_x k) =? coord_size c) || negb (len (key_y k) =? coord_size c)
        then fail ErrMalformedKey
        else
          let x := be_val (key_x k) in
          let y := be_val (key_y k) in
          if on_curve c x y then Ok (ECPub c x y) else fail ErrMalformedKey
    end
  else if bool_decide (Kty k = KeyTypeOKP) then
    if negb (bool_decide (key_crv k = #"Ed25519")) ||
       negb (len (key_x k) =? ed25519_PublicKeySize)
    then fail ErrMalformedKey
    else Ok (EdPub (key_x k))
  else fail ErrMalformedKey.

Definition rsaPublic (k : Key) : res RSAPublicKey :=
  if negb (bool_decide (Kty k = KeyTypeRSA)) then fail ErrAlgorithmNotAllowed
  else
    pub ← Key_PublicKey k;
    match pub with
    | RSAPub n e => Ok (mkRSAPublicKey (Some n) e)
    | _ => fail Panicked
    end.

Definition verifierForAlg (k : Key) (alg : Algorithm) : res Verifier :=
  check (permitsVerify k alg)
  match FamilyOf alg with
  | FamilyHMAC =>
      match Secret k with
      | Err _ => fail ErrAlgorithmNotAllowed
      | Ok secret => NewHMACVerifier alg secret [Kid k]
      end
  | FamilyRSAPSS => pub ← rsaPublic k; NewRSAPSSVerifier alg (Some pub) [Kid k]
  | FamilyRSAPKCS1 => pub ← rsaPublic k; NewRSAPKCS1Verifier alg (Some pub) [Kid k]
  | FamilyECDSA =>
      if negb (bool_decide (Kty k = KeyTypeEC)) then fail ErrAlgorithmNotAllowed
      else
        pub ← Key_PublicKey k;
        match pub with
        | ECPub c x y => NewECDSAVerifier alg (Some (mkECDSAPublicKey (Some c) (Some x) (Some y))) [Kid k]
        | _ => fail Panicked
        end
  | FamilyEdDSA =>
      if negb (bool_decide (Kty k = KeyTypeOKP)) then fail ErrAlgorithmNotAllowed
      else
        pub ← Key_PublicKey k;
        match pub with
        | EdPub key => NewEd25519VerifierFor alg key [Kid k]
        | _ => fail Panicked
        end
  | FamilyUnknown => fail ErrUnsupportedAlgorithm
  end.

Definition Key_Verifier (k : Key) : res Verifier := verifierForAlg k (KeyAlg k).

Definition validateRepresentation (k : Key) : err_opt :=
  let ok {A} (r : res A) : err_opt := if is_ok r then None else Some [ErrMalformedKey] in
  match checkCanonical k with
  | Some e => Some e
  | None =>
      if bool_decide (Kty k = KeyTypeRSA) then ok (Key_PublicKey k)
      else if bool_decide (Kty k = KeyTypeEC) then
        match curveByName (key_crv k) with
        | Some _ => ok (Key_PublicKey k)
        | None => None
        end
      else if bool_decide (Kty k = KeyTypeOKP) then
        if bool_decide (key_crv k = #"Ed25519") then ok (Key_PublicKey k) else None
      else if bool_decide (Kty k = KeyTypeOct) then ok (Secret k)
      else None
  end.

(** thumbprint.go *)
Definition ParseKey (data : bytes) : res Key :=
  k ← map_err (wrap ErrMalformedKey) (Key_UnmarshalJSON data);
  if bool_decide (Kty k = []) then fail ErrMalformedKey
  else check (validateRepresentation k) (Ok k).
End Key.

(** ** The JSON form round-trips *)

Lemma dec_jwk_members j : dec_jwk (JObj (jwk_members j)) = Ok j.
Proof.
  unfold dec_jwk, dec_struct, field, jwk_members.
  destruct j as [kty kid use ops alg n e crv x y k]; cbn [j_kty j_kid j_use j_key_ops j_alg j_n j_e j_crv j_x j_y j_k].
  assoc_simpl. rewrite !dec_omit, dec_omit_list. reflexivity.
Qed.

(** Every string of the key is UTF-8. *)
Definition utf8_strings (l : list bytes) : Prop := Forall (λ s, utf8_valid s = true) l.

Definition key_utf8 (k : Key) : Prop :=
  utf8_strings [Kty k; Kid k; Use k; KeyAlg k; key_crv k] ∧ utf8_strings (KeyOps k).

Lemma ascii_valid s : is_ascii s = true → utf8_valid s = true.
Proof.
  induction s as [|c s IH]; [done|]. unfold is_ascii. cbn [forallb]. intros [Hc Hs]%andb_true_iff.
  assert (Hr : is_rune [c] = true) by exact Hc.
  change (c :: s) with ([c] ++ s). rewrite utf8_valid_rune by done. by apply IH.
Qed.

Lemma b64url_ascii c : is_b64url c = true → (bz c <? 128) = true.
Proof.
  pose proof (byte_forall (λ c, negb (is_b64url c) || (bz c <? 128)) eq_refl c) as H.
  cbv beta in H. intros Hc. by rewrite Hc in H.
Qed.

Lemma Encode_valid b : utf8_valid (Encode b) = true.
Proof.
  apply ascii_valid, forallb_forall. intros c Hc. apply b64url_ascii.
  eapply forallb_elem; [apply Encode_alphabet|by apply list_elem_of_In].
Qed.

Lemma enc_material_Encode b : enc_material b = Encode b.
Proof.
  unfold enc_material. destruct (0 <? len b) eqn:E; [done|]. bool_prop.
  assert (b = []) as -> by (apply len_nil_inv; pose proof (len_nonneg b); lia). done.
Qed.

Lemma dec_enc_material b : dec_material (enc_material b) = Ok b.
Proof.
  rewrite enc_material_Encode. unfold dec_material. case_bool_decide as H.
  - by rewrite (Encode_nil_inv _ H).
  - apply Decode_Encode_ok.
Qed.

Lemma jwk_names_NoDup j : NoDup (jwk_members j).*1.
Proof.
  apply (sublist_NoDup _ [ #"kty"; #"kid"; #"use"; #"key_ops"; #"alg"; #"n"; #"e"; #"crv"; #"x"; #"y"; #"k"]).
  - apply (bool_decide_unpack _). vm_compute. exact I.
  - unfold jwk_members. apply names_app; [done|].
    repeat (apply names_app; [apply omit_names || apply omit_list_names|]). apply omit_names.
Qed.

Lemma Key_jwk_wf k :
  key_utf8 k → wf (JObj (jwk_members (Key_jwk k))) ∧
               depth (JObj (jwk_members (Key_jwk k))) ≤ 2.
Proof.
  intros [H1 H2]. apply (obj_wf 1); [done|apply jwk_names_NoDup|].
  unfold utf8_strings in H1. rewrite !list.Forall_cons in H1. destruct H1 as (? & ? & ? & ? & ? & _).
  unfold jwk_members, Key_jwk. cbn [j_kty j_kid j_use j_key_ops j_alg j_n j_e j_crv j_x j_y j_k].
  rewrite !enc_material_Encode.
  repeat (apply list.Forall_app_2; [first
    [ apply omit_wf; [done|done|first [done|apply Encode_valid]]
    | apply omit_list_wf; [done|done|done]
    | by apply list.Forall_singleton ]|]). constructor.
Qed.

(** What a marshalled key keeps: everything but the secret. *)
Definition public_part (k : Key) : Key :=
  with_material k (key_n k) (key_e k) (key_crv k) (key_x k) (key_y k) [].

Lemma checkCanonical_public k : checkCanonical (public_part k) = checkCanonical k.
Proof. reflexivity. Qed.

Lemma Key_Unmarshal_print k :
  key_utf8 k →
  Key_UnmarshalJSON (print (JObj (jwk_members (Key_jwk k)))) =
    check (checkCanonical k) (Ok (public_part k)).
Proof.
  intros Hu. destruct (Key_jwk_wf k Hu) as [Hw Hd]. unfold Key_UnmarshalJSON.
  rewrite decodeObject_print, dec_jwk_members by (done || unfold maxNestingDepth; lia).
  unfold Key_jwk, key_of_jwk. unfold mbind, result_bind.
  cbn [j_kty j_kid j_use j_key_ops j_alg j_n j_e j_crv j_x j_y j_k].
  rewrite !dec_enc_material. reflexivity.
Qed.

(** C23: the JSON form of a key round-trips: [MarshalJSON] refuses exactly the
    symmetric keys, and for any other key with UTF-8 strings produces a document
    that [UnmarshalJSON] reads back as the same key without its secret member
    (or refuses with the error of the canonical-form check). *)
Theorem key_json_roundtrip k :
  key_utf8 k →
  if bool_decide (Kty k = KeyTypeOct) then Key_MarshalJSON k = fail ErrOctNotServable
  else ∃ b, Key_MarshalJSON k = Ok b ∧
            Key_UnmarshalJSON b = check (checkCanonical k) (Ok (public_part k)).
Proof.
  intros Hu. unfold Key_MarshalJSON. case_bool_decide; [done|].
  eexists. split; [done|]. by apply Key_Unmarshal_print.
Qed.

(** No byte of a symmetric secret reaches the JSON form of any key. *)
Lemma marshal_no_secret k secret :
  Key_MarshalJSON k =
  Key_MarshalJSON (with_material k (key_n k) (key_e k) (key_crv k) (key_x k) (key_y k) secret).
Proof. reflexivity. Qed.

(** ** From a key to a verifier *)

(** RFC 8725 section 3.1: the key type an algorithm family needs. *)
Definition family_kty (f : Family) : option KeyType :=
  match f with
  | FamilyHMAC => Some KeyTypeOct
  | FamilyRSAPSS | FamilyRSAPKCS1 => Some KeyTypeRSA
  | FamilyECDSA => Some KeyTypeEC
  | FamilyEdDSA => Some KeyTypeOKP
  | FamilyUnknown => None
  end.

(** The verifier holds the key's own material. *)
Definition holds_material (k : Key) (v : Verifier) : Prop :=
  match v with
  | VHmac s => hs_key s = key_k k
  | VEcdsa v =>
      curveByName (key_crv k) = Some (ev_curve v) ∧
      ev_X v = be_val (key_x k) ∧ ev_Y v = be_val (key_y k)
  | VRsa v => rv_N v = be_val (key_n k) ∧ rv_E v = be_val (key_e k)
  | VEd25519 v => edv_key v = key_x k
  | VCustom _ _ _ => False
  end.

(** The declared usage of the key allows verifying [alg]. *)
Definition usable (k : Key) (alg : Algorithm) : Prop :=
  (Use k = [] ∨ Use k = #"sig") ∧
  (KeyOps k = [] ∨ #"verify" ∈ KeyOps k) ∧
  (KeyAlg k = [] ∨ KeyAlg k = alg ∨
   (FamilyOf (KeyAlg k) = FamilyEdDSA ∧ FamilyOf alg = FamilyEdDSA)).

Lemma family_EdDSA a : FamilyOf a = FamilyEdDSA ↔ a = Ed25519 ∨ a = EdDSA.
Proof.
  split; [|by intros [->| ->]]. unfold FamilyOf. intros H.
  do 4 (case_bool_decide; [done|]). case_bool_decide as Ha; [|done].
  rewrite !elem_of_cons in Ha. destruct Ha as [->|[->|Ha]]; auto. by apply elem_of_nil in Ha.
Qed.

Lemma sameAlgorithm_true a b :
  sameAlgorithm a b = true ↔ a = b ∨ (FamilyOf a = FamilyEdDSA ∧ FamilyOf b = FamilyEdDSA).
Proof.
  unfold sameAlgorithm. rewrite !family_EdDSA, orb_true_iff, andb_true_iff, !orb_true_iff.
  by rewrite !bool_decide_eq_true.
Qed.

Lemma permitsVerify_None k alg : permitsVerify k alg = None ↔ usable k alg.
Proof.
  unfold permitsVerify, usable. rewrite <- (sameAlgorithm_true (KeyAlg k) alg).
  assert (Hops : KeyOps k = [] ↔ (0 <? len (KeyOps k)) = false).
  { split; [by intros ->|]. intros H. bool_prop. apply len_nil_inv. pose proof (len_nonneg (KeyOps k)). lia. }
  rewrite Hops. repeat case_bool_decide; destruct (0 <? _), (sameAlgorithm _ _); simpl; naive_solver.
Qed.

Lemma permitsVerify_Some k alg e : permitsVerify k alg = Some e → e = [ErrKeyUsage].
Proof. unfold permitsVerify. intros. by crush_match. Qed.

Section KeyFacts.
Context `{Crypto}.

Lemma PublicKey_kty k pub :
  Key_PublicKey k = Ok pub →
  match pub with
  | RSAPub n e => Kty k = KeyTypeRSA ∧ n = be_val (key_n k) ∧ e = be_val (key_e k)
  | ECPub c x y => Kty k = KeyTypeEC ∧ curveByName (key_crv k) = Some c ∧
                   x = be_val (key_x k) ∧ y = be_val (key_y k)
  | EdPub key => Kty k = KeyTypeOKP ∧ key = key_x k
  end.
Proof.
  unfold Key_PublicKey. intros Hk. case_bool_decide; [|case_bool_decide; [|case_bool_decide]].
  - inv_ok Hk. done.
  - inv_ok Hk. done.
  - inv_ok Hk. done.
  - done.
Qed.

Lemma PublicKey_err k e : Key_PublicKey k = Err e → e = [ErrMalformedKey].
Proof. unfold Key_PublicKey, fail. intros Hk. repeat case_match; by simplify_eq. Qed.

Lemma rsaPublic_Ok k pub :
  rsaPublic k = Ok pub ↔
  Kty k = KeyTypeRSA ∧
  Key_PublicKey k = Ok (RSAPub (be_val (key_n k)) (be_val (key_e k))) ∧
  pub = mkRSAPublicKey (Some (be_val (key_n k))) (be_val (key_e k)).
Proof.
  unfold rsaPublic. case_bool_decide as Hk; simpl; [|naive_solver].
  destruct (Key_PublicKey k) as [p|] eqn:Hp; simpl; [|naive_solver].
  pose proof (PublicKey_kty _ _ Hp) as Hm. destruct p; naive_solver.
Qed.

Lemma Secret_Ok k s :
  Secret k = Ok s ↔ Kty k = KeyTypeOct ∧ key_k k ≠ [] ∧ s = key_k k.
Proof.
  unfold Secret. case_bool_decide; simpl; [|naive_solver].
  destruct (len (key_k k) =? 0) eqn:E; bool_prop.
  - apply len_nil_inv in E. naive_solver.
  - assert (key_k k ≠ []) by (intros Hn; by rewrite Hn in E). naive_solver.
Qed.

Lemma newRSAVerifier_material a n e kid h pss v :
  newRSAVerifier a (Some (mkRSAPublicKey (Some n) e)) kid h pss = Ok v →
  ∃ w, v = VRsa w ∧ rv_N w = n ∧ rv_E w = e.
Proof.
  unfold newRSAVerifier, validateRSAPublicKey. intros Hv.
  inv_all. eauto.
Qed.

(** The family cases of [verifierForAlg]. *)
Lemma verifierForAlg_Ok k alg v :
  verifierForAlg k alg = Ok v →
  usable k alg ∧ family_kty (FamilyOf alg) = Some (Kty k) ∧
  built_for alg [Kid k] v ∧ holds_material k v.
Proof.
  unfold verifierForAlg. rewrite check_Ok, permitsVerify_None. intros [Hu Hv].
  split; [done|]. destruct (FamilyOf alg) eqn:Hf; cbn [family_kty]; [done|..].
  - destruct (Secret k) as [s|] eqn:Hs; [|done]. apply Secret_Ok in Hs as (Hk & _ & ->).
    split; [by f_equal|]. split; [by apply NewHMACVerifier_built in Hv as [? _]|].
    unfold NewHMACVerifier, newHmacSigner in Hv. inv_ok Hv.
    destruct (HashOf alg); [|done]. by repeat case_match; simplify_eq/=.
  - apply bind_Ok in Hv as (pub & (Hk & _ & ->)%rsaPublic_Ok & Hv).
    split; [by f_equal|]. split; [by eapply NewRSAPSSVerifier_built|].
    unfold NewRSAPSSVerifier in Hv. inv_ok Hv.
    by apply newRSAVerifier_material in Hv as (w & -> & ? & ?).
  - apply bind_Ok in Hv as (pub & (Hk & _ & ->)%rsaPublic_Ok & Hv).
    split; [by f_equal|]. split; [by eapply NewRSAPKCS1Verifier_built|].
    unfold NewRSAPKCS1Verifier in Hv. inv_ok Hv.
    by apply newRSAVerifier_material in Hv as (w & -> & ? & ?).
  - case_bool_decide as Hk; [|done]. simpl in Hv. split; [by f_equal|].
    apply bind_Ok in Hv as (pub & Hp%PublicKey_kty & Hv). destruct pub as [|c x y|]; [done| |done].
    destruct Hp as (_ & Hc & -> & ->).
    split; [by eapply NewECDSAVerifier_built|].
    unfold NewECDSAVerifier, validateECDSAPublicKey in Hv.
    destruct (ECDSAParams alg) as [[[c' h] sz]|]; [|done].
    case_bool_decide; [|done]. simpl in Hv. destruct (on_curve c _ _); [|done].
    simpl in Hv. by simplify_eq/=.
  - case_bool_decide as Hk; [|done]. simpl in Hv. split; [by f_equal|].
    apply bind_Ok in Hv as (pub & Hp%PublicKey_kty & Hv). destruct pub as [| |key]; [done..|].
    destruct Hp as (_ & ->).
    split; [by eapply NewEd25519VerifierFor_built|].
    unfold NewEd25519VerifierFor in Hv. by inv_ok Hv.
Qed.
End KeyFacts.

(** A key cannot have two types. *)
Ltac kty_clash :=
  match goal with
  | H1 : Kty ?k = _, H2 : Kty ?k = _ |- _ => rewrite H1 in H2; discriminate H2
  end.

Section KeyTheorems.
Context `{Crypto}.

(** C2: no algorithm confusion: a verifier is built for a token's "alg"
    only from a key whose declared usage allows it and whose type is the one
    its family needs; the verifier is for that algorithm and the key's kid,
    satisfies the strength rules, and holds exactly that key's material. *)
Theorem verifierForAlg_sound k alg v :
  verifierForAlg k alg = Ok v →
  usable k alg ∧ family_kty (FamilyOf alg) = Some (Kty k) ∧
  built_for alg [Kid k] v ∧ holds_material k v.
Proof. apply verifierForAlg_Ok. Qed.

Lemma constructors_no_panic alg kid :
  (∀ s e, NewHMACVerifier alg s kid = Err e → Panicked ∉ e) ∧
  (∀ s e, NewRSAPSSVerifier alg s kid = Err e → Panicked ∉ e) ∧
  (∀ s e, NewRSAPKCS1Verifier alg s kid = Err e → Panicked ∉ e) ∧
  (∀ s e, NewECDSAVerifier alg s kid = Err e → Panicked ∉ e) ∧
  (∀ s e, NewEd25519VerifierFor alg s kid = Err e → Panicked ∉ e).
Proof.
  unfold NewHMACVerifier, newHmacSigner, NewRSAPSSVerifier, NewRSAPKCS1Verifier, newRSAVerifier,
    validateRSAPublicKey, NewECDSAVerifier, validateECDSAPublicKey, NewEd25519VerifierFor, fail.
  repeat split; intros s e He; repeat case_match; simplify_eq/=;
    by rewrite list_elem_of_singleton.
Qed.

(** The failures of [verifierForAlg]: a key whose usage forbids the
    algorithm gives ErrKeyUsage, an algorithm of no built-in family
    ErrUnsupportedAlgorithm, a key of another type than the family needs
    ErrAlgorithmNotAllowed; and no type assertion ever panics. *)
Theorem verifierForAlg_errors k alg :
  (¬ usable k alg → verifierForAlg k alg = fail ErrKeyUsage) ∧
  (usable k alg → FamilyOf alg = FamilyUnknown →
     verifierForAlg k alg = fail ErrUnsupportedAlgorithm) ∧
  (usable k alg → FamilyOf alg ≠ FamilyUnknown → family_kty (FamilyOf alg) ≠ Some (Kty k) →
     verifierForAlg k alg = fail ErrAlgorithmNotAllowed) ∧
  (∀ e, verifierForAlg k alg = Err e → Panicked ∉ e).
Proof.
  rewrite <- permitsVerify_None. unfold verifierForAlg.
  destruct (permitsVerify k alg) as [e|] eqn:Hp.
  { apply permitsVerify_Some in Hp as ->. split; [done|]. split; [done|]. split; [done|].
    intros e [= <-]. by rewrite list_elem_of_singleton. }
  cbn [check]. split; [by intros []|]. split; [by intros _ ->|]. split.
  - intros _ Hf Hk. unfold Secret, rsaPublic.
    destruct (FamilyOf alg); cbn [family_kty] in Hk; try done;
      rewrite bool_decide_eq_false_2; done || congruence.
  - intros e. pose proof (constructors_no_panic alg [Kid k]) as (Hh & Hps & Hpk & Hec & Hed).
    assert (Hpub : ∀ e, Key_PublicKey k = Err e → Panicked ∉ e).
    { intros e' ->%PublicKey_err. by rewrite list_elem_of_singleton. }
    assert (Hrsa : ∀ e, rsaPublic k = Err e → Panicked ∉ e).
    { unfold rsaPublic. case_bool_decide as Hk; simpl.
      - destruct (Key_PublicKey k) as [p|] eqn:Hpk'; simpl; [|intros e'; injection 1 as <-; by apply Hpub].
        apply PublicKey_kty in Hpk'. destruct p; [done| |]; destruct Hpk' as [? _]; kty_clash.
      - intros e' [= <-]. by rewrite list_elem_of_singleton. }
    destruct (FamilyOf alg).
    + intros [= <-]. by rewrite list_elem_of_singleton.
    + destruct (Secret k); [apply Hh|]. intros [= <-]. by rewrite list_elem_of_singleton.
    + intros [He|(p & _ & He)]%bind_Err; [by apply Hrsa|by eapply Hps].
    + intros [He|(p & _ & He)]%bind_Err; [by apply Hrsa|by eapply Hpk].
    + case_bool_decide as Hk; simpl; [|intros [= <-]; by rewrite list_elem_of_singleton].
      intros [He|(p & Hp'%PublicKey_kty & He)]%bind_Err; [by apply Hpub|].
      destruct p; [destruct Hp'; kty_clash|by eapply Hec|destruct Hp'; kty_clash].
    + case_bool_decide as Hk; simpl; [|intros [= <-]; by rewrite list_elem_of_singleton].
      intros [He|(p & Hp'%PublicKey_kty & He)]%bind_Err; [by apply Hpub|].
      destruct p; [destruct Hp'; kty_clash|destruct Hp'; kty_clash|by eapply Hed].
Qed.
End KeyTheorems.

(** ** What the canonical form is *)

(** RFC 7517 section 4.3: distinct operations, consistent with "use", all of
    one kind (operations the module does not know are of no kind). *)
Definition ops_ok (use : bytes) (ops : list bytes) : Prop :=
  NoDup ops ∧
  (∀ op, op ∈ ops → inconsistent_op use op = false) ∧
  (∃ c, ∀ op, op ∈ ops → operationClass op = 0 ∨ operationClass op = c).

(** One representation per key: no leading zeros, exact widths. *)
Definition material_ok (k : Key) : Prop :=
  (Kty k = KeyTypeRSA →
     leading_zero (key_n k) = false ∧ leading_zero (key_e k) = false ∧
     BitLen (be_val (key_n k)) ≤ MaxRSAKeyBits) ∧
  (Kty k = KeyTypeEC → ∀ c, curveByName (key_crv k) = Some c →
     (key_x k = [] ∨ len (key_x k) = coord_size c) ∧
     (key_y k = [] ∨ len (key_y k) = coord_size c)) ∧
  (Kty k = KeyTypeOKP → key_crv k = #"Ed25519" → key_x k = [] ∨ len (key_x k) = 32).

Lemma operationClass_cases op :
  operationClass op = 0 ∨ operationClass op = 1 ∨ operationClass op = 2 ∨ operationClass op = 4.
Proof. unfold operationClass. repeat case_match; auto. Qed.

Definition class_mask (c : Z) (ops : list bytes) : Z :=
  fold_left (λ c op, Z.lor c (operationClass op)) ops c.

Lemma class_mask_range ops : ∀ c, 0 ≤ c < 8 → 0 ≤ class_mask c ops < 8.
Proof.
  induction ops as [|op ops IH]; intros c Hc; [done|]. apply IH.
  assert (c = 0 ∨ c = 1 ∨ c = 2 ∨ c = 3 ∨ c = 4 ∨ c = 5 ∨ c = 6 ∨ c = 7)
    as [->|[->|[->|[->|[->|[->|[->| ->]]]]]]] by lia;
    destruct (operationClass_cases op) as [->|[->|[->| ->]]]; by vm_compute.
Qed.

Lemma class_mask_bit ops c i :
  Z.testbit (class_mask c ops) i = true ↔
  Z.testbit c i = true ∨ ∃ op, op ∈ ops ∧ Z.testbit (operationClass op) i = true.
Proof.
  revert c. induction ops as [|op ops IH]; intros c.
  - simpl. split; [by left|]. intros [?|(op & Hop & _)]; [done|by apply elem_of_nil in Hop].
  - simpl. rewrite IH, Z.lor_spec, orb_true_iff. set_solver.
Qed.

(** More than one bit, as the code tests it. *)
Definition mixed (m : Z) : bool := negb (m =? 0) && negb (Z.land m (m - 1) =? 0).

Lemma mixed_table m c :
  0 ≤ m < 8 → c = 0 ∨ c = 1 ∨ c = 2 ∨ c = 4 →
  (mixed m = false → Z.land m c = c → c = 0 ∨ c = m) ∧
  (Z.land m c = m → mixed m = false).
Proof.
  intros Hm Hc.
  assert (m = 0 ∨ m = 1 ∨ m = 2 ∨ m = 3 ∨ m = 4 ∨ m = 5 ∨ m = 6 ∨ m = 7)
    as [->|[->|[->|[->|[->|[->|[->| ->]]]]]]] by lia;
    destruct Hc as [->|[->|[->| ->]]]; vm_compute;
    (split; [intros; first [discriminate|by left|by right]|intros; first [done|discriminate]]).
Qed.

Lemma land_subset a b :
  (∀ i, Z.testbit b i = true → Z.testbit a i = true) → Z.land a b = b.
Proof.
  intros H. apply Z.bits_inj'. intros i _. rewrite Z.land_spec.
  specialize (H i). destruct (Z.testbit b i); [by rewrite H|by rewrite andb_false_r].
Qed.

Lemma single_class ops :
  mixed (class_mask 0 ops) = false ↔
  ∃ c, ∀ op, op ∈ ops → operationClass op = 0 ∨ operationClass op = c.
Proof.
  pose proof (class_mask_range ops 0 ltac:(lia)) as Hr.
  pose proof (class_mask_bit ops 0) as Hb. revert Hr Hb.
  generalize (class_mask 0 ops). intros m Hr Hb. split.
  - intros Hs. exists m. intros op Hop.
    apply (mixed_table m _ Hr (operationClass_cases op)); [done|].
    apply land_subset. intros i Hi. apply Hb. eauto.
  - intros [c Hc].
    assert (Hbit : ∀ i, Z.testbit m i = true →
      Z.testbit c i = true ∧ ∃ op, c = operationClass op).
    { intros i [Hi|(op & Hop & Hi)]%Hb; [by rewrite Z.bits_0 in Hi|].
      destruct (Hc op Hop) as [Hz|<-]; [by rewrite Hz, Z.bits_0 in Hi|eauto]. }
    destruct (decide (m = 0)) as [->|Hm]; [done|].
    destruct (Hbit (Z.log2 m)) as (_ & op & Hop); [apply Z.bit_log2; lia|].
    apply (mixed_table m c Hr); [rewrite Hop; apply operationClass_cases|].
    rewrite Z.land_comm. apply land_subset. intros i Hi. by apply Hbit in Hi as [? _].
Qed.

Lemma checkKeyOps_Ok use ops : ∀ seen c m,
  checkKeyOps use seen c ops = Ok m ↔
  NoDup ops ∧ (∀ op, op ∈ ops → op ∉ seen) ∧
  (∀ op, op ∈ ops → inconsistent_op use op = false) ∧ m = class_mask c ops.
Proof.
  induction ops as [|op ops IH]; intros seen c m; simpl.
  - split; [intros [= <-]|by intros (_ & _ & _ & ->)].
    split; [constructor|]. split; [|split; [|done]]; by intros op Hop%elem_of_nil.
  - rewrite list.NoDup_cons. case_bool_decide as Hs.
    { split; [done|]. intros (_ & H & _). destruct (H op); [by left|done]. }
    destruct (inconsistent_op use op) eqn:Hi.
    { split; [done|]. intros (_ & _ & H & _). rewrite H in Hi; [done|by left]. }
    rewrite IH. split.
    + intros (Hnd & Hns & Hin & ->). repeat split; try done.
      * intros Hop. apply (Hns op Hop). by left.
      * intros o [->|Ho]%elem_of_cons; [done|]. intros ?. apply (Hns o Ho). by right.
      * intros o [->|Ho]%elem_of_cons; auto.
    + intros ([Hnop Hnd] & Hns & Hin & ->). repeat split; try done.
      * intros o Ho [->|?]%elem_of_cons; [done|]. apply (Hns o); [by right|done].
      * intros o Ho. apply Hin. by right.
Qed.

Lemma bad_size_false b n : bad_size b n = false ↔ b = [] ∨ len b = n.
Proof.
  unfold bad_size. rewrite andb_false_iff, negb_false_iff, Z.eqb_eq, Z.ltb_ge.
  pose proof (len_nonneg b). split; intros [Hb|Hb]; auto.
  - left. apply len_nil_inv. lia.
  - left. subst. unfold len. simpl. lia.
Qed.

Lemma checkMaterial_None k : checkMaterial k = None ↔ material_ok k.
Proof.
  unfold checkMaterial, material_ok.
  destruct (decide (Kty k = KeyTypeRSA)) as [Hr|Hr];
    [|destruct (decide (Kty k = KeyTypeEC)) as [He|He];
      [|destruct (decide (Kty k = KeyTypeOKP)) as [Ho|Ho]]];
    repeat (rewrite bool_decide_eq_false_2 by done);
    try (rewrite bool_decide_eq_true_2 by done); try (rewrite Hr || rewrite He || rewrite Ho).
  - destruct (_ || _) eqn:Hz; [|destruct (_ <? _) eqn:Hb; bool_prop].
    + apply orb_true_iff in Hz. split; [done|]. intros (Hrsa & _). destruct (Hrsa eq_refl) as (? & ? & _). destruct Hz; congruence.
    + split; [done|]. intros (Hrsa & _). destruct (Hrsa eq_refl) as (_ & _ & ?). lia.
    + split; [|done]. intros _. split; [done|]. by split; intros.
  - destruct (curveByName (key_crv k)) as [c|].
    2:{ split; [|done]. intros _. split; [by intros|]. by split; intros. }
    destruct (_ || _) eqn:Hz.
    + apply orb_true_iff in Hz. split; [done|]. intros (_ & Hec & _). 
      destruct (Hec eq_refl c eq_refl) as [Hx%bad_size_false Hy%bad_size_false].
      destruct Hz; congruence.
    + apply orb_false_iff in Hz as [Hx%bad_size_false Hy%bad_size_false].
      split; [|done]. intros _. split; [done|]. split; [|done]. by intros _ c' [= <-].
  - case_bool_decide as Hc; simpl.
    + destruct (bad_size _ _) eqn:Hz.
      * split; [done|]. intros (_ & _ & Hok). specialize (Hok eq_refl Hc).
        apply bad_size_false in Hok. unfold ed25519_PublicKeySize in Hz. congruence.
      * apply bad_size_false in Hz. split; [|done]. intros _. split; [by intros|]. by split; intros.
    + split; [|done]. intros _. split; [by intros|]. by split; intros.
  - split; [|done]. intros _. split; [by intros|]. by split; intros.
Qed.

(** [checkCanonical] decides the documented single-representation
    rules, and its only error is ErrMalformedKey. *)
Theorem checkCanonical_spec k :
  (checkCanonical k = None ↔ ops_ok (Use k) (KeyOps k) ∧ material_ok k) ∧
  (checkCanonical k = None ∨ checkCanonical k = Some [ErrMalformedKey]).
Proof.
  rewrite <- checkMaterial_None. unfold checkCanonical, ops_ok.
  destruct (checkKeyOps (Use k) [] 0 (KeyOps k)) as [m|e] eqn:Hk.
  - apply checkKeyOps_Ok in Hk as (Hnd & _ & Hin & ->).
    pose proof (single_class (KeyOps k)) as Hs. change (negb (class_mask 0 (KeyOps k) =? 0) && _) with (mixed (class_mask 0 (KeyOps k))).
    destruct (mixed _).
    + split; [|by right]. split; [done|]. intros ((_ & _ & Hc) & _). by apply Hs in Hc.
    + split; [|unfold checkMaterial; repeat case_match; auto].
      split; [|by intros []]. intros Hm. split; [|done]. split; [done|]. split; [done|]. by apply Hs.
  - assert (He : e = [ErrMalformedKey]).
    { revert Hk. generalize ([] : list bytes), 0. induction (KeyOps k) as [|op ops IH]; intros s c; simpl; [done|].
      repeat case_match; try (by intros [= <-]). apply IH. }
    subst e. split; [|by right]. split; [done|]. intros ((Hnd & Hin & _) & _).
    assert (Hok : checkKeyOps (Use k) [] 0 (KeyOps k) = Ok (class_mask 0 (KeyOps k))).
    { apply checkKeyOps_Ok. split; [done|]. split; [|done]. intros op _. apply not_elem_of_nil. }
    congruence.
Qed.

(** ** From the standard library's keys and back *)

Lemma BitLen_pos z : 0 < z → 2 ^ (BitLen z - 1) ≤ z < 2 ^ BitLen z ∧ 1 ≤ BitLen z.
Proof.
  intros Hz. unfold BitLen. rewrite (proj2 (Z.eqb_neq z 0)) by lia.
  rewrite Z.abs_eq by lia. pose proof (Z.log2_spec z Hz). pose proof (Z.log2_nonneg z).
  replace (Z.log2 z + 1 - 1) with (Z.log2 z) by lia.
  replace (Z.log2 z + 1) with (Z.succ (Z.log2 z)) by lia. lia.
Qed.

Lemma pow256 n : 0 ≤ n → 256 ^ n = 2 ^ (8 * n).
Proof. intros. rewrite Z.pow_mul_r by lia. done. Qed.

(** [big.Int.Bytes] is the minimal big-endian form. *)
Lemma big_Bytes_spec z :
  0 < z → be_val (big_Bytes z) = z ∧ 0 < len (big_Bytes z) ∧ leading_zero (big_Bytes z) = false.
Proof.
  intros Hz. destruct (BitLen_pos z Hz) as [[Hlo Hhi] Hb].
  set (n := (BitLen z + 7) / 8). assert (Hn : 1 ≤ n ∧ BitLen z ≤ 8 * n ≤ BitLen z + 7) by (unfold n; div_lia).
  assert (Hl : len (big_Bytes z) = n).
  { unfold len, big_Bytes. rewrite length_be_bytes. fold n. lia. }
  assert (Hv : be_val (big_Bytes z) = z).
  { unfold big_Bytes. fold n. rewrite be_val_bytes, Z2Nat.id by lia. apply Z.mod_small.
    rewrite pow256 by lia. split; [lia|]. eapply Z.lt_le_trans; [done|]. apply Z.pow_le_mono_r; lia. }
  split; [done|]. split; [lia|].
  destruct (big_Bytes z) as [|c t] eqn:E; [done|]. simpl. apply beq_false. intros ->.
  change (x00 :: t) with ([x00] ++ t) in Hv. rewrite be_val_app in Hv.
  change (be_val [x00]) with 0 in Hv. pose proof (be_val_bound t) as Ht.
  assert (Hlt : len t = n - 1) by (unfold len in *; simpl in Hl; lia).
  rewrite Hlt, pow256 in Ht by lia.
  assert (2 ^ (8 * (n - 1)) ≤ 2 ^ (BitLen z - 1)) by (apply Z.pow_le_mono_r; lia). lia.
Qed.

(** The RSA keys a JWK can carry (and no others). *)
Definition rsa_exportable (n e : Z) : bool :=
  (BitLen n <=? MaxRSAKeyBits) && Z.odd n && (3 <=? e) && (e <=? maxExponent) && Z.odd e.

Section ImportExport.
Context `{Crypto}.

Lemma RSA_import n e kid :
  0 < n → 0 < e →
  Key_PublicKey (FromRSAPublicKey (Some (mkRSAPublicKey (Some n) e)) kid) =
    if rsa_exportable n e then Ok (RSAPub n e) else fail ErrMalformedKey.
Proof.
  intros Hn He. destruct (big_Bytes_spec n Hn) as (Hnv & Hnl & Hnz).
  destruct (big_Bytes_spec e He) as (Hev & Hel & Hez).
  unfold FromRSAPublicKey. rewrite (proj2 (Z.leb_gt n 0)), (proj2 (Z.leb_gt e 0)) by done.
  unfold Key_PublicKey. cbn [orb Kty with_material blank_key key_n key_e].
  rewrite bool_decide_eq_true_2 by done. rewrite Hnz, Hez, Hnv, Hev.
  rewrite (proj2 (Z.eqb_neq (len (big_Bytes n)) 0)), (proj2 (Z.eqb_neq (len (big_Bytes e)) 0)) by lia.
  cbn [orb]. rewrite (proj2 (Z.leb_gt n 0)) by done. rewrite !Z.bit0_odd. cbn [orb].
  unfold rsa_exportable. rewrite (Z.ltb_antisym (BitLen n)), (Z.ltb_antisym 3 e), (Z.ltb_antisym e maxExponent).
  destruct (BitLen n <=? MaxRSAKeyBits), (Z.odd n); try done. cbn [negb orb andb].
  destruct (e <? two63) eqn:H63; cbn [negb orb].
  - destruct (3 <=? e), (e <=? maxExponent), (Z.odd e); done.
  - bool_prop. unfold two63, maxExponent in *. rewrite (proj2 (Z.leb_gt e _)) by lia.
    by rewrite andb_false_r.
Qed.

Lemma EC_import c x y kid :
  curveName c ≠ [] → on_curve c x y = true →
  0 ≤ x < 256 ^ coord_size c → 0 ≤ y < 256 ^ coord_size c →
  Key_PublicKey (FromECDSAPublicKey (Some (mkECDSAPublicKey (Some c) (Some x) (Some y))) kid) =
    Ok (ECPub c x y).
Proof.
  intros Hc Hon Hx Hy.
  assert (Hs : 0 < coord_size c) by (by destruct c).
  assert (Hl : ∀ z, len (be_bytes (Z.to_nat (coord_size c)) z) = coord_size c).
  { intros z. unfold len. rewrite length_be_bytes. lia. }
  assert (Hv : ∀ z, 0 ≤ z < 256 ^ coord_size c → be_val (be_bytes (Z.to_nat (coord_size c)) z) = z).
  { intros z Hz. rewrite be_val_bytes, Z2Nat.id by lia. by apply Z.mod_small. }
  unfold FromECDSAPublicKey. rewrite bool_decide_eq_false_2, Hon by done.
  unfold Key_PublicKey. cbn [Kty with_material blank_key key_x key_y key_crv].
  rewrite bool_decide_eq_false_2, bool_decide_eq_true_2 by done.
  replace (curveByName (curveName c)) with (Some c) by (by destruct c).
  rewrite !Hl, !Hv, Hon, Z.eqb_refl, (proj2 (Z.eqb_neq (coord_size c) 0)) by (done || lia). done.
Qed.

Lemma Ed_import pub kid :
  Key_PublicKey (FromEd25519PublicKey pub kid) =
    if len pub =? 32 then Ok (EdPub pub) else fail ErrMalformedKey.
Proof.
  unfold Key_PublicKey, FromEd25519PublicKey. cbn [Kty with_material blank_key key_x key_crv].
  rewrite !bool_decide_eq_false_2, !bool_decide_eq_true_2 by done.
  unfold ed25519_PublicKeySize. by destruct (len pub =? 32).
Qed.

Lemma HMAC_import secret kid :
  Secret (FromHMACSecret secret kid) =
    if bool_decide (secret = []) then fail ErrMalformedKey else Ok secret.
Proof.
  unfold Secret, FromHMACSecret. cbn [Kty with_material blank_key key_k].
  rewrite bool_decide_eq_true_2 by done. case_bool_decide as Hs; [by rewrite Hs|].
  cbn [negb]. rewrite (proj2 (Z.eqb_neq (len secret) 0)); [done|]. intros ?%len_nil_inv. done.
Qed.

(** Building a JWK from a standard library key and rebuilding the
    key from it is the identity on every key the representation can carry,
    and ErrMalformedKey on every other: the minimal big-endian integers of an
    RSA key and the fixed-width coordinates of an EC key read back exactly. *)
Theorem key_import_export kid :
  (∀ n e, 0 < n → 0 < e →
     Key_PublicKey (FromRSAPublicKey (Some (mkRSAPublicKey (Some n) e)) kid) =
       if rsa_exportable n e then Ok (RSAPub n e) else fail ErrMalformedKey) ∧
  (∀ c x y, curveName c ≠ [] → on_curve c x y = true →
     0 ≤ x < 256 ^ coord_size c → 0 ≤ y < 256 ^ coord_size c →
     Key_PublicKey
       (FromECDSAPublicKey (Some (mkECDSAPublicKey (Some c) (Some x) (Some y))) kid) =
       Ok (ECPub c x y)) ∧
  (∀ pub, Key_PublicKey (FromEd25519PublicKey pub kid) =
     if len pub =? 32 then Ok (EdPub pub) else fail ErrMalformedKey) ∧
  (∀ secret, Secret (FromHMACSecret secret kid) =
     if bool_decide (secret = []) then fail ErrMalformedKey else Ok secret).
Proof.
  split; [intros; by apply RSA_import|]. split; [intros; by apply EC_import|].
  split; intros; [apply Ed_import|apply HMAC_import].
Qed.
End ImportExport.
