(* ===== verification/Thumbprint.v ===== *)
(** * Thumbprint: thumbprint.go, RFC 7638 key thumbprints

    The canonical input is printed with the %q verb of package fmt, which is
    [strconv.Quote].  Quote is written out for printable ASCII; for any other
    string (which only an unknown "crv" can be) it is a parameter. *)

From S2P Require Import Prelude Errors GoLib Utf8 B64 SortedMap Json StrictJson Alg Key.

Definition printable (c : byte) : bool := (32 <=? bz c) && (bz c <? 127).

(** [strconv.Quote] of a string that is not printable ASCII. *)
Class Strconv := { QuoteWide : bytes → bytes }.

Definition Quote `{Strconv} (s : bytes) : bytes :=
  if forallb printable s then
    x22 :: concat (map (λ c, if beq c x22 || beq c x5c then [x5c; c] else [c]) s) ++ [x22]
  else QuoteWide s.

(** [crypto.Hash], as the caller passes it: a registration number, 0 for none.
    The hashes the module links are 5, 6 and 7; [linked] gives any other the
    program links. *)
Class HashRegistry := { linked : Z → option (bytes → bytes) }.

Section Thumbprint.
Context `{Crypto, Strconv, HashRegistry}.

(** [hash.Available()] and [internalalg.HashSum] together. *)
Definition hash_func (h : Z) : option (bytes → bytes) :=
  if h =? 5 then Some (HashSum SHA256)
  else if h =? 6 then Some (HashSum SHA384)
  else if h =? 7 then Some (HashSum SHA512)
  else linked h.

Definition firstHash (h : list Z) : Z :=
  match h with
  | x :: _ => if negb (x =? 0) then x else 5
  | [] => 5
  end.

Definition digestThumbprint (canonical : bytes) (hash : Z) : res bytes :=
  let hash := if hash =? 0 then 5 else hash in
  match hash_func hash with
  | None => fail ErrUnsupportedAlgorithm
  | Some f => Ok (Encode (f canonical))
  end.

Definition thumbprintInput (k : Key) : res bytes :=
  if bool_decide (Kty k = KeyTypeRSA) then
    if (len (key_n k) =? 0) || (len (key_e k) =? 0) then fail ErrMalformedKey
    else Ok (#'"{'e':" ++ Quote (Encode (key_e k)) ++ #'",'kty':'RSA','n':" ++
             Quote (Encode (key_n k)) ++ #"}")
  else if bool_decide (Kty k = KeyTypeEC) then
    if bool_decide (key_crv k = []) || (len (key_x k) =? 0) || (len (key_y k) =? 0)
    then fail ErrMalformedKey
    else Ok (#'"{'crv':" ++ Quote (key_crv k) ++ #'",'kty':'EC','x':" ++
             Quote (Encode (key_x k)) ++ #'",'y':" ++ Quote (Encode (key_y k)) ++ #"}")
  else if bool_decide (Kty k = KeyTypeOKP) then
    if bool_decide (key_crv k = []) || (len (key_x k) =? 0) then fail ErrMalformedKey
    else Ok (#'"{'crv':" ++ Quote (key_crv k) ++ #'",'kty':'OKP','x':" ++
             Quote (Encode (key_x k)) ++ #"}")
  else if bool_decide (Kty k = KeyTypeOct) then
    if len (key_k k) =? 0 then fail ErrMalformedKey
    else Ok (#'"{'k':" ++ Quote (Encode (key_k k)) ++ #'",'kty':'oct'}")
  else fail ErrMalformedKey.

Definition Thumbprint (k : Key) (hash : list Z) : res bytes :=
  check (validateRepresentation k)
  (canonical ← thumbprintInput k; digestThumbprint canonical (firstHash hash)).

Definition ThumbprintBytes (kty : KeyType) (raw : bytes) (hash : list Z) : res bytes :=
  if len raw =? 0 then fail ErrMalformedKey
  else if bool_decide (kty = KeyTypeOct) then
    digestThumbprint (#'"{'k':" ++ Quote (Encode raw) ++ #'",'kty':'oct'}") (firstHash hash)
  else if bool_decide (kty = KeyTypeOKP) then
    if negb (len raw =? 32) then fail ErrMalformedKey
    else digestThumbprint
           (#'"{'crv':'Ed25519','kty':'OKP','x':" ++ Quote (Encode raw) ++ #"}")
           (firstHash hash)
  else fail ErrMalformedKey.

(** ** The canonical input is canonical JSON *)

(** Printable ASCII that neither Go's Quote nor JSON's HTML-safe encoder
    treats specially. *)
Definition plain (c : byte) : bool :=
  printable c && negb (bool_decide (c ∈ #"<>&")).

(** The members RFC 7638 section 3.2 requires, in lexicographic order. *)
Definition required_members (k : Key) : list (bytes * json) :=
  if bool_decide (Kty k = KeyTypeRSA) then
    [(#"e", JStr (Encode (key_e k))); (#"kty", JStr #"RSA"); (#"n", JStr (Encode (key_n k)))]
  else if bool_decide (Kty k = KeyTypeEC) then
    [(#"crv", JStr (key_crv k)); (#"kty", JStr #"EC"); (#"x", JStr (Encode (key_x k)));
     (#"y", JStr (Encode (key_y k)))]
  else if bool_decide (Kty k = KeyTypeOKP) then
    [(#"crv", JStr (key_crv k)); (#"kty", JStr #"OKP"); (#"x", JStr (Encode (key_x k)))]
  else [(#"k", JStr (Encode (key_k k))); (#"kty", JStr #"oct")].

Lemma plain_Quote s : forallb plain s = true → Quote s = quote s ∧ utf8_valid s = true.
Proof.
  intros Hs.
  assert (Hc : ∀ c, plain c = true →
    printable c = true ∧ (bz c <? 128) = true ∧
    escape1 c = if beq c x22 || beq c x5c then [x5c; c] else [c]).
  { intros c. pose proof (byte_forall (λ c, negb (plain c) || (printable c && (bz c <? 128) &&
      bool_decide (escape1 c = if beq c x22 || beq c x5c then [x5c; c] else [c]))) eq_refl c) as Hb.
    cbv beta in Hb. intros Hc. rewrite Hc in Hb. cbn [negb orb] in Hb.
    apply andb_true_iff in Hb as [[??]%andb_true_iff ?%bool_decide_eq_true]. done. }
  assert (Hp : forallb printable s = true).
  { rewrite forallb_forall in Hs |- *. intros c Hin. by apply Hc, Hs. }
  split.
  - unfold Quote. rewrite Hp. unfold quote. do 2 f_equal. clear Hp.
    induction s as [|c s IH]; [done|]. simpl in Hs. bool_prop.
    destruct (Hc c) as (_ & Hr & He); [done|]. cbn [map concat]. rewrite IH by done.
    change (c :: s) with ([c] ++ s). unfold quote_body at 2.
    rewrite rune_fold_good by exact Hr. cbn [escape]. by rewrite He.
  - apply ascii_valid, forallb_forall. rewrite forallb_forall in Hs. intros c Hin. by apply Hc, Hs.
Qed.

Lemma Encode_plain b : forallb plain (Encode b) = true.
Proof.
  pose proof (Encode_alphabet b) as Ha. rewrite forallb_forall in Ha |- *. intros c Hc.
  pose proof (byte_forall (λ c, negb (is_b64url c) || plain c) eq_refl c) as Hb.
  cbv beta in Hb. specialize (Ha c Hc). by rewrite Ha in Hb.
Qed.

Lemma Quote_Encode b : Quote (Encode b) = quote (Encode b).
Proof. apply plain_Quote, Encode_plain. Qed.

Lemma thumbprintInput_print k s :
  thumbprintInput k = Ok s → forallb plain (key_crv k) = true →
  s = print (JObj (required_members k)).
Proof.
  unfold thumbprintInput, required_members. intros Hs Hp. apply plain_Quote in Hp as [Hp _].
  rewrite !Quote_Encode, Hp in Hs.
  do 4 (case_bool_decide;
    [match type of Hs with (if ?b then _ else _) = _ => destruct b; [done|] end;
     match type of Hs with Ok ?a = _ => assert (a = s) as <- by congruence end; clear Hs;
     cbn [print fmap list_fmap Join fst snd];
     generalize (quote (Encode (key_e k))), (quote (Encode (key_n k))), (quote (key_crv k)),
       (quote (Encode (key_x k))), (quote (Encode (key_y k))), (quote (Encode (key_k k)));
     intros; rewrite <- ?app_assoc; reflexivity|]).
  done.
Qed.

Lemma required_members_wf k :
  forallb plain (key_crv k) = true →
  wf (JObj (required_members k)) ∧ depth (JObj (required_members k)) ≤ maxNestingDepth.
Proof.
  intros [_ Hc]%plain_Quote.
  assert (Hw : wf (JObj (required_members k)) ∧ depth (JObj (required_members k)) ≤ 1 + 0).
  { unfold required_members. pose proof Encode_valid as He.
    assert (Hgo : ∀ m, NoDup m.*1 → Forall (λ kv, utf8_valid kv.1 = true ∧
      ∃ s, kv.2 = JStr s ∧ utf8_valid s = true) m → wf (JObj m) ∧ depth (JObj m) ≤ 1 + 0).
    { intros m Hnd Hm. apply (obj_wf 0); [done|done|]. eapply list.Forall_impl; [exact Hm|].
      intros [n v] (? & s & Hv & ?). simpl in Hv. subst v. by apply str_member_wf. }
    repeat case_bool_decide; (apply Hgo; [by apply (bool_decide_unpack _)|]);
      rewrite ?list.Forall_cons; repeat split; try apply Forall_nil_2;
      eexists; (split; [reflexivity|first [done|apply He]]). }
  destruct Hw as [Hw Hd]. split; [done|]. unfold maxNestingDepth. lia.
Qed.

(** Two keys with the same type and the same material of that type. *)
Definition same_key (k k' : Key) : Prop :=
  Kty k = Kty k' ∧
  (Kty k = KeyTypeRSA → key_n k = key_n k' ∧ key_e k = key_e k') ∧
  (Kty k = KeyTypeEC → key_crv k = key_crv k' ∧ key_x k = key_x k' ∧ key_y k = key_y k') ∧
  (Kty k = KeyTypeOKP → key_crv k = key_crv k' ∧ key_x k = key_x k') ∧
  (Kty k = KeyTypeOct → key_k k = key_k k').

Lemma thumbprintInput_kty k s :
  thumbprintInput k = Ok s → Kty k ∈ [KeyTypeRSA; KeyTypeEC; KeyTypeOKP; KeyTypeOct].
Proof.
  unfold thumbprintInput. intros Hs. rewrite !elem_of_cons.
  destruct (decide (Kty k = KeyTypeRSA)); [by auto|].
  destruct (decide (Kty k = KeyTypeEC)); [by auto|].
  destruct (decide (Kty k = KeyTypeOKP)); [by auto|].
  destruct (decide (Kty k = KeyTypeOct)); [by auto|].
  by rewrite !(bool_decide_eq_false_2 (Kty k = _)) in Hs by done.
Qed.

Lemma required_members_inj k k' :
  Kty k ∈ [KeyTypeRSA; KeyTypeEC; KeyTypeOKP; KeyTypeOct] →
  Kty k' ∈ [KeyTypeRSA; KeyTypeEC; KeyTypeOKP; KeyTypeOct] →
  required_members k = required_members k' ↔ same_key k k'.
Proof.
  rewrite !elem_of_cons, !elem_of_nil. unfold required_members, same_key.
  intros [Hk|[Hk|[Hk|[Hk|[]]]]] [Hk'|[Hk'|[Hk'|[Hk'|[]]]]]; rewrite Hk, Hk';
    repeat first [rewrite bool_decide_eq_true_2 by done|rewrite bool_decide_eq_false_2 by done];
    (split;
     [intros Heq; first [discriminate Heq|inversion Heq];
      repeat match goal with H : Encode _ = Encode _ |- _ => apply Encode_inj in H end;
      repeat split; intros; done
     |intros (Hty & Hr & He & Ho & Hs); try discriminate Hty]).
  - by destruct (Hr eq_refl) as [-> ->].
  - by destruct (He eq_refl) as (-> & -> & ->).
  - by destruct (Ho eq_refl) as [-> ->].
  - by rewrite (Hs eq_refl).
Qed.

Lemma required_members_ordered k : in_order (required_members k).*1.
Proof.
  unfold required_members, in_order.
  repeat case_bool_decide; cbn [fmap list_fmap fst]; repeat constructor.
Qed.

(** C24: for a key whose "crv" (if any) is printable ASCII without "<", ">" and
    "&", the thumbprint input is, octet by octet, the canonical JSON text of RFC
    7638: the object of exactly the required members, in strict lexicographic
    order of their names, printed without white space, which reads back as that
    object.  And it identifies the key: two such keys have the same input just
    when they have the same type and material, so distinct keys share a
    thumbprint only through a hash collision. *)
Theorem thumbprint_canonical k k' s s' :
  forallb plain (key_crv k) = true → forallb plain (key_crv k') = true →
  thumbprintInput k = Ok s → thumbprintInput k' = Ok s' →
  s = print (JObj (required_members k)) ∧ in_order (required_members k).*1 ∧
  parse s = Ok (JObj (required_members k)) ∧ (s = s' ↔ same_key k k').
Proof.
  intros Hp Hp' Hs Hs'.
  pose proof (thumbprintInput_kty _ _ Hs) as Hk. pose proof (thumbprintInput_kty _ _ Hs') as Hk'.
  rewrite (thumbprintInput_print _ _ Hs Hp), (thumbprintInput_print _ _ Hs' Hp').
  destruct (required_members_wf k Hp) as [Hw Hd]. destruct (required_members_wf k' Hp') as [Hw' Hd'].
  split; [done|]. split; [apply required_members_ordered|].
  split; [by apply parse_print|]. rewrite <- required_members_inj by done. split; [|by intros ->].
  intros Heq. pose proof (parse_print _ Hw Hd) as Hpp. rewrite Heq, parse_print in Hpp by done.
  congruence.
Qed.

(** The shortcut for raw key material agrees with the thumbprint of
    the parsed key, for both kinds of key it supports. *)
Theorem ThumbprintBytes_agrees raw kid hash :
  (raw ≠ [] → ThumbprintBytes KeyTypeOct raw hash = Thumbprint (FromHMACSecret raw kid) hash) ∧
  (len raw = 32 →
     ThumbprintBytes KeyTypeOKP raw hash = Thumbprint (FromEd25519PublicKey raw kid) hash).
Proof.
  unfold ThumbprintBytes, Thumbprint. split; intros Hr.
  - assert (Hl : (len raw =? 0) = false) by (apply Z.eqb_neq; by intros ?%len_nil_inv).
    assert (Hv : validateRepresentation (FromHMACSecret raw kid) = None).
    { unfold validateRepresentation.
      replace (checkCanonical (FromHMACSecret raw kid)) with (None : err_opt) by done.
      rewrite HMAC_import, (bool_decide_eq_false_2 (raw = [])) by done. done. }
    rewrite Hv, Hl. cbn [check].
    replace (thumbprintInput (FromHMACSecret raw kid)) with
      (Ok (#'"{'k':" ++ Quote (Encode raw) ++ #'",'kty':'oct'}") : res bytes); [done|].
    unfold thumbprintInput. cbn [key_k Kty FromHMACSecret with_material blank_key].
    rewrite !bool_decide_eq_false_2, bool_decide_eq_true_2, Hl by done. done.
  - assert (Hl : (len raw =? 0) = false) by (apply Z.eqb_neq; lia).
    assert (Hv : validateRepresentation (FromEd25519PublicKey raw kid) = None).
    { unfold validateRepresentation, checkCanonical, checkMaterial, bad_size, ed25519_PublicKeySize.
      cbn [Kty Use KeyOps key_x key_crv FromEd25519PublicKey with_material blank_key checkKeyOps].
      rewrite Ed_import, Hr. done. }
    rewrite Hv, Hl, Hr. cbn [check].
    replace (thumbprintInput (FromEd25519PublicKey raw kid)) with
      (Ok (#'"{'crv':'Ed25519','kty':'OKP','x':" ++ Quote (Encode raw) ++ #"}") : res bytes); [done|].
    unfold thumbprintInput. cbn [key_x key_crv Kty FromEd25519PublicKey with_material blank_key].
    rewrite 2!bool_decide_eq_false_2, bool_decide_eq_true_2, Hl by done. done.
Qed.
End Thumbprint.
