(* ===== verification/RawJson.v ===== *)
(** * RawJson: the raw text of a member, and of the elements of an array member

    A [[]json.RawMessage] field keeps the input octets of each element, and an
    [UnmarshalJSON] method is called with those of its value: [raw_value].
    [raw_array_member] walks the text of an object with the parser of [Json] and
    cuts the elements of one array member out of it; [raw_array_total] shows
    that it finds an element for every one of the parsed tree. *)

From S2P Require Import Prelude Errors GoLib Utf8 Json StrictJson.

(** The part of [s] before its suffix [r]. *)
Definition raw_of (s r : bytes) : bytes := take (length s - length r) s.

(** Elements up to the closing bracket; [s] starts an element. *)
Fixpoint raw_elems (n : nat) (s : bytes) : option (list bytes) :=
  match n with
  | O => None
  | S n =>
      match pvalue n 0 s with
      | POk _ r =>
          match eat ","%byte (skip_ws r), eat "]"%byte (skip_ws r) with
          | Some r', _ => cons (raw_of s r) <$> raw_elems n (skip_ws r')
          | None, Some _ => Some [raw_of s r]
          | None, None => None
          end
      | _ => None
      end
  end.

Definition raw_array (n : nat) (s : bytes) : option (list bytes) :=
  s ← eat "["%byte s;
  match eat "]"%byte (skip_ws s) with
  | Some _ => Some []
  | None => raw_elems n (skip_ws s)
  end.

(** The text that starts with the value of member [name]; [s] starts a member. *)
Fixpoint raw_member (n : nat) (name s : bytes) : option bytes :=
  match n with
  | O => None
  | S n =>
      '(k, r) ← eat x22 s ≫= parse_str;
      r ← eat ":"%byte (skip_ws r);
      if bool_decide (k = name) then Some (skip_ws r)
      else
        match pvalue n 0 (skip_ws r) with
        | POk _ r => r ← eat ","%byte (skip_ws r); raw_member n name (skip_ws r)
        | _ => None
        end
  end.

Definition raw_array_member (name data : bytes) : option (list bytes) :=
  let n := (2 * length data + 2)%nat in
  s ← eat "{"%byte (skip_ws data);
  s ← raw_member n name (skip_ws s);
  raw_array n s.

(** The text of the value of member [name]. *)
Definition raw_value (data name : bytes) : option bytes :=
  let n := (2 * length data + 2)%nat in
  s ← eat "{"%byte (skip_ws data);
  s ← raw_member n name (skip_ws s);
  match pvalue n 0 s with POk _ r => Some (raw_of s r) | _ => None end.

(** ** The parser is monotone in its fuel and in the depth budget *)

Lemma parser_mono n :
  (∀ d s v r, pvalue n d s = POk v r → ∀ n' d', (n <= n')%nat → d' ≤ d → pvalue n' d' s = POk v r) ∧
  (∀ d acc s v r, pelems n d acc s = POk v r →
     ∀ n' d', (n <= n')%nat → d' ≤ d → pelems n' d' acc s = POk v r) ∧
  (∀ d acc s v r, pmembers n d acc s = POk v r →
     ∀ n' d', (n <= n')%nat → d' ≤ d → pmembers n' d' acc s = POk v r).
Proof.
  induction n as [|n (IHv & IHe & IHm)]; [done|].
  assert (Hn : ∀ n', (S n <= n')%nat → ∃ m, n' = S m ∧ (n <= m)%nat).
  { intros [|m]; [lia|]. exists m. split; [done|lia]. }
  split; [|split]; intros d.
  - intros s v r Hs n' d' (m & -> & Hm)%Hn Hd. revert Hs. cbn [pvalue].
    destruct s as [|c t]; [done|].
    destruct (beq c "{"%byte); [|destruct (beq c "["%byte); [|done]].
    + destruct (maxNestingDepth <=? d) eqn:Hx; [done|]. bool_prop.
      rewrite (proj2 (Z.leb_gt _ d')) by lia.
      destruct (eat _ _); [done|]. intros Hs. eapply IHm; [done|done|lia].
    + destruct (maxNestingDepth <=? d) eqn:Hx; [done|]. bool_prop.
      rewrite (proj2 (Z.leb_gt _ d')) by lia.
      destruct (eat _ _); [done|]. intros Hs. eapply IHe; [done|done|lia].
  - intros acc s v r Hs n' d' (m & -> & Hm)%Hn Hd. revert Hs. cbn [pelems].
    destruct (pvalue n d s) as [w q| |] eqn:Hv; [|done..].
    rewrite (IHv _ _ _ _ Hv m d') by done.
    destruct (eat ","%byte _); [|done]. intros Hs. by eapply IHe.
  - intros acc s v r Hs n' d' (m & -> & Hm)%Hn Hd. revert Hs. cbn [pmembers].
    destruct (eat x22 s ≫= parse_str) as [[k q]|]; [|done].
    case_bool_decide; [done|]. destruct (eat ":"%byte _) as [q'|]; [|done].
    destruct (pvalue n d (skip_ws q')) as [w q2| |] eqn:Hv; [|done..].
    rewrite (IHv _ _ _ _ Hv m d') by done.
    destruct (eat ","%byte _); [|done]. intros Hs. by eapply IHm.
Qed.

Lemma pvalue_mono n d s v r n' d' :
  pvalue n d s = POk v r → (n <= n')%nat → d' ≤ d → pvalue n' d' s = POk v r.
Proof. intros Hs. by apply (proj1 (parser_mono n) d s). Qed.

(** ** The walk follows the parse *)

Lemma raw_elems_total n : ∀ d acc s l r N,
  0 ≤ d → pelems n d acc s = POk (JArr l) r → (n <= N)%nat →
  ∃ raws, raw_elems N s = Some raws ∧ (length acc + length raws = length l)%nat.
Proof.
  induction n as [|n IH]; intros d acc s l r N Hd Hp HN; [done|].
  destruct N as [|N]; [lia|]. revert Hp. cbn [pelems raw_elems].
  destruct (pvalue n d s) as [v q| |] eqn:Hv; [|done..].
  rewrite (pvalue_mono _ _ _ _ _ N 0 Hv) by lia.
  destruct (eat ","%byte (skip_ws q)) as [q'|].
  - intros Hp. destruct (IH _ _ _ _ _ N Hd Hp ltac:(lia)) as (raws & -> & Hl).
    eexists. split; [done|]. rewrite length_app in Hl. simpl in *. lia.
  - destruct (eat "]"%byte _); [|done]. intros [= <- _]. eexists. split; [done|].
    rewrite length_app. simpl. lia.
Qed.

Lemma pmembers_shape n d acc s v r :
  d ≤ maxNestingDepth → pmembers n d acc s = POk v r → ∃ m, v = JObj (acc ++ m).
Proof.
  intros Hd H. pose proof (parser_spec n) as (_ & _ & Hm).
  specialize (Hm d acc s Hd). rewrite H in Hm. destruct Hm as (_ & m & -> & _). by exists m.
Qed.

Lemma raw_member_total n : ∀ d acc s m r N name v,
  0 ≤ d ≤ maxNestingDepth → pmembers n d acc s = POk (JObj (acc ++ m)) r → (n <= N)%nat →
  (name, v) ∈ m → NoDup m.*1 →
  ∃ s' k r', raw_member N name s = Some s' ∧ (k <= n)%nat ∧ pvalue k d s' = POk v r'.
Proof.
  induction n as [|n IH]; intros d acc s m r N name v Hd Hp HN Hin Hnd; [done|].
  destruct N as [|N]; [lia|]. revert Hp. cbn [pmembers raw_member].
  destruct (eat x22 s ≫= parse_str) as [[k q]|]; [|done]. cbn [mbind option_bind].
  case_bool_decide as Hk; [done|]. destruct (eat ":"%byte _) as [q'|]; [|done].
  cbn [mbind option_bind].
  destruct (pvalue n d (skip_ws q')) as [w q2| |] eqn:Hv; [|done..].
  rewrite (pvalue_mono _ _ _ _ _ N 0 Hv) by lia.
  assert (Hgo : ∀ m', m = (k, w) :: m' →
    (∀ q3, eat ","%byte (skip_ws q2) = Some q3 →
       pmembers n d (acc ++ [(k, w)]) (skip_ws q3) = POk (JObj ((acc ++ [(k, w)]) ++ m')) r) →
    (eat ","%byte (skip_ws q2) = None → m' = []) →
    ∃ s' k' r', (if bool_decide (k = name) then Some (skip_ws q')
       else q3 ← eat ","%byte (skip_ws q2); raw_member N name (skip_ws q3)) = Some s' ∧
       (k' <= S n)%nat ∧ pvalue k' d s' = POk v r').
  { intros m' -> Hrest Hend. apply list.NoDup_cons in Hnd as [Hkm Hnd].
    apply elem_of_cons in Hin. case_bool_decide as Hkn.
    - subst k. destruct Hin as [[= <-]|Hin].
      + exists (skip_ws q'), n, q2. split; [done|]. split; [lia|done].
      + destruct Hkm. apply list_elem_of_fmap. by exists (name, v).
    - destruct Hin as [[= <- _]|Hin]; [done|].
      destruct (eat ","%byte (skip_ws q2)) as [q3|].
      + destruct (IH _ _ _ _ _ N name v Hd (Hrest _ eq_refl) ltac:(lia) Hin Hnd) as (s' & k' & r' & ? & ? & ?).
        exists s', k', r'. split; [done|]. split; [lia|done].
      + rewrite Hend in Hin by done. by apply elem_of_nil in Hin. }
  destruct (eat ","%byte (skip_ws q2)) as [q3|].
  - intros Hp. destruct (pmembers_shape _ _ _ _ _ _ (proj2 Hd) Hp) as [m' [= Hm']].
    rewrite <- app_assoc in Hm'. apply app_inv_head in Hm'. subst m.
    apply (Hgo m'); [done| |done]. intros ? [= <-]. rewrite Hp. by rewrite <- app_assoc.
  - destruct (eat "}"%byte _); [|done]. intros [= Hm _]. apply app_inv_head in Hm.
    by apply (Hgo []).
Qed.

(** The walk reaches the value of every member of a parsed object. *)
Lemma raw_member_parse data m name v :
  parse data = Ok (JObj m) → (name, v) ∈ m →
  ∃ t s k r, eat "{"%byte (skip_ws data) = Some t ∧
    raw_member (2 * length data + 2) name (skip_ws t) = Some s ∧
    (k <= 2 * length data + 2)%nat ∧ pvalue k (0 + 1) s = POk v r.
Proof.
  intros Hp Hin. pose proof (parse_wf _ _ Hp) as [Hw _]. apply wf_obj in Hw as [Hnd _].
  unfold parse in Hp. set (n := (2 * length data + 2)%nat) in *.
  destruct (pvalue n 0 (skip_ws data)) as [w q| |] eqn:Hv; [|done..].
  destruct (skip_ws q); [|done]. injection Hp as ->.
  destruct (skip_ws data) as [|c t]; [by destruct n|].
  destruct (decide (c = "{"%byte)) as [->|Hne]; [|by apply pvalue_other in Hv].
  exists t. rewrite eat_cons.
  assert (Hn : ∃ k, n = S k) by (unfold n; eexists; rewrite Nat.add_comm; reflexivity).
  destruct Hn as [k Hn]. revert Hv. rewrite Hn at 1. cbn [pvalue]. rewrite beq_refl.
  change (maxNestingDepth <=? 0) with false.
  destruct (eat "}"%byte (skip_ws t)).
  { intros [= <- _]. by apply elem_of_nil in Hin. }
  intros Hm.
  destruct (raw_member_total k (0 + 1) [] (skip_ws t) m q n name v)
    as (s' & k' & r' & Hs & Hk' & Hr); [unfold maxNestingDepth; lia|done|lia|done|done|].
  exists s', k', r'. split; [done|]. split; [done|]. split; [lia|done].
Qed.

(** Every member of a parsed object has a text, that the parser reads to its
    value. *)
Lemma raw_value_total data m name v :
  parse data = Ok (JObj m) → assoc name m = Some v →
  ∃ s r, raw_value data name = Some (raw_of s r) ∧ pvalue (2 * length data + 2) 0 s = POk v r.
Proof.
  intros Hp Ha. apply assoc_elem in Ha.
  destruct (raw_member_parse _ _ _ _ Hp Ha) as (t & s & k & r & Ht & Hs & Hk & Hv).
  exists s, r. apply (pvalue_mono _ _ _ _ _ (2 * length data + 2) 0) in Hv; [|done|done].
  split; [|done]. unfold raw_value. rewrite Ht. cbn [mbind option_bind]. rewrite Hs.
  cbn [mbind option_bind]. by rewrite Hv.
Qed.

(** When the parse of [data] is an object whose member [name] is an array, the
    walk returns the text of each of its elements. *)
Lemma raw_array_total data m name l :
  parse data = Ok (JObj m) → (name, JArr l) ∈ m →
  ∃ raws, raw_array_member name data = Some raws ∧ length raws = length l.
Proof.
  intros Hp Hin.
  destruct (raw_member_parse _ _ _ _ Hp Hin) as (t & s' & k' & r' & Ht & Hs & Hk' & Hs').
  unfold raw_array_member. rewrite Ht. cbn [mbind option_bind]. rewrite Hs.
  set (n := (2 * length data + 2)%nat) in *.
  cbn [mbind option_bind]. unfold raw_array.
  destruct k' as [|k']; [done|]. destruct s' as [|c t']; [done|].
  destruct (decide (c = "["%byte)) as [->|Hne].
  - rewrite eat_cons. cbn [mbind option_bind]. revert Hs'. cbn [pvalue].
    rewrite (proj2 (beq_false "["%byte "{"%byte)), beq_refl by done.
    change (maxNestingDepth <=? 0 + 1) with false.
    destruct (eat "]"%byte (skip_ws t')); [intros [= <- _]; by exists []|].
    intros He. destruct (raw_elems_total k' (0 + 1 + 1) _ _ _ _ n ltac:(done) He) as (raws & -> & Hl); [lia|].
    by exists raws.
  - exfalso. revert Hs'. cbn [pvalue]. apply beq_false in Hne as ->.
    destruct (beq c "{"%byte).
    { change (maxNestingDepth <=? 0 + 1) with false. destruct (eat "}"%byte (skip_ws t')); [done|].
      intros Hm'. by destruct (pmembers_shape k' (0 + 1 + 1) _ _ _ _ ltac:(done) Hm'). }
    repeat case_match;
      (intros Hs'; first [apply of_opt_POk in Hs' as [? ?]|apply literal_POk in Hs']; done).
Qed.

(** ** The walk on printed text *)

Lemma raw_of_app a r : raw_of (a ++ r) r = a.
Proof.
  unfold raw_of. rewrite length_app. replace (length a + length r - length r)%nat with (length a) by lia.
  apply take_app_length.
Qed.

Lemma raw_elems_print l v n rest :
  Forall (λ v, wf v ∧ depth v ≤ maxNestingDepth) (v :: l) →
  (2 * length (Join (print <$> v :: l) #",") + 2 <= n)%nat →
  raw_elems n (Join (print <$> v :: l) #"," ++ "]"%byte :: rest) = Some (print <$> v :: l).
Proof.
  revert v n. induction l as [|w l IH]; intros v n Hl Hn;
    apply Forall_cons_1 in Hl as [(Hw & Hd) Hl]; (destruct n as [|n]; [lia|]);
    pose proof (print_parse v Hw) as Hp; unfold prints in Hp.
  - cbn [fmap list_fmap Join raw_elems] in *. rewrite Hp by (done || lia).
    by rewrite eat_ws_other, eat_ws_delim, raw_of_app.
  - cbn [fmap list_fmap] in *. rewrite Join_cons2 in *. rewrite !length_app in Hn.
    rewrite <- !app_assoc. cbn [raw_elems]. rewrite Hp by (done || lia). rewrite raw_of_app.
    change (#"," ++ ?x) with (","%byte :: x). rewrite eat_ws_delim by done.
    assert (Hw' : starts_value (Join (print w :: (print <$> l)) #",")).
    { apply Forall_cons_1 in Hl as [(Hww & _) _]. by apply Join_starts, print_head. }
    rewrite starts_value_ws by done. change (length #",") with 1%nat in Hn.
    rewrite (IH w) by (done || (cbn [fmap list_fmap]; lia)). done.
Qed.

Lemma raw_array_print l n rest :
  Forall (λ v, wf v ∧ depth v ≤ maxNestingDepth) l →
  (2 * length (print (JArr l)) + 2 <= n)%nat →
  raw_array n (print (JArr l) ++ rest) = Some (print <$> l).
Proof.
  intros Hl Hn. cbn [print] in *. rewrite !length_app in Hn.
  rewrite <- !app_assoc. change (#"[" ++ ?x) with ("["%byte :: x). unfold raw_array.
  rewrite eat_cons. cbn [mbind option_bind]. destruct l as [|v l]; [reflexivity|].
  assert (Hq : starts_value (Join (print <$> v :: l) #",")).
  { apply Join_starts, print_head. by apply Forall_cons_1 in Hl as [[? _] _]. }
  rewrite starts_value_ws, starts_value_eat by done.
  apply raw_elems_print; [done|lia].
Qed.

Lemma print_obj1 name j :
  print (JObj [(name, j)]) =
    "{"%byte :: x22 :: quote_body name ++ x22 :: ":"%byte :: print j ++ #"}".
Proof.
  cbn [print fmap list_fmap Join fst snd]. generalize (print j). intros p.
  unfold quote. simpl. by rewrite <- !app_assoc.
Qed.

(** The raw elements of a printed one-member document. *)
Lemma raw_array_member_print name l :
  utf8_valid name = true → Forall (λ v, wf v ∧ depth v ≤ maxNestingDepth) l →
  raw_array_member name (print (JObj [(name, JArr l)])) = Some (print <$> l).
Proof.
  intros Hn Hl. unfold raw_array_member.
  set (n := (2 * length (print (JObj [(name, JArr l)])) + 2)%nat).
  assert (Hlen : (2 * length (print (JArr l)) + 2 <= n)%nat).
  { unfold n. cbn [print fmap list_fmap Join fst snd]. rewrite !length_app. lia. }
  assert (Hpos : ∃ k, n = S k) by (unfold n; eexists; rewrite Nat.add_comm; reflexivity).
  destruct Hpos as [k Hk]. rewrite Hk in *. clear n Hk.
  remember (print (JArr l)) as pl eqn:Hpl.
  assert (He : print (JObj [(name, JArr l)]) = "{"%byte :: x22 :: quote_body name ++ x22 :: ":"%byte :: pl ++ #"}").
  { rewrite Hpl. apply print_obj1. }
  rewrite He. change (skip_ws ("{"%byte :: ?x)) with ("{"%byte :: x).
  rewrite eat_cons. cbn [mbind option_bind].
  change (skip_ws (x22 :: ?x)) with (x22 :: x). cbn [raw_member].
  rewrite eat_cons. cbn [mbind option_bind]. rewrite parse_str_quote by done.
  cbn [mbind option_bind]. rewrite eat_ws_delim by done. cbn [mbind option_bind].
  rewrite bool_decide_eq_true_2 by done. rewrite Hpl in *.
  change (print (JArr l)) with ("["%byte :: Join (print <$> l) #"," ++ #"]").
  change (skip_ws (("["%byte :: ?x) ++ ?y)) with (("["%byte :: x) ++ y).
  cbn [mbind option_bind]. apply raw_array_print; [done|].
  cbn [print] in *. lia.
Qed.

(** A value is no longer than an object it is a member of. *)
Lemma print_member_length m name v : assoc name m = Some v → (length (print v) <= length (print (JObj m)))%nat.
Proof.
  intros Ha. cbn [print]. rewrite !length_app. cut (length (print v) <=
    length (Join ((λ kv, quote (fst kv) ++ #":" ++ print (snd kv)) <$> m) #","))%nat; [lia|].
  revert Ha. induction m as [|[k w] m IH]; [done|]. cbn [assoc fmap list_fmap fst snd].
  assert (Hj : ∀ x (l : list bytes), Join (x :: l) #"," = x ∨ ∃ t, Join (x :: l) #"," = x ++ #"," ++ Join l #"," ∧ l = t).
  { intros x [|y l]; [by left|]. right. by eexists. }
  case_bool_decide.
  - intros [= ->]. match goal with |- context [Join (?x :: ?l) _] => destruct (Hj x l) as [->|(t & -> & _)] end;
      rewrite !length_app; lia.
  - intros Ha. specialize (IH Ha). destruct m as [|kw m]; [done|].
    rewrite fmap_cons, Join_cons2, !length_app in *. lia.
Qed.

(** The member whose text the walk finds is printed where it starts. *)
Lemma raw_member_print m : ∀ kv n rest name v,
  Forall (member_wf maxNestingDepth) (kv :: m) → assoc name (kv :: m) = Some v →
  let body := Join ((λ kv, quote (fst kv) ++ #":" ++ print (snd kv)) <$> kv :: m) #"," in
  (2 * length body + 2 <= n)%nat →
  ∃ r, raw_member n name (body ++ "}"%byte :: rest) = Some (print v ++ r) ∧ num_stop r = true.
Proof.
  induction m as [|kw m IH]; intros [k w] n rest name v Hl Ha body Hn;
    apply Forall_cons_1 in Hl as [((Hk & Hw) & Hd) Hl]; simpl in Hk, Hw, Hd;
    (destruct n as [|n]; [lia|]);
    assert (Hkey : ∀ tl, eat x22 (quote k ++ #":" ++ tl) ≫= parse_str = Some (k, ":"%byte :: tl))
      by (intros; unfold quote; simpl; rewrite <- app_assoc; apply (parse_str_quote k _ Hk));
    assert (Hlen : ∀ x, length (quote k ++ #":" ++ x) = (length (quote k) + 1 + length x)%nat)
      by (intros; rewrite !length_app; simpl; lia); subst body; cbn [assoc] in Ha.
  - cbn [fmap list_fmap Join fst snd] in *. case_bool_decide as Hkn; [|done]. injection Ha as ->.
    rewrite <- !app_assoc. cbn [raw_member]. rewrite Hkey. cbn [mbind option_bind].
    rewrite eat_ws_delim by done. cbn [mbind option_bind]. rewrite bool_decide_eq_true_2 by done.
    rewrite starts_value_ws by (by apply print_head). by eexists.
  - cbn [fmap list_fmap fst snd] in *. rewrite Join_cons2 in *.
    rewrite length_app, Hlen, length_app in Hn. change (length #",") with 1%nat in Hn.
    rewrite <- !app_assoc. cbn [raw_member]. rewrite Hkey. cbn [mbind option_bind].
    rewrite eat_ws_delim by done. cbn [mbind option_bind].
    rewrite starts_value_ws by (by apply print_head). case_bool_decide as Hkn.
    + injection Ha as ->. by eexists.
    + rewrite (print_parse w Hw) by (done || lia).
      change (#"," ++ ?x) with (","%byte :: x). rewrite eat_ws_delim by done. cbn [mbind option_bind].
      assert (Hq : ∀ l, starts_value (Join ((quote kw.1 ++ #":" ++ print kw.2) :: l) #",")).
      { intros [|]; rewrite ?Join_cons2; by apply starts_value_cons. }
      rewrite starts_value_ws by done. apply (IH kw); [done|done|]. cbn [fmap list_fmap]. lia.
Qed.

(** The text of a member of a printed object is the printed value. *)
Lemma raw_value_print m name v :
  Forall (member_wf maxNestingDepth) m → assoc name m = Some v →
  raw_value (print (JObj m)) name = Some (print v).
Proof.
  intros Hm Ha. unfold raw_value. set (n := (2 * length (print (JObj m)) + 2)%nat).
  assert (Hv : wf v ∧ depth v ≤ maxNestingDepth).
  { apply assoc_elem in Ha. by destruct (Forall_elem _ _ _ Hm Ha) as [[??]?]. }
  destruct m as [|kv m]; [done|].
  assert (Hlen : (2 * length (Join ((λ kv, quote (fst kv) ++ #":" ++ print (snd kv)) <$> kv :: m) #",") + 2 <= n)%nat).
  { unfold n. cbn [print]. rewrite !length_app. lia. }
  destruct (raw_member_print m kv n [] name v Hm Ha Hlen) as (r & Hr & Hs).
  assert (He : skip_ws (print (JObj (kv :: m))) = "{"%byte ::
    Join ((λ kv, quote (fst kv) ++ #":" ++ print (snd kv)) <$> kv :: m) #"," ++ "}"%byte :: []) by done.
  rewrite He, eat_cons. cbn [mbind option_bind].
  assert (Hq : starts_value (Join ((λ kv, quote (fst kv) ++ #":" ++ print (snd kv)) <$> kv :: m) #",")).
  { rewrite fmap_cons. apply Join_starts. by apply starts_value_cons. }
  rewrite starts_value_ws by done. rewrite Hr. cbn [mbind option_bind].
  assert (Hl : (2 * length (print v) + 1 <= n)%nat).
  { unfold n. pose proof (print_member_length (kv :: m) name v Ha). lia. }
  destruct Hv as [Hw Hd]. rewrite (print_parse v Hw) by (done || lia). by rewrite raw_of_app.
Qed.
