(* ===== verification/Lenient.v ===== *)
(** * Lenient: encoding/json's own decoder

    The JWKS count of keyfetch.go and the documents of the standards watch are
    decoded by [encoding/json], which accepts more than the strict decoder of
    Json: a name may occur several times, octets that are not UTF-8 and unpaired
    surrogate escapes become U+FFFD, and a member matches a field up to case.
    [lparse] is its parser, to a tree that keeps the text of each member for
    [json.RawMessage]; [lparse_extends] shows that it reads everything the
    strict parser reads, and the same.  A null in an array is the zero element:
    that a repeated array keeps elements of the one before it is not modelled. *)

From S2P Require Import Prelude Errors GoLib Utf8 Json StrictJson RawJson.

Inductive ljson : Type :=
  | LNull
  | LBool (b : bool)
  | LNum (lit : bytes)
  | LStr (s : bytes)
  | LArr (l : list ljson)
  | LObj (m : list (bytes * bytes * ljson)).   (* name, text, value *)

(** U+FFFD. *)
Definition replacement : bytes := [xef; xbf; xbd].

(** The low half that a high surrogate needs, when it is there. *)
Definition low_half (s : bytes) : option (Z * bytes) :=
  match s with
  | bs :: u :: a :: b :: c :: d :: t =>
      if beq bs x5c && beq u "u"%byte then
        match hex4 a b c d with Some w => if is_low w then Some (w, t) else None | None => None end
      else None
  | _ => None
  end.

(** The rest of a string after its opening quotation mark. *)
Fixpoint lstr (s : bytes) : option (bytes * bytes) :=
  match s with
  | [] => None
  | c :: t =>
      if beq c x22 then Some ([], t)
      else if beq c x5c then
        match t with
        | [] => None
        | e :: t =>
            match simple_escape e with
            | Some c => push [c] (lstr t)
            | None =>
                if negb (beq e "u"%byte) then None else
                match t with
                | a :: b :: c :: d :: t' =>
                    match hex4 a b c d with
                    | None => None
                    | Some v =>
                        if negb (is_surrogate v) then push (utf8_encode v) (lstr t')
                        else
                        match t' with
                        | bs :: u :: a' :: b' :: c' :: d' :: t'' =>
                            match low_half t' with
                            | Some (w, _) =>
                                if is_high v then
                                  push (utf8_encode (65536 + (v - 55296) * 1024 + (w - 56320))) (lstr t'')
                                else push replacement (lstr t')
                            | None => push replacement (lstr t')
                            end
                        | _ => push replacement (lstr t')
                        end
                    end
                | _ => None
                end
            end
        end
      else if bz c <? 32 then None
      else if rune1 c then push [c] (lstr t)
      else
      match t with
      | [] => push replacement (lstr t)
      | c1 :: t1 =>
          if rune2 c c1 then push [c; c1] (lstr t1) else
          match t1 with
          | [] => push replacement (lstr t)
          | c2 :: t2 =>
              if rune3 c c1 c2 then push [c; c1; c2] (lstr t2) else
              match t2 with
              | [] => push replacement (lstr t)
              | c3 :: t3 =>
                  if rune4 c c1 c2 c3 then push [c; c1; c2; c3] (lstr t3) else push replacement (lstr t)
              end
          end
      end
  end.

Inductive lres : Type :=
  | LOk (v : ljson) (rest : bytes)
  | LFail
  | LFuel.

Definition lof_opt {A} (f : A → ljson) (o : option (A * bytes)) : lres :=
  match o with Some (a, r) => LOk (f a) r | None => LFail end.

Definition lliteral (p s : bytes) (v : ljson) : lres :=
  match strip_prefix p s with Some r => LOk v r | None => LFail end.

Fixpoint lvalue (n : nat) (d : Z) (s : bytes) {struct n} : lres :=
  match n with
  | O => LFuel
  | S n =>
      match s with
      | [] => LFail
      | c :: t =>
          if beq c "{"%byte then
            if maxNestingDepth <=? d then LFail else
            match eat "}"%byte (skip_ws t) with
            | Some r => LOk (LObj []) r
            | None => lmembers n (d + 1) [] (skip_ws t)
            end
          else if beq c "["%byte then
            if maxNestingDepth <=? d then LFail else
            match eat "]"%byte (skip_ws t) with
            | Some r => LOk (LArr []) r
            | None => lelems n (d + 1) [] (skip_ws t)
            end
          else if beq c x22 then lof_opt LStr (lstr t)
          else if beq c "t"%byte then lliteral #"true" s (LBool true)
          else if beq c "f"%byte then lliteral #"false" s (LBool false)
          else if beq c "n"%byte then lliteral #"null" s LNull
          else lof_opt LNum (parse_number s)
      end
  end
with lelems (n : nat) (d : Z) (acc : list ljson) (s : bytes) {struct n} : lres :=
  match n with
  | O => LFuel
  | S n =>
      match lvalue n d s with
      | LOk v r =>
          let acc := acc ++ [v] in
          match eat ","%byte (skip_ws r), eat "]"%byte (skip_ws r) with
          | Some r', _ => lelems n d acc (skip_ws r')
          | None, Some r' => LOk (LArr acc) r'
          | None, None => LFail
          end
      | p => p
      end
  end
with lmembers (n : nat) (d : Z) (acc : list (bytes * bytes * ljson)) (s : bytes) {struct n} : lres :=
  match n with
  | O => LFuel
  | S n =>
      match eat x22 s ≫= lstr with
      | None => LFail
      | Some (k, r) =>
          match eat ":"%byte (skip_ws r) with
          | None => LFail
          | Some r' =>
              match lvalue n d (skip_ws r') with
              | LOk v r =>
                  let acc := acc ++ [(k, raw_of (skip_ws r') r, v)] in
                  match eat ","%byte (skip_ws r), eat "}"%byte (skip_ws r) with
                  | Some r', _ => lmembers n d acc (skip_ws r')
                  | None, Some r' => LOk (LObj acc) r'
                  | None, None => LFail
                  end
              | p => p
              end
          end
      end
  end.

(** A complete JSON text; the fuel is enough ([lparse_total]). *)
Definition lparse_fuel (n : nat) (data : bytes) : lres :=
  match lvalue n 0 (skip_ws data) with
  | LOk v r => match skip_ws r with [] => LOk v [] | _ => LFail end
  | p => p
  end.

Definition lparse (data : bytes) : option ljson :=
  match lparse_fuel (2 * length data + 2) data with LOk v _ => Some v | _ => None end.

(** ** Typed decoding *)

(** The members that fill a field, in order: their names equal the field's up to
    case. *)
Definition matches (name : bytes) (m : list (bytes * bytes * ljson)) : list (bytes * ljson) :=
  omap (λ f, if EqualFold f.1.1 name then Some (f.1.2, f.2) else None) m.

(** A field takes one value after another; a value of another type is an error. *)
Definition lfield {A} (step : A → bytes → ljson → option A) (zero : A) (name : bytes)
    (m : list (bytes * bytes * ljson)) : option A :=
  fold_left (λ a v, a ← a; step a v.1 v.2) (matches name m) (Some zero).

Definition lstring (old : bytes) (_ : bytes) (v : ljson) : option bytes :=
  match v with LStr s => Some s | LNull => Some old | _ => None end.

Definition lstring_ptr (_ : option bytes) (_ : bytes) (v : ljson) : option (option bytes) :=
  match v with LStr s => Some (Some s) | LNull => Some None | _ => None end.

Definition lstrings (_ : list bytes) (_ : bytes) (v : ljson) : option (list bytes) :=
  match v with
  | LArr l => mapM (lstring [] []) l
  | LNull => Some []
  | _ => None
  end.

(** [json.RawMessage]: the text, whatever the value. *)
Definition lraw (_ : bytes) (text : bytes) (_ : ljson) : option bytes := Some text.

(** A struct: null leaves it as it is. *)
Definition lstruct {A} (zero : A) (f : list (bytes * bytes * ljson) → option A) (v : ljson) : option A :=
  match v with LObj m => f m | LNull => Some zero | _ => None end.

(** ** The lenient parser extends the strict one *)

Fixpoint erase (t : ljson) : json :=
  match t with
  | LNull => JNull
  | LBool b => JBool b
  | LNum lit => JNum lit
  | LStr s => JStr s
  | LArr l => JArr (erase <$> l)
  | LObj m => JObj ((λ f, (f.1.1, erase f.2)) <$> m)
  end.

Lemma lstr_extends_len n : ∀ s x, (length s <= n)%nat → parse_str s = Some x → lstr s = Some x.
Proof.
  induction n as [|n IH]; intros s x Hn Hs; [by destruct s; [|simpl in Hn; lia]|].
  assert (Hp : ∀ r t y, (length t <= n)%nat → push r (parse_str t) = Some y → push r (lstr t) = Some y).
  { intros r t y Ht. destruct (parse_str t) as [z|] eqn:Hz; [|done]. by rewrite (IH t z Ht Hz). }
  destruct s as [|c t]; [done|]. simpl in Hn. cbn [parse_str lstr] in *.
  destruct (beq c x22); [done|]. destruct (beq c x5c).
  - destruct t as [|e t]; [done|]. simpl in Hn. destruct (simple_escape e); [eapply Hp; [|exact Hs]; lia|].
    destruct (negb _); [done|]. destruct t as [|a [|b [|c' [|d t']]]]; try done. simpl in Hn.
    destruct (hex4 a b c' d) as [v|]; [|done]. destruct (negb (is_surrogate v)); [eapply Hp; [|exact Hs]; lia|].
    destruct t' as [|bs [|u [|a' [|b' [|c'' [|d' t'']]]]]]; try done. simpl in Hn. unfold low_half.
    destruct (beq bs x5c && beq u "u"%byte); [|done]. cbn [negb] in Hs.
    destruct (hex4 a' b' c'' d') as [w|]; [|done]. destruct (is_high v), (is_low w); try done.
    cbn [andb] in Hs. eapply Hp; [|exact Hs]; lia.
  - destruct (bz c <? 32); [done|]. destruct (rune1 c); [eapply Hp; [|exact Hs]; lia|].
    destruct t as [|c1 t1]; [done|]. simpl in Hn. destruct (rune2 c c1); [eapply Hp; [|exact Hs]; lia|].
    destruct t1 as [|c2 t2]; [done|]. simpl in Hn. destruct (rune3 c c1 c2); [eapply Hp; [|exact Hs]; lia|].
    destruct t2 as [|c3 t3]; [done|]. simpl in Hn.
    destruct (rune4 c c1 c2 c3); [eapply Hp; [|exact Hs]; lia|done].
Qed.

Lemma lstr_extends s x : parse_str s = Some x → lstr s = Some x.
Proof. by apply (lstr_extends_len (length s)). Qed.

Definition lextends (p : pres) (q : lres) : Prop :=
  ∀ v r, p = POk v r → ∃ t, q = LOk t r ∧ erase t = v.

Lemma lextends_literal p s w t : erase t = w → lextends (literal p s w) (lliteral p s t).
Proof.
  intros He v r. unfold literal, lliteral. destruct (strip_prefix p s); [|done].
  intros [= <- <-]. by exists t.
Qed.

Lemma lparser_extends n :
  (∀ d s, lextends (pvalue n d s) (lvalue n d s)) ∧
  (∀ d acc lacc s, acc = erase <$> lacc → lextends (pelems n d acc s) (lelems n d lacc s)) ∧
  (∀ d acc lacc s, acc = (λ f, (f.1.1, erase f.2)) <$> lacc →
     lextends (pmembers n d acc s) (lmembers n d lacc s)).
Proof.
  induction n as [|n (IHv & IHe & IHm)]; [done|]. split; [|split].
  - intros d [|c t]; [done|]. cbn [pvalue lvalue].
    destruct (beq c "{"%byte).
    { destruct (maxNestingDepth <=? d); [done|]. destruct (eat "}"%byte (skip_ws t)).
      - intros v r [= <- <-]. by exists (LObj []).
      - by apply (IHm _ [] []). }
    destruct (beq c "["%byte).
    { destruct (maxNestingDepth <=? d); [done|]. destruct (eat "]"%byte (skip_ws t)).
      - intros v r [= <- <-]. by exists (LArr []).
      - by apply (IHe _ [] []). }
    destruct (beq c x22).
    { destruct (parse_str t) as [[k q]|] eqn:Hk; [|done]. intros v r [= <- <-]. rewrite (lstr_extends _ _ Hk).
      by exists (LStr k). }
    destruct (beq c "t"%byte); [by apply lextends_literal|].
    destruct (beq c "f"%byte); [by apply lextends_literal|].
    destruct (beq c "n"%byte); [by apply lextends_literal|].
    destruct (parse_number (c :: t)) as [[k q]|]; [|done]. intros v r [= <- <-]. by exists (LNum k).
  - intros d acc lacc s -> v r. cbn [pelems lelems]. specialize (IHv d s).
    destruct (pvalue n d s) as [w q| |]; [|done..]. destruct (IHv w q eq_refl) as (t & -> & <-).
    assert (Ha : (erase <$> lacc) ++ [erase t] = erase <$> (lacc ++ [t])) by (by rewrite fmap_app).
    destruct (eat ","%byte (skip_ws q)); [by apply IHe|]. destruct (eat "]"%byte (skip_ws q)); [|done].
    intros [= <- <-]. eexists. split; [done|]. by rewrite Ha.
  - intros d acc lacc s -> v r. cbn [pmembers lmembers].
    destruct (eat x22 s) as [s'|]; [|done]. cbn [mbind option_bind].
    destruct (parse_str s') as [[k q]|] eqn:Hk; [|done]. rewrite (lstr_extends _ _ Hk).
    case_bool_decide; [done|]. destruct (eat ":"%byte (skip_ws q)) as [q'|]; [|done].
    specialize (IHv d (skip_ws q')).
    destruct (pvalue n d (skip_ws q')) as [w q2| |]; [|done..]. destruct (IHv w q2 eq_refl) as (t & -> & <-).
    assert (Ha : ((λ f, (f.1.1, erase f.2)) <$> lacc) ++ [(k, erase t)] =
      (λ f, (f.1.1, erase f.2)) <$> (lacc ++ [(k, raw_of (skip_ws q') q2, t)])) by (by rewrite fmap_app).
    destruct (eat ","%byte (skip_ws q2)); [by apply IHm|]. destruct (eat "}"%byte (skip_ws q2)); [|done].
    intros [= <- <-]. eexists. split; [done|]. by rewrite Ha.
Qed.

(** What the strict parser reads, the lenient one reads, and the same. *)
Lemma lparse_extends data j : parse data = Ok j → ∃ t, lparse data = Some t ∧ erase t = j.
Proof.
  unfold parse, lparse, lparse_fuel.
  pose proof (proj1 (lparser_extends (2 * length data + 2)) 0 (skip_ws data)) as Hv.
  destruct (pvalue _ _ _) as [v r| |]; [|done..]. destruct (Hv v r eq_refl) as (t & -> & <-).
  destruct (skip_ws r); [|done]. intros [= <-]. by exists t.
Qed.

(** ** Fuel *)

Lemma lstr_length_len n : ∀ s t r, (length s <= n)%nat → lstr s = Some (t, r) → (length r < length s)%nat.
Proof.
  induction n as [|n IH]; intros s t r Hn Hs; [by destruct s; [|simpl in Hn; lia]|].
  assert (Hp : ∀ p u, (length u < length s)%nat → push p (lstr u) = Some (t, r) → (length r < length s)%nat).
  { intros p u Hu (v & Hv & _)%push_Some. apply IH in Hv; lia. }
  destruct s as [|c s]; [done|]. cbn [lstr] in Hs.
  repeat case_match; simplify_eq; try (eapply Hp; [|exact Hs]; simpl; lia). simpl. lia.
Qed.

Lemma lstr_length s t r : lstr s = Some (t, r) → (length r < length s)%nat.
Proof. by apply (lstr_length_len (length s)). Qed.

Definition shorter (s : bytes) (p : lres) : Prop :=
  match p with LOk _ r => (length r < length s)%nat | _ => True end.

Lemma lparser_shorter n :
  (∀ d s, shorter s (lvalue n d s)) ∧ (∀ d acc s, shorter s (lelems n d acc s)) ∧
  (∀ d acc s, shorter s (lmembers n d acc s)).
Proof.
  induction n as [|n (IHv & IHe & IHm)]; [done|]. split; [|split].
  - intros d [|c t]; [done|]. cbn [lvalue]. pose proof (skip_ws_length t).
    assert (Hl : ∀ p v, (0 < length p)%nat → shorter (c :: t) (lliteral p (c :: t) v)).
    { intros p v Hp. unfold lliteral. destruct (strip_prefix p (c :: t)) as [r|] eqn:E; [|done].
      apply strip_prefix_length in E. simpl in *. lia. }
    destruct (beq c "{"%byte).
    { destruct (maxNestingDepth <=? d); [done|]. destruct (eat "}"%byte (skip_ws t)) as [r|] eqn:E.
      - apply eat_ws_length in E. simpl. lia.
      - specialize (IHm (d + 1) [] (skip_ws t)). destruct (lmembers _ _ _ _); simpl in *; lia. }
    destruct (beq c "["%byte).
    { destruct (maxNestingDepth <=? d); [done|]. destruct (eat "]"%byte (skip_ws t)) as [r|] eqn:E.
      - apply eat_ws_length in E. simpl. lia.
      - specialize (IHe (d + 1) [] (skip_ws t)). destruct (lelems _ _ _ _); simpl in *; lia. }
    destruct (beq c x22).
    { destruct (lstr t) as [[k r]|] eqn:E; [|done]. apply lstr_length in E. simpl. lia. }
    destruct (beq c "t"%byte); [apply Hl; simpl; lia|]. destruct (beq c "f"%byte); [apply Hl; simpl; lia|].
    destruct (beq c "n"%byte); [apply Hl; simpl; lia|].
    destruct (parse_number _) as [[x r]|] eqn:E; [|done]. apply parse_number_spec in E as [??]. simpl in *. lia.
  - intros d acc s. cbn [lelems]. specialize (IHv d s). destruct (lvalue n d s) as [v r| |]; [|done..].
    destruct (eat ","%byte (skip_ws r)) as [r'|] eqn:E1.
    + apply eat_ws_length in E1. pose proof (skip_ws_length r').
      match goal with |- shorter s (lelems n d ?a ?b) => specialize (IHe d a b) end.
      destruct (lelems _ _ _ _); simpl in *; lia.
    + destruct (eat "]"%byte (skip_ws r)) as [r'|] eqn:E2; [|done]. apply eat_ws_length in E2. simpl in *. lia.
  - intros d acc s. cbn [lmembers].
    destruct (eat x22 s) as [s'|] eqn:Es; [|done]. cbn [mbind option_bind].
    destruct (lstr s') as [[k r]|] eqn:Ek; [|done]. apply eat_length in Es. apply lstr_length in Ek.
    destruct (eat ":"%byte (skip_ws r)) as [q|] eqn:Eq; [|done]. apply eat_ws_length in Eq.
    pose proof (skip_ws_length q). specialize (IHv d (skip_ws q)).
    destruct (lvalue n d (skip_ws q)) as [v r1| |]; [|done..]. simpl in IHv.
    destruct (eat ","%byte (skip_ws r1)) as [r'|] eqn:E1.
    + apply eat_ws_length in E1. pose proof (skip_ws_length r').
      match goal with |- shorter s (lmembers n d ?a ?b) => specialize (IHm d a b) end.
      destruct (lmembers _ _ _ _); simpl in *; lia.
    + destruct (eat "}"%byte (skip_ws r1)) as [r'|] eqn:E2; [|done]. apply eat_ws_length in E2. simpl in *. lia.
Qed.

Lemma lvalue_length n d s v r : lvalue n d s = LOk v r → (length r < length s)%nat.
Proof. intros H. pose proof (proj1 (lparser_shorter n) d s) as Hs. by rewrite H in Hs. Qed.

Lemma lfuel_enough n :
  (∀ d s, (2 * length s + 1 <= n)%nat → lvalue n d s ≠ LFuel) ∧
  (∀ d acc s, (2 * length s + 2 <= n)%nat → lelems n d acc s ≠ LFuel) ∧
  (∀ d acc s, (2 * length s + 2 <= n)%nat → lmembers n d acc s ≠ LFuel).
Proof.
  induction n as [|n (IHv & IHe & IHm)]; [repeat split; intros; lia|]. split; [|split].
  - intros d [|c t] Hn; [done|]. cbn [lvalue]. simpl in Hn. pose proof (skip_ws_length t).
    destruct (beq c "{"%byte); [|destruct (beq c "["%byte)].
    1,2: destruct (maxNestingDepth <=? d); [done|]; case_match; [done|]; (apply IHm || apply IHe); lia.
    unfold lof_opt, lliteral. by repeat case_match.
  - intros d acc s Hn. cbn [lelems]. specialize (IHv d s ltac:(lia)).
    destruct (lvalue n d s) as [v r| |] eqn:E; [|done..]. apply lvalue_length in E.
    destruct (eat ","%byte (skip_ws r)) as [r'|] eqn:E1; [|by case_match].
    apply eat_ws_length in E1. pose proof (skip_ws_length r'). apply IHe; lia.
  - intros d acc s Hn. cbn [lmembers].
    destruct (eat x22 s) as [s'|] eqn:Es; [|done]. cbn [mbind option_bind].
    destruct (lstr s') as [[k r]|] eqn:Ek; [|done]. apply eat_length in Es. apply lstr_length in Ek.
    destruct (eat ":"%byte (skip_ws r)) as [q|] eqn:Eq; [|done]. apply eat_ws_length in Eq.
    pose proof (skip_ws_length q). specialize (IHv d (skip_ws q) ltac:(lia)).
    destruct (lvalue n d (skip_ws q)) as [v r1| |] eqn:Ev; [|done..]. apply lvalue_length in Ev.
    destruct (eat ","%byte (skip_ws r1)) as [r'|] eqn:E1; [|by case_match].
    apply eat_ws_length in E1. pose proof (skip_ws_length r'). apply IHm; lia.
Qed.

(** The lenient decoder is total: its fuel is never exhausted. *)
Lemma lparse_total data : lparse_fuel (2 * length data + 2) data ≠ LFuel.
Proof.
  unfold lparse_fuel. pose proof (skip_ws_length data).
  destruct (lfuel_enough (2 * length data + 2)) as (Hv & _ & _). specialize (Hv 0 (skip_ws data) ltac:(lia)).
  by repeat case_match.
Qed.

(** ** Boundaries *)

(** Invalid octets, unpaired surrogates and repeated names are read. *)
Example lenient_examples :
  lparse (#"{" ++ [x22; xff; x22] ++ #":1}") = Some (LObj [(replacement, #"1", LNum #"1")]) ∧
  lparse #'"'\ud800x'" = Some (LStr (replacement ++ #"x")) ∧
  lparse #'"{'a':1,'a':[ ]}" = Some (LObj [(#"a", #"1", LNum #"1"); (#"a", #"[ ]", LArr [])]).
Proof. by vm_compute. Qed.
