(* ===== verification/KeyParse.v ===== *)
(** * KeyParse: internal/keyparse and internal/bytes, keys from encoded files

    The OpenSSH reader is written out, with its latching buffer; the DER parsers
    of crypto/x509 are parameters ([X509]) behind the wrappers of the package.
    The theorems give the blobs the reader accepts as the fields they are made
    of. *)

From S2P Require Import Prelude Errors GoLib Alg Key.

(** ** internal/bytes *)

Definition LeftPad (b : bytes) (size : Z) : bytes :=
  if size <=? len b then b else replicate (Z.to_nat (size - len b)) x00 ++ b.

(** ** The wire types of SSH *)

(** [sshBuf]; [true] is a latched [errSSHShort]. *)
Record sshBuf := mkBuf { buf_b : bytes; buf_err : bool }.

Definition u32 (r : sshBuf) : Z * sshBuf :=
  if buf_err r then (0, r)
  else if len (buf_b r) <? 4 then (0, mkBuf (buf_b r) true)
  else (be_val (take 4 (buf_b r)), mkBuf (drop 4 (buf_b r)) false).

Definition str (r : sshBuf) : bytes * sshBuf :=
  let '(n, r) := u32 r in
  if buf_err r then ([], r)
  else if len (buf_b r) <? n then ([], mkBuf (buf_b r) true)
  else (take (Z.to_nat n) (buf_b r), mkBuf (drop (Z.to_nat n) (buf_b r)) false).

Definition mpint (r : sshBuf) : Z * sshBuf := let '(s, r) := str r in (be_val s, r).

(** ** Keys *)

(** The implementations of [crypto.Signer] the parsers return. *)
Inductive CryptoSigner : Type :=
  | RSASigner (k : RSAPrivateKey)
  | ECDSASigner (k : ECDSAPrivateKey)
  | Ed25519Signer (k : bytes).

(** crypto/x509; [None] is a key that is not a [crypto.Signer] (an
    [*ecdh.PrivateKey]). *)
Class X509 := {
  x509_ParsePKCS8PrivateKey : bytes → res (option CryptoSigner);
  x509_ParsePKCS1PrivateKey : bytes → res RSAPrivateKey;
  x509_ParseECPrivateKey : bytes → res ECDSAPrivateKey;
  x509_PublicKey : Type;
  x509_ParsePKIXPublicKey : bytes → res x509_PublicKey }.

Section DER.
Context `{X509}.

Definition ParsePKCS8PrivateKey (der : bytes) : res CryptoSigner :=
  key ← map_err (wrap ErrMalformedKey) (x509_ParsePKCS8PrivateKey der);
  match key with Some signer => Ok signer | None => fail ErrMalformedKey end.

Definition ParsePKCS1PrivateKey (der : bytes) : res RSAPrivateKey :=
  map_err (wrap ErrMalformedKey) (x509_ParsePKCS1PrivateKey der).

Definition ParseSEC1ECPrivateKey (der : bytes) : res ECDSAPrivateKey :=
  map_err (wrap ErrMalformedKey) (x509_ParseECPrivateKey der).

Definition ParsePKIXPublicKey (der : bytes) : res x509_PublicKey :=
  map_err (wrap ErrMalformedKey) (x509_ParsePKIXPublicKey der).
End DER.

Definition ed25519_SeedSize : Z := 32.

Definition ParseEd25519PublicKey (raw : bytes) : res bytes :=
  if negb (len raw =? ed25519_PublicKeySize) then fail ErrMalformedKey else Ok raw.

Section Keys.
Context `{Crypto}.

Definition ParseEd25519PrivateKeySeed (seed : bytes) : res bytes :=
  if negb (len seed =? ed25519_SeedSize) then fail ErrMalformedKey
  else Ok (ed25519_NewKeyFromSeed seed).

Definition ParseEd25519PrivateKeyExpanded (raw : bytes) : res bytes :=
  if negb (len raw =? ed25519_PrivateKeySize) then fail ErrMalformedKey
  else if negb (bool_decide (ed25519_NewKeyFromSeed (take (Z.to_nat ed25519_SeedSize) raw) = raw))
  then fail ErrMalformedKey
  else Ok raw.

(** ** The OpenSSH format *)

Definition opensshMagic : bytes := #"openssh-key-v1" ++ [x00].

Definition errSSHShort : cause := ErrText "short buffer".

Definition sshCurve (id : bytes) : option Curve :=
  if bool_decide (id = #"nistp256") then Some P256
  else if bool_decide (id = #"nistp384") then Some P384
  else if bool_decide (id = #"nistp521") then Some P521
  else None.

(** [ecdsa.ParseRawPrivateKey]: an integer of the fixed length, in range. *)
Definition ParseRawPrivateKey (c : Curve) (data : bytes) : res ECDSAPrivateKey :=
  if negb (len data =? coord_size c) then fail (ErrText "ecdsa")
  else match scalar_point c (be_val data) with
       | Some (x, y) => Ok (mkECDSAPrivateKey (mkECDSAPublicKey (Some c) (Some x) (Some y)) (Some (be_val data)))
       | None => fail (ErrText "ecdsa")
       end.

(** [pub.Bytes()] of the key of that point: uncompressed. *)
Definition uncompressed (c : Curve) (x y : Z) : bytes :=
  x04 :: be_bytes (Z.to_nat (coord_size c)) x ++ be_bytes (Z.to_nat (coord_size c)) y.

Definition public_bytes (k : ECDSAPrivateKey) : option bytes :=
  match ecp_PublicKey k with
  | mkECDSAPublicKey (Some c) (Some x) (Some y) => Some (uncompressed c x y)
  | _ => None
  end.

Definition parse_ed25519 (p : sshBuf) : res CryptoSigner * sshBuf :=
  let '(_, p) := str p in
  let '(priv, p) := str p in
  (if buf_err p then Err [ErrMalformedKey; errSSHShort]
   else if negb (len priv =? ed25519_PrivateKeySize) then fail ErrMalformedKey
   else Ok (Ed25519Signer priv), p).

Definition parse_rsa (p : sshBuf) : res CryptoSigner * sshBuf :=
  let '(n, p) := mpint p in
  let '(e, p) := mpint p in
  let '(d, p) := mpint p in
  let '(_, p) := mpint p in
  let '(primeP, p) := mpint p in
  let '(primeQ, p) := mpint p in
  (if buf_err p then Err [ErrMalformedKey; errSSHShort]
   else
     let key := mkRSAPrivateKey (mkRSAPublicKey (Some n) (wrap64 e)) (Some d) [Some primeP; Some primeQ] in
     if rsa_Validate key then Ok (RSASigner key) else fail ErrMalformedKey, p).

Definition parse_ecdsa (p : sshBuf) : res CryptoSigner * sshBuf :=
  let '(curveID, p) := str p in
  let '(point, p) := str p in
  let '(d, p) := mpint p in
  (if buf_err p then Err [ErrMalformedKey; errSSHShort]
   else match sshCurve curveID with
        | None => fail ErrMalformedKey
        | Some curve =>
            let size := (BitSize curve + 7) / 8 in
            if negb (len point =? 1 + 2 * size) || negb (bool_decide (head point = Some x04))
            then fail ErrMalformedKey
            else
              priv ← map_err (wrap ErrMalformedKey) (ParseRawPrivateKey curve (LeftPad (big_Bytes d) size));
              if bool_decide (public_bytes priv = Some point) then Ok (ECDSASigner priv) else fail ErrMalformedKey
        end, p).

Definition parseOpenSSHKeyBody (keyType : bytes) (p : sshBuf) : res CryptoSigner * sshBuf :=
  if bool_decide (keyType = #"ssh-ed25519") then parse_ed25519 p
  else if bool_decide (keyType = #"ssh-rsa") then parse_rsa p
  else if bool_decide (keyType ∈ [ #"ecdsa-sha2-nistp256"; #"ecdsa-sha2-nistp384"; #"ecdsa-sha2-nistp521"])
  then parse_ecdsa p
  else (fail ErrMalformedKey, p).

(** The private section. *)
Definition parse_private (priv : bytes) : res CryptoSigner :=
  let p := mkBuf priv false in
  let '(check1, p) := u32 p in
  let '(check2, p) := u32 p in
  if negb (check1 =? check2) then fail ErrMalformedKey
  else
    let '(keyType, p) := str p in
    let '(r, p) := parseOpenSSHKeyBody keyType p in
    signer ← r;
    if buf_err p then Err [ErrMalformedKey; errSSHShort] else Ok signer.

Definition ParseOpenSSHPrivateKey (raw : bytes) : res CryptoSigner :=
  if negb (HasPrefix raw opensshMagic) then fail ErrMalformedKey
  else
    let r := mkBuf (drop (length opensshMagic) raw) false in
    let '(cipher, r) := str r in
    let '(kdf, r) := str r in
    let '(_, r) := str r in
    let '(count, r) := u32 r in
    let '(_, r) := str r in
    let '(priv, r) := str r in
    if buf_err r then Err [ErrMalformedKey; errSSHShort]
    else if negb (bool_decide (cipher = #"none")) || negb (bool_decide (kdf = #"none")) then fail ErrMalformedKey
    else if negb (count =? 1) then fail ErrMalformedKey
    else parse_private priv.
End Keys.

(** ** Reading what was written *)

Definition wire_u32 (z : Z) : bytes := be_bytes 4 z.
Definition wire_string (s : bytes) : bytes := wire_u32 (len s) ++ s.

(** A string whose length fits the prefix. *)
Definition short (s : bytes) : Prop := len s < 2 ^ 32.

Lemma u32_ok b v rest :
  u32 (mkBuf b false) = (v, mkBuf rest false) ↔ 0 ≤ v < 2 ^ 32 ∧ b = wire_u32 v ++ rest.
Proof.
  unfold u32. cbn [buf_err buf_b]. destruct (len b <? 4) eqn:Hl; bool_prop.
  - split; [done|]. intros [_ ->]. rewrite len_app in Hl. unfold wire_u32 in Hl.
    unfold len at 1 in Hl. rewrite length_be_bytes in Hl. pose proof (len_nonneg rest). lia.
  - assert (Ht : length (take 4 b) = 4%nat) by (rewrite length_take; unfold len in Hl; lia).
    split.
    + intros [= <- <-]. pose proof (be_val_bound (take 4 b)) as Hb. unfold len in Hb. rewrite Ht in Hb.
      split; [lia|]. rewrite <- (take_drop 4 b) at 1. f_equal. unfold wire_u32. rewrite <- Ht at 2. by rewrite be_bytes_val.
    + intros [Hv ->]. rewrite take_app_length' by (unfold wire_u32; by rewrite length_be_bytes).
      rewrite drop_app_length' by (unfold wire_u32; by rewrite length_be_bytes). unfold wire_u32.
      rewrite be_val_bytes, Z.mod_small by lia. done.
Qed.

Lemma u32_latched b : ∃ r, u32 (mkBuf b true) = (0, r) ∧ buf_err r = true.
Proof. by eexists. Qed.

Lemma u32_err r v r' : u32 r = (v, r') → buf_err r' = false → buf_err r = false.
Proof. unfold u32. destruct (buf_err r) eqn:He; [|done]. intros [= _ <-] ?; congruence. Qed.

Lemma str_err r s r' : str r = (s, r') → buf_err r' = false → buf_err r = false.
Proof.
  unfold str. destruct (u32 r) as [n r1] eqn:Hu. destruct (buf_err r1) eqn:He; [intros [= _ <-] ?; congruence|].
  intros _ _. by eapply u32_err.
Qed.

Lemma str_ok b s rest :
  str (mkBuf b false) = (s, mkBuf rest false) ↔ short s ∧ b = wire_string s ++ rest.
Proof.
  unfold str, short, wire_string. destruct (u32 (mkBuf b false)) as [n [b1 e1]] eqn:Hu. cbn [buf_err buf_b].
  split.
  - destruct e1; [done|]. apply u32_ok in Hu as [Hn ->]. destruct (len b1 <? n) eqn:Hl; [done|]. bool_prop.
    intros [= <- <-]. assert (Hlen : len (take (Z.to_nat n) b1) = n) by (unfold len in *; rewrite length_take; lia).
    rewrite Hlen. split; [lia|]. by rewrite <- app_assoc, take_drop.
  - intros [Hs ->]. rewrite <- app_assoc in Hu. pose proof (len_nonneg s).
    assert (Hok : u32 (mkBuf (wire_u32 (len s) ++ s ++ rest) false) = (len s, mkBuf (s ++ rest) false)) by (by apply u32_ok).
    rewrite Hok in Hu. injection Hu as <- <- <-. rewrite (proj2 (Z.ltb_ge _ _)) by (rewrite len_app; pose proof (len_nonneg rest); lia).
    replace (Z.to_nat (len s)) with (length s) by (unfold len; lia). by rewrite take_app_length, drop_app_length.
Qed.

(** A string that is read without an error, from any buffer. *)
Lemma str_read r s r' :
  str r = (s, r') → buf_err r' = false →
  r = mkBuf (wire_string s ++ buf_b r') false ∧ short s.
Proof.
  intros Hs He. pose proof (str_err _ _ _ Hs He) as Hr. destruct r as [b e], r' as [b' e']. cbn in *. subst.
  apply str_ok in Hs as [Hsh ->]. done.
Qed.

Lemma u32_read r v r' :
  u32 r = (v, r') → buf_err r' = false → r = mkBuf (wire_u32 v ++ buf_b r') false ∧ 0 ≤ v < 2 ^ 32.
Proof.
  intros Hs He. pose proof (u32_err _ _ _ Hs He) as Hr. destruct r as [b e], r' as [b' e']. cbn in *. subst.
  apply u32_ok in Hs as [Hv ->]. done.
Qed.

Lemma mpint_read r z r' :
  mpint r = (z, r') → buf_err r' = false →
  ∃ s, be_val s = z ∧ r = mkBuf (wire_string s ++ buf_b r') false ∧ short s.
Proof.
  unfold mpint. destruct (str r) as [s r1] eqn:Hs. intros [= <- <-] He. exists s. split; [done|].
  by eapply str_read.
Qed.

Lemma str_wire s rest : short s → str (mkBuf (wire_string s ++ rest) false) = (s, mkBuf rest false).
Proof. intros. by apply str_ok. Qed.

Lemma mpint_wire s rest : short s → mpint (mkBuf (wire_string s ++ rest) false) = (be_val s, mkBuf rest false).
Proof. intros. unfold mpint. by rewrite str_wire. Qed.

Lemma u32_wire v rest : 0 ≤ v < 2 ^ 32 → u32 (mkBuf (wire_u32 v ++ rest) false) = (v, mkBuf rest false).
Proof. intros. by apply u32_ok. Qed.

(** ** The accepted blobs *)

Section Accepted.
Context `{Crypto}.

Lemma LeftPad_val b size : be_val (LeftPad b size) = be_val b.
Proof.
  unfold LeftPad. destruct (size <=? len b); [done|].
  induction (Z.to_nat (size - len b)) as [|n IH]; [done|]. cbn [replicate app].
  change (x00 :: replicate n x00 ++ b) with ([x00] ++ (replicate n x00 ++ b)).
  rewrite be_val_app, IH. change (be_val [x00]) with 0. lia.
Qed.

Lemma LeftPad_len b size : 0 ≤ size → len (LeftPad b size) = Z.max size (len b).
Proof.
  intros Hs. unfold LeftPad. destruct (size <=? len b) eqn:E; bool_prop; [lia|].
  rewrite len_app. unfold len at 1. rewrite length_replicate. pose proof (len_nonneg b). lia.
Qed.

(** The octets of a scalar fit a coordinate exactly when its value does. *)
Lemma big_Bytes_fits d size :
  0 ≤ d → 0 ≤ size → len (big_Bytes d) ≤ size ↔ d < 256 ^ size.
Proof.
  intros Hd Hs. destruct (decide (d = 0)) as [->|Hne].
  { split; intros _; [apply Z.pow_pos_nonneg; lia|]. change (len (big_Bytes 0)) with 0. done. }
  destruct (big_Bytes_spec d ltac:(lia)) as (Hv & Hl & Hz). split.
  - intros Hle. rewrite <- Hv. pose proof (be_val_bound (big_Bytes d)) as [_ Hb].
    eapply Z.lt_le_trans; [exact Hb|]. apply Z.pow_le_mono_r; lia.
  - intros Hlt. unfold big_Bytes, len. rewrite length_be_bytes.
    pose proof (BitLen_pos d ltac:(lia)) as ([Hlo _] & Hb1).
    assert (Hbit : BitLen d - 1 < 8 * size).
    { apply (Z.pow_lt_mono_r_iff 2); [lia|lia|]. rewrite Z.pow_mul_r by lia. change (2 ^ 8) with 256. lia. }
    rewrite Z2Nat.id by div_lia. div_lia.
Qed.

Definition ecdsa_key (c : Curve) (x y d : Z) : ECDSAPrivateKey :=
  mkECDSAPrivateKey (mkECDSAPublicKey (Some c) (Some x) (Some y)) (Some d).

(** The scalar read from the file gives a key exactly when it is in range. *)
Lemma ParseRaw_padded c d k :
  0 ≤ d → 0 ≤ coord_size c →
  ParseRawPrivateKey c (LeftPad (big_Bytes d) (coord_size c)) = Ok k ↔
  ∃ x y, d < 256 ^ coord_size c ∧ scalar_point c d = Some (x, y) ∧ k = ecdsa_key c x y d.
Proof.
  intros Hd Hc. assert (Hv : be_val (big_Bytes d) = d).
  { destruct (decide (d = 0)) as [->|]; [done|]. by apply big_Bytes_spec; lia. }
  pose proof (big_Bytes_fits d _ Hd Hc) as Hfit.
  unfold ParseRawPrivateKey. rewrite LeftPad_val, Hv, LeftPad_len by done.
  destruct (_ =? _) eqn:E; bool_prop; cbn [negb].
  - destruct (scalar_point c d) as [[x y]|]; [|split; [done|intros (? & ? & _ & ? & _); done]].
    split.
    + intros [= <-]. exists x, y. split; [apply Hfit; lia|done].
    + by intros (x' & y' & _ & [= <- <-] & ->).
  - split; [done|]. intros (x & y & Hlt & _). apply Hfit in Hlt. lia.
Qed.

Definition ecdsa_types : list bytes := [ #"ecdsa-sha2-nistp256"; #"ecdsa-sha2-nistp384"; #"ecdsa-sha2-nistp521"].

(** A key type, the fields that follow it, and the key. *)
Inductive ssh_body : bytes → bytes → CryptoSigner → Prop :=
  | body_ed25519 pub k rest :
      short pub → len k = ed25519_PrivateKeySize →
      ssh_body #"ssh-ed25519" (wire_string pub ++ wire_string k ++ rest) (Ed25519Signer k)
  | body_rsa n e d iqmp p q rest key :
      Forall short [n; e; d; iqmp; p; q] →
      key = mkRSAPrivateKey (mkRSAPublicKey (Some (be_val n)) (wrap64 (be_val e))) (Some (be_val d))
              [Some (be_val p); Some (be_val q)] →
      rsa_Validate key = true →
      ssh_body #"ssh-rsa"
        (wire_string n ++ wire_string e ++ wire_string d ++ wire_string iqmp ++ wire_string p ++ wire_string q ++ rest)
        (RSASigner key)
  | body_ecdsa keyType id c x y d rest :
      keyType ∈ ecdsa_types → sshCurve id = Some c → short d →
      be_val d < 256 ^ coord_size c → scalar_point c (be_val d) = Some (x, y) →
      ssh_body keyType (wire_string id ++ wire_string (uncompressed c x y) ++ wire_string d ++ rest)
        (ECDSASigner (ecdsa_key c x y (be_val d))).

Lemma sshCurve_known id c : sshCurve id = Some c → short id ∧ 0 ≤ coord_size c ≤ 66.
Proof.
  unfold sshCurve. repeat case_bool_decide; intros [= <-]; subst; by vm_compute.
Qed.

Lemma len_uncompressed c x y : 0 ≤ coord_size c → len (uncompressed c x y) = 1 + 2 * coord_size c.
Proof.
  intros Hc. unfold uncompressed, len. cbn [length]. rewrite length_app, !length_be_bytes. lia.
Qed.

Lemma parse_ed25519_Ok body k :
  fst (parse_ed25519 (mkBuf body false)) = Ok k ↔
  ∃ pub priv rest, short pub ∧ len priv = ed25519_PrivateKeySize ∧
    body = wire_string pub ++ wire_string priv ++ rest ∧ k = Ed25519Signer priv.
Proof.
  split.
  - unfold parse_ed25519. destruct (str _) as [pub p1] eqn:H1. destruct (str p1) as [priv p2] eqn:H2. cbn [fst].
    destruct (buf_err p2) eqn:He; [done|]. destruct (_ =? _) eqn:Hl; [|done]. bool_prop. intros [= <-].
    apply str_read in H2 as [-> Hp2]; [|done]. apply str_read in H1 as [[= ->] Hp1]; [|done].
    by exists pub, priv, (buf_b p2).
  - intros (pub & priv & rest & Hp & Hl & -> & ->). unfold parse_ed25519. rewrite str_wire by done.
    rewrite str_wire by (unfold short; rewrite Hl; by vm_compute). cbn [fst buf_err]. by rewrite Hl.
Qed.

Lemma parse_rsa_Ok body k :
  fst (parse_rsa (mkBuf body false)) = Ok k ↔ ssh_body #"ssh-rsa" body k.
Proof.
  split.
  - unfold parse_rsa.
    destruct (mpint (mkBuf body false)) as [n p1] eqn:H1. destruct (mpint p1) as [e p2] eqn:H2.
    destruct (mpint p2) as [d p3] eqn:H3. destruct (mpint p3) as [q p4] eqn:H4.
    destruct (mpint p4) as [pp p5] eqn:H5. destruct (mpint p5) as [pq p6] eqn:H6. cbn [fst].
    destruct (buf_err p6) eqn:He; [done|]. cbv zeta. destruct (rsa_Validate _) eqn:Hv; [|done]. intros [= <-].
    apply mpint_read in H6 as (s6 & <- & -> & Hs6); [|done]. apply mpint_read in H5 as (s5 & <- & -> & Hs5); [|done].
    apply mpint_read in H4 as (s4 & <- & -> & Hs4); [|done]. apply mpint_read in H3 as (s3 & <- & -> & Hs3); [|done].
    apply mpint_read in H2 as (s2 & <- & -> & Hs2); [|done]. apply mpint_read in H1 as (s1 & <- & [= ->] & Hs1); [|done].
    cbn [buf_b]. apply (body_rsa s1 s2 s3 s4 s5 s6 (buf_b p6)); [by repeat constructor|done|done].
  - intros Hb. inversion Hb as [|n e d iqmp p q rest key Hs Hk Hv Hkt Hbody|? ? ? ? ? ? ? Hin]; subst.
    + rewrite !list.Forall_cons in Hs. destruct Hs as (? & ? & ? & ? & ? & ? & _).
      unfold parse_rsa. rewrite !mpint_wire by done. cbn [fst buf_err]. cbv zeta. by rewrite Hv.
    + by apply (bool_decide_eq_true_2 _) in Hin.
Qed.

Lemma uncompressed_head c x y : head (uncompressed c x y) = Some x04.
Proof. done. Qed.

Lemma parse_ecdsa_Ok keyType body k :
  keyType ∈ ecdsa_types →
  fst (parse_ecdsa (mkBuf body false)) = Ok k ↔ ssh_body keyType body k.
Proof.
  intros Hkt. split.
  - unfold parse_ecdsa. destruct (str (mkBuf body false)) as [id p1] eqn:H1. destruct (str p1) as [point p2] eqn:H2.
    destruct (mpint p2) as [d p3] eqn:H3. cbn [fst]. destruct (buf_err p3) eqn:He; [done|].
    destruct (sshCurve id) as [c|] eqn:Hc; [|done]. cbv zeta. fold (coord_size c).
    destruct (_ || _) eqn:Hp; [done|]. intros (priv & Hpriv & Hk)%bind_Ok. apply map_err_Ok in Hpriv.
    pose proof (sshCurve_known _ _ Hc) as [_ Hsz].
    apply mpint_read in H3 as (s3 & <- & -> & Hs3); [|done].
    apply str_read in H2 as [-> Hs2]; [|done]. apply str_read in H1 as [[= ->] Hs1]; [|done]. cbn [buf_b].
    pose proof (be_val_bound s3) as [Hd _].
    apply ParseRaw_padded in Hpriv as (x & y & Hlt & Hsp & ->); [|lia|lia].
    case_bool_decide as Hpt; [|done]. injection Hk as <-. cbn in Hpt. injection Hpt as <-.
    by apply body_ecdsa.
  - intros Hb. inversion Hb as [? ? ? ? ? Hk|? ? ? ? ? ? ? ? ? ? ? Hk|kt id c x y d rest _ Hc Hd Hlt Hsp]; subst.
    + by apply (bool_decide_eq_true_2 _) in Hkt.
    + by apply (bool_decide_eq_true_2 _) in Hkt.
    + pose proof (sshCurve_known _ _ Hc) as [Hid Hsz]. pose proof (be_val_bound d) as [Hd0 _].
      assert (Hlen : len (uncompressed c x y) = 1 + 2 * coord_size c) by (apply len_uncompressed; lia).
      unfold parse_ecdsa. rewrite str_wire by done. rewrite str_wire by (unfold short; lia).
      rewrite mpint_wire by done. cbn [fst buf_err]. rewrite Hc. cbv zeta. fold (coord_size c).
      rewrite Hlen, Z.eqb_refl, uncompressed_head, bool_decide_eq_true_2 by done. cbn [negb orb].
      assert (Hraw : ParseRawPrivateKey c (LeftPad (big_Bytes (be_val d)) (coord_size c)) = Ok (ecdsa_key c x y (be_val d))).
      { apply ParseRaw_padded; [lia|lia|]. by exists x, y. }
      rewrite Hraw. cbn [map_err mbind result_bind]. by rewrite bool_decide_eq_true_2.
Qed.

Lemma ecdsa_types_short : Forall short ecdsa_types.
Proof. unfold ecdsa_types. repeat constructor. Qed.

Lemma ssh_body_type keyType body k : ssh_body keyType body k → short keyType.
Proof. destruct 1 as [| |keyType ? ? ? ? ? ? Hin]; [done|done|]. exact (Forall_elem _ _ _ ecdsa_types_short Hin). Qed.

Lemma parseBody_Ok keyType body k :
  fst (parseOpenSSHKeyBody keyType (mkBuf body false)) = Ok k ↔ ssh_body keyType body k.
Proof.
  unfold parseOpenSSHKeyBody. case_bool_decide as H1; [|case_bool_decide as H2; [|case_bool_decide as H3]].
  - subst. rewrite parse_ed25519_Ok. split.
    + intros (pub & priv & rest & ? & ? & -> & ->). by apply body_ed25519.
    + inversion 1 as [pub priv rest ? ?|? ? ? ? ? ? ? ? ? ? ? Hk|? ? ? ? ? ? ? Hin]; subst; [by exists pub, priv, rest|].
      by apply (bool_decide_eq_true_2 _) in Hin.
  - subst. apply parse_rsa_Ok.
  - by apply parse_ecdsa_Ok.
  - split; [done|]. intros Hb. by destruct Hb.
Qed.

(** An Ok result leaves no error latched. *)
Lemma parseBody_latched keyType p k :
  fst (parseOpenSSHKeyBody keyType p) = Ok k → buf_err (snd (parseOpenSSHKeyBody keyType p)) = false.
Proof.
  unfold parseOpenSSHKeyBody. repeat case_bool_decide; [| | |done]; clear.
  - unfold parse_ed25519. destruct (str p) as [? p1]. destruct (str p1) as [? p2]. cbn [fst snd]. by destruct (buf_err p2).
  - unfold parse_rsa. destruct (mpint p) as [? p1]. destruct (mpint p1) as [? p2]. destruct (mpint p2) as [? p3].
    destruct (mpint p3) as [? p4]. destruct (mpint p4) as [? p5]. destruct (mpint p5) as [? p6].
    cbn [fst snd]. by destruct (buf_err p6).
  - unfold parse_ecdsa. destruct (str p) as [? p1]. destruct (str p1) as [? p2]. destruct (mpint p2) as [? p3].
    cbn [fst snd]. by destruct (buf_err p3).
Qed.

(** The private section: a check integer twice, a key type and its fields. *)
Lemma parse_private_Ok priv k :
  parse_private priv = Ok k ↔
  ∃ check keyType body, 0 ≤ check < 2 ^ 32 ∧ ssh_body keyType body k ∧
    priv = wire_u32 check ++ wire_u32 check ++ wire_string keyType ++ body.
Proof.
  unfold parse_private. cbv zeta. split.
  - destruct (u32 _) as [c1 p1] eqn:H1. destruct (u32 p1) as [c2 p2] eqn:H2.
    destruct (c1 =? c2) eqn:Hc; [|done]. bool_prop. subst c2. cbn [negb].
    destruct (str p2) as [kt p3] eqn:H3. destruct (parseOpenSSHKeyBody kt p3) as [r p4] eqn:H4.
    intros (signer & -> & Hr)%bind_Ok. destruct (buf_err p4) eqn:He; [done|]. apply Ok_inj in Hr as <-.
    assert (He3 : buf_err p3 = false).
    { destruct p3 as [b3 []]; [|done]. exfalso. revert H4. clear. unfold parseOpenSSHKeyBody.
      repeat case_bool_decide; intros [= Hr _]; discriminate. }
    apply str_read in H3 as [-> Hkt]; [|done]. apply u32_read in H2 as [-> Hc2]; [|done].
    apply u32_read in H1 as [[= ->] Hc1]; [|done]. exists c1, kt, (buf_b p3). split; [done|]. split; [|done].
    apply parseBody_Ok. destruct p3 as [b3 e3]. cbn in *. subst e3. by rewrite H4.
  - intros (check & kt & body & Hc & Hb & ->). rewrite !u32_wire by done. rewrite Z.eqb_refl. cbn [negb].
    rewrite str_wire by (by eapply ssh_body_type). apply parseBody_Ok in Hb.
    pose proof (parseBody_latched _ _ _ Hb) as Hl. destruct (parseOpenSSHKeyBody kt _) as [r p4]. cbn in Hb, Hl. subst r.
    cbn [mbind result_bind]. by rewrite Hl.
Qed.

(** The blob around it; the octets after the private section are ignored. *)
Definition openssh_blob (kdfOptions pub priv rest : bytes) : bytes :=
  opensshMagic ++ wire_string #"none" ++ wire_string #"none" ++ wire_string kdfOptions ++
  wire_u32 1 ++ wire_string pub ++ wire_string priv ++ rest.

Lemma ParseOpenSSH_Ok raw k :
  ParseOpenSSHPrivateKey raw = Ok k ↔
  ∃ kdfOptions pub check keyType body rest,
    let priv := wire_u32 check ++ wire_u32 check ++ wire_string keyType ++ body in
    short kdfOptions ∧ short pub ∧ short priv ∧ 0 ≤ check < 2 ^ 32 ∧
    ssh_body keyType body k ∧ raw = openssh_blob kdfOptions pub priv rest.
Proof.
  unfold ParseOpenSSHPrivateKey. cbv zeta. split.
  - destruct (HasPrefix raw opensshMagic) eqn:Hm; [|done]. cbn [negb]. unfold HasPrefix in Hm. bool_prop.
    destruct (str _) as [cipher r1] eqn:H1. destruct (str r1) as [kdf r2] eqn:H2. destruct (str r2) as [opts r3] eqn:H3.
    destruct (u32 r3) as [count r4] eqn:H4. destruct (str r4) as [pub r5] eqn:H5. destruct (str r5) as [priv r6] eqn:H6.
    destruct (buf_err r6) eqn:He; [done|]. destruct (_ || _) eqn:Hn; [done|].
    destruct (count =? 1) eqn:Hc; [|done]. bool_prop. subst cipher kdf count. cbn [negb].
    intros (check & kt & body & Hck & Hb & Hp)%parse_private_Ok.
    apply str_read in H6 as [-> Hs6]; [|done]. apply str_read in H5 as [-> Hs5]; [|done].
    apply u32_read in H4 as [-> _]; [|done]. apply str_read in H3 as [-> Hs3]; [|done].
    apply str_read in H2 as [-> _]; [|done]. apply str_read in H1 as [[= Hd] _]; [|done].
    exists opts, pub, check, kt, body, (buf_b r6). rewrite <- Hp. do 5 (split; [done|]).
    rewrite <- (take_drop (length opensshMagic) raw), Hm. unfold openssh_blob. f_equal. exact Hd.
  - intros (opts & pub & check & kt & body & rest & Ho & Hpub & Hpriv & Hck & Hb & ->). unfold openssh_blob.
    replace (HasPrefix _ opensshMagic) with true.
    2: { unfold HasPrefix. by rewrite take_app_length, bool_decide_eq_true_2. }
    cbn [negb]. rewrite drop_app_length. rewrite !(str_wire #"none") by by vm_compute.
    rewrite (str_wire opts), u32_wire, (str_wire pub), str_wire by done. cbn [buf_err].
    rewrite bool_decide_eq_true_2 by done. cbn [negb orb]. rewrite Z.eqb_refl. cbn [negb].
    apply parse_private_Ok. by exists check, kt, body.
Qed.

Lemma parseBody_err keyType p e :
  fst (parseOpenSSHKeyBody keyType p) = Err e → errors_Is e ErrMalformedKey = true.
Proof.
  unfold parseOpenSSHKeyBody. repeat case_bool_decide; [| | |by intros [= <-]]; clear.
  - unfold parse_ed25519. destruct (str p) as [? p1]. destruct (str p1) as [? p2]. cbn [fst].
    repeat case_match; intros [= <-]; done.
  - unfold parse_rsa. destruct (mpint p) as [? p1]. destruct (mpint p1) as [? p2]. destruct (mpint p2) as [? p3].
    destruct (mpint p3) as [? p4]. destruct (mpint p4) as [? p5]. destruct (mpint p5) as [? p6].
    cbn [fst]. cbv zeta. destruct (buf_err p6); [by intros [= <-]|]. destruct (rsa_Validate _); by intros [= <-].
  - unfold parse_ecdsa. destruct (str p) as [? p1]. destruct (str p1) as [? p2]. destruct (mpint p2) as [? p3].
    cbn [fst]. destruct (buf_err p3); [by intros [= <-]|]. destruct (sshCurve _); [|by intros [= <-]]. cbv zeta.
    destruct (_ || _); [by intros [= <-]|]. intros [He|(? & _ & He)]%bind_Err.
    + destruct (ParseRawPrivateKey _ _); [done|]. injection He as <-. apply errors_Is_wrap.
    + destruct (bool_decide _); [done|]. by injection He as <-.
Qed.

Lemma ParseOpenSSH_err raw e : ParseOpenSSHPrivateKey raw = Err e → errors_Is e ErrMalformedKey = true.
Proof.
  unfold ParseOpenSSHPrivateKey. destruct (negb _); [by intros [= <-]|]. cbv zeta.
  destruct (str _) as [cipher r1]. destruct (str r1) as [kdf r2]. destruct (str r2) as [opts r3].
  destruct (u32 r3) as [count r4]. destruct (str r4) as [pub r5]. destruct (str r5) as [priv r6].
  destruct (buf_err r6); [by intros [= <-]|]. destruct (_ || _); [by intros [= <-]|].
  destruct (negb _); [by intros [= <-]|]. unfold parse_private. cbv zeta.
  destruct (u32 _) as [c1 p1]. destruct (u32 p1) as [c2 p2]. destruct (negb _); [by intros [= <-]|].
  destruct (str p2) as [kt p3]. destruct (parseOpenSSHKeyBody kt p3) as [r p4] eqn:Hb.
  intros [Hr|(? & _ & Hr)]%bind_Err.
  - apply (parseBody_err kt p3). by rewrite Hb.
  - destruct (buf_err p4); [|done]. by injection Hr as <-.
Qed.

(** C25: the reader accepts exactly the unencrypted blobs of one key: the magic,
    the header fields, equal check integers, and the fields of one of the key
    types, every length in its buffer; and the key is the one those fields hold.
    What is demanded of the fields is what [ssh_body] says and no more: of an
    ECDSA key, a scalar in range and the very point of that scalar; of an RSA key,
    that package rsa validates it (its "iqmp" is skipped); of an Ed25519 key, 64
    octets, whose halves need not agree with each other or with the public key.
    So it reads back every blob that is written.  Every failure is an
    [ErrMalformedKey]. *)
Theorem ParseOpenSSH_spec raw k :
  (ParseOpenSSHPrivateKey raw = Ok k ↔
  ∃ kdfOptions pub check keyType body rest,
    let priv := wire_u32 check ++ wire_u32 check ++ wire_string keyType ++ body in
    short kdfOptions ∧ short pub ∧ short priv ∧ 0 ≤ check < 2 ^ 32 ∧
    ssh_body keyType body k ∧ raw = openssh_blob kdfOptions pub priv rest) ∧
  (∀ e, ParseOpenSSHPrivateKey raw = Err e → errors_Is e ErrMalformedKey = true).
Proof. split; [apply ParseOpenSSH_Ok|apply ParseOpenSSH_err]. Qed.

(** The Ed25519 fields are taken as they are: unlike in an expanded key, the two
    halves need not agree. *)
Lemma openssh_ed25519_any_halves k :
  len k = ed25519_PrivateKeySize →
  ParseOpenSSHPrivateKey (openssh_blob [] []
    (wire_u32 0 ++ wire_u32 0 ++ wire_string #"ssh-ed25519" ++ wire_string [] ++ wire_string k ++ []) []) =
    Ok (Ed25519Signer k).
Proof.
  intros Hk. apply ParseOpenSSH_Ok. exists [], [], 0, #"ssh-ed25519", (wire_string [] ++ wire_string k ++ []), [].
  split; [done|]. split; [done|]. split.
  { unfold short, wire_string, wire_u32, len. rewrite !length_app, !length_be_bytes. unfold len, ed25519_PrivateKeySize in Hk.
    cbn [length]. change (length #"ssh-ed25519") with 11%nat. lia. }
  split; [lia|]. split; [by apply body_ed25519|done].
Qed.

(** An expanded key is accepted exactly when its seed gives it. *)
Lemma ParseEd25519PrivateKeyExpanded_spec raw k :
  ParseEd25519PrivateKeyExpanded raw = Ok k ↔
  k = raw ∧ len raw = ed25519_PrivateKeySize ∧ ed25519_NewKeyFromSeed (take 32 raw) = raw.
Proof.
  unfold ParseEd25519PrivateKeyExpanded. change (Z.to_nat ed25519_SeedSize) with 32%nat.
  destruct (len raw =? _) eqn:Hl; bool_prop; cbn [negb]; [|naive_solver].
  destruct (decide (ed25519_NewKeyFromSeed (take 32 raw) = raw)) as [He|He].
  - rewrite bool_decide_eq_true_2 by done. cbn [negb]. split; [by intros [= <-]|by intros (-> & _)].
  - rewrite bool_decide_eq_false_2 by done. cbn [negb]. split; [done|naive_solver].
Qed.
End Accepted.

(** ** key.go: the same functions, exported *)

Section Exported.
Context `{X509, Crypto}.

Definition key_ParsePKCS8PrivateKey (der : bytes) : res CryptoSigner := ParsePKCS8PrivateKey der.
Definition key_ParsePKCS1PrivateKey (der : bytes) : res RSAPrivateKey := ParsePKCS1PrivateKey der.
Definition key_ParseSEC1ECPrivateKey (der : bytes) : res ECDSAPrivateKey := ParseSEC1ECPrivateKey der.
Definition key_ParsePKIXPublicKey (der : bytes) : res x509_PublicKey := ParsePKIXPublicKey der.
Definition key_ParseEd25519PrivateKeySeed (seed : bytes) : res bytes := ParseEd25519PrivateKeySeed seed.
Definition key_ParseEd25519PrivateKeyExpanded (raw : bytes) : res bytes := ParseEd25519PrivateKeyExpanded raw.
Definition key_ParseEd25519PublicKey (raw : bytes) : res bytes := ParseEd25519PublicKey raw.
Definition key_ParseOpenSSHPrivateKey (raw : bytes) : res CryptoSigner := ParseOpenSSHPrivateKey raw.
End Exported.
