(* ===== verification/KeySet.v ===== *)
(** * KeySet: keyset.go and keyprovider.go

    The mutable key set behind its lock is a record of an ordered key list and
    the kid index; each method is one atomic step (it holds the mutex from its
    first line to its last).  [KeyProvider.Lookup] is a function from the kid to
    a key, nothing, or an error. *)

From S2P Require Import Prelude Errors GoLib Utf8 B64 Json StrictJson RawJson Alg Key.

Definition MaxKeySetKeys : Z := 128.
Definition MaxJWKJSONBytes : Z := Z.shiftl 64 10.
Definition MaxJWKMaterialBytes : Z := Z.shiftl 8 10.
Definition MaxKeySetJSONBytes : Z := MaxKeySetKeys * MaxJWKJSONBytes + 1024.
Definition maxJWKMaterialEncoded : Z := (MaxJWKMaterialBytes * 8 + 5) / 6.

(** ** The set and its operations *)

Record KeySet := mkKeySet {
  ks_keys : list Key;
  ks_byKID : gmap bytes nat }.

Definition empty_set : KeySet := mkKeySet [] ∅.

Definition Add (s : KeySet) (k : Key) : KeySet :=
  let append :=
    mkKeySet (ks_keys s ++ [k])
      (if bool_decide (Kid k = []) then ks_byKID s
       else <[Kid k := length (ks_keys s)]> (ks_byKID s)) in
  if bool_decide (Kid k = []) then append
  else match ks_byKID s !! Kid k with
       | Some i => mkKeySet (<[i := k]> (ks_keys s)) (ks_byKID s)
       | None => append
       end.

Definition NewKeySet (keys : list Key) : KeySet := fold_left Add keys empty_set.

(** The loop of [rebuildIndexLocked], from index [i]. *)
Fixpoint rebuildIndex (i : nat) (m : gmap bytes nat) (keys : list Key) : gmap bytes nat :=
  match keys with
  | [] => m
  | k :: keys =>
      rebuildIndex (S i) (if bool_decide (Kid k = []) then m else <[Kid k := i]> m) keys
  end.

Definition Remove (s : KeySet) (kid : bytes) : KeySet :=
  let out := filter (λ k, Kid k ≠ kid) (ks_keys s) in
  mkKeySet out (rebuildIndex 0 ∅ out).

Definition lookup (s : KeySet) (kid : bytes) : option Key :=
  if bool_decide (kid = []) then
    match ks_keys s with [k] => Some k | _ => None end
  else
    match ks_byKID s !! kid with
    | Some i => ks_keys s !! i
    | None => None
    end.

Definition Keys (s : KeySet) : list Key := ks_keys s.

(** A nil receiver is [None]. *)
Definition Clone (s : option KeySet) : KeySet :=
  match s with None => NewKeySet [] | Some s => NewKeySet (Keys s) end.

(** ** The providers *)

Abbreviation KeyProvider := (bytes → res (option Key)).

Definition KeySet_Lookup (s : KeySet) : KeyProvider := λ kid, Ok (lookup s kid).

Definition StaticKeyProvider (key : Key) : KeyProvider := λ kid,
  if negb (bool_decide (kid = [])) && negb (bool_decide (Kid key = [])) &&
     negb (bool_decide (kid = Kid key))
  then Ok None else Ok (Some key).

Definition MapKeyProvider (byKID : gmap bytes Key) : KeyProvider := λ kid,
  match map_to_list byKID with
  | [(_, k)] => if bool_decide (kid = []) then Ok (Some k) else Ok (byKID !! kid)
  | _ => Ok (byKID !! kid)
  end.

(** ** The specification: an ordered list of keys, non-empty kids unique *)

Definition spec_add (l : list Key) (k : Key) : list Key :=
  if bool_decide (Kid k = []) then l ++ [k]
  else if existsb (λ k', bool_decide (Kid k' = Kid k)) l
  then (λ k', if bool_decide (Kid k' = Kid k) then k else k') <$> l
  else l ++ [k].

Definition spec_remove (l : list Key) (kid : bytes) : list Key :=
  filter (λ k, Kid k ≠ kid) l.

Definition spec_lookup (l : list Key) (kid : bytes) : option Key :=
  if bool_decide (kid = []) then match l with [k] => Some k | _ => None end
  else find (λ k, bool_decide (Kid k = kid)) l.

(** The index is exact. *)
Definition inv (s : KeySet) : Prop :=
  ∀ kid i, ks_byKID s !! kid = Some i ↔
    kid ≠ [] ∧ ∃ k, ks_keys s !! i = Some k ∧ Kid k = kid.

(** Non-empty kids occur once. *)
Definition kids_unique (l : list Key) : Prop :=
  ∀ i j k k', l !! i = Some k → l !! j = Some k' → Kid k = Kid k' → Kid k ≠ [] → i = j.

Lemma inv_unique s : inv s → kids_unique (ks_keys s).
Proof.
  intros Hs i j k k' Hi Hj Hk Hne.
  assert (H1 : ks_byKID s !! Kid k = Some i) by (apply Hs; eauto).
  assert (H2 : ks_byKID s !! Kid k = Some j) by (apply Hs; rewrite Hk in Hne |- *; eauto).
  congruence.
Qed.

Lemma inv_None s kid :
  inv s → kid ≠ [] → ks_byKID s !! kid = None →
  ∀ i k, ks_keys s !! i = Some k → Kid k ≠ kid.
Proof. intros Hs Hne Hn i k Hi <-. assert (ks_byKID s !! Kid k = Some i) by (apply Hs; eauto). congruence. Qed.

Lemma existsb_kid l kid :
  existsb (λ k', bool_decide (Kid k' = kid)) l = true ↔ ∃ i k, l !! i = Some k ∧ Kid k = kid.
Proof.
  rewrite existsb_exists. split.
  - intros (k & Hk%list_elem_of_In & Hkid%bool_decide_eq_true).
    apply list_elem_of_lookup in Hk as [i Hi]. eauto.
  - intros (i & k & Hi & Hkid). exists k. split; [|by apply bool_decide_eq_true].
    apply list_elem_of_In. by apply list_elem_of_lookup_2 in Hi.
Qed.

(** Replacing at the indexed position is replacing by kid. *)
Lemma insert_kid l i k0 k :
  kids_unique l → l !! i = Some k0 → Kid k0 = Kid k → Kid k ≠ [] →
  <[i := k]> l = (λ k', if bool_decide (Kid k' = Kid k) then k else k') <$> l.
Proof.
  intros Hu Hi Hk Hne. apply list_eq. intros j. rewrite list_lookup_fmap.
  destruct (decide (i = j)) as [<-|Hij].
  - rewrite list_lookup_insert_eq by (by eapply lookup_lt_Some). rewrite Hi. simpl.
    by rewrite bool_decide_eq_true_2.
  - rewrite list_lookup_insert_ne by done. destruct (l !! j) as [k'|] eqn:Hj; [|done].
    simpl. case_bool_decide as Hk'; [|done].
    exfalso. apply Hij. apply (Hu i j k0 k'); congruence.
Qed.

Lemma Add_spec s k : inv s → ks_keys (Add s k) = spec_add (ks_keys s) k ∧ inv (Add s k).
Proof.
  intros Hs. pose proof (inv_unique s Hs) as Hu. unfold Add, spec_add. case_bool_decide as Hk.
  - split; [done|]. intros kid i. simpl. rewrite (Hs kid i). split.
    + intros (Hne & k' & Hi & Hkid). split; [done|]. exists k'. split; [|done]. by apply lookup_app_l_Some.
    + intros (Hne & k' & Hi & Hkid). split; [done|]. exists k'. split; [|done].
      apply lookup_app_Some in Hi as [?|[_ Hi]]; [done|].
      apply list_lookup_singleton_Some in Hi as [_ <-]. congruence.
  - destruct (ks_byKID s !! Kid k) as [i|] eqn:Hi; simpl.
    + apply Hs in Hi as (_ & k0 & Hi & Hk0).
      rewrite (proj2 (existsb_kid _ _)) by eauto.
      split; [by eapply insert_kid|]. intros kid j. simpl. rewrite (Hs kid j).
      destruct (decide (i = j)) as [<-|Hij].
      * rewrite Hi, list_lookup_insert_eq by (by eapply lookup_lt_Some). naive_solver congruence.
      * by rewrite list_lookup_insert_ne.
    + pose proof (inv_None s (Kid k) Hs Hk Hi) as Hno.
      assert (He : existsb (λ k', bool_decide (Kid k' = Kid k)) (ks_keys s) = false).
      { apply not_true_iff_false. intros (j & k' & Hj & Hk')%existsb_kid. by eapply Hno. }
      rewrite He. split; [done|]. intros kid j. simpl.
      destruct (decide (kid = Kid k)) as [->|Hne].
      * rewrite lookup_insert_eq. split.
        -- intros [= <-]. split; [done|]. exists k. split; [|done]. by rewrite list_lookup_middle.
        -- intros (_ & k' & Hj & Hk'). apply lookup_app_Some in Hj as [Hj|[Hl Hj]]; [by destruct (Hno _ _ Hj)|].
           apply list_lookup_singleton_Some in Hj as [Hj _]. f_equal. lia.
      * rewrite lookup_insert_ne by done. rewrite (Hs kid j). split.
        -- intros (? & k' & Hj & ?). split; [done|]. exists k'. split; [|done]. by apply lookup_app_l_Some.
        -- intros (? & k' & Hj & ?). split; [done|]. exists k'. split; [|done].
           apply lookup_app_Some in Hj as [?|[_ Hj]]; [done|].
           apply list_lookup_singleton_Some in Hj as [_ <-]. congruence.
Qed.

Lemma kids_unique_cons k l :
  kids_unique (k :: l) ↔ (∀ k', k' ∈ l → Kid k = Kid k' → Kid k = []) ∧ kids_unique l.
Proof.
  split.
  - intros Hu. split.
    + intros k' [i Hi]%list_elem_of_lookup Hk. destruct (decide (Kid k = [])); [done|].
      by specialize (Hu 0%nat (S i) k k' eq_refl Hi Hk n).
    + intros i j a b Hi Hj Hab Hne. specialize (Hu (S i) (S j) a b Hi Hj Hab Hne). lia.
  - intros [Hh Ht] [|i] [|j] a b Hi Hj Hab Hne; simpl in *; simplify_eq; [done|..].
    + destruct Hne. apply (Hh b); [|done]. by apply list_elem_of_lookup_2 in Hj.
    + destruct Hne. rewrite Hab. apply (Hh a); [|done]. by apply list_elem_of_lookup_2 in Hi.
    + f_equal. by eapply Ht.
Qed.

Lemma kids_unique_filter (P : Key → Prop) `{∀ k, Decision (P k)} l :
  kids_unique l → kids_unique (filter P l).
Proof.
  induction l as [|k l IH]; [done|]. rewrite kids_unique_cons. intros [Hh Ht].
  rewrite filter_cons. case_decide; [|auto]. rewrite kids_unique_cons. split; [|auto].
  intros k' [_ Hk']%list_elem_of_filter. by apply Hh.
Qed.

Lemma rebuildIndex_spec l : ∀ i m kid j,
  kids_unique l →
  rebuildIndex i m l !! kid = Some j ↔
  (kid ≠ [] ∧ ∃ n k, l !! n = Some k ∧ Kid k = kid ∧ j = (i + n)%nat) ∨
  ((kid = [] ∨ ∀ k, k ∈ l → Kid k ≠ kid) ∧ m !! kid = Some j).
Proof.
  induction l as [|k l IH]; intros i m kid j Hu; simpl.
  { split; [|by intros [(_ & n & k & Hn & _)|[_ ?]]].
    intros Hm. right. split; [|done]. right. by intros k ?%elem_of_nil. }
  apply kids_unique_cons in Hu as [Hh Hu]. rewrite IH by done. split.
  - intros [(Hne & n & k' & Hn & Hk & ->)|[Hno Hm]].
    + left. split; [done|]. exists (S n), k'. split; [done|]. split; [done|]. lia.
    + case_bool_decide as Hk.
      * right. split; [|done]. destruct Hno as [?|Hno]; [by left|].
        destruct (decide (kid = [])); [by left|]. right. intros k' [->|?]%elem_of_cons; [congruence|auto].
      * destruct (decide (Kid k = kid)) as [<-|Hne].
        -- rewrite lookup_insert_eq in Hm. injection Hm as <-. left. split; [done|].
           exists 0%nat, k. split; [done|]. split; [done|]. lia.
        -- rewrite lookup_insert_ne in Hm by done. right. split; [|done].
           destruct Hno as [?|Hno]; [by left|]. right. intros k' [->|?]%elem_of_cons; auto.
  - intros [(Hne & [|n] & k' & Hn & Hk & ->)|[Hno Hm]].
    + simpl in Hn. injection Hn as ->. subst kid. right. split.
      * right. intros k0 Hk0 Heq. by apply Hne, (Hh k0).
      * rewrite bool_decide_eq_false_2, lookup_insert_eq by done. f_equal. lia.
    + left. split; [done|]. exists n, k'. split; [done|]. split; [done|]. lia.
    + right. split.
      * destruct Hno as [?|Hno]; [by left|]. right. intros k' ?. apply Hno. by right.
      * case_bool_decide as Hk; [done|]. rewrite lookup_insert_ne; [done|].
        destruct Hno as [->|Hno]; [done|]. apply Hno. by left.
Qed.

Lemma Remove_spec s kid :
  inv s → ks_keys (Remove s kid) = spec_remove (ks_keys s) kid ∧ inv (Remove s kid).
Proof.
  intros Hs. split; [done|]. intros kid' j. unfold Remove. cbn [ks_byKID ks_keys].
  rewrite rebuildIndex_spec by (by apply kids_unique_filter, inv_unique).
  rewrite lookup_empty. naive_solver.
Qed.

Lemma find_kid l kid : ∀ i k,
  kids_unique l → l !! i = Some k → Kid k = kid → kid ≠ [] →
  find (λ k, bool_decide (Kid k = kid)) l = Some k.
Proof.
  induction l as [|k0 l IH]; intros i k Hu Hi Hk Hne; [done|].
  apply kids_unique_cons in Hu as [Hh Hu]. simpl. destruct i as [|i]; simpl in Hi.
  - injection Hi as ->. by rewrite bool_decide_eq_true_2.
  - rewrite bool_decide_eq_false_2; [by eapply IH|]. intros Hk0. apply Hne.
    rewrite <- Hk0. apply (Hh k); [by apply list_elem_of_lookup_2 in Hi|congruence].
Qed.

Lemma lookup_spec s kid : inv s → lookup s kid = spec_lookup (ks_keys s) kid.
Proof.
  intros Hs. unfold lookup, spec_lookup. case_bool_decide as Hk; [done|].
  destruct (ks_byKID s !! kid) as [i|] eqn:Hi.
  - apply Hs in Hi as (_ & k & Hi & Hkid). rewrite Hi. symmetry.
    by eapply find_kid; [apply inv_unique|..].
  - destruct (find _ _) as [k|] eqn:Hf; [|done]. apply find_some in Hf as [Hin Hkid].
    bool_prop. apply list_elem_of_In, list_elem_of_lookup in Hin as [i Hki].
    by destruct (inv_None s kid Hs Hk Hi i k Hki).
Qed.

Lemma inv_empty : inv empty_set.
Proof. intros kid i. simpl. rewrite lookup_empty. naive_solver. Qed.

(** A sequence of calls, in the order the mutex admits them. *)
Inductive set_op : Type := OpAdd (k : Key) | OpRemove (kid : bytes).

Definition apply_op (s : KeySet) (o : set_op) : KeySet :=
  match o with OpAdd k => Add s k | OpRemove kid => Remove s kid end.

Definition spec_step (l : list Key) (o : set_op) : list Key :=
  match o with OpAdd k => spec_add l k | OpRemove kid => spec_remove l kid end.

Definition after_ops (keys : list Key) (ops : list set_op) : KeySet :=
  fold_left apply_op ops (NewKeySet keys).

Lemma fold_Add_spec keys : ∀ s,
  inv s → inv (fold_left Add keys s) ∧
          ks_keys (fold_left Add keys s) = fold_left spec_add keys (ks_keys s).
Proof.
  induction keys as [|k keys IH]; intros s Hs; [done|]. simpl.
  destruct (Add_spec s k Hs) as [Hk Hi]. rewrite <- Hk. by apply IH.
Qed.

Lemma run_spec keys ops :
  inv (after_ops keys ops) ∧
  ks_keys (after_ops keys ops) = fold_left spec_step ops (fold_left spec_add keys []).
Proof.
  unfold after_ops. destruct (fold_Add_spec keys empty_set inv_empty) as [Hi Hk].
  change (fold_left spec_add keys []) with (fold_left spec_add keys (ks_keys empty_set)).
  rewrite <- Hk. unfold NewKeySet. revert Hi. generalize (fold_left Add keys empty_set).
  clear. induction ops as [|o ops IH]; intros s Hs; [done|]. simpl.
  assert (Ho : inv (apply_op s o) ∧ ks_keys (apply_op s o) = spec_step (ks_keys s) o).
  { destruct o as [k|kid]; simpl.
    - by destruct (Add_spec s k Hs).
    - by destruct (Remove_spec s kid Hs). }
  destruct Ho as [Hi <-]. by apply IH.
Qed.

(** C11: after any sequence of calls the set refines its specification: its
    keys are the specified ordered list, non-empty kids are unique in it, and
    [lookup] answers from the list (the sole key for an empty kid, never a
    guess among several). *)
Theorem keyset_refines keys ops kid :
  let l := fold_left spec_step ops (fold_left spec_add keys []) in
  Keys (after_ops keys ops) = l ∧ kids_unique l ∧ lookup (after_ops keys ops) kid = spec_lookup l kid.
Proof.
  simpl. destruct (run_spec keys ops) as [Hi Hk]. rewrite <- Hk.
  split; [done|]. split; [by apply inv_unique|by apply lookup_spec].
Qed.

(** Adding keys whose non-empty kids are unique keeps the list as it is. *)
Lemma spec_add_all keys : ∀ l,
  kids_unique (l ++ keys) → fold_left spec_add keys l = l ++ keys.
Proof.
  induction keys as [|k keys IH]; intros l Hu; simpl; [by rewrite app_nil_r|].
  assert (He : spec_add l k = l ++ [k]).
  { unfold spec_add. case_bool_decide as Hk; [done|].
    replace (existsb _ l) with false; [done|]. symmetry. apply not_true_iff_false.
    intros (j & k' & Hj & Hk')%existsb_kid. assert (Hl := lookup_lt_Some _ _ _ Hj).
    assert (j = length l); [|lia].
    apply (Hu j (length l) k' k); [by apply lookup_app_l_Some|by apply list_lookup_middle|done|congruence]. }
  rewrite He. rewrite (cons_middle k l keys), app_assoc in Hu. rewrite IH by done.
  by rewrite <- app_assoc.
Qed.

Lemma NewKeySet_keys keys : kids_unique keys → ks_keys (NewKeySet keys) = keys.
Proof.
  intros Hu. destruct (fold_Add_spec keys empty_set inv_empty) as [_ Hk].
  unfold NewKeySet. rewrite Hk. by apply spec_add_all.
Qed.

(** ** The JWK Set document *)

(** [Key.MarshalJSON] of every key, stopping at the first error. *)
Fixpoint marshal_all (keys : list Key) : res (list bytes) :=
  match keys with
  | [] => Ok []
  | k :: keys => b ← Key_MarshalJSON k; t ← marshal_all keys; Ok (b :: t)
  end.

Definition KeySet_MarshalJSON (s : KeySet) : res bytes :=
  bs ← marshal_all (Keys s);
  Ok (#'"{'keys':[" ++ Join bs #"," ++ #"]}").

Record KeySetDiagnostic := mkDiagnostic { diag_Index : Z; diag_Err : error }.

Definition understandsJWK (k : Key) : bool :=
  if bool_decide (Kty k = KeyTypeRSA) || bool_decide (Kty k = KeyTypeOct) then true
  else if bool_decide (Kty k = KeyTypeEC) then
    match curveByName (key_crv k) with Some _ => true | None => false end
  else if bool_decide (Kty k = KeyTypeOKP) then bool_decide (key_crv k = #"Ed25519")
  else false.

(** The anonymous struct of [parseBoundedJWK]; the map it ranges over is the
    list of its values (the order only picks the name in the message). *)
Definition dec_material_struct : json → res (list bytes) := dec_struct [[]; []; []; []; []] (λ m,
  n ← field m #"n" [] dec_string;
  e ← field m #"e" [] dec_string;
  x ← field m #"x" [] dec_string;
  y ← field m #"y" [] dec_string;
  k ← field m #"k" [] dec_string;
  Ok [n; e; x; y; k]).

(** The anonymous struct of [parseKeySet]: nil, or the raw elements. *)
Definition dec_keys_doc (data : bytes) (j : json) : res (option (list bytes)) :=
  dec_struct None (λ m,
    match assoc #"keys" m with
    | None | Some JNull => Ok None
    | Some (JArr _) => of_option [fuel_error] (Some <$> raw_array_member #"keys" data)
    | Some _ => fail type_error
    end) j.

Section Parse.
Context `{Crypto}.

Definition parseBoundedJWK (raw : bytes) : res Key :=
  if MaxJWKJSONBytes <? len raw then fail ErrMalformedKey
  else
    material ← map_err (wrap ErrMalformedKey) (decodeObject dec_material_struct raw);
    if existsb (λ encoded, maxJWKMaterialEncoded <? len encoded) material
    then fail ErrMalformedKey
    else ParseKey raw.

(** The loop over the members, from index [i]. *)
Fixpoint parse_members (permissive : bool) (i : Z) (s : KeySet) (diags : list KeySetDiagnostic)
    (raws : list bytes) : res (KeySet * list KeySetDiagnostic) :=
  match raws with
  | [] => Ok (s, diags)
  | raw :: raws =>
      match parseBoundedJWK raw with
      | Err err =>
          let wrapped := wrap ErrMalformedKey err in
          if negb permissive then Err wrapped
          else parse_members permissive (i + 1) s (diags ++ [mkDiagnostic i wrapped]) raws
      | Ok k =>
          if permissive && negb (understandsJWK k)
          then parse_members permissive (i + 1) s
                 (diags ++ [mkDiagnostic i [ErrUnsupportedAlgorithm]]) raws
          else parse_members permissive (i + 1) (Add s k) diags raws
      end
  end.

Definition parseKeySet (data : bytes) (permissive : bool) : res (KeySet * list KeySetDiagnostic) :=
  if MaxKeySetJSONBytes <? len data then fail ErrMalformedKey
  else
    doc ← map_err (wrap ErrMalformedKey) (decodeObject (dec_keys_doc data) data);
    match doc with
    | None => fail ErrMalformedKey
    | Some keys =>
        if MaxKeySetKeys <? len keys then fail ErrMalformedKey
        else parse_members permissive 0 (NewKeySet []) [] keys
    end.

Definition ParseKeySet (data : bytes) : res KeySet := fst <$> parseKeySet data false.
Definition ParseKeySetPermissive (data : bytes) := parseKeySet data true.

(** *** What a parsed key satisfies *)

Lemma ParseKey_Ok raw k :
  ParseKey raw = Ok k ↔ Key_UnmarshalJSON raw = Ok k ∧ Kty k ≠ [] ∧ validateRepresentation k = None.
Proof.
  unfold ParseKey. split.
  - intros (k' & Hk & Hc)%bind_Ok. apply map_err_Ok in Hk.
    case_bool_decide; [done|]. by apply check_Ok in Hc as [? [= ->]].
  - intros (-> & Hne & Hv). cbn. by rewrite bool_decide_eq_false_2, Hv.
Qed.

Lemma ParseKey_valid raw k :
  ParseKey raw = Ok k → Kty k ≠ [] ∧ validateRepresentation k = None ∧ Key_UnmarshalJSON raw = Ok k.
Proof. intros (? & ? & ?)%ParseKey_Ok. done. Qed.


End Parse.

(** ** What the parser accepts *)

(** The decoded size of the material of a key. *)
Definition material_bounded (k : Key) : Prop :=
  Forall (λ b, len b ≤ MaxJWKMaterialBytes) [key_n k; key_e k; key_x k; key_y k; key_k k].

Lemma field_Ok {A} m name (z : A) dec a :
  field m name z dec = Ok a ↔
  match assoc name m with Some j => dec j = Ok a | None => a = z end.
Proof. unfold field. destruct (assoc name m); [done|]. naive_solver. Qed.



Section Accepts.
Context `{Crypto}.








(** In strict mode too, a member of a type that is not understood is a key. *)
Example strict_keeps_unknown :
  (λ s, Kty <$> Keys s) <$> ParseKeySet #'"{'keys':[{'kty':'XYZ'}]}" = Ok [ #"XYZ"].
Proof. reflexivity. Qed.

(** In permissive mode, a member beyond the limits on its size is a diagnostic,
    whatever it holds. *)
Lemma permissive_skips_oversized raw :
  MaxJWKJSONBytes < len raw →
  parse_members true 0 (NewKeySet []) [] [raw] =
    Ok (NewKeySet [], [mkDiagnostic 0 [ErrMalformedKey; ErrMalformedKey]]).
Proof. intros Hl. cbn [parse_members]. unfold parseBoundedJWK. by rewrite (proj2 (Z.ltb_lt _ _) Hl). Qed.

Lemma parse_members_permissive raws : ∀ i s diags s' d',
  parse_members false i s diags raws = Ok (s', d') →
  ∀ t e, ∃ keys e',
    s' = fold_left Add keys s ∧
    parse_members true i t e raws = Ok (fold_left Add (filter understandsJWK keys) t, e').
Proof.
  induction raws as [|raw raws IH]; intros i s diags s' d'; cbn [parse_members].
  { intros [= <- _] t e. by exists [], e. }
  destruct (parseBoundedJWK raw) as [k|err]; [|done]. cbn [andb]. intros Hs t e.
  destruct (understandsJWK k) eqn:Hu; cbn [negb].
  - destruct (IH _ _ _ _ _ Hs (Add t k) e) as (keys & e' & -> & ->).
    exists (k :: keys), e'. split; [done|]. rewrite filter_cons, decide_True by (by apply Is_true_true_2).  done.
  - destruct (IH _ _ _ _ _ Hs t (e ++ [mkDiagnostic i [ErrUnsupportedAlgorithm]])) as (keys & e' & -> & ->).
    exists (k :: keys), e'. split; [done|]. rewrite filter_cons, decide_False by (by rewrite Hu; intros []). done.
Qed.

(** The permissive parser accepts every document the strict one
    does, and returns the same keys less those it does not understand. *)
Theorem permissive_extends_strict data s :
  ParseKeySet data = Ok s →
  ∃ keys diags, s = NewKeySet keys ∧
    ParseKeySetPermissive data = Ok (NewKeySet (filter understandsJWK keys), diags).
Proof.
  unfold ParseKeySet, ParseKeySetPermissive, parseKeySet. intros Hs.
  destruct (_ <? len data); [done|].
  destruct (map_err _ _) as [doc|]; [|done]. cbn [mbind result_bind] in *.
  destruct doc as [raws|]; [|done]. destruct (_ <? len raws); [done|].
  destruct (parse_members false 0 (NewKeySet []) [] raws) as [[s' d]|] eqn:Hp; [|done].
  injection Hs as ->. simpl.
  destruct (parse_members_permissive _ _ _ _ _ _ Hp (NewKeySet []) []) as (keys & e' & -> & ->).
  by exists keys, e'.
Qed.
End Accepts.

(** ** Serving a set and reading it back *)

Lemma dec_material_struct_members j :
  dec_material_struct (JObj (jwk_members j)) = Ok [j_n j; j_e j; j_x j; j_y j; j_k j].
Proof.
  unfold dec_material_struct, dec_struct, field, jwk_members. assoc_simpl.
  rewrite !dec_omit. reflexivity.
Qed.

Lemma enc_material_bound b :
  len b ≤ MaxJWKMaterialBytes → (maxJWKMaterialEncoded <? len (enc_material b)) = false.
Proof.
  rewrite enc_material_Encode, len_Encode. change MaxJWKMaterialBytes with 8192.
  change maxJWKMaterialEncoded with 10923. intros. apply Z.ltb_ge. div_lia.
Qed.

Lemma Key_Marshal_print k :
  Kty k ≠ KeyTypeOct → Key_MarshalJSON k = Ok (print (JObj (jwk_members (Key_jwk k)))).
Proof. intros. unfold Key_MarshalJSON. by rewrite bool_decide_eq_false_2. Qed.

Section Serve.
Context `{Crypto}.

(** A key that a published document can carry. *)
Record publishable (k : Key) : Prop := {
  pub_utf8 : key_utf8 k;
  pub_kty : Kty k ≠ KeyTypeOct ∧ Kty k ≠ [];
  pub_secret : key_k k = [];
  pub_valid : validateRepresentation k = None;
  pub_material : material_bounded k;
  pub_json : ∀ b, Key_MarshalJSON k = Ok b → len b ≤ MaxJWKJSONBytes }.

Lemma validate_canonical k : validateRepresentation k = None → checkCanonical k = None.
Proof. unfold validateRepresentation. by destruct (checkCanonical k). Qed.

Lemma parse_published k :
  publishable k → parseBoundedJWK (print (JObj (jwk_members (Key_jwk k)))) = Ok k.
Proof.
  intros [Hu [Ho Hne] Hk Hv Hm Hj]. unfold parseBoundedJWK.
  specialize (Hj _ (Key_Marshal_print k Ho)). rewrite (proj2 (Z.ltb_ge _ _)) by done.
  destruct (Key_jwk_wf k Hu) as [Hw Hd].
  rewrite decodeObject_print, dec_material_struct_members
    by (done || unfold maxNestingDepth; lia).
  cbn [map_err mbind result_bind Key_jwk j_n j_e j_x j_y j_k existsb].
  unfold material_bounded in Hm. rewrite !list.Forall_cons in Hm.
  destruct Hm as (? & ? & ? & ? & _). rewrite !enc_material_bound by done.
  change (maxJWKMaterialEncoded <? len []) with false. cbn [orb].
  unfold ParseKey. rewrite Key_Unmarshal_print by done.
  rewrite validate_canonical by done. cbn [check map_err mbind result_bind].
  assert (Hp : public_part k = k) by (destruct k; simpl in *; by subst).
  by rewrite Hp, bool_decide_eq_false_2, Hv.
Qed.

Definition key_tree (k : Key) : json := JObj (jwk_members (Key_jwk k)).

Lemma marshal_all_print keys :
  Forall publishable keys → marshal_all keys = Ok (print <$> (key_tree <$> keys)).
Proof.
  induction 1 as [|k keys Hk _ IH]; [done|]. cbn [marshal_all].
  rewrite Key_Marshal_print by apply Hk. cbn [mbind result_bind]. by rewrite IH.
Qed.

Lemma parse_members_published keys : ∀ i s,
  Forall publishable keys →
  parse_members false i s [] (print <$> (key_tree <$> keys)) = Ok (fold_left Add keys s, []).
Proof.
  induction keys as [|k keys IH]; intros i s Hk; [done|].
  apply Forall_cons_1 in Hk as [Hk Hks]. cbn [fmap list_fmap parse_members].
  unfold key_tree at 1. rewrite parse_published by done. cbn [andb]. by apply IH.
Qed.

Lemma key_trees_wf keys :
  Forall publishable keys → Forall (λ v, wf v ∧ depth v ≤ 2) (key_tree <$> keys).
Proof.
  intros Hk. apply list.Forall_fmap. eapply list.Forall_impl; [exact Hk|].
  intros k Hp. apply Key_jwk_wf, Hp.
Qed.

Lemma keys_doc_wf l :
  Forall (λ v, wf v ∧ depth v ≤ 2) l →
  wf (JObj [(#"keys", JArr l)]) ∧ depth (JObj [(#"keys", JArr l)]) ≤ maxNestingDepth.
Proof.
  intros Hl. destruct (obj_wf 3 [(#"keys", JArr l)]) as [Hw Hd]; [done| | |].
  - by apply (bool_decide_unpack _).
  - apply list.Forall_singleton. split; [split; [done|]|].
    + apply wf_arr. eapply list.Forall_impl; [exact Hl|]. by intros v [? _].
    + cbn [snd]. pose proof (depth_arr_le l (maxNestingDepth - 2) ltac:(unfold maxNestingDepth; lia)) as Hd.
      assert (depth (JArr l) + (maxNestingDepth - 2) ≤ maxNestingDepth + 1); [|lia].
      apply Hd. eapply list.Forall_impl; [exact Hl|]. intros v [? ?]. split; [done|lia].
  - split; [done|]. unfold maxNestingDepth. lia.
Qed.

Lemma parse_served keys :
  let data := print (JObj [(#"keys", JArr (key_tree <$> keys))]) in
  Forall publishable keys → len keys ≤ MaxKeySetKeys → len data ≤ MaxKeySetJSONBytes →
  ParseKeySet data = Ok (NewKeySet keys).
Proof.
  intros data Hk Hn Hl. unfold ParseKeySet, parseKeySet.
  rewrite (proj2 (Z.ltb_ge _ _)) by done.
  pose proof (key_trees_wf keys Hk) as Ht. destruct (keys_doc_wf _ Ht) as [Hw Hd].
  assert (Hraw : raw_array_member #"keys" data = Some (print <$> (key_tree <$> keys))).
  { apply raw_array_member_print; [done|]. eapply list.Forall_impl; [exact Ht|].
    intros v [? ?]. split; [done|]. unfold maxNestingDepth. lia. }
  unfold data at 2. rewrite decodeObject_print by done.
  unfold dec_keys_doc, dec_struct. rewrite assoc_cons_eq, Hraw.
  cbn [of_option fmap option_fmap map_err mbind result_bind].
  assert (Hlen : len (print <$> (key_tree <$> keys)) = len keys) by (unfold len; by rewrite !length_fmap).
  cbn. rewrite Hlen.
  rewrite (proj2 (Z.ltb_ge MaxKeySetKeys _)) by done.
  rewrite parse_members_published by done. done.
Qed.

(** The document that is served. *)
Lemma KeySet_Marshal_print keys :
  Forall publishable keys → kids_unique keys →
  KeySet_MarshalJSON (NewKeySet keys) = Ok (print (JObj [(#"keys", JArr (key_tree <$> keys))])).
Proof.
  intros Hk Hu. unfold KeySet_MarshalJSON, Keys. rewrite NewKeySet_keys, marshal_all_print by done.
  cbn [mbind result_bind]. f_equal. rewrite print_obj1.
  cbn [print]. rewrite <- !app_assoc. reflexivity.
Qed.

(** A served document reads back as the set it was made from: for
    publishable keys with distinct kids, MarshalJSON succeeds and strict
    parsing of its output, within the documented limits, gives the same keys
    in the same order. *)
Theorem keyset_json_roundtrip keys :
  Forall publishable keys → kids_unique keys → len keys ≤ MaxKeySetKeys →
  ∃ b, KeySet_MarshalJSON (NewKeySet keys) = Ok b ∧
    (len b ≤ MaxKeySetJSONBytes →
     ParseKeySet b = Ok (NewKeySet keys) ∧ Keys (NewKeySet keys) = keys).
Proof.
  intros Hk Hu Hn. exists (print (JObj [(#"keys", JArr (key_tree <$> keys))])). split.
  - by apply KeySet_Marshal_print.
  - intros Hl. split; [by apply parse_served|by apply NewKeySet_keys].
Qed.
End Serve.
