(* ===== verification/Slices.v ===== *)
(** * Slices: Go slices as views of arrays in a shared arena

    A slice is nil or an offset, a length and a capacity within an array.  The
    arena holds the arrays ever allocated and the set of those that code outside
    the package can write to.  What a slice outside that set reads never changes
    ([keeps]); [clone_slice] is the standard library's slices.Clone. *)

From S2P Require Import Prelude.

Record view := mkView { v_loc : nat; v_off : nat; v_len : nat; v_cap : nat }.

(** Nil is [None]. *)
Abbreviation slice := (option view).

Section Arena.
Context {A : Type}.

(** The elements an allocation leaves unused behind [n] of them. *)
Variable zero : A.
Variable spare : nat → nat.

Record arena := mkArena { arrays : list (list A); shared : gset nat }.

Definition empty_arena : arena := mkArena [] ∅.

Definition slice_len (s : slice) : nat := match s with Some v => v_len v | None => 0 end.
Definition slice_cap (s : slice) : nat := match s with Some v => v_cap v | None => 0 end.

Definition read (st : arena) (s : slice) : list A :=
  match s with
  | Some v => take (v_len v) (drop (v_off v) (default [] (arrays st !! v_loc v)))
  | None => []
  end.

(** A new array with [xs] in front, and the slice of it. *)
Definition new_array (st : arena) (xs : list A) : arena * slice :=
  let room := spare (length xs) in
  (mkArena (arrays st ++ [xs ++ replicate room zero]) (shared st),
   Some (mkView (length (arrays st)) 0 (length xs) (length xs + room))).

(** [append(s[:0:0], s...)]: no elements, no array. *)
Definition clone_slice (st : arena) (s : slice) : arena * slice :=
  match s with
  | None => (st, None)
  | Some v =>
      if bool_decide (v_len v = 0%nat) then (st, Some (mkView (v_loc v) (v_off v) 0 0))
      else new_array st (read st s)
  end.

(** A slice that leaves the package makes its array writable outside. *)
Definition publish (st : arena) (s : slice) : arena :=
  match s with
  | Some v => if bool_decide (v_cap v = 0%nat) then st else mkArena (arrays st) ({[v_loc v]} ∪ shared st)
  | None => st
  end.

(** What code outside the package does: it makes arrays and writes to those it
    can reach. *)
Definition make (st : arena) (xs : list A) : arena :=
  mkArena (arrays st ++ [xs]) ({[length (arrays st)]} ∪ shared st).

Definition write (st : arena) (l i : nat) (x : A) : arena :=
  if bool_decide (l ∈ shared st) then mkArena (alter (λ xs, <[i := x]> xs) l (arrays st)) (shared st) else st.

(** ** Well-formed slices *)

Definition wf (st : arena) : Prop := ∀ l, l ∈ shared st → (l < length (arrays st))%nat.

(** The view lies in its array. *)
Definition valid (st : arena) (s : slice) : Prop :=
  match s with
  | Some v => (v_len v ≤ v_cap v)%nat ∧
      (v_cap v = 0%nat ∨ ∃ xs, arrays st !! v_loc v = Some xs ∧ (v_off v + v_cap v ≤ length xs)%nat)
  | None => True
  end.

(** Nothing outside can write what it reads. *)
Definition private (st : arena) (s : slice) : Prop :=
  valid st s ∧ match s with Some v => v_len v = 0%nat ∨ v_loc v ∉ shared st | None => True end.

(** Code outside can have it. *)
Definition reachable (st : arena) (s : slice) : Prop :=
  valid st s ∧ match s with Some v => v_cap v = 0%nat ∨ v_loc v ∈ shared st | None => True end.

(** It is not in an array that was there among the first [n]. *)
Definition fresh (n : nat) (s : slice) : Prop :=
  match s with Some v => v_cap v = 0%nat ∨ (n ≤ v_loc v)%nat | None => True end.

#[export] Instance valid_dec st s : Decision (valid st s).
Proof.
  destruct s as [v|]; [|left; exact I]. unfold valid. apply and_dec; [apply _|].
  destruct (decide (v_cap v = 0%nat)) as [?|Hc]; [by left; left|].
  destruct (arrays st !! v_loc v) as [xs|] eqn:Hl.
  - destruct (decide (v_off v + v_cap v ≤ length xs)%nat); [left; right; eauto|].
    right. intros [?|(? & [= <-] & ?)]; done.
  - right. intros [?|(? & ? & ?)]; done.
Defined.

#[export] Instance reachable_dec st s : Decision (reachable st s).
Proof. unfold reachable. destruct s; apply _. Defined.

(** ** What stays *)

(** Only arrays were added. *)
Definition extends (st st' : arena) : Prop :=
  shared st' = shared st ∧ ∃ new, arrays st' = arrays st ++ new.

(** Private slices stay private and read the same. *)
Definition keeps (st st' : arena) : Prop :=
  (length (arrays st) ≤ length (arrays st'))%nat ∧
  ∀ s, private st s → private st' s ∧ read st' s = read st s.

#[export] Instance extends_preorder : PreOrder extends.
Proof.
  split.
  - intros st. split; [done|]. exists []. by rewrite app_nil_r.
  - intros a b c [Hs [n Hn]] [Hs' [n' Hn']]. split; [congruence|]. exists (n ++ n'). by rewrite Hn', Hn, app_assoc.
Qed.

#[export] Instance keeps_preorder : PreOrder keeps.
Proof.
  split.
  - by intros st.
  - intros a b c [Hl H] [Hl' H']. split; [lia|]. intros s Hs. destruct (H s Hs) as [Hb Hr].
    destruct (H' s Hb) as [Hc Hr']. split; [done|congruence].
Qed.

Lemma read_empty st s : slice_len s = 0%nat → read st s = [].
Proof. destruct s as [v|]; [|done]. cbn. by intros ->. Qed.

Lemma valid_arrays (st st' : arena) s : arrays st' = arrays st → valid st s → valid st' s.
Proof. intros Ha. unfold valid. by rewrite Ha. Qed.

Lemma extends_valid st st' s : extends st st' → valid st s → valid st' s ∧ read st' s = read st s.
Proof.
  intros [_ [new Hn]] Hv. destruct s as [v|]; [|done]. destruct Hv as [Hl [Hc|(xs & Hx & Ho)]].
  - split; [split; [done|by left]|]. rewrite !read_empty by (cbn; lia). done.
  - assert (Hx' : arrays st' !! v_loc v = Some xs) by (rewrite Hn; by apply lookup_app_l_Some).
    split; [split; [done|right; eauto]|]. cbn. by rewrite Hx, Hx'.
Qed.

Lemma extends_keeps st st' : extends st st' → keeps st st'.
Proof.
  intros He. pose proof He as [Hs [new Hn]]. split; [rewrite Hn, length_app; lia|].
  intros s [Hv Hp]. destruct (extends_valid st st' s He Hv) as [Hv' Hr]. split; [|done]. split; [done|].
  destruct s; [|done]. by rewrite Hs.
Qed.

Lemma extends_wf st st' : extends st st' → wf st → wf st'.
Proof. intros [Hs [new Hn]] Hw l Hl. rewrite Hn, length_app. rewrite Hs in Hl. apply Hw in Hl. lia. Qed.

(** What cannot be reached at a location in use is not at one. *)
Lemma private_loc st v : private st (Some v) → v_len v ≠ 0%nat → (v_loc v < length (arrays st))%nat ∧ v_loc v ∉ shared st.
Proof.
  intros [[Hl [Hc|(xs & Hx & _)]] [Hz|Hn]] Hne; try lia. split; [by eapply lookup_lt_Some|done].
Qed.

(** Changes outside the arrays of private slices are not seen. *)
Lemma keeps_outside st st' :
  (length (arrays st) ≤ length (arrays st'))%nat →
  (∀ l, (l < length (arrays st))%nat → length (default [] (arrays st' !! l)) = length (default [] (arrays st !! l))) →
  (∀ l, (l < length (arrays st))%nat → l ∉ shared st → arrays st' !! l = arrays st !! l ∧ l ∉ shared st') →
  keeps st st'.
Proof.
  intros Hlen Hsame Hout. split; [done|]. intros [v|] Hp; [|done]. pose proof Hp as [[Hl Hc] Hs].
  assert (Hv : valid st' (Some v)).
  { split; [done|]. destruct Hc as [?|(xs & Hx & Ho)]; [by left|right]. pose proof (lookup_lt_Some _ _ _ Hx) as Hlt.
    destruct (arrays st' !! v_loc v) as [ys|] eqn:Hy.
    - exists ys. split; [done|]. specialize (Hsame _ Hlt). rewrite Hy, Hx in Hsame. cbn in Hsame. lia.
    - apply lookup_ge_None in Hy. lia. }
  destruct (decide (v_len v = 0%nat)) as [Hz|Hz].
  - split; [by split; [done|left]|]. by rewrite !read_empty.
  - destruct (private_loc st v Hp Hz) as [Hlt Hn]. destruct (Hout _ Hlt Hn) as [Ha Hn'].
    split; [by split; [done|right]|]. cbn. by rewrite Ha.
Qed.

(** *** The operations *)

Lemma clone_slice_spec st s :
  wf st → valid st s →
  let '(st', s') := clone_slice st s in
  extends st st' ∧ read st' s' = read st s ∧ private st' s' ∧ fresh (length (arrays st)) s'.
Proof.
  intros Hw Hv. destruct s as [v|]; [|done]. unfold clone_slice. case_bool_decide as Hz.
  - split; [done|]. split; [by rewrite !read_empty|]. split; [split; [split; [done|by left]|by left]|by left].
  - destruct Hv as [Hl [Hc|(xs & Hx & Ho)]]; [lia|].
    assert (Hlen : length (read st (Some v)) = v_len v).
    { cbn. rewrite Hx. cbn. rewrite length_take, length_drop. lia. }
    unfold new_array. revert Hlen. generalize (read st (Some v)) as rd. intros rd Hlen.
    split; [split; [done|by eexists]|]. split; [|split].
    + cbn. rewrite list_lookup_middle by done. cbn. by rewrite drop_0, take_app_length.
    + split; [split; [cbn; lia|right]|right].
      * eexists. split; [cbn; by apply list_lookup_middle|]. cbn. rewrite length_app, length_replicate. lia.
      * cbn. intros Hin%Hw. lia.
    + right. cbn. lia.
Qed.

Lemma publish_keeps st st' s :
  keeps st st' → fresh (length (arrays st)) s → keeps st (publish st' s).
Proof.
  intros Hk Hf. destruct s as [v|]; [|done]. cbn. case_bool_decide as Hc; [done|].
  destruct Hf as [?|Hf]; [done|]. destruct Hk as [Hl Hk]. split; [done|].
  intros [w|] Hw; [|done]. destruct (Hk _ Hw) as [[Hv Hp] Hr]. split; [|done]. split; [done|].
  destruct (decide (v_len w = 0%nat)) as [?|Hz]; [by left|right].
  destruct (private_loc st w Hw Hz) as [Hlt _]. cbn. destruct Hp as [?|Hp]; [done|].
  apply not_elem_of_union. split; [|done]. rewrite not_elem_of_singleton. lia.
Qed.

Lemma publish_wf st s : wf st → valid st s → wf (publish st s).
Proof.
  intros Hw Hv. destruct s as [v|]; [|done]. cbn. case_bool_decide as Hc; [done|].
  destruct Hv as [_ [?|(xs & Hx & _)]]; [done|]. intros l [->%elem_of_singleton|Hl]%elem_of_union.
  - by eapply lookup_lt_Some.
  - by apply Hw.
Qed.

Lemma publish_arrays st s : arrays (publish st s) = arrays st.
Proof. destruct s as [v|]; [|done]. cbn. by case_bool_decide. Qed.

Lemma make_keeps st xs : keeps st (make st xs).
Proof.
  apply keeps_outside.
  - cbn. rewrite length_app. lia.
  - intros l Hl. cbn. by rewrite lookup_app_l.
  - intros l Hl Hn. cbn. rewrite lookup_app_l by done. split; [done|].
    apply not_elem_of_union. split; [|done]. rewrite not_elem_of_singleton. lia.
Qed.

Lemma make_wf st xs : wf st → wf (make st xs).
Proof.
  intros Hw l. cbn. rewrite length_app. cbn. intros [->%elem_of_singleton|Hl%Hw]%elem_of_union; lia.
Qed.

Lemma write_keeps st l i x : keeps st (write st l i x).
Proof.
  unfold write. case_bool_decide as Hin; [|done]. apply keeps_outside.
  - cbn. by rewrite length_alter.
  - intros m Hm. cbn. destruct (decide (l = m)) as [<-|Hne].
    + rewrite list_lookup_alter_eq. destruct (arrays st !! l); cbn; [by rewrite length_insert|done].
    + by rewrite list_lookup_alter_ne.
  - intros m Hm Hn. cbn. rewrite list_lookup_alter_ne; [done|]. by intros ->.
Qed.

Lemma write_wf st l i x : wf st → wf (write st l i x).
Proof. unfold write. case_bool_decide; [|done]. intros Hw m Hm. cbn. rewrite length_alter. by apply Hw. Qed.
End Arena.

Arguments arena : clear implicits.
