(* ===== verification/Sharing.v ===== *)
(** * Sharing: who can write to the material of a key

    The [Key] struct holds slices, so two copies of it share arrays.  Here keys
    are held by reference into an arena (Slices): [Key.Clone] of key.go, the
    boundary of the key set (keyset.go) and of the fixed providers
    (keyprovider.go), with a caller that writes to any array it can reach between
    its calls.  [keys_copied] shows that the providers nevertheless are the values
    of KeySet.v: keys are deep-copied at every boundary. *)

From S2P Require Import Prelude Errors Key KeySet Slices.

(** A struct [Key] and where its slices point. *)
Record KeyRef := mkKeyRef {
  kr_Kty : bytes; kr_Kid : bytes; kr_Use : bytes; kr_KeyOps : slice; kr_Alg : bytes;
  kr_n : slice; kr_e : slice; kr_crv : bytes; kr_x : slice; kr_y : slice; kr_k : slice }.

Definition zero_ref : KeyRef := mkKeyRef [] [] [] None [] None None [] None None None.

(** Arrays of octets, and arrays of strings for [KeyOps]. *)
Record memory := mkMemory { octets : arena byte; texts : arena bytes }.

Definition empty_memory : memory := mkMemory empty_arena empty_arena.

(** The key a reference stands for. *)
Definition value (m : memory) (k : KeyRef) : Key :=
  mkKey (kr_Kty k) (kr_Kid k) (kr_Use k) (read (texts m) (kr_KeyOps k)) (kr_Alg k)
    (read (octets m) (kr_n k)) (read (octets m) (kr_e k)) (kr_crv k)
    (read (octets m) (kr_x k)) (read (octets m) (kr_y k)) (read (octets m) (kr_k k)).

Arguments value : simpl never.

Definition material (k : KeyRef) : list slice := [kr_n k; kr_e k; kr_x k; kr_y k; kr_k k].

Section Sharing.

(** How much more than asked for the allocator gives: octets, strings, keys. *)
Variables (spare spare_text spare_key : nat → nat).

Definition Key_Clone (m : memory) (k : KeyRef) : memory * KeyRef :=
  let clone := clone_slice x00 spare in
  let '(t, ops) := clone_slice [] spare_text (texts m) (kr_KeyOps k) in
  let '(o, n) := clone (octets m) (kr_n k) in
  let '(o, e) := clone o (kr_e k) in
  let '(o, x) := clone o (kr_x k) in
  let '(o, y) := clone o (kr_y k) in
  let '(o, k') := clone o (kr_k k) in
  (mkMemory o t, mkKeyRef (kr_Kty k) (kr_Kid k) (kr_Use k) ops (kr_Alg k) n e (kr_crv k) x y k').

(** ** The key set behind its lock

    [s.keys] is the first [r_len] elements of an array that nothing else refers
    to. *)
Record KeySetRef := mkKeySetRef {
  r_array : list KeyRef;
  r_len : nat;
  r_byKID : gmap bytes nat }.

Definition empty_ref : KeySetRef := mkKeySetRef [] 0 ∅.

Definition held (s : KeySetRef) : list KeyRef := take (r_len s) (r_array s).

(** [append(s.keys, k)], in place when there is room. *)
Definition append_key (s : KeySetRef) (k : KeyRef) : list KeyRef :=
  if bool_decide (r_len s < length (r_array s))%nat then <[r_len s := k]> (r_array s)
  else held s ++ k :: replicate (spare_key (r_len s)) zero_ref.

Definition Add_ref (m : memory) (s : KeySetRef) (k : KeyRef) : memory * KeySetRef :=
  let '(m, clone) := Key_Clone m k in
  let kid := kr_Kid clone in
  let append :=
    mkKeySetRef (append_key s clone) (S (r_len s))
      (if bool_decide (kid = []) then r_byKID s else <[kid := r_len s]> (r_byKID s)) in
  (m,
   if bool_decide (kid = []) then append
   else match r_byKID s !! kid with
        | Some i => mkKeySetRef (<[i := clone]> (r_array s)) (r_len s) (r_byKID s)
        | None => append
        end).

(** [NewKeySet] and the loop of it. *)
Fixpoint add_all (m : memory) (s : KeySetRef) (keys : list KeyRef) : memory * KeySetRef :=
  match keys with
  | [] => (m, s)
  | k :: keys => let '(m, s) := Add_ref m s k in add_all m s keys
  end.

Definition NewKeySet_ref (m : memory) (keys : list KeyRef) : memory * KeySetRef := add_all m empty_ref keys.

(** The loop of [Remove] over the array it writes to: [todo] elements are left to
    range over from index [i], and [out] have been kept. *)
Fixpoint compact_keys (kid : bytes) (todo i out : nat) (a : list KeyRef) : list KeyRef * nat :=
  match todo with
  | O => (a, out)
  | S todo =>
      match a !! i with
      | Some k =>
          if bool_decide (kr_Kid k = kid) then compact_keys kid todo (S i) out a
          else compact_keys kid todo (S i) (S out) (<[out := k]> a)
      | None => (a, out)
      end
  end.

(** [clear(s[from:to])]. *)
Fixpoint clear_keys (from : nat) (count : nat) (a : list KeyRef) : list KeyRef :=
  match count with O => a | S count => clear_keys (S from) count (<[from := zero_ref]> a) end.

Fixpoint rebuild_ref (i : nat) (m : gmap bytes nat) (keys : list KeyRef) : gmap bytes nat :=
  match keys with
  | [] => m
  | k :: keys => rebuild_ref (S i) (if bool_decide (kr_Kid k = []) then m else <[kr_Kid k := i]> m) keys
  end.

Definition Remove_ref (s : KeySetRef) (kid : bytes) : KeySetRef :=
  let '(a, out) := compact_keys kid (r_len s) 0 0 (r_array s) in
  let a := clear_keys out (r_len s - out) a in
  mkKeySetRef a out (rebuild_ref 0 ∅ (take out a)).

Definition clone_found (m : memory) (k : option KeyRef) : memory * option KeyRef :=
  match k with
  | Some k => let '(m, k) := Key_Clone m k in (m, Some k)
  | None => (m, None)
  end.

Definition lookup_ref (m : memory) (s : KeySetRef) (kid : bytes) : memory * option KeyRef :=
  clone_found m
    (if bool_decide (kid = []) then match held s with [k] => Some k | _ => None end
     else match r_byKID s !! kid with Some i => held s !! i | None => None end).

Fixpoint clone_keys (m : memory) (keys : list KeyRef) : memory * list KeyRef :=
  match keys with
  | [] => (m, [])
  | k :: keys =>
      let '(m, k) := Key_Clone m k in
      let '(m, keys) := clone_keys m keys in
      (m, k :: keys)
  end.

Definition Keys_ref (m : memory) (s : KeySetRef) : memory * list KeyRef := clone_keys m (held s).

Definition Clone_ref (m : memory) (s : KeySetRef) : memory * KeySetRef :=
  let '(m, keys) := Keys_ref m s in NewKeySet_ref m keys.

(** ** The providers of a fixed key and of a fixed map *)

Definition StaticKeyProvider_ref (m : memory) (k : KeyRef) : memory * KeyRef := Key_Clone m k.

Definition static_lookup (m : memory) (key : KeyRef) (kid : bytes) : memory * option KeyRef :=
  if negb (bool_decide (kid = [])) && negb (bool_decide (kr_Kid key = [])) && negb (bool_decide (kid = kr_Kid key))
  then (m, None) else clone_found m (Some key).

(** The caller's map in the order it is ranged over. *)
Fixpoint MapKeyProvider_ref (m : memory) (byKID : list (bytes * KeyRef)) (acc : gmap bytes KeyRef) :
    memory * gmap bytes KeyRef :=
  match byKID with
  | [] => (m, acc)
  | (kid, key) :: byKID => let '(m, key) := Key_Clone m key in MapKeyProvider_ref m byKID (<[kid := key]> acc)
  end.

Definition map_lookup (m : memory) (byKID : gmap bytes KeyRef) (kid : bytes) : memory * option KeyRef :=
  clone_found m
    (match map_to_list byKID with
     | [(_, k)] => if bool_decide (kid = []) then Some k else byKID !! kid
     | _ => byKID !! kid
     end).

(** ** The providers of a program, and its code outside the package *)

Inductive provider : Type :=
  | PSet (s : KeySetRef)
  | PStatic (k : KeyRef)
  | PMap (byKID : gmap bytes KeyRef).

Record world := mkWorld { w_memory : memory; w_providers : list provider }.

Definition empty_world : world := mkWorld empty_memory [].

(** What the program does, with any arrays, to any provider it has made. *)
Inductive act : Type :=
  | MakeOctets (xs : bytes)
  | MakeTexts (xs : list bytes)
  | WriteOctet (array i : nat) (b : byte)
  | WriteText (array i : nat) (t : bytes)
  | CallNewKeySet (keys : list KeyRef)
  | CallStatic (key : KeyRef)
  | CallMap (byKID : list (bytes * KeyRef))
  | CallAdd (p : nat) (key : KeyRef)
  | CallRemove (p : nat) (kid : bytes)
  | CallLookup (p : nat) (kid : bytes)
  | CallKeys (p : nat)
  | CallClone (p : nat).

(** The keys the program passes are made of slices it can have. *)
Definition key_reachable (m : memory) (k : KeyRef) : Prop :=
  reachable (texts m) (kr_KeyOps k) ∧ Forall (reachable (octets m)) (material k).

#[export] Instance key_reachable_dec m k : Decision (key_reachable m k).
Proof. unfold key_reachable. apply _. Defined.

Definition passed (a : act) : list KeyRef :=
  match a with
  | CallNewKeySet keys => keys
  | CallStatic key | CallAdd _ key => [key]
  | CallMap byKID => byKID.*2
  | _ => []
  end.

(** Keys it gets are its to write. *)
Definition publish_key (m : memory) (k : KeyRef) : memory :=
  mkMemory (fold_left publish (material k) (octets m)) (publish (texts m) (kr_KeyOps k)).

Definition give (m : memory) (ks : list KeyRef) : memory := fold_left publish_key ks m.

Definition set_provider (w : world) (p : nat) (m : memory) (s : KeySetRef) : world :=
  mkWorld m (<[p := PSet s]> (w_providers w)).

Definition new_provider (w : world) (m : memory) (p : provider) : world := mkWorld m (w_providers w ++ [p]).

(** The answer of a call: the keys it returns. *)
Definition answer (w : world) (r : memory * list KeyRef) : world * list KeyRef :=
  (mkWorld (give (fst r) (snd r)) (w_providers w), snd r).

Definition found (r : memory * option KeyRef) : memory * list KeyRef := (fst r, option_list (snd r)).

(** One action; one the program cannot do changes nothing. *)
Definition perform (w : world) (a : act) : world * list KeyRef :=
  let m := w_memory w in
  if negb (bool_decide (Forall (key_reachable m) (passed a))) then (w, []) else
  match a with
  | MakeOctets xs => (mkWorld (mkMemory (make (octets m) xs) (texts m)) (w_providers w), [])
  | MakeTexts xs => (mkWorld (mkMemory (octets m) (make (texts m) xs)) (w_providers w), [])
  | WriteOctet l i b => (mkWorld (mkMemory (write (octets m) l i b) (texts m)) (w_providers w), [])
  | WriteText l i t => (mkWorld (mkMemory (octets m) (write (texts m) l i t)) (w_providers w), [])
  | CallNewKeySet keys => let '(m, s) := NewKeySet_ref m keys in (new_provider w m (PSet s), [])
  | CallStatic key => let '(m, k) := StaticKeyProvider_ref m key in (new_provider w m (PStatic k), [])
  | CallMap byKID => let '(m, ks) := MapKeyProvider_ref m byKID ∅ in (new_provider w m (PMap ks), [])
  | CallAdd p key =>
      match w_providers w !! p with
      | Some (PSet s) => let '(m, s) := Add_ref m s key in (set_provider w p m s, [])
      | _ => (w, [])
      end
  | CallRemove p kid =>
      match w_providers w !! p with
      | Some (PSet s) => (set_provider w p m (Remove_ref s kid), [])
      | _ => (w, [])
      end
  | CallLookup p kid =>
      match w_providers w !! p with
      | Some (PSet s) => answer w (found (lookup_ref m s kid))
      | Some (PStatic k) => answer w (found (static_lookup m k kid))
      | Some (PMap ks) => answer w (found (map_lookup m ks kid))
      | None => (w, [])
      end
  | CallKeys p =>
      match w_providers w !! p with Some (PSet s) => answer w (Keys_ref m s) | _ => (w, []) end
  | CallClone p =>
      match w_providers w !! p with
      | Some (PSet s) => let '(m, s) := Clone_ref m s in (new_provider w m (PSet s), [])
      | _ => (w, [])
      end
  end.

(** ** The same program over values: no memory to write to *)

Inductive vprovider : Type :=
  | VSet (s : KeySet)
  | VStatic (k : Key)
  | VMap (byKID : gmap bytes Key).

Inductive vcall : Type :=
  | VNothing
  | VNewKeySet (keys : list Key)
  | VNewStatic (key : Key)
  | VNewMap (byKID : list (bytes * Key))
  | VAdd (p : nat) (key : Key)
  | VRemove (p : nat) (kid : bytes)
  | VLookup (p : nat) (kid : bytes)
  | VKeys (p : nat)
  | VClone (p : nat).

Definition answered (r : res (option Key)) : list Key := match r with Ok (Some k) => [k] | _ => [] end.

Definition vperform (ps : list vprovider) (c : vcall) : list vprovider * list Key :=
  match c with
  | VNothing => (ps, [])
  | VNewKeySet keys => (ps ++ [VSet (NewKeySet keys)], [])
  | VNewStatic key => (ps ++ [VStatic key], [])
  | VNewMap byKID => (ps ++ [VMap (fold_left (λ acc '(kid, key), <[kid := key]> acc) byKID ∅)], [])
  | VAdd p key => match ps !! p with Some (VSet s) => (<[p := VSet (Add s key)]> ps, []) | _ => (ps, []) end
  | VRemove p kid => match ps !! p with Some (VSet s) => (<[p := VSet (Remove s kid)]> ps, []) | _ => (ps, []) end
  | VLookup p kid =>
      (ps, match ps !! p with
           | Some (VSet s) => answered (KeySet_Lookup s kid)
           | Some (VStatic k) => answered (StaticKeyProvider k kid)
           | Some (VMap ks) => answered (MapKeyProvider ks kid)
           | None => []
           end)
  | VKeys p => (ps, match ps !! p with Some (VSet s) => Keys s | _ => [] end)
  | VClone p => match ps !! p with Some (VSet s) => (ps ++ [VSet (Clone (Some s))], []) | _ => (ps, []) end
  end.

(** The call an action is, with the values its keys have when it is made. *)
Definition call_of (m : memory) (a : act) : vcall :=
  if negb (bool_decide (Forall (key_reachable m) (passed a))) then VNothing else
  match a with
  | MakeOctets _ | MakeTexts _ | WriteOctet _ _ _ | WriteText _ _ _ => VNothing
  | CallNewKeySet keys => VNewKeySet (value m <$> keys)
  | CallStatic key => VNewStatic (value m key)
  | CallMap byKID => VNewMap (prod_map id (value m) <$> byKID)
  | CallAdd p key => VAdd p (value m key)
  | CallRemove p kid => VRemove p kid
  | CallLookup p kid => VLookup p kid
  | CallKeys p => VKeys p
  | CallClone p => VClone p
  end.

(** A program: the calls it makes, and the keys they return as they are then. *)
Fixpoint run_program (w : world) (acts : list act) : world * (list vcall * list (list Key)) :=
  match acts with
  | [] => (w, ([], []))
  | a :: acts =>
      let c := call_of (w_memory w) a in
      let '(w, ks) := perform w a in
      let '(w', (cs, rs)) := run_program w acts in
      (w', (c :: cs, (value (w_memory w) <$> ks) :: rs))
  end.

Fixpoint vrun (ps : list vprovider) (cs : list vcall) : list vprovider * list (list Key) :=
  match cs with
  | [] => (ps, [])
  | c :: cs => let '(ps, ks) := vperform ps c in let '(ps, rs) := vrun ps cs in (ps, ks :: rs)
  end.

(** What the providers of a world hold. *)
Definition set_value (m : memory) (s : KeySetRef) : KeySet := mkKeySet (value m <$> held s) (r_byKID s).

Definition provider_value (m : memory) (p : provider) : vprovider :=
  match p with
  | PSet s => VSet (set_value m s)
  | PStatic k => VStatic (value m k)
  | PMap ks => VMap (value m <$> ks)
  end.

Definition holdings (w : world) : list vprovider := provider_value (w_memory w) <$> w_providers w.

(** ** What is kept *)

Record mem_wf (m : memory) : Prop := { wf_octets : wf (octets m); wf_texts : wf (texts m) }.
Record mem_extends (m m' : memory) : Prop := {
  me_octets : extends (octets m) (octets m'); me_texts : extends (texts m) (texts m') }.
Record mem_keeps (m m' : memory) : Prop := {
  mk_octets : keeps (octets m) (octets m'); mk_texts : keeps (texts m) (texts m') }.

(** All slices of a key are so. *)
Definition each (P : arena byte → slice → Prop) (Q : arena bytes → slice → Prop) (m : memory) (k : KeyRef) : Prop :=
  Q (texts m) (kr_KeyOps k) ∧ Forall (P (octets m)) (material k).

Abbreviation key_valid := (each valid valid).
Abbreviation key_private := (each private private).
Abbreviation key_fresh := (each (λ st, fresh (length (arrays st))) (λ st, fresh (length (arrays st)))).

#[export] Instance mem_extends_preorder : PreOrder mem_extends.
Proof.
  split; [by intros m|]. intros a b c [H1 H2] [H3 H4]. split; by etrans.
Qed.

#[export] Instance mem_keeps_preorder : PreOrder mem_keeps.
Proof.
  split; [by intros m|]. intros a b c [H1 H2] [H3 H4]. split; by etrans.
Qed.

Lemma mem_extends_keeps m m' : mem_extends m m' → mem_keeps m m'.
Proof. intros [? ?]. split; by apply extends_keeps. Qed.

Lemma mem_extends_wf m m' : mem_extends m m' → mem_wf m → mem_wf m'.
Proof. intros [? ?] [? ?]. split; by eapply extends_wf. Qed.

Lemma each_impl (P P' : arena byte → slice → Prop) (Q Q' : arena bytes → slice → Prop) m m' k :
  (∀ s, P (octets m) s → P' (octets m') s) → (∀ s, Q (texts m) s → Q' (texts m') s) → each P Q m k → each P' Q' m' k.
Proof. intros HP HQ [Hq Hp]. split; [by apply HQ|]. eapply list.Forall_impl; [exact Hp|done]. Qed.

Lemma key_private_valid m k : key_private m k → key_valid m k.
Proof. apply each_impl; by intros s []. Qed.

Lemma key_reachable_valid m k : key_reachable m k → key_valid m k.
Proof. apply (each_impl reachable _ reachable); by intros s []. Qed.

Lemma value_eq m m' k :
  each (λ st s, read (octets m') s = read st s) (λ st s, read (texts m') s = read st s) m k → value m' k = value m k.
Proof.
  intros [Ht Ho]. unfold value, material in *.
  repeat match goal with Hf : Forall _ (_ :: _) |- _ => apply Forall_cons_1 in Hf as [? Hf] end. congruence.
Qed.

Lemma extends_key m m' k : mem_extends m m' → key_valid m k → key_valid m' k ∧ value m' k = value m k.
Proof.
  intros [Ho Ht] Hk. split; [|apply value_eq]; revert Hk; apply each_impl; intros s Hs;
    by eapply extends_valid.
Qed.

Lemma keeps_key m m' k : mem_keeps m m' → key_private m k → key_private m' k ∧ value m' k = value m k.
Proof.
  intros [[_ Ho] [_ Ht]] Hk. split; [|apply value_eq]; revert Hk; apply each_impl; intros s Hs;
    by first [apply Ho|apply Ht].
Qed.

Lemma keeps_keys m m' ks :
  mem_keeps m m' → Forall (key_private m) ks → Forall (key_private m') ks ∧ value m' <$> ks = value m <$> ks.
Proof.
  intros Hm. induction 1 as [|k ks Hk _ [IH1 IH2]]; [done|]. destruct (keeps_key m m' k Hm Hk) as [Hp Hv].
  split; [by constructor|]. cbn. by rewrite Hv, IH2.
Qed.

Lemma extends_keys m m' ks :
  mem_extends m m' → Forall (key_valid m) ks → Forall (key_valid m') ks ∧ value m' <$> ks = value m <$> ks.
Proof.
  intros Hm. induction 1 as [|k ks Hk _ [IH1 IH2]]; [done|]. destruct (extends_key m m' k Hm Hk) as [Hp Hv].
  split; [by constructor|]. cbn. by rewrite Hv, IH2.
Qed.

Lemma fresh_earlier {A} (st st' : arena A) s :
  extends st st' → fresh (length (arrays st')) s → fresh (length (arrays st)) s.
Proof. intros [_ [new Hn]]. rewrite Hn, length_app. destruct s; [|done]. intros [?|?]; [by left|right; lia]. Qed.

Lemma key_fresh_earlier m m' k : mem_extends m m' → key_fresh m' k → key_fresh m k.
Proof. intros [Ho Ht]. apply each_impl; intros s; by apply fresh_earlier. Qed.

(** ** Cloning *)

(** A clone in a chain of them, of a slice that was valid at its start. *)
Lemma clone_next {A} (zero : A) (room : nat → nat) (st0 st : arena A) s :
  wf st0 → extends st0 st → valid st0 s →
  let '(st', s') := clone_slice zero room st s in
  extends st st' ∧ extends st0 st' ∧ read st' s' = read st0 s ∧ private st' s' ∧ fresh (length (arrays st0)) s'.
Proof.
  intros Hw He Hv. destruct (extends_valid st0 st s He Hv) as [Hv' Hr].
  pose proof (clone_slice_spec zero room st s (extends_wf _ _ He Hw) Hv') as Hc.
  destruct (clone_slice _ _ _ _) as [st' s']. destruct Hc as (H1 & H2 & H3 & H4).
  split; [done|]. split; [by etrans|]. split; [congruence|]. split; [done|by eapply fresh_earlier].
Qed.

Lemma private_later {A} (st st' : arena A) s : extends st st' → private st s → private st' s ∧ read st' s = read st s.
Proof. intros He. apply (extends_keeps _ _ He). Qed.

(** [k'] is a copy of [k] that nobody else has. *)
Definition copies (m : memory) (k : KeyRef) (m' : memory) (k' : KeyRef) : Prop :=
  mem_extends m m' ∧ value m' k' = value m k ∧ key_private m' k' ∧ key_fresh m k'.

Lemma Key_Clone_spec m k :
  mem_wf m → key_valid m k → let '(m', k') := Key_Clone m k in copies m k m' k'.
Proof.
  intros [Hwo Hwt] [Ht Ho]. unfold Key_Clone, material in *.
  repeat match goal with Hf : Forall _ (_ :: _) |- _ => apply Forall_cons_1 in Hf as [? Hf] end.
  pose proof (clone_slice_spec [] spare_text _ _ Hwt Ht) as Hc. destruct (clone_slice [] _ _ _) as [t ops].
  destruct Hc as (Et & Rt & Pt & Ft).
  assert (E0 : extends (octets m) (octets m)) by done.
  assert (Hnext : ∀ st s, extends (octets m) st → valid (octets m) s → _)
    by (intros st s; exact (clone_next x00 spare (octets m) st s Hwo)).
  do 5 match goal with
  | He : extends (octets m) ?st, Hv : valid (octets m) ?s |- context [clone_slice x00 spare ?st ?s] =>
      let Hc := fresh in pose proof (Hnext st s He Hv) as Hc; clear Hv;
      destruct (clone_slice x00 spare st s) as [? ?]; destruct Hc as (? & ? & ? & ? & ?)
  end.
  repeat match goal with
  | He : extends ?a ?b, Hp : private ?a ?o |- _ => destruct (private_later a b o He Hp); clear Hp
  end.
  split; [by split|]. split; [unfold value; cbn; congruence|].
  split; (split; [done|repeat (apply list.Forall_cons; split; [done|]); apply list.Forall_nil_2]).
Qed.

Lemma clone_keys_spec keys : ∀ m,
  mem_wf m → Forall (key_valid m) keys →
  let '(m', ks) := clone_keys m keys in
  mem_extends m m' ∧ value m' <$> ks = value m <$> keys ∧ Forall (key_private m') ks ∧ Forall (key_fresh m) ks.
Proof.
  induction keys as [|k keys IH]; intros m Hw Hv; [by split; [done|split; [done|split; constructor]]|].
  apply Forall_cons_1 in Hv as [Hk Hv]. cbn [clone_keys].
  pose proof (Key_Clone_spec m k Hw Hk) as Hc. destruct (Key_Clone m k) as [m1 k'].
  destruct Hc as (He & Hval & Hp & Hf).
  destruct (extends_keys m m1 keys He Hv) as [Hv1 Hval1]. specialize (IH m1 (mem_extends_wf _ _ He Hw) Hv1).
  destruct (clone_keys m1 keys) as [m2 ks]. destruct IH as (He2 & Hval2 & Hp2 & Hf2).
  destruct (keeps_key m1 m2 k' (mem_extends_keeps _ _ He2) Hp) as [Hp' Hval'].
  split; [by etrans|]. split; [cbn; congruence|]. split; [by constructor|]. constructor; [done|].
  eapply list.Forall_impl; [exact Hf2|]. intros k0. by apply key_fresh_earlier.
Qed.

(** ** Removing in place *)

Lemma compact_keys_spec kid todo : ∀ i out a,
  (out ≤ i)%nat → (i + todo ≤ length a)%nat →
  let '(a', out') := compact_keys kid todo i out a in
  take out' a' = take out a ++ filter (λ k, kr_Kid k ≠ kid) (take todo (drop i a)) ∧
  length a' = length a ∧ (out' ≤ out + todo)%nat.
Proof.
  induction todo as [|todo IH]; intros i out a Ho Hl; cbn [compact_keys].
  { rewrite take_0. cbn. rewrite app_nil_r. repeat split; lia. }
  destruct (lookup_lt_is_Some_2 a i ltac:(lia)) as [k Hk]. rewrite Hk.
  rewrite (drop_S a k i Hk). cbn [take]. case_bool_decide as Hkid.
  - specialize (IH (S i) out a ltac:(lia) ltac:(lia)). destruct (compact_keys _ _ _ _ _) as [a' out'].
    rewrite filter_cons_False by (by intros []). destruct IH as (-> & -> & ?). repeat split; lia.
  - specialize (IH (S i) (S out) (<[out:=k]> a) ltac:(lia) ltac:(rewrite length_insert; lia)).
    destruct (compact_keys _ _ _ _ _) as [a' out']. rewrite filter_cons_True by done.
    destruct IH as (-> & -> & ?). rewrite length_insert, drop_insert_lt by lia.
    rewrite (take_S_r _ _ k) by (apply list_lookup_insert_eq; lia).
    rewrite take_insert_ge by lia. rewrite <- app_assoc. repeat split; lia.
Qed.

Lemma clear_keys_spec count : ∀ from a n,
  (n ≤ from)%nat → take n (clear_keys from count a) = take n a ∧ length (clear_keys from count a) = length a.
Proof.
  induction count as [|count IH]; intros from a n Hn; cbn [clear_keys]; [done|].
  destruct (IH (S from) (<[from := zero_ref]> a) n ltac:(lia)) as [-> ->].
  by rewrite take_insert_ge, length_insert by lia.
Qed.

Lemma rebuild_values m keys : ∀ i acc, rebuild_ref i acc keys = rebuildIndex i acc (value m <$> keys).
Proof. induction keys as [|k keys IH]; intros i acc; cbn; [done|]. by rewrite IH. Qed.

Lemma filter_values m kid (keys : list KeyRef) :
  filter (λ k, Kid k ≠ kid) (value m <$> keys) = value m <$> filter (λ k, kr_Kid k ≠ kid) keys.
Proof. induction keys as [|k keys IH]; [done|]. cbn. unfold filter in *. cbn. rewrite IH. by repeat case_decide. Qed.

(** ** The operations of the set *)

Record set_ok (m : memory) (s : KeySetRef) : Prop := {
  so_len : (r_len s ≤ length (r_array s))%nat;
  so_private : Forall (key_private m) (held s) }.

(** The loop over the array leaves the kept keys in order, and no key behind them. *)
Lemma Remove_ref_spec m s kid :
  set_ok m s → set_ok m (Remove_ref s kid) ∧ set_value m (Remove_ref s kid) = Remove (set_value m s) kid.
Proof.
  intros [Hl Hp]. unfold Remove_ref, set_value, Remove.
  pose proof (compact_keys_spec kid (r_len s) 0 0 (r_array s) ltac:(lia) ltac:(lia)) as Hc.
  destruct (compact_keys _ _ _ _ _) as [a out]. rewrite drop_0, take_0 in Hc. destruct Hc as (Ht & Hla & Ho).
  destruct (clear_keys_spec (r_len s - out) out a out ltac:(lia)) as [Hc Hlc].
  assert (Hheld : ∀ idx, held (mkKeySetRef (clear_keys out (r_len s - out) a) out idx) =
    filter (λ k, kr_Kid k ≠ kid) (held s)) by (intros idx; unfold held; cbn; by rewrite Hc, Ht).
  split.
  - split; [cbn; rewrite Hlc; lia|]. rewrite Hheld. apply list.Forall_forall. intros k [_ Hk]%list_elem_of_filter. by eapply list.Forall_forall.
  - rewrite Hheld. cbn [ks_keys]. rewrite filter_values. f_equal. cbn [r_byKID].
    rewrite (rebuild_values m). by rewrite Hc, Ht.
Qed.

Lemma held_append s k idx :
  (r_len s ≤ length (r_array s))%nat →
  held (mkKeySetRef (append_key s k) (S (r_len s)) idx) = held s ++ [k] ∧
  (S (r_len s) ≤ length (append_key s k))%nat.
Proof.
  intros Hl. unfold held, append_key. cbn [r_len r_array]. case_bool_decide as Hb.
  - rewrite (take_S_r _ _ k) by (by apply list_lookup_insert_eq). rewrite take_insert_ge, length_insert by lia.
    split; [done|lia].
  - unfold held. assert (Ht : length (take (r_len s) (r_array s)) = r_len s) by (rewrite length_take; lia).
    rewrite (take_S_r _ _ k) by (apply list_lookup_middle; lia).
    rewrite take_app_le, length_app by lia. rewrite take_take, Nat.min_id. cbn. split; [done|lia].
Qed.

Lemma set_later m m' s : mem_keeps m m' → set_ok m s → set_ok m' s ∧ set_value m' s = set_value m s.
Proof.
  intros Hm [Hl Hp]. destruct (keeps_keys m m' _ Hm Hp) as [Hp' Hv].
  split; [by split|]. unfold set_value. by rewrite Hv.
Qed.

Lemma Add_ref_spec m s k :
  mem_wf m → key_valid m k → set_ok m s →
  let '(m', s') := Add_ref m s k in
  mem_extends m m' ∧ set_ok m' s' ∧ set_value m' s' = Add (set_value m s) (value m k).
Proof.
  intros Hw Hk Hs. unfold Add_ref. pose proof (Key_Clone_spec m k Hw Hk) as Hc.
  destruct (Key_Clone m k) as [m' c]. destruct Hc as (He & Hv & Hp & _). split; [done|].
  destruct (set_later m m' s (mem_extends_keeps _ _ He) Hs) as [[Hl Hps] <-]. rewrite <- Hv.
  assert (Happ : ∀ idx idx', idx = idx' →
    let s' := mkKeySetRef (append_key s c) (S (r_len s)) idx in
    set_ok m' s' ∧ set_value m' s' = mkKeySet (ks_keys (set_value m' s) ++ [value m' c]) idx').
  { intros idx _ <-. destruct (held_append s c idx Hl) as [Hheld Hlen]. split.
    - split; [done|]. rewrite Hheld. by apply list.Forall_app_2; [|constructor].
    - unfold set_value. by rewrite Hheld, fmap_app. }
  unfold Add. change (Kid (value m' c)) with (kr_Kid c). cbn [ks_byKID set_value].
  assert (Hidx : length (ks_keys (set_value m' s)) = r_len s).
  { cbn. rewrite length_fmap. unfold held. rewrite length_take. lia. }
  case_bool_decide as Hkid; [by apply Happ|].
  destruct (r_byKID s !! kr_Kid c) as [i|] eqn:Hi; [|apply Happ; by rewrite Hidx].
  unfold set_value, held. cbn [r_len r_array r_byKID ks_keys].
  destruct (decide (i < r_len s)%nat) as [Hlt|Hge].
  - split; [split|]; unfold held; cbn; [by rewrite length_insert|..]; rewrite take_insert_lt by done.
    + by apply list.Forall_insert.
    + by rewrite list_fmap_insert.
  - split; [split|]; unfold held; cbn; [by rewrite length_insert|..]; rewrite take_insert_ge by lia; [done|].
    f_equal. rewrite list_insert_ge; [done|]. rewrite length_fmap, length_take. lia.
Qed.

Lemma add_all_spec keys : ∀ m s,
  mem_wf m → Forall (key_valid m) keys → set_ok m s →
  let '(m', s') := add_all m s keys in
  mem_extends m m' ∧ set_ok m' s' ∧ set_value m' s' = fold_left Add (value m <$> keys) (set_value m s).
Proof.
  induction keys as [|k keys IH]; intros m s Hw Hv Hs; [done|].
  apply Forall_cons_1 in Hv as [Hk Hv]. cbn [add_all]. pose proof (Add_ref_spec m s k Hw Hk Hs) as Ha.
  destruct (Add_ref m s k) as [m1 s1]. destruct Ha as (He & Hs1 & Hval).
  destruct (extends_keys m m1 keys He Hv) as [Hv1 Hval1].
  specialize (IH m1 s1 (mem_extends_wf _ _ He Hw) Hv1 Hs1). destruct (add_all m1 s1 keys) as [m2 s2].
  destruct IH as (He2 & Hs2 & Hval2). split; [by etrans|]. split; [done|]. cbn. by rewrite Hval2, Hval1, Hval.
Qed.

Lemma empty_ref_ok m : set_ok m empty_ref.
Proof. split; [done|constructor]. Qed.

Lemma NewKeySet_ref_spec m keys :
  mem_wf m → Forall (key_valid m) keys →
  let '(m', s') := NewKeySet_ref m keys in
  mem_extends m m' ∧ set_ok m' s' ∧ set_value m' s' = NewKeySet (value m <$> keys).
Proof. intros Hw Hv. exact (add_all_spec keys m empty_ref Hw Hv (empty_ref_ok m)). Qed.

Lemma Keys_ref_spec m s :
  mem_wf m → set_ok m s →
  let '(m', ks) := Keys_ref m s in
  mem_extends m m' ∧ value m' <$> ks = Keys (set_value m s) ∧ Forall (key_private m') ks ∧ Forall (key_fresh m) ks.
Proof.
  intros Hw [_ Hp]. apply clone_keys_spec; [done|]. eapply list.Forall_impl; [exact Hp|]. apply key_private_valid.
Qed.

Lemma Clone_ref_spec m s :
  mem_wf m → set_ok m s →
  let '(m', s') := Clone_ref m s in
  mem_extends m m' ∧ set_ok m' s' ∧ set_value m' s' = Clone (Some (set_value m s)).
Proof.
  intros Hw Hs. unfold Clone_ref. pose proof (Keys_ref_spec m s Hw Hs) as Hk.
  destruct (Keys_ref m s) as [m1 ks]. destruct Hk as (He & Hv & Hp & _).
  pose proof (NewKeySet_ref_spec m1 ks (mem_extends_wf _ _ He Hw)
    ltac:(eapply list.Forall_impl; [exact Hp|apply key_private_valid])) as Hn.
  destruct (NewKeySet_ref m1 ks) as [m2 s2]. destruct Hn as (He2 & Hs2 & Hv2).
  split; [by etrans|]. split; [done|]. by rewrite Hv2, Hv.
Qed.

(** A key that is found is answered by a copy. *)
Lemma clone_found_spec m k :
  mem_wf m → (∀ k', k = Some k' → key_private m k') →
  let '(m', ks) := found (clone_found m k) in
  mem_extends m m' ∧ value m' <$> ks = option_list (value m <$> k) ∧ Forall (key_private m') ks ∧ Forall (key_fresh m) ks.
Proof.
  intros Hw Hk. destruct k as [k|]; [|by split; [|split; [|split; constructor]]]. cbn.
  pose proof (Key_Clone_spec m k Hw (key_private_valid m k (Hk k eq_refl))) as Hc.
  destruct (Key_Clone m k) as [m' k']. destruct Hc as (He & Hv & Hp & Hf). cbn.
  split; [done|]. split; [by rewrite Hv|]. split; by constructor.
Qed.

(** ** Giving keys away *)

Lemma publish_all {A} (st : arena A) ss : ∀ st',
  keeps st st' → wf st' → Forall (valid st') ss → Forall (fresh (length (arrays st))) ss →
  keeps st (fold_left publish ss st') ∧ wf (fold_left publish ss st') ∧ arrays (fold_left publish ss st') = arrays st'.
Proof.
  induction ss as [|s ss IH]; intros st' Hk Hw Hv Hf; [done|].
  apply Forall_cons_1 in Hv as [Hvs Hv]. apply Forall_cons_1 in Hf as [Hfs Hf]. cbn.
  destruct (IH (publish st' s)) as (H1 & H2 & H3).
  - by apply publish_keeps.
  - by apply publish_wf.
  - eapply list.Forall_impl; [exact Hv|]. intros s'. apply valid_arrays. by rewrite publish_arrays.
  - done.
  - split; [done|]. split; [done|]. by rewrite H3, publish_arrays.
Qed.

Definition same_arrays (m m' : memory) : Prop :=
  arrays (octets m') = arrays (octets m) ∧ arrays (texts m') = arrays (texts m).

Lemma same_arrays_key m m' k : same_arrays m m' → value m' k = value m k ∧ (key_valid m k → key_valid m' k).
Proof.
  intros [Ho Ht]. split; [unfold value, read; by rewrite Ho, Ht|].
  apply each_impl; intros s; by apply valid_arrays.
Qed.

Lemma give_spec m ks : ∀ m',
  mem_keeps m m' → mem_wf m' → Forall (key_valid m') ks → Forall (key_fresh m) ks →
  mem_keeps m (give m' ks) ∧ mem_wf (give m' ks) ∧ same_arrays m' (give m' ks).
Proof.
  induction ks as [|k ks IH]; intros m' Hk Hw Hv Hf; [done|].
  apply Forall_cons_1 in Hv as [[Hvt Hvo] Hv]. apply Forall_cons_1 in Hf as [[Hft Hfo] Hf].
  destruct Hk as [Hko Hkt], Hw as [Hwo Hwt].
  destruct (publish_all (octets m) (material k) (octets m') Hko Hwo Hvo Hfo) as (Ko & Wo & Ao).
  destruct (publish_all (texts m) [kr_KeyOps k] (texts m') Hkt Hwt ltac:(by constructor) ltac:(by constructor)) as (Kt & Wt & At).
  cbn in Kt, Wt, At. change (give m' (k :: ks)) with (give (publish_key m' k) ks).
  assert (Hsame : same_arrays m' (publish_key m' k)) by done.
  destruct (IH (publish_key m' k)) as (H1 & H2 & H3 & H4); [done|done| |done|].
  - eapply list.Forall_impl; [exact Hv|]. intros k'. by apply same_arrays_key.
  - split; [done|]. split; [done|]. split; [by rewrite H3|by rewrite H4].
Qed.

(** ** Worlds *)

Definition provider_ok (m : memory) (p : provider) : Prop :=
  match p with
  | PSet s => set_ok m s
  | PStatic k => key_private m k
  | PMap ks => map_Forall (λ _ k, key_private m k) ks
  end.

Record world_ok (w : world) : Prop := {
  wo_memory : mem_wf (w_memory w);
  wo_providers : Forall (provider_ok (w_memory w)) (w_providers w) }.

Lemma provider_later m m' p :
  mem_keeps m m' → provider_ok m p → provider_ok m' p ∧ provider_value m' p = provider_value m p.
Proof.
  intros Hm Hp. destruct p as [s|k|ks]; cbn in *.
  - destruct (set_later m m' s Hm Hp) as [H1 H2]. by rewrite H2.
  - destruct (keeps_key m m' k Hm Hp) as [H1 H2]. by rewrite H2.
  - split.
    + intros kid k Hk. exact (proj1 (keeps_key m m' k Hm (Hp kid k Hk))).
    + f_equal. apply map_fmap_ext. intros kid k Hk. exact (proj2 (keeps_key m m' k Hm (Hp kid k Hk))).
Qed.

Lemma providers_later m m' ps :
  mem_keeps m m' → Forall (provider_ok m) ps →
  Forall (provider_ok m') ps ∧ provider_value m' <$> ps = provider_value m <$> ps.
Proof.
  intros Hm. induction 1 as [|p ps Hp _ [IH1 IH2]]; [done|]. destruct (provider_later m m' p Hm Hp) as [H1 H2].
  split; [by constructor|]. cbn. by rewrite H2, IH2.
Qed.

(** Each way a world goes on. *)
Lemma world_memory w m' :
  world_ok w → mem_keeps (w_memory w) m' → mem_wf m' →
  world_ok (mkWorld m' (w_providers w)) ∧ holdings (mkWorld m' (w_providers w)) = holdings w.
Proof. intros [_ Hp] Hm Hw. destruct (providers_later _ m' _ Hm Hp) as [H1 H2]. by split; [split|]. Qed.

Lemma world_new w m' p :
  world_ok w → mem_extends (w_memory w) m' → provider_ok m' p →
  world_ok (new_provider w m' p) ∧ holdings (new_provider w m' p) = holdings w ++ [provider_value m' p].
Proof.
  intros [Hw Hps] He Hp. destruct (providers_later _ m' _ (mem_extends_keeps _ _ He) Hps) as [H1 H2]. split.
  - split; [by eapply mem_extends_wf|]. apply list.Forall_app_2; [done|by constructor].
  - unfold holdings. cbn. by rewrite fmap_app, H2.
Qed.

Lemma world_set w p m' s :
  world_ok w → mem_extends (w_memory w) m' → set_ok m' s →
  world_ok (set_provider w p m' s) ∧ holdings (set_provider w p m' s) = <[p := VSet (set_value m' s)]> (holdings w).
Proof.
  intros [Hw Hps] He Hs. destruct (providers_later _ m' _ (mem_extends_keeps _ _ He) Hps) as [H1 H2]. split.
  - split; [by eapply mem_extends_wf|]. by apply list.Forall_insert.
  - unfold holdings. cbn. by rewrite list_fmap_insert, H2.
Qed.

Lemma world_answer w r :
  world_ok w → mem_extends (w_memory w) (fst r) → Forall (key_private (fst r)) (snd r) → Forall (key_fresh (w_memory w)) (snd r) →
  let '(w', ks) := answer w r in
  world_ok w' ∧ holdings w' = holdings w ∧ value (w_memory w') <$> ks = value (fst r) <$> snd r.
Proof.
  intros Hw He Hp Hf. destruct r as [m' ks]. cbn in *. pose proof (wo_memory w Hw) as Hm.
  destruct (give_spec (w_memory w) ks m' (mem_extends_keeps _ _ He) (mem_extends_wf _ _ He Hm)) as (H1 & H2 & H3); [|done|].
  { eapply list.Forall_impl; [exact Hp|]. apply key_private_valid. }
  destruct (world_memory w _ Hw H1 H2) as [H4 H5]. split; [done|]. split; [done|].
  apply list_fmap_ext. intros i k _. by apply same_arrays_key.
Qed.

(** ** Lookups *)

(** What a lookup of a provider finds, before it is copied. *)
Definition finds (m : memory) (k : option KeyRef) (v : list Key) : Prop :=
  (∀ k', k = Some k' → key_private m k') ∧ option_list (value m <$> k) = v.

Lemma found_answer w k v :
  world_ok w → finds (w_memory w) k v →
  let '(w', ks) := answer w (found (clone_found (w_memory w) k)) in
  world_ok w' ∧ holdings w' = holdings w ∧ value (w_memory w') <$> ks = v.
Proof.
  intros Hw [Hp <-]. pose proof (clone_found_spec (w_memory w) k (wo_memory w Hw) Hp) as Hc.
  destruct (found _) as [m' ks] eqn:Hr. destruct Hc as (He & Hv & Hpk & Hf). rewrite <- Hv.
  exact (world_answer w (m', ks) Hw He Hpk Hf).
Qed.

Lemma set_finds m s kid :
  set_ok m s →
  finds m (if bool_decide (kid = []) then match held s with [k] => Some k | _ => None end
           else match r_byKID s !! kid with Some i => held s !! i | None => None end)
    (answered (KeySet_Lookup (set_value m s) kid)).
Proof.
  intros [_ Hp]. unfold KeySet_Lookup, lookup, set_value. cbn [ks_keys ks_byKID]. case_bool_decide as Hkid.
  - destruct (held s) as [|k [|k2 l]]; (split; [|done]); intros k' [= <-]. by apply Forall_cons_1 in Hp as [? _].
  - destruct (r_byKID s !! kid) as [i|]; [|by split]. rewrite list_lookup_fmap. split.
    + intros k'. by apply list.Forall_lookup_1.
    + by destruct (held s !! i).
Qed.

Lemma map_finds m ks kid :
  map_Forall (λ _ k, key_private m k) ks →
  finds m (match map_to_list ks with
           | [(_, k)] => if bool_decide (kid = []) then Some k else ks !! kid
           | _ => ks !! kid
           end)
    (answered (MapKeyProvider (value m <$> ks) kid)).
Proof.
  intros Hp. unfold MapKeyProvider. rewrite map_to_list_fmap.
  assert (Hk : finds m (ks !! kid) (answered (Ok ((value m <$> ks) !! kid)))).
  { split; [intros k'; apply Hp|]. rewrite lookup_fmap. by destruct (ks !! kid). }
  destruct (map_to_list ks) as [|[kid1 k1] [|]] eqn:Hl; [exact Hk| |exact Hk]. cbn.
  case_bool_decide; [|exact Hk]. split; [|done]. intros k' [= <-].
  apply (Hp kid1), elem_of_map_to_list. rewrite Hl. by left.
Qed.

Lemma static_finds m k kid :
  key_private m k →
  ∃ found_key, static_lookup m k kid = clone_found m found_key ∧
    finds m found_key (answered (StaticKeyProvider (value m k) kid)).
Proof.
  intros Hp. unfold static_lookup, StaticKeyProvider. change (Kid (value m k)) with (kr_Kid k).
  destruct (_ && _ && _); [exists None|exists (Some k)]; (split; [done|]); (split; [|done]); by intros k' [= <-].
Qed.

Lemma list_cons_inj {A} (x y : A) l k : x :: l = y :: k → x = y ∧ l = k.
Proof. by intros [= -> ->]. Qed.

Lemma MapKeyProvider_ref_spec byKID : ∀ m acc,
  mem_wf m → Forall (key_valid m) byKID.*2 → map_Forall (λ _ k, key_private m k) acc →
  let '(m', ks) := MapKeyProvider_ref m byKID acc in
  mem_extends m m' ∧ map_Forall (λ _ k, key_private m' k) ks ∧
  value m' <$> ks =
  fold_left (λ acc '(kid, key), <[kid := key]> acc) (prod_map id (value m) <$> byKID) (value m <$> acc).
Proof.
  induction byKID as [|[kid k] byKID IH]; intros m acc Hw Hv Ha; [done|].
  apply Forall_cons_1 in Hv as [Hk Hv]. cbn [MapKeyProvider_ref].
  pose proof (Key_Clone_spec m k Hw Hk) as Hc. destruct (Key_Clone m k) as [m1 k']. destruct Hc as (He & Hval & Hp & _).
  destruct (provider_later m m1 (PMap acc) (mem_extends_keeps _ _ He) Ha) as [Ha1 Hacc]. injection Hacc as Hacc.
  destruct (extends_keys m m1 _ He Hv) as [Hv1 Hv2].
  assert (Hins : map_Forall (λ _ k, key_private m1 k) (<[kid := k']> acc)) by (by apply map_Forall_insert_2).
  specialize (IH m1 (<[kid := k']> acc) (mem_extends_wf _ _ He Hw) Hv1 Hins).
  destruct (MapKeyProvider_ref m1 byKID _) as [m2 ks]. destruct IH as (He2 & Hks & Hval2).
  split; [by etrans|]. split; [done|]. rewrite Hval2, fmap_insert, Hacc, Hval. cbn. f_equal.
  clear -Hv2. induction byKID as [|[kid0 k0] l IH]; [done|]. rewrite !fmap_cons in *.
  apply list_cons_inj in Hv2 as [H1 H2]. rewrite (IH H2). f_equal. unfold prod_map. cbn [fst snd] in *. by rewrite H1.
Qed.

(** ** Every action *)

Lemma holdings_lookup w p : holdings w !! p = provider_value (w_memory w) <$> w_providers w !! p.
Proof. apply list_lookup_fmap. Qed.

Lemma provider_at w p q : world_ok w → w_providers w !! p = Some q → provider_ok (w_memory w) q.
Proof. intros [_ Hp]. by apply list.Forall_lookup_1. Qed.

Lemma memory_action w m' :
  world_ok w → mem_keeps (w_memory w) m' → mem_wf m' →
  world_ok (mkWorld m' (w_providers w)) ∧ holdings (mkWorld m' (w_providers w)) = holdings w ∧ ([] : list Key) = [].
Proof. intros Hw Hm Hm'. by destruct (world_memory w m' Hw Hm Hm'). Qed.

Ltac at_provider w m p :=
  rewrite ?holdings_lookup; change (w_memory w) with m; destruct (w_providers w !! p) as [[s|k|ks]|] eqn:Hq;
  cbn [fmap option_fmap option_map provider_value]; try done.

Lemma perform_spec w a :
  world_ok w →
  let '(w', ks) := perform w a in
  world_ok w' ∧
  (holdings w', value (w_memory w') <$> ks) = vperform (holdings w) (call_of (w_memory w) a).
Proof.
  intros Hw. pose proof (wo_memory w Hw) as Hm. unfold perform, call_of. set (m := w_memory w) in *.
  case_bool_decide as Hpass; cbn [negb]; [|done].
  assert (Hv : Forall (key_valid m) (passed a))
    by (eapply list.Forall_impl; [exact Hpass|apply key_reachable_valid]).
  destruct a as [xs|xs|l i b|l i t|keys|key|byKID|p key|p kid|p kid|p|p]; cbn [vperform].
  1-4: cbv beta iota; match goal with |- world_ok (mkWorld ?m' _) ∧ _ =>
         assert (Hk : mem_keeps m m') by (split; cbn; try done; first [apply make_keeps|apply write_keeps]);
         assert (Hm' : mem_wf m') by (destruct Hm; split; cbn; try done; first [by apply make_wf|by apply write_wf]);
         destruct (world_memory w m' Hw Hk Hm') as [? ->]; done end.
  - pose proof (NewKeySet_ref_spec m keys Hm Hv) as Hn. destruct (NewKeySet_ref m keys) as [m' s].
    destruct Hn as (He & Hs & Hval). destruct (world_new w m' (PSet s) Hw He Hs) as [? ->]. cbn [provider_value]. by rewrite Hval.
  - pose proof (Key_Clone_spec m key Hm (Forall_inv Hv)) as Hn. unfold StaticKeyProvider_ref.
    destruct (Key_Clone m key) as [m' k]. destruct Hn as (He & Hval & Hp & _).
    destruct (world_new w m' (PStatic k) Hw He Hp) as [? ->]. cbn [provider_value]. by rewrite Hval.
  - pose proof (MapKeyProvider_ref_spec byKID m ∅ Hm Hv (map_Forall_empty _)) as Hn.
    destruct (MapKeyProvider_ref m byKID ∅) as [m' ks]. destruct Hn as (He & Hp & Hval). rewrite fmap_empty in Hval.
    destruct (world_new w m' (PMap ks) Hw He Hp) as [? ->]. cbn [provider_value]. by rewrite Hval.
  - at_provider w m p. pose proof (Add_ref_spec m s key Hm (Forall_inv Hv) (provider_at w p _ Hw Hq)) as Hn.
    destruct (Add_ref m s key) as [m' s']. destruct Hn as (He & Hs & Hval).
    destruct (world_set w p m' s' Hw He Hs) as [? ->]. by rewrite Hval.
  - at_provider w m p. destruct (Remove_ref_spec m s kid (provider_at w p _ Hw Hq)) as [Hs Hval].
    assert (He : mem_extends m m) by done. destruct (world_set w p m _ Hw He Hs) as [? ->]. by rewrite Hval.
  - at_provider w m p; [pose proof (found_answer w _ _ Hw (set_finds m s kid (provider_at w p _ Hw Hq))) as Hn
      |destruct (static_finds m k kid (provider_at w p _ Hw Hq)) as (fk & -> & Hfk);
       pose proof (found_answer w _ _ Hw Hfk) as Hn
      |pose proof (found_answer w _ _ Hw (map_finds m ks kid (provider_at w p _ Hw Hq))) as Hn];
      unfold lookup_ref, map_lookup; fold m in Hn;
      match goal with |- context [answer w ?r] => destruct (answer w r) as [w' ks'] end;
      by destruct Hn as (? & -> & ->).
  - at_provider w m p. pose proof (Keys_ref_spec m s Hm (provider_at w p _ Hw Hq)) as Hn.
    destruct (Keys_ref m s) as [m' ks]. destruct Hn as (He & Hval & Hp & Hf).
    pose proof (world_answer w (m', ks) Hw He Hp Hf) as Hn. destruct (answer w (m', ks)) as [w' ks'].
    cbn [fst snd] in Hn. destruct Hn as (? & -> & ->). by rewrite Hval.
  - at_provider w m p. pose proof (Clone_ref_spec m s Hm (provider_at w p _ Hw Hq)) as Hn.
    destruct (Clone_ref m s) as [m' s']. destruct Hn as (He & Hs & Hval).
    destruct (world_new w m' (PSet s') Hw He Hs) as [? ->]. cbn [provider_value]. by rewrite Hval.
Qed.

Lemma run_program_spec acts : ∀ w,
  world_ok w →
  let '(w', (calls, answers)) := run_program w acts in
  world_ok w' ∧ vrun (holdings w) calls = (holdings w', answers).
Proof.
  induction acts as [|a acts IH]; intros w Hw; [done|]. cbn [run_program].
  pose proof (perform_spec w a Hw) as Hs. destruct (perform w a) as [w1 ks]. destruct Hs as [Hw1 Hs].
  specialize (IH w1 Hw1). destruct (run_program w1 acts) as [w2 [calls answers]]. destruct IH as [Hw2 IH].
  split; [done|]. cbn [vrun]. by rewrite <- Hs, IH.
Qed.

Lemma empty_world_ok : world_ok empty_world.
Proof. split; [split; intros l Hl; by apply not_elem_of_empty in Hl|constructor]. Qed.

(** C13: keys are copied at every boundary.  Whatever a program does, with writes to
    every array it can reach between its calls, the arrays of keys it passed in and
    of keys it was given among them: its key sets and fixed providers hold and
    answer what the same calls hold and answer over values, with each key as it
    was when it was passed; and what is not a call to a provider changes nothing
    that they hold. *)
Theorem keys_copied acts :
  let '(w, (calls, answers)) := run_program empty_world acts in
  vrun [] calls = (holdings w, answers) ∧
  ∀ a, call_of (w_memory w) a = VNothing → holdings (fst (perform w a)) = holdings w.
Proof.
  pose proof (run_program_spec acts empty_world empty_world_ok) as Hr.
  destruct (run_program empty_world acts) as [w [calls answers]]. destruct Hr as [Hw Hr]. split; [exact Hr|].
  intros a Ha. pose proof (perform_spec w a Hw) as Hs. destruct (perform w a) as [w' ks].
  rewrite Ha in Hs. by destruct Hs as [_ [= Hs _]].
Qed.
End Sharing.
