(* ===== verification/Float.v ===== *)
(** * Float: decimal literals and float64

    [strconv.FormatInt] as a JSON number, and the rounding of a decimal literal
    to a float64.  A finite float64 is kept as the pair (m, e) of the value
    m * 2^e. *)

From Stdlib Require Import DecimalFacts DecimalZ.
From S2P Require Import Prelude Errors GoLib Utf8 Json.

(** ** FormatInt prints a JSON number *)

Lemma uint_digits d : forallb is_digit (uint_bytes d) = true.
Proof. by induction d. Qed.

Lemma span_digits_all s r :
  forallb is_digit s = true → span_digits r = ([], r) → span_digits (s ++ r) = (s, r).
Proof.
  intros Hs Hr. induction s as [|c s IH]; [done|]. simpl in *. bool_prop.
  by rewrite H, IH.
Qed.

(** The literal of a natural number: digits without a leading zero. *)
Lemma unorm_head d :
  d = Decimal.unorm d →
  uint_bytes d = ["0"%byte] ∨
  ∃ c t, uint_bytes d = c :: t ∧ is_digit c = true ∧ beq c "0"%byte = false.
Proof.
  unfold Decimal.unorm. intros Hd.
  destruct (Decimal.nzhead d) as [|e|e|e|e|e|e|e|e|e|e] eqn:Hn; subst d;
    try (right; eexists _, _; repeat split; reflexivity).
  - by left.
  - exfalso. revert Hn. apply DecimalFacts.nzhead_nonzero.
Qed.

Lemma parse_int_uint d rest :
  d = Decimal.unorm d → span_digits rest = ([], rest) →
  parse_int (uint_bytes d ++ rest) = Some (uint_bytes d, rest).
Proof.
  intros Hd Hr. pose proof (uint_digits d) as Hall.
  destruct (unorm_head d Hd) as [->|(c & t & Hc & Hdig & Hz)]; [done|].
  rewrite Hc in *. cbn [app parse_int]. rewrite Hz, Hdig.
  simpl in Hall. bool_prop. by rewrite span_digits_all.
Qed.

Lemma to_int_norm z :
  match Z.to_int z with Decimal.Pos d | Decimal.Neg d => d = Decimal.unorm d end.
Proof.
  pose proof (DecimalZ.to_of (Z.to_int z)) as Hn. rewrite DecimalZ.of_to in Hn.
  destruct (Z.to_int z) as [d|d]; simpl in Hn.
  - by injection Hn.
  - unfold Decimal.norm in Hn. unfold Decimal.unorm.
    destruct (Decimal.nzhead d) eqn:Hz; simplify_eq/=; congruence.
Qed.

Lemma FormatInt_nonneg z : 0 ≤ z → ∃ d, FormatInt z = uint_bytes d ∧ d = Decimal.unorm d.
Proof.
  intros Hz. pose proof (to_int_norm z) as Hn. unfold FormatInt.
  destruct (Z.to_int z) as [d|d] eqn:E; [by exists d|].
  exfalso. destruct z; simpl in E; [done|done|lia].
Qed.

(** ** The rational value of a literal *)

(** The digits before and after the point, and the decimal exponent. *)
Definition number_rat (lit : bytes) : Z * Z :=
  let '(neg, s) := match eat "-"%byte lit with Some t => (true, t) | None => (false, lit) end in
  let '(ip, r) := span_digits s in
  let '(fp, r) := match eat "."%byte r with Some t => span_digits t | None => ([], r) end in
  let ex := match r with
            | _ :: t =>
                match t with
                | c :: t' =>
                    if beq c "-"%byte then - dec_value t'
                    else if beq c "+"%byte then dec_value t' else dec_value t
                | [] => 0
                end
            | [] => 0
            end in
  let m := dec_value (ip ++ fp) in
  let m := if neg : bool then - m else m in
  let e10 := ex - len fp in
  (m * 10 ^ Z.max 0 e10, 10 ^ Z.max 0 (- e10)).

(** ** Rounding to 53 bits *)

Definition round_half_even (p q : Z) : Z :=
  let d := p / q in
  let r := 2 * (p mod q) in
  if (r <? q) || ((r =? q) && Z.even d) then d else d + 1.

(** The exponent of the last of the 53 bits of [a / den], not below that of
    the subnormals. *)
Definition float_exp (a den : Z) : Z :=
  let l := Z.log2 a - Z.log2 den in
  let e := if den * 2 ^ Z.max 0 l <=? a * 2 ^ Z.max 0 (- l) then l - 52 else l - 53 in
  Z.max e (-1074).

(** The float64 nearest [num / den]; nothing on overflow. *)
Definition to_float (num den : Z) : option (Z * Z) :=
  if num =? 0 then Some (0, 0)
  else
    let a := Z.abs num in
    let e := float_exp a den in
    let m := round_half_even (a * 2 ^ Z.max 0 (- e)) (den * 2 ^ Z.max 0 e) in
    if e + Z.log2 m <? 1024 then Some (Z.sgn num * m, e) else None.

(** [strconv.ParseFloat(lit, 64)]. *)
Definition ParseFloat (lit : bytes) : option (Z * Z) :=
  let '(num, den) := number_rat lit in to_float num den.

(** [f < z] and [f > z] for an integer [z]. *)
Definition float_lt (f : Z * Z) (z : Z) : bool :=
  fst f * 2 ^ Z.max 0 (snd f) <? z * 2 ^ Z.max 0 (- snd f).
Definition float_gt (f : Z * Z) (z : Z) : bool :=
  z * 2 ^ Z.max 0 (- snd f) <? fst f * 2 ^ Z.max 0 (snd f).

(** [math.Modf]: the integer part, and the fraction as a numerator over
    [2 ^ max 0 (-e)]. *)
Definition Modf (f : Z * Z) : Z * Z :=
  let den := 2 ^ Z.max 0 (- snd f) in
  let num := fst f * 2 ^ Z.max 0 (snd f) in
  (Z.quot num den, Z.rem num den).

(** [math.Round]: half away from zero. *)
Definition Round (f : Z * Z) : Z :=
  let den := 2 ^ Z.max 0 (- snd f) in
  let num := fst f * 2 ^ Z.max 0 (snd f) in
  Z.sgn num * ((2 * Z.abs num + den) / (2 * den)).

(** ** An integer of at most 53 bits is exact *)

Lemma fold_dec s : ∀ a,
  fold_left (λ acc c, 10 * acc + (bz c - 48)) s a = a * 10 ^ len s + dec_value s.
Proof.
  unfold dec_value. induction s as [|c s IH]; intros a; cbn [fold_left].
  - unfold len. simpl. lia.
  - rewrite IH, (IH (10 * 0 + _)).
    assert (Hp : 10 ^ len (c :: s) = 10 * 10 ^ len s).
    { unfold len. simpl length. rewrite Nat2Z.inj_succ, Z.pow_succ_r by lia. done. }
    rewrite Hp. lia.
Qed.

Lemma pow10_cons {A} (c : A) s : 10 ^ len (c :: s) = 10 * 10 ^ len s.
Proof. unfold len. simpl length. by rewrite Nat2Z.inj_succ, Z.pow_succ_r by lia. Qed.

Lemma dec_value_nonneg s : forallb is_digit s = true → 0 ≤ dec_value s.
Proof.
  induction s as [|c s IH]; intros Hs; [done|]. cbn in Hs. bool_prop. specialize (IH ltac:(done)).
  unfold is_digit in *. bool_prop. unfold dec_value. cbn [fold_left]. rewrite fold_dec.
  pose proof (Z.pow_nonneg 10 (len s)). nia.
Qed.

Lemma dec_value_cons c s : dec_value (c :: s) = (bz c - 48) * 10 ^ len s + dec_value s.
Proof. unfold dec_value at 1. cbn [fold_left]. rewrite fold_dec. done. Qed.

Lemma of_uint_acc_value d : ∀ p,
  Z.pos (Pos.of_uint_acc d p) = Z.pos p * 10 ^ len (uint_bytes d) + dec_value (uint_bytes d).
Proof.
  induction d as [|d IH|d IH|d IH|d IH|d IH|d IH|d IH|d IH|d IH|d IH]; intros p;
    [cbn; unfold len, dec_value; simpl; lia|..];
    cbn [uint_bytes Pos.of_uint_acc]; rewrite IH, dec_value_cons, pow10_cons;
    rewrite ?Pos2Z.inj_add, Pos2Z.inj_mul; generalize (10 ^ len (uint_bytes d)); intros P;
    match goal with |- context [bz ?c] => let v := eval vm_compute in (bz c) in change (bz c) with v end;
    lia.
Qed.

Lemma of_uint_value d : Z.of_uint d = dec_value (uint_bytes d).
Proof.
  unfold Z.of_uint. induction d as [|d IH|d IH|d IH|d IH|d IH|d IH|d IH|d IH|d IH|d IH];
    [done|exact IH|..]; cbn [Pos.of_uint Z.of_N uint_bytes];
    rewrite of_uint_acc_value, dec_value_cons; f_equal.
Qed.

Lemma FormatInt_value z :
  match eat "-"%byte (FormatInt z) with
  | Some t => z = - dec_value t ∧ forallb is_digit t = true
  | None => z = dec_value (FormatInt z) ∧ forallb is_digit (FormatInt z) = true
  end.
Proof.
  pose proof (DecimalZ.of_to z) as Hz. unfold FormatInt. destruct (Z.to_int z) as [d|d] eqn:E.
  - assert (Hm : eat "-"%byte (uint_bytes d) = None) by (by destruct d).
    rewrite Hm. split; [|apply uint_digits]. rewrite <- of_uint_value. by rewrite <- Hz.
  - rewrite eat_cons. split; [|apply uint_digits]. rewrite <- of_uint_value. by rewrite <- Hz.
Qed.

Lemma number_rat_FormatInt z : number_rat (FormatInt z) = (z, 1).
Proof.
  pose proof (FormatInt_value z) as Hz. unfold number_rat.
  destruct (eat "-"%byte (FormatInt z)) as [t|]; destruct Hz as [Hz Hd].
  - rewrite <- (app_nil_r t), span_digits_all by done. cbn [eat]. rewrite app_nil_r.
    rewrite Hz. f_equal. change (10 ^ _) with 1. lia.
  - rewrite <- (app_nil_r (FormatInt z)), span_digits_all by done. cbn [eat]. rewrite app_nil_r.
    rewrite <- Hz. f_equal. change (10 ^ _) with 1. lia.
Qed.

Lemma log2_shift a l : 0 < a → 0 ≤ l → Z.log2 (a * 2 ^ l) = Z.log2 a + l.
Proof. intros. rewrite Z.log2_mul_pow2 by done. lia. Qed.

(** A float with an integral value below 2^53 holds it exactly. *)
Lemma to_float_int z :
  Z.abs z < 2 ^ 53 →
  ∃ f, to_float z 1 = Some f ∧ snd f ≤ 0 ∧ fst f = z * 2 ^ (- snd f).
Proof.
  intros Hz. unfold to_float. destruct (z =? 0) eqn:E; bool_prop.
  { exists (0, 0). subst. done. }
  set (a := Z.abs z) in *. assert (Ha : 0 < a) by (unfold a; lia).
  assert (Hl : 0 ≤ Z.log2 a < 53) by (split; [apply Z.log2_nonneg|by apply Z.log2_lt_pow2]).
  assert (He : float_exp a 1 = Z.log2 a - 52).
  { unfold float_exp. change (Z.log2 1) with 0. rewrite Z.sub_0_r.
    rewrite (Z.max_r 0 (Z.log2 a)), (Z.max_l 0 (- Z.log2 a)) by lia.
    rewrite Z.mul_1_l, Z.mul_1_r.
    rewrite (proj2 (Z.leb_le _ _)); [lia|]. by apply Z.log2_spec. }
  rewrite He. rewrite (Z.max_r 0 (- (Z.log2 a - 52))), (Z.max_l 0 (Z.log2 a - 52)) by lia.
  assert (Hr : round_half_even (a * 2 ^ (- (Z.log2 a - 52))) (1 * 2 ^ 0) = a * 2 ^ (- (Z.log2 a - 52))).
  { unfold round_half_even. change (1 * 2 ^ 0) with 1. by rewrite Z.mod_1_r, Z.div_1_r. }
  rewrite Hr. rewrite log2_shift by lia. rewrite (proj2 (Z.ltb_lt _ _)) by lia.
  eexists. split; [done|]. cbn [fst snd]. split; [lia|].
  rewrite Z.mul_assoc, (Z.mul_comm (Z.sgn z)). unfold a. by rewrite Z.abs_sgn.
Qed.

Lemma ParseFloat_FormatInt z :
  Z.abs z < 2 ^ 53 →
  ∃ f, ParseFloat (FormatInt z) = Some f ∧ snd f ≤ 0 ∧ fst f = z * 2 ^ (- snd f).
Proof. intros. unfold ParseFloat. rewrite number_rat_FormatInt. by apply to_float_int. Qed.

(** Scaling a fraction below one in size by [N] does not round past [N]. *)
Lemma scaled_bound N frac k f :
  0 < N < 2 ^ 52 → 0 ≤ k → Z.abs frac < 2 ^ k →
  to_float (frac * N) (2 ^ k) = Some f → Z.abs (Round f) ≤ N.
Proof.
  intros HN Hk Hf. unfold to_float. destruct (frac * N =? 0) eqn:E; [intros [= <-]; change (Round (0, 0)) with 0; lia|].
  bool_prop. set (a := Z.abs (frac * N)). set (e := float_exp a (2 ^ k)).
  assert (Hden : 0 < 2 ^ k) by (apply Z.pow_pos_nonneg; lia).
  assert (Ha : 0 < a < N * 2 ^ k).
  { unfold a. split; [lia|]. rewrite Z.abs_mul, (Z.abs_eq N) by lia. nia. }
  assert (He : e ≤ 0).
  { unfold e, float_exp. rewrite Z.log2_pow2 by done.
    assert (Z.log2 a ≤ k + 51).
    { assert (Z.log2 a < k + 52); [|lia]. apply Z.log2_lt_pow2; [lia|].
      rewrite Z.pow_add_r, Z.mul_comm by lia. nia. }
    case_match; lia. }
  rewrite (Z.max_l 0 e), (Z.max_r 0 (- e)) by lia. change (2 ^ 0) with 1. rewrite Z.mul_1_r.
  assert (HD : 0 < 2 ^ (- e)) by (apply Z.pow_pos_nonneg; lia).
  set (m := round_half_even (a * 2 ^ (- e)) (2 ^ k)).
  assert (Hm : 0 ≤ m ≤ N * 2 ^ (- e)).
  { unfold m, round_half_even. set (p := a * 2 ^ (- e)). set (q := 2 ^ k) in *.
    assert (0 ≤ p < q * (N * 2 ^ (- e))) by (unfold p; nia).
    assert (0 ≤ p / q < N * 2 ^ (- e)).
    { split; [apply Z.div_pos; lia|]. apply Z.div_lt_upper_bound; lia. }
    case_match; lia. }
  destruct (_ <? _); [|done]. intros [= <-]. unfold Round. cbn [fst snd].
  rewrite (Z.max_l 0 e), (Z.max_r 0 (- e)) by lia. change (2 ^ 0) with 1. rewrite Z.mul_1_r.
  assert (Hs : Z.abs (Z.sgn (frac * N) * m) ≤ N * 2 ^ (- e)) by (rewrite Z.abs_mul; nia).
  rewrite Z.abs_mul.
  set (x := Z.abs (Z.sgn (frac * N) * m)) in *. set (D := 2 ^ (- e)) in *.
  assert (Hx : 0 ≤ (2 * x + D) / (2 * D) ≤ N).
  { split; [apply Z.div_pos; lia|].
    apply Z.lt_succ_r. apply Z.div_lt_upper_bound; nia. }
  rewrite (Z.abs_eq (_ / _)) by lia.
  destruct (Z.sgn_spec (Z.sgn (frac * N) * m)) as [[_ ->]|[[_ ->]|[_ ->]]]; simpl; lia.
Qed.

(** ** The error of rounding *)

Lemma round_half_even_error p q : 0 < q → 2 * Z.abs (round_half_even p q * q - p) ≤ q.
Proof.
  intros Hq. unfold round_half_even. pose proof (Z.div_mod p q ltac:(lia)) as Hp.
  pose proof (Z.mod_pos_bound p q Hq) as Hr. set (r := p mod q) in *. set (d := p / q) in *.
  destruct (_ || _) eqn:E.
  - assert (2 * r ≤ q) by (apply orb_true_iff in E as [E|E]; bool_prop; lia). lia.
  - apply orb_false_iff in E as [E _]. bool_prop. lia.
Qed.

(** Rounding does not pass an integer. *)
Lemma round_half_even_le p q N : 0 < q → 0 ≤ p ≤ N * q → 0 ≤ round_half_even p q ≤ N.
Proof.
  intros Hq Hp. pose proof (round_half_even_error p q Hq) as He. set (m := round_half_even p q) in *. nia.
Qed.

(** The last bit of a number below [2^L]. *)
Lemma float_exp_le a den L :
  0 < a → 0 < den → 0 ≤ L → a < den * 2 ^ L → float_exp a den ≤ Z.max (L - 53) (-1074).
Proof.
  intros Ha Hd HL Hlt. unfold float_exp. set (l := Z.log2 a - Z.log2 den).
  assert (Hl : l ≤ L).
  { unfold l. pose proof (Z.log2_le_mono a (den * 2 ^ L) ltac:(lia)) as Hm. rewrite log2_shift in Hm by lia. lia. }
  destruct (_ <=? _) eqn:E; [|lia]. bool_prop. assert (l < L); [|lia].
  destruct (Z.le_gt_cases 0 l) as [Hl0|Hl0]; [|lia].
  rewrite (Z.max_r 0 l), (Z.max_l 0 (- l)), Z.mul_1_r in E by lia.
  apply (Z.pow_lt_mono_r_iff 2); nia.
Qed.

(** The float64 of a rational below [2^L] in size: it is within half of the last
    bit of such numbers, and not past any integer that the rational is not past. *)
Lemma to_float_near num den L :
  0 < den → 0 ≤ L ≤ 53 → Z.abs num < den * 2 ^ L →
  ∃ m e, to_float num den = Some (m, e) ∧ e ≤ 0 ∧
    2 * Z.abs (m * den - num * 2 ^ (- e)) * 2 ^ (53 - L) ≤ den * 2 ^ (- e) ∧
    (∀ N, 0 ≤ N → num ≤ N * den → m ≤ N * 2 ^ (- e)) ∧
    (∀ N, 0 ≤ N → - (N * den) ≤ num → - (N * 2 ^ (- e)) ≤ m).
Proof.
  intros Hd HL Hnum. unfold to_float. destruct (num =? 0) eqn:E; bool_prop.
  { subst num. exists 0, 0. split; [done|]. split; [done|]. split; [change (2 ^ (- 0)) with 1; rewrite !Z.mul_0_l; cbn; lia|]. change (2 ^ (- 0)) with 1. split; intros N HN _; lia. }
  set (a := Z.abs num) in *. assert (Ha : 0 < a) by (unfold a; lia).
  pose proof (float_exp_le a den L Ha Hd ltac:(lia) Hnum) as He. set (e := float_exp a den) in *.
  assert (He0 : e ≤ 0) by lia. rewrite (Z.max_r 0 (- e)), (Z.max_l 0 e), Z.mul_1_r by lia.
  assert (HD : 0 < 2 ^ (- e)) by (apply Z.pow_pos_nonneg; lia). set (D := 2 ^ (- e)) in *.
  pose proof (round_half_even_error (a * D) den Hd) as Herr.
  assert (Hle : ∀ N, a ≤ N * den → 0 ≤ round_half_even (a * D) den ≤ N * D)
    by (intros N HN; apply round_half_even_le; nia).
  set (m := round_half_even (a * D) den) in *.
  assert (Hm : 0 ≤ m ≤ 2 ^ L * D) by (apply Hle; lia).
  assert (Hfin : e + Z.log2 m <? 1024 = true).
  { apply Z.ltb_lt. assert (Z.log2 m ≤ L - e); [|lia].
    rewrite <- (Z.log2_pow2 (L - e)) by lia. apply Z.log2_le_mono.
    unfold D in Hm. rewrite <- Z.pow_add_r in Hm by lia. replace (L - e) with (L + - e) by lia. lia. }
  rewrite Hfin. exists (Z.sgn num * m), e. split; [done|]. split; [done|]. fold D.
  assert (Hsgn : num = Z.sgn num * a) by (unfold a; by rewrite Z.mul_comm, Z.abs_sgn).
  assert (Hs : (num = a ∧ Z.sgn num = 1) ∨ (num = - a ∧ Z.sgn num = -1)) by (unfold a; lia).
  clearbody a.
  split; [|split].
  - assert (Hbit : 2 ^ (53 - L) ≤ D) by (apply Z.pow_le_mono_r; lia).
    assert (Hab : Z.abs (Z.sgn num * m * den - num * D) = Z.abs (m * den - a * D)) by (destruct Hs as [[Hn ->]|[Hn ->]]; rewrite Hn; lia).
    rewrite Hab. assert (0 < 2 ^ (53 - L)) by (apply Z.pow_pos_nonneg; lia). nia.
  - intros N HN Hle'. destruct Hs as [[Hn ->]|[Hn ->]]; [|nia]. specialize (Hle N ltac:(lia)). lia.
  - intros N HN Hle'. destruct Hs as [[Hn ->]|[Hn ->]]; [nia|]. specialize (Hle N ltac:(lia)). lia.
Qed.

(** [math.Round] goes to a nearest integer. *)
Lemma Round_error m e :
  e ≤ 0 → 2 * Z.abs (Round (m, e) * 2 ^ (- e) - m) ≤ 2 ^ (- e).
Proof.
  intros He. unfold Round. cbn [fst snd]. rewrite (Z.max_l 0 e), (Z.max_r 0 (- e)), Z.mul_1_r by lia.
  assert (HD : 0 < 2 ^ (- e)) by (apply Z.pow_pos_nonneg; lia). set (D := 2 ^ (- e)) in *.
  pose proof (Z.div_mod (2 * Z.abs m + D) (2 * D) ltac:(lia)) as Hq.
  pose proof (Z.mod_pos_bound (2 * Z.abs m + D) (2 * D) ltac:(lia)) as Hr.
  set (q := (2 * Z.abs m + D) / (2 * D)) in *. set (r := _ mod _) in *.
  destruct (Z.sgn_spec m) as [[Hm ->]|[[Hm ->]|[Hm ->]]]; lia.
Qed.
