(* ===== verification/Dates.v ===== *)
(** * Dates: NumericDate of claims.go

    A [time.Time] is its count of nanoseconds since the Unix epoch.  A JSON
    number is decoded through a float64 as the code does: the literal is rounded
    to 53 bits, split by [math.Modf], and its fraction scaled by 1e9 with one
    more rounding and [math.Round].  The encoder writes the exact value; the
    error of reading it back is bounded here. *)

From S2P Require Import Prelude Errors GoLib Utf8 Json StrictJson Float.

(** ** NumericDate *)

Abbreviation Time := Z.

Definition second : Z := 1000000000.

(** The lowest [n] decimal digits of [z], most significant first: [%0nd]. *)
Fixpoint pad_digits (n : nat) (z : Z) : bytes :=
  match n with
  | O => []
  | S n => pad_digits n (z / 10) ++ [zb (48 + z mod 10)]
  end.

Definition NumericDate_lit (t : Time) : bytes :=
  let sec := t / second in
  let nsec := t mod second in
  if nsec =? 0 then FormatInt sec
  else
    let negative := sec <? 0 in
    let whole := if negative then - (sec + 1) else sec in
    let fraction := if negative then second - nsec else nsec in
    let frac := TrimRight (pad_digits 9 fraction) #"0" in
    (if negative then #"-" else []) ++ FormatInt whole ++ #"." ++ frac.

Definition minNumericDate : Z := -62135596800.
Definition maxNumericDate : Z := 253402300799.

(** [UnmarshalJSON] of a value that is not null. *)
Definition dec_numericdate (j : json) : res Time :=
  match j with
  | JNum lit =>
      match ParseFloat lit with
      | None => fail type_error
      | Some f =>
          if float_lt f minNumericDate || float_gt f maxNumericDate then fail errNumericDateRange
          else
            let '(sec, frac) := Modf f in
            let den := 2 ^ Z.max 0 (- snd f) in
            match to_float (frac * second) den with
            | None => fail type_error
            | Some scaled => Ok (sec * second + Round scaled)
            end
      end
  | _ => fail type_error
  end.

(** ** Facts *)

Lemma FormatInt_num_ok z : num_ok (FormatInt z).
Proof.
  pose proof (to_int_norm z) as Hn. unfold num_ok, parse_number, FormatInt.
  destruct (Z.to_int z) as [d|d].
  - assert (Hm : eat "-"%byte (uint_bytes d) = None) by (by destruct d).
    rewrite Hm. rewrite <- (app_nil_r (uint_bytes d)) at 1.
    rewrite parse_int_uint by done. cbn. by rewrite app_nil_r.
  - rewrite eat_cons. rewrite <- (app_nil_r (uint_bytes d)) at 1.
    rewrite parse_int_uint by done. cbn. by rewrite app_nil_r.
Qed.

(** ** The literal of any date *)

Lemma dec_value_app s t : dec_value (s ++ t) = dec_value s * 10 ^ len t + dec_value t.
Proof. unfold dec_value at 1. rewrite fold_left_app. by rewrite fold_dec. Qed.

Lemma pad_digits_value n : ∀ z, 0 ≤ z < 10 ^ Z.of_nat n →
  dec_value (pad_digits n z) = z ∧ len (pad_digits n z) = Z.of_nat n ∧ forallb is_digit (pad_digits n z) = true.
Proof.
  induction n as [|n IH]; intros z Hz; [cbn in *; split; [unfold dec_value; cbn; lia|done]|].
  rewrite Nat2Z.inj_succ, Z.pow_succ_r in Hz by lia. cbn [pad_digits].
  destruct (IH (z / 10)) as (Hv & Hl & Hd).
  { split; [apply Z.div_pos; lia|]. apply Z.div_lt_upper_bound; lia. }
  pose proof (Z.mod_pos_bound z 10 ltac:(lia)) as Hm. pose proof (Z.div_mod z 10 ltac:(lia)) as Hdm.
  assert (Hb : bz (zb (48 + z mod 10)) = 48 + z mod 10) by (rewrite bz_zb; apply Z.mod_small; lia).
  rewrite dec_value_app, len_app, forallb_app, Hv, Hl, Hd. change (len [_]) with 1.
  split; [unfold dec_value; cbn [fold_left]; rewrite Hb; lia|]. split; [lia|]. cbn.
  unfold is_digit. rewrite Hb. rewrite !andb_true_r. apply andb_true_intro. split; apply Z.leb_le; lia.
Qed.

Lemma TrimLeft_cut s cut : ∃ t, s = t ++ TrimLeft s cut ∧ Forall (λ c, c ∈ cut) t.
Proof.
  induction s as [|c s (t & Hs & Ht)]; cbn; [by exists []|]. case_bool_decide as Hc; [|by exists []].
  exists (c :: t). split; [cbn; by rewrite <- Hs|by constructor].
Qed.

Lemma TrimRight_zeros s : ∃ k, s = TrimRight s #"0" ++ replicate k "0"%byte.
Proof.
  unfold TrimRight. destruct (TrimLeft_cut (rev s) #"0") as (t & Hs & Ht). exists (length t).
  rewrite <- (rev_involutive s) at 1. rewrite Hs at 1. rewrite rev_app_distr. f_equal.
  assert (Hr : ∀ l : bytes, Forall (λ c, c ∈ #"0") l → l = replicate (length l) "0"%byte).
  { clear. induction 1 as [|c l Hc _ IH]; [done|]. cbn. rewrite <- IH. f_equal. revert Hc. apply list_elem_of_singleton. }
  rewrite (Hr (rev t)); [by rewrite length_rev|]. by apply List.Forall_rev.
Qed.

Lemma dec_zeros k : dec_value (replicate k "0"%byte) = 0.
Proof. induction k as [|k IH]; [done|]. cbn [replicate]. rewrite dec_value_cons, IH. change (bz "0"%byte) with 48. lia. Qed.

(** The digits after the point: no more than nine, and some. *)
Lemma fraction_digits z : 0 < z < second →
  let frac := TrimRight (pad_digits 9 z) #"0" in
  forallb is_digit frac = true ∧ frac ≠ [] ∧ ∃ k, 0 ≤ k ∧ len frac + k = 9 ∧ dec_value frac * 10 ^ k = z.
Proof.
  intros Hz frac. destruct (pad_digits_value 9 z) as (Hv & Hl & Hd); [unfold second in *; cbn; lia|].
  destruct (TrimRight_zeros (pad_digits 9 z)) as [k Hk]. fold frac in Hk. rewrite Hk in Hv, Hl, Hd.
  rewrite dec_value_app, dec_zeros in Hv. rewrite len_app in Hl. rewrite forallb_app in Hd. bool_prop.
  assert (Hlk : len (replicate k "0"%byte) = Z.of_nat k) by (unfold len; by rewrite length_replicate).
  rewrite Hlk in *. split; [done|]. split.
  - intros Hf. rewrite Hf in Hv. unfold dec_value in Hv at 1. cbn in Hv. lia.
  - exists (Z.of_nat k). split; [lia|]. split; [lia|]. lia.
Qed.

(** The literal of a date that is not whole: a sign, an integer, a fraction. *)
Lemma NumericDate_lit_fraction t : t mod second ≠ 0 →
  ∃ (neg : bool) whole frac k,
    NumericDate_lit t = (if neg then #"-" else []) ++ FormatInt whole ++ #"." ++ frac ∧
    0 ≤ whole ∧ forallb is_digit frac = true ∧ frac ≠ [] ∧ 0 ≤ k ∧ len frac + k = 9 ∧
    (if neg then - t else t) = whole * second + dec_value frac * 10 ^ k.
Proof.
  intros Hn. pose proof (Z.mod_pos_bound t second ltac:(done)) as Hm. pose proof (Z.div_mod t second ltac:(done)) as Ht.
  unfold NumericDate_lit. rewrite (proj2 (Z.eqb_neq _ _)) by done.
  set (sec := t / second) in *. set (nsec := t mod second) in *. destruct (sec <? 0) eqn:Hs; bool_prop.
  - destruct (fraction_digits (second - nsec)) as (Hd & Hf & k & Hk & Hl & Hv); [lia|].
    exists true, (- (sec + 1)), (TrimRight (pad_digits 9 (second - nsec)) #"0"), k.
    split; [done|]. split; [lia|]. do 4 (split; [done|]). rewrite Hv. lia.
  - destruct (fraction_digits nsec) as (Hd & Hf & k & Hk & Hl & Hv); [lia|].
    exists false, sec, (TrimRight (pad_digits 9 nsec) #"0"), k.
    split; [done|]. split; [lia|]. do 4 (split; [done|]). rewrite Hv. lia.
Qed.

Lemma no_sign_digits s r : forallb is_digit s = true → s ≠ [] → eat "-"%byte (s ++ r) = None.
Proof.
  intros Hd Hs. destruct s as [|c s]; [done|]. cbn in Hd. bool_prop. unfold eat. cbn.
  destruct (beq c "-"%byte) eqn:E; [|done]. bool_prop. by subst c.
Qed.

Lemma scale_fraction m (frac : bytes) :
  (m * 10 ^ Z.max 0 (0 - len frac), 10 ^ Z.max 0 (- (0 - len frac))) = (m, 10 ^ len frac).
Proof.
  pose proof (len_nonneg frac). rewrite (Z.max_l 0 (0 - len frac)), (Z.max_r 0) by lia.
  rewrite Z.mul_1_r. do 2 f_equal. lia.
Qed.

(** It is a JSON number, and its value is the date's. *)
Lemma NumericDate_lit_number t :
  num_ok (NumericDate_lit t) ∧
  ∃ den, 0 < den ∧ ∃ num, number_rat (NumericDate_lit t) = (num, den) ∧ num * second = t * den.
Proof.
  destruct (decide (t mod second = 0)) as [Hz|Hz].
  { unfold NumericDate_lit. rewrite (proj2 (Z.eqb_eq _ _)) by done. split; [apply FormatInt_num_ok|].
    exists 1. split; [done|]. exists (t / second). split; [apply number_rat_FormatInt|].
    pose proof (Z.div_mod t second ltac:(done)). lia. }
  destruct (NumericDate_lit_fraction t Hz) as (neg & whole & frac & k & -> & Hw & Hd & Hf & Hk & Hl & Hv).
  destruct (FormatInt_nonneg whole Hw) as (d & Hdig & Hnorm). pose proof (FormatInt_value whole) as Hwv.
  pose proof (uint_digits d) as Hud. rewrite Hdig in *.
  assert (Hne : uint_bytes d ≠ []) by (destruct (unorm_head d Hnorm) as [->|(c & s & -> & _)]; done).
  assert (Heat : ∀ r, eat "-"%byte (uint_bytes d ++ r) = None) by (intros r; by apply no_sign_digits).
  pose proof (Heat []) as Heat0. rewrite app_nil_r in Heat0. rewrite Heat0 in Hwv. destruct Hwv as [Hwv _].
  assert (Hstop : span_digits (#"." ++ frac) = ([], #"." ++ frac)) by done.
  assert (Hfrac : span_digits frac = (frac, [])) by (rewrite <- (app_nil_r frac) at 1; by apply span_digits_all).
  set (body := uint_bytes d ++ #"." ++ frac) in *.
  assert (Hpi : parse_int body = Some (uint_bytes d, #"." ++ frac)) by (by apply parse_int_uint).
  assert (Hsp : span_digits body = (uint_bytes d, #"." ++ frac)) by (by apply span_digits_all).
  assert (Hpf : parse_frac (#"." ++ frac) = Some (#"." ++ frac, [])).
  { unfold parse_frac. change (eat "."%byte (#"." ++ frac)) with (Some frac). unfold digits1. rewrite Hfrac.
    by destruct frac. }
  split.
  - unfold num_ok, parse_number. destruct neg.
    + change (#"-" ++ body) with ("-"%byte :: body). rewrite eat_cons, Hpi. cbn [mbind option_bind]. rewrite Hpf.
      cbn [mbind option_bind parse_exp]. by rewrite app_nil_r.
    + cbn [app]. unfold body at 1. rewrite Heat. fold body. rewrite Hpi. cbn [mbind option_bind]. rewrite Hpf.
      cbn [mbind option_bind parse_exp]. by rewrite app_nil_r.
  - exists (10 ^ len frac). split; [apply Z.pow_pos_nonneg; [lia|apply len_nonneg]|].
    exists (let m := dec_value (uint_bytes d ++ frac) in if neg then - m else m). split.
    + unfold number_rat. destruct neg.
      * change (#"-" ++ body) with ("-"%byte :: body). rewrite eat_cons, Hsp.
        change (eat "."%byte (#"." ++ frac)) with (Some frac). cbv beta iota. rewrite Hfrac. cbv beta iota zeta. by rewrite scale_fraction.
      * cbn [app]. unfold body at 1. rewrite Heat. fold body. rewrite Hsp.
        change (eat "."%byte (#"." ++ frac)) with (Some frac). cbv beta iota. rewrite Hfrac. cbv beta iota zeta. by rewrite scale_fraction.
    + cbv zeta. rewrite dec_value_app, <- Hwv.
      assert (Hs : second = 10 ^ len frac * 10 ^ k).
      { rewrite <- Z.pow_add_r by (try apply len_nonneg; lia). by rewrite Hl. }
      rewrite Hs in *. destruct neg; nia.
Qed.

(** ** Reading a date back *)

(** Years 1 to 9999. *)
Definition date_in_range (t : Time) : Prop := minNumericDate * second ≤ t ≤ maxNumericDate * second.

(** Cancelling a positive factor of an absolute bound. *)
Lemma cancel_abs x b P D : 0 < D → Z.abs (x * D) * P ≤ b * D → Z.abs x * P ≤ b.
Proof. intros HD. rewrite Z.abs_mul, (Z.abs_eq D) by lia. nia. Qed.

(** The error of the product with 10^9 and of the rounding to a nanosecond. *)
Lemma scaled_error frac D m2 e2 :
  0 < D → e2 ≤ 0 →
  2 * Z.abs (m2 * D - frac * second * 2 ^ (- e2)) * 2 ^ (53 - 30) ≤ D * 2 ^ (- e2) →
  Z.abs (Round (m2, e2) * D - frac * second) * 2 ^ 24 ≤ (2 ^ 23 + 1) * D.
Proof.
  intros HD He Herr. pose proof (Round_error m2 e2 He) as Hr.
  assert (HD2 : 0 < 2 ^ (- e2)) by (apply Z.pow_pos_nonneg; lia). set (D2 := 2 ^ (- e2)) in *.
  set (R := Round (m2, e2)) in *. apply (cancel_abs _ _ _ D2); [done|].
  assert (Hsplit : (R * D - frac * second) * D2 = (R * D2 - m2) * D + (m2 * D - frac * second * D2)) by lia.
  rewrite Hsplit. pose proof (Z.abs_triangle ((R * D2 - m2) * D) (m2 * D - frac * second * D2)) as Htri.
  assert (Hr' : Z.abs ((R * D2 - m2) * D) * 2 ≤ D * D2) by (rewrite Z.abs_mul, (Z.abs_eq D) by lia; nia).
  change (2 ^ (53 - 30)) with 8388608 in Herr. change (2 ^ 24) with 16777216. change (2 ^ 23) with 8388608.
  nia.
Qed.

(** Any date in range is read back to within half of the last bit of the float64s
    of its size, and a nanosecond for the rounding to nanoseconds. *)
Lemma dec_numericdate_near t L :
  date_in_range t → 0 ≤ L ≤ 53 → Z.abs t < 2 ^ L * second →
  ∃ r, dec_numericdate (JNum (NumericDate_lit t)) = Ok r ∧
       Z.abs (r - t) * 2 ^ (54 - L) ≤ second + 2 ^ (54 - L).
Proof.
  intros [Hlo Hhi] HL Ht. destruct (NumericDate_lit_number t) as (_ & den & Hden & num & Hnum & Hval).
  unfold dec_numericdate, ParseFloat. rewrite Hnum.
  destruct (to_float_near num den L Hden HL) as (m & e & -> & He & Herr & Hup & Hdown); [unfold second in *; nia|].
  assert (HD : 0 < 2 ^ (- e)) by (apply Z.pow_pos_nonneg; lia).
  specialize (Hup maxNumericDate ltac:(done) ltac:(unfold second in *; nia)).
  specialize (Hdown (- minNumericDate) ltac:(done) ltac:(unfold second in *; nia)).
  unfold float_lt, float_gt, Modf. cbn [fst snd]. rewrite (Z.max_l 0 e), (Z.max_r 0 (- e)) by lia.
  change (2 ^ 0) with 1. rewrite !Z.mul_1_r. set (D := 2 ^ (- e)) in *.
  rewrite (proj2 (Z.ltb_ge m (minNumericDate * D))), (proj2 (Z.ltb_ge (maxNumericDate * D) m)) by lia. cbn [orb].
  pose proof (Z.quot_rem' m D) as Hqr. pose proof (Z.rem_bound_abs m D ltac:(lia)) as Hrem.
  set (q := Z.quot m D) in *. set (frac := Z.rem m D) in *.
  destruct (to_float_near (frac * second) D 30) as (m2 & e2 & -> & He2 & Herr2 & _); [done|done|unfold second; nia|].
  eexists. split; [done|]. pose proof (scaled_error frac D m2 e2 HD He2 Herr2) as Hs.
  set (R := Round (m2, e2)) in *. set (r := q * second + R).
  assert (HP : 2 ^ (54 - L) = 2 * 2 ^ (53 - L)) by (rewrite <- Z.pow_succ_r by lia; f_equal; lia).
  assert (HP0 : 0 < 2 ^ (53 - L)) by (apply Z.pow_pos_nonneg; lia). rewrite HP. set (P := 2 ^ (53 - L)) in *.
  assert (Hfloat : Z.abs (m * second - t * D) * (2 * P) ≤ second * D).
  { apply (cancel_abs _ _ _ den); [done|].
    assert (Heq : (m * second - t * D) * den = (m * den - num * D) * second) by nia.
    rewrite Heq, Z.abs_mul, (Z.abs_eq second) by done. unfold second. nia. }
  assert (Hrd : Z.abs (r * D - m * second) * 2 ^ 24 ≤ (2 ^ 23 + 1) * D).
  { assert (Heq : r * D - m * second = R * D - frac * second) by (unfold r; lia). by rewrite Heq. }
  apply (cancel_abs _ _ _ D); [done|].
  assert (Hsplit : (r - t) * D = (r * D - m * second) + (m * second - t * D)) by lia. rewrite Hsplit.
  pose proof (Z.abs_triangle (r * D - m * second) (m * second - t * D)) as Htri.
  assert (Hone : Z.abs (r * D - m * second) ≤ D) by (change (2 ^ 24) with 16777216 in Hrd; change (2 ^ 23) with 8388608 in Hrd; lia).
  assert (Hone' : Z.abs (r * D - m * second) * (2 * P) ≤ D * (2 * P)) by (apply Z.mul_le_mono_nonneg_r; lia).
  assert (Htri' : Z.abs (r * D - m * second + (m * second - t * D)) * (2 * P) ≤
    (Z.abs (r * D - m * second) + Z.abs (m * second - t * D)) * (2 * P)) by (apply Z.mul_le_mono_nonneg_r; lia).
  rewrite Z.mul_add_distr_r in Htri'. lia.
Qed.

(** A date of whole seconds decodes to itself, exactly within the range. *)
Lemma dec_numericdate_seconds s :
  Z.abs s < 2 ^ 53 →
  dec_numericdate (JNum (NumericDate_lit (s * second))) =
    if (minNumericDate <=? s) && (s <=? maxNumericDate) then Ok (s * second)
    else fail errNumericDateRange.
Proof.
  intros Hs. unfold NumericDate_lit. rewrite Z.mod_mul, Z.div_mul by done. cbn [Z.eqb].
  unfold dec_numericdate. destruct (ParseFloat_FormatInt s Hs) as ([m e] & -> & He & Hm).
  cbn [fst snd] in He, Hm. set (P := 2 ^ (- e)) in *.
  assert (HP : 0 < P) by (apply Z.pow_pos_nonneg; lia).
  assert (Hlt : ∀ z, float_lt (m, e) z = (s <? z)).
  { intros z. unfold float_lt. cbn [fst snd]. rewrite (Z.max_l 0 e), (Z.max_r 0 (- e)) by lia.
    fold P. apply eq_true_iff_eq. rewrite !Z.ltb_lt. nia. }
  assert (Hgt : ∀ z, float_gt (m, e) z = (z <? s)).
  { intros z. unfold float_gt. cbn [fst snd]. rewrite (Z.max_l 0 e), (Z.max_r 0 (- e)) by lia.
    fold P. apply eq_true_iff_eq. rewrite !Z.ltb_lt. nia. }
  rewrite Hlt, Hgt, !Z.ltb_antisym, <- negb_andb.
  destruct ((minNumericDate <=? s) && (s <=? maxNumericDate)); [|done]. cbn [negb].
  unfold Modf. cbn [fst snd]. rewrite (Z.max_l 0 e), (Z.max_r 0 (- e)) by lia. fold P.
  change (2 ^ 0) with 1. rewrite Z.mul_1_r, Hm, Z.quot_mul, Z.rem_mul by lia.
  rewrite Z.mul_0_l. cbn. f_equal. change (Round (0, 0)) with 0. lia.
Qed.

Lemma dec_numericdate_bounds j t :
  dec_numericdate j = Ok t → minNumericDate * second ≤ t ≤ maxNumericDate * second.
Proof.
  destruct j as [| |lit| | |]; try done. unfold dec_numericdate.
  destruct (ParseFloat lit) as [[m e]|]; [|done].
  destruct (float_lt _ _ || float_gt _ _) eqn:Hr; [done|]. apply orb_false_iff in Hr as [Hlo Hhi].
  unfold float_lt, float_gt, Modf in *. cbn [fst snd] in *.
  set (k := Z.max 0 (- e)) in *. set (num := m * 2 ^ Z.max 0 e) in *. bool_prop.
  assert (Hk : 0 ≤ k) by lia.
  assert (HD : 0 < 2 ^ k) by (apply Z.pow_pos_nonneg; lia). set (D := 2 ^ k) in *.
  destruct (to_float _ _) as [f|] eqn:Hf; [|done]. intros [= <-].
  pose proof (Z.quot_rem' num D) as Hqr. pose proof (Z.rem_bound_abs num D ltac:(lia)) as Hrem.
  assert (Hb : Z.abs (Round f) ≤ second).
  { eapply (scaled_bound second (Z.rem num D) k); [done|done|fold D; lia|exact Hf]. }
  assert (H0 : Z.rem num D = 0 → Round f = 0).
  { intros Hz. rewrite Hz in Hf. by injection Hf as <-. }
  pose proof (Z.rem_nonneg num D ltac:(lia)) as Hpos. pose proof (Z.rem_nonpos num D ltac:(lia)) as Hneg.
  assert (Hq : minNumericDate ≤ Z.quot num D ≤ maxNumericDate ∧
    (Z.quot num D = minNumericDate → Z.rem num D = 0) ∧
    (Z.quot num D = maxNumericDate → Z.rem num D = 0)).
  { unfold minNumericDate, maxNumericDate in *.
    revert Hqr Hrem Hpos Hneg Hlo Hhi HD. clear. clearbody D num.
    generalize (Z.quot num D), (Z.rem num D). intros q r Hq ? ? ? ? ? ?.
    split; [nia|]. split; intros ->; lia. }
  unfold minNumericDate, maxNumericDate, second in *. lia.
Qed.

(** Whole seconds within the range of RFC 3339. *)
Definition whole_date (t : Time) : Prop :=
  ∃ s, t = s * second ∧ minNumericDate ≤ s ≤ maxNumericDate.

Lemma dec_whole_date t : whole_date t → dec_numericdate (JNum (NumericDate_lit t)) = Ok t.
Proof.
  intros (s & -> & Hs). unfold minNumericDate, maxNumericDate in *.
  rewrite dec_numericdate_seconds by lia.
  unfold minNumericDate, maxNumericDate.
  by rewrite (proj2 (Z.leb_le _ s)), (proj2 (Z.leb_le s _)) by lia.
Qed.

(** What the decoder makes of an encoded date. *)
Definition read_date (t : Time) : Time :=
  match dec_numericdate (JNum (NumericDate_lit t)) with Ok r => r | Err _ => t end.

Lemma dec_date t : date_in_range t → dec_numericdate (JNum (NumericDate_lit t)) = Ok (read_date t).
Proof.
  intros Ht. destruct (dec_numericdate_near t 38 Ht) as (r & Hr & _); [done| |].
  - destruct Ht. unfold minNumericDate, maxNumericDate, second in *. lia.
  - unfold read_date. by rewrite Hr.
Qed.

Lemma read_date_whole t : whole_date t → read_date t = t.
Proof. intros Ht. unfold read_date. by rewrite dec_whole_date. Qed.

Lemma whole_in_range t : whole_date t → date_in_range t.
Proof. intros (s & -> & Hs). unfold date_in_range, minNumericDate, maxNumericDate, second in *. lia. Qed.

(** Within 15.26 microseconds; within 120 nanoseconds before the year 2038. *)
Lemma read_date_near t :
  date_in_range t →
  Z.abs (read_date t - t) ≤ 15259 ∧ (Z.abs t < 2 ^ 31 * second → Z.abs (read_date t - t) ≤ 120).
Proof.
  intros Ht. assert (Hnear : ∀ L, 0 ≤ L ≤ 53 → Z.abs t < 2 ^ L * second →
    Z.abs (read_date t - t) * 2 ^ (54 - L) ≤ second + 2 ^ (54 - L)).
  { intros L HL Hlt. destruct (dec_numericdate_near t L Ht HL Hlt) as (r & Hr & Hb).
    unfold read_date. by rewrite Hr. }
  split; [|intros H31]; [specialize (Hnear 38)|specialize (Hnear 31)];
    destruct Ht; unfold minNumericDate, maxNumericDate, second in *; cbn in *; lia.
Qed.

(** ** The length of a literal *)

Lemma FormatInt_len z n : 0 ≤ z < 10 ^ n → 1 ≤ n → len (FormatInt z) ≤ n.
Proof.
  intros Hz Hn. destruct (FormatInt_nonneg z) as (d & Hd & Hu); [lia|]. pose proof (FormatInt_value z) as Hv.
  assert (Hm : eat "-"%byte (uint_bytes d) = None) by (by destruct d). rewrite Hd, Hm in Hv. rewrite Hd.
  destruct (unorm_head d Hu) as [->|(c & t & Hc & Hdig & Hz')]; [change (len _) with 1; lia|].
  rewrite Hc in *. destruct Hv as [Hv Hds]. rewrite dec_value_cons in Hv.
  assert (Hhead : 1 ≤ bz c - 48).
  { unfold is_digit in Hdig. bool_prop. assert (bz c ≠ 48); [|lia]. intros Hb. apply Hz'.
    apply bz_inj. by rewrite Hb. }
  pose proof (dec_value_nonneg t ltac:(by cbn in Hds; bool_prop)) as Hpos.
  assert (Hp : 10 ^ len t < 10 ^ n) by (pose proof (len_nonneg t); assert (0 < 10 ^ len t) by (apply Z.pow_pos_nonneg; lia); nia).
  apply Z.pow_lt_mono_r_iff in Hp; [|lia..]. unfold len in *. cbn [length]. lia.
Qed.

(** From 1970 to 9999. *)
Lemma NumericDate_lit_len t : 0 ≤ t < 10 ^ 12 * second → len (NumericDate_lit t) ≤ 22.
Proof.
  intros Ht. destruct (decide (t mod second = 0)) as [Hz|Hz].
  - unfold NumericDate_lit. rewrite Hz. cbn [Z.eqb].
    assert (len (FormatInt (t / second)) ≤ 12); [|lia]. apply FormatInt_len; [|done].
    split; [apply Z.div_pos; [lia|done]|]. apply Z.div_lt_upper_bound; [done|lia].
  - destruct (NumericDate_lit_fraction t Hz) as (neg & whole & frac & k & -> & Hw & Hd & _ & Hk & Hl & Hv).
    pose proof (dec_value_nonneg frac Hd) as Hn. pose proof (Z.pow_nonneg 10 k ltac:(lia)) as Hp.
    assert (Hval : 0 ≤ dec_value frac * 10 ^ k) by (by apply Z.mul_nonneg_nonneg). unfold second in *.
    destruct neg; [assert (t = 0) as -> by lia; done|]. assert (len (FormatInt whole) ≤ 12) by (apply FormatInt_len; lia).
    rewrite !len_app. change (len #".") with 1. change (len []) with 0. lia.
Qed.

(** Whole seconds alone: an encoded date decodes to itself just when it lies
    within years 1 to 9999 and to errNumericDateRange otherwise. *)
Theorem numericdate_exact_bounded :
  (∀ s, Z.abs s < 2 ^ 53 →
     dec_numericdate (JNum (NumericDate_lit (s * second))) =
       if (minNumericDate <=? s) && (s <=? maxNumericDate) then Ok (s * second)
       else fail errNumericDateRange) ∧
  (∀ j t, dec_numericdate j = Ok t → minNumericDate * second ≤ t ≤ maxNumericDate * second).
Proof. split; [apply dec_numericdate_seconds|apply dec_numericdate_bounds]. Qed.

(** C30: NumericDate loses next to nothing to the float64 between encoder and
    decoder: every date of the years 1 to 9999, fractions of a second included,
    is encoded as a JSON number and decodes to a date within 15.26 microseconds
    (120 nanoseconds before 2038), to itself when it is whole; a whole date
    outside those years decodes to errNumericDateRange; and no JSON value
    whatever decodes to a time outside them. *)
Theorem numericdate_read_back :
  (∀ t, date_in_range t →
     num_ok (NumericDate_lit t) ∧
     ∃ r, dec_numericdate (JNum (NumericDate_lit t)) = Ok r ∧ Z.abs (r - t) ≤ 15259 ∧
          (Z.abs t < 2 ^ 31 * second → Z.abs (r - t) ≤ 120) ∧ (t mod second = 0 → r = t)) ∧
  (∀ s, Z.abs s < 2 ^ 53 → ¬ date_in_range (s * second) →
     dec_numericdate (JNum (NumericDate_lit (s * second))) = fail errNumericDateRange) ∧
  (∀ j t, dec_numericdate j = Ok t → date_in_range t).
Proof.
  split; [|split; [|apply dec_numericdate_bounds]].
  - intros t Ht. split; [apply NumericDate_lit_number|]. exists (read_date t).
    split; [by apply dec_date|]. destruct (read_date_near t Ht) as [Hn H31].
    split; [done|]. split; [done|]. intros Hw. apply read_date_whole. exists (t / second).
    pose proof (Z.div_mod t second ltac:(done)) as Hdm. split; [lia|].
    destruct Ht. unfold minNumericDate, maxNumericDate, second in *. lia.
  - intros s Hs Hr. rewrite dec_numericdate_seconds by done.
    destruct ((minNumericDate <=? s) && (s <=? maxNumericDate)) eqn:E; [|done].
    bool_prop. exfalso. apply Hr. unfold date_in_range, second. lia.
Qed.

(** The encoder keeps nanoseconds that the float64 of the decoder cannot hold. *)
Example numericdate_nanoseconds_lost :
  dec_numericdate (JNum (NumericDate_lit (1700000000 * second + 1))) = Ok (1700000000 * second) ∧
  dec_numericdate (JNum (NumericDate_lit (1700000000 * second + 500000000))) =
    Ok (1700000000 * second + 500000000) ∧
  NumericDate_lit (-500000000) = #"-0.5".
Proof. by vm_compute. Qed.
