(* ===== verification/Claims.v ===== *)
(** * Claims: claims.go and header.go, the registered claims and the header

    Dates are those of Dates.v; the JWK of a confirmation is a [Key]. *)

From S2P Require Import Prelude Errors GoLib Utf8 B64 Json StrictJson Float Dates Alg Key.

(** ** StringOrURI *)

Definition isAlpha (c : byte) : bool := is_lower c || is_upper c.
Definition isHex (c : byte) : bool :=
  is_digit c || ((97 <=? bz c) && (bz c <=? 102)) || ((65 <=? bz c) && (bz c <=? 70)).
Definition isURIChar (c : byte) : bool :=
  isAlpha c || is_digit c || bool_decide (c ∈ #"-._~:/?#[]@!$&'()*+,;=").

(** [net/url.Parse]: the scheme of the result, when there is no error. *)
Class URL := { url_Scheme : bytes → option bytes }.

Definition schemeChar (c : byte) : bool :=
  isAlpha c || is_digit c || bool_decide (c ∈ #"+-.").

(** The loop over the octets, skipping the two digits of an escape. *)
Fixpoint uri_octets (s : bytes) : bool :=
  match s with
  | [] => true
  | c :: t =>
      if beq c "%"%byte then
        match t with
        | h :: l :: t => isHex h && isHex l && uri_octets t
        | _ => false
        end
      else isURIChar c && uri_octets t
  end.

Definition ValidateStringOrURI `{URL} (value : bytes) : err_opt :=
  match IndexByte value ":"%byte with
  | None => None
  | Some O => Some [ErrInvalidClaim]
  | Some (S n) =>
      match value with
      | c :: _ =>
          if negb (isAlpha c) then Some [ErrInvalidClaim]
          else if negb (forallb schemeChar (take n (drop 1 value))) then Some [ErrInvalidClaim]
          else if negb (uri_octets value) then Some [ErrInvalidClaim]
          else match url_Scheme value with
               | Some (_ :: _) => None
               | _ => Some [ErrInvalidClaim]
               end
      | [] => Some [ErrInvalidClaim]
      end
  end.

(** ** Audience *)

(** nil is [None]; an empty non-nil audience is [Some []]. *)
Abbreviation Audience := (option (list bytes)).

Definition Audience_json (a : Audience) : json :=
  match a with
  | Some [s] => JStr s
  | Some l => JArr (JStr <$> l)
  | None => JNull
  end.

(** [UnmarshalJSON]. *)
Definition dec_audience (j : json) : res Audience :=
  match j with
  | JNull => Ok None
  | JArr _ => dec_strings j
  | _ => s ← dec_string j; Ok (Some [s])
  end.

Definition Has (a : Audience) (v : bytes) : bool :=
  match a with Some l => bool_decide (v ∈ l) | None => false end.

(** ** The registered claims *)

Record Confirmation := mkConfirmation {
  JWKThumbprint : bytes;
  cnf_JWK : option Key }.

Definition dec_confirmation : json → res Confirmation := dec_struct (mkConfirmation [] None) (λ m,
  jkt ← field m #"jkt" [] dec_string;
  jwk ← field m #"jwk" None (dec_ptr dec_key);
  Ok (mkConfirmation jkt jwk)).

Record RegisteredClaims := mkRegisteredClaims {
  Issuer : bytes;
  Subject : bytes;
  rc_Audience : Audience;
  ExpiresAt : option Time;
  NotBefore : option Time;
  IssuedAt : option Time;
  ID : bytes;
  rc_Confirmation : option Confirmation }.

Definition zero_claims : RegisteredClaims := mkRegisteredClaims [] [] None None None None [] None.

Definition dec_claims_members (m : list (bytes * json)) : res RegisteredClaims :=
  iss ← field m #"iss" [] dec_string;
  sub ← field m #"sub" [] dec_string;
  aud ← field m #"aud" None dec_audience;
  exp ← field m #"exp" None (dec_ptr dec_numericdate);
  nbf ← field m #"nbf" None (dec_ptr dec_numericdate);
  iat ← field m #"iat" None (dec_ptr dec_numericdate);
  jti ← field m #"jti" [] dec_string;
  cnf ← field m #"cnf" None (dec_ptr dec_confirmation);
  Ok (mkRegisteredClaims iss sub aud exp nbf iat jti cnf).

Definition dec_claims : json → res RegisteredClaims := dec_struct zero_claims dec_claims_members.

(** [json.Marshal]; a confirmation key is printed by [Key.MarshalJSON]. *)
Definition omit_json {A} (name : bytes) (enc : A → json) (o : option A) : list (bytes * json) :=
  match o with Some a => [(name, enc a)] | None => [] end.

Definition Key_json (k : Key) : json := JObj (jwk_members (Key_jwk k)).

Definition omit_audience (a : Audience) : list (bytes * json) :=
  match a with None | Some [] => [] | _ => [(#"aud", Audience_json a)] end.

Definition Confirmation_json (c : Confirmation) : json :=
  JObj (omit #"jkt" (JWKThumbprint c) ++ omit_json #"jwk" Key_json (cnf_JWK c)).

Definition claims_members (c : RegisteredClaims) : list (bytes * json) :=
  let date := λ t, JNum (NumericDate_lit t) in
  omit #"iss" (Issuer c) ++ omit #"sub" (Subject c) ++ omit_audience (rc_Audience c) ++
  omit_json #"exp" date (ExpiresAt c) ++ omit_json #"nbf" date (NotBefore c) ++
  omit_json #"iat" date (IssuedAt c) ++ omit #"jti" (ID c) ++
  omit_json #"cnf" Confirmation_json (rc_Confirmation c).

(** ** header.go *)

Record Header := mkHeader {
  h_Algorithm : Algorithm;
  h_Type : bytes;
  h_ContentType : bytes;
  h_KeyID : bytes;
  h_JWKSetURL : bytes;
  h_JWK : option Key;
  h_X509URL : bytes;
  h_X509CertChain : list bytes;
  h_X509CertSHA1 : bytes;
  h_X509CertSHA256 : bytes;
  h_Critical : list bytes;
  h_EncapsulatedKey : bytes;
  h_PreSharedKeyID : bytes }.

(** [Header{Algorithm: alg, Type: typ, ContentType: cty, KeyID: kid}]. *)
Definition simple_header (alg typ cty kid : bytes) : Header :=
  mkHeader alg typ cty kid [] None [] [] [] [] [] [] [].

Definition dec_header_members (m : list (bytes * json)) : res Header :=
  alg ← field m #"alg" [] dec_string;
  typ ← field m #"typ" [] dec_string;
  cty ← field m #"cty" [] dec_string;
  kid ← field m #"kid" [] dec_string;
  jku ← field m #"jku" [] dec_string;
  jwk ← field m #"jwk" None (dec_ptr dec_key);
  x5u ← field m #"x5u" [] dec_string;
  x5c ← default [] <$> field m #"x5c" None dec_strings;
  x5t ← field m #"x5t" [] dec_string;
  x5t2 ← field m #"x5t#S256" [] dec_string;
  crit ← default [] <$> field m #"crit" None dec_strings;
  ek ← field m #"ek" [] dec_string;
  psk ← field m #"psk_id" [] dec_string;
  Ok (mkHeader alg typ cty kid jku jwk x5u x5c x5t x5t2 crit ek psk).

Definition dec_header : json → res Header :=
  dec_struct (simple_header [] [] [] []) dec_header_members.

(** [json.Marshal]: the required "alg" first, the rest with [omitempty]. *)
Definition header_members (h : Header) : list (bytes * json) :=
  [(#"alg", JStr (h_Algorithm h))] ++ omit #"typ" (h_Type h) ++ omit #"cty" (h_ContentType h) ++
  omit #"kid" (h_KeyID h) ++ omit #"jku" (h_JWKSetURL h) ++ omit_json #"jwk" Key_json (h_JWK h) ++
  omit #"x5u" (h_X509URL h) ++ omit_list #"x5c" (h_X509CertChain h) ++
  omit #"x5t" (h_X509CertSHA1 h) ++ omit #"x5t#S256" (h_X509CertSHA256 h) ++
  omit_list #"crit" (h_Critical h) ++ omit #"ek" (h_EncapsulatedKey h) ++
  omit #"psk_id" (h_PreSharedKeyID h).

(** ** Headers and claims round-trip *)

Lemma omit_json_names {A} n (enc : A → json) o : (omit_json n enc o).*1 `sublist_of` [n].
Proof. destruct o; simpl; repeat constructor. Qed.

Lemma assoc_omit_json_ne {A} name n (enc : A → json) o :
  n ≠ name → assoc name (omit_json n enc o) = None.
Proof. intros H. destruct o; [|done]. simpl. by rewrite bool_decide_eq_false_2. Qed.

Lemma assoc_omit_json_eq {A} n (enc : A → json) o : assoc n (omit_json n enc o) = enc <$> o.
Proof. destruct o; [|done]. simpl. by rewrite bool_decide_eq_true_2. Qed.

Lemma assoc_omit_audience_ne name a : #"aud" ≠ name → assoc name (omit_audience a) = None.
Proof. intros H. destruct a as [[|s l]|]; [done| |done]. simpl. by rewrite bool_decide_eq_false_2. Qed.

Lemma assoc_omit_audience_eq a :
  assoc #"aud" (omit_audience a) =
    match a with None | Some [] => None | _ => Some (Audience_json a) end.
Proof. by destruct a as [[|s l]|]. Qed.

Ltac assoc_more := repeat first
  [ progress assoc_simpl
  | rewrite assoc_omit_json_ne by discriminate | rewrite assoc_omit_json_eq
  | rewrite assoc_omit_audience_ne by discriminate | rewrite assoc_omit_audience_eq ].

Lemma dec_omit_read {A} (dec : json → res A) (enc : A → json) (read : A → A) o :
  (∀ a, o = Some a → dec (enc a) = Ok (read a) ∧ enc a ≠ JNull) →
  match enc <$> o with Some j => dec_ptr dec j | None => Ok None end = Ok (read <$> o).
Proof.
  intros Hd. destruct o as [a|]; [|done]. destruct (Hd a eq_refl) as [He Hn].
  cbn [fmap option_fmap option_map]. unfold dec_ptr.
  destruct (enc a); by rewrite ?He.
Qed.

Lemma dec_omit_json {A} (dec : json → res A) (enc : A → json) o :
  (∀ a, o = Some a → dec (enc a) = Ok a ∧ enc a ≠ JNull) →
  match enc <$> o with Some j => dec_ptr dec j | None => Ok None end = Ok o.
Proof. intros Hd. rewrite (dec_omit_read dec enc id o Hd). by destruct o. Qed.

Lemma dec_Audience_json a :
  match match a with None | Some [] => None | _ => Some (Audience_json a) end with
  | Some j => dec_audience j
  | None => Ok None
  end = Ok (match a with Some [] => None | _ => a end).
Proof.
  destruct a as [[|s [|t l]]|]; try done. unfold Audience_json, dec_audience, dec_strings, dec_slice.
  by rewrite dec_all_strings.
Qed.

(** A key whose JSON form decodes to it. *)
Definition jwk_ok (k : Key) : Prop := checkCanonical k = None ∧ key_k k = [].

Lemma dec_Key_json k : jwk_ok k → dec_key (Key_json k) = Ok k.
Proof.
  intros [Hc Hk]. unfold dec_key, Key_json. rewrite dec_jwk_members.
  cbn [mbind result_bind]. unfold key_of_jwk, Key_jwk.
  cbn [j_kty j_kid j_use j_key_ops j_alg j_n j_e j_crv j_x j_y j_k].
  rewrite !dec_enc_material. cbn [mbind result_bind]. change (dec_material []) with (Ok [] : res bytes).
  cbn [mbind result_bind]. rewrite <- Hk. destruct k; simpl in *. by rewrite Hc.
Qed.

Lemma dec_header_members_ok h :
  (∀ k, h_JWK h = Some k → jwk_ok k) → dec_header (JObj (header_members h)) = Ok h.
Proof.
  intros Hk. unfold dec_header, dec_struct, dec_header_members, field, header_members.
  assoc_more. rewrite !dec_omit, !dec_omit_list.
  rewrite dec_omit_json by (intros k Hj; split; [by apply dec_Key_json, Hk|done]).
  by destruct h.
Qed.

Lemma dec_Confirmation_json c :
  (∀ k, cnf_JWK c = Some k → jwk_ok k) → dec_confirmation (Confirmation_json c) = Ok c.
Proof.
  intros Hk. unfold dec_confirmation, dec_struct, field, Confirmation_json.
  assoc_more. rewrite !dec_omit.
  rewrite dec_omit_json by (intros k Hj; split; [by apply dec_Key_json, Hk|done]).
  by destruct c.
Qed.

Definition claims_ok (c : RegisteredClaims) : Prop :=
  (∀ t, t ∈ [ExpiresAt c; NotBefore c; IssuedAt c] → ∀ d, t = Some d → date_in_range d) ∧
  (∀ cnf k, rc_Confirmation c = Some cnf → cnf_JWK cnf = Some k → jwk_ok k).

(** The empty audience is omitted, and comes back absent; dates come back as
    they are read. *)
Definition norm_claims (c : RegisteredClaims) : RegisteredClaims :=
  mkRegisteredClaims (Issuer c) (Subject c)
    (match rc_Audience c with Some [] => None | a => a end)
    (read_date <$> ExpiresAt c) (read_date <$> NotBefore c) (read_date <$> IssuedAt c) (ID c)
    (rc_Confirmation c).

(** The registered claims round-trip through their JSON form: what
    the encoder writes decodes to the same claims, with a single audience as a
    bare string, an empty one as an absent member, and dates as float64 holds
    them. *)
Theorem claims_roundtrip c :
  claims_ok c → dec_claims (JObj (claims_members c)) = Ok (norm_claims c).
Proof.
  intros [Hd Hk]. unfold dec_claims, dec_struct, dec_claims_members, field, claims_members.
  assoc_more. rewrite !dec_omit, dec_Audience_json.
  rewrite !(dec_omit_read _ _ read_date).
  2-4: intros t Ht; split; [|done]; apply dec_date; eapply Hd; [|exact Ht]; set_solver.
  rewrite dec_omit_json.
  - unfold norm_claims. by destruct (rc_Audience c) as [[|]|].
  - intros cnf Hc. split; [|done]. apply dec_Confirmation_json. intros k. by apply Hk.
Qed.

