(* ===== verification/Options.v ===== *)
(** * Options: the sign and parse configuration of jwt.go

    The option interfaces have unexported methods, so their implementations are
    those of the package: inductive types.  A nil option is [None], and is
    skipped.  The clock is modelled by the time it returns: every operation
    reads it once. *)

From S2P Require Import Prelude Errors GoLib Alg Dates Claims.

(** ** Sign options *)

Record signConfig := mkSignConfig { typ : bytes; contentType : bytes }.

Definition DefaultType : bytes := #"JWT".

Inductive SignOption : Type :=
  | SignOptions (Type_ ContentType : bytes)
  | WithType (typ : bytes)
  | WithContentType (cty : bytes).

Definition applySign (o : SignOption) (c : signConfig) : signConfig :=
  match o with
  | SignOptions t ct =>
      let c := if bool_decide (t = []) then c else mkSignConfig t (contentType c) in
      if bool_decide (ct = []) then c else mkSignConfig (typ c) ct
  | WithType t => mkSignConfig t (contentType c)
  | WithContentType ct => mkSignConfig (typ c) ct
  end.

(** The loop over the options, nil ones ignored. *)
Definition apply_all {O C} (apply : O → C → C) (opts : list (option O)) (c : C) : C :=
  fold_left (λ c o, match o with Some o => apply o c | None => c end) opts c.

(** ** Parse options *)

(** [VerifierProvider.LookupVerifier]: an error, or the verifier (possibly nil)
    and whether it was found. *)
Abbreviation VerifierProvider := (Algorithm → bytes → res (option Verifier * bool)).

Record parseConfig := mkParseConfig {
  allowedAlgs : list Algorithm;
  issuer : bytes;
  audience : bytes;
  requiredType : bytes;
  now : Time;
  leeway : Z;
  requiredClaims : list bytes;
  skipAudience : bool;
  verifierProvider : option VerifierProvider;
  rawPayload : bool;
  allowedKeyAlgs : list bytes;
  allowedContentAlgs : list bytes;
  mw_Realm : bytes;
  mw_OnError : bool }.

(** [parseConfig{now: time.Now}]. *)
Definition default_config (clock : Time) : parseConfig :=
  mkParseConfig [] [] [] [] clock 0 [] false None false [] [] [] false.

(** Functional update of the fields options set. *)
Definition set_algs c v := mkParseConfig v (issuer c) (audience c) (requiredType c) (now c) (leeway c) (requiredClaims c) (skipAudience c) (verifierProvider c) (rawPayload c) (allowedKeyAlgs c) (allowedContentAlgs c) (mw_Realm c) (mw_OnError c).
Definition set_issuer c v := mkParseConfig (allowedAlgs c) v (audience c) (requiredType c) (now c) (leeway c) (requiredClaims c) (skipAudience c) (verifierProvider c) (rawPayload c) (allowedKeyAlgs c) (allowedContentAlgs c) (mw_Realm c) (mw_OnError c).
Definition set_audience c v := mkParseConfig (allowedAlgs c) (issuer c) v (requiredType c) (now c) (leeway c) (requiredClaims c) (skipAudience c) (verifierProvider c) (rawPayload c) (allowedKeyAlgs c) (allowedContentAlgs c) (mw_Realm c) (mw_OnError c).
Definition set_type c v := mkParseConfig (allowedAlgs c) (issuer c) (audience c) v (now c) (leeway c) (requiredClaims c) (skipAudience c) (verifierProvider c) (rawPayload c) (allowedKeyAlgs c) (allowedContentAlgs c) (mw_Realm c) (mw_OnError c).
Definition set_now c v := mkParseConfig (allowedAlgs c) (issuer c) (audience c) (requiredType c) v (leeway c) (requiredClaims c) (skipAudience c) (verifierProvider c) (rawPayload c) (allowedKeyAlgs c) (allowedContentAlgs c) (mw_Realm c) (mw_OnError c).
Definition set_leeway c v := mkParseConfig (allowedAlgs c) (issuer c) (audience c) (requiredType c) (now c) v (requiredClaims c) (skipAudience c) (verifierProvider c) (rawPayload c) (allowedKeyAlgs c) (allowedContentAlgs c) (mw_Realm c) (mw_OnError c).
Definition set_required c v := mkParseConfig (allowedAlgs c) (issuer c) (audience c) (requiredType c) (now c) (leeway c) v (skipAudience c) (verifierProvider c) (rawPayload c) (allowedKeyAlgs c) (allowedContentAlgs c) (mw_Realm c) (mw_OnError c).
Definition set_skip c v := mkParseConfig (allowedAlgs c) (issuer c) (audience c) (requiredType c) (now c) (leeway c) (requiredClaims c) v (verifierProvider c) (rawPayload c) (allowedKeyAlgs c) (allowedContentAlgs c) (mw_Realm c) (mw_OnError c).
Definition set_provider c v := mkParseConfig (allowedAlgs c) (issuer c) (audience c) (requiredType c) (now c) (leeway c) (requiredClaims c) (skipAudience c) v (rawPayload c) (allowedKeyAlgs c) (allowedContentAlgs c) (mw_Realm c) (mw_OnError c).
Definition set_keyalgs c v := mkParseConfig (allowedAlgs c) (issuer c) (audience c) (requiredType c) (now c) (leeway c) (requiredClaims c) (skipAudience c) (verifierProvider c) (rawPayload c) v (allowedContentAlgs c) (mw_Realm c) (mw_OnError c).
Definition set_encalgs c v := mkParseConfig (allowedAlgs c) (issuer c) (audience c) (requiredType c) (now c) (leeway c) (requiredClaims c) (skipAudience c) (verifierProvider c) (rawPayload c) (allowedKeyAlgs c) v (mw_Realm c) (mw_OnError c).
Definition set_mw c r e := mkParseConfig (allowedAlgs c) (issuer c) (audience c) (requiredType c) (now c) (leeway c) (requiredClaims c) (skipAudience c) (verifierProvider c) (rawPayload c) (allowedKeyAlgs c) (allowedContentAlgs c) r e.

(** The struct form; a nil Clock is [None]. *)
Record ParseOptions := mkParseOptions {
  o_AllowedAlgorithms : list Algorithm;
  o_AllowedKeyAlgorithms : list bytes;
  o_AllowedContentAlgorithms : list bytes;
  o_Issuer : bytes;
  o_Audience : bytes;
  o_SkipAudienceCheck : bool;
  o_RequiredType : bytes;
  o_RequiredClaims : list bytes;
  o_Leeway : Z;
  o_Clock : option Time;
  o_VerifierProvider : option VerifierProvider }.

Inductive ParseOption : Type :=
  | POptions (o : ParseOptions)
  | WithAllowedAlgorithms (algs : list Algorithm)
  | WithAllowedKeyAlgorithms (algs : list bytes)
  | WithAllowedContentAlgorithms (encs : list bytes)
  | WithIssuer (iss : bytes)
  | WithAudience (aud : bytes)
  | WithoutAudienceCheck
  | WithRequiredType (typ : bytes)
  | WithClock (now : option Time)
  | WithLeeway (d : Z)
  | WithRequiredClaims (names : list bytes)
  | WithVerifierProvider (provider : option VerifierProvider)
  | MiddlewareOptions (Realm : bytes) (OnError : bool).

(** [if o.Field != "" { c.field = o.Field }]. *)
Definition if_set (s : bytes) (set : parseConfig → bytes → parseConfig) (c : parseConfig) :=
  if bool_decide (s = []) then c else set c s.

Definition applyParseOptions (o : ParseOptions) (c : parseConfig) : parseConfig :=
  let c := set_algs c (allowedAlgs c ++ o_AllowedAlgorithms o) in
  let c := set_keyalgs c (allowedKeyAlgs c ++ o_AllowedKeyAlgorithms o) in
  let c := set_encalgs c (allowedContentAlgs c ++ o_AllowedContentAlgorithms o) in
  let c := if_set (o_Issuer o) set_issuer c in
  let c := if_set (o_Audience o) set_audience c in
  let c := if_set (o_RequiredType o) set_type c in
  let c := set_required c (requiredClaims c ++ o_RequiredClaims o) in
  let c := if o_SkipAudienceCheck o then set_skip c true else c in
  let c := if o_Leeway o =? 0 then c else set_leeway c (o_Leeway o) in
  let c := match o_Clock o with Some t => set_now c t | None => c end in
  match o_VerifierProvider o with Some p => set_provider c (Some p) | None => c end.

Definition applyParse (o : ParseOption) (c : parseConfig) : parseConfig :=
  match o with
  | POptions o => applyParseOptions o c
  | WithAllowedAlgorithms algs => set_algs c (allowedAlgs c ++ algs)
  | WithAllowedKeyAlgorithms algs => set_keyalgs c (allowedKeyAlgs c ++ algs)
  | WithAllowedContentAlgorithms encs => set_encalgs c (allowedContentAlgs c ++ encs)
  | WithIssuer iss => set_issuer c iss
  | WithAudience aud => set_audience c aud
  | WithoutAudienceCheck => set_skip c true
  | WithRequiredType t => set_type c t
  | WithClock t => match t with Some t => set_now c t | None => c end
  | WithLeeway d => set_leeway c d
  | WithRequiredClaims names => set_required c (requiredClaims c ++ names)
  | WithVerifierProvider p =>
      match p with Some p => set_provider c (Some p) | None => c end
  | MiddlewareOptions r e =>
      set_mw c (if bool_decide (r = []) then mw_Realm c else r) (mw_OnError c || e)
  end.

(** ** The struct form is the functional options of its non-zero fields *)

Definition when (b : bool) (o : ParseOption) : list (option ParseOption) := if b then [Some o] else [].

Definition functional_form (o : ParseOptions) : list (option ParseOption) :=
  [Some (WithAllowedAlgorithms (o_AllowedAlgorithms o));
   Some (WithAllowedKeyAlgorithms (o_AllowedKeyAlgorithms o));
   Some (WithAllowedContentAlgorithms (o_AllowedContentAlgorithms o))] ++
  when (negb (bool_decide (o_Issuer o = []))) (WithIssuer (o_Issuer o)) ++
  when (negb (bool_decide (o_Audience o = []))) (WithAudience (o_Audience o)) ++
  when (negb (bool_decide (o_RequiredType o = []))) (WithRequiredType (o_RequiredType o)) ++
  [Some (WithRequiredClaims (o_RequiredClaims o))] ++
  when (o_SkipAudienceCheck o) WithoutAudienceCheck ++
  when (negb (o_Leeway o =? 0)) (WithLeeway (o_Leeway o)) ++
  [Some (WithClock (o_Clock o)); Some (WithVerifierProvider (o_VerifierProvider o))].

Lemma apply_all_app {O C} (apply : O → C → C) l l' c :
  apply_all apply (l ++ l') c = apply_all apply l' (apply_all apply l c).
Proof. apply fold_left_app. Qed.

Lemma apply_when b o c : apply_all applyParse (when b o) c = if b then applyParse o c else c.
Proof. by destruct b. Qed.

(** A [ParseOptions] struct "carries exactly the same settings as the
    With* options": in any sequence of options and from any configuration it
    can be replaced by the functional options of its non-zero fields, and nil
    options can be dropped. *)
Theorem options_equivalent pre o post c :
  apply_all applyParse (pre ++ [Some (POptions o)] ++ post) c =
    apply_all applyParse (pre ++ functional_form o ++ post) c ∧
  apply_all applyParse (pre ++ [None] ++ post) c = apply_all applyParse (pre ++ post) c.
Proof.
  rewrite !apply_all_app. split; [|done]. f_equal. unfold functional_form.
  rewrite !apply_all_app, !apply_when. unfold apply_all. cbn [fold_left applyParse].
  generalize (fold_left (λ c o, match o with Some o => applyParse o c | None => c end) pre c).
  intros c'. unfold applyParseOptions, if_set.
  destruct o as [algs kalgs encs iss aud skip ty req lw clk vp]; cbn.
  destruct (bool_decide (iss = [])), (bool_decide (aud = [])), (bool_decide (ty = [])), skip,
    (lw =? 0), clk, vp; reflexivity.
Qed.

(** No exported option asks for the raw payload of a token. *)
Lemma options_keep_raw opts c : rawPayload (apply_all applyParse opts c) = rawPayload c.
Proof.
  revert c. induction opts as [|[o|] opts IH]; intros c; [done| |apply IH].
  change (apply_all applyParse (Some o :: opts) c) with (apply_all applyParse opts (applyParse o c)).
  rewrite IH. destruct o as [o| | | | | | | |[t|]| | |[p|]|]; try done.
  cbn [applyParse]. unfold applyParseOptions, if_set. by repeat case_match.
Qed.
