(* ===== verification/Jws.v ===== *)
(** * Jws: jwt.go, signing and parsing compact tokens

    [parseVerified] calls out to the key provider, the verifier provider, the
    verifier and the clock.  Its model returns the calls it makes, in order,
    with its result: the state of a small writer-and-error monad. *)

From S2P Require Import Prelude Errors GoLib Utf8 B64 Json StrictJson Alg Key KeySet Dates Claims Options.

Definition maxTokenBytes : Z := Z.shiftl 1 20.

(** ** Calls to the outside *)

Inductive event : Type :=
  | EvLookup (kid : bytes)
  | EvLookupVerifier (alg kid : bytes)
  | EvVerify (msg sig : bytes)
  | EvClock
  | EvDecrypt (compact : bytes).

Definition io (A : Type) : Type := list event * res A.

#[export] Instance io_ret : MRet io := λ A a, ([], Ok a).
#[export] Instance io_bind : MBind io := λ A B k m,
  match m with
  | (t, Ok a) => let '(t', r) := k a in (t ++ t', r)
  | (t, Err e) => (t, Err e)
  end.

(** A pure step, and a step that calls out. *)
Definition lift {A} (r : res A) : io A := ([], r).
Definition call {A} (e : event) (r : res A) : io A := ([e], r).
Definition guard_err (e : err_opt) : res () := match e with Some e => Err e | None => Ok () end.

Definition result_of {A} (m : io A) : res A := snd m.
Definition trace_of {A} (m : io A) : list event := fst m.

Lemma io_bind_Ok {A B} (m : io A) (k : A → io B) b :
  result_of (m ≫= k) = Ok b ↔ ∃ a, result_of m = Ok a ∧ result_of (k a) = Ok b.
Proof.
  destruct m as [t [a|e]]; cbn.
  - destruct (k a) as [t' r] eqn:E. cbn. split; [exists a|intros (? & [= <-] & ?)]; by rewrite ?E in *.
  - split; [done|naive_solver].
Qed.

Lemma io_bind_trace {A B} (m : io A) (k : A → io B) :
  trace_of (m ≫= k) =
    trace_of m ++ match result_of m with Ok a => trace_of (k a) | Err _ => [] end.
Proof. destruct m as [t [a|e]]; cbn; [by destruct (k a)|by rewrite app_nil_r]. Qed.

(** ** Small functions *)

(** [split3]: the three segments between exactly two dots. *)
Definition split3 (s : bytes) : option (bytes * bytes * bytes) :=
  i ← IndexByte s "."%byte;
  let t := drop (S i) s in
  j ← IndexByte t "."%byte;
  match IndexByte (drop (S j) t) "."%byte with
  | Some _ => None
  | None => Some (take i s, take j t, drop (S j) t)
  end.

Definition is_none (a : bytes) : bool := bool_decide (a = []) || EqualFold a #"none".

Definition withoutNone (algs : list bytes) : list bytes := filter (λ a, is_none a = false) algs.

Definition containsAlg (algs : list Algorithm) (want : Algorithm) : bool :=
  bool_decide (want ∈ algs).

(** [-d] on a time.Duration, which wraps at the minimum. *)
Definition neg_duration (d : Z) : Z := if d =? - two63 then d else - d.

Section Types.
Context `{Unicode}.

Definition norm_type (s : bytes) : bytes :=
  ToLower (if ContainsByte s "/"%byte then s else #"application/" ++ s).

Definition typeMatches (got want : bytes) : bool :=
  negb (bool_decide (got = [])) && negb (bool_decide (want = [])) &&
  bool_decide (norm_type got = norm_type want).
End Types.

(** ** Sign *)

Section Sign.
Context `{Crypto}.

(** The header [Sign] emits. *)
Definition signed_header (s : Signer) (opts : list (option SignOption)) : Header :=
  let cfg := apply_all applySign opts (mkSignConfig DefaultType []) in
  simple_header (Signer_Algorithm s) (typ cfg) (contentType cfg) (Signer_KeyID s).

(** [payload] is the outcome of [json.Marshal(claims)]. *)
Definition Sign (payload : res bytes) (signer : option Signer) (opts : list (option SignOption)) :
    res bytes :=
  match signer with
  | None => fail ErrUnsupportedAlgorithm
  | Some signer =>
      let alg := Signer_Algorithm signer in
      if is_none alg then fail ErrAlgorithmNotAllowed
      else
        let headerJSON := print (JObj (header_members (signed_header signer opts))) in
        payloadJSON ← payload;
        _ ← map_err (wrap ErrInvalidClaims) (decodeObject dec_map payloadJSON);
        let signingInput := Encode headerJSON ++ #"." ++ Encode payloadJSON in
        sig ← Sign_with signer signingInput;
        Ok (signingInput ++ #"." ++ Encode sig)
  end.
End Sign.

(** ** Parse *)

(** One algorithm identity: "EdDSA" counts as "Ed25519". *)
Definition alg_identity (a : Algorithm) : Algorithm :=
  if bool_decide (a = EdDSA) then Ed25519 else a.

Section Parse.
Context `{Crypto, Unicode}.

Definition validateClaims (raw : bytes) (rc : RegisteredClaims) (header : Header)
    (cfg : parseConfig) : err_opt :=
  let now := now cfg in
  if match ExpiresAt rc with
     | Some exp => negb (now + neg_duration (leeway cfg) <? exp)
     | None => false
     end then Some [ErrExpired]
  else if match NotBefore rc with
          | Some nbf => now + leeway cfg <? nbf
          | None => false
          end then Some [ErrNotYetValid]
  else if negb (bool_decide (issuer cfg = [])) && negb (bool_decide (Issuer rc = issuer cfg))
  then Some [ErrIssuerMismatch]
  else if
    (if negb (bool_decide (audience cfg = []))
     then negb (Has (rc_Audience rc) (audience cfg))
     else match rc_Audience rc with Some _ => negb (skipAudience cfg) | None => false end)
  then Some [ErrAudienceMismatch]
  else if negb (bool_decide (requiredType cfg = [])) &&
          negb (typeMatches (h_Type header) (requiredType cfg))
  then Some [ErrTypeMismatch]
  else if 0 <? len (requiredClaims cfg) then
    match decodeObject dec_map raw with
    | Err e => Some (wrap ErrMalformedToken e)
    | Ok present =>
        if forallb (λ name, match assoc name present with
                            | None | Some JNull => false
                            | Some _ => true
                            end) (requiredClaims cfg)
        then None else Some [ErrMissingClaim]
    end
  else None.

Definition lookupVerifier (provider : VerifierProvider) (header : Header) : res Verifier :=
  match provider (h_Algorithm header) (h_KeyID header) with
  | Err e => Err (wrap ErrVerifierProvider e)
  | Ok (None, _) | Ok (_, false) => fail ErrKeyNotFound
  | Ok (Some verifier, true) =>
      if negb (sameAlgorithm (Verifier_Algorithm verifier) (h_Algorithm header))
      then fail ErrKeyUsage
      else if negb (bool_decide (h_KeyID header = [])) &&
              negb (bool_decide (Verifier_KeyID verifier = h_KeyID header))
      then fail ErrKeyUsage
      else Ok verifier
  end.

(** The loop, with the identities seen and the number of compatible ones. *)
Fixpoint unambiguous_loop (key : Key) (seen : list Algorithm) (compatible : Z)
    (allowed : list Algorithm) : err_opt :=
  match allowed with
  | [] => None
  | alg :: allowed =>
      let identity := alg_identity alg in
      if bool_decide (identity ∈ seen) then unambiguous_loop key seen compatible allowed
      else
        let seen := identity :: seen in
        match verifierForAlg key alg with
        | Ok _ =>
            let compatible := compatible + 1 in
            if 1 <? compatible then Some [ErrKeyUsage]
            else unambiguous_loop key seen compatible allowed
        | Err _ => unambiguous_loop key seen compatible allowed
        end
  end.

Definition requireUnambiguousKeyAlgorithm (key : Key) (allowed : list Algorithm) : err_opt :=
  if negb (bool_decide (KeyAlg key = [])) then None
  else unambiguous_loop key [] 0 allowed.

(** The branch that finds the verifier. *)
Definition findVerifier (keys : option KeyProvider) (cfg : parseConfig)
    (allowed : list Algorithm) (header : Header) : io Verifier :=
  match verifierProvider cfg with
  | Some provider =>
      call (EvLookupVerifier (h_Algorithm header) (h_KeyID header)) (lookupVerifier provider header)
  | None =>
      match keys with
      | None => lift (fail ErrKeyNotFound)
      | Some lookup =>
          found ← call (EvLookup (h_KeyID header))
                    (map_err (wrap ErrKeyProvider) (lookup (h_KeyID header)));
          match found with
          | None => lift (fail ErrKeyNotFound)
          | Some key =>
              lift (check (requireUnambiguousKeyAlgorithm key allowed)
                      (verifierForAlg key (h_Algorithm header)))
          end
      end
  end.

(** Everything [parseVerified] checks before it calls anyone: the header, the
    payload, the signature and the signing input. *)
Definition checkToken (token : bytes) (allowed : list Algorithm) :
    res (Header * bytes * bytes * bytes) :=
  if len allowed =? 0 then fail ErrNoAllowedAlgorithms
  else if maxTokenBytes <? len token then fail ErrMalformedToken
  else match split3 token with
  | None => fail ErrMalformedToken
  | Some (h, p, s) =>
      headerJSON ← map_err (λ _, [ErrMalformedToken]) (Decode h);
      header ← map_err (wrap ErrMalformedToken) (decodeObject dec_header headerJSON);
      members ← headerMembers headerJSON;
      check (checkCritical members)
      (if is_none (h_Algorithm header) then fail ErrAlgorithmNotAllowed
       else if negb (containsAlg allowed (h_Algorithm header)) then fail ErrAlgorithmNotAllowed
       else
         payloadJSON ← map_err (λ _, [ErrMalformedToken]) (Decode p);
         sig ← map_err (λ _, [ErrMalformedToken]) (Decode s);
         Ok (header, payloadJSON, sig, h ++ #"." ++ p))
  end.

(** The verified header and payload. *)
Definition parseVerified (token : bytes) (keys : option KeyProvider) (cfg : parseConfig) :
    io (Header * bytes) :=
  let allowed := withoutNone (allowedAlgs cfg) in
  '(header, payloadJSON, sig, input) ← lift (checkToken token allowed);
  verifier ← findVerifier keys cfg allowed header;
  _ ← call (EvVerify input sig)
        (guard_err (wrap ErrInvalidSignature <$> Verify_with verifier input sig));
  if rawPayload cfg then mret (header, payloadJSON)
  else
    reg ← lift (map_err (wrap ErrMalformedToken) (decodeObject dec_claims payloadJSON));
    _ ← call EvClock (guard_err (validateClaims payloadJSON reg header cfg));
    mret (header, payloadJSON).

(** A destination pointer is nil or holds a value; the result is the value it
    holds afterwards and the error. *)
Definition decodeFreshObject {C} (unmarshal : bytes → res C) (data : bytes) (dst : option C) :
    option C * err_opt :=
  match dst with
  | None => (None, Some [ErrInvalidDestination])
  | Some old =>
      match decodeObjectInto unmarshal data with
      | Ok fresh => (Some fresh, None)
      | Err e => (Some old, Some e)
      end
  end.

Definition Parse {C} (unmarshal : bytes → res C) (clock : Time) (token : bytes) (dst : option C)
    (keys : option KeyProvider) (opts : list (option ParseOption)) :
    list event * (option C * err_opt) :=
  match dst with
  | None => ([], (None, Some [ErrInvalidDestination]))
  | Some _ =>
      let cfg := apply_all applyParse opts (default_config clock) in
      match parseVerified token keys cfg with
      | (t, Err e) => (t, (dst, Some e))
      | (t, Ok (_, payloadJSON)) =>
          let '(dst, err) := decodeFreshObject unmarshal payloadJSON dst in
          (t, (dst, wrap ErrMalformedToken <$> err))
      end
  end.

Definition ParseInsecure {C} (unmarshal : bytes → res C) (token : bytes) (dst : option C) :
    option C * err_opt :=
  match dst with
  | None => (None, Some [ErrInvalidDestination])
  | Some _ =>
      if maxTokenBytes <? len token then (dst, Some [ErrMalformedToken])
      else match split3 token with
           | None => (dst, Some [ErrMalformedToken])
           | Some (_, payload, _) =>
               match Decode payload with
               | Err _ => (dst, Some [ErrMalformedToken])
               | Ok payloadJSON =>
                   let '(dst, err) := decodeFreshObject unmarshal payloadJSON dst in
                   (dst, wrap ErrMalformedToken <$> err)
               end
           end
  end.
End Parse.

(** ** Compact serialization *)

Lemma split3_Some s a b c :
  split3 s = Some (a, b, c) ↔
  s = a ++ #"." ++ b ++ #"." ++ c ∧ "."%byte ∉ a ∧ "."%byte ∉ b ∧ "."%byte ∉ c.
Proof.
  change (#"." ++ b ++ #"." ++ c) with ("."%byte :: b ++ "."%byte :: c). unfold split3. split.
  - destruct (IndexByte s "."%byte) as [i|] eqn:Hi; [|done]. cbn [mbind option_bind].
    destruct (IndexByte (drop (S i) s) "."%byte) as [j|] eqn:Hj; [|done]. cbn [mbind option_bind].
    destruct (IndexByte (drop (S j) _) "."%byte) eqn:Hk; [done|]. intros [= <- <- <-].
    apply IndexByte_Some in Hi as (x & y & -> & Hx & ->). rewrite drop_sep in *.
    apply IndexByte_Some in Hj as (z & w & -> & Hz & ->). rewrite drop_sep in *.
    apply IndexByte_None in Hk. by rewrite !take_sep.
  - intros (-> & Ha & Hb & Hc). rewrite IndexByte_app by done. cbn [mbind option_bind].
    rewrite drop_sep, IndexByte_app by done. cbn [mbind option_bind].
    rewrite drop_sep, (proj2 (IndexByte_None _ _) Hc), !take_sep. done.
Qed.

(** The compact form of three octet strings. *)
Definition compact (h p s : bytes) : bytes := Encode h ++ #"." ++ Encode p ++ #"." ++ Encode s.

Lemma compact_eq h p s : (Encode h ++ #"." ++ Encode p) ++ #"." ++ Encode s = compact h p s.
Proof. unfold compact. by rewrite <- !app_assoc. Qed.

Lemma split3_compact h p s : split3 (compact h p s) = Some (Encode h, Encode p, Encode s).
Proof. apply split3_Some. split; [done|]. auto using Encode_no_dot. Qed.

Lemma compact_inj h p s h' p' s' : compact h p s = compact h' p' s' → h = h' ∧ p = p' ∧ s = s'.
Proof.
  intros H. pose proof (split3_compact h p s) as Hs. rewrite H, split3_compact in Hs.
  injection Hs as Hh Hp Ht. auto using Encode_inj.
Qed.

Lemma is_none_empty : is_none [] = true.
Proof. done. Qed.

Lemma elem_withoutNone a algs : a ∈ withoutNone algs ↔ a ∈ algs ∧ is_none a = false.
Proof. unfold withoutNone. rewrite list_elem_of_filter. naive_solver. Qed.

(** ** What the syntactic checks establish *)

(** The token is the compact form of a header object, a payload and a
    signature; the header has no "crit" and names an allowed algorithm. *)
Record well_formed (token : bytes) (allowed : list Algorithm) (headerJSON : bytes)
    (header : Header) (payload sig : bytes) : Prop := {
  wf_compact : token = compact headerJSON payload sig;
  wf_size : len token ≤ maxTokenBytes;
  wf_header : ∃ m, parse headerJSON = Ok (JObj m) ∧ dec_header (JObj m) = Ok header ∧
                   #"crit" ∉ m.*1;
  wf_alg : h_Algorithm header ∈ allowed;
  wf_not_none : is_none (h_Algorithm header) = false }.

Lemma checkToken_Ok token allowed header payload sig input :
  checkToken token allowed = Ok (header, payload, sig, input) ↔
  ∃ headerJSON, well_formed token allowed headerJSON header payload sig ∧
    input = Encode headerJSON ++ #"." ++ Encode payload.
Proof.
  unfold checkToken. split.
  - destruct (len allowed =? 0); [done|]. destruct (_ <? len token) eqn:Hl; [done|]. bool_prop.
    destruct (split3 token) as [[[h p] s]|] eqn:Hs; [|done].
    intros (hj & Hh%map_err_Ok & H)%bind_Ok.
    apply bind_Ok in H as (hdr & Hhdr & H). apply map_err_Ok in Hhdr.
    apply bind_Ok in H as (m & Hm & H). unfold headerMembers in Hm. apply map_err_Ok in Hm.
    apply check_Ok in H as [Hc H].
    destruct (is_none (h_Algorithm hdr)) eqn:Hn; [done|].
    destruct (containsAlg allowed (h_Algorithm hdr)) eqn:Ha; [|done]. cbn [negb] in H.
    apply bind_Ok in H as (pj & Hp%map_err_Ok & H). apply bind_Ok in H as (sg & Hsg%map_err_Ok & H).
    injection H as <- <- <- <-. apply split3_Some in Hs as (-> & _).
    apply Decode_Some in Hh as ->, Hp as ->, Hsg as ->.
    exists hj. split; [|done].
    apply decodeObject_Ok in Hhdr as (m1 & Hp1 & Hd1).
    apply decodeObject_Ok in Hm as (m2 & Hp2 & Hd2). rewrite Hp1 in Hp2. injection Hp2 as <-.
    injection Hd2 as <-. rewrite checkCritical_crit in Hc.
    split; [done|lia| |by apply bool_decide_eq_true in Ha|done].
    exists m1. split; [done|]. split; [done|]. by case_bool_decide.
  - intros (hj & [-> Hl (m & Hp & Hd & Hc) Ha Hn] & ->).
    rewrite (proj2 (Z.eqb_neq (len allowed) 0)).
    2:{ intros ->%len_nil_inv. by apply elem_of_nil in Ha. }
    rewrite (proj2 (Z.ltb_ge _ _)), split3_compact by done.
    rewrite !Decode_Encode_ok. cbn [map_err mbind result_bind].
    unfold headerMembers, containsAlg.
    rewrite (proj2 (decodeObject_Ok dec_header hj header)) by eauto.
    rewrite (proj2 (decodeObject_Ok dec_map hj m)) by (by exists m).
    cbn [map_err mbind result_bind]. rewrite checkCritical_crit, bool_decide_eq_false_2 by done.
    cbn [check]. by rewrite Hn, bool_decide_eq_true_2.
Qed.

(** ** How the verifier is chosen *)

(** Either the verifier provider answers with a verifier for the token's
    algorithm and kid, or the key provider answers with a key that permits the
    algorithm unambiguously. *)
Inductive resolves `{Crypto} (keys : option KeyProvider) (cfg : parseConfig)
    (allowed : list Algorithm) (header : Header) (v : Verifier) : Prop :=
  | resolves_provider (p : VerifierProvider) :
      verifierProvider cfg = Some p →
      p (h_Algorithm header) (h_KeyID header) = Ok (Some v, true) →
      sameAlgorithm (Verifier_Algorithm v) (h_Algorithm header) = true →
      (h_KeyID header = [] ∨ Verifier_KeyID v = h_KeyID header) →
      resolves keys cfg allowed header v
  | resolves_key (lookup : KeyProvider) (key : Key) :
      verifierProvider cfg = None → keys = Some lookup →
      lookup (h_KeyID header) = Ok (Some key) →
      requireUnambiguousKeyAlgorithm key allowed = None →
      verifierForAlg key (h_Algorithm header) = Ok v →
      resolves keys cfg allowed header v.

Lemma findVerifier_Ok `{Crypto} keys cfg allowed header v :
  result_of (findVerifier keys cfg allowed header) = Ok v ↔ resolves keys cfg allowed header v.
Proof.
  unfold findVerifier. split.
  - destruct (verifierProvider cfg) as [p|] eqn:Hp.
    + cbn. unfold lookupVerifier. intros Hv.
      destruct (p _ _) as [[[w|] []]|] eqn:Hpv; try done.
      destruct (sameAlgorithm _ _) eqn:Hs; [|done]. cbn [negb] in Hv.
      destruct (_ && _) eqn:Hk; [done|]. injection Hv as ->.
      eapply resolves_provider; [done|done|done|].
      apply andb_false_iff in Hk. rewrite !negb_false_iff, !bool_decide_eq_true in Hk. done.
    + destruct keys as [lookup|]; [|done]. cbn.
      destruct (lookup (h_KeyID header)) as [[key|]|] eqn:Hl; cbn; [|done..].
      rewrite check_Ok. intros [Hu Hv]. by eapply resolves_key.
  - intros [p Hp Hpv Hs Hk|lookup key Hp -> Hl Hu Hv].
    + rewrite Hp. cbn. unfold lookupVerifier. rewrite Hpv, Hs. cbn [negb].
      destruct Hk as [Hk|Hk]; rewrite (bool_decide_eq_true_2 _ Hk); [done|].
      cbn [negb]. by rewrite andb_false_r.
    + rewrite Hp. cbn. rewrite Hl. cbn. by rewrite Hu.
Qed.

(** ** What the claims must satisfy *)

Section Accepts.
Context `{Crypto, Unicode}.

Record claims_valid (raw : bytes) (rc : RegisteredClaims) (header : Header) (cfg : parseConfig) :
    Prop := {
  cv_exp : ∀ t, ExpiresAt rc = Some t → now cfg + neg_duration (leeway cfg) < t;
  cv_nbf : ∀ t, NotBefore rc = Some t → t ≤ now cfg + leeway cfg;
  cv_iss : issuer cfg = [] ∨ Issuer rc = issuer cfg;
  cv_aud : audience cfg ≠ [] → ∃ l, rc_Audience rc = Some l ∧ audience cfg ∈ l;
  cv_noaud : audience cfg = [] → rc_Audience rc = None ∨ skipAudience cfg = true;
  cv_typ : requiredType cfg = [] ∨ typeMatches (h_Type header) (requiredType cfg) = true;
  cv_required : ∀ name, name ∈ requiredClaims cfg →
    ∃ m j, parse raw = Ok (JObj m) ∧ (name, j) ∈ m ∧ j ≠ JNull }.

Definition required_present (cfg : parseConfig) (m : list (bytes * json)) : bool :=
  forallb (λ name, match assoc name m with None | Some JNull => false | Some _ => true end)
    (requiredClaims cfg).

Lemma required_present_spec raw cfg m :
  parse raw = Ok (JObj m) →
  required_present cfg m = true ↔
  ∀ name, name ∈ requiredClaims cfg →
    ∃ m j, parse raw = Ok (JObj m) ∧ (name, j) ∈ m ∧ j ≠ JNull.
Proof.
  intros Hp. pose proof (parse_wf _ _ Hp) as [[Hnd _]%wf_obj _].
  unfold required_present. rewrite forallb_forall. split; intros Hr name Hin.
  - apply list_elem_of_In in Hin. specialize (Hr _ Hin).
    destruct (assoc name m) as [j|] eqn:Ha; [|done]. exists m, j.
    split; [done|]. split; [by apply assoc_elem|by destruct j].
  - apply list_elem_of_In in Hin. destruct (Hr _ Hin) as (m' & j & Hp' & Hj & Hn).
    rewrite Hp in Hp'. injection Hp' as <-. rewrite (assoc_NoDup _ _ _ Hnd Hj). by destruct j.
Qed.

Lemma validateClaims_None raw rc header cfg m :
  parse raw = Ok (JObj m) →
  validateClaims raw rc header cfg = None ↔ claims_valid raw rc header cfg.
Proof.
  intros Hp. unfold validateClaims.
  set (bexp := match ExpiresAt rc with Some _ => _ | None => _ end).
  set (bnbf := match NotBefore rc with Some _ => _ | None => _ end).
  set (biss := negb _ && negb (bool_decide (Issuer rc = issuer cfg))).
  set (baud := if negb (bool_decide (audience cfg = [])) then _ else _).
  set (btyp := negb _ && negb (typeMatches _ _)).
  assert (Hexp : bexp = false ↔ ∀ t, ExpiresAt rc = Some t → now cfg + neg_duration (leeway cfg) < t).
  { unfold bexp. destruct (ExpiresAt rc) as [t|]; [|naive_solver].
    rewrite negb_false_iff, Z.ltb_lt. naive_solver. }
  assert (Hnbf : bnbf = false ↔ ∀ t, NotBefore rc = Some t → t ≤ now cfg + leeway cfg).
  { unfold bnbf. destruct (NotBefore rc) as [t|]; [|naive_solver]. rewrite Z.ltb_ge. naive_solver. }
  assert (Hiss : biss = false ↔ issuer cfg = [] ∨ Issuer rc = issuer cfg).
  { unfold biss. by rewrite andb_false_iff, !negb_false_iff, !bool_decide_eq_true. }
  assert (Haud : baud = false ↔
    (audience cfg ≠ [] → ∃ l, rc_Audience rc = Some l ∧ audience cfg ∈ l) ∧
    (audience cfg = [] → rc_Audience rc = None ∨ skipAudience cfg = true)).
  { unfold baud, Has. case_bool_decide as Ha; cbn [negb]; destruct (rc_Audience rc) as [l|].
    - rewrite negb_false_iff. naive_solver.
    - naive_solver.
    - rewrite negb_false_iff, bool_decide_eq_true. naive_solver.
    - naive_solver. }
  assert (Htyp : btyp = false ↔ requiredType cfg = [] ∨ typeMatches (h_Type header) (requiredType cfg) = true).
  { unfold btyp. by rewrite andb_false_iff, !negb_false_iff, bool_decide_eq_true. }
  assert (Hreq : (if 0 <? len (requiredClaims cfg) then
      match decodeObject dec_map raw with
      | Err e => Some (wrap ErrMalformedToken e)
      | Ok present => if required_present cfg present then None else Some [ErrMissingClaim]
      end else None) = None ↔
    ∀ name, name ∈ requiredClaims cfg → ∃ m j, parse raw = Ok (JObj m) ∧ (name, j) ∈ m ∧ j ≠ JNull).
  { rewrite <- (required_present_spec raw cfg m) by done.
    rewrite (proj2 (decodeObject_Ok dec_map raw m)) by (by exists m).
    destruct (requiredClaims cfg) as [|n ns] eqn:Hr; [by unfold required_present; rewrite Hr|].
    rewrite (proj2 (Z.ltb_lt 0 _)) by (unfold len; simpl; lia).
    by destruct (required_present cfg m). }
  unfold required_present in Hreq.
  split.
  - intros Hv. destruct bexp; [done|]. destruct bnbf; [done|]. destruct biss; [done|].
    destruct baud; [done|]. destruct btyp; [done|].
    destruct (proj1 Haud eq_refl). by split; [apply Hexp|apply Hnbf|apply Hiss| | |apply Htyp|apply Hreq].
  - intros [He Hn Hi Ha1 Ha2 Ht Hr].
    rewrite (proj2 Hexp He), (proj2 Hnbf Hn), (proj2 Hiss Hi), (proj2 Haud (conj Ha1 Ha2)), (proj2 Htyp Ht).
    by apply Hreq.
Qed.

(** C6: on a JSON object, [validateClaims] passes exactly when now,
    less the leeway, is before "exp"; now plus the leeway is not before "nbf";
    the issuer is the configured one; the audience names the configured
    recipient (or, with none configured, there is no "aud" at all unless the
    check is skipped); the type matches; and every required claim is present
    and not null. *)
Theorem validateClaims_spec raw rc header cfg m :
  parse raw = Ok (JObj m) →
  validateClaims raw rc header cfg = None ↔ claims_valid raw rc header cfg.
Proof. apply validateClaims_None. Qed.

(** ** What Parse accepts *)

(** The verified part: a well-formed token, a verifier found for it, and a
    signature the verifier accepts over the encoded header and payload. *)
Definition verified (token : bytes) (keys : option KeyProvider) (cfg : parseConfig)
    (header : Header) (payload : bytes) (v : Verifier) : Prop :=
  ∃ headerJSON sig,
    well_formed token (withoutNone (allowedAlgs cfg)) headerJSON header payload sig ∧
    resolves keys cfg (withoutNone (allowedAlgs cfg)) header v ∧
    Verify_with v (Encode headerJSON ++ #"." ++ Encode payload) sig = None.

Definition accepted (token : bytes) (keys : option KeyProvider) (cfg : parseConfig)
    (header : Header) (payload : bytes) : Prop :=
  (∃ v, verified token keys cfg header payload v) ∧
  (rawPayload cfg = true ∨
   ∃ reg, decodeObject dec_claims payload = Ok reg ∧ claims_valid payload reg header cfg).

Lemma guard_err_Ok e u : guard_err e = Ok u ↔ e = None.
Proof. destruct e, u; naive_solver. Qed.

Lemma parseVerified_Ok token keys cfg header payload :
  result_of (parseVerified token keys cfg) = Ok (header, payload) ↔
  accepted token keys cfg header payload.
Proof.
  unfold parseVerified, accepted, verified. set (allowed := withoutNone (allowedAlgs cfg)).
  assert (Hclaims : ∀ reg h p, decodeObject dec_claims p = Ok reg →
    validateClaims p reg h cfg = None ↔ claims_valid p reg h cfg).
  { intros reg h p (m & Hp & _)%decodeObject_Ok. by eapply validateClaims_None. }
  split.
  - intros ([[[h p] sig] input] & Hc & Hr)%io_bind_Ok. cbn [result_of lift snd] in Hc.
    apply checkToken_Ok in Hc as (hj & Hwf & ->).
    apply io_bind_Ok in Hr as (v & Hv%findVerifier_Ok & Hr).
    apply io_bind_Ok in Hr as (u & Hu & Hr). cbn [result_of call snd] in Hu.
    apply guard_err_Ok, fmap_None in Hu.
    destruct (rawPayload cfg) eqn:Hraw.
    + injection Hr as <- <-. split; [by exists v, hj, sig|by left].
    + apply io_bind_Ok in Hr as (reg & Hreg & Hr). cbn [result_of lift snd] in Hreg.
      apply map_err_Ok in Hreg. apply io_bind_Ok in Hr as (u' & Hu' & Hr).
      cbn [result_of call snd] in Hu'. apply guard_err_Ok, (Hclaims _ _ _ Hreg) in Hu'.
      injection Hr as <- <-. split; [by exists v, hj, sig|]. right. by exists reg.
  - intros ((v & hj & sig & Hwf & Hv & Hs) & Hcl).
    apply io_bind_Ok. exists (header, payload, sig, Encode hj ++ #"." ++ Encode payload).
    split; [apply checkToken_Ok; by exists hj|].
    apply io_bind_Ok. exists v. split; [by apply findVerifier_Ok|].
    apply io_bind_Ok. exists (). split; [by rewrite Hs|].
    destruct Hcl as [->|(reg & Hreg & Hval)]; [done|].
    destruct (rawPayload cfg); [done|].
    apply io_bind_Ok. exists reg. split; [by cbn; rewrite Hreg|].
    apply io_bind_Ok. exists (). split; [|done]. cbn.
    by rewrite (proj2 (Hclaims _ _ _ Hreg) Hval).
Qed.

(** C1: [parseVerified] accepts exactly the right tokens: the ones that
    are the canonical compact form of a header object, a payload and a
    signature, within the size limit, without "crit", with an "alg" in the
    allowlist that is not "none"; for which a verifier is found by kid alone;
    whose signature that verifier accepts over the encoded header and payload
    as received; and whose claims set, unless the payload is raw, is a valid
    object. *)
Theorem parse_accepts token keys cfg header payload :
  result_of (parseVerified token keys cfg) = Ok (header, payload) ↔
  accepted token keys cfg header payload.
Proof. apply parseVerified_Ok. Qed.
End Accepts.

(** ** What Parse calls, and when *)

Section Calls.
Context `{Crypto, Unicode}.

(** The call that asks for the verifier. *)
Definition ask (cfg : parseConfig) (header : Header) : event :=
  match verifierProvider cfg with
  | Some _ => EvLookupVerifier (h_Algorithm header) (h_KeyID header)
  | None => EvLookup (h_KeyID header)
  end.

(** A provider to ask is configured. *)
Definition asks (keys : option KeyProvider) (cfg : parseConfig) : Prop :=
  verifierProvider cfg ≠ None ∨ keys ≠ None.

(** The calls made for a well-formed token, each list in exactly one case:
    none when no provider is configured; the question alone when it does not
    resolve to a verifier; the question and one verification when the signature
    is refused, the payload is raw or is no claims object; and, last, one
    reading of the clock when it is one. *)
Inductive calls (keys : option KeyProvider) (cfg : parseConfig) (header : Header)
    (payload input sig : bytes) : list event → Prop :=
  | calls_none : ¬ asks keys cfg → calls keys cfg header payload input sig []
  | calls_ask :
      asks keys cfg →
      (¬ ∃ v, resolves keys cfg (withoutNone (allowedAlgs cfg)) header v) →
      calls keys cfg header payload input sig [ask cfg header]
  | calls_verify v :
      resolves keys cfg (withoutNone (allowedAlgs cfg)) header v →
      (Verify_with v input sig ≠ None ∨ rawPayload cfg = true ∨
       ¬ ∃ reg, decodeObject dec_claims payload = Ok reg) →
      calls keys cfg header payload input sig [ask cfg header; EvVerify input sig]
  | calls_clock v reg :
      resolves keys cfg (withoutNone (allowedAlgs cfg)) header v →
      Verify_with v input sig = None → rawPayload cfg = false →
      decodeObject dec_claims payload = Ok reg →
      calls keys cfg header payload input sig [ask cfg header; EvVerify input sig; EvClock].

Lemma trace_findVerifier keys cfg allowed header :
  trace_of (findVerifier keys cfg allowed header) =
    match verifierProvider cfg, keys with None, None => [] | _, _ => [ask cfg header] end.
Proof.
  unfold findVerifier, ask. destruct (verifierProvider cfg); [done|].
  destruct keys as [lookup|]; [|done]. rewrite io_bind_trace. cbn.
  destruct (lookup _) as [[key|]|]; done.
Qed.

Lemma resolves_asks keys cfg allowed header v : resolves keys cfg allowed header v → asks keys cfg.
Proof. intros [p Hp|lk key _ ->]; [left|right]; congruence. Qed.

(** The trace of the first question: it is asked when a provider is there. *)
Lemma trace_asks keys cfg allowed header :
  asks keys cfg → trace_of (findVerifier keys cfg allowed header) = [ask cfg header].
Proof. rewrite trace_findVerifier. unfold asks. destruct (verifierProvider cfg), keys; naive_solver. Qed.

Lemma trace_not_asks keys cfg allowed header :
  ¬ asks keys cfg → trace_of (findVerifier keys cfg allowed header) = [].
Proof. rewrite trace_findVerifier. unfold asks. destruct (verifierProvider cfg), keys; naive_solver. Qed.

(** The calls made once the token is known to be well formed. *)
Lemma calls_checked token keys cfg h p sig input :
  checkToken token (withoutNone (allowedAlgs cfg)) = Ok (h, p, sig, input) →
  calls keys cfg h p input sig (trace_of (parseVerified token keys cfg)).
Proof.
  intros Hc. unfold parseVerified. rewrite Hc.
  rewrite io_bind_trace. cbn [trace_of lift fst result_of snd app]. rewrite io_bind_trace.
  set (allowed := withoutNone (allowedAlgs cfg)).
  destruct (result_of (findVerifier keys cfg allowed h)) as [v|e] eqn:Hf.
  - apply findVerifier_Ok in Hf. rewrite (trace_asks _ _ _ _ (resolves_asks _ _ _ _ _ Hf)).
    rewrite io_bind_trace. cbn [trace_of call fst result_of snd].
    destruct (Verify_with v input sig) as [e|] eqn:Hs.
    { eapply calls_verify; [done|]. left. by rewrite Hs. }
    cbn [fmap option_fmap option_map guard_err].
    destruct (rawPayload cfg) eqn:Hraw; [eapply calls_verify; [done|by right; left]|].
    rewrite io_bind_trace. cbn [trace_of lift fst result_of snd app].
    destruct (decodeObject dec_claims p) as [reg|e] eqn:Hd; cbn [map_err].
    2:{ eapply calls_verify; [done|]. do 2 right. intros [reg Hr]. congruence. }
    rewrite io_bind_trace. cbn [trace_of call fst result_of snd].
    destruct (guard_err _); by eapply calls_clock.
  - assert (Hno : ¬ ∃ v, resolves keys cfg allowed h v).
    { intros [v Hv%findVerifier_Ok]. congruence. }
    rewrite app_nil_r.
    destruct (decide (verifierProvider cfg = None ∧ keys = None)) as [[Hv Hk]|Ha].
    + assert (¬ asks keys cfg) by (unfold asks; naive_solver).
      rewrite trace_not_asks by done. by apply calls_none.
    + assert (asks keys cfg) by (unfold asks; destruct (verifierProvider cfg), keys; naive_solver).
      rewrite trace_asks by done. by apply calls_ask.
Qed.

(** C4: every check on attacker-controlled input is done before anyone is
    called, and every call is made that the rest needs.  A token that is not
    well formed is refused without any call.  For a well-formed one, provided
    that a key or verifier provider is configured, it is asked exactly once,
    with the algorithm and the kid of the header; the signature is then
    verified exactly when the answer resolves to a verifier, once, over the
    encoded header and payload; and the clock is read exactly when, further,
    the signature is accepted and the payload is not raw and is a claims
    object.  With no provider at all there is no call. *)
Theorem parse_calls token keys cfg :
  ((¬ ∃ headerJSON header payload sig,
      well_formed token (withoutNone (allowedAlgs cfg)) headerJSON header payload sig) ∧
   ∃ e, parseVerified token keys cfg = ([], Err e)) ∨
  ∃ headerJSON header payload sig,
    well_formed token (withoutNone (allowedAlgs cfg)) headerJSON header payload sig ∧
    calls keys cfg header payload (Encode headerJSON ++ #"." ++ Encode payload) sig
      (trace_of (parseVerified token keys cfg)).
Proof.
  destruct (checkToken token (withoutNone (allowedAlgs cfg))) as [[[[h p] sig] input]|e] eqn:Hc.
  - right. pose proof (calls_checked token keys cfg _ _ _ _ Hc) as Hcalls.
    apply checkToken_Ok in Hc as (hj & Hwf & ->). by exists hj, h, p, sig.
  - left. split.
    + intros (hj & h & p & sig & Hwf).
      assert (checkToken token (withoutNone (allowedAlgs cfg)) =
        Ok (h, p, sig, Encode hj ++ #"." ++ Encode p)) by (apply checkToken_Ok; by exists hj).
      congruence.
    + exists e. unfold parseVerified. by rewrite Hc.
Qed.

(** C5: an unsecured token is never accepted nor does it reach a callback,
    whatever the allowlist holds ("none" included, in any case). *)
Theorem none_rejected headerJSON payload sig header keys cfg :
  decodeObject dec_header headerJSON = Ok header → is_none (h_Algorithm header) = true →
  ∃ e, parseVerified (compact headerJSON payload sig) keys cfg = ([], Err e).
Proof.
  intros Hd Hn. unfold parseVerified.
  destruct (checkToken _ _) as [[[[h p] s] input]|e] eqn:Hc; [|by exists e].
  apply checkToken_Ok in Hc as (hj & [Hcp _ (m & Hp & Hdm & _) _ Hnn] & _).
  apply compact_inj in Hcp as (-> & _ & _).
  rewrite (proj2 (decodeObject_Ok dec_header hj h)) in Hd by eauto. injection Hd as ->. congruence.
Qed.

(** ** Destinations are updated atomically *)

Lemma decodeFresh_atomic {C} (unmarshal : bytes → res C) data old :
  match decodeFreshObject unmarshal data (Some old) with
  | (dst, None) => ∃ c, dst = Some c ∧ decodeObjectInto unmarshal data = Ok c
  | (dst, Some _) => dst = Some old
  end.
Proof. unfold decodeFreshObject. destruct (decodeObjectInto unmarshal data) eqn:E; eauto. Qed.

(** [Parse] and [ParseInsecure] assign the destination only on
    success: an error leaves it as it was, and a nil error means that it holds
    exactly the decoded payload (of a verified token, for [Parse]). *)
Theorem parse_atomic {C} (unmarshal : bytes → res C) clock token dst keys opts :
  let cfg := apply_all applyParse opts (default_config clock) in
  match snd (Parse unmarshal clock token dst keys opts) with
  | (dst', Some _) => dst' = dst
  | (dst', None) => ∃ c header payload, dst' = Some c ∧ dst ≠ None ∧
      accepted token keys cfg header payload ∧ decodeObjectInto unmarshal payload = Ok c
  end ∧
  match ParseInsecure unmarshal token dst with
  | (dst', Some _) => dst' = dst
  | (dst', None) => ∃ c h payload s, dst' = Some c ∧ dst ≠ None ∧
      split3 token = Some (h, Encode payload, s) ∧ decodeObjectInto unmarshal payload = Ok c
  end.
Proof.
  intros cfg. split.
  - unfold Parse. destruct dst as [old|]; [|done]. fold cfg.
    destruct (parseVerified token keys cfg) as [t [[h p]|e]] eqn:Hp; [|done].
    pose proof (decodeFresh_atomic unmarshal p old) as Hd.
    destruct (decodeFreshObject unmarshal p (Some old)) as [d [e|]]; cbn [snd fmap option_fmap option_map]; [done|].
    destruct Hd as (c & -> & Hc). exists c, h, p. split; [done|]. split; [done|]. split; [|done].
    apply parseVerified_Ok. unfold result_of. by rewrite Hp.
  - unfold ParseInsecure. destruct dst as [old|]; [|done].
    destruct (_ <? len token); [done|]. destruct (split3 token) as [[[h p] s]|]; [|done].
    destruct (Decode p) as [pj|] eqn:Hp; [|done]. apply Decode_Some in Hp as ->.
    pose proof (decodeFresh_atomic unmarshal pj old) as Hd.
    destruct (decodeFreshObject unmarshal pj (Some old)) as [d [e|]]; cbn [fmap option_fmap option_map]; [done|].
    destruct Hd as (c & -> & Hc). by exists c, h, pj, s.
Qed.
End Calls.

(** ** One key, one algorithm *)

Section Unambiguous.
Context `{Crypto}.

(** The algorithms of a list that the key can verify. *)
Definition compatible (key : Key) (a : Algorithm) : bool := is_ok (verifierForAlg key a).

(** "EdDSA" and "Ed25519" are served by the same keys. *)
Lemma compatible_identity key a b :
  KeyAlg key = [] → alg_identity a = alg_identity b → compatible key a = compatible key b.
Proof.
  intros Hk Hab. assert (a = b ∨ (FamilyOf a = FamilyEdDSA ∧ FamilyOf b = FamilyEdDSA)) as [->|[Ha Hb]];
    [|done|].
  { unfold alg_identity in Hab. rewrite !family_EdDSA.
    repeat case_bool_decide; subst; auto. }
  unfold compatible, verifierForAlg. rewrite Ha, Hb.
  assert (Hp : permitsVerify key a = permitsVerify key b).
  { unfold permitsVerify. by rewrite (bool_decide_eq_true_2 _ Hk). }
  rewrite Hp. destruct (permitsVerify key b); [done|]. cbn [check].
  case_bool_decide; [|done]. cbn [negb].
  destruct (Key_PublicKey key) as [pub|]; [|done]. cbn [mbind result_bind].
  apply family_EdDSA in Ha, Hb. destruct pub as [| |pk]; [done..|].
  unfold NewEd25519VerifierFor. destruct Ha as [->| ->], Hb as [->| ->]; cbn;
    by destruct (len pk =? _).
Qed.

Lemma unambiguous_loop_None key allowed : ∀ seen n,
  KeyAlg key = [] → 0 ≤ n ≤ 1 →
  unambiguous_loop key seen n allowed = None ↔
  (∀ a b, a ∈ allowed → b ∈ allowed → alg_identity a ∉ seen → alg_identity b ∉ seen →
     compatible key a = true → compatible key b = true → alg_identity a = alg_identity b) ∧
  (n = 1 → ∀ a, a ∈ allowed → alg_identity a ∉ seen → compatible key a = false).
Proof.
  induction allowed as [|x allowed IH]; intros seen n Hk Hn; cbn [unambiguous_loop].
  { split; [|done]. intros _. split; [by intros ? ? ?%elem_of_nil|by intros _ ? ?%elem_of_nil]. }
  case_bool_decide as Hs.
  { rewrite IH by done. split; intros [H1 H2].
    - split.
      + intros a b [->|?]%elem_of_cons [->|?]%elem_of_cons; naive_solver.
      + intros H1n a [->|?]%elem_of_cons; naive_solver.
    - split; [intros; apply H1; try done; by right|intros H1n a ?; apply H2; [done|by right]]. }
  assert (Hsame : ∀ a, alg_identity a = alg_identity x → compatible key a = compatible key x)
    by (intros; by apply compatible_identity).
  unfold compatible in Hsame. destruct (verifierForAlg key x) as [v|e] eqn:Hv.
  - assert (Hcx : compatible key x = true) by (unfold compatible; by rewrite Hv).
    destruct (1 <? n + 1) eqn:Hn1; bool_prop.
    + split; [done|]. intros [_ H2]. rewrite H2 in Hcx; [done|lia|by left|done].
    + assert (n = 0) as -> by lia. rewrite IH by (done || lia). split.
      * intros [_ H2]. split; [|done].
        assert (Hall : ∀ a, a ∈ x :: allowed → alg_identity a ∉ seen → compatible key a = true →
          alg_identity a = alg_identity x).
        { intros a [->|Ha]%elem_of_cons Hsa Hca; [done|].
          destruct (decide (alg_identity a = alg_identity x)) as [|Hne]; [done|].
          rewrite H2 in Hca; [done|lia|done|]. rewrite not_elem_of_cons. done. }
        intros a b ? ? ? ? ? ?. by rewrite (Hall a), (Hall b).
      * intros [H1 _]. split.
        -- intros a b Ha Hb Hsa Hsb. rewrite not_elem_of_cons in Hsa, Hsb.
           intros. apply H1; try done; try (by right); naive_solver.
        -- intros _ a Ha Hsa. rewrite not_elem_of_cons in Hsa. destruct Hsa as [Hne Hsa].
           apply not_true_iff_false. intros Hca. apply Hne.
           apply H1; try done; [by right|by left].
  - assert (Hcx : compatible key x = false) by (unfold compatible; by rewrite Hv).
    assert (Hno : ∀ a, alg_identity a = alg_identity x → compatible key a = false).
    { intros a Ha. rewrite <- Hcx. by apply compatible_identity. }
    rewrite IH by done. split; intros [H1 H2].
    + assert (Hin : ∀ a, a ∈ x :: allowed → compatible key a = true → alg_identity a ∉ seen →
        a ∈ allowed ∧ alg_identity a ∉ alg_identity x :: seen).
      { intros a Ha Hca Hsa. rewrite not_elem_of_cons.
        assert (alg_identity a ≠ alg_identity x) by (intros Heq; by rewrite Hno in Hca).
        apply elem_of_cons in Ha as [->|Ha]; [done|]. done. }
      split.
      * intros a b Ha Hb Hsa Hsb Hca Hcb.
        destruct (Hin a), (Hin b); try done. by apply H1.
      * intros Hn1 a Ha Hsa. destruct (compatible key a) eqn:Hca; [|done].
        destruct (Hin a); try done. by rewrite H2 in Hca.
    + split.
      * intros a b Ha Hb Hsa Hsb. rewrite not_elem_of_cons in Hsa, Hsb.
        intros. apply H1; try (by right); naive_solver.
      * intros Hn1 a Ha Hsa. rewrite not_elem_of_cons in Hsa. apply H2; [done|by right|naive_solver].
Qed.

(** A key that names its algorithm is always unambiguous; any other
    key is accepted exactly when all the allowlisted algorithms it could
    verify are one and the same (counting EdDSA as Ed25519). *)
Theorem requireUnambiguous_spec key allowed :
  requireUnambiguousKeyAlgorithm key allowed = None ↔
  KeyAlg key ≠ [] ∨
  ∀ a b, a ∈ allowed → b ∈ allowed → compatible key a = true → compatible key b = true →
    alg_identity a = alg_identity b.
Proof.
  unfold requireUnambiguousKeyAlgorithm. case_bool_decide as Hk; cbn [negb].
  - rewrite unambiguous_loop_None by (done || lia). split.
    + intros [H1 _]. right. intros. apply H1; try done; apply not_elem_of_nil.
    + intros [?|H1]; [done|]. split; [|done]. intros. by apply H1.
  - split; [by left|done].
Qed.
End Unambiguous.

(** ** Sign then Parse *)

Lemma simple_header_members alg typ cty kid :
  header_members (simple_header alg typ cty kid) =
    [(#"alg", JStr alg)] ++ omit #"typ" typ ++ omit #"cty" cty ++ omit #"kid" kid.
Proof. unfold header_members. cbn. by rewrite app_nil_r. Qed.

Lemma simple_header_wf alg typ cty kid :
  utf8_strings [alg; typ; cty; kid] →
  wf (JObj (header_members (simple_header alg typ cty kid))) ∧
  depth (JObj (header_members (simple_header alg typ cty kid))) ≤ maxNestingDepth ∧
  #"crit" ∉ (header_members (simple_header alg typ cty kid)).*1.
Proof.
  intros Hu. unfold utf8_strings in Hu. rewrite !list.Forall_cons in Hu.
  destruct Hu as (Ha & Ht & Hc & Hk & _). rewrite simple_header_members.
  assert (Hsub : ([(#"alg", JStr alg)] ++ omit #"typ" typ ++ omit #"cty" cty ++ omit #"kid" kid).*1
    `sublist_of` [ #"alg"; #"typ"; #"cty"; #"kid"]).
  { apply names_app; [done|]. repeat (apply names_app; [apply omit_names|]). apply omit_names. }
  destruct (obj_wf 1 ([(#"alg", JStr alg)] ++ omit #"typ" typ ++ omit #"cty" cty ++ omit #"kid" kid))
    as [Hw Hd].
  - done.
  - eapply sublist_NoDup; [|exact Hsub]. apply (bool_decide_unpack _). by vm_compute.
  - apply list.Forall_app_2; [by apply list.Forall_singleton|].
    apply list.Forall_app_2; [by apply omit_wf|]. apply list.Forall_app_2; by apply omit_wf.
  - split; [done|]. split; [unfold maxNestingDepth; lia|].
    intros Hin. assert (Hin' : #"crit" ∈ [ #"alg"; #"typ"; #"cty"; #"kid"]).
    { eapply sublist_subseteq; done. }
    revert Hin'. apply (bool_decide_unpack _). by vm_compute.
Qed.

Section RoundTrip.
Context `{CryptoLaws, Unicode}.

Definition header_utf8 (h : Header) : Prop :=
  utf8_strings [h_Algorithm h; h_Type h; h_ContentType h; h_KeyID h].

Lemma Sign_Ok payload s opts token :
  Sign (Ok payload) (Some s) opts = Ok token ↔
  is_none (Signer_Algorithm s) = false ∧
  (∃ m, decodeObject dec_map payload = Ok m) ∧
  let headerJSON := print (JObj (header_members (signed_header s opts))) in
  ∃ sig, Sign_with s (Encode headerJSON ++ #"." ++ Encode payload) = Ok sig ∧
    token = compact headerJSON payload sig.
Proof.
  unfold Sign. cbn [mbind result_bind]. split.
  - destruct (is_none _); [done|]. intros (m & Hm%map_err_Ok & Hs)%bind_Ok.
    apply bind_Ok in Hs as (sig & Hs & Ht%Ok_inj). split; [done|]. split; [by exists m|].
    exists sig. split; [done|]. rewrite <- Ht. apply compact_eq.
  - intros (-> & (m & Hm) & sig & Hs & ->). rewrite Hm. cbn [map_err mbind result_bind].
    rewrite Hs. exact (f_equal Ok (compact_eq _ _ _)).
Qed.

(** A signed token is accepted where its algorithm is allowed, the keys resolve the
    signer's counterpart and its claims are valid. *)
Lemma sign_accepted payload s v sopts token keys cfg reg :
  let header := signed_header s sopts in
  Sign (Ok payload) (Some s) sopts = Ok token →
  counterpart s v → header_utf8 header → len token ≤ maxTokenBytes →
  h_Algorithm header ∈ allowedAlgs cfg →
  resolves keys cfg (withoutNone (allowedAlgs cfg)) header v →
  decodeObject dec_claims payload = Ok reg → claims_valid payload reg header cfg →
  accepted token keys cfg header payload.
Proof.
  intros header (Hn & _ & sig & Hs & ->)%Sign_Ok Hcp Hu Hl Ha Hv Hreg Hval.
  destruct (simple_header_wf _ _ _ _ Hu) as (Hw & Hd & Hcrit).
  split; [|right; by exists reg]. exists v. eexists _, sig. split; [|split; [done|]].
  - split; [done|done| |by apply elem_withoutNone|done].
    exists (header_members header). split; [by apply parse_print|]. split; [|done].
    apply dec_header_members_ok. by intros k.
  - eapply sign_verify; done.
Qed.

(** [Parse] decodes what is accepted. *)
Lemma accepted_parse {C} (unmarshal : bytes → res C) clock token keys popts old header payload c :
  accepted token keys (apply_all applyParse popts (default_config clock)) header payload →
  decodeObjectInto unmarshal payload = Ok c →
  snd (Parse unmarshal clock token (Some old) keys popts) = (Some c, None).
Proof.
  intros Hacc Hc. apply parseVerified_Ok in Hacc. unfold Parse.
  destruct (parseVerified _ keys _) as [t r] eqn:Hp. unfold result_of in Hacc. cbn in Hacc. subst r.
  unfold decodeFreshObject. by rewrite Hc.
Qed.

Lemma sign_then_parse {C} (unmarshal : bytes → res C) clock payload s v sopts token keys popts old c reg :
  let cfg := apply_all applyParse popts (default_config clock) in
  let header := signed_header s sopts in
  Sign (Ok payload) (Some s) sopts = Ok token →
  counterpart s v → header_utf8 header → len token ≤ maxTokenBytes →
  h_Algorithm header ∈ allowedAlgs cfg →
  resolves keys cfg (withoutNone (allowedAlgs cfg)) header v →
  decodeObject dec_claims payload = Ok reg → claims_valid payload reg header cfg →
  decodeObjectInto unmarshal payload = Ok c →
  snd (Parse unmarshal clock token (Some old) keys popts) = (Some c, None).
Proof.
  intros cfg header Hs Hcp Hu Hl Ha Hv Hreg Hval Hc.
  eapply accepted_parse; [by eapply sign_accepted|done].
Qed.

(** C3: what [Sign] produces, [Parse] reads back: for any signer and the
    verifier of its public counterpart, a signed claims set is accepted (given
    that the algorithm is allowed, the verifier is the one resolved and the
    claims are valid) and the destination holds the decoded claims. *)
Theorem sign_parse_roundtrip {C} (unmarshal : bytes → res C) clock payload s v sopts token keys popts old c reg :
  let cfg := apply_all applyParse popts (default_config clock) in
  let header := signed_header s sopts in
  Sign (Ok payload) (Some s) sopts = Ok token →
  counterpart s v → header_utf8 header → len token ≤ maxTokenBytes →
  h_Algorithm header ∈ allowedAlgs cfg →
  resolves keys cfg (withoutNone (allowedAlgs cfg)) header v →
  decodeObject dec_claims payload = Ok reg → claims_valid payload reg header cfg →
  decodeObjectInto unmarshal payload = Ok c →
  snd (Parse unmarshal clock token (Some old) keys popts) = (Some c, None).
Proof. apply sign_then_parse. Qed.
End RoundTrip.
