(* ===== verification/Heap.v ===== *)
(** * Heap: container/heap, as revoke.go uses it

    The binary heap of the standard library on a slice, with its loops [up] and
    [down] as written; the element order is by an integer key (an expiry time).
    Fuel is the slice length, which bounds the depth of both loops. *)

From S2P Require Import Prelude.

Section Heap.
Context {A : Type} (key : A → Z).

(** [h.Less(i, j)] and [h.Swap(i, j)]; indices out of range do not occur. *)
Definition Less (h : list A) (i j : nat) : bool :=
  match h !! i, h !! j with
  | Some a, Some b => key a <? key b
  | _, _ => false
  end.

Definition Swap (h : list A) (i j : nat) : list A :=
  match h !! i, h !! j with
  | Some a, Some b => <[j := a]> (<[i := b]> h)
  | _, _ => h
  end.

Definition parent (j : nat) : nat := ((j - 1) / 2)%nat.

Fixpoint up (fuel : nat) (h : list A) (j : nat) : list A :=
  match fuel with
  | O => h
  | S fuel =>
      let i := parent j in
      if bool_decide (i = j) || negb (Less h j i) then h
      else up fuel (Swap h i j) i
  end.

Fixpoint down (fuel : nat) (h : list A) (i n : nat) : list A :=
  match fuel with
  | O => h
  | S fuel =>
      let j1 := (2 * i + 1)%nat in
      if bool_decide (n <= j1)%nat then h
      else
        let j2 := (j1 + 1)%nat in
        let j := if bool_decide (j2 < n)%nat && Less h j2 j1 then j2 else j1 in
        if negb (Less h j i) then h
        else down fuel (Swap h i j) j n
  end.

(** The loop of [Init], from [i - 1] to 0. *)
Fixpoint init_loop (h : list A) (i : nat) : list A :=
  match i with
  | O => h
  | S i => init_loop (down (length h) h i (length h)) i
  end.

Definition Init (h : list A) : list A := init_loop h (length h / 2).

Definition Push (h : list A) (x : A) : list A :=
  let h := h ++ [x] in up (length h) h (length h - 1).

(** The minimum and the remaining heap; an empty heap panics. *)
Definition Pop (h : list A) : option (A * list A) :=
  match length h with
  | O => None
  | S n =>
      let h := down (length h) (Swap h 0 n) 0 n in
      match h !! n with
      | Some x => Some (x, take n h)
      | None => None
      end
  end.

(** ** Keys by position *)

Definition kat (h : list A) (i : nat) : Z :=
  match h !! i with Some a => key a | None => 0 end.

Lemma Less_kat h i j :
  (i < length h)%nat → (j < length h)%nat → Less h i j = (kat h i <? kat h j).
Proof.
  intros [a Ha]%lookup_lt_is_Some [b Hb]%lookup_lt_is_Some.
  unfold Less, kat. by rewrite Ha, Hb.
Qed.

Lemma Swap_spec h i j :
  (i < length h)%nat → (j < length h)%nat →
  length (Swap h i j) = length h ∧ Swap h i j ≡ₚ h ∧
  ∀ k, kat (Swap h i j) k =
    if decide (k = j) then kat h i else if decide (k = i) then kat h j else kat h k.
Proof.
  intros Hi Hj. pose proof Hi as [a Ha]%lookup_lt_is_Some. pose proof Hj as [b Hb]%lookup_lt_is_Some.
  unfold Swap. rewrite Ha, Hb. split; [by rewrite !length_insert|]. split.
  - by apply Permutation_insert_swap.
  - intros k. unfold kat. destruct (decide (k = j)) as [->|Hkj].
    + by rewrite list_lookup_insert_eq, Ha by (by rewrite length_insert).
    + rewrite list_lookup_insert_ne by done. destruct (decide (k = i)) as [->|Hki].
      * by rewrite list_lookup_insert_eq, Hb.
      * by rewrite list_lookup_insert_ne.
Qed.

Lemma parent_lt j : (0 < j)%nat → (parent j < j)%nat.
Proof. intros. unfold parent. apply Nat.Div0.div_lt_upper_bound. lia. Qed.

Lemma parent_children c i : (0 < c)%nat → parent c = i ↔ c = (2 * i + 1)%nat ∨ c = (2 * i + 2)%nat.
Proof.
  intros Hc. unfold parent. pose proof (Nat.div_mod_eq (c - 1) 2).
  pose proof (Nat.mod_upper_bound (c - 1) 2 ltac:(lia)). lia.
Qed.

Lemma parent_self j : parent j = j ↔ j = 0%nat.
Proof.
  split; [|by intros ->]. intros H. destruct (decide (j = 0%nat)); [done|].
  pose proof (parent_lt j). lia.
Qed.

(** Every parent at or after [lo] is at most its children before [n]. *)
Definition ordered (lo n : nat) (h : list A) : Prop :=
  ∀ c, (0 < c < n)%nat → (lo <= parent c)%nat → kat h (parent c) ≤ kat h c.

(** The order holds but for the pair above [j]; what is above [j] is still at
    most what is below it. *)
Definition up_pre (h : list A) (j : nat) : Prop :=
  ∀ c, (0 < c < length h)%nat →
    (c ≠ j → kat h (parent c) ≤ kat h c) ∧
    (parent c = j → (0 < j)%nat → kat h (parent j) ≤ kat h c).

Lemma up_spec fuel : ∀ h j,
  (j < length h)%nat → (j < fuel)%nat → up_pre h j →
  ordered 0 (length h) (up fuel h j) ∧ up fuel h j ≡ₚ h.
Proof.
  induction fuel as [|fuel IH]; intros h j Hj Hf Hpre; [lia|]. cbn [up].
  case_bool_decide as Hself; cbn [orb].
  - apply parent_self in Hself as ->. split; [|done]. intros c Hc _. apply Hpre; lia.
  - assert (Hj0 : (0 < j)%nat) by (rewrite parent_self in Hself; lia).
    pose proof (parent_lt j Hj0) as Hp. rewrite Less_kat by lia.
    destruct (kat h j <? kat h (parent j)) eqn:Hl; bool_prop; cbn [negb].
    + destruct (Swap_spec h (parent j) j ltac:(lia) Hj) as (Hlen & Hperm & Hk).
      destruct (IH (Swap h (parent j) j) (parent j)) as [Ho Hp']; [lia|lia| |].
      * intros c Hc. rewrite Hlen in Hc. pose proof (parent_lt c ltac:(lia)).
        rewrite !Hk. destruct (Hpre c Hc) as [Hc1 Hc2]. split.
        -- intros Hcp. destruct (decide (c = j)) as [->|Hcj].
           ++ rewrite decide_False, decide_True by lia. lia.
           ++ destruct (decide (parent c = j)) as [Hpj|Hpj].
              ** rewrite (decide_False (P := c = parent j)) by lia. apply Hc2; lia.
              ** destruct (decide (parent c = parent j)) as [He|He].
                 --- rewrite (decide_False (P := c = parent j)) by done. rewrite He in Hc1. specialize (Hc1 Hcj). lia.
                 --- rewrite decide_False by done. auto.
        -- intros Hpc Hp0. destruct (Hpre (parent j) ltac:(lia)) as [Hpp _].
           assert (Hpj : parent (parent j) ≠ j) by (pose proof (parent_lt (parent j)); lia).
           assert (Hpj' : parent (parent j) ≠ parent j) by (rewrite parent_self; lia).
           rewrite (decide_False (P := parent (parent j) = j)), (decide_False (P := parent (parent j) = parent j)) by done.
           specialize (Hpp ltac:(lia)).
           destruct (decide (c = j)) as [->|Hcj]; [lia|].
           destruct (decide (c = parent j)) as [->|Hcp]; [lia|].
           specialize (Hc1 Hcj). rewrite Hpc in Hc1. lia.
      * rewrite Hlen in Ho. split; [done|]. by rewrite Hp'.
    + split; [|done]. intros c Hc _. destruct (decide (c = j)) as [->|]; [lia|]. by apply Hpre.
Qed.

(** The order holds from [lo] on but for the pairs below [i]. *)
Definition down_pre (lo n : nat) (h : list A) (i : nat) : Prop :=
  ∀ c, (0 < c < n)%nat →
    ((lo <= parent c)%nat → parent c ≠ i → kat h (parent c) ≤ kat h c) ∧
    (parent c = i → (0 < i)%nat → (lo <= parent i)%nat → kat h (parent i) ≤ kat h c).

Lemma down_spec lo n fuel : ∀ h i,
  (n <= length h)%nat → (lo <= i)%nat → (n <= i + fuel)%nat → down_pre lo n h i →
  ordered lo n (down fuel h i n) ∧ down fuel h i n ≡ₚ h ∧
  ∀ k, (n <= k)%nat → down fuel h i n !! k = h !! k.
Proof.
  induction fuel as [|fuel IH]; intros h i Hn Hlo Hf Hpre.
  { split; [|done]. intros c Hc Hcl. apply Hpre; [done|done|]. pose proof (parent_lt c). lia. }
  cbn [down]. case_bool_decide as Hj1.
  { split; [|done]. intros c Hc Hcl. destruct (Hpre c Hc) as [H1 _]. apply H1; [done|].
    intros Hpc. apply parent_children in Hpc; lia. }
  set (j := if bool_decide _ && _ then _ else _).
  assert (Hj : (j < n)%nat ∧ parent j = i ∧ (0 < j)%nat ∧
    ∀ c, (0 < c < n)%nat → parent c = i → kat h j ≤ kat h c).
  { unfold j. destruct (bool_decide (2 * i + 1 + 1 < n)%nat) eqn:Hj2; bool_prop; cbn [andb].
    - rewrite Less_kat by lia. destruct (_ <? _) eqn:Hl; bool_prop.
      + split; [lia|]. split; [apply parent_children; lia|]. split; [lia|].
        intros c Hc [->| ->]%parent_children; [lia| |lia]. replace (2 * i + 2)%nat with (2 * i + 1 + 1)%nat by lia. lia.
      + split; [lia|]. split; [apply parent_children; lia|]. split; [lia|].
        intros c Hc [->| ->]%parent_children; [lia| |lia]. replace (2 * i + 2)%nat with (2 * i + 1 + 1)%nat by lia. lia.
    - split; [lia|]. split; [apply parent_children; lia|]. split; [lia|].
      intros c Hc [->| ->]%parent_children; lia. }
  destruct Hj as (Hjn & Hpj & Hj0 & Hmin). clearbody j.
  rewrite Less_kat by lia. destruct (kat h j <? kat h i) eqn:Hl; bool_prop; cbn [negb].
  - assert (Hij : (i < j)%nat) by (rewrite <- Hpj; by apply parent_lt).
    destruct (Swap_spec h i j ltac:(lia) ltac:(lia)) as (Hlen & Hperm & Hk).
    destruct (IH (Swap h i j) j) as (Ho & Hp & Hrest); [lia|lia|lia| |].
    + intros c Hc. pose proof (parent_lt c ltac:(lia)). rewrite !Hk.
      destruct (Hpre c Hc) as [Hc1 Hc2]. split.
      * intros Hcl Hpc. rewrite (decide_False (P := parent c = j)) by done.
        destruct (decide (parent c = i)) as [Hpi|Hpi].
        -- destruct (decide (c = j)) as [->|Hcj]; [lia|].
           rewrite decide_False by lia. by apply Hmin.
        -- destruct (decide (c = j)) as [->|Hcj]; [done|].
           destruct (decide (c = i)) as [->|Hci].
           ++ destruct (Hpre j ltac:(lia)) as [_ Hjj]. apply Hjj; [done|lia|done].
           ++ by apply Hc1.
      * intros Hpc _ _. rewrite Hpj. rewrite (decide_False (P := i = j)), (decide_True (P := i = i)) by lia.
        rewrite decide_False, decide_False by lia. rewrite <- Hpc. apply Hc1; lia.
    + split; [done|]. split; [by rewrite Hp|]. intros k Hk'. rewrite Hrest by done.
      unfold Swap. destruct (h !! i), (h !! j); try done.
      by rewrite !list_lookup_insert_ne by lia.
  - split; [|done]. intros c Hc Hcl. destruct (decide (parent c = i)) as [Hpc|Hpc].
    + specialize (Hmin c Hc Hpc). rewrite Hpc. lia.
    + by apply Hpre.
Qed.

(** ** The operations *)

Definition heap (h : list A) : Prop := ordered 0 (length h) h.

Lemma init_loop_spec i : ∀ h,
  ordered i (length h) h → heap (init_loop h i) ∧ init_loop h i ≡ₚ h.
Proof.
  induction i as [|i IH]; intros h Ho; [done|]. cbn [init_loop].
  destruct (down_spec i (length h) (length h) h i) as (Hd & Hp & _); [lia..| |].
  { intros c Hc. split; [|intros _ Hi0; pose proof (parent_lt i Hi0); lia].
    intros Hl Hne. apply Ho; [done|lia]. }
  assert (Hlen : length (down (length h) h i (length h)) = length h) by (by apply Permutation_length).
  destruct (IH (down (length h) h i (length h))) as [Hh Hp']; [by rewrite Hlen|].
  split; [done|by rewrite Hp'].
Qed.

Lemma Init_spec h : heap (Init h) ∧ Init h ≡ₚ h.
Proof.
  apply init_loop_spec. intros c Hc Hl. exfalso.
  pose proof (proj1 (parent_children c (parent c) ltac:(lia)) eq_refl). pose proof (Nat.div_mod_eq (length h) 2).
  pose proof (Nat.mod_upper_bound (length h) 2 ltac:(lia)). lia.
Qed.

Lemma kat_app_l h x i : (i < length h)%nat → kat (h ++ [x]) i = kat h i.
Proof. intros. unfold kat. by rewrite lookup_app_l. Qed.

Lemma Push_spec h x : heap h → heap (Push h x) ∧ Push h x ≡ₚ x :: h.
Proof.
  intros Hh. unfold Push. assert (Hl : length (h ++ [x]) = S (length h)) by (rewrite length_app; simpl; lia).
  destruct (up_spec (length (h ++ [x])) (h ++ [x]) (length (h ++ [x]) - 1)) as [Ho Hp]; [lia|lia| |].
  - intros c Hc. rewrite Hl in *. pose proof (parent_lt c ltac:(lia)). split.
    + intros Hne. rewrite !kat_app_l by lia. apply Hh; lia.
    + intros Hpc. lia.
  - unfold heap. rewrite (Permutation_length Hp). split; [done|]. rewrite Hp.
    by rewrite Permutation_app_comm.
Qed.

(** The root of a heap is a minimum. *)
Lemma heap_min h a : heap h → h !! 0%nat = Some a → ∀ x, x ∈ h → key a ≤ key x.
Proof.
  intros Hh Ha. assert (Hk : ∀ i, (i < length h)%nat → kat h 0 ≤ kat h i).
  { intros i. induction i as [i IH] using lt_wf_ind. intros Hi.
    destruct (decide (i = 0%nat)) as [->|Hi0]; [done|].
    pose proof (parent_lt i ltac:(lia)). etrans; [apply (IH (parent i)); lia|].
    apply Hh; lia. }
  intros x [i Hi]%list_elem_of_lookup. specialize (Hk i (lookup_lt_Some _ _ _ Hi)).
  unfold kat in Hk. by rewrite Ha, Hi in Hk.
Qed.

Lemma Pop_spec h a :
  heap h → h !! 0%nat = Some a → ∃ h', Pop h = Some (a, h') ∧ heap h' ∧ h ≡ₚ a :: h'.
Proof.
  intros Hh Ha. unfold Pop. destruct (length h) as [|n] eqn:Hl.
  { by rewrite (nil_length_inv _ Hl) in Ha. }
  destruct (Swap_spec h 0 n ltac:(lia) ltac:(lia)) as (Hlen & Hperm & Hk).
  destruct (down_spec 0 n (S n) (Swap h 0 n) 0) as (Ho & Hp & Hrest); [lia|lia|lia| |].
  { intros c Hc. split; [|lia]. intros _ Hpc. pose proof (parent_lt c ltac:(lia)).
    rewrite !Hk, !decide_False by lia. apply Hh; lia. }
  set (h1 := down (S n) (Swap h 0 n) 0 n) in *.
  assert (Hlast : h1 !! n = Some a).
  { rewrite Hrest by done. unfold Swap. rewrite Ha.
    destruct (h !! n) as [b|] eqn:Hb; [|apply lookup_ge_None in Hb; lia].
    rewrite list_lookup_insert_eq; [done|]. rewrite length_insert. lia. }
  rewrite Hlast. exists (take n h1). split; [done|].
  assert (Hl1 : length h1 = S n) by (rewrite (Permutation_length Hp); lia).
  split.
  - intros c Hc Hlo. rewrite length_take, Hl1 in Hc. pose proof (parent_lt c ltac:(lia)).
    unfold kat. rewrite !lookup_take_lt by lia. apply (Ho c); lia.
  - rewrite <- Hperm, <- Hp. rewrite <- (take_drop n h1) at 1.
    rewrite (drop_S _ a) by done. rewrite (drop_ge h1) by lia.
    by rewrite Permutation_app_comm.
Qed.

(** the heap operations are correct: [Init] arranges any slice into a
    heap, [Push] and [Pop] keep one, no operation loses, adds or alters an
    element, and [Pop] removes an element of least key. *)
Theorem heap_correct :
  (∀ h, heap (Init h) ∧ Init h ≡ₚ h) ∧
  (∀ h x, heap h → heap (Push h x) ∧ Push h x ≡ₚ x :: h) ∧
  (∀ h, heap h → h ≠ [] →
     ∃ a h', Pop h = Some (a, h') ∧ heap h' ∧ h ≡ₚ a :: h' ∧ ∀ x, x ∈ h → key a ≤ key x).
Proof.
  split; [apply Init_spec|]. split; [apply Push_spec|]. intros [|a h] Hh; [done|]. intros _.
  destruct (Pop_spec (a :: h) a Hh eq_refl) as (h' & Hpop & Hh' & Hp).
  exists a, h'. split; [done|]. split; [done|]. split; [done|]. by apply heap_min.
Qed.
End Heap.
