(* ===== verification/Revoke.v ===== *)
(** * Revoke: revoke.go, the in-memory revocation store

    Each method holds the mutex throughout, so it is one step of the state.  The
    clock is an argument of each step, and may return anything.  A map is ranged
    over in an order of the run time's choosing: [range] is any enumeration, a
    different one at each generation. *)

From S2P Require Import Prelude Errors GoLib Dates Claims Heap.

(** The zero [time.Time], year 1. *)
Definition zero_time : Time := minNumericDate * second.
Definition IsZero (t : Time) : bool := t =? zero_time.
(** [t.After(u)]. *)
Definition After (t u : Time) : bool := u <? t.

Record revocationEntry := mkEntry {
  re_reason : bytes;
  re_expiresAt : Time;
  re_generation : Z }.

Definition live (e : revocationEntry) (now : Time) : bool :=
  IsZero (re_expiresAt e) || After (re_expiresAt e) now.

Record revocationExpiry := mkExpiry {
  rx_id : bytes;
  rx_expiresAt : Time;
  rx_generation : Z }.

Record memoryRevocationStore := mkStore {
  items : gmap bytes revocationEntry;
  expirations : list revocationExpiry;
  capacity : Z;               (* zero means unbounded *)
  generation : Z }.           (* uint64 *)

Definition newMemoryRevocationStore (capacity : Z) : memoryRevocationStore :=
  mkStore ∅ [] capacity 0.

Definition NewMemoryRevocationStore : memoryRevocationStore := newMemoryRevocationStore 0.

Definition NewMemoryRevocationStoreWithCapacity (capacity : Z) : res memoryRevocationStore :=
  if capacity <=? 0 then fail ErrInvalidRevocationCapacity else Ok (newMemoryRevocationStore capacity).

(** The loop of [removeExpiredLocked]; the heap length is enough fuel. *)
Fixpoint removeExpired_loop (fuel : nat) (now : Time) (m : gmap bytes revocationEntry)
    (h : list revocationExpiry) : gmap bytes revocationEntry * list revocationExpiry :=
  match fuel with
  | O => (m, h)
  | S fuel =>
      match h with
      | [] => (m, h)
      | first :: _ =>
          if After (rx_expiresAt first) now then (m, h)
          else
            match Pop rx_expiresAt h with
            | None => (m, h)
            | Some (expired, h) =>
                let m :=
                  match m !! rx_id expired with
                  | Some entry =>
                      if (re_generation entry =? rx_generation expired) && negb (live entry now)
                      then delete (rx_id expired) m else m
                  | None => m
                  end in
                removeExpired_loop fuel now m h
            end
      end
  end.

Definition removeExpired (now : Time) (s : memoryRevocationStore) : memoryRevocationStore :=
  let '(m, h) := removeExpired_loop (length (expirations s)) now (items s) (expirations s) in
  mkStore m h (capacity s) (generation s).

Definition set_items (s : memoryRevocationStore) m : memoryRevocationStore :=
  mkStore m (expirations s) (capacity s) (generation s).

Section Store.
Variable range : Z → gmap bytes revocationEntry → list (bytes * revocationEntry).
Hypothesis range_perm : ∀ g m, range g m ≡ₚ map_to_list m.

(** The nodes the rebuilding loop appends, in range order. *)
Definition rebuild (l : list (bytes * revocationEntry)) : list revocationExpiry :=
  flat_map (λ '(id, entry),
    if negb (IsZero (re_expiresAt entry))
    then [mkExpiry id (re_expiresAt entry) (re_generation entry)] else []) l.

Definition compactExpirations (s : memoryRevocationStore) : memoryRevocationStore :=
  if len (expirations s) <=? 2 * Z.of_nat (size (items s)) + 64 then s
  else mkStore (items s) (Init rx_expiresAt (rebuild (range (generation s) (items s))))
         (capacity s) (generation s).

Definition Revoke (id reason : bytes) (expiresAt now : Time) (s : memoryRevocationStore) :
    memoryRevocationStore * err_opt :=
  if bool_decide (id = []) then (s, Some [ErrInvalidRevocationID])
  else
    let s := removeExpired now s in
    if negb (IsZero expiresAt) && negb (After expiresAt now)
    then (set_items s (delete id (items s)), None)
    else if negb (bool_decide (is_Some (items s !! id))) && (0 <? capacity s) &&
            (capacity s <=? Z.of_nat (size (items s)))
    then (s, Some [ErrRevocationStoreFull])
    else
      let g := (generation s + 1) mod 2 ^ 64 in
      let m := <[id := mkEntry reason expiresAt g]> (items s) in
      let h := if negb (IsZero expiresAt)
               then Push rx_expiresAt (expirations s) (mkExpiry id expiresAt g)
               else expirations s in
      (compactExpirations (mkStore m h (capacity s) g), None).

Definition IsRevoked (id : bytes) (now : Time) (s : memoryRevocationStore) :
    memoryRevocationStore * res bool :=
  if bool_decide (id = []) then (s, fail ErrInvalidRevocationID)
  else
    let s := removeExpired now s in
    (s, Ok (bool_decide (is_Some (items s !! id)))).

(** ** The specification: a map from identifiers to expiry times *)

Definition spec_live (now : Time) (t : Time) : bool := IsZero t || After t now.
Definition purge (now : Time) (m : gmap bytes Time) : gmap bytes Time :=
  filter (λ kv, spec_live now kv.2 = true) m.

Definition spec_Revoke (cap : Z) (id : bytes) (expiresAt now : Time) (m : gmap bytes Time) :
    gmap bytes Time * err_opt :=
  if bool_decide (id = []) then (m, Some [ErrInvalidRevocationID])
  else
    let m := purge now m in
    if negb (spec_live now expiresAt) then (delete id m, None)
    else if negb (bool_decide (is_Some (m !! id))) && (0 <? cap) && (cap <=? Z.of_nat (size m))
    then (m, Some [ErrRevocationStoreFull])
    else (<[id := expiresAt]> m, None).

Definition spec_IsRevoked (id : bytes) (now : Time) (m : gmap bytes Time) :
    gmap bytes Time * res bool :=
  if bool_decide (id = []) then (m, fail ErrInvalidRevocationID)
  else let m := purge now m in (m, Ok (bool_decide (is_Some (m !! id)))).

(** ** Invariant and abstraction *)

Record inv (s : memoryRevocationStore) : Prop := {
  inv_heap : heap rx_expiresAt (expirations s);
  inv_node : ∀ id e, items s !! id = Some e → IsZero (re_expiresAt e) = false →
    mkExpiry id (re_expiresAt e) (re_generation e) ∈ expirations s }.

Definition abs (s : memoryRevocationStore) : gmap bytes Time := re_expiresAt <$> items s.

(** Popping down to [now] leaves the live entries, keeps their nodes and a
    heap of later nodes. *)
Lemma removeExpired_loop_spec now fuel : ∀ m h m' h',
  (length h <= fuel)%nat → heap rx_expiresAt h →
  (∀ id e, m !! id = Some e → IsZero (re_expiresAt e) = false →
     mkExpiry id (re_expiresAt e) (re_generation e) ∈ h) →
  removeExpired_loop fuel now m h = (m', h') →
  heap rx_expiresAt h' ∧
  (∀ id e, m' !! id = Some e → IsZero (re_expiresAt e) = false →
     mkExpiry id (re_expiresAt e) (re_generation e) ∈ h') ∧
  (∀ id, m' !! id = match m !! id with
                    | Some e => if live e now then Some e else None
                    | None => None end).
Proof.
  assert (Hdone : ∀ (m : gmap bytes revocationEntry) (h : list revocationExpiry),
    (∀ x, x ∈ h → now < rx_expiresAt x) →
    (∀ id e, m !! id = Some e → IsZero (re_expiresAt e) = false →
       mkExpiry id (re_expiresAt e) (re_generation e) ∈ h) →
    ∀ id, m !! id = match m !! id with
                    | Some e => if live e now then Some e else None
                    | None => None end).
  { intros m h Hh Hn id. destruct (m !! id) as [e|] eqn:He; [|done].
    unfold live, After. destruct (IsZero (re_expiresAt e)) eqn:Hz; [done|]. simpl.
    specialize (Hn id e He Hz). apply Hh in Hn. simpl in Hn. by rewrite (proj2 (Z.ltb_lt _ _) Hn). }
  induction fuel as [|fuel IH]; intros m h m' h' Hf Hh Hn; cbn [removeExpired_loop].
  { destruct h; [|simpl in Hf; lia]. intros [= <- <-]. split; [done|]. split; [done|].
    apply (Hdone m []); [|done]. by intros ? ?%elem_of_nil. }
  destruct h as [|f h].
  { intros [= <- <-]. split; [done|]. split; [done|].
    apply (Hdone m []); [|done]. by intros ? ?%elem_of_nil. }
  destruct (After (rx_expiresAt f) now) eqn:Hafter.
  { intros [= <- <-]. split; [done|]. split; [done|]. apply (Hdone m (f :: h)); [|done].
    intros x Hx. unfold After in Hafter. bool_prop.
    pose proof (heap_min rx_expiresAt (f :: h) f Hh eq_refl x Hx). lia. }
  destruct (Pop_spec rx_expiresAt (f :: h) f Hh eq_refl) as (h1 & -> & Hh1 & Hperm).
  set (m1 := match m !! rx_id f with Some _ => _ | None => _ end). intros Hrest.
  assert (Hm1 : ∀ id, m1 !! id = m !! id ∨
    (id = rx_id f ∧ m1 !! id = None ∧ ∃ e, m !! id = Some e ∧ live e now = false)).
  { intros id. unfold m1. destruct (m !! rx_id f) as [e|] eqn:He; [|by left].
    destruct (_ && _) eqn:Hd; [|by left]. bool_prop.
    destruct (decide (id = rx_id f)) as [->|Hne].
    - right. split; [done|]. rewrite lookup_delete_eq. split; [done|]. by exists e.
    - left. by rewrite lookup_delete_ne. }
  assert (Hn1 : ∀ id e, m1 !! id = Some e → IsZero (re_expiresAt e) = false →
     mkExpiry id (re_expiresAt e) (re_generation e) ∈ h1).
  { intros id e He Hz. assert (Hm : m !! id = Some e).
    { destruct (Hm1 id) as [Heq|(_ & Hnone & _)]; congruence. }
    specialize (Hn id e Hm Hz). rewrite Hperm in Hn. apply elem_of_cons in Hn as [Heq|?]; [|done].
    exfalso. unfold m1 in He. rewrite <- Heq in He. cbn [rx_id rx_generation] in He.
    rewrite Hm, Z.eqb_refl in He. cbn [andb] in He.
    unfold live in He. rewrite Hz in He. cbn [orb] in He.
    rewrite <- Heq in Hafter. cbn [rx_expiresAt] in Hafter. rewrite Hafter in He. cbn [negb] in He.
    by rewrite lookup_delete_eq in He. }
  destruct (IH m1 h1 m' h') as (Ho & Hn' & Hm'); [|done|done|done|].
  { apply Permutation_length in Hperm. simpl in *. lia. }
  split; [done|]. split; [done|]. intros id. rewrite Hm'.
  destruct (Hm1 id) as [->|(_ & -> & e & -> & ->)]; done.
Qed.

Lemma removeExpired_spec now s :
  inv s → inv (removeExpired now s) ∧ abs (removeExpired now s) = purge now (abs s) ∧
    capacity (removeExpired now s) = capacity s.
Proof.
  intros [Hh Hn]. unfold removeExpired.
  destruct (removeExpired_loop _ now (items s) (expirations s)) as [m h] eqn:Hl.
  destruct (removeExpired_loop_spec _ _ _ _ _ _ (le_n _) Hh Hn Hl) as (Hh' & Hn' & Hm).
  split; [by split|]. split; [|done]. apply map_eq. intros id. unfold abs, purge. cbn [items].
  rewrite lookup_fmap, Hm. apply option_eq. intros t.
  rewrite map_lookup_filter_Some, lookup_fmap. cbn [snd].
  destruct (items s !! id) as [e|]; cbn [fmap option_fmap option_map]; [|naive_solver].
  unfold live, spec_live. destruct (_ || _) eqn:He; cbn; naive_solver congruence.
Qed.

Lemma elem_rebuild l x :
  x ∈ rebuild l ↔ ∃ id e, (id, e) ∈ l ∧ IsZero (re_expiresAt e) = false ∧
    x = mkExpiry id (re_expiresAt e) (re_generation e).
Proof.
  unfold rebuild. rewrite list_elem_of_In, in_flat_map. split.
  - intros ([id e] & Hin & Hx). destruct (IsZero (re_expiresAt e)) eqn:Hz; [done|].
    destruct Hx as [<-|[]]. exists id, e. by rewrite list_elem_of_In.
  - intros (id & e & Hin & Hz & ->). exists (id, e). rewrite <- list_elem_of_In, Hz.
    split; [done|]. by left.
Qed.

Lemma length_rebuild l : (length (rebuild l) <= length l)%nat.
Proof.
  unfold rebuild. induction l as [|[id e] l IH]; [done|]. cbn [flat_map]. rewrite length_app.
  destruct (IsZero (re_expiresAt e)); cbn [negb length]; lia.
Qed.

Lemma compact_same s :
  items (compactExpirations s) = items s ∧ capacity (compactExpirations s) = capacity s.
Proof. unfold compactExpirations. by case_match. Qed.

Lemma compact_inv s : inv s → inv (compactExpirations s).
Proof.
  intros [Hh Hn]. unfold compactExpirations. destruct (_ <=? _); [done|].
  destruct (Init_spec rx_expiresAt (rebuild (range (generation s) (items s)))) as [Hi Hp].
  split; [done|]. intros id e He Hz. cbn [items expirations] in *.
  rewrite Hp, elem_rebuild. exists id, e. split; [|done]. rewrite range_perm.
  by apply elem_of_map_to_list.
Qed.

Lemma compact_bound s :
  len (expirations (compactExpirations s)) ≤ 2 * Z.of_nat (size (items s)) + 64.
Proof.
  unfold compactExpirations. destruct (_ <=? _) eqn:Hl; bool_prop; [done|].
  destruct (Init_spec rx_expiresAt (rebuild (range (generation s) (items s)))) as [_ Hp].
  cbn [expirations]. unfold len. rewrite (Permutation_length Hp).
  pose proof (length_rebuild (range (generation s) (items s))) as Hr.
  rewrite (Permutation_length (range_perm _ _)), length_map_to_list in Hr. lia.
Qed.

Lemma abs_size s : size (abs s) = size (items s).
Proof. unfold abs. by rewrite map_size_fmap. Qed.

Lemma abs_lookup s id : is_Some (abs s !! id) ↔ is_Some (items s !! id).
Proof. unfold abs. by rewrite lookup_fmap, fmap_is_Some. Qed.

Lemma Revoke_refines id reason t now s :
  inv s →
  let '(s', e) := Revoke id reason t now s in
  inv s' ∧ capacity s' = capacity s ∧ (abs s', e) = spec_Revoke (capacity s) id t now (abs s).
Proof.
  intros Hs. unfold Revoke, spec_Revoke. case_bool_decide; [done|].
  destruct (removeExpired_spec now s Hs) as (Hi & Ha & Hc). rewrite <- Ha, <- Hc.
  generalize dependent (removeExpired now s). intros s1 [Hh Hn] _ _. clear Hs.
  replace (negb (spec_live now t)) with (negb (IsZero t) && negb (After t now))
    by (unfold spec_live; by destruct (IsZero t), (After t now)).
  destruct (negb (IsZero t) && negb (After t now)).
  { split; [split; [done|]|split; [done|]].
    - intros i e He Hz. cbn [items set_items expirations] in *.
      apply lookup_delete_Some in He as [_ He]. by apply Hn.
    - unfold abs. cbn [items set_items]. by rewrite fmap_delete. }
  rewrite abs_size. rewrite (bool_decide_ext _ _ (abs_lookup s1 id)).
  destruct (_ && _ && _); [done|].
  set (g := (generation s1 + 1) mod 2 ^ 64). set (e := mkEntry reason t g).
  set (h := if negb (IsZero t) then _ else _).
  set (s2 := mkStore (<[id:=e]> (items s1)) h (capacity s1) g).
  assert (H2 : inv s2).
  { destruct (Push_spec rx_expiresAt (expirations s1) (mkExpiry id t g) Hh) as [Hp Hpp].
    split.
    - unfold s2, h. cbn [expirations]. by destruct (negb (IsZero t)).
    - intros i e' He Hz. unfold s2, h in *. cbn [items expirations] in *.
      apply lookup_insert_Some in He as [[<- <-]|[Hne He]].
      + change (IsZero t = false) in Hz. rewrite Hz. cbn [negb].
        rewrite Hpp. by left.
      + destruct (negb (IsZero t)); [rewrite Hpp; right|]; by apply Hn. }
  destruct (compact_same s2) as [Hit Hc].
  split; [by apply compact_inv|]. split; [done|]. unfold abs. rewrite Hit. unfold s2. cbn [items].
  by rewrite fmap_insert.
Qed.

Lemma IsRevoked_refines id now s :
  inv s →
  let '(s', r) := IsRevoked id now s in
  inv s' ∧ capacity s' = capacity s ∧ (abs s', r) = spec_IsRevoked id now (abs s).
Proof.
  intros Hs. unfold IsRevoked, spec_IsRevoked. case_bool_decide; [done|].
  destruct (removeExpired_spec now s Hs) as (Hi & Ha & Hc). rewrite <- Ha.
  split; [done|]. split; [done|]. by rewrite (bool_decide_ext _ _ (abs_lookup (removeExpired now s) id)).
Qed.

(** *** Sequences of calls *)

Inductive rev_op : Type :=
  | OpRevoke (id reason : bytes) (expiresAt now : Time)
  | OpIsRevoked (id : bytes) (now : Time).

(** What the caller sees of a call. *)
Definition rev_step (s : memoryRevocationStore) (o : rev_op) : memoryRevocationStore * res bool :=
  match o with
  | OpRevoke id reason t now =>
      let '(s, e) := Revoke id reason t now s in (s, match e with Some e => Err e | None => Ok true end)
  | OpIsRevoked id now => IsRevoked id now s
  end.

Definition spec_step (cap : Z) (m : gmap bytes Time) (o : rev_op) : gmap bytes Time * res bool :=
  match o with
  | OpRevoke id _ t now =>
      let '(m, e) := spec_Revoke cap id t now m in (m, match e with Some e => Err e | None => Ok true end)
  | OpIsRevoked id now => spec_IsRevoked id now m
  end.

Fixpoint run_ops {S} (step : S → rev_op → S * res bool) (s : S) (ops : list rev_op) : S * list (res bool) :=
  match ops with
  | [] => (s, [])
  | o :: ops => let '(s, r) := step s o in let '(s, rs) := run_ops step s ops in (s, r :: rs)
  end.

Lemma step_refines s o :
  inv s →
  let '(s', r) := rev_step s o in
  inv s' ∧ capacity s' = capacity s ∧ (abs s', r) = spec_step (capacity s) (abs s) o.
Proof.
  intros Hs. destruct o as [id reason t now|id now]; cbn [rev_step spec_step].
  - pose proof (Revoke_refines id reason t now s Hs) as Hr.
    destruct (Revoke id reason t now s) as [s' e]. destruct Hr as (Hi & Hc & Hr).
    rewrite <- Hr. done.
  - by apply IsRevoked_refines.
Qed.

Lemma run_refines ops : ∀ s,
  inv s →
  let '(s', rs) := run_ops rev_step s ops in
  inv s' ∧ capacity s' = capacity s ∧ (abs s', rs) = run_ops (spec_step (capacity s)) (abs s) ops.
Proof.
  induction ops as [|o ops IH]; intros s Hs; [done|]. cbn [run_ops].
  pose proof (step_refines s o Hs) as Ho. destruct (rev_step s o) as [s1 r]. destruct Ho as (Hi & Hc & Hr).
  specialize (IH s1 Hi). destruct (run_ops rev_step s1 ops) as [s2 rs]. destruct IH as (Hi2 & Hc2 & Hr2).
  split; [done|]. split; [congruence|]. rewrite <- Hr. rewrite Hc in Hr2. by rewrite <- Hr2.
Qed.

Lemma inv_new cap : inv (newMemoryRevocationStore cap).
Proof. split; [|done]. intros c Hc. simpl in Hc. lia. Qed.

(** C8: the store refines a map from identifiers to expiry times: for
    any capacity, any sequence of calls and any clock readings (even ones that
    go back), every answer is the one the specification gives: an identifier
    is revoked just when a revocation of it is stored and not expired, and a
    full store refuses a new identifier instead of dropping a live one. *)
Theorem store_refines cap ops :
  snd (run_ops rev_step (newMemoryRevocationStore cap) ops) =
  snd (run_ops (spec_step cap) ∅ ops).
Proof.
  pose proof (run_refines ops _ (inv_new cap)) as Hr.
  destruct (run_ops rev_step _ ops) as [s rs]. destruct Hr as (_ & _ & Hr).
  unfold abs in Hr. cbn [items newMemoryRevocationStore capacity] in Hr.
  rewrite fmap_empty in Hr. by rewrite <- Hr.
Qed.

Lemma spec_step_size cap m o :
  0 < cap → Z.of_nat (size m) ≤ cap → Z.of_nat (size (fst (spec_step cap m o))) ≤ cap.
Proof.
  intros Hcap Hm.
  assert (Hp : ∀ now, Z.of_nat (size (purge now m)) ≤ cap).
  { intros now. unfold purge.
    pose proof (map_size_filter (λ kv : bytes * Time, spec_live now kv.2 = true) m). lia. }
  destruct o as [id reason t now|id now]; cbn [spec_step]; unfold spec_Revoke, spec_IsRevoked.
  - case_bool_decide; [done|]. specialize (Hp now). destruct (negb (spec_live now t)); cbn [fst].
    + pose proof (map_size_delete id (purge now m)). destruct (purge now m !! id); simpl in *; lia.
    + destruct (_ && _ && _) eqn:Hf; cbn [fst]; [done|].
      rewrite map_size_insert. destruct (purge now m !! id) as [x|] eqn:Hx; [done|].
      apply andb_false_iff in Hf. rewrite (proj2 (Z.ltb_lt 0 cap)) in Hf by done.
      rewrite bool_decide_eq_false_2 in Hf by (by intros []). destruct Hf; [done|]. bool_prop. lia.
  - case_bool_decide; [done|]. apply Hp.
Qed.

Lemma Revoke_compacts id reason t now s :
  snd (Revoke id reason t now s) = None → spec_live now t = true →
  len (expirations (fst (Revoke id reason t now s))) ≤
    2 * Z.of_nat (size (items (fst (Revoke id reason t now s)))) + 64.
Proof.
  unfold Revoke. case_bool_decide; [done|]. intros He Hl. revert He.
  replace (negb (IsZero t) && negb (After t now)) with false
    by (unfold spec_live in Hl; by destruct (IsZero t), (After t now)).
  destruct (_ && _ && _); [done|]. intros _. cbn [fst].
  rewrite (proj1 (compact_same _)). apply compact_bound.
Qed.

Lemma Pop_shorter h x h' : Pop rx_expiresAt h = Some (x, h') → heap rx_expiresAt h → len h' ≤ len h.
Proof.
  destruct h as [|f h]; [done|]. intros Hp Hh.
  destruct (Pop_spec rx_expiresAt (f :: h) f Hh eq_refl) as (h1 & Hp' & _ & Hperm).
  rewrite Hp in Hp'. injection Hp' as -> ->. apply Permutation_length in Hperm.
  unfold len. rewrite Hperm. simpl. lia.
Qed.

Lemma removeExpired_loop_shorter now fuel : ∀ m h,
  heap rx_expiresAt h → len (snd (removeExpired_loop fuel now m h)) ≤ len h.
Proof.
  induction fuel as [|fuel IH]; intros m h Hh; cbn [removeExpired_loop snd]; [done|].
  destruct h as [|f h]; [done|]. destruct (After _ _); [done|].
  destruct (Pop_spec rx_expiresAt (f :: h) f Hh eq_refl) as (h1 & Hp & Hh1 & _).
  pose proof (Pop_shorter _ _ _ Hp Hh). rewrite Hp. etrans; [by apply IH|done].
Qed.

Lemma removeExpired_shorter now s :
  inv s → len (expirations (removeExpired now s)) ≤ len (expirations s).
Proof.
  intros [Hh _]. unfold removeExpired.
  pose proof (removeExpired_loop_shorter now (length (expirations s)) (items s) _ Hh) as Hl.
  by destruct (removeExpired_loop _ _ _ _).
Qed.

(** No call makes the heap longer than it was, except a [Revoke] that stores,
    and that one leaves it within its bound. *)
Lemma rev_step_heap s o :
  inv s →
  let s' := fst (rev_step s o) in
  len (expirations s') ≤ Z.max (len (expirations s)) (2 * Z.of_nat (size (items s')) + 64).
Proof.
  intros Hs. pose proof (λ now, removeExpired_shorter now s Hs) as Hshort.
  destruct o as [id reason t now|id now]; cbn [rev_step].
  - specialize (Hshort now).
    assert (Hc : len (expirations (fst (Revoke id reason t now s))) ≤
      Z.max (len (expirations s)) (2 * Z.of_nat (size (items (fst (Revoke id reason t now s)))) + 64)).
    { unfold Revoke. case_bool_decide; cbn [fst]; [lia|].
      destruct (negb _ && negb _); cbn [fst set_items expirations]; [lia|].
      destruct (_ && _ && _); cbn [fst]; [lia|].
      match goal with |- context [compactExpirations ?x] =>
        pose proof (compact_bound x) as Hb; rewrite (proj1 (compact_same x)) end. lia. }
    by destruct (Revoke id reason t now s).
  - specialize (Hshort now). unfold IsRevoked. case_bool_decide; cbn [fst]; lia.
Qed.

(** The most identifiers held at once, from the state on through the calls. *)
Fixpoint peak (s : memoryRevocationStore) (ops : list rev_op) : Z :=
  match ops with
  | [] => Z.of_nat (size (items s))
  | o :: ops => Z.max (Z.of_nat (size (items s))) (peak (fst (rev_step s o)) ops)
  end.

Lemma peak_start s ops : Z.of_nat (size (items s)) ≤ peak s ops.
Proof. destruct ops; simpl; lia. Qed.

Lemma peak_last ops : ∀ s, Z.of_nat (size (items (fst (run_ops rev_step s ops)))) ≤ peak s ops.
Proof.
  induction ops as [|o ops IH]; intros s; cbn [run_ops peak]; [done|].
  destruct (rev_step s o) as [s1 r]. specialize (IH s1).
  destruct (run_ops rev_step s1 ops). cbn [fst] in *. lia.
Qed.

Lemma run_heap ops : ∀ s,
  inv s →
  len (expirations (fst (run_ops rev_step s ops))) ≤ Z.max (len (expirations s)) (2 * peak s ops + 64).
Proof.
  induction ops as [|o ops IH]; intros s Hs; cbn [run_ops peak]; [simpl; lia|].
  pose proof (rev_step_heap s o Hs) as Ho. pose proof (step_refines s o Hs) as Hr.
  destruct (rev_step s o) as [s1 r]. cbn [fst] in *. destruct Hr as (Hi & _ & _).
  specialize (IH s1 Hi). pose proof (peak_start s1 ops).
  destruct (run_ops rev_step s1 ops). cbn [fst] in *. lia.
Qed.

Lemma peak_capacity ops : ∀ s,
  inv s → 0 < capacity s → Z.of_nat (size (items s)) ≤ capacity s → peak s ops ≤ capacity s.
Proof.
  induction ops as [|o ops IH]; intros s Hs Hc Hz; cbn [peak]; [done|].
  pose proof (step_refines s o Hs) as Hr. rewrite <- (abs_size s) in Hz.
  pose proof (spec_step_size (capacity s) (abs s) o Hc Hz) as Hsz. rewrite abs_size in Hz.
  destruct (rev_step s o) as [s1 r]. cbn [fst]. destruct Hr as (Hi & Hcap & Hr).
  rewrite <- Hr in Hsz. cbn [fst] in Hsz. rewrite abs_size in Hsz.
  rewrite <- Hcap in *. apply Z.max_lub; [done|]. by apply IH.
Qed.

(** C10: memory is bounded, whatever was called before and whatever the clock
    showed: the heap never has more nodes than twice the most identifiers the
    store held at any one time, plus 64; a store made with a capacity never
    holds more identifiers than that, hence never more than twice the capacity
    plus 64 nodes; and a [Revoke] that stores something leaves at most twice
    as many nodes as there are identifiers then, plus 64.  (A [Revoke] with a
    time that is over deletes without compacting, so the last bound is not one
    of every state.) *)
Theorem store_bounded cap ops id reason t now :
  let s := fst (run_ops rev_step (newMemoryRevocationStore cap) ops) in
  len (expirations s) ≤ 2 * peak (newMemoryRevocationStore cap) ops + 64 ∧
  (0 < cap → Z.of_nat (size (items s)) ≤ cap ∧ len (expirations s) ≤ 2 * cap + 64) ∧
  (snd (Revoke id reason t now s) = None → spec_live now t = true →
   len (expirations (fst (Revoke id reason t now s))) ≤
     2 * Z.of_nat (size (items (fst (Revoke id reason t now s)))) + 64).
Proof.
  cbn zeta. split_and!; [| |apply Revoke_compacts].
  - pose proof (run_heap ops _ (inv_new cap)) as Hh. pose proof (peak_start (newMemoryRevocationStore cap) ops).
    cbn [expirations newMemoryRevocationStore] in Hh. change (len []) with 0 in Hh. lia.
  - intros Hcap. pose proof (peak_capacity ops _ (inv_new cap) Hcap) as Hp.
    cbn [capacity newMemoryRevocationStore items] in Hp. rewrite map_size_empty in Hp.
    pose proof (run_heap ops _ (inv_new cap)) as Hh.
    cbn [expirations newMemoryRevocationStore] in Hh. change (len []) with 0 in Hh.
    pose proof (peak_last ops (newMemoryRevocationStore cap)). unfold newMemoryRevocationStore in *. lia.
Qed.

(** *** A live revocation is never lost *)

Definition op_time (o : rev_op) : Time :=
  match o with OpRevoke _ _ _ now => now | OpIsRevoked _ now => now end.

Definition touches (id : bytes) (o : rev_op) : bool :=
  match o with OpRevoke id' _ _ _ => bool_decide (id' = id) | OpIsRevoked _ _ => false end.

Lemma spec_step_keeps cap m o id t :
  m !! id = Some t → touches id o = false → spec_live (op_time o) t = true →
  fst (spec_step cap m o) !! id = Some t.
Proof.
  intros Hm Ht Hl.
  assert (Hp : purge (op_time o) m !! id = Some t) by (by apply map_lookup_filter_Some).
  destruct o as [id' reason t' now|id' now]; cbn [spec_step touches op_time] in *;
    [|unfold spec_IsRevoked; by case_bool_decide].
  apply bool_decide_eq_false in Ht. unfold spec_Revoke. case_bool_decide; [done|].
  destruct (negb (spec_live now t')); cbn [fst].
  - by rewrite lookup_delete_ne.
  - destruct (_ && _ && _); cbn [fst]; [done|]. by rewrite lookup_insert_ne.
Qed.

Lemma spec_run_keeps cap ops : ∀ m id t,
  m !! id = Some t →
  Forall (λ o, touches id o = false ∧ spec_live (op_time o) t = true) ops →
  fst (run_ops (spec_step cap) m ops) !! id = Some t.
Proof.
  induction ops as [|o ops IH]; intros m id t Hm Ho; [done|].
  apply Forall_cons_1 in Ho as [[Ht Hl] Ho]. cbn [run_ops].
  pose proof (spec_step_keeps cap m o id t Hm Ht Hl) as Hs. destruct (spec_step cap m o) as [m1 r].
  specialize (IH m1 id t Hs Ho). by destruct (run_ops (spec_step cap) m1 ops).
Qed.

(** C9: a revocation holds until it expires: from the state reached by
    any calls, if [Revoke] accepts an identifier with a time that is not yet
    over, then after any further calls made before that time (with no new
    revocation of the same identifier) it is still reported revoked, whatever
    the capacity and however often the heap was compacted. *)
Theorem revocation_holds cap before id reason t now after now' :
  let s := fst (run_ops rev_step (newMemoryRevocationStore cap) before) in
  id ≠ [] → spec_live now t = true → snd (Revoke id reason t now s) = None →
  Forall (λ o, touches id o = false ∧ spec_live (op_time o) t = true) after →
  spec_live now' t = true →
  let s' := fst (run_ops rev_step (fst (Revoke id reason t now s)) after) in
  snd (IsRevoked id now' s') = Ok true.
Proof.
  cbn zeta. intros Hid Hl He Hall Hl'.
  pose proof (run_refines before _ (inv_new cap)) as Hr.
  destruct (run_ops rev_step (newMemoryRevocationStore cap) before) as [s rs].
  destruct Hr as (Hi & _ & _). cbn [fst] in *.
  pose proof (Revoke_refines id reason t now s Hi) as Hrev.
  destruct (Revoke id reason t now s) as [s1 e]. cbn [fst snd] in *. subst e.
  destruct Hrev as (Hi1 & _ & Hrev).
  assert (Hm : abs s1 !! id = Some t).
  { unfold spec_Revoke in Hrev. rewrite bool_decide_eq_false_2, Hl in Hrev by done. cbn [negb] in Hrev.
    destruct (_ && _ && _) in Hrev; [done|]. injection Hrev as ->. apply lookup_insert_eq. }
  pose proof (run_refines after s1 Hi1) as Hr2. destruct (run_ops rev_step s1 after) as [s2 rs2].
  destruct Hr2 as (Hi2 & _ & Hr2). cbn [fst].
  pose proof (spec_run_keeps (capacity s1) after _ _ _ Hm Hall) as Hk. rewrite <- Hr2 in Hk. cbn [fst] in Hk.
  pose proof (IsRevoked_refines id now' s2 Hi2) as Hq. destruct (IsRevoked id now' s2) as [s3 r].
  destruct Hq as (_ & _ & Hq). unfold spec_IsRevoked in Hq. rewrite bool_decide_eq_false_2 in Hq by done.
  injection Hq as _ ->. cbn [snd]. f_equal. apply bool_decide_eq_true. exists t.
  by apply map_lookup_filter_Some.
Qed.
End Store.
