(* ===== verification/HttpAuth.v ===== *)
(** * HttpAuth: httpauth.go, bearer tokens over HTTP

    A request is the list of its Authorization header values; a handler either
    writes a response or calls the next handler with the verified payload in
    the request context.  [strconv.Quote] is that of [Thumbprint]. *)

From S2P Require Import Prelude Errors GoLib Utf8 B64 Json StrictJson Alg Key KeySet Thumbprint Dates Claims Options Jws.

(** ** Reading the request *)

Definition isB64TokenChar (c : byte) : bool :=
  is_lower c || is_upper c || is_digit c || bool_decide (c ∈ #"-._~+/").

Definition isB64Token (s : bytes) : bool :=
  let body := TrimRight s #"=" in
  negb (bool_decide (body = [])) && forallb isB64TokenChar body.

Definition bearer : bytes := #"bearer".

Definition BearerToken (values : list bytes) : option bytes :=
  match values with
  | [h] =>
      let n := length bearer in
      if (length h <=? n)%nat || negb (EqualFold (take n h) bearer) ||
         negb (bool_decide (h !! n = Some " "%byte)) then None
      else
        let token := TrimLeft (drop n h) #" " in
        if isB64Token token then Some token else None
  | _ => None
  end.

(** ** Writing the response *)

Record response := mkResponse {
  status : Z;
  www_authenticate : option bytes;
  content_type : bytes;
  body : bytes }.

(** [http.StatusText] of the codes in use. *)
Definition StatusText (status : Z) : bytes :=
  if status =? 400 then #"Bad Request"
  else if status =? 401 then #"Unauthorized"
  else if status =? 403 then #"Forbidden"
  else if status =? 500 then #"Internal Server Error"
  else if status =? 503 then #"Service Unavailable"
  else [].

Definition writeStatus (st : Z) (challenge : option bytes) : response :=
  mkResponse st challenge #"text/plain; charset=utf-8" (StatusText st ++ [x0a]).

Definition writeBearerChallenge (st : Z) (params : list bytes) : response :=
  writeStatus st (Some (match params with [] => #"Bearer" | _ => #"Bearer " ++ Join params #", " end)).

Definition tokenErrors : list cause :=
  [ErrInvalidSignature; ErrExpired; ErrNotYetValid; ErrIssuerMismatch; ErrAudienceMismatch;
   ErrAlgorithmNotAllowed; ErrMissingClaim; ErrTypeMismatch; ErrKeyNotFound; ErrKeyUsage;
   ErrKeyTypeMismatch; ErrUnsupportedCritical; ErrUnsupportedAlgorithm; ErrDecryptionFailed;
   ErrInvalidClaim].

Definition classifyAuthError (err : err_opt) : Z * bytes * bytes :=
  match err with
  | None => (401, [], [])
  | Some err =>
      if errors_Is err ErrKeyFetch || errors_Is err DeadlineExceeded || errors_Is err Canceled
      then (503, [], [])
      else if errors_Is err ErrMalformedToken
      then (400, #"invalid_request", #"The access token is malformed")
      else if errors_Is err ErrExpired then (401, #"invalid_token", #"The access token expired")
      else if errors_Is err ErrNotYetValid
      then (401, #"invalid_token", #"The access token is not yet valid")
      else if existsb (errors_Is err) tokenErrors
      then (401, #"invalid_token", #"The access token is invalid")
      else (500, [], [])
  end.

Definition isScopeToken (s : bytes) : bool :=
  negb (bool_decide (s = [])) &&
  forallb (λ c, negb ((bz c <? 33) || (126 <? bz c) || beq c x22 || beq c x5c)) s.

(** The runes the mapping drops; an octet that is not UTF-8 becomes U+FFFD. *)
Definition unsafe_rune (r : bytes) : bool :=
  match r with [c] => beq c x22 || beq c x5c || (bz c <? 32) || beq c x7f | _ => false end.

Definition quoteSafe (s : bytes) : bytes :=
  rune_fold [] (λ r acc, if unsafe_rune r then acc else r ++ acc)
    (λ _ acc, [xef; xbf; xbd] ++ acc) s.

Section Response.
Context `{Strconv}.

Definition realm_param (realm : bytes) : list bytes :=
  if bool_decide (realm = []) then [] else [ #"realm=" ++ Quote (quoteSafe realm)].

Definition WriteChallenge (realm : bytes) (err : err_opt) : response :=
  let '(st, code, desc) := classifyAuthError err in
  if 500 <=? st then writeStatus st None
  else
    let params := realm_param realm ++
      (if bool_decide (code = []) then []
       else [ #"error=" ++ Quote code; #"error_description=" ++ Quote desc]) in
    writeBearerChallenge st params.

Definition WriteInsufficientScope (realm : bytes) (scopes : list bytes) : response :=
  let valid := filter (λ sc, isScopeToken sc = true) scopes in
  let params := realm_param realm ++ [ #'"error='insufficient_scope'"] ++
    (match valid with [] => [] | _ => [ #'"scope='" ++ Join valid #" " ++ [x22]] end) in
  writeBearerChallenge 403 params.
End Response.

(** ** The middleware *)

(** What one request leads to. *)
Inductive outcome : Type :=
  | Responded (r : response) (reported : err_opt)   (* and what OnError was told *)
  | Next (payload : bytes).                         (* next called, payload in the context *)

(** [ClaimsFromContext], on the payload the context holds. *)
Definition ClaimsFromContext {C} (unmarshal : bytes → res C) (payload : option bytes) (dst : option C) :
    option C * err_opt :=
  match dst with
  | None => (None, Some [ErrInvalidDestination])
  | Some _ =>
      match payload with
      | None => (dst, Some [ErrNoClaimsInContext])
      | Some payload =>
          let '(dst, err) := decodeFreshObject unmarshal payload dst in
          (dst, wrap ErrMalformedToken <$> err)
      end
  end.

Section Middleware.
Context `{Crypto, Unicode, Strconv}.

Definition Middleware (keys : option KeyProvider) (opts : list (option ParseOption)) (clock : Time)
    (values : list bytes) : list event * outcome :=
  let cfg := apply_all applyParse opts (default_config clock) in
  match BearerToken values with
  | None => ([], Responded (WriteChallenge (mw_Realm cfg) None) None)
  | Some token =>
      match parseVerified token keys cfg with
      | (t, Err err) =>
          (t, Responded (WriteChallenge (mw_Realm cfg) (Some err))
                (if mw_OnError cfg then Some err else None))
      | (t, Ok (_, payload)) => (t, Next payload)
      end
  end.
End Middleware.

(** ** The bearer token of a request *)

Lemma TrimLeft_split s c :
  ∃ n, s = replicate n c ++ TrimLeft s [c] ∧ head (TrimLeft s [c]) ≠ Some c.
Proof.
  induction s as [|x s (n & IH & Hh)]; [by exists 0%nat|]. cbn [TrimLeft].
  case_bool_decide as Hx.
  - apply list_elem_of_singleton in Hx as ->. exists (S n). split; [|done]. simpl. by f_equal.
  - exists 0%nat. split; [done|]. simpl. intros [= ->]. apply Hx. by left.
Qed.

Lemma TrimLeft_replicate n c t : head t ≠ Some c → TrimLeft (replicate n c ++ t) [c] = t.
Proof.
  intros Ht. induction n as [|n IH]; simpl.
  - destruct t as [|x t]; [done|]. simpl. rewrite bool_decide_eq_false_2; [done|].
    intros ->%list_elem_of_singleton. done.
  - by rewrite bool_decide_eq_true_2 by by left.
Qed.

Lemma TrimRight_id s c : c ∉ s → TrimRight s [c] = s.
Proof.
  intros Hs. unfold TrimRight. destruct (TrimLeft_split (rev s) c) as (n & Hr & _).
  destruct n as [|n]; [simpl in Hr; by rewrite <- Hr, rev_involutive|].
  exfalso. apply Hs. apply list_elem_of_In, in_rev, list_elem_of_In. rewrite Hr. by left.
Qed.

Lemma isB64Token_head t : isB64Token t = true → head t ≠ Some " "%byte.
Proof.
  intros Ht Hh. destruct t as [|x t]; [done|]. simpl in Hh. injection Hh as ->.
  unfold isB64Token in Ht. apply andb_true_iff in Ht as [Hne Hall].
  assert (Hin : " "%byte ∈ TrimRight (" "%byte :: t) #"=").
  { unfold TrimRight. cbn [rev]. destruct (TrimLeft_split (rev t ++ [" "%byte]) "="%byte) as (n & Hr & Hh).
    change #"=" with ["="%byte]. set (u := TrimLeft _ _) in *. clearbody u.
    destruct (decide (u = [])) as [->|Hu].
    - rewrite app_nil_r in Hr. exfalso.
      assert (Hc : " "%byte ∈ replicate n "="%byte) by (rewrite <- Hr; apply elem_of_app; right; by left).
      by apply elem_of_replicate in Hc as [? _].
    - destruct u as [|y u _] using rev_ind; [done|]. rewrite app_assoc in Hr.
      apply app_inj_tail in Hr as [_ <-]. rewrite rev_unit. by left. }
  by pose proof (forallb_elem _ _ _ Hall Hin).
Qed.

(** The credentials syntax of RFC 6750 section 2.1. *)
Definition bearer_credentials (h token : bytes) : Prop :=
  ∃ scheme n, h = scheme ++ replicate (S n) " "%byte ++ token ∧
    length scheme = length bearer ∧ EqualFold scheme bearer = true ∧ isB64Token token = true.

Lemma BearerToken_Some values token :
  BearerToken values = Some token ↔ ∃ h, values = [h] ∧ bearer_credentials h token.
Proof.
  unfold BearerToken. split.
  - destruct values as [|h [|? ?]]; [done| |done]. intros Hb. exists h. split; [done|].
    destruct (_ || _ || _) eqn:Hc; [done|]. bool_prop.
    destruct (isB64Token _) eqn:Ht; [|done]. injection Hb as <-.
    destruct (TrimLeft_split (drop (length bearer) h) " "%byte) as (n & Hd & _).
    change #" " with [" "%byte] in *. set (t := TrimLeft _ _) in *. clearbody t.
    exists (take (length bearer) h).
    assert (Hn : n ≠ 0%nat).
    { intros ->. rewrite app_nil_l in Hd. apply (isB64Token_head t Ht).
      rewrite <- (Nat.add_0_r (length bearer)), <- lookup_drop, Hd in H0. by destruct t. }
    destruct n as [|n]; [done|]. exists n. split; [|split; [|split; done]].
    + rewrite <- Hd. by rewrite take_drop.
    + rewrite length_take. apply Nat.leb_gt in H. lia.
  - intros (h & -> & scheme & n & -> & Hl & Hf & Ht).
    rewrite length_app, Hl. rewrite (proj2 (Nat.leb_gt _ _)) by (simpl; lia).
    rewrite take_app_length', drop_app_length' by done. rewrite Hf.
    rewrite lookup_app_r, Hl, Nat.sub_diag by lia. cbn [replicate app].
    rewrite bool_decide_eq_true_2 by done. cbn [negb orb].
    change (" "%byte :: replicate n " "%byte ++ token) with (replicate (S n) " "%byte ++ token).
    change #" " with [" "%byte]. rewrite TrimLeft_replicate by (by apply isB64Token_head). by rewrite Ht.
Qed.

Lemma b64url_token_char c : is_b64url c = true → isB64TokenChar c = true ∧ c ≠ "="%byte.
Proof.
  intros Hc. pose proof (byte_forall (λ c, negb (is_b64url c) || (isB64TokenChar c && negb (beq c "="%byte)))
    eq_refl c) as Hb. cbv beta in Hb. rewrite Hc in Hb. cbn [negb orb] in Hb.
  apply andb_true_iff in Hb as [? Hb]. bool_prop. done.
Qed.

Lemma compact_token h p s : isB64Token (compact h p s) = true.
Proof.
  assert (Hall : ∀ c, c ∈ compact h p s → isB64TokenChar c = true ∧ c ≠ "="%byte).
  { intros c. unfold compact. rewrite !elem_of_app.
    assert (He : ∀ b, c ∈ Encode b → isB64TokenChar c = true ∧ c ≠ "="%byte).
    { intros b Hb. apply b64url_token_char. exact (forallb_elem _ _ _ (Encode_alphabet b) Hb). }
    intros [?|[->%list_elem_of_singleton|[?|[->%list_elem_of_singleton|?]]]]; eauto; done. }
  unfold isB64Token. change #"=" with ["="%byte]. rewrite TrimRight_id.
  2:{ intros Hin. by destruct (Hall _ Hin). }
  apply andb_true_iff. split.
  - rewrite bool_decide_eq_false_2; [done|]. unfold compact. by destruct (Encode h).
  - apply forallb_forall. intros c Hc. by apply Hall, list_elem_of_In.
Qed.

(** [BearerToken] reads exactly the RFC 6750 credentials: one
    Authorization header, the scheme in any case, one or more spaces, and a
    b64token to the end; and every compact token is such a token, so what
    [Sign] produces passes through the header unchanged. *)
Theorem BearerToken_spec :
  (∀ values token, BearerToken values = Some token ↔
     ∃ h, values = [h] ∧ bearer_credentials h token) ∧
  (∀ h p s, BearerToken [ #"Bearer " ++ compact h p s] = Some (compact h p s)).
Proof.
  split; [apply BearerToken_Some|]. intros h p s. apply BearerToken_Some. eexists. split; [done|].
  exists #"Bearer", 0%nat. split; [done|]. split; [done|]. split; [done|]. apply compact_token.
Qed.

(** ** The middleware lets only verified requests through *)

Section Guard.
Context `{Crypto, Unicode, Strconv}.

Lemma classify_status err :
  let '(st, code, _) := classifyAuthError err in
  st ∈ [400; 401; 500; 503] ∧ (code ≠ [] → st = 400 ∨ st = 401).
Proof.
  unfold classifyAuthError. repeat case_match; simplify_eq; (split; [|by auto]);
    by apply (bool_decide_unpack _).
Qed.

Lemma WriteChallenge_status realm err :
  status (WriteChallenge realm err) = fst (fst (classifyAuthError err)) ∧
  (500 <= status (WriteChallenge realm err) → www_authenticate (WriteChallenge realm err) = None).
Proof.
  unfold WriteChallenge. destruct (classifyAuthError err) as [[st code] desc]. cbn [fst].
  destruct (500 <=? st) eqn:Hs; bool_prop; cbn; [done|]. split; [done|]. lia.
Qed.

(** C21: the next handler runs exactly for a request that carries one bearer
    token which [parseVerified] accepts, and finds in its context the verified
    payload; any other request gets a 400, 401, 500 or 503 response that
    depends on nothing but the class of the error, and the error itself only
    goes to OnError. *)
Theorem middleware_guards keys opts clock values :
  let cfg := apply_all applyParse opts (default_config clock) in
  match snd (Middleware keys opts clock values) with
  | Next payload => ∃ h token header, values = [h] ∧ bearer_credentials h token ∧
      accepted token keys cfg header payload
  | Responded r reported =>
      status r ∈ [400; 401; 500; 503] ∧
      (∀ token header payload, BearerToken values = Some token →
         ¬ accepted token keys cfg header payload) ∧
      (∃ err, r = WriteChallenge (mw_Realm cfg) err ∧
         reported = (if mw_OnError cfg then err else None))
  end.
Proof.
  intros cfg. unfold Middleware. fold cfg.
  assert (Hst : ∀ err, status (WriteChallenge (mw_Realm cfg) err) ∈ [400; 401; 500; 503]).
  { intros err. rewrite (proj1 (WriteChallenge_status _ err)). pose proof (classify_status err) as Hc.
    destruct (classifyAuthError err) as [[st code] desc]. by destruct Hc. }
  destruct (BearerToken values) as [token|] eqn:Hb.
  - destruct (parseVerified token keys cfg) as [t [[header payload]|err]] eqn:Hp; cbn [snd].
    + apply BearerToken_Some in Hb as (h & -> & Hc). exists h, token, header. split; [done|].
      split; [done|]. apply parseVerified_Ok. unfold result_of. by rewrite Hp.
    + split; [done|]. split; [|by exists (Some err)].
      intros token' header payload [= <-] Hacc. apply parseVerified_Ok in Hacc.
      unfold result_of in Hacc. by rewrite Hp in Hacc.
  - cbn [snd]. split; [done|]. split; [done|]. exists None. by destruct (mw_OnError cfg).
Qed.

(** Inside the next handler, [ClaimsFromContext] decodes the payload of
    the very token that was accepted, leaving the destination alone on error;
    outside it reports ErrNoClaimsInContext. *)
Theorem claims_from_context {C} (unmarshal : bytes → res C) keys opts clock values payload old :
  snd (Middleware keys opts clock values) = Next payload →
  ClaimsFromContext unmarshal None (Some old) = (Some old, Some [ErrNoClaimsInContext]) ∧
  match ClaimsFromContext unmarshal (Some payload) (Some old) with
  | (dst, None) => ∃ c token header, dst = Some c ∧ BearerToken values = Some token ∧
      accepted token keys (apply_all applyParse opts (default_config clock)) header payload ∧
      decodeObjectInto unmarshal payload = Ok c
  | (dst, Some e) => dst = Some old ∧ errors_Is e ErrMalformedToken = true
  end.
Proof.
  intros Hm. split; [done|]. unfold Middleware in Hm.
  destruct (BearerToken values) as [token|]; [|done].
  destruct (parseVerified _ _ _) as [t [[header p]|err]] eqn:Hp; [|done]. injection Hm as ->.
  unfold ClaimsFromContext. pose proof (decodeFresh_atomic unmarshal payload old) as Hd.
  destruct (decodeFreshObject unmarshal payload (Some old)) as [d [e|]]; cbn [fmap option_fmap option_map].
  - split; [done|]. apply errors_Is_wrap.
  - destruct Hd as (c & -> & Hc). exists c, token, header. split; [done|]. split; [done|].
    split; [|done]. apply parseVerified_Ok. unfold result_of. by rewrite Hp.
Qed.
End Guard.

(** ** Challenges cannot be broken out of *)

(** No control character: nothing that ends a header line. *)
Definition header_safe (c : byte) : bool := (32 <=? bz c) && negb (beq c x7f).

(** *** Reading a challenge back

    What a client makes of the header: the scheme, and attributes whose values
    are quoted strings (RFC 9110 section 5.6.4: a backslash quotes the octet after
    it, and a quotation mark that is not quoted ends the string). *)

(** After the opening quotation mark: the value, and what follows the closing one. *)
Fixpoint read_quoted (s : bytes) : option (bytes * bytes) :=
  match s with
  | [] => None
  | c :: t =>
      if beq c x22 then Some ([], t)
      else if beq c x5c then
        match t with
        | [] => None
        | d :: t => '(v, r) ← read_quoted t; Some (d :: v, r)
        end
      else '(v, r) ← read_quoted t; Some (c :: v, r)
  end.

Fixpoint read_params (fuel : nat) (s : bytes) : option (list (bytes * bytes)) :=
  match fuel with
  | O => None
  | S n =>
      i ← IndexByte s "="%byte;
      match drop (S i) s with
      | x22 :: t =>
          '(v, r) ← read_quoted t;
          match r with
          | [] => Some [(take i s, v)]
          | _ => r ← strip_prefix #", " r; cons (take i s, v) <$> read_params n r
          end
      | _ => None
      end
  end.

(** The attributes of a Bearer challenge; the number of octets is enough fuel. *)
Definition read_challenge (v : bytes) : option (list (bytes * bytes)) :=
  if bool_decide (v = #"Bearer") then Some []
  else t ← strip_prefix #"Bearer " v; read_params (length t) t.

(** The octets between the quotation marks leave them where they are. *)
Fixpoint quotes_closed (s : bytes) : bool :=
  match s with
  | [] => true
  | c :: t =>
      if beq c x22 then false
      else if beq c x5c then match t with [] => false | _ :: t => quotes_closed t end
      else quotes_closed t
  end.

Fixpoint unquoted (s : bytes) : bytes :=
  match s with
  | [] => []
  | c :: t => if beq c x5c then match t with [] => [] | d :: t => d :: unquoted t end else c :: unquoted t
  end.

Lemma read_quoted_body n : ∀ b rest,
  (length b <= n)%nat → quotes_closed b = true → read_quoted (b ++ x22 :: rest) = Some (unquoted b, rest).
Proof.
  induction n as [|n IH]; intros [|c b] rest Hn; try (simpl in Hn; lia); [done..|].
  cbn [quotes_closed unquoted app read_quoted length] in *.
  destruct (beq c x22); [done|]. destruct (beq c x5c).
  - destruct b as [|d b]; [done|]. intros Hb. cbn [app length] in *. rewrite IH by (done || lia). done.
  - intros Hb. rewrite IH by (done || lia). done.
Qed.

(** Text without quotation marks and backslashes is itself. *)
Definition no_quotes (s : bytes) : Prop := x22 ∉ s ∧ x5c ∉ s.

Lemma no_quotes_cons c s : no_quotes (c :: s) ↔ beq c x22 = false ∧ beq c x5c = false ∧ no_quotes s.
Proof. unfold no_quotes. rewrite !not_elem_of_cons, !beq_false. naive_solver. Qed.

Lemma no_quotes_closed s : no_quotes s → quotes_closed s = true ∧ unquoted s = s.
Proof.
  induction s as [|c s IH]; [done|]. intros (H1 & H2 & Hs)%no_quotes_cons.
  cbn [quotes_closed unquoted]. rewrite H1, H2. destruct (IH Hs) as [-> ->]. done.
Qed.

(** An attribute, as it is written: its name and the octets between the quotes. *)
Definition param (nb : bytes * bytes) : bytes := nb.1 ++ "="%byte :: x22 :: nb.2 ++ [x22].

Definition param_ok (nb : bytes * bytes) : Prop := "="%byte ∉ nb.1 ∧ quotes_closed nb.2 = true.

Lemma read_param n nb rest :
  param_ok nb →
  read_params (S n) (param nb ++ rest) =
    match rest with
    | [] => Some [(nb.1, unquoted nb.2)]
    | _ => r ← strip_prefix #", " rest; cons (nb.1, unquoted nb.2) <$> read_params n r
    end.
Proof.
  destruct nb as [name b]. intros [Hn Hb]. unfold param. cbn [fst snd] in *. rewrite <- app_assoc.
  cbn [read_params app]. rewrite IndexByte_app by done. cbn [mbind option_bind].
  rewrite drop_sep, take_sep. rewrite <- app_assoc. cbn [app].
  by rewrite (read_quoted_body _ b rest (le_n _)).
Qed.

Lemma read_params_Join l : ∀ n,
  l ≠ [] → (length l <= n)%nat → Forall param_ok l →
  read_params n (Join (param <$> l) #", ") = Some ((λ nb, (nb.1, unquoted nb.2)) <$> l).
Proof.
  induction l as [|nb l IH]; [done|]. intros [|n] _ Hn Hl; [simpl in Hn; lia|].
  apply list.Forall_cons in Hl as [Hnb Hl]. destruct l as [|nb' l].
  - cbn [fmap list_fmap Join]. rewrite <- (app_nil_r (param nb)). by rewrite read_param.
  - change (param <$> nb :: nb' :: l) with (param nb :: param nb' :: (param <$> l)). rewrite Join_cons2.
    rewrite read_param by done. cbn [app]. change (strip_prefix _ _) with (Some (Join (param nb' :: (param <$> l)) #", ")).
    cbn [mbind option_bind]. change (param nb' :: (param <$> l)) with (param <$> nb' :: l).
    rewrite IH by (done || simpl in *; lia). done.
Qed.

Lemma length_Join_param l : (length l <= length (Join (param <$> l) #", "))%nat.
Proof.
  induction l as [|nb l IH]; [simpl; lia|]. destruct l as [|nb' l].
  - cbn [fmap list_fmap Join length]. unfold param. rewrite length_app. cbn [length]. lia.
  - change (param <$> nb :: nb' :: l) with (param nb :: param nb' :: (param <$> l)). rewrite Join_cons2.
    rewrite !length_app. change (param <$> nb' :: l) with (param nb' :: (param <$> l)) in IH.
    change (length #", ") with 2%nat. cbn [length] in *. lia.
Qed.

(** What a client reads of a challenge is what was written. *)
Lemma read_bearer st l v :
  Forall param_ok l → www_authenticate (writeBearerChallenge st (param <$> l)) = Some v →
  read_challenge v = Some ((λ nb, (nb.1, unquoted nb.2)) <$> l).
Proof.
  intros Hl Hv. unfold writeBearerChallenge, writeStatus in Hv. cbn [www_authenticate] in Hv.
  apply (inj Some) in Hv. subst v. destruct l as [|nb l]; [done|].
  change (match param <$> nb :: l with [] => #"Bearer" | _ => #"Bearer " ++ Join (param <$> nb :: l) #", " end)
    with (#"Bearer " ++ Join (param <$> nb :: l) #", ").
  unfold read_challenge. rewrite bool_decide_eq_false_2 by done.
  change (strip_prefix _ (#"Bearer " ++ ?t)) with (Some t). cbn [mbind option_bind].
  apply read_params_Join; [done|apply length_Join_param|done].
Qed.

Section Injection.
Context `{Strconv}.
(** [strconv.Quote] returns a double-quoted Go string literal: it escapes control
    and other characters that do not print, quotation marks and backslashes. *)
Definition go_literal (q : bytes) : Prop :=
  ∃ b, q = x22 :: b ++ [x22] ∧ quotes_closed b = true ∧ forallb header_safe b = true.

Hypothesis QuoteWide_literal : ∀ s, go_literal (QuoteWide s).

Lemma safe_app a b :
  forallb header_safe (a ++ b) = forallb header_safe a && forallb header_safe b.
Proof. apply forallb_app. Qed.

Lemma safe_Join l sep :
  forallb header_safe sep = true → Forall (λ s, forallb header_safe s = true) l →
  forallb header_safe (Join l sep) = true.
Proof.
  intros Hs. induction 1 as [|s l Hl _ IH]; [done|]. destruct l as [|t l]; [done|].
  rewrite Join_cons2, !safe_app, Hl, Hs, IH. done.
Qed.

Lemma printable_safe c : printable c = true → header_safe c = true.
Proof.
  intros Hc. pose proof (byte_forall (λ c, negb (printable c) || header_safe c) eq_refl c) as Hb.
  cbv beta in Hb. by rewrite Hc in Hb.
Qed.

Lemma Quote_literal s : go_literal (Quote s).
Proof.
  unfold Quote. destruct (forallb printable s) eqn:Hp; [|done].
  exists (concat (map (λ c, if beq c x22 || beq c x5c then [x5c; c] else [c]) s)). split; [done|].
  induction s as [|c s IH]; [done|]. cbn [forallb] in Hp. apply andb_true_iff in Hp as [Hc Hp].
  destruct (IH Hp) as [Hq Hs]. apply printable_safe in Hc. cbn [map concat].
  destruct (beq c x22) eqn:H1, (beq c x5c) eqn:H2; cbn [orb app quotes_closed forallb];
    rewrite ?H1, ?H2, ?Hc, ?Hq, ?Hs; done.
Qed.

Lemma Quote_no_quotes s : forallb printable s = true → no_quotes s → Quote s = x22 :: s ++ [x22].
Proof.
  unfold Quote. intros ->. intros Hs. do 2 f_equal. induction s as [|c s IH]; [done|].
  apply no_quotes_cons in Hs as (H1 & H2 & Hs). cbn [map concat]. rewrite H1, H2, IH by done. done.
Qed.

Lemma scope_token s : isScopeToken s = true → forallb header_safe s = true ∧ no_quotes s.
Proof.
  unfold isScopeToken. intros [_ Hs]%andb_true_iff.
  assert (Hc : ∀ c, c ∈ s → header_safe c = true ∧ c ≠ x22 ∧ c ≠ x5c).
  { intros c Hc. pose proof (forallb_elem _ _ _ Hs Hc) as Hn. apply negb_true_iff in Hn.
    pose proof (byte_forall (λ c, ((bz c <? 33) || (126 <? bz c) || beq c x22 || beq c x5c) || header_safe c)
      eq_refl c) as Hb. cbv beta in Hb. rewrite Hn in Hb.
    apply orb_false_iff in Hn as [[_ H1]%orb_false_iff H2]. by rewrite !beq_false in *. }
  split.
  - apply forallb_forall. intros c Hin%list_elem_of_In. by apply Hc.
  - split; intros Hin; apply Hc in Hin; naive_solver.
Qed.

Lemma Join_no_quotes l : Forall no_quotes l → no_quotes (Join l #" ").
Proof.
  intros Hl. unfold no_quotes. induction Hl as [|s l Hs Hl IH]; [split; by intros ?%elem_of_nil|].
  destruct l as [|t l]; [done|]. rewrite Join_cons2. rewrite !elem_of_app.
  destruct Hs, IH. change #" " with [" "%byte]. rewrite !list_elem_of_singleton. naive_solver.
Qed.

(** The value of the realm attribute: what its quoted string says. *)
Definition realm_value (realm : bytes) : bytes :=
  match read_quoted (drop 1 (Quote (quoteSafe realm))) with Some (v, _) => v | None => [] end.

(** The attributes, as a client reads them. *)
Definition realm_attribute (realm : bytes) : list (bytes * bytes) :=
  if bool_decide (realm = []) then [] else [(#"realm", realm_value realm)].

Definition error_attributes (err : err_opt) : list (bytes * bytes) :=
  let '(_, code, desc) := classifyAuthError err in
  if bool_decide (code = []) then [] else [(#"error", code); (#"error_description", desc)].

Definition scope_attribute (scopes : list bytes) : list (bytes * bytes) :=
  match filter (λ sc, isScopeToken sc = true) scopes with
  | [] => []
  | valid => [(#"scope", Join valid #" ")]
  end.

(** Attributes that are written between quotes as [param] writes them, are read
    as stated and have no control character. *)
Definition written (params : list bytes) (attrs : list (bytes * bytes)) : Prop :=
  ∃ l, params = param <$> l ∧ Forall param_ok l ∧ (λ nb, (nb.1, unquoted nb.2)) <$> l = attrs ∧
    Forall (λ s, forallb header_safe s = true) params.

Lemma written_app p1 p2 a1 a2 : written p1 a1 → written p2 a2 → written (p1 ++ p2) (a1 ++ a2).
Proof.
  intros (l1 & -> & ? & <- & ?) (l2 & -> & ? & <- & ?). exists (l1 ++ l2). rewrite !fmap_app.
  by repeat split; try apply list.Forall_app_2.
Qed.

Lemma written_nil : written [] [].
Proof. by exists []. Qed.

(** One attribute between quotation marks. *)
Lemma written_param name b :
  "="%byte ∉ name → forallb header_safe name = true →
  quotes_closed b = true → forallb header_safe b = true →
  written [name ++ #"=" ++ x22 :: b ++ [x22]] [(name, unquoted b)].
Proof.
  intros Hn Hsn Hb Hsb. exists [(name, b)]. split; [done|]. split; [by apply list.Forall_singleton|].
  split; [done|]. apply list.Forall_singleton. rewrite !safe_app. cbn [forallb].
  rewrite safe_app, Hsn, Hsb. done.
Qed.

Lemma written_plain name s :
  "="%byte ∉ name → forallb header_safe name = true → no_quotes s → forallb header_safe s = true →
  written [name ++ #"=" ++ x22 :: s ++ [x22]] [(name, s)].
Proof.
  intros Hn Hsn Hs Hss. destruct (no_quotes_closed s Hs) as [Hq Hu]. rewrite <- Hu at 2. by apply written_param.
Qed.

Lemma written_quote name s :
  "="%byte ∉ name → forallb header_safe name = true → forallb printable s = true → no_quotes s →
  written [name ++ #"=" ++ Quote s] [(name, s)].
Proof.
  intros Hn Hsn Hp Hs. rewrite Quote_no_quotes by done. apply written_plain; try done.
  apply forallb_forall. intros c Hc. apply printable_safe. by eapply forallb_forall in Hp.
Qed.

Lemma written_realm realm : written (realm_param realm) (realm_attribute realm).
Proof.
  unfold realm_param, realm_attribute. case_bool_decide; [apply written_nil|].
  unfold realm_value. destruct (Quote_literal (quoteSafe realm)) as (b & -> & Hb & Hs).
  change (drop 1 (x22 :: b ++ [x22])) with (b ++ [x22]).
  rewrite (read_quoted_body _ b [] (le_n _) Hb).
  apply (written_param #"realm" b); [|done..]. by apply (bool_decide_unpack _).
Qed.

Lemma written_error err :
  let '(_, code, desc) := classifyAuthError err in
  written (if bool_decide (code = []) then []
           else [ #"error=" ++ Quote code; #"error_description=" ++ Quote desc]) (error_attributes err).
Proof.
  unfold error_attributes. destruct (classifyAuthError err) as [[st code] desc] eqn:Hc.
  case_bool_decide as Hne; [apply written_nil|].
  assert (Hfix : (forallb printable code = true ∧ no_quotes code) ∧ forallb printable desc = true ∧ no_quotes desc).
  { revert Hc Hne. unfold classifyAuthError. destruct err as [err|]; [|intros [= _ <- _]; done].
    repeat (match goal with |- (if ?b then _ else _) = _ → _ => destruct b end);
      intros [= _ <- <-] Hne; try done; (split; (split; [done|split; by apply (bool_decide_unpack _)])). }
  destruct Hfix as [[Hcp Hcs] [Hdp Hds]].
  apply (written_app [_] [_] [_] [_]).
  - apply (written_quote #"error" code); [by apply (bool_decide_unpack _)|done..].
  - apply (written_quote #"error_description" desc); [by apply (bool_decide_unpack _)|done..].
Qed.

Lemma written_scope scopes :
  let valid := filter (λ sc, isScopeToken sc = true) scopes in
  written (match valid with [] => [] | _ => [ #'"scope='" ++ Join valid #" " ++ [x22]] end) (scope_attribute scopes).
Proof.
  cbn zeta. unfold scope_attribute. destruct (filter _ scopes) as [|s l] eqn:Hf; [apply written_nil|].
  assert (Hall : Forall (λ s, forallb header_safe s = true ∧ no_quotes s) (s :: l)).
  { rewrite <- Hf. apply list.Forall_forall. intros x [Hx _]%list_elem_of_filter. by apply scope_token. }
  apply list.Forall_and in Hall as [Hsafe Hplain].
  apply (written_plain #"scope"); [by apply (bool_decide_unpack _)|done|by apply Join_no_quotes|by apply safe_Join].
Qed.

(** A challenge that is written is read as it was meant, without a control
    character. *)
Lemma written_challenge st params attrs v :
  written params attrs → www_authenticate (writeBearerChallenge st params) = Some v →
  read_challenge v = Some attrs ∧ forallb header_safe v = true.
Proof.
  intros (l & -> & Hok & <- & Hs) Hv. split; [by eapply read_bearer|].
  unfold writeBearerChallenge, writeStatus in Hv. cbn [www_authenticate] in Hv.
  apply (inj Some) in Hv. subst v. destruct (param <$> l) as [|p ps]; [done|].
  rewrite safe_app, safe_Join by done. done.
Qed.

Lemma unsafe_rune_spec c : unsafe_rune [c] = beq c x22 || beq c x5c || (bz c <? 32) || beq c x7f.
Proof. done. Qed.

(** A realm of printable ASCII is sent as it is, less its quotation marks and
    backslashes. *)
Lemma quoteSafe_printable realm :
  forallb printable realm = true →
  quoteSafe realm = filter (λ c, beq c x22 || beq c x5c = false) realm.
Proof.
  intros Hp. induction realm as [|c s IH]; [done|]. cbn [forallb] in Hp. apply andb_true_iff in Hp as [Hc Hp].
  change (c :: s) with ([c] ++ s) at 1. unfold quoteSafe.
  assert (Hr : is_rune [c] = true).
  { unfold printable in Hc. bool_prop. cbn. apply rune1_lt. lia. }
  rewrite rune_fold_good by done. fold (quoteSafe s). rewrite IH by done. rewrite filter_cons, unsafe_rune_spec.
  assert (Hrest : (bz c <? 32) || beq c x7f = false).
  { pose proof (byte_forall (λ c, negb (printable c) || negb ((bz c <? 32) || beq c x7f)) eq_refl c) as Hb.
    cbv beta in Hb. rewrite Hc in Hb. cbn [negb orb] in Hb. by apply negb_true_iff. }
  rewrite <- orb_assoc, Hrest, orb_false_r. destruct (beq c x22 || beq c x5c); by case_decide.
Qed.

Lemma realm_value_printable realm :
  forallb printable realm = true → realm_value realm = filter (λ c, beq c x22 || beq c x5c = false) realm.
Proof.
  intros Hp. unfold realm_value. rewrite quoteSafe_printable by done.
  set (t := filter _ realm).
  assert (Ht : no_quotes t) by (split; unfold t; rewrite list_elem_of_filter; by intros [? _]).
  assert (Hpt : forallb printable t = true).
  { rewrite forallb_forall in Hp |- *. intros c Hc. apply Hp, list_elem_of_In.
    apply list_elem_of_In, list_elem_of_filter in Hc as [_ Hc]. done. }
  rewrite Quote_no_quotes by done. change (drop 1 (x22 :: t ++ [x22])) with (t ++ [x22]). destruct (no_quotes_closed t Ht) as [Hq Hu].
  rewrite (read_quoted_body _ t [] (le_n _) Hq). exact Hu.
Qed.

(** C22: no realm, error or scope breaks out of a challenge.  Every
    WWW-Authenticate value that is written has no control character, and a client
    that reads it as RFC 9110 says, quoted strings and all, finds exactly the
    attributes that were meant: the realm (if any) and the error and its
    description, or the realm, "insufficient_scope" and the scope tokens given,
    less those that are no scope tokens.  The realm it reads is, for printable
    ASCII, the one given less its quotation marks and backslashes; for any other,
    what the Go literal [strconv.Quote] makes of it says. *)
Theorem challenge_injection_safe realm err scopes :
  (∀ v, www_authenticate (WriteChallenge realm err) = Some v →
     read_challenge v = Some (realm_attribute realm ++ error_attributes err) ∧
     forallb header_safe v = true) ∧
  (∀ v, www_authenticate (WriteInsufficientScope realm scopes) = Some v →
     read_challenge v =
       Some (realm_attribute realm ++ [(#"error", #"insufficient_scope")] ++ scope_attribute scopes) ∧
     forallb header_safe v = true) ∧
  (forallb printable realm = true →
     realm_value realm = filter (λ c, beq c x22 || beq c x5c = false) realm).
Proof.
  split; [|split; [|apply realm_value_printable]]; intros v.
  - unfold WriteChallenge. pose proof (written_error err) as He.
    destruct (classifyAuthError err) as [[st code] desc]. destruct (500 <=? st); [done|].
    apply written_challenge. apply written_app; [apply written_realm|done].
  - unfold WriteInsufficientScope. apply written_challenge.
    apply written_app; [apply written_realm|]. apply written_app; [|apply written_scope].
    apply (written_plain #"error" #"insufficient_scope"); try done; [|split]; by apply (bool_decide_unpack _).
Qed.
End Injection.
