(* ===== verification/Profiles.v ===== *)
(** * Profiles: idtoken.go and atclaims.go, the OIDC and RFC 9068 profiles

    The claim structs and their validators; IdTokens has their JSON form.  A
    provider-neutral ID token embeds the registered claims and the standard ones.  The order in which the map of
    two hash claims is ranged over only picks the name in the message. *)

From S2P Require Import Prelude Errors GoLib Utf8 GoStr B64 Json StrictJson Alg Dates Claims.

Record Address := mkAddress {
  Formatted : bytes; StreetAddress : bytes; Locality : bytes;
  Region : bytes; PostalCode : bytes; Country : bytes }.

Record StandardClaims := mkStandardClaims {
  Name : bytes; GivenName : bytes; FamilyName : bytes; MiddleName : bytes; Nickname : bytes;
  PreferredUsername : bytes; Profile : bytes; Picture : bytes; Website : bytes; Email : bytes;
  EmailVerified : option bool;
  Gender : bytes; Birthdate : bytes; ZoneInfo : bytes; Locale : bytes; PhoneNumber : bytes;
  PhoneNumberVerified : option bool;
  sc_Address : option Address;
  UpdatedAt : option Time;
  sc_Nonce : bytes }.

Record IDTokenClaims := mkIDTokenClaims {
  id_registered : RegisteredClaims;
  id_standard : StandardClaims;
  AuthorizedParty : bytes;
  AccessTokenHash : bytes;
  CodeHash : bytes;
  id_AuthTime : option Time;
  id_ACR : bytes;
  id_AMR : list bytes }.

(** The promoted field [claims.Nonce]. *)
Definition Nonce (c : IDTokenClaims) : bytes := sc_Nonce (id_standard c).

Record AccessTokenClaims := mkAccessTokenClaims {
  at_registered : RegisteredClaims;
  ClientID : bytes;
  at_Scope : bytes;
  at_AuthTime : option Time;
  at_ACR : bytes;
  at_AMR : list bytes;
  at_Groups : list bytes;
  at_Roles : list bytes;
  at_Entitlements : list bytes }.

Record IDTokenValidationContext := mkIDTokenValidationContext {
  vc_ClientID : bytes;
  TrustedAudiences : list bytes;
  ExpectedNonce : bytes;
  RequireNonce : bool;
  AccessToken : bytes;
  AuthorizationCode : bytes;
  SigningAlgorithm : Algorithm }.

Definition AccessTokenType : bytes := #"at+jwt".

(** The audience as the list the code ranges over. *)
Definition audiences (rc : RegisteredClaims) : list bytes := default [] (rc_Audience rc).

Section Profiles.
Context `{URL}.

(** The loop over the audience values. *)
Fixpoint checkAudiences (l : list bytes) : err_opt :=
  match l with
  | [] => None
  | a :: l =>
      if bool_decide (a = []) then Some [ErrInvalidClaim]
      else match ValidateStringOrURI a with
           | Some e => Some e
           | None => checkAudiences l
           end
  end.

Definition ValidateAccessTokenClaims (claims : AccessTokenClaims) : err_opt :=
  let rc := at_registered claims in
  if bool_decide (Issuer rc = []) || bool_decide (ExpiresAt rc = None) ||
     bool_decide (audiences rc = []) || bool_decide (Subject rc = []) ||
     bool_decide (ClientID claims = []) || bool_decide (IssuedAt rc = None) ||
     bool_decide (ID rc = [])
  then Some [ErrMissingClaim]
  else match ValidateStringOrURI (Issuer rc) with
  | Some e => Some e
  | None =>
      match ValidateStringOrURI (Subject rc) with
      | Some e => Some e
      | None => checkAudiences (audiences rc)
      end
  end.

(** A hash claim, when present, is the canonical base64url of something. *)
Definition badHashClaim (value : bytes) : bool :=
  negb (bool_decide (value = [])) &&
  match Decode value with Ok (_ :: _) => false | _ => true end.

Definition ValidateIDTokenClaims (claims : IDTokenClaims) : err_opt :=
  let rc := id_registered claims in
  let azp := AuthorizedParty claims in
  if bool_decide (Issuer rc = []) || bool_decide (Subject rc = []) ||
     bool_decide (audiences rc = []) || bool_decide (ExpiresAt rc = None) ||
     bool_decide (IssuedAt rc = None) ||
     ((1 <? len (audiences rc)) && bool_decide (azp = []))
  then Some [ErrMissingClaim]
  else match ValidateStringOrURI (Issuer rc) with
  | Some e => Some e
  | None =>
  match ValidateStringOrURI (Subject rc) with
  | Some e => Some e
  | None =>
  match checkAudiences (audiences rc) with
  | Some e => Some e
  | None =>
  match (if bool_decide (azp = []) then None else ValidateStringOrURI azp) with
  | Some e => Some e
  | None =>
      if negb (bool_decide (azp = [])) && negb (Has (rc_Audience rc) azp)
      then Some [ErrInvalidClaim]
      else if badHashClaim (AccessTokenHash claims) || badHashClaim (CodeHash claims)
      then Some [ErrInvalidClaim]
      else if existsb (λ m, bool_decide (m = [])) (id_AMR claims) then Some [ErrInvalidClaim]
      else None
  end end end end.
End Profiles.

Definition oidcHashAlgorithm (alg : Algorithm) : option Hash :=
  if bool_decide (alg ∈ [HS256; RS256; PS256; ES256]) then Some SHA256
  else if bool_decide (alg ∈ [HS384; RS384; PS384; ES384]) then Some SHA384
  else if bool_decide (alg ∈ [HS512; RS512; PS512; ES512; Ed25519; EdDSA]) then Some SHA512
  else None.

Section Context.
Context `{URL, Crypto}.

(** The left half of the digest of [value], encoded. *)
Definition half_hash (h : Hash) (value : bytes) : bytes :=
  let digest := HashSum h value in Encode (take (length digest / 2) digest).

Definition validateOIDCHash (claim value : bytes) (alg : Algorithm) : err_opt :=
  if bool_decide (claim = []) then None
  else if bool_decide (value = []) then Some [ErrInvalidClaim]
  else match oidcHashAlgorithm alg with
       | None => Some [ErrUnsupportedAlgorithm]
       | Some h =>
           if negb (bool_decide (claim = half_hash h value)) then Some [ErrInvalidClaim] else None
       end.

Definition ValidateIDTokenForContext (claims : IDTokenClaims) (v : IDTokenValidationContext) : err_opt :=
  let rc := id_registered claims in
  let azp := AuthorizedParty claims in
  let client := vc_ClientID v in
  match ValidateIDTokenClaims claims with
  | Some e => Some e
  | None =>
      if bool_decide (client = []) then Some [ErrInvalidClaim]
      else if negb (Has (rc_Audience rc) client) then Some [ErrAudienceMismatch]
      else if negb (forallb (λ a, bool_decide (a ∈ client :: TrustedAudiences v)) (audiences rc))
      then Some [ErrAudienceMismatch]
      else if negb (bool_decide (azp = [])) && negb (bool_decide (azp = client))
      then Some [ErrInvalidClaim]
      else if (1 <? len (audiences rc)) && negb (bool_decide (azp = client))
      then Some [ErrInvalidClaim]
      else if (RequireNonce v || negb (bool_decide (ExpectedNonce v = []))) &&
              (bool_decide (Nonce claims = []) || negb (bool_decide (Nonce claims = ExpectedNonce v)))
      then Some [ErrInvalidClaim]
      else match validateOIDCHash (AccessTokenHash claims) (AccessToken v) (SigningAlgorithm v) with
           | Some e => Some e
           | None => validateOIDCHash (CodeHash claims) (AuthorizationCode v) (SigningAlgorithm v)
           end
  end.

(** ** What a valid ID token satisfies *)

Lemma checkAudiences_None l :
  checkAudiences l = None ↔ ∀ a, a ∈ l → a ≠ [] ∧ ValidateStringOrURI a = None.
Proof.
  induction l as [|a l IH]; cbn [checkAudiences].
  - split; [by intros _ a ?%elem_of_nil|done].
  - case_bool_decide as Ha.
    + split; [done|]. intros Hl. by destruct (Hl a) as [? _]; [left|].
    + destruct (ValidateStringOrURI a) as [e|] eqn:Hv.
      * split; [done|]. intros Hl. destruct (Hl a) as [_ ?]; [by left|congruence].
      * rewrite IH. split.
        -- intros Hl b [->|Hb]%elem_of_cons; [done|by apply Hl].
        -- intros Hl b Hb. apply Hl. by right.
Qed.

Definition hash_ok (claim value : bytes) (alg : Algorithm) : Prop :=
  claim = [] ∨ ∃ h, value ≠ [] ∧ oidcHashAlgorithm alg = Some h ∧ claim = half_hash h value.

Lemma validateOIDCHash_None claim value alg :
  validateOIDCHash claim value alg = None ↔ hash_ok claim value alg.
Proof.
  unfold validateOIDCHash, hash_ok. case_bool_decide as Hc; [naive_solver|].
  case_bool_decide as Hv; [naive_solver|]. destruct (oidcHashAlgorithm alg) as [h|]; [|naive_solver].
  destruct (decide (claim = half_hash h value)) as [He|He].
  - rewrite (bool_decide_eq_true_2 _ He). naive_solver.
  - rewrite (bool_decide_eq_false_2 _ He). naive_solver.
Qed.

(** The checks of OIDC Core section 3.1.3.7 that need the client's context. *)
Record context_ok (claims : IDTokenClaims) (v : IDTokenValidationContext) : Prop := {
  ctx_client : vc_ClientID v ≠ [] ∧ vc_ClientID v ∈ audiences (id_registered claims);
  ctx_trusted : ∀ a, a ∈ audiences (id_registered claims) →
    a = vc_ClientID v ∨ a ∈ TrustedAudiences v;
  ctx_azp : AuthorizedParty claims = vc_ClientID v ∨
    (AuthorizedParty claims = [] ∧ len (audiences (id_registered claims)) ≤ 1);
  ctx_nonce : (RequireNonce v = true ∨ ExpectedNonce v ≠ []) →
    Nonce claims ≠ [] ∧ Nonce claims = ExpectedNonce v;
  ctx_at_hash : hash_ok (AccessTokenHash claims) (AccessToken v) (SigningAlgorithm v);
  ctx_c_hash : hash_ok (CodeHash claims) (AuthorizationCode v) (SigningAlgorithm v) }.

Lemma context_valid claims v :
  ValidateIDTokenForContext claims v = None ↔
  ValidateIDTokenClaims claims = None ∧ context_ok claims v.
Proof.
  unfold ValidateIDTokenForContext.
  destruct (ValidateIDTokenClaims claims); [split; [done|by intros []]|].
  set (azp := AuthorizedParty claims). set (client := vc_ClientID v). set (rc := id_registered claims).
  set (single := 1 <? len (audiences rc)).
  assert (Hclient : bool_decide (client = []) || negb (Has (rc_Audience rc) client) = false ↔
    client ≠ [] ∧ client ∈ audiences rc).
  { unfold Has, audiences. rewrite orb_false_iff, negb_false_iff, bool_decide_eq_false.
    destruct (rc_Audience rc); cbn; rewrite ?bool_decide_eq_true; [done|].
    rewrite elem_of_nil. naive_solver. }
  assert (Htrust : negb (forallb (λ a, bool_decide (a ∈ client :: TrustedAudiences v)) (audiences rc)) = false ↔
    ∀ a, a ∈ audiences rc → a = client ∨ a ∈ TrustedAudiences v).
  { rewrite negb_false_iff, forallb_forall. split; intros Ht a Ha.
    - apply list_elem_of_In in Ha. specialize (Ht a Ha). bool_prop. by apply elem_of_cons.
    - apply bool_decide_eq_true, elem_of_cons, Ht. by apply list_elem_of_In. }
  assert (Hazp : (negb (bool_decide (azp = [])) && negb (bool_decide (azp = client))) ||
      (single && negb (bool_decide (azp = client))) = false ↔
    azp = client ∨ (azp = [] ∧ len (audiences rc) ≤ 1)).
  { rewrite orb_false_iff, !andb_false_iff, !negb_false_iff, !bool_decide_eq_true.
    unfold single. rewrite Z.ltb_ge. naive_solver. }
  assert (Hnonce : (RequireNonce v || negb (bool_decide (ExpectedNonce v = []))) &&
      (bool_decide (Nonce claims = []) || negb (bool_decide (Nonce claims = ExpectedNonce v))) = false ↔
    ((RequireNonce v = true ∨ ExpectedNonce v ≠ []) → Nonce claims ≠ [] ∧ Nonce claims = ExpectedNonce v)).
  { rewrite andb_false_iff, !orb_false_iff, !negb_false_iff, !bool_decide_eq_false, !bool_decide_eq_true.
    destruct (RequireNonce v), (decide (ExpectedNonce v = [])); intuition (auto || congruence). }
  pose proof (validateOIDCHash_None (AccessTokenHash claims) (AccessToken v) (SigningAlgorithm v)) as Hat.
  pose proof (validateOIDCHash_None (CodeHash claims) (AuthorizationCode v) (SigningAlgorithm v)) as Hch.
  split.
  - intros Hv. split; [done|].
    destruct (bool_decide (client = [])); [done|]. destruct (negb (Has _ _)); [done|].
    destruct (negb (forallb _ _)); [done|]. destruct (_ && _) in Hv, Hazp; [done|].
    destruct (_ && _) in Hv, Hazp; [done|]. destruct (_ && _) in Hv, Hnonce; [done|].
    destruct (validateOIDCHash (AccessTokenHash claims) _ _); [done|].
    split; [by apply Hclient|by apply Htrust|by apply Hazp|by apply Hnonce|by apply Hat|by apply Hch].
  - intros [_ [H1 H2 H3 H4 H5 H6]].
    apply Hclient, orb_false_iff in H1 as [-> ->]. apply Htrust in H2 as ->.
    apply Hazp, orb_false_iff in H3 as [-> ->]. apply Hnonce in H4 as ->.
    apply Hat in H5 as ->. by apply Hch.
Qed.

(** An ID token is valid for a client's context exactly when it is a
    valid ID token, the client is one of its audiences and every other one is
    trusted, it was issued to the client (explicitly, if there are several
    audiences), the expected nonce is in it, and each hash it carries is the
    half digest of the token or code the client holds. *)
Theorem ValidateIDTokenForContext_spec claims v :
  ValidateIDTokenForContext claims v = None ↔
  ValidateIDTokenClaims claims = None ∧ context_ok claims v.
Proof. apply context_valid. Qed.

Definition uri_ok (s : bytes) : Prop := s ≠ [] ∧ ValidateStringOrURI s = None.

(** The RFC 9068 profile passes exactly the access tokens that have every
    required claim, each of iss, sub and aud a non-empty StringOrURI. *)
Theorem ValidateAccessTokenClaims_spec claims :
  let rc := at_registered claims in
  ValidateAccessTokenClaims claims = None ↔
  uri_ok (Issuer rc) ∧ uri_ok (Subject rc) ∧ audiences rc ≠ [] ∧
  (∀ a, a ∈ audiences rc → uri_ok a) ∧
  ClientID claims ≠ [] ∧ ID rc ≠ [] ∧ is_Some (ExpiresAt rc) ∧ is_Some (IssuedAt rc).
Proof.
  cbn zeta. unfold ValidateAccessTokenClaims, uri_ok. set (rc := at_registered claims).
  rewrite <- !not_eq_None_Some. setoid_rewrite <- checkAudiences_None.
  do 7 (case_bool_decide; [cbn [orb]; naive_solver|cbn [orb]]).
  destruct (ValidateStringOrURI (Issuer rc)); [naive_solver|].
  destruct (ValidateStringOrURI (Subject rc)); naive_solver.
Qed.
End Context.

(** ** OIDC booleans *)

(** [Bool.UnmarshalJSON] of the text of a value: the new value and the error. *)
Definition Bool_UnmarshalJSON (b : bool) (data : bytes) : bool * err_opt :=
  let data := TrimSpace data in
  if bool_decide (data = #"true") || bool_decide (data = #'"'true'") then (true, None)
  else if bool_decide (data = #"false") || bool_decide (data = #'"'false'") then (false, None)
  else (b, Some [ErrText "jwt: not an OIDC boolean"]).

(** [MarshalJSON] is that of the underlying type. *)
Definition Bool_json (b : bool) : json := JBool b.

(** The four forms are accepted, what is accepted is one of them between white
    space, and the value is unchanged by a failure; the JSON form of a value is
    read back. *)
Theorem Bool_spec old data b :
  (Bool_UnmarshalJSON old data = (b, None) ↔
     TrimSpace data = print (JBool b) ∨ TrimSpace data = print (JStr (print (JBool b)))) ∧
  (snd (Bool_UnmarshalJSON old data) ≠ None → fst (Bool_UnmarshalJSON old data) = old) ∧
  Bool_UnmarshalJSON old (print (Bool_json b)) = (b, None).
Proof.
  split; [|split; [|by destruct b; vm_compute]].
  - unfold Bool_UnmarshalJSON. cbv zeta. generalize (TrimSpace data). intros d.
    destruct (decide (d = #"true")) as [->|H1]; [destruct b; vm_compute; naive_solver|].
    destruct (decide (d = #'"'true'")) as [->|H2]; [destruct b; vm_compute; naive_solver|].
    destruct (decide (d = #"false")) as [->|H3]; [destruct b; vm_compute; naive_solver|].
    destruct (decide (d = #'"'false'")) as [->|H4]; [destruct b; vm_compute; naive_solver|].
    rewrite !bool_decide_eq_false_2 by done. cbn [orb]. split; [done|].
    destruct b; intros [?|?]; [by destruct H1|by destruct H2|by destruct H3|by destruct H4].
  - unfold Bool_UnmarshalJSON. cbv zeta. repeat case_match; done.
Qed.
