(* ===== verification/IdTokens.v ===== *)
(** * IdTokens: the JSON form of the token claim structs of idtoken.go and
    atclaims.go

    A token type embeds the registered claims, the standard ones and a
    provider's own, and [encoding/json] flattens the parts into one object.  A
    part is a type with its member names, its encoder and its decoder ([Flat]);
    what one part promises to the others is that its members carry its names,
    that its decoder looks at no other member, and that it reads back what it
    wrote ([FlatLaws]).  A struct that embeds two parts is a part, when their
    names are distinct, so each token type is proved from its pieces.

    The member of a [*Bool] is decoded from its text, which the decoder hands to
    [Bool.UnmarshalJSON]; every other field is a function of the parsed tree. *)

From S2P Require Import Prelude Errors GoLib Utf8 Float GoStr Json StrictJson RawJson Key Dates Claims Profiles.

(** ** Parts of a flattened object *)

(** The text of each member, as the decoder sees it. *)
Abbreviation texts := (bytes → option bytes).

Class Flat (A : Type) := {
  names : list bytes;
  members : A → list (bytes * json);
  decode : texts → list (bytes * json) → res A }.
Arguments names A {_}.

Class FlatLaws (A : Type) `{Flat A} := {
  (** A value the encoder writes without loss, and what comes back. *)
  faithful : A → Prop;
  returned : A → A;
  names_NoDup : NoDup (names A);
  members_names a : (members a).*1 `sublist_of` names A;
  members_wf a : faithful a → Forall (member_wf 3) (members a);
  decode_ext t t' m m' :
    (∀ n, n ∈ names A → assoc n m = assoc n m') →
    (∀ n, n ∈ names A → t n = t' n) → decode t m = decode t' m';
  decode_members a t :
    faithful a → (∀ n j, assoc n (members a) = Some j → t n = Some (print j)) →
    decode t (members a) = Ok (returned a) }.

(** [json.Marshal], and [jsonv2.Unmarshal] into an object type. *)
Definition marshal_flat `{Flat A} (a : A) : bytes := print (JObj (members a)).

Definition unmarshal_flat `{Flat A} (data : bytes) : res A :=
  decodeStrict (λ j, match j with JObj m => decode (raw_value data) m | _ => fail type_error end) data.

Section Flat.
Context `{FlatLaws A}.

Lemma unmarshal_Ok data (a : A) :
  decodeObjectInto unmarshal_flat data = Ok a ↔
  ∃ m, parse data = Ok (JObj m) ∧ decode (raw_value data) m = Ok a.
Proof.
  exact (decodeObject_Ok (λ j, match j with JObj m => decode (raw_value data) m | _ => fail type_error end) data a).
Qed.

Lemma parse_marshal (a : A) :
  faithful a → Forall (member_wf 3) (members a) ∧ parse (marshal_flat a) = Ok (JObj (members a)).
Proof.
  intros Ha. pose proof (members_wf a Ha) as Hm. split; [done|].
  assert (Hnd : NoDup (members a).*1) by (eapply sublist_NoDup; [apply names_NoDup|apply members_names]).
  destruct (obj_wf 3 (members a)) as [Hw Hd]; [done|done|done|].
  apply parse_print; [done|unfold maxNestingDepth; lia].
Qed.

Lemma unmarshal_marshal (a : A) :
  faithful a → decodeObjectInto unmarshal_flat (marshal_flat a) = Ok (returned a).
Proof.
  intros Ha. destruct (parse_marshal a Ha) as [Hm Hp].
  assert (Hnd : NoDup (members a).*1) by (eapply sublist_NoDup; [apply names_NoDup|apply members_names]).
  apply unmarshal_Ok. exists (members a). split; [done|].
  apply decode_members; [done|]. intros n j Hj. apply raw_value_print; [|done].
  eapply list.Forall_impl; [exact Hm|]. intros kv [??]. split; [done|]. unfold maxNestingDepth. lia.
Qed.
End Flat.

(** ** A struct that embeds two parts *)

Lemma frame_l m m' ns ns' n :
  NoDup (ns ++ ns') → m'.*1 `sublist_of` ns' → n ∈ ns → assoc n (m ++ m') = assoc n m.
Proof.
  intros (_ & Hd & _)%list.NoDup_app Hs Hn. rewrite assoc_app.
  assert (Ha : assoc n m' = None).
  { apply assoc_None. intros Hin. apply (Hd n Hn). by eapply elem_of_sublist. }
  rewrite Ha. by destruct (assoc n m).
Qed.

Lemma frame_r m m' ns ns' n :
  NoDup (ns ++ ns') → m.*1 `sublist_of` ns → n ∈ ns' → assoc n (m ++ m') = assoc n m'.
Proof.
  intros (_ & Hd & _)%list.NoDup_app Hs Hn. rewrite assoc_app.
  assert (Ha : assoc n m = None).
  { apply assoc_None. intros Hin. eapply Hd; [by eapply elem_of_sublist|done]. }
  by rewrite Ha, (left_id_L None (∪)).
Qed.

#[export] Instance embed_flat {A B} `{Flat A, Flat B} : Flat (A * B) := {
  names := names A ++ names B;
  members p := members p.1 ++ members p.2;
  decode t m := a ← decode t m; b ← decode t m; Ok (a, b) }.

Section Embed.
Context `{LA : FlatLaws A, LB : FlatLaws B}.
Hypothesis distinct : NoDup (names A ++ names B).

#[refine] Definition embed_laws : FlatLaws (A * B) := {|
  faithful p := faithful p.1 ∧ faithful p.2;
  returned p := (returned p.1, returned p.2) |}.
Proof.
  - exact distinct.
  - intros [a b]. cbn. rewrite fmap_app. apply sublist_app; apply members_names.
  - intros [a b] [Ha Hb]. cbn. apply list.Forall_app_2; by apply members_wf.
  - intros t t' m m' Hm Ht. cbn in *.
    assert (HA : decode (A := A) t m = decode t' m')
      by (apply decode_ext; intros; apply Hm || apply Ht; apply elem_of_app; auto).
    assert (HB : decode (A := B) t m = decode t' m')
      by (apply decode_ext; intros; apply Hm || apply Ht; apply elem_of_app; auto).
    by rewrite HA, HB.
  - intros [a b] t [Ha Hb] Ht. cbn in *.
    assert (HA : decode t (members a ++ members b) = Ok (returned a)).
    { rewrite (decode_ext t t _ (members a)); [|intros; by eapply frame_l; [done|apply members_names|]|done].
      apply decode_members; [done|]. intros n j Hj. apply Ht. rewrite assoc_app, Hj. apply union_Some_l. }
    assert (HB : decode t (members a ++ members b) = Ok (returned b)).
    { rewrite (decode_ext t t _ (members b)); [|intros; by eapply frame_r; [done|apply members_names|]|done].
      apply decode_members; [done|]. intros n j Hj. apply Ht. erewrite frame_r; [done|done|apply members_names|].
      eapply elem_of_sublist; [|apply (members_names b)]. apply list_elem_of_fmap. exists (n, j).
      split; [done|]. by apply assoc_elem. }
    by rewrite HA, HB.
Defined.
End Embed.

(** A struct with the same fields, under its own name. *)
Section Iso.
Context {A B : Type} (f : B → A) (g : A → B).

Definition iso_flat `{Flat A} : Flat B := {|
  names := names A; members b := members (f b); decode t m := g <$> decode t m |}.

#[refine] Definition iso_laws `{FlatLaws A} : @FlatLaws B iso_flat :=
  {| faithful b := faithful (f b); returned b := g (returned (f b)) |}.
Proof.
  all: cbn.
  - apply names_NoDup.
  - intros b. apply members_names.
  - intros b. apply members_wf.
  - intros t t' m m' Hm Ht. by rewrite (decode_ext t t' m m').
  - intros b t Hb Ht. by rewrite decode_members.
Defined.
End Iso.

(** ** Fields *)

(** A [*Bool]: [null] is nil, any other value goes to the method as text.  (The
    text is there for every member of the tree: [raw_value_total].) *)
Definition dec_Bool (t : texts) (m : list (bytes * json)) (name : bytes) : res (option bool) :=
  match assoc name m with
  | None | Some JNull => Ok None
  | Some _ =>
      match Bool_UnmarshalJSON false (default [] (t name)) with
      | (b, None) => Ok (Some b)
      | (_, Some e) => Err e
      end
  end.

(** An [int], of 64 bits: a literal with neither fraction nor exponent. *)
Definition dec_int (j : json) : res Z :=
  match j with
  | JNull => Ok 0
  | JNum lit =>
      match eat "-"%byte lit with
      | Some d => if forallb is_digit d && (dec_value d <=? 2 ^ 63) then Ok (- dec_value d) else fail type_error
      | None => if forallb is_digit lit && (dec_value lit <? 2 ^ 63) then Ok (dec_value lit) else fail type_error
      end
  | _ => fail type_error
  end.

Definition Date_json (t : Time) : json := JNum (NumericDate_lit t).

(** The dates that the decoder accepts. *)
Definition date_ok (o : option Time) : Prop := ∀ t, o = Some t → date_in_range t.

Definition int64_ok (z : Z) : Prop := - 2 ^ 63 ≤ z < 2 ^ 63.

Lemma dec_FormatInt z : int64_ok z → dec_int (JNum (FormatInt z)) = Ok z.
Proof.
  unfold int64_ok. intros Hz. pose proof (FormatInt_value z) as Hv. unfold dec_int.
  destruct (eat "-"%byte (FormatInt z)) as [d|]; destruct Hv as [Hv ->]; cbn [andb].
  - rewrite (proj2 (Z.leb_le _ _)) by lia. f_equal. lia.
  - rewrite (proj2 (Z.ltb_lt _ _)) by lia. f_equal. lia.
Qed.

(** The fields of a struct in order, each with its value unless it is omitted. *)
Definition flatten (l : list (bytes * option json)) : list (bytes * json) :=
  omap (λ f, pair f.1 <$> f.2) l.

(** The values of fields with [omitempty]. *)
Definition opt_string (s : bytes) : option json := match s with [] => None | _ => Some (JStr s) end.
Definition opt_strings (l : list bytes) : option json :=
  match l with [] => None | _ => Some (JArr (JStr <$> l)) end.
Definition opt_int (z : Z) : option json := if z =? 0 then None else Some (JNum (FormatInt z)).
Definition opt_date (o : option Time) : option json := Date_json <$> o.
Definition opt_Bool (o : option bool) : option json := Bool_json <$> o.

(** A field of a list. *)
Definition slice_field (m : list (bytes * json)) (name : bytes) : res (list bytes) :=
  default [] <$> field m name None dec_strings.

Fixpoint entry (name : bytes) (l : list (bytes * option json)) : option json :=
  match l with
  | (k, o) :: l => if bool_decide (k = name) then o else entry name l
  | [] => None
  end.

Lemma flatten_names l : (flatten l).*1 `sublist_of` l.*1.
Proof. induction l as [|[n [j|]] l IH]; [done| |]; cbn; by constructor. Qed.

Lemma assoc_flatten n l : NoDup l.*1 → assoc n (flatten l) = entry n l.
Proof.
  induction l as [|[k [j|]] l IH]; [done| |]; intros [Hk Hl]%list.NoDup_cons.
  - cbn. case_bool_decide; auto.
  - change (flatten ((k, None) :: l)) with (flatten l). rewrite IH by done. cbn in *. case_bool_decide as Hn; [|done]. subst k. clear IH Hl.
    induction l as [|[k o] l IH]; [done|]. cbn in *. rewrite not_elem_of_cons in Hk.
    destruct Hk as [Hne Hk]. rewrite bool_decide_eq_false_2 by congruence. auto.
Qed.

(** A value the encoder can print, of bounded depth. *)
Definition value_wf (d : Z) (o : option json) : Prop := ∀ j, o = Some j → wf j ∧ depth j ≤ d.

Lemma flatten_wf d l :
  forallb utf8_valid l.*1 = true → Forall (λ f, value_wf d f.2) l → Forall (member_wf d) (flatten l).
Proof.
  intros Hn. induction 1 as [|[n [j|]] l Hv _ IH]; [constructor| |]; cbn in *; bool_prop; [|auto].
  constructor; [|auto]. by destruct (Hv j eq_refl).
Qed.

Section Values.
Variable d : Z.
Hypothesis d_pos : 1 ≤ d.

Lemma string_wf s : utf8_valid s = true → value_wf d (opt_string s).
Proof. intros Hs j Hj. destruct s; [done|]. injection Hj as <-. split; [done|simpl; lia]. Qed.

Lemma slice_wf l : utf8_strings l → value_wf d (opt_strings l).
Proof.
  intros Hl j Hj. destruct l; [done|]. injection Hj as <-. destruct (strings_wf _ Hl) as [Hw Hd].
  split; [exact Hw|]. etransitivity; [exact Hd|done].
Qed.

Lemma int_wf z : value_wf d (opt_int z).
Proof.
  unfold opt_int. intros j Hj. destruct (z =? 0); [done|]. injection Hj as <-.
  split; [apply FormatInt_num_ok|simpl; lia].
Qed.

Lemma date_wf o : date_ok o → value_wf d (opt_date o).
Proof.
  intros Ho j Hj. destruct o as [t|]; [|done]. injection Hj as <-.
  split; [apply NumericDate_lit_number|simpl; lia].
Qed.

Lemma Bool_wf o : value_wf d (opt_Bool o).
Proof. intros j Hj. destruct o; [|done]. injection Hj as <-. split; [done|simpl; lia]. Qed.
End Values.

(** What each kind of field is read back from. *)
Section Fields.
Variable l : list (bytes * option json).
Hypothesis Hl : NoDup l.*1.

Lemma field_string n s : entry n l = opt_string s → field (flatten l) n [] dec_string = Ok s.
Proof. intros He. unfold field. rewrite assoc_flatten, He by done. apply dec_omit. Qed.

Lemma field_slice n s : entry n l = opt_strings s → slice_field (flatten l) n = Ok s.
Proof.
  intros He. unfold slice_field, field. rewrite assoc_flatten, He by done. apply dec_omit_list.
Qed.

Lemma field_int n z : int64_ok z → entry n l = opt_int z → field (flatten l) n 0 dec_int = Ok z.
Proof.
  intros Hz He. unfold field. rewrite assoc_flatten, He by done. unfold opt_int.
  destruct (z =? 0) eqn:E; [bool_prop; by subst|by apply dec_FormatInt].
Qed.

Lemma field_ptr {A} (dec : json → res A) (enc : A → json) (read : A → A) n o :
  (∀ a, o = Some a → dec (enc a) = Ok (read a) ∧ enc a ≠ JNull) →
  entry n l = enc <$> o → field (flatten l) n None (dec_ptr dec) = Ok (read <$> o).
Proof. intros Ho He. unfold field. rewrite assoc_flatten, He by done. by apply dec_omit_read. Qed.

Lemma field_date n o :
  date_ok o → entry n l = opt_date o →
  field (flatten l) n None (dec_ptr dec_numericdate) = Ok (read_date <$> o).
Proof. intros Ho. apply field_ptr. intros t Ht. split; [by apply dec_date, Ho|done]. Qed.

Lemma field_Bool t n o :
  (∀ n j, assoc n (flatten l) = Some j → t n = Some (print j)) →
  entry n l = opt_Bool o → dec_Bool t (flatten l) n = Ok o.
Proof.
  intros Ht He. unfold dec_Bool. specialize (Ht n). rewrite assoc_flatten, He in * by done.
  destruct o as [b|]; [|done]. rewrite (Ht _ eq_refl). by destruct b.
Qed.
End Fields.

(** Fields are functions of their own member. *)
Lemma field_ext {A} m m' n (zero : A) dec : assoc n m = assoc n m' → field m n zero dec = field m' n zero dec.
Proof. unfold field. by intros ->. Qed.

Lemma slice_ext m m' n : assoc n m = assoc n m' → slice_field m n = slice_field m' n.
Proof. unfold slice_field, field. by intros ->. Qed.

Lemma dec_Bool_ext t t' m m' n :
  assoc n m = assoc n m' → t n = t' n → dec_Bool t m n = dec_Bool t' m' n.
Proof. unfold dec_Bool. by intros -> ->. Qed.

Lemma omit_json_wf {A} d n (enc : A → json) o :
  utf8_valid n = true → (∀ a, o = Some a → wf (enc a) ∧ depth (enc a) ≤ d) →
  Forall (member_wf d) (omit_json n enc o).
Proof.
  intros Hn Ho. destruct o as [a|]; [|constructor]. apply list.Forall_singleton.
  destruct (Ho a eq_refl). by split.
Qed.

Lemma omit_audience_names a : (omit_audience a).*1 `sublist_of` [ #"aud"].
Proof. destruct a as [[|? ?]|]; simpl; repeat constructor. Qed.

Lemma omit_audience_wf d a :
  1 ≤ d → utf8_strings (default [] a) → Forall (member_wf d) (omit_audience a).
Proof.
  intros Hd Ha. destruct a as [[|s [|s' l]]|]; [constructor| | |constructor]; apply list.Forall_singleton.
  - unfold utf8_strings in Ha. cbn in Ha. rewrite list.Forall_singleton in Ha.
    split; [split; [done|exact Ha]|simpl; lia].
  - destruct (strings_wf _ Ha) as [Hw Hl]. split; [split; [done|exact Hw]|]. etransitivity; [exact Hl|done].
Qed.

(** Membership in a list of names, and distinctness, by computation. *)
Ltac by_names := apply (bool_decide_unpack _); vm_compute; exact I.

(** A decoder that looks up each of its fields by name. *)
Ltac ext_fields Hm Ht :=
  repeat match type of Hm with
  | ∀ n, _ → assoc n ?m = assoc n ?m' =>
      match goal with
      | |- context [field m ?n ?z ?d] => rewrite (field_ext m m' n z d (Hm n ltac:(by_names)))
      | |- context [slice_field m ?n] => rewrite (slice_ext m m' n (Hm n ltac:(by_names)))
      | |- context [dec_Bool ?t m ?n] =>
          rewrite (dec_Bool_ext t _ m m' n (Hm n ltac:(by_names)) (Ht n ltac:(by_names)))
      end
  end.

(** Reads the fields back one after another. *)
Ltac read_fields Ht :=
  repeat first
    [ erewrite field_string; [|by_names|reflexivity] | erewrite field_slice; [|by_names|reflexivity]
    | erewrite field_Bool; [|by_names|exact Ht|reflexivity]
    | erewrite field_date; [|by_names|eassumption|reflexivity]
    | erewrite field_int; [|by_names|eassumption|reflexivity]
    | progress cbn [mbind result_bind] ].

Ltac values_wf :=
  repeat (apply list.Forall_cons; split);
  [ cbn [snd]; first [ by apply string_wf | by apply slice_wf | by apply int_wf | by apply date_wf
                     | by apply Bool_wf | idtac ] .. | by constructor ].

(** The strings of a part. *)
Ltac utf8_hyps := unfold utf8_strings in *; rewrite ?list.Forall_cons in *; destruct_and?.

(** ** RegisteredClaims *)

Definition registered_names : list bytes :=
  [ #"iss"; #"sub"; #"aud"; #"exp"; #"nbf"; #"iat"; #"jti"; #"cnf"].

#[export] Instance RegisteredClaims_flat : Flat RegisteredClaims := {
  names := registered_names; members := claims_members; decode _ := dec_claims_members }.

Record registered_faithful (c : RegisteredClaims) : Prop := {
  rf_claims : claims_ok c;
  rf_strings : utf8_strings [Issuer c; Subject c; ID c];
  rf_audience : utf8_strings (default [] (rc_Audience c));
  rf_cnf : ∀ cnf, rc_Confirmation c = Some cnf →
    utf8_valid (JWKThumbprint cnf) = true ∧ ∀ k, cnf_JWK cnf = Some k → key_utf8 k }.

Lemma Confirmation_wf c :
  utf8_valid (JWKThumbprint c) = true → (∀ k, cnf_JWK c = Some k → key_utf8 k) →
  wf (Confirmation_json c) ∧ depth (Confirmation_json c) ≤ 3.
Proof.
  intros Hj Hk. apply (obj_wf 2); [done| |].
  - eapply (sublist_NoDup _ [ #"jkt"; #"jwk"]); [by_names|].
    apply names_app; [apply omit_names|apply omit_json_names].
  - apply list.Forall_app_2; [by apply omit_wf|].
    apply omit_json_wf; [done|]. intros k Hc. apply Key_jwk_wf, Hk, Hc.
Qed.

#[export] #[refine] Instance RegisteredClaims_laws : FlatLaws RegisteredClaims := {
  faithful := registered_faithful; returned := norm_claims }.
Proof.
  - by_names.
  - intros c. unfold members, RegisteredClaims_flat, claims_members, names, registered_names.
    repeat (apply names_app; [apply omit_names || apply omit_json_names || apply omit_audience_names|]).
    apply omit_json_names.
  - intros c [[Hd Hk] Hs Ha Hc]. utf8_hyps. cbn [members RegisteredClaims_flat]. unfold claims_members.
    assert (Hdate : ∀ n o, utf8_valid n = true → o ∈ [ExpiresAt c; NotBefore c; IssuedAt c] →
      Forall (member_wf 3) (omit_json n (λ t, JNum (NumericDate_lit t)) o)).
    { intros n o Hn Ho. apply omit_json_wf; [done|]. intros t Ht. by apply (date_wf 3 ltac:(done) (Some t)); [intros ? [= <-]; by eapply Hd|]. }
    repeat (apply list.Forall_app_2; [first [by apply omit_wf|by apply omit_audience_wf|apply Hdate; [done|set_solver]]|]).
    apply omit_json_wf; [done|]. intros cnf Hcnf. destruct (Hc cnf Hcnf). by apply Confirmation_wf.
  - intros t t' m m' Hm Ht. cbn in *. unfold dec_claims_members. by ext_fields Hm Ht.
  - intros c t Hc _. apply claims_roundtrip, Hc.
Defined.

(** ** StandardClaims *)

Definition Address_fields (a : Address) : list (bytes * option json) :=
  [ (#"formatted", opt_string (Formatted a)); (#"street_address", opt_string (StreetAddress a));
    (#"locality", opt_string (Locality a)); (#"region", opt_string (Region a));
    (#"postal_code", opt_string (PostalCode a)); (#"country", opt_string (Country a))].

Definition Address_json (a : Address) : json := JObj (flatten (Address_fields a)).

Definition zero_address : Address := mkAddress [] [] [] [] [] [].

Definition dec_address : json → res Address := dec_struct zero_address (λ m,
  formatted ← field m #"formatted" [] dec_string;
  street ← field m #"street_address" [] dec_string;
  locality ← field m #"locality" [] dec_string;
  region ← field m #"region" [] dec_string;
  postal ← field m #"postal_code" [] dec_string;
  country ← field m #"country" [] dec_string;
  Ok (mkAddress formatted street locality region postal country)).

Definition address_ok (a : Address) : Prop :=
  utf8_strings [Formatted a; StreetAddress a; Locality a; Region a; PostalCode a; Country a].

Lemma dec_Address_json a : dec_address (Address_json a) = Ok a.
Proof. unfold dec_address, Address_json, dec_struct. read_fields I. by destruct a. Qed.

Lemma Address_wf a : address_ok a → wf (Address_json a) ∧ depth (Address_json a) ≤ 2.
Proof.
  unfold address_ok. intros Ha. utf8_hyps. apply (obj_wf 1); [done| |].
  - eapply sublist_NoDup; [|apply flatten_names]. by_names.
  - apply flatten_wf; [done|]. values_wf.
Qed.

Definition StandardClaims_fields (s : StandardClaims) : list (bytes * option json) :=
  [ (#"name", opt_string (Name s)); (#"given_name", opt_string (GivenName s));
    (#"family_name", opt_string (FamilyName s)); (#"middle_name", opt_string (MiddleName s));
    (#"nickname", opt_string (Nickname s)); (#"preferred_username", opt_string (PreferredUsername s));
    (#"profile", opt_string (Profile s)); (#"picture", opt_string (Picture s));
    (#"website", opt_string (Website s)); (#"email", opt_string (Email s));
    (#"email_verified", opt_Bool (EmailVerified s)); (#"gender", opt_string (Gender s));
    (#"birthdate", opt_string (Birthdate s)); (#"zoneinfo", opt_string (ZoneInfo s));
    (#"locale", opt_string (Locale s)); (#"phone_number", opt_string (PhoneNumber s));
    (#"phone_number_verified", opt_Bool (PhoneNumberVerified s));
    (#"address", Address_json <$> sc_Address s); (#"updated_at", opt_date (UpdatedAt s));
    (#"nonce", opt_string (sc_Nonce s))].

Definition dec_standard (t : texts) (m : list (bytes * json)) : res StandardClaims :=
  name ← field m #"name" [] dec_string;
  given ← field m #"given_name" [] dec_string;
  family ← field m #"family_name" [] dec_string;
  middle ← field m #"middle_name" [] dec_string;
  nick ← field m #"nickname" [] dec_string;
  preferred ← field m #"preferred_username" [] dec_string;
  profile ← field m #"profile" [] dec_string;
  picture ← field m #"picture" [] dec_string;
  website ← field m #"website" [] dec_string;
  email ← field m #"email" [] dec_string;
  email_verified ← dec_Bool t m #"email_verified";
  gender ← field m #"gender" [] dec_string;
  birthdate ← field m #"birthdate" [] dec_string;
  zoneinfo ← field m #"zoneinfo" [] dec_string;
  locale ← field m #"locale" [] dec_string;
  phone ← field m #"phone_number" [] dec_string;
  phone_verified ← dec_Bool t m #"phone_number_verified";
  address ← field m #"address" None (dec_ptr dec_address);
  updated ← field m #"updated_at" None (dec_ptr dec_numericdate);
  nonce ← field m #"nonce" [] dec_string;
  Ok (mkStandardClaims name given family middle nick preferred profile picture website email
        email_verified gender birthdate zoneinfo locale phone phone_verified address updated nonce).

Definition standard_names : list bytes :=
  [ #"name"; #"given_name"; #"family_name"; #"middle_name"; #"nickname"; #"preferred_username";
    #"profile"; #"picture"; #"website"; #"email"; #"email_verified"; #"gender"; #"birthdate";
    #"zoneinfo"; #"locale"; #"phone_number"; #"phone_number_verified"; #"address"; #"updated_at";
    #"nonce"].

#[export] Instance StandardClaims_flat : Flat StandardClaims := {
  names := standard_names; members s := flatten (StandardClaims_fields s); decode := dec_standard }.

Record standard_faithful (s : StandardClaims) : Prop := {
  sf_strings : utf8_strings [Name s; GivenName s; FamilyName s; MiddleName s; Nickname s;
    PreferredUsername s; Profile s; Picture s; Website s; Email s; Gender s; Birthdate s;
    ZoneInfo s; Locale s; PhoneNumber s; sc_Nonce s];
  sf_address : ∀ a, sc_Address s = Some a → address_ok a;
  sf_updated : date_ok (UpdatedAt s) }.

(** As they are read back: dates through float64. *)
Definition read_standard (s : StandardClaims) : StandardClaims :=
  mkStandardClaims (Name s) (GivenName s) (FamilyName s) (MiddleName s) (Nickname s) (PreferredUsername s)
    (Profile s) (Picture s) (Website s) (Email s) (EmailVerified s) (Gender s) (Birthdate s) (ZoneInfo s)
    (Locale s) (PhoneNumber s) (PhoneNumberVerified s) (sc_Address s) (read_date <$> UpdatedAt s) (sc_Nonce s).

Lemma dec_standard_ext t t' m m' :
  (∀ n, n ∈ standard_names → assoc n m = assoc n m') → (∀ n, n ∈ standard_names → t n = t' n) →
  dec_standard t m = dec_standard t' m'.
Proof. intros Hm Ht. unfold dec_standard. by ext_fields Hm Ht. Qed.

Lemma dec_standard_fields s t :
  date_ok (UpdatedAt s) →
  (∀ n j, assoc n (flatten (StandardClaims_fields s)) = Some j → t n = Some (print j)) →
  dec_standard t (flatten (StandardClaims_fields s)) = Ok (read_standard s).
Proof.
  intros Hu Ht. unfold dec_standard.
  assert (Ha : field (flatten (StandardClaims_fields s)) #"address" None (dec_ptr dec_address) = Ok (sc_Address s)).
  { rewrite <- (option_fmap_id (sc_Address s)) at 1. apply (field_ptr _) with (enc := Address_json); [by_names| |done].
    intros a _. split; [apply dec_Address_json|done]. }
  rewrite Ha. read_fields Ht. by destruct s.
Qed.

#[export] #[refine] Instance StandardClaims_laws : FlatLaws StandardClaims := {
  faithful := standard_faithful; returned := read_standard }.
Proof.
  - by_names.
  - intros s. exact (flatten_names (StandardClaims_fields s)).
  - intros s [Hs Ha Hu]. utf8_hyps. apply flatten_wf; [done|]. values_wf.
    intros j Hj. destruct (sc_Address s) as [a|]; [|done]. injection Hj as <-.
    destruct (Address_wf a (Ha a eq_refl)). split; [done|lia].
  - intros t t' m m'. apply dec_standard_ext.
  - intros s t [_ _ Hu]. by apply dec_standard_fields.
Defined.

(** ** The provider claim sets *)

Record GoogleClaims := mkGoogleClaims {
  HostedDomain : bytes; g_AuthorizedParty : bytes; g_AccessTokenHash : bytes }.

Definition GoogleClaims_fields (c : GoogleClaims) : list (bytes * option json) :=
  [ (#"hd", opt_string (HostedDomain c)); (#"azp", opt_string (g_AuthorizedParty c));
    (#"at_hash", opt_string (g_AccessTokenHash c))].

Definition dec_google (m : list (bytes * json)) : res GoogleClaims :=
  hd ← field m #"hd" [] dec_string;
  azp ← field m #"azp" [] dec_string;
  at_hash ← field m #"at_hash" [] dec_string;
  Ok (mkGoogleClaims hd azp at_hash).

#[export] Instance GoogleClaims_flat : Flat GoogleClaims := {
  names := [ #"hd"; #"azp"; #"at_hash"]; members c := flatten (GoogleClaims_fields c);
  decode _ := dec_google }.

#[export] #[refine] Instance GoogleClaims_laws : FlatLaws GoogleClaims := {
  faithful c := utf8_strings [HostedDomain c; g_AuthorizedParty c; g_AccessTokenHash c];
  returned c := c }.
Proof.
  - by_names.
  - intros c. exact (flatten_names (GoogleClaims_fields c)).
  - intros c Hs. utf8_hyps. apply flatten_wf; [done|]. values_wf.
  - intros t t' m m' Hm Ht. cbn in *. unfold dec_google. by ext_fields Hm Ht.
  - intros c t _ Ht. cbn [members decode GoogleClaims_flat] in *. unfold dec_google.
    read_fields Ht. by destruct c.
Defined.

Record OktaClaims := mkOktaClaims {
  o_Version : Z; o_AuthTime : option Time; o_AMR : list bytes; o_IDP : bytes; o_Groups : list bytes }.

Definition OktaClaims_fields (c : OktaClaims) : list (bytes * option json) :=
  [ (#"ver", opt_int (o_Version c)); (#"auth_time", opt_date (o_AuthTime c));
    (#"amr", opt_strings (o_AMR c)); (#"idp", opt_string (o_IDP c));
    (#"groups", opt_strings (o_Groups c))].

Definition dec_okta (m : list (bytes * json)) : res OktaClaims :=
  ver ← field m #"ver" 0 dec_int;
  auth_time ← field m #"auth_time" None (dec_ptr dec_numericdate);
  amr ← slice_field m #"amr";
  idp ← field m #"idp" [] dec_string;
  groups ← slice_field m #"groups";
  Ok (mkOktaClaims ver auth_time amr idp groups).

#[export] Instance OktaClaims_flat : Flat OktaClaims := {
  names := [ #"ver"; #"auth_time"; #"amr"; #"idp"; #"groups"];
  members c := flatten (OktaClaims_fields c); decode _ := dec_okta }.

#[export] #[refine] Instance OktaClaims_laws : FlatLaws OktaClaims := {
  faithful c := int64_ok (o_Version c) ∧ date_ok (o_AuthTime c) ∧ utf8_strings (o_AMR c) ∧
    utf8_strings [o_IDP c] ∧ utf8_strings (o_Groups c);
  returned c := mkOktaClaims (o_Version c) (read_date <$> o_AuthTime c) (o_AMR c) (o_IDP c) (o_Groups c) }.
Proof.
  - by_names.
  - intros c. exact (flatten_names (OktaClaims_fields c)).
  - intros c (Hi & Hd & Ha & Hs & Hg). unfold utf8_strings in Hs. rewrite list.Forall_singleton in Hs.
    apply flatten_wf; [done|]. values_wf.
  - intros t t' m m' Hm Ht. cbn in *. unfold dec_okta. by ext_fields Hm Ht.
  - intros c t (Hi & Hd & _) Ht. cbn [members decode OktaClaims_flat] in *. unfold dec_okta.
    read_fields Ht. by destruct c.
Defined.

Record EntraClaims := mkEntraClaims {
  TenantID : bytes; ObjectID : bytes; UPN : bytes; e_Roles : list bytes; e_Groups : list bytes;
  AppID : bytes; e_Version : bytes; UniqueName : bytes;
  IdentityProvider : bytes; SessionID : bytes; TokenID : bytes }.

Definition EntraClaims_fields (c : EntraClaims) : list (bytes * option json) :=
  [ (#"tid", opt_string (TenantID c)); (#"oid", opt_string (ObjectID c)); (#"upn", opt_string (UPN c));
    (#"roles", opt_strings (e_Roles c)); (#"groups", opt_strings (e_Groups c));
    (#"appid", opt_string (AppID c)); (#"ver", opt_string (e_Version c));
    (#"unique_name", opt_string (UniqueName c)); (#"idp", opt_string (IdentityProvider c));
    (#"sid", opt_string (SessionID c)); (#"uti", opt_string (TokenID c))].

Definition dec_entra (m : list (bytes * json)) : res EntraClaims :=
  tid ← field m #"tid" [] dec_string;
  oid ← field m #"oid" [] dec_string;
  upn ← field m #"upn" [] dec_string;
  roles ← slice_field m #"roles";
  groups ← slice_field m #"groups";
  appid ← field m #"appid" [] dec_string;
  ver ← field m #"ver" [] dec_string;
  unique_name ← field m #"unique_name" [] dec_string;
  idp ← field m #"idp" [] dec_string;
  sid ← field m #"sid" [] dec_string;
  uti ← field m #"uti" [] dec_string;
  Ok (mkEntraClaims tid oid upn roles groups appid ver unique_name idp sid uti).

#[export] Instance EntraClaims_flat : Flat EntraClaims := {
  names := [ #"tid"; #"oid"; #"upn"; #"roles"; #"groups"; #"appid"; #"ver"; #"unique_name"; #"idp";
             #"sid"; #"uti"];
  members c := flatten (EntraClaims_fields c); decode _ := dec_entra }.

#[export] #[refine] Instance EntraClaims_laws : FlatLaws EntraClaims := {
  faithful c := utf8_strings [TenantID c; ObjectID c; UPN c; AppID c; e_Version c; UniqueName c;
      IdentityProvider c; SessionID c; TokenID c] ∧ utf8_strings (e_Roles c) ∧ utf8_strings (e_Groups c);
  returned c := c }.
Proof.
  - by_names.
  - intros c. exact (flatten_names (EntraClaims_fields c)).
  - intros c (Hs & Hr & Hg). unfold utf8_strings in Hs. rewrite !list.Forall_cons in Hs. destruct_and!.
    apply flatten_wf; [done|]. values_wf.
  - intros t t' m m' Hm Ht. cbn in *. unfold dec_entra. by ext_fields Hm Ht.
  - intros c t _ Ht. cbn [members decode EntraClaims_flat] in *. unfold dec_entra.
    read_fields Ht. by destruct c.
Defined.

(** ** The token types *)

(** The registered claims, the standard ones and the provider's. *)
Record IDToken (P : Type) := mkIDToken {
  tok_registered : RegisteredClaims; tok_standard : StandardClaims; tok_provider : P }.
Arguments mkIDToken {_} _ _ _.
Arguments tok_registered {_} _.
Arguments tok_standard {_} _.
Arguments tok_provider {_} _.

Definition GoogleIDToken : Type := IDToken GoogleClaims.
Definition OktaIDToken : Type := IDToken OktaClaims.
Definition EntraIDToken : Type := IDToken EntraClaims.

Section Provider.
Context {P : Type} `{FlatLaws P}.

Definition IDToken_parts (t : IDToken P) : RegisteredClaims * (StandardClaims * P) :=
  (tok_registered t, (tok_standard t, tok_provider t)).

Definition IDToken_of (p : RegisteredClaims * (StandardClaims * P)) : IDToken P :=
  mkIDToken p.1 p.2.1 p.2.2.

#[export] Instance IDToken_flat : Flat (IDToken P) := iso_flat IDToken_parts IDToken_of.

(** The names of the provider's claims are not registered or standard ones. *)
Hypothesis distinct : NoDup (registered_names ++ standard_names ++ names P).

Lemma provider_distinct : NoDup (names StandardClaims ++ names P).
Proof. by apply list.NoDup_app in distinct as (_ & _ & ?). Qed.

Definition IDToken_laws : FlatLaws (IDToken P) :=
  @iso_laws _ _ IDToken_parts IDToken_of _
    (@embed_laws RegisteredClaims _ _ (StandardClaims * P) _ (embed_laws provider_distinct) distinct).
End Provider.

#[export] Instance Google_laws : FlatLaws GoogleIDToken.
Proof. apply IDToken_laws. by_names. Defined.

#[export] Instance Okta_laws : FlatLaws OktaIDToken.
Proof. apply IDToken_laws. by_names. Defined.

#[export] Instance Entra_laws : FlatLaws EntraIDToken.
Proof. apply IDToken_laws. by_names. Defined.

(** The provider-neutral claims: the fields an [IDTokenClaims] adds. *)
Record IDFields := mkIDFields {
  f_azp : bytes; f_at_hash : bytes; f_c_hash : bytes; f_auth_time : option Time; f_acr : bytes;
  f_amr : list bytes }.

Definition ID_fields (c : IDFields) : list (bytes * option json) :=
  [ (#"azp", opt_string (f_azp c)); (#"at_hash", opt_string (f_at_hash c));
    (#"c_hash", opt_string (f_c_hash c)); (#"auth_time", opt_date (f_auth_time c));
    (#"acr", opt_string (f_acr c)); (#"amr", opt_strings (f_amr c))].

Definition dec_id (m : list (bytes * json)) : res IDFields :=
  azp ← field m #"azp" [] dec_string;
  at_hash ← field m #"at_hash" [] dec_string;
  c_hash ← field m #"c_hash" [] dec_string;
  auth_time ← field m #"auth_time" None (dec_ptr dec_numericdate);
  acr ← field m #"acr" [] dec_string;
  amr ← slice_field m #"amr";
  Ok (mkIDFields azp at_hash c_hash auth_time acr amr).

#[export] Instance IDFields_flat : Flat IDFields := {
  names := [ #"azp"; #"at_hash"; #"c_hash"; #"auth_time"; #"acr"; #"amr"];
  members c := flatten (ID_fields c); decode _ := dec_id }.

#[export] #[refine] Instance IDFields_laws : FlatLaws IDFields := {
  faithful c := utf8_strings [f_azp c; f_at_hash c; f_c_hash c; f_acr c] ∧ date_ok (f_auth_time c) ∧
    utf8_strings (f_amr c);
  returned c := mkIDFields (f_azp c) (f_at_hash c) (f_c_hash c) (read_date <$> f_auth_time c) (f_acr c) (f_amr c) }.
Proof.
  - by_names.
  - intros c. exact (flatten_names (ID_fields c)).
  - intros c (Hs & Hd & Ha). unfold utf8_strings in Hs. rewrite !list.Forall_cons in Hs. destruct_and!.
    apply flatten_wf; [done|]. values_wf.
  - intros t t' m m' Hm Ht. cbn in *. unfold dec_id. by ext_fields Hm Ht.
  - intros c t (_ & Hd & _) Ht. cbn [members decode IDFields_flat] in *. unfold dec_id.
    read_fields Ht. by destruct c.
Defined.

Definition IDTokenClaims_parts (c : IDTokenClaims) : RegisteredClaims * (StandardClaims * IDFields) :=
  (id_registered c, (id_standard c,
   mkIDFields (AuthorizedParty c) (AccessTokenHash c) (CodeHash c) (id_AuthTime c) (id_ACR c) (id_AMR c))).

Definition IDTokenClaims_of (p : RegisteredClaims * (StandardClaims * IDFields)) : IDTokenClaims :=
  let f := p.2.2 in
  mkIDTokenClaims p.1 p.2.1 (f_azp f) (f_at_hash f) (f_c_hash f) (f_auth_time f) (f_acr f) (f_amr f).

#[export] Instance IDTokenClaims_flat : Flat IDTokenClaims := iso_flat IDTokenClaims_parts IDTokenClaims_of.

#[export] Instance IDTokenClaims_laws : FlatLaws IDTokenClaims.
Proof.
  apply (@iso_laws _ _ IDTokenClaims_parts IDTokenClaims_of _).
  apply (@embed_laws RegisteredClaims _ _ (StandardClaims * IDFields) _
    (@embed_laws StandardClaims _ _ IDFields _ _ ltac:(by_names))). by_names.
Defined.

(** RFC 9068: the fields an [AccessTokenClaims] adds; [client_id] is always
    written. *)
Record ATFields := mkATFields {
  f_client_id : bytes; f_scope : bytes; f_at_time : option Time; f_at_acr : bytes;
  f_at_amr : list bytes; f_groups : list bytes; f_roles : list bytes; f_entitlements : list bytes }.

Definition AT_fields (c : ATFields) : list (bytes * option json) :=
  [ (#"client_id", Some (JStr (f_client_id c))); (#"scope", opt_string (f_scope c));
    (#"auth_time", opt_date (f_at_time c)); (#"acr", opt_string (f_at_acr c));
    (#"amr", opt_strings (f_at_amr c)); (#"groups", opt_strings (f_groups c));
    (#"roles", opt_strings (f_roles c)); (#"entitlements", opt_strings (f_entitlements c))].

Definition dec_at (m : list (bytes * json)) : res ATFields :=
  client_id ← field m #"client_id" [] dec_string;
  scope ← field m #"scope" [] dec_string;
  auth_time ← field m #"auth_time" None (dec_ptr dec_numericdate);
  acr ← field m #"acr" [] dec_string;
  amr ← slice_field m #"amr";
  groups ← slice_field m #"groups";
  roles ← slice_field m #"roles";
  entitlements ← slice_field m #"entitlements";
  Ok (mkATFields client_id scope auth_time acr amr groups roles entitlements).

#[export] Instance ATFields_flat : Flat ATFields := {
  names := [ #"client_id"; #"scope"; #"auth_time"; #"acr"; #"amr"; #"groups"; #"roles"; #"entitlements"];
  members c := flatten (AT_fields c); decode _ := dec_at }.

#[export] #[refine] Instance ATFields_laws : FlatLaws ATFields := {
  faithful c := utf8_strings [f_client_id c; f_scope c; f_at_acr c] ∧ date_ok (f_at_time c) ∧
    Forall utf8_strings [f_at_amr c; f_groups c; f_roles c; f_entitlements c];
  returned c := mkATFields (f_client_id c) (f_scope c) (read_date <$> f_at_time c) (f_at_acr c) (f_at_amr c)
    (f_groups c) (f_roles c) (f_entitlements c) }.
Proof.
  - by_names.
  - intros c. exact (flatten_names (AT_fields c)).
  - intros c (Hs & Hd & Hl). rewrite !list.Forall_cons in Hl. unfold utf8_strings at 1 in Hs.
    rewrite !list.Forall_cons in Hs. destruct_and!. apply flatten_wf; [done|]. values_wf.
    intros j [= <-]. split; [done|simpl; lia].
  - intros t t' m m' Hm Ht. cbn in *. unfold dec_at. by ext_fields Hm Ht.
  - intros c t (_ & Hd & _) Ht. cbn [members decode ATFields_flat] in *. unfold dec_at.
    assert (Hc : field (flatten (AT_fields c)) #"client_id" [] dec_string = Ok (f_client_id c)).
    { unfold field. by rewrite assoc_flatten by by_names. }
    rewrite Hc. read_fields Ht. by destruct c.
Defined.

Definition AccessTokenClaims_parts (c : AccessTokenClaims) : RegisteredClaims * ATFields :=
  (at_registered c, mkATFields (ClientID c) (at_Scope c) (at_AuthTime c) (at_ACR c) (at_AMR c)
     (at_Groups c) (at_Roles c) (at_Entitlements c)).

Definition AccessTokenClaims_of (p : RegisteredClaims * ATFields) : AccessTokenClaims :=
  let f := p.2 in
  mkAccessTokenClaims p.1 (f_client_id f) (f_scope f) (f_at_time f) (f_at_acr f) (f_at_amr f)
    (f_groups f) (f_roles f) (f_entitlements f).

#[export] Instance AccessTokenClaims_flat : Flat AccessTokenClaims :=
  iso_flat AccessTokenClaims_parts AccessTokenClaims_of.

#[export] Instance AccessTokenClaims_laws : FlatLaws AccessTokenClaims.
Proof.
  apply (@iso_laws _ _ AccessTokenClaims_parts AccessTokenClaims_of _).
  apply (@embed_laws RegisteredClaims _ _ ATFields _ _). by_names.
Defined.

(** ** The token types round-trip *)

(** Claims that lose nothing: whole dates of the years 1 to 9999 and no empty
    audience; [more] are the further dates of the token. *)
Definition exact_claims (c : RegisteredClaims) (more : list (option Time)) : Prop :=
  rc_Audience c ≠ Some [] ∧
  Forall (λ o, ∀ t, o = Some t → whole_date t) ([ExpiresAt c; NotBefore c; IssuedAt c] ++ more).

Lemma read_dates_exact l :
  Forall (λ o, ∀ t, o = Some t → whole_date t) l → Forall (λ o, read_date <$> o = o) l.
Proof.
  intros Hl. eapply list.Forall_impl; [exact Hl|]. intros [t|] Ho; [|done].
  cbn. by rewrite read_date_whole by by apply Ho.
Qed.

Lemma norm_claims_exact c more :
  exact_claims c more → norm_claims c = c ∧ Forall (λ o, read_date <$> o = o) more.
Proof.
  intros [Ha [Hd Hm]%read_dates_exact%list.Forall_app]. split; [|done].
  rewrite !list.Forall_cons in Hd. destruct Hd as (He & Hn & Hi & _).
  unfold norm_claims. rewrite He, Hn, Hi. destruct c as [? ? [[|]|] ? ? ? ? ?]; done.
Qed.

Lemma read_standard_exact s : read_date <$> UpdatedAt s = UpdatedAt s → read_standard s = s.
Proof. intros Hu. unfold read_standard. rewrite Hu. by destruct s. Qed.

(** C31: what the encoder writes of a token, the strict decoder reads back, for every
    token type: strings of valid UTF-8, dates of the years 1 to 9999, 64-bit
    integers, OIDC booleans and nested addresses included.  Only an empty audience
    comes back absent, and each date as the float64 nearest to it ([read_date]),
    less than 15.26 microseconds away; a token whose dates are whole seconds and
    whose audience is not the empty list comes back as it was. *)
Theorem tokens_roundtrip :
  (∀ t : GoogleIDToken, registered_faithful (tok_registered t) → standard_faithful (tok_standard t) →
     faithful (tok_provider t) →
     decodeObjectInto unmarshal_flat (marshal_flat t) =
       Ok (mkIDToken (norm_claims (tok_registered t)) (read_standard (tok_standard t)) (tok_provider t)) ∧
     (exact_claims (tok_registered t) [UpdatedAt (tok_standard t)] →
      decodeObjectInto unmarshal_flat (marshal_flat t) = Ok t)) ∧
  (∀ t : OktaIDToken, registered_faithful (tok_registered t) → standard_faithful (tok_standard t) →
     faithful (tok_provider t) →
     decodeObjectInto unmarshal_flat (marshal_flat t) =
       Ok (mkIDToken (norm_claims (tok_registered t)) (read_standard (tok_standard t)) (returned (tok_provider t))) ∧
     (exact_claims (tok_registered t) [UpdatedAt (tok_standard t); o_AuthTime (tok_provider t)] →
      decodeObjectInto unmarshal_flat (marshal_flat t) = Ok t)) ∧
  (∀ t : EntraIDToken, registered_faithful (tok_registered t) → standard_faithful (tok_standard t) →
     faithful (tok_provider t) →
     decodeObjectInto unmarshal_flat (marshal_flat t) =
       Ok (mkIDToken (norm_claims (tok_registered t)) (read_standard (tok_standard t)) (tok_provider t)) ∧
     (exact_claims (tok_registered t) [UpdatedAt (tok_standard t)] →
      decodeObjectInto unmarshal_flat (marshal_flat t) = Ok t)) ∧
  (∀ c : IDTokenClaims, faithful c →
     decodeObjectInto unmarshal_flat (marshal_flat c) =
       Ok (IDTokenClaims_of (norm_claims (id_registered c),
             (read_standard (id_standard c), returned (IDTokenClaims_parts c).2.2))) ∧
     (exact_claims (id_registered c) [UpdatedAt (id_standard c); id_AuthTime c] →
      decodeObjectInto unmarshal_flat (marshal_flat c) = Ok c)) ∧
  (∀ c : AccessTokenClaims, faithful c →
     decodeObjectInto unmarshal_flat (marshal_flat c) =
       Ok (AccessTokenClaims_of (norm_claims (at_registered c), returned (AccessTokenClaims_parts c).2)) ∧
     (exact_claims (at_registered c) [at_AuthTime c] →
      decodeObjectInto unmarshal_flat (marshal_flat c) = Ok c)) ∧
  (∀ t, date_in_range t → Z.abs (read_date t - t) ≤ 15259).
Proof.
  assert (Hstep : ∀ {A} (r : res A) (a b : A) (P : Prop), r = Ok a → (P → a = b) → r = Ok a ∧ (P → r = Ok b)).
  { intros A r a b P -> Hab. split; [done|]. intros HP. by rewrite (Hab HP). }
  split; [|split; [|split; [|split; [|split]]]].
  - intros t Hr Hs Hp. apply Hstep; [exact (unmarshal_marshal (A := GoogleIDToken) t (conj Hr (conj Hs Hp)))|].
    intros [-> Hm]%norm_claims_exact. rewrite !list.Forall_cons in Hm. destruct Hm as [Hu _].
    rewrite (read_standard_exact _ Hu). by destruct t.
  - intros t Hr Hs Hp. apply Hstep; [exact (unmarshal_marshal (A := OktaIDToken) t (conj Hr (conj Hs Hp)))|].
    intros [-> Hm]%norm_claims_exact. rewrite !list.Forall_cons in Hm. destruct Hm as (Hu & Ha & _).
    rewrite (read_standard_exact _ Hu). cbn [returned OktaClaims_laws]. rewrite Ha.
    by destruct t as [? ? []].
  - intros t Hr Hs Hp. apply Hstep; [exact (unmarshal_marshal (A := EntraIDToken) t (conj Hr (conj Hs Hp)))|].
    intros [-> Hm]%norm_claims_exact. rewrite !list.Forall_cons in Hm. destruct Hm as [Hu _].
    rewrite (read_standard_exact _ Hu). by destruct t.
  - intros c Hc. apply Hstep; [exact (unmarshal_marshal (A := IDTokenClaims) c Hc)|].
    intros [-> Hm]%norm_claims_exact. rewrite !list.Forall_cons in Hm. destruct Hm as (Hu & Ha & _).
    rewrite (read_standard_exact _ Hu). cbn [returned IDFields_laws IDTokenClaims_parts snd f_auth_time]. rewrite Ha.
    by destruct c.
  - intros c Hc. apply Hstep; [exact (unmarshal_marshal (A := AccessTokenClaims) c Hc)|].
    intros [-> Hm]%norm_claims_exact. rewrite !list.Forall_cons in Hm. destruct Hm as [Ha _].
    cbn [returned ATFields_laws AccessTokenClaims_parts snd f_at_time]. rewrite Ha. by destruct c.
  - intros t Ht. by apply read_date_near.
Qed.

(** ** What a decoded token holds *)

(** A type that embeds the registered claims first: their decoder runs on the
    same object. *)
Class Embeds (A : Type) `{Flat A} := {
  registered : A → RegisteredClaims;
  decode_registered t m a : decode t m = Ok a → dec_claims_members m = Ok (registered a) }.

#[export] #[refine] Instance IDToken_embeds `{Flat P} : Embeds (IDToken P) := { registered := tok_registered }.
Proof.
  intros t m a (p & (r & Hr & (q & _ & [= <-])%bind_Ok)%bind_Ok & <-)%fmap_Ok. exact Hr.
Defined.

#[export] #[refine] Instance IDTokenClaims_embeds : Embeds IDTokenClaims := { registered := id_registered }.
Proof.
  intros t m a (p & (r & Hr & (q & _ & [= <-])%bind_Ok)%bind_Ok & <-)%fmap_Ok. exact Hr.
Defined.

#[export] #[refine] Instance AccessTokenClaims_embeds : Embeds AccessTokenClaims := { registered := at_registered }.
Proof.
  intros t m a (p & (r & Hr & (q & _ & [= <-])%bind_Ok)%bind_Ok & <-)%fmap_Ok. exact Hr.
Defined.

Lemma embedded_claims `{Embeds A} data (a : A) :
  decodeObjectInto unmarshal_flat data = Ok a → decodeObject dec_claims data = Ok (registered a).
Proof.
  intros (m & Hp & Hd)%unmarshal_Ok. apply decodeObject_Ok. exists m. split; [done|].
  by eapply decode_registered.
Qed.

(** What [StandardClaims] makes of an OIDC boolean: an absent or null member is
    nil, and any other is accepted exactly when its text is one of the four forms
    of [Bool_spec], whose value it takes; nothing else decodes. *)
Lemma dec_Bool_spec data m name o :
  parse data = Ok (JObj m) →
  dec_Bool (raw_value data) m name = Ok o ↔
  match assoc name m with
  | None | Some JNull => o = None
  | Some _ => ∃ b text, o = Some b ∧ raw_value data name = Some text ∧
      (TrimSpace text = print (JBool b) ∨ TrimSpace text = print (JStr (print (JBool b))))
  end.
Proof.
  intros Hp. unfold dec_Bool. destruct (assoc name m) as [j|] eqn:Ha; [|split; [by intros [= <-]|by intros ->]].
  destruct (raw_value_total _ _ _ _ Hp Ha) as (s & r & -> & _). cbn [default].
  assert (Hb : ∀ b, Bool_UnmarshalJSON false (raw_of s r) = (b, None) ↔ _)
    by (intros b; apply (proj1 (Bool_spec false (raw_of s r) b))).
  assert (Hall : match Bool_UnmarshalJSON false (raw_of s r) with
      | (b, None) => Ok (Some b) | (_, Some e) => Err e end = Ok o ↔
    ∃ b text, o = Some b ∧ Some (raw_of s r) = Some text ∧
      (TrimSpace text = print (JBool b) ∨ TrimSpace text = print (JStr (print (JBool b))))).
  { destruct (Bool_UnmarshalJSON false (raw_of s r)) as [b [e|]]; (split; [|intros (b' & t & -> & [= <-] & Ht%Hb); congruence]).
    - done.
    - intros [= <-]. exists b, (raw_of s r). split; [done|]. split; [done|]. by apply Hb. }
  destruct j; try exact Hall. split; [by intros [= <-]|by intros ->].
Qed.

(** An escaped spelling of the same string is refused: the method sees the text. *)
Example escaped_true_refused :
  let doc := #'"{'email_verified':'true','phone_number_verified':'\u0074rue'}" in
  match parse doc with
  | Ok (JObj m) =>
      dec_Bool (raw_value doc) m #"email_verified" = Ok (Some true) ∧
      assoc #"phone_number_verified" m = Some (JStr #"true") ∧
      is_ok (dec_Bool (raw_value doc) m #"phone_number_verified") = false
  | _ => False
  end.
Proof. by vm_compute. Qed.
