(* ===== verification/Login.v ===== *)
(** * Login: verifying a token into a claims struct

    The composition that the examples of idtoken.go show: [Parse] verifies a
    token and decodes its payload twice, once into the registered claims that it
    validates and once into the caller's struct; the caller of an ID token then
    runs [ValidateIDTokenForContext] on that struct.  What the caller reads is
    what was validated, whatever the payload. *)

From S2P Require Import Prelude Errors GoLib Utf8 GoStr Json StrictJson RawJson Alg Key Dates Claims Options Jws Profiles IdTokens.

Section Login.
Context `{URL, Crypto, Unicode}.

(** A successful [Parse] into a struct that embeds the registered claims: the
    claims in the struct are the ones that were validated. *)
Lemma parse_into_struct `{Embeds A} clock token (old t : A) keys opts :
  let cfg := apply_all applyParse opts (default_config clock) in
  snd (Parse unmarshal_flat clock token (Some old) keys opts) = (Some t, None) →
  ∃ header payload v, verified token keys cfg header payload v ∧
    decodeObjectInto unmarshal_flat payload = Ok t ∧
    claims_valid payload (registered t) header cfg.
Proof.
  intros cfg Hp.
  pose proof (parse_atomic unmarshal_flat clock token (Some old) keys opts) as [Ha _].
  fold cfg in Ha. rewrite Hp in Ha. destruct Ha as (c & header & payload & [= <-] & _ & [[v Hv] Hc] & Hd).
  exists header, payload, v. split; [done|]. split; [done|].
  destruct Hc as [Hraw|(reg & Hreg & Hval)].
  - unfold cfg in Hraw. by rewrite options_keep_raw in Hraw.
  - rewrite (embedded_claims payload t Hd) in Hreg. by injection Hreg as <-.
Qed.

(** C29: an OIDC login is sound: when [Parse] accepts an ID token into its claims
    struct and [ValidateIDTokenForContext] accepts the struct, the signature is
    the one of a verifier that the keys resolve for the token's header, and the
    claims the caller reads, not some other reading of the payload, are in time
    and from the configured issuer and for the configured audience, name the
    client among the trusted audiences, and carry the expected nonce and the
    hashes of the access token and of the code. *)
Theorem id_token_login_sound clock token old claims keys opts context :
  let cfg := apply_all applyParse opts (default_config clock) in
  snd (Parse unmarshal_flat clock token (Some old) keys opts) = (Some claims, None) →
  ValidateIDTokenForContext claims context = None →
  (∃ header payload v, verified token keys cfg header payload v ∧
     decodeObjectInto unmarshal_flat payload = Ok claims ∧
     claims_valid payload (id_registered claims) header cfg) ∧
  ValidateIDTokenClaims claims = None ∧ context_ok claims context.
Proof.
  intros cfg Hp Hv. split; [exact (parse_into_struct (A := IDTokenClaims) clock token old claims keys opts Hp)|].
  by apply context_valid.
Qed.

(** A struct that is issued is read back: [Parse] of the token that [Sign] makes
    of a claims struct, under the conditions that any signed claims set needs,
    assigns that struct. *)
Theorem issued_struct_read_back `{!CryptoLaws} `{FlatLaws A} `{!Embeds A}
    clock (c old : A) s v sopts token keys popts :
  let cfg := apply_all applyParse popts (default_config clock) in
  let header := signed_header s sopts in
  faithful c → Sign (Ok (marshal_flat c)) (Some s) sopts = Ok token →
  counterpart s v → header_utf8 header → len token ≤ maxTokenBytes →
  h_Algorithm header ∈ allowedAlgs cfg →
  resolves keys cfg (withoutNone (allowedAlgs cfg)) header v →
  claims_valid (marshal_flat c) (registered (returned c)) header cfg →
  snd (Parse unmarshal_flat clock token (Some old) keys popts) = (Some (returned c), None).
Proof.
  intros cfg header Hf Hs Hcp Hu Hl Ha Hv Hval. pose proof (unmarshal_marshal c Hf) as Hd.
  eapply sign_then_parse; [exact Hs|done..| |exact Hval|exact Hd]. by apply embedded_claims.
Qed.
End Login.
