(* ===== verification/AesKw.v ===== *)
(** * AesKw: jwe_aeskw.go, AES Key Wrap

    RFC 3394 on the block cipher of crypto/aes, which is a parameter: a
    permutation of 16-octet blocks for each key.  The loops are folds over their
    index ranges. *)

From S2P Require Import Prelude Errors GoLib.

(** [aes.Block.Encrypt] and [Decrypt] on one block. *)
Class AES := {
  aes_Encrypt : bytes → bytes → bytes;
  aes_Decrypt : bytes → bytes → bytes }.

(** FIPS 197: for each key the cipher is a permutation of blocks. *)
Class AESLaws `{AES} := {
  aes_Encrypt_length : ∀ key b, length b = 16%nat → length (aes_Encrypt key b) = 16%nat;
  aes_Decrypt_length : ∀ key b, length b = 16%nat → length (aes_Decrypt key b) = 16%nat;
  aes_Decrypt_Encrypt : ∀ key b, length b = 16%nat → aes_Decrypt key (aes_Encrypt key b) = b;
  aes_Encrypt_Decrypt : ∀ key b, length b = 16%nat → aes_Encrypt key (aes_Decrypt key b) = b }.

(** [aes.NewCipher] fails on a key of another length. *)
Definition NewCipher (key : bytes) : res () :=
  if bool_decide (len key ∈ [16; 24; 32]) then Ok () else fail (ErrText "crypto/aes: invalid key size").

(** [binary.BigEndian.Uint64] and [PutUint64]. *)
Definition Uint64 (b : bytes) : Z := be_val b.
Definition PutUint64 (v : Z) : bytes := be_bytes 8 v.

(** [r[i*8:(i+1)*8]], and [copy] into it. *)
Definition block_at (r : bytes) (i : nat) : bytes := take 8 (drop (i * 8) r).
Definition set_block (r : bytes) (i : nat) (b : bytes) : bytes :=
  take (i * 8) r ++ b ++ drop ((i + 1) * 8) r.

Definition aesKWDefaultIV : bytes := replicate 8 xa6.

(** The round counter, a [uint64]. *)
Definition kw_counter (n j i : nat) : Z := Z.of_nat (n * j + i + 1) mod 2 ^ 64.

Section KeyWrap.
Context `{AES}.

(** The bodies of the two inner loops, on the register and the blocks. *)
Definition wrap_step (kek : bytes) (n j : nat) (s : bytes * bytes) (i : nat) : bytes * bytes :=
  let '(a, r) := s in
  let buf := aes_Encrypt kek (a ++ block_at r i) in
  (PutUint64 (Z.lxor (Uint64 (take 8 buf)) (kw_counter n j i)), set_block r i (drop 8 buf)).

Definition unwrap_step (kek : bytes) (n j : nat) (s : bytes * bytes) (i : nat) : bytes * bytes :=
  let '(a, r) := s in
  let buf := aes_Decrypt kek (PutUint64 (Z.lxor (Uint64 a) (kw_counter n j i)) ++ block_at r i) in
  (take 8 buf, set_block r i (drop 8 buf)).

(** The double loops, upwards and downwards. *)
Definition wrap_rounds (kek : bytes) (n : nat) (s : bytes * bytes) : bytes * bytes :=
  fold_left (λ s j, fold_left (wrap_step kek n j) (seq 0 n) s) (seq 0 6) s.

Definition unwrap_rounds (kek : bytes) (n : nat) (s : bytes * bytes) : bytes * bytes :=
  fold_left (λ s j, fold_left (unwrap_step kek n j) (rev (seq 0 n)) s) (rev (seq 0 6)) s.

Definition aesKWWrap (kek plaintext : bytes) : res bytes :=
  if (len plaintext <? 16) || negb (len plaintext mod 8 =? 0) then fail ErrMalformedKey
  else
    _ ← NewCipher kek;
    let n := (length plaintext / 8)%nat in
    let '(a, r) := wrap_rounds kek n (aesKWDefaultIV, plaintext) in
    Ok (a ++ r).

Definition aesKWUnwrap (kek ciphertext : bytes) : res bytes :=
  if (len ciphertext <? 24) || negb (len ciphertext mod 8 =? 0) then fail ErrDecryptionFailed
  else
    _ ← NewCipher kek;
    let n := (length ciphertext / 8 - 1)%nat in
    let '(a, out) := unwrap_rounds kek n (take 8 ciphertext, drop 8 ciphertext) in
    if negb (bool_decide (a = aesKWDefaultIV)) then fail ErrDecryptionFailed else Ok out.
End KeyWrap.

(** ** The two directions undo each other *)

Section Folds.
Context {S I : Type} (P : S → Prop) (f g : S → I → S).

(** A loop run backwards with the inverse body restores the state. *)
Lemma fold_undo l s :
  (∀ s x, x ∈ l → P s → P (f s x) ∧ g (f s x) x = s) → P s →
  P (fold_left f l s) ∧ fold_left g (rev l) (fold_left f l s) = s.
Proof.
  intros Hf. revert s. induction l as [|x l IH]; intros s Hs; [done|]. cbn [fold_left rev].
  destruct (Hf s x ltac:(left) Hs) as [Hp Hg].
  destruct (IH (λ s y Hy, Hf s y (list_elem_of_further _ _ _ Hy)) (f s x) Hp) as [Hl Hr].
  split; [done|]. by rewrite fold_left_app, Hr.
Qed.
End Folds.

(** The register and [n] blocks. *)
Definition kw_state (n : nat) (s : bytes * bytes) : Prop :=
  length s.1 = 8%nat ∧ length s.2 = (n * 8)%nat.

Lemma length_set_block r i b n :
  length r = (n * 8)%nat → (i < n)%nat → length b = 8%nat → length (set_block r i b) = (n * 8)%nat.
Proof. intros Hr Hi Hb. unfold set_block. rewrite !length_app, length_take, length_drop. lia. Qed.

Lemma length_block_at r i n : length r = (n * 8)%nat → (i < n)%nat → length (block_at r i) = 8%nat.
Proof. intros Hr Hi. unfold block_at. rewrite length_take, length_drop. lia. Qed.

Lemma block_at_set r i b n :
  length r = (n * 8)%nat → (i < n)%nat → length b = 8%nat → block_at (set_block r i b) i = b.
Proof.
  intros Hr Hi Hb. unfold block_at, set_block.
  rewrite drop_app_length' by (rewrite length_take; lia). by rewrite take_app_length'.
Qed.

Lemma set_block_at r i b n :
  length r = (n * 8)%nat → (i < n)%nat → length b = 8%nat →
  set_block (set_block r i b) i (block_at r i) = r.
Proof.
  intros Hr Hi Hb. unfold set_block at 1. unfold set_block, block_at.
  rewrite take_app_length' by (rewrite length_take; lia).
  rewrite (app_assoc (take (i * 8) r) b), drop_app_length' by (rewrite length_app, length_take; lia).
  replace ((i + 1) * 8)%nat with (i * 8 + 8)%nat by lia.
  rewrite <- drop_drop. by rewrite !take_drop.
Qed.

Lemma kw_counter_range n j i : 0 ≤ kw_counter n j i < 2 ^ 64.
Proof. unfold kw_counter. by apply Z.mod_pos_bound. Qed.

Lemma lxor_range a b n : 0 ≤ n → 0 ≤ a < 2 ^ n → 0 ≤ b < 2 ^ n → 0 ≤ Z.lxor a b < 2 ^ n.
Proof.
  intros Hn Ha Hb. assert (Hnn : 0 ≤ Z.lxor a b) by (apply Z.lxor_nonneg; lia).
  split; [done|]. destruct (decide (Z.lxor a b = 0)) as [->|Hz]; [lia|].
  apply Z.log2_lt_pow2; [lia|].
  pose proof (Z.log2_lxor a b ltac:(lia) ltac:(lia)) as Hl.
  assert (Hlog : ∀ c, 0 ≤ c < 2 ^ n → Z.log2 c < n ∨ c = 0).
  { intros c Hc. destruct (decide (c = 0)); [by right|left]. apply Z.log2_lt_pow2; lia. }
  destruct (Hlog a Ha) as [Hla| ->], (Hlog b Hb) as [Hlb| ->]; rewrite ?Z.lxor_0_l, ?Z.lxor_0_r in *; lia.
Qed.

(** Masking with the counter twice changes nothing. *)
Lemma PutUint64_lxor b t :
  length b = 8%nat → 0 ≤ t < 2 ^ 64 →
  PutUint64 (Z.lxor (Uint64 (PutUint64 (Z.lxor (Uint64 b) t))) t) = b.
Proof.
  intros Hb Ht. unfold PutUint64, Uint64. pose proof (be_val_bound b) as Hv.
  unfold len in Hv. rewrite Hb in Hv. change (256 ^ Z.of_nat 8) with (2 ^ 64) in Hv.
  rewrite be_val_bytes. change (256 ^ Z.of_nat 8) with (2 ^ 64).
  rewrite Z.mod_small by (apply lxor_range; lia).
  rewrite Z.lxor_assoc, Z.lxor_nilpotent, Z.lxor_0_r. rewrite <- Hb. apply be_bytes_val.
Qed.

Section Inverse.
Context `{AESLaws}.

Lemma halves (b : bytes) : length b = 16%nat → length (take 8 b) = 8%nat ∧ length (drop 8 b) = 8%nat.
Proof. intros Hb. rewrite length_take, length_drop. lia. Qed.

Lemma unwrap_wrap_step kek n j s i :
  (i < n)%nat → kw_state n s →
  kw_state n (wrap_step kek n j s i) ∧ unwrap_step kek n j (wrap_step kek n j s i) i = s.
Proof.
  destruct s as [a r]. intros Hi [Ha Hr]. cbn in Ha, Hr. unfold wrap_step.
  pose proof (length_block_at r i n Hr Hi) as Hb.
  assert (Hin : length (a ++ block_at r i) = 16%nat) by (rewrite length_app; lia).
  pose proof (aes_Encrypt_length kek _ Hin) as Hbuf.
  remember (aes_Encrypt kek (a ++ block_at r i)) as buf eqn:Hdef.
  destruct (halves buf Hbuf) as [Ht Hd].
  split; [exact (conj (length_be_bytes 8 _) (length_set_block r i _ n Hr Hi Hd))|].
  unfold unwrap_step. rewrite PutUint64_lxor by (done || apply kw_counter_range).
  rewrite (block_at_set r i (drop 8 buf) n) by done. rewrite take_drop. subst buf.
  rewrite aes_Decrypt_Encrypt by done.
  rewrite take_app_length', drop_app_length' by done. by rewrite (set_block_at r i _ n).
Qed.

Lemma wrap_unwrap_step kek n j s i :
  (i < n)%nat → kw_state n s →
  kw_state n (unwrap_step kek n j s i) ∧ wrap_step kek n j (unwrap_step kek n j s i) i = s.
Proof.
  destruct s as [a r]. intros Hi [Ha Hr]. cbn in Ha, Hr. unfold unwrap_step.
  pose proof (length_block_at r i n Hr Hi) as Hb.
  set (m := PutUint64 (Z.lxor (Uint64 a) (kw_counter n j i))).
  assert (Hm : length m = 8%nat) by apply length_be_bytes.
  assert (Hin : length (m ++ block_at r i) = 16%nat) by (rewrite length_app; lia).
  pose proof (aes_Decrypt_length kek _ Hin) as Hbuf.
  remember (aes_Decrypt kek (m ++ block_at r i)) as buf eqn:Hdef.
  destruct (halves buf Hbuf) as [Ht Hd].
  split; [exact (conj Ht (length_set_block r i _ n Hr Hi Hd))|].
  unfold wrap_step. rewrite (block_at_set r i (drop 8 buf) n) by done. rewrite take_drop. subst buf.
  rewrite aes_Encrypt_Decrypt by done.
  rewrite take_app_length', drop_app_length' by done. unfold m.
  rewrite PutUint64_lxor by (done || apply kw_counter_range). by rewrite (set_block_at r i _ n).
Qed.

Lemma unwrap_wrap_rounds kek n s :
  kw_state n s → kw_state n (wrap_rounds kek n s) ∧ unwrap_rounds kek n (wrap_rounds kek n s) = s.
Proof.
  apply (fold_undo (kw_state n)). intros t j _ Ht. apply (fold_undo (kw_state n)); [|done].
  intros u i Hi. apply unwrap_wrap_step. apply elem_of_seq in Hi. lia.
Qed.

Lemma wrap_unwrap_rounds kek n s :
  kw_state n s → kw_state n (unwrap_rounds kek n s) ∧ wrap_rounds kek n (unwrap_rounds kek n s) = s.
Proof.
  assert (Hin : ∀ j t, kw_state n t →
    kw_state n (fold_left (unwrap_step kek n j) (rev (seq 0 n)) t) ∧
    fold_left (wrap_step kek n j) (seq 0 n) (fold_left (unwrap_step kek n j) (rev (seq 0 n)) t) = t).
  { intros j t. rewrite <- (rev_involutive (seq 0 n)) at 2. apply (fold_undo (kw_state n)).
    intros u i Hi. apply wrap_unwrap_step. apply list_elem_of_In, in_rev, list_elem_of_In, elem_of_seq in Hi. lia. }
  unfold wrap_rounds. rewrite <- (rev_involutive (seq 0 6)). apply (fold_undo (kw_state n)).
  intros t j _. apply Hin.
Qed.
End Inverse.

Section KeyWrapSpec.
Context `{AESLaws}.

Lemma multiple8 (b : bytes) : len b mod 8 =? 0 = true ↔ length b = (length b / 8 * 8)%nat.
Proof.
  rewrite Z.eqb_eq. unfold len. change 8 with (Z.of_nat 8). rewrite <- (Nat2Z.inj_mod (length b) 8).
  pose proof (Nat.div_mod_eq (length b) 8). lia.
Qed.

Lemma aesKWWrap_Ok kek p c :
  aesKWWrap kek p = Ok c ↔
  ∃ n, length p = (n * 8)%nat ∧ (2 ≤ n)%nat ∧ NewCipher kek = Ok () ∧
    wrap_rounds kek n (aesKWDefaultIV, p) = (take 8 c, drop 8 c).
Proof.
  unfold aesKWWrap. split.
  - destruct (_ || _) eqn:Hg; [done|]. apply orb_false_iff in Hg as [Hl Hm%negb_false_iff].
    apply multiple8 in Hm. destruct (NewCipher kek) as [[]|]; [|done]. cbn [mbind result_bind].
    set (n := (length p / 8)%nat) in *.
    assert (Hs : kw_state n (aesKWDefaultIV, p)) by done.
    destruct (unwrap_wrap_rounds kek n _ Hs) as [[Ha Hr] _].
    destruct (wrap_rounds _ _ _) as [a r] eqn:Hw. cbn in Ha, Hr. intros Hc%Ok_inj. subst c.
    exists n. rewrite take_app_length', drop_app_length' by done. unfold len in Hl.
    repeat split; [done|lia|done].
  - intros (n & Hn & H2 & Hk & Hw).
    rewrite (proj2 (Z.ltb_ge _ _)) by (unfold len; lia).
    rewrite (proj2 (multiple8 p)) by (rewrite Hn, Nat.div_mul; lia).
    rewrite Hk. cbn [orb negb mbind result_bind]. rewrite Hn, Nat.div_mul by lia.
    rewrite Hw. by rewrite take_drop.
Qed.

Lemma aesKWUnwrap_Ok kek c p :
  aesKWUnwrap kek c = Ok p ↔
  ∃ n, length c = ((n + 1) * 8)%nat ∧ (2 ≤ n)%nat ∧ NewCipher kek = Ok () ∧
    unwrap_rounds kek n (take 8 c, drop 8 c) = (aesKWDefaultIV, p).
Proof.
  unfold aesKWUnwrap. split.
  - destruct (_ || _) eqn:Hg; [done|]. apply orb_false_iff in Hg as [Hl Hm%negb_false_iff].
    apply multiple8 in Hm. unfold len in Hl. destruct (NewCipher kek) as [[]|]; [|done].
    cbn [mbind result_bind]. destruct (unwrap_rounds _ _ _) as [a r] eqn:Hu.
    destruct (decide (a = aesKWDefaultIV)) as [->|Ha]; [|by rewrite bool_decide_eq_false_2].
    rewrite bool_decide_eq_true_2 by done. cbn [negb]. intros Hr%Ok_inj. subst r.
    exists (length c / 8 - 1)%nat. repeat split; [lia|lia|done].
  - intros (n & Hn & H2 & Hk & Hu).
    rewrite (proj2 (Z.ltb_ge _ _)) by (unfold len; lia).
    rewrite (proj2 (multiple8 c)) by (rewrite Hn, Nat.div_mul; lia).
    rewrite Hk. cbn [orb negb mbind result_bind]. rewrite Hn, Nat.div_mul by lia.
    replace (n + 1 - 1)%nat with n by lia. rewrite Hu. by rewrite bool_decide_eq_true_2.
Qed.

Lemma unwrap_iff_wrap kek p c : aesKWUnwrap kek c = Ok p ↔ aesKWWrap kek p = Ok c.
Proof.
  rewrite aesKWUnwrap_Ok, aesKWWrap_Ok. split.
  - intros (n & Hn & H2 & Hk & Hu). exists n.
    assert (Hs : kw_state n (take 8 c, drop 8 c)) by (split; cbn; rewrite ?length_take, ?length_drop; lia).
    destruct (wrap_unwrap_rounds kek n _ Hs) as [[_ Hp] Hw]. rewrite Hu in *. by repeat split.
  - intros (n & Hn & H2 & Hk & Hw). exists n.
    assert (Hs : kw_state n (aesKWDefaultIV, p)) by done.
    destruct (unwrap_wrap_rounds kek n _ Hs) as [[Ha Hr] Hu]. rewrite Hw in *. cbn in Ha, Hr.
    rewrite length_take, length_drop in *. repeat split; [lia|done|done|done].
Qed.

Lemma aesKWWrap_length kek p c : aesKWWrap kek p = Ok c → len c = len p + 8.
Proof.
  rewrite aesKWWrap_Ok. intros (n & Hn & _ & _ & Hw).
  assert (Hs : kw_state n (aesKWDefaultIV, p)) by done.
  destruct (unwrap_wrap_rounds kek n _ Hs) as [[Ha Hr] _]. rewrite Hw in *. cbn in Ha, Hr.
  rewrite length_take, length_drop in *. unfold len. lia.
Qed.

Lemma aesKWWrap_total kek p :
  len kek = 32 → 16 ≤ len p → len p mod 8 = 0 → is_ok (aesKWWrap kek p) = true.
Proof.
  intros Hk Hp Hm. unfold aesKWWrap, NewCipher. rewrite Hk, Hm.
  rewrite (proj2 (Z.ltb_ge _ _)) by done. rewrite Z.eqb_refl.
  change (bool_decide (32 ∈ [16; 24; 32])) with true. cbn [orb negb mbind result_bind].
  by destruct (wrap_rounds _ _ _).
Qed.

(** C36: key wrap and key unwrap are exact inverses: under any usable key
    the unwrapping accepts precisely the outputs of the wrapping and returns
    what was wrapped, so every other ciphertext fails the integrity check; what
    is wrapped grows by 8 octets, and a plaintext of 16 octets or more in
    whole blocks is always wrapped. *)
Theorem key_wrap_inverse kek p c :
  (aesKWUnwrap kek c = Ok p ↔ aesKWWrap kek p = Ok c) ∧
  (aesKWWrap kek p = Ok c → len c = len p + 8) ∧
  (len kek = 32 → 16 ≤ len p → len p mod 8 = 0 → is_ok (aesKWWrap kek p) = true).
Proof. split; [apply unwrap_iff_wrap|]. split; [apply aesKWWrap_length|apply aesKWWrap_total]. Qed.
End KeyWrapSpec.
