(* ===== verification/JweAlg.v ===== *)
(** * JweAlg: the key management of JWE

    jwe_direct.go, jwe_aeskw.go, jwe_rsa.go and jwe_ecdh.go: how each algorithm
    makes the content-encryption key and gets it back, with the Concat KDF and
    the constructors' checks.  The entropy of one encryption is a parameter. *)

From S2P Require Import Prelude Errors GoLib Utf8 B64 Json StrictJson Alg Key Dates Claims AesKw.

Abbreviation KeyAlgorithm := bytes.
Abbreviation ContentAlgorithm := bytes.

Definition ECDHES : KeyAlgorithm := #"ECDH-ES".
Definition ECDHESA256KW : KeyAlgorithm := #"ECDH-ES+A256KW".
Definition RSAOAEP256 : KeyAlgorithm := #"RSA-OAEP-256".
Definition A256KW : KeyAlgorithm := #"A256KW".
Definition Direct : KeyAlgorithm := #"dir".

Definition A128GCM : ContentAlgorithm := #"A128GCM".
Definition A192GCM : ContentAlgorithm := #"A192GCM".
Definition A256GCM : ContentAlgorithm := #"A256GCM".

Definition contentKeyLen (enc : ContentAlgorithm) : Z :=
  if bool_decide (enc = A128GCM) then 16
  else if bool_decide (enc = A192GCM) then 24
  else if bool_decide (enc = A256GCM) then 32
  else 0.

(** [jweHeader]; the last two fields are not members of the JSON object. *)
Record jweHeader := mkJweHeader {
  w_Alg : KeyAlgorithm;
  w_Enc : ContentAlgorithm;
  w_Kid : bytes;
  w_Typ : bytes;
  w_Cty : bytes;
  w_EPK : option Key;
  w_APU : bytes;
  w_APV : bytes;
  apuPresent : bool;
  apvPresent : bool }.

Definition zero_jwe : jweHeader := mkJweHeader [] [] [] [] [] None [] [] false false.

Definition set_EPK (h : jweHeader) (k : Key) : jweHeader :=
  mkJweHeader (w_Alg h) (w_Enc h) (w_Kid h) (w_Typ h) (w_Cty h) (Some k) (w_APU h) (w_APV h)
    (apuPresent h) (apvPresent h).

(** ** The primitives *)

Class JweCrypto := {
  (** [cipher.NewGCM(block).Seal] and [Open], ciphertext and tag together *)
  gcm_Seal : bytes → bytes → bytes → bytes → bytes;
  gcm_Open : bytes → bytes → bytes → bytes → option bytes;
  (** the X coordinate of the product of a scalar and a point, in full width *)
  ecdh_X : Curve → Z → Z * Z → bytes;
  rsa_DecryptOAEP : RSAPrivateKey → bytes → res bytes }.

(** The entropy of one call of [Encrypt]: the draws of [rand.Read], by number
    and size, a fresh EC key, and RSA-OAEP under the remaining randomness. *)
Class Entropy := {
  rand_Read : nat → Z → res bytes;
  GenerateKey : Curve → res (Z * (Z * Z));
  rsa_EncryptOAEP : RSAPublicKey → bytes → res bytes }.

Class JweLaws `{Crypto, JweCrypto, Entropy} := {
  gcm_Open_Seal : ∀ k iv p aad, gcm_Open k iv (gcm_Seal k iv p aad) aad = Some p;
  gcm_Seal_len : ∀ k iv p aad, len (gcm_Seal k iv p aad) = len p + 16;
  rand_Read_len : ∀ n size b, 0 ≤ size → rand_Read n size = Ok b → len b = size;
  GenerateKey_ok : ∀ c d p, GenerateKey c = Ok (d, p) → scalar_point c d = Some p;
  scalar_point_ok : ∀ c d x y, curveName c ≠ [] → scalar_point c d = Some (x, y) →
    on_curve c x y = true ∧ 0 ≤ x < 256 ^ coord_size c ∧ 0 ≤ y < 256 ^ coord_size c;
  ecdh_agree : ∀ c d p d' p', scalar_point c d = Some p → scalar_point c d' = Some p' →
    ecdh_X c d p' = ecdh_X c d' p;
  rsa_OAEP_ok : ∀ k m c, rsa_Validate k = true →
    rsa_EncryptOAEP (rsap_PublicKey k) m = Ok c → rsa_DecryptOAEP k c = Ok m }.

(** ** jwe_ecdh.go: agreement and key derivation *)

(** [binary.Write(w, binary.BigEndian, uint32(v))]. *)
Definition put_uint32 (v : Z) : bytes := be_bytes 4 (v mod 2 ^ 32).

Definition writeLenPrefixed (b : bytes) : bytes := put_uint32 (len b) ++ b.

(** What the one round of the KDF hashes. *)
Definition kdf_input (z algID apu apv : bytes) (keyBits : Z) : bytes :=
  put_uint32 1 ++ z ++
  writeLenPrefixed algID ++ writeLenPrefixed apu ++ writeLenPrefixed apv ++ put_uint32 keyBits.

Section KeyManagement.
Context `{Crypto, AES, JweCrypto, Entropy}.

Definition concatKDF (z algID apu apv : bytes) (keyBits : Z) : bytes :=
  take (Z.to_nat (keyBits / 8)) (HashSum SHA256 (kdf_input z algID apu apv keyBits)).

(** [ecdhZ]: the scalar [d] on [c] with a public point. *)
Definition ecdhZ (c : Curve) (d : Z) (pub_curve : Curve) (x y : Z) : res bytes :=
  if negb (bool_decide (c = pub_curve)) then fail ErrDecryptionFailed
  else
    match scalar_point c d with
    | None => fail (ErrText "ecdsa: invalid private key")
    | Some _ =>
        if negb (on_curve pub_curve x y) then fail (ErrText "ecdsa: invalid public key")
        else Ok (ecdh_X c d (x, y))
    end.

Definition decodePartyInfo (hdr : jweHeader) : res (bytes * bytes) :=
  apu ← (if bool_decide (w_APU hdr = []) then Ok [] else Decode (w_APU hdr));
  apv ← (if bool_decide (w_APV hdr = []) then Ok [] else Decode (w_APV hdr));
  if apuPresent hdr && apvPresent hdr && bool_decide (apu = apv)
  then fail (ErrText "apu and apv must be distinct")
  else Ok (apu, apv).

(** ** Wrapping *)

Inductive keyWrapper : Type :=
  | directWrapper (cek : bytes)
  | aesKWWrapper (kek : bytes)
  | rsaOAEPWrapper (pub : RSAPublicKey)
  | ecdhWrapper (c : Curve) (x y : Z) (alg : KeyAlgorithm).

Definition keyAlg (w : keyWrapper) : KeyAlgorithm :=
  match w with
  | directWrapper _ => Direct
  | aesKWWrapper _ => A256KW
  | rsaOAEPWrapper _ => RSAOAEP256
  | ecdhWrapper _ _ _ alg => alg
  end.

Definition direct_wrap (cek : bytes) (hdr : jweHeader) (cekLen : Z) : res (jweHeader * bytes * bytes) :=
  if negb (len cek =? cekLen) then fail ErrMalformedKey else Ok (hdr, cek, []).

Definition aesKW_wrap (kek : bytes) (hdr : jweHeader) (cekLen : Z) : res (jweHeader * bytes * bytes) :=
  cek ← rand_Read 0 cekLen;
  encryptedKey ← aesKWWrap kek cek;
  Ok (hdr, cek, encryptedKey).

Definition rsaOAEP_wrap (pub : RSAPublicKey) (hdr : jweHeader) (cekLen : Z) :
    res (jweHeader * bytes * bytes) :=
  cek ← rand_Read 0 cekLen;
  encryptedKey ← rsa_EncryptOAEP pub cek;
  Ok (hdr, cek, encryptedKey).

Definition ecdh_wrap (c : Curve) (x y : Z) (alg : KeyAlgorithm) (hdr : jweHeader) (cekLen : Z) :
    res (jweHeader * bytes * bytes) :=
  '(d, (ex, ey)) ← GenerateKey c;
  z ← ecdhZ c d c x y;
  let epk := FromECDSAPublicKey (Some (mkECDSAPublicKey (Some c) (Some ex) (Some ey))) [ [] ] in
  let hdr := set_EPK hdr epk in
  if bool_decide (alg = ECDHES) then Ok (hdr, concatKDF z (w_Enc hdr) [] [] (cekLen * 8), [])
  else if bool_decide (alg = ECDHESA256KW) then
    let kek := concatKDF z alg [] [] 256 in
    cek ← rand_Read 0 cekLen;
    encryptedKey ← aesKWWrap kek cek;
    Ok (hdr, cek, encryptedKey)
  else fail ErrUnsupportedAlgorithm.

(** [wrap]: the header it may have extended, the key and its encryption. *)
Definition wrap_key (w : keyWrapper) : jweHeader → Z → res (jweHeader * bytes * bytes) :=
  match w with
  | directWrapper cek => direct_wrap cek
  | aesKWWrapper kek => aesKW_wrap kek
  | rsaOAEPWrapper pub => rsaOAEP_wrap pub
  | ecdhWrapper c x y alg => ecdh_wrap c x y alg
  end.

(** ** Unwrapping *)

Inductive keyUnwrapper : Type :=
  | directUnwrapper (cek : bytes)
  | aesKWUnwrapper (kek : bytes)
  | rsaOAEPUnwrapper (priv : RSAPrivateKey)
  | ecdhUnwrapper (c : Curve) (d : Z).

Definition supports (u : keyUnwrapper) (alg : KeyAlgorithm) : bool :=
  match u with
  | directUnwrapper _ => bool_decide (alg = Direct)
  | aesKWUnwrapper _ => bool_decide (alg = A256KW)
  | rsaOAEPUnwrapper _ => bool_decide (alg = RSAOAEP256)
  | ecdhUnwrapper _ _ => bool_decide (alg = ECDHES) || bool_decide (alg = ECDHESA256KW)
  end.

Definition direct_unwrap (k encryptedKey : bytes) (cekLen : Z) : res bytes :=
  if negb (len encryptedKey =? 0) || negb (len k =? cekLen) then fail ErrDecryptionFailed else Ok k.

Definition aesKW_unwrap (kek encryptedKey : bytes) (cekLen : Z) : res bytes :=
  if negb (len encryptedKey =? cekLen + 8) then fail ErrDecryptionFailed
  else match aesKWUnwrap kek encryptedKey with
       | Ok cek => if negb (len cek =? cekLen) then fail ErrDecryptionFailed else Ok cek
       | Err _ => fail ErrDecryptionFailed
       end.

Definition rsaOAEP_unwrap (priv : RSAPrivateKey) (encryptedKey : bytes) (cekLen : Z) : res bytes :=
  match rsa_DecryptOAEP priv encryptedKey with
  | Ok cek => if negb (len cek =? cekLen) then fail ErrDecryptionFailed else Ok cek
  | Err _ => fail ErrDecryptionFailed
  end.

Definition ecdh_unwrap (c : Curve) (d : Z) (hdr : jweHeader) (encryptedKey : bytes) (cekLen : Z) : res bytes :=
  if bool_decide (w_Alg hdr = ECDHESA256KW) && negb (len encryptedKey =? cekLen + 8)
  then fail ErrDecryptionFailed
  else match w_EPK hdr with
  | None => fail ErrDecryptionFailed
  | Some epk =>
      match decodePartyInfo hdr, Key_PublicKey epk with
      | Ok (apu, apv), Ok (ECPub pc x y) =>
          match ecdhZ c d pc x y with
          | Err _ => fail ErrDecryptionFailed
          | Ok z =>
              if bool_decide (w_Alg hdr = ECDHES) then
                if negb (len encryptedKey =? 0) then fail ErrDecryptionFailed
                else Ok (concatKDF z (w_Enc hdr) apu apv (cekLen * 8))
              else if bool_decide (w_Alg hdr = ECDHESA256KW) then
                match aesKWUnwrap (concatKDF z (w_Alg hdr) apu apv 256) encryptedKey with
                | Ok cek => if negb (len cek =? cekLen) then fail ErrDecryptionFailed else Ok cek
                | Err _ => fail ErrDecryptionFailed
                end
              else fail ErrDecryptionFailed
          end
      | _, _ => fail ErrDecryptionFailed
      end
  end.

Definition unwrap_key (u : keyUnwrapper) (hdr : jweHeader) : bytes → Z → res bytes :=
  match u with
  | directUnwrapper k => direct_unwrap k
  | aesKWUnwrapper kek => aesKW_unwrap kek
  | rsaOAEPUnwrapper priv => rsaOAEP_unwrap priv
  | ecdhUnwrapper c d => ecdh_unwrap c d hdr
  end.

(** ** Encrypters and decrypters *)

Record encrypter := mkEncrypter {
  e_alg : KeyAlgorithm; e_enc : ContentAlgorithm; e_kid : bytes; e_wrapper : keyWrapper }.

Record decrypter := mkDecrypter { d_kid : bytes; d_unwrapper : keyUnwrapper }.

Definition newEncrypter (enc : ContentAlgorithm) (kid : bytes) (w : keyWrapper) : res encrypter :=
  if contentKeyLen enc =? 0 then fail ErrUnsupportedAlgorithm
  else Ok (mkEncrypter (keyAlg w) enc kid w).

Definition NewDirectEncrypter (cek : bytes) (content : ContentAlgorithm) (kid : list bytes) : res encrypter :=
  let n := contentKeyLen content in
  if (n =? 0) || negb (len cek =? n) then fail ErrMalformedKey
  else newEncrypter content (optKID kid) (directWrapper cek).

Definition NewDirectDecrypter (cek : bytes) (kid : list bytes) : res decrypter :=
  if negb (len cek =? 16) && negb (len cek =? 24) && negb (len cek =? 32) then fail ErrMalformedKey
  else Ok (mkDecrypter (optKID kid) (directUnwrapper cek)).

Definition NewA256KWEncrypter (kek : bytes) (content : ContentAlgorithm) (kid : list bytes) : res encrypter :=
  if negb (len kek =? 32) then fail ErrMalformedKey
  else newEncrypter content (optKID kid) (aesKWWrapper kek).

Definition NewA256KWDecrypter (kek : bytes) (kid : list bytes) : res decrypter :=
  if negb (len kek =? 32) then fail ErrMalformedKey
  else Ok (mkDecrypter (optKID kid) (aesKWUnwrapper kek)).

Definition maxJWERSABits : Z := 8192.

Definition validateJWERSAPublicKey (pub : option RSAPublicKey) : err_opt :=
  match pub with
  | Some (mkRSAPublicKey (Some n) e) =>
      if n <=? 0 then Some [ErrMalformedKey]
      else if BitLen n <? minRSABits then Some [ErrWeakKey]
      else if maxJWERSABits <? BitLen n then Some [ErrMalformedKey]
      else if negb (Z.testbit n 0) || (e <? 3) || (Z.land e 1 =? 0) || (Z.shiftl 1 31 - 1 <? e)
      then Some [ErrMalformedKey]
      else None
  | _ => Some [ErrMalformedKey]
  end.

Definition NewRSAOAEP256Encrypter (pub : option RSAPublicKey) (content : ContentAlgorithm) (kid : list bytes) :
    res encrypter :=
  check (validateJWERSAPublicKey pub)
  match pub with
  | Some pub => newEncrypter content (optKID kid) (rsaOAEPWrapper pub)
  | None => fail Panicked
  end.

Definition positive (z : option Z) : bool := match z with Some z => 0 <? z | None => false end.

Definition NewRSAOAEP256Decrypter (priv : option RSAPrivateKey) (kid : list bytes) : res decrypter :=
  match priv with
  | None => fail ErrMalformedKey
  | Some priv =>
      check (validateJWERSAPublicKey (Some (rsap_PublicKey priv)))
      (if negb (positive (rsap_D priv)) || (len (rsap_Primes priv) <? 2) then fail ErrMalformedKey
       else if negb (forallb positive (rsap_Primes priv)) then fail ErrMalformedKey
       else if negb (rsa_Validate priv) then fail ErrMalformedKey
       else Ok (mkDecrypter (optKID kid) (rsaOAEPUnwrapper priv)))
  end.

(** The field [Curve] of a key, with the name of a nil curve. *)
Definition key_curve_name (pub : ECDSAPublicKey) : bytes :=
  match ec_Curve pub with Some c => curveName c | None => [] end.

Definition NewECDHESEncrypter (pub : option ECDSAPublicKey) (alg : KeyAlgorithm) (content : ContentAlgorithm)
    (kid : list bytes) : res encrypter :=
  match pub with
  | None => fail ErrMalformedKey
  | Some pub =>
      if negb (bool_decide (alg = ECDHES)) && negb (bool_decide (alg = ECDHESA256KW))
      then fail ErrUnsupportedAlgorithm
      else if bool_decide (key_curve_name pub = []) then fail ErrMalformedKey
      else match Key_PublicKey (FromECDSAPublicKey (Some pub) []), pub with
           | Ok _, mkECDSAPublicKey (Some c) (Some x) (Some y) =>
               newEncrypter content (optKID kid) (ecdhWrapper c x y alg)
           | _, _ => fail ErrMalformedKey
           end
  end.

(** A private key without a scalar is one [priv.ECDH()] documents as invalid. *)
Definition NewECDHESDecrypter (priv : option ECDSAPrivateKey) (kid : list bytes) : res decrypter :=
  match priv with
  | None => fail ErrMalformedKey
  | Some priv =>
      let pub := ecp_PublicKey priv in
      if bool_decide (key_curve_name pub = []) then fail ErrMalformedKey
      else match Key_PublicKey (FromECDSAPublicKey (Some pub) []), pub, ecp_D priv with
           | Ok _, mkECDSAPublicKey (Some c) (Some x) (Some y), Some d =>
               match scalar_point c d with
               | None => fail ErrMalformedKey
               | Some p =>
                   if negb (on_curve c x y) || negb (bool_decide (p = (x, y))) then fail ErrMalformedKey
                   else Ok (mkDecrypter (optKID kid) (ecdhUnwrapper c d))
               end
           | _, _, _ => fail ErrMalformedKey
           end
  end.
End KeyManagement.

(** ** The KDF input is unambiguous *)

Lemma put_uint32_inj v w : 0 ≤ v < 2 ^ 32 → 0 ≤ w < 2 ^ 32 → put_uint32 v = put_uint32 w → v = w.
Proof.
  intros Hv Hw H. apply (f_equal be_val) in H. unfold put_uint32 in H.
  rewrite !be_val_bytes in H. change (256 ^ Z.of_nat 4) with (2 ^ 32) in H.
  by rewrite !Z.mod_mod, !Z.mod_small in H by done.
Qed.

Lemma writeLenPrefixed_inj a b s t :
  len a < 2 ^ 32 → len b < 2 ^ 32 →
  writeLenPrefixed a ++ s = writeLenPrefixed b ++ t → a = b ∧ s = t.
Proof.
  intros Ha Hb. unfold writeLenPrefixed. rewrite <- !app_assoc. intros H.
  apply app_inj_1 in H as [Hl H]; [|unfold put_uint32; by rewrite !length_be_bytes].
  apply put_uint32_inj in Hl; [|pose proof (len_nonneg a); lia|pose proof (len_nonneg b); lia].
  apply app_inj_1 in H as [-> ->]; [done|]. unfold len in Hl. lia.
Qed.

(** No two key agreements hash the same KDF input unless they agree on
    the shared secret, the algorithm, both parties' information and the key
    size: the length prefixes leave no way to move octets between fields. *)
Theorem kdf_input_unambiguous z z' alg alg' apu apu' apv apv' bits bits' :
  Forall (λ b, len b < 2 ^ 32) [alg; alg'; apu; apu'; apv; apv'] →
  0 ≤ bits < 2 ^ 32 → 0 ≤ bits' < 2 ^ 32 → len z = len z' →
  kdf_input z alg apu apv bits = kdf_input z' alg' apu' apv' bits' →
  z = z' ∧ alg = alg' ∧ apu = apu' ∧ apv = apv' ∧ bits = bits'.
Proof.
  rewrite !list.Forall_cons. intros (H1 & H2 & H3 & H4 & H5 & H6 & _) Hb Hb' Hz H.
  unfold kdf_input in H. apply app_inv_head in H.
  apply app_inj_1 in H as [-> H]; [|unfold len in Hz; lia].
  apply writeLenPrefixed_inj in H as [-> H]; [|done..].
  apply writeLenPrefixed_inj in H as [-> H]; [|done..].
  apply writeLenPrefixed_inj in H as [-> H]; [|done..].
  apply put_uint32_inj in H as ->; done.
Qed.

(** ** What is wrapped for a recipient, the recipient unwraps *)

(** The unwrapper holds the private counterpart of the wrapper's key. *)
Definition key_pair `{Crypto} (w : keyWrapper) (u : keyUnwrapper) : Prop :=
  match w, u with
  | directWrapper k, directUnwrapper k' => k = k'
  | aesKWWrapper k, aesKWUnwrapper k' => k = k'
  | rsaOAEPWrapper pub, rsaOAEPUnwrapper priv => pub = rsap_PublicKey priv ∧ rsa_Validate priv = true
  | ecdhWrapper c x y alg, ecdhUnwrapper c' d =>
      c = c' ∧ scalar_point c d = Some (x, y) ∧ curveName c ≠ [] ∧ (alg = ECDHES ∨ alg = ECDHESA256KW)
  | _, _ => False
  end.

(** The header extended by a wrapper: at most an ephemeral key is added. *)
Definition extended (hdr hdr' : jweHeader) : Prop :=
  hdr' = hdr ∨ ∃ epk, hdr' = set_EPK hdr epk ∧ jwk_ok epk ∧ key_utf8 epk.

Section Unwrap.
Context `{AESLaws, JweLaws}.

Lemma ec_key_ok c x y kid : curveName c ≠ [] → on_curve c x y = true → utf8_valid kid = true →
  let key := FromECDSAPublicKey (Some (mkECDSAPublicKey (Some c) (Some x) (Some y))) [kid] in
  jwk_ok key ∧ key_utf8 key.
Proof.
  intros Hc Hon Hk key. unfold key, FromECDSAPublicKey. rewrite bool_decide_eq_false_2, Hon by done.
  split; [split; [|done]|split; [|by apply list.Forall_nil]].
  - unfold checkCanonical, checkMaterial.
    cbn [Kty KeyOps with_material blank_key key_x key_y key_crv checkKeyOps].
    change (bool_decide (KeyTypeEC = KeyTypeRSA)) with false.
    change (bool_decide (KeyTypeEC = KeyTypeEC)) with true.
    replace (curveByName (curveName c)) with (Some c) by (by destruct c).
    assert (Hs : 0 < coord_size c) by (by destruct c).
    assert (Hb : ∀ z, bad_size (be_bytes (Z.to_nat (coord_size c)) z) (coord_size c) = false).
    { intros z. unfold bad_size, len. rewrite length_be_bytes, Z2Nat.id, Z.eqb_refl by lia.
      apply andb_false_r. }
    by rewrite !Hb.
  - destruct c; [by repeat constructor..|done].
Qed.

Lemma direct_unwrap_wrap k hdr n hdr' cek ek :
  direct_wrap k hdr n = Ok (hdr', cek, ek) → hdr' = hdr ∧ direct_unwrap k ek n = Ok cek.
Proof.
  unfold direct_wrap, direct_unwrap. destruct (len k =? n) eqn:Hk; [|done].
  cbn [negb]. intros [= <- <- <-]. done.
Qed.

Lemma aesKW_unwrap_of kek n cek ek :
  len cek = n → aesKWWrap kek cek = Ok ek → aesKW_unwrap kek ek n = Ok cek.
Proof.
  intros Hn Hw. unfold aesKW_unwrap. rewrite (aesKWWrap_length _ _ _ Hw), Hn, Z.eqb_refl.
  rewrite (proj2 (unwrap_iff_wrap kek cek ek) Hw), Hn. by rewrite Z.eqb_refl.
Qed.

Lemma ecdhZ_agree c d d' x y x' y' z :
  scalar_point c d = Some (x, y) → scalar_point c d' = Some (x', y') → curveName c ≠ [] →
  ecdhZ c d' c x y = Ok z → ecdhZ c d c x' y' = Ok z.
Proof.
  intros Hd Hd' Hc. unfold ecdhZ. rewrite !bool_decide_eq_true_2, Hd, Hd' by done. cbn [negb].
  destruct (scalar_point_ok c d x y Hc Hd) as [-> _].
  destruct (scalar_point_ok c d' x' y' Hc Hd') as [-> _].
  cbn [negb]. by rewrite (ecdh_agree c d' (x', y') d (x, y)).
Qed.

Lemma decodePartyInfo_none hdr :
  w_APU hdr = [] → w_APV hdr = [] → apuPresent hdr = false → decodePartyInfo hdr = Ok ([], []).
Proof. intros Hu Hv Hp. unfold decodePartyInfo. by rewrite Hu, Hv, Hp. Qed.

Lemma ecdh_unwrap_wrap c x y alg d hdr n hdr' cek ek :
  scalar_point c d = Some (x, y) → curveName c ≠ [] →
  w_Alg hdr = alg → w_APU hdr = [] → w_APV hdr = [] → apuPresent hdr = false → 0 ≤ n →
  ecdh_wrap c x y alg hdr n = Ok (hdr', cek, ek) →
  extended hdr hdr' ∧ ecdh_unwrap c d hdr' ek n = Ok cek.
Proof.
  intros Hd Hc Ha Hu Hv Hp Hn. unfold ecdh_wrap. intros ([d' [ex ey]] & Hg & Hr)%bind_Ok.
  apply GenerateKey_ok in Hg. destruct (scalar_point_ok c d' ex ey Hc Hg) as (Hon & Hx & Hy).
  apply bind_Ok in Hr as (z & Hz & Hr). pose proof (ecdhZ_agree c d d' x y ex ey z Hd Hg Hc Hz) as Hz'.
  cbv zeta in Hr.
  set (epk := FromECDSAPublicKey (Some (mkECDSAPublicKey (Some c) (Some ex) (Some ey))) [ [] ]) in *.
  assert (Hpk : Key_PublicKey epk = Ok (ECPub c ex ey)) by (by apply EC_import).
  assert (Hpi : decodePartyInfo (set_EPK hdr epk) = Ok ([], [])) by (by apply decodePartyInfo_none).
  assert (Hext : extended hdr (set_EPK hdr epk)) by (right; exists epk; split; [done|by apply ec_key_ok]).
  destruct (decide (alg = ECDHES)) as [He|He].
  - rewrite (bool_decide_eq_true_2 _ He) in Hr. injection Hr as <- <- <-. split; [done|].
    unfold ecdh_unwrap. cbn [w_Alg w_EPK set_EPK]. rewrite Ha, He, Hpi, Hpk, Hz'. done.
  - rewrite (bool_decide_eq_false_2 _ He) in Hr.
    destruct (decide (alg = ECDHESA256KW)) as [Hw|]; [|by rewrite bool_decide_eq_false_2 in Hr].
    rewrite (bool_decide_eq_true_2 _ Hw) in Hr. apply bind_Ok in Hr as (k & Hk & Hr).
    apply bind_Ok in Hr as (e & He' & Hr). injection Hr as <- <- <-. split; [done|].
    apply rand_Read_len in Hk; [|done].
    unfold ecdh_unwrap. cbn [w_Alg w_EPK set_EPK].
    rewrite Ha, (aesKWWrap_length _ _ _ He'), Hk, Z.eqb_refl, andb_false_r, Hpi, Hpk, Hz'.
    rewrite (bool_decide_eq_false_2 _ He), (bool_decide_eq_true_2 _ Hw).
    by rewrite (proj2 (unwrap_iff_wrap _ _ _) He'), Hk, Z.eqb_refl.
Qed.

Lemma unwrap_wrap w u hdr n hdr' cek ek :
  key_pair w u → w_Alg hdr = keyAlg w → w_APU hdr = [] → w_APV hdr = [] → apuPresent hdr = false →
  0 ≤ n → wrap_key w hdr n = Ok (hdr', cek, ek) →
  extended hdr hdr' ∧ supports u (keyAlg w) = true ∧ unwrap_key u hdr' ek n = Ok cek.
Proof.
  intros Hp Ha Hu Hv Hpr Hn Hw. destruct w as [k|kek|pub|c x y alg], u as [k'|kek'|priv|c' d]; try done.
  - cbn in Hp. subst k'. apply direct_unwrap_wrap in Hw as [-> ?]. split; [by left|done].
  - cbn in Hp. subst kek'. cbn [wrap_key] in Hw. unfold aesKW_wrap in Hw.
    apply bind_Ok in Hw as (k & Hk & Hw). apply bind_Ok in Hw as (e & He & Hw). injection Hw as <- <- <-.
    split; [by left|]. split; [done|]. apply aesKW_unwrap_of; [by eapply rand_Read_len|done].
  - destruct Hp as [-> Hval]. cbn [wrap_key] in Hw. unfold rsaOAEP_wrap in Hw.
    apply bind_Ok in Hw as (k & Hk & Hw). apply bind_Ok in Hw as (e & He & Hw). injection Hw as <- <- <-.
    split; [by left|]. split; [done|]. cbn [unwrap_key]. unfold rsaOAEP_unwrap.
    by rewrite (rsa_OAEP_ok _ _ _ Hval He), (rand_Read_len _ _ _ Hn Hk), Z.eqb_refl.
  - destruct Hp as (<- & Hd & Hc & Halg). cbn [wrap_key unwrap_key keyAlg] in *.
    destruct (ecdh_unwrap_wrap c x y alg d hdr n hdr' cek ek) as [He Hun]; try done.
    split; [done|]. split; [|done]. by destruct Halg as [-> | ->].
Qed.
End Unwrap.
