(* ===== verification/Jwe.v ===== *)
(** * Jwe: jwe.go, compact JWE encryption and decryption

    The header, the encrypt and decrypt pipelines of the built-in encrypters and
    decrypters, the policy checks in front of a decrypter, and nested tokens.
    Callbacks are recorded as in [Jws]. *)

From S2P Require Import Prelude Errors GoLib Utf8 GoStr B64 Json StrictJson Alg Key KeySet Dates Claims Options Jws AesKw JweAlg.

(** ** The protected header *)

Definition dec_jwe_members (m : list (bytes * json)) : res jweHeader :=
  alg ← field m #"alg" [] dec_string;
  enc ← field m #"enc" [] dec_string;
  kid ← field m #"kid" [] dec_string;
  typ ← field m #"typ" [] dec_string;
  cty ← field m #"cty" [] dec_string;
  epk ← field m #"epk" None (dec_ptr dec_key);
  apu ← field m #"apu" [] dec_string;
  apv ← field m #"apv" [] dec_string;
  Ok (mkJweHeader alg enc kid typ cty epk apu apv false false).

Definition dec_jwe : json → res jweHeader := dec_struct zero_jwe dec_jwe_members.

(** [json.Marshal]: "alg" and "enc" first, the rest with [omitempty]. *)
Definition jwe_members (h : jweHeader) : list (bytes * json) :=
  [(#"alg", JStr (w_Alg h)); (#"enc", JStr (w_Enc h))] ++ omit #"kid" (w_Kid h) ++
  omit #"typ" (w_Typ h) ++ omit #"cty" (w_Cty h) ++ omit_json #"epk" Key_json (w_EPK h) ++
  omit #"apu" (w_APU h) ++ omit #"apv" (w_APV h).

(** [strings.Count(s, ".")]. *)
Definition count_dots (s : bytes) : Z := len (filter (λ c, c = "."%byte) s).

Definition private_names : list bytes :=
  [ #"d"; #"k"; #"p"; #"q"; #"dp"; #"dq"; #"qi"; #"oth"].

(** The check of "epk": an object with no private member. *)
Definition epk_public (members : list (bytes * json)) : bool :=
  match assoc #"epk" members with
  | None => true
  | Some (JObj m) => forallb (λ name, match assoc name m with Some _ => false | None => true end) private_names
  | Some _ => false
  end.

Definition has_member (name : bytes) (m : list (bytes * json)) : bool :=
  match assoc name m with Some _ => true | None => false end.

Definition set_present (h : jweHeader) (m : list (bytes * json)) : jweHeader :=
  mkJweHeader (w_Alg h) (w_Enc h) (w_Kid h) (w_Typ h) (w_Cty h) (w_EPK h) (w_APU h) (w_APV h)
    (has_member #"apu" m) (has_member #"apv" m).

Definition parseJWEProtected (compact : bytes) : res (list bytes * jweHeader) :=
  if (maxTokenBytes <? len compact) || negb (count_dots compact =? 4) then fail ErrDecryptionFailed
  else
    let parts := Split compact "."%byte in
    match Decode (nth 0 parts []) with
    | Err _ => fail ErrDecryptionFailed
    | Ok protectedJSON =>
        match decodeObject dec_jwe protectedJSON with
        | Err _ => fail ErrDecryptionFailed
        | Ok hdr =>
            if bool_decide (w_Alg hdr = []) || bool_decide (w_Enc hdr = []) then fail ErrDecryptionFailed
            else match headerMembers protectedJSON with
            | Err _ => fail ErrDecryptionFailed
            | Ok members =>
                if has_member #"zip" members then fail ErrDecryptionFailed
                else if negb (epk_public members) then fail ErrDecryptionFailed
                else check (checkCritical members) (Ok (parts, set_present hdr members))
            end
        end
    end.

(** ** Encrypting *)

Record encryptConfig := mkEncryptConfig { x_typ : bytes; x_cty : bytes }.

Inductive EncryptOption : Type :=
  | WithJWEType (typ : bytes)
  | WithJWEContentType (cty : bytes)
  | EncryptOptions (Type_ ContentType : bytes).

Definition applyEncrypt (o : EncryptOption) (c : encryptConfig) : encryptConfig :=
  match o with
  | WithJWEType t => mkEncryptConfig t (x_cty c)
  | WithJWEContentType t => mkEncryptConfig (x_typ c) t
  | EncryptOptions t ct =>
      mkEncryptConfig (if bool_decide (t = []) then x_typ c else t)
        (if bool_decide (ct = []) then x_cty c else ct)
  end.

(** The interfaces [Encrypter] and [Decrypter]: built in, or the caller's. *)
Inductive Encrypter : Type :=
  | EBuiltin (e : encrypter)
  | ECustom (alg : KeyAlgorithm) (enc : ContentAlgorithm) (kid : bytes) (Encrypt : bytes → res bytes).

Inductive Decrypter : Type :=
  | DBuiltin (d : decrypter)
  | DCustom (kid : bytes) (Decrypt : bytes → res bytes).

(** [gcm.NonceSize()] and [gcm.Overhead()]. *)
Definition NonceSize : Z := 12.
Definition Overhead : Z := 16.

Definition dotted (parts : list bytes) : bytes := Join parts #".".

Section Jwe.
Context `{Crypto, AES, JweCrypto, Entropy}.

Definition encrypt (e : encrypter) (plaintext : bytes) (cfg : encryptConfig) : res bytes :=
  let cekLen := contentKeyLen (e_enc e) in
  let hdr := mkJweHeader (e_alg e) (e_enc e) (e_kid e) (x_typ cfg) (x_cty cfg) None [] [] false false in
  '(hdr, cek, encryptedKey) ← wrap_key (e_wrapper e) hdr cekLen;
  let protected := Encode (print (JObj (jwe_members hdr))) in
  _ ← NewCipher cek;
  iv ← rand_Read 1 NonceSize;
  let sealed := gcm_Seal cek iv plaintext protected in
  let n := (length sealed - Z.to_nat Overhead)%nat in
  Ok (dotted [protected; Encode encryptedKey; Encode iv; Encode (take n sealed); Encode (drop n sealed)]).

Definition encryptJWE (plaintext : bytes) (enc : Encrypter) (cfg : encryptConfig) : res bytes :=
  match enc with
  | EBuiltin e => encrypt e plaintext cfg
  | ECustom _ _ _ Encrypt =>
      if negb (bool_decide (x_typ cfg = [])) || negb (bool_decide (x_cty cfg = []))
      then fail ErrUnsupportedAlgorithm
      else Encrypt plaintext
  end.

Definition EncryptJWE (plaintext : bytes) (enc : option Encrypter) (opts : list (option EncryptOption)) :
    res bytes :=
  match enc with
  | None => fail ErrUnsupportedAlgorithm
  | Some enc => encryptJWE plaintext enc (apply_all applyEncrypt opts (mkEncryptConfig [] []))
  end.

(** [payload] is the outcome of [json.Marshal(claims)]. *)
Definition EncryptClaims (payload : res bytes) (enc : option Encrypter) (opts : list (option EncryptOption)) :
    res bytes :=
  payload ← payload;
  _ ← map_err (wrap ErrInvalidClaims) (decodeObject dec_map payload);
  EncryptJWE payload enc opts.

Definition validateNestedJWS (compact : bytes) : err_opt :=
  if maxTokenBytes <? len compact then Some [ErrMalformedToken]
  else match split3 compact with
  | None => Some [ErrMalformedToken]
  | Some (h, p, s) =>
      match Decode h with
      | Err _ => Some [ErrMalformedToken]
      | Ok headerJSON =>
          match decodeObject dec_header headerJSON with
          | Err e => Some (wrap ErrMalformedToken e)
          | Ok header =>
              if is_none (h_Algorithm header) then Some [ErrAlgorithmNotAllowed]
              else match Decode p with
              | Err _ => Some [ErrMalformedToken]
              | Ok payload =>
                  match decodeObject dec_map payload with
                  | Err e => Some (wrap ErrMalformedToken e)
                  | Ok _ =>
                      match Decode s with
                      | Ok (_ :: _) => None
                      | _ => Some [ErrMalformedToken]
                      end
                  end
              end
          end
      end
  end.

Definition EncryptNestedJWT (compactJWS : bytes) (enc : option Encrypter) (opts : list (option EncryptOption)) :
    res bytes :=
  check (validateNestedJWS compactJWS)
  (let cfg := apply_all applyEncrypt opts (mkEncryptConfig [] []) in
   let cfg := mkEncryptConfig (x_typ cfg) #"JWT" in
   match enc with
   | None => fail ErrUnsupportedAlgorithm
   | Some enc => encryptJWE compactJWS enc cfg
   end).

(** ** Decrypting *)

Definition kid_conflict (a b : bytes) : bool :=
  negb (bool_decide (a = [])) && negb (bool_decide (b = [])) && negb (bool_decide (a = b)).

Definition Decrypt (d : decrypter) (compact : bytes) : res bytes :=
  match parseJWEProtected compact with
  | Err _ => fail ErrDecryptionFailed
  | Ok (parts, hdr) =>
      let cekLen := contentKeyLen (w_Enc hdr) in
      if kid_conflict (d_kid d) (w_Kid hdr) then fail ErrDecryptionFailed
      else if (cekLen =? 0) || negb (supports (d_unwrapper d) (w_Alg hdr)) then fail ErrDecryptionFailed
      else
        match Decode (nth 1 parts []), Decode (nth 2 parts []), Decode (nth 3 parts []),
              Decode (nth 4 parts []) with
        | Ok encryptedKey, Ok iv, Ok ciphertext, Ok tag =>
            match unwrap_key (d_unwrapper d) hdr encryptedKey cekLen with
            | Err _ => fail ErrDecryptionFailed
            | Ok cek =>
                match NewCipher cek with
                | Err _ => fail ErrDecryptionFailed
                | Ok _ =>
                    if negb (len iv =? NonceSize) || negb (len tag =? Overhead) then fail ErrDecryptionFailed
                    else match gcm_Open cek iv (ciphertext ++ tag) (nth 0 parts []) with
                         | Some plaintext => Ok plaintext
                         | None => fail ErrDecryptionFailed
                         end
                end
            end
        | _, _, _, _ => fail ErrDecryptionFailed
        end
  end.

Definition Decrypter_KeyID (d : Decrypter) : bytes :=
  match d with DBuiltin d => d_kid d | DCustom kid _ => kid end.

Definition Decrypt_with (d : Decrypter) (compact : bytes) : res bytes :=
  match d with DBuiltin d => Decrypt d compact | DCustom _ f => f compact end.

(** The plaintext and the header; the configuration is the options applied. *)
Definition decryptJWEWithPolicy (compact : bytes) (dec : option Decrypter) (cfg : parseConfig) :
    io (bytes * jweHeader) :=
  match dec with
  | None => lift (fail ErrUnsupportedAlgorithm)
  | Some dec =>
      let allowedAlgs := withoutNone (allowedKeyAlgs cfg) in
      let allowedEncs := withoutNone (allowedContentAlgs cfg) in
      if (len allowedAlgs =? 0) || (len allowedEncs =? 0) then lift (fail ErrNoAllowedAlgorithms)
      else
        '(_, hdr) ← lift (parseJWEProtected compact);
        if negb (containsAlg allowedAlgs (w_Alg hdr)) then lift (fail ErrAlgorithmNotAllowed)
        else if negb (containsAlg allowedEncs (w_Enc hdr)) then lift (fail ErrAlgorithmNotAllowed)
        else if kid_conflict (Decrypter_KeyID dec) (w_Kid hdr) then lift (fail ErrDecryptionFailed)
        else
          payload ← call (EvDecrypt compact) (Decrypt_with dec compact);
          mret (payload, hdr)
  end.
End Jwe.

Section Claims.
Context `{Crypto, AES, JweCrypto, Entropy, Unicode}.

(** The last step of both: decode into a fresh value, then assign. *)
Definition assign {C} (unmarshal : bytes → res C) (dst : option C) (m : io bytes) :
    list event * (option C * err_opt) :=
  match m with
  | (t, Err e) => (t, (dst, Some e))
  | (t, Ok payload) =>
      match decodeObjectInto unmarshal payload with
      | Err e => (t, (dst, Some (wrap ErrMalformedToken e)))
      | Ok fresh => (t, (Some fresh, None))
      end
  end.

(** Everything [DecryptClaims] does before the final decode. *)
Definition decryptedClaims (compact : bytes) (dec : option Decrypter) (cfg : parseConfig) : io bytes :=
  '(payload, hdr) ← decryptJWEWithPolicy compact dec cfg;
  reg ← lift (map_err (wrap ErrMalformedToken) (decodeObject dec_claims payload));
  _ ← call EvClock (guard_err (validateClaims payload reg (simple_header [] (w_Typ hdr) [] []) cfg));
  mret payload.

Definition DecryptClaims {C} (unmarshal : bytes → res C) (clock : Time) (compact : bytes) (dst : option C)
    (dec : option Decrypter) (opts : list (option ParseOption)) : list event * (option C * err_opt) :=
  match dst with
  | None => ([], (None, Some [ErrInvalidDestination]))
  | Some _ => assign unmarshal dst (decryptedClaims compact dec (apply_all applyParse opts (default_config clock)))
  end.

(** Everything [DecryptNestedJWT] does before the final decode. *)
Definition decryptedNested (compact : bytes) (dec : option Decrypter) (keys : option KeyProvider)
    (jweCfg jwsCfg : parseConfig) : io bytes :=
  '(plaintext, hdr) ← decryptJWEWithPolicy compact dec jweCfg;
  if negb (typeMatches (w_Cty hdr) #"JWT") then lift (fail ErrMalformedToken)
  else if negb (bool_decide (requiredType jweCfg = [])) && negb (typeMatches (w_Typ hdr) (requiredType jweCfg))
  then lift (fail ErrTypeMismatch)
  else
    '(_, payload) ← parseVerified plaintext keys jwsCfg;
    mret payload.

Record NestedJWTPolicies := mkPolicies {
  JWE : list (option ParseOption); JWS : list (option ParseOption) }.

Definition DecryptNestedJWT {C} (unmarshal : bytes → res C) (clock : Time) (compact : bytes) (dst : option C)
    (dec : option Decrypter) (keys : option KeyProvider) (policies : NestedJWTPolicies) :
    list event * (option C * err_opt) :=
  match dst with
  | None => ([], (None, Some [ErrInvalidDestination]))
  | Some _ =>
      assign unmarshal dst
        (decryptedNested compact dec keys (apply_all applyParse (JWE policies) (default_config clock))
           (apply_all applyParse (JWS policies) (default_config clock)))
  end.
End Claims.

(** ** Splitting at the dots *)

Lemma Split_dotted parts :
  parts ≠ [] → Forall (λ p, "."%byte ∉ p) parts → Split (dotted parts) "."%byte = parts.
Proof.
  unfold dotted. induction parts as [|p [|q parts] IH]; intros Hn Hp; [done| |];
    apply Forall_cons_1 in Hp as [Hp Hps].
  - by apply Split_plain.
  - rewrite Join_cons2. change #"." with ["."%byte]. cbn [app]. rewrite Split_cons by done.
    change ["."%byte] with #".". by rewrite IH.
Qed.

Lemma Split_spec s :
  dotted (Split s "."%byte) = s ∧ Forall (λ p, "."%byte ∉ p) (Split s "."%byte) ∧
  len (Split s "."%byte) = count_dots s + 1.
Proof.
  unfold dotted, count_dots. induction s as [|c s (IHj & IHf & IHl)].
  { repeat split. by apply list.Forall_singleton, not_elem_of_nil. }
  cbn [Split]. pose proof (Split_nonempty s "."%byte) as Hne.
  destruct (beq c "."%byte) eqn:Hc.
  - apply beq_true in Hc as ->. rewrite filter_cons_True by done.
    destruct (Split s "."%byte) as [|p ps]; [done|]. rewrite Join_cons2, IHj.
    repeat split; [|unfold len in *; simpl in *; lia].
    apply Forall_cons_2; [apply not_elem_of_nil|done].
  - apply beq_false in Hc. rewrite filter_cons_False by done.
    destruct (Split s "."%byte) as [|p ps]; [done|].
    apply Forall_cons_1 in IHf as [Hp Hps]. repeat split; [|by apply Forall_cons_2; [rewrite not_elem_of_cons|]|].
    + rewrite <- IHj. destruct ps; [done|]. by rewrite !Join_cons2.
    + unfold len in *. simpl in *. lia.
Qed.

(** ** What the protected header must be *)

(** The members of the header, and the header read from them. *)
Record header_ok (protectedJSON : bytes) (m : list (bytes * json)) (hdr : jweHeader) : Prop := {
  hk_parse : parse protectedJSON = Ok (JObj m);
  hk_dec : ∃ h, dec_jwe (JObj m) = Ok h ∧ hdr = set_present h m;
  hk_required : w_Alg hdr ≠ [] ∧ w_Enc hdr ≠ [];
  hk_zip : has_member #"zip" m = false;
  hk_epk : epk_public m = true;
  hk_crit : #"crit" ∉ m.*1 }.

Lemma parseJWEProtected_Ok compact parts hdr :
  parseJWEProtected compact = Ok (parts, hdr) ↔
  ∃ protected m p1 p2 p3 p4, parts = [Encode protected; p1; p2; p3; p4] ∧
    compact = dotted parts ∧ Forall (λ p, "."%byte ∉ p) parts ∧ len compact ≤ maxTokenBytes ∧
    header_ok protected m hdr.
Proof.
  unfold parseJWEProtected. destruct (Split_spec compact) as (Hj & Hf & Hn). split.
  - destruct (_ || _) eqn:Hg; [done|]. bool_prop.
    destruct (Decode _) as [pj|] eqn:Hd; [|done].
    destruct (decodeObject dec_jwe pj) as [h|] eqn:Hh; [|done].
    destruct (_ || _) eqn:Hr; [done|]. bool_prop.
    destruct (headerMembers pj) as [m|] eqn:Hm; [|done].
    destruct (has_member #"zip" m) eqn:Hz; [done|]. destruct (epk_public m) eqn:He; [|done].
    cbn [negb]. rewrite check_Ok, checkCritical_crit. intros [Hc Ho%Ok_inj]. injection Ho as <- <-.
    assert (Hlen : len (Split compact "."%byte) = 5) by lia.
    destruct (Split compact "."%byte) as [|p0 [|p1 [|p2 [|p3 [|p4 [|]]]]]]; try (unfold len in Hlen; simpl in Hlen; lia).
    apply Decode_Some in Hd. cbn [nth] in Hd. subst p0.
    exists pj, m, p1, p2, p3, p4. split; [done|]. split; [done|]. split; [done|]. split; [done|].
    unfold headerMembers in Hm. apply map_err_Ok, decodeObject_Ok in Hm as (m' & Hp & [= ->]).
    apply decodeObject_Ok in Hh as (m' & Hp' & Hh). rewrite Hp in Hp'. injection Hp' as <-.
    split; [done|by exists h|done|done|done|]. by case_bool_decide.
  - intros (pj & m & p1 & p2 & p3 & p4 & -> & Hc & Hd & Hl & [Hp (h & Hh & ->) [Ha He] Hz Hk Hcr]).
    rewrite Hc in *. rewrite Split_dotted in * by done. clear Hj Hf.
    rewrite (proj2 (Z.ltb_ge _ _)) by done. unfold len in Hn at 1. simpl in Hn.
    rewrite (proj2 (Z.eqb_eq _ 4)) by lia. cbn [orb negb nth]. rewrite Decode_Encode_ok.
    rewrite (proj2 (decodeObject_Ok dec_jwe pj h)) by eauto.
    cbn [w_Alg w_Enc set_present] in Ha, He. rewrite !bool_decide_eq_false_2 by done. cbn [orb].
    unfold headerMembers. rewrite (proj2 (decodeObject_Ok dec_map pj m)) by (by exists m).
    cbn [map_err]. rewrite Hz, Hk. cbn [negb]. by rewrite checkCritical_crit, bool_decide_eq_false_2.
Qed.

(** ** What decrypts *)

Section Decrypts.
Context `{Crypto, AES, JweCrypto, Entropy}.

(** The token is the compact form of a header, a wrapped key, a nonce, a
    ciphertext and a tag, and the recipient's key opens it under the encoded
    header as additional data. *)
Record opens (d : decrypter) (compact plaintext protected ek iv ct tag : bytes) (hdr : jweHeader) : Prop := {
  op_compact : compact = dotted (Encode <$> [protected; ek; iv; ct; tag]);
  op_size : len compact ≤ maxTokenBytes;
  op_header : ∃ m, header_ok protected m hdr;
  op_kid : d_kid d = [] ∨ w_Kid hdr = [] ∨ d_kid d = w_Kid hdr;
  op_alg : supports (d_unwrapper d) (w_Alg hdr) = true;
  op_enc : contentKeyLen (w_Enc hdr) ≠ 0;
  op_sizes : len iv = 12 ∧ len tag = 16;
  op_open : ∃ cek, unwrap_key (d_unwrapper d) hdr ek (contentKeyLen (w_Enc hdr)) = Ok cek ∧
    NewCipher cek = Ok () ∧ gcm_Open cek iv (ct ++ tag) (Encode protected) = Some plaintext }.

Lemma kid_conflict_false a b : kid_conflict a b = false ↔ a = [] ∨ b = [] ∨ a = b.
Proof.
  unfold kid_conflict. rewrite !andb_false_iff, !negb_false_iff, !bool_decide_eq_true. tauto.
Qed.

Lemma NewCipher_unit k u : NewCipher k = Ok u → NewCipher k = Ok ().
Proof. by destruct u. Qed.

Lemma Encode_parts_no_dot l : Forall (λ p, "."%byte ∉ p) (Encode <$> l).
Proof. apply list.Forall_fmap, list.Forall_forall. intros x _. apply Encode_no_dot. Qed.

Lemma Decrypt_Ok d compact plaintext :
  Decrypt d compact = Ok plaintext ↔
  ∃ protected ek iv ct tag hdr, opens d compact plaintext protected ek iv ct tag hdr.
Proof.
  unfold Decrypt. split.
  - destruct (parseJWEProtected compact) as [[parts hdr]|] eqn:Hp; [|done].
    apply parseJWEProtected_Ok in Hp as (pj & m & p1 & p2 & p3 & p4 & -> & Hc & _ & Hl & Hh).
    destruct (kid_conflict _ _) eqn:Hk; [done|]. apply kid_conflict_false in Hk.
    destruct (_ || _) eqn:Hs; [done|]. bool_prop. cbn [nth].
    destruct (Decode p1) as [ek|] eqn:H1p; [|done]. destruct (Decode p2) as [iv|] eqn:H2p; [|done].
    destruct (Decode p3) as [ct|] eqn:H3p; [|done]. destruct (Decode p4) as [tag|] eqn:H4p; [|done].
    apply Decode_Some in H1p as ->, H2p as ->, H3p as ->, H4p as ->.
    destruct (unwrap_key _ _ _ _) as [cek|] eqn:Hu; [|done].
    destruct (NewCipher cek) eqn:Hn; [|done]. apply NewCipher_unit in Hn.
    destruct (_ || _) eqn:Hiv; [done|]. bool_prop.
    destruct (gcm_Open _ _ _ _) as [pt|] eqn:Ho; [|done]. intros [= ->].
    exists pj, ek, iv, ct, tag, hdr. split; try done; [by exists m|by exists cek].
  - intros (pj & ek & iv & ct & tag & hdr & [Hc Hl [m Hh] Hk Ha He [Hi Ht] (cek & Hu & Hn & Ho)]).
    rewrite (proj2 (parseJWEProtected_Ok compact (Encode <$> [pj; ek; iv; ct; tag]) hdr)).
    2:{ exists pj, m, (Encode ek), (Encode iv), (Encode ct), (Encode tag).
        split; [done|]. split; [done|]. split; [apply Encode_parts_no_dot|done]. }
    rewrite (proj2 (kid_conflict_false _ _) Hk), (proj2 (Z.eqb_neq _ _) He), Ha. cbn [orb negb].
    cbn [fmap list_fmap nth]. rewrite !Decode_Encode_ok, Hu, Hn, Hi, Ht.
    unfold NonceSize, Overhead. rewrite !Z.eqb_refl. cbn [negb orb]. by rewrite Ho.
Qed.

Lemma Decrypt_Err d compact e : Decrypt d compact = Err e → e = [ErrDecryptionFailed].
Proof.
  unfold Decrypt, fail. intros Hd.
  repeat match type of Hd with
  | Err _ = Err _ => by injection Hd
  | match ?x with _ => _ end = _ => destruct x; try discriminate Hd
  end.
Qed.

(** C34: [Decrypt] fails closed and in one way: it returns a plaintext
    exactly for the compact forms whose protected header is acceptable, whose
    algorithm and kid are the recipient's, whose wrapped key unwraps to the
    size of "enc" and whose ciphertext and tag open under that very header;
    anything else, whatever the cause, is the one error [ErrDecryptionFailed]. *)
Theorem Decrypt_spec d compact :
  (∀ plaintext, Decrypt d compact = Ok plaintext ↔
     ∃ protected ek iv ct tag hdr, opens d compact plaintext protected ek iv ct tag hdr) ∧
  (∀ e, Decrypt d compact = Err e → e = [ErrDecryptionFailed]).
Proof. split; [apply Decrypt_Ok|apply Decrypt_Err]. Qed.
End Decrypts.

(** ** The header a sender writes *)

Definition jwe_names : list bytes :=
  [ #"alg"; #"enc"; #"kid"; #"typ"; #"cty"; #"epk"; #"apu"; #"apv"].

Lemma jwe_members_names h : (jwe_members h).*1 `sublist_of` jwe_names.
Proof.
  unfold jwe_members. rewrite fmap_app. apply (sublist_app _ [ #"alg"; #"enc"]); [done|].
  repeat (apply names_app; [first [apply omit_names|apply omit_json_names]|]). apply omit_names.
Qed.

Lemma jwe_member_absent h name : name ∉ jwe_names → assoc name (jwe_members h) = None.
Proof.
  intros Hn. apply assoc_None. intros Hin. apply Hn. eapply sublist_subseteq; [apply jwe_members_names|done].
Qed.

(** The fields of a header that [encrypt] fills. *)
Record sendable (h : jweHeader) : Prop := {
  sd_utf8 : utf8_strings [w_Alg h; w_Enc h; w_Kid h; w_Typ h; w_Cty h];
  sd_required : w_Alg h ≠ [] ∧ w_Enc h ≠ [];
  sd_party : w_APU h = [] ∧ w_APV h = [] ∧ apuPresent h = false ∧ apvPresent h = false;
  sd_epk : ∀ k, w_EPK h = Some k → jwk_ok k ∧ key_utf8 k }.

Lemma dec_jwe_members_ok h : sendable h → dec_jwe (JObj (jwe_members h)) = Ok h.
Proof.
  intros [_ _ (Hu & Hv & Hpu & Hpv) Hk]. unfold dec_jwe, dec_struct, dec_jwe_members, field, jwe_members.
  assoc_more. rewrite !dec_omit.
  rewrite dec_omit_json by (intros k Hj; split; [by apply dec_Key_json, Hk|done]).
  destruct h. simpl in *. by subst.
Qed.

Lemma jwe_members_wf h : sendable h →
  wf (JObj (jwe_members h)) ∧ depth (JObj (jwe_members h)) ≤ maxNestingDepth.
Proof.
  intros [Hu _ (HAu & HAv & _) Hk]. unfold utf8_strings in Hu. rewrite !list.Forall_cons in Hu.
  destruct Hu as (? & ? & ? & ? & ? & _).
  destruct (obj_wf 2 (jwe_members h)) as [Hw Hd]; [done| | |split; [done|unfold maxNestingDepth; lia]].
  - eapply sublist_NoDup; [|apply jwe_members_names]. apply (bool_decide_unpack _). by vm_compute.
  - unfold jwe_members. rewrite HAu, HAv.
    apply list.Forall_app_2; [apply Forall_cons_2; [done|by apply list.Forall_singleton]|].
    do 3 (apply list.Forall_app_2; [by apply omit_wf|]).
    apply list.Forall_app_2; [|done].
    destruct (w_EPK h) as [k|]; [|done]. apply list.Forall_singleton.
    destruct (Hk k eq_refl) as [_ Hku]. destruct (Key_jwk_wf k Hku). done.
Qed.

Lemma epk_public_ok h : sendable h → epk_public (jwe_members h) = true.
Proof.
  intros [_ _ _ Hk]. unfold epk_public, jwe_members. assoc_more.
  destruct (w_EPK h) as [k|]; [|done]. destruct (Hk k eq_refl) as [[_ Hs] _].
  cbn [fmap option_fmap option_map Key_json]. apply forallb_forall. intros name Hn.
  unfold jwk_members, Key_jwk. cbn [j_kty j_kid j_use j_key_ops j_alg j_n j_e j_crv j_x j_y j_k].
  unfold private_names in Hn. simpl in Hn.
  repeat destruct Hn as [<- | Hn]; try done; by assoc_simpl.
Qed.

Lemma sendable_header_ok h :
  sendable h → header_ok (print (JObj (jwe_members h))) (jwe_members h) h.
Proof.
  intros Hs. destruct (jwe_members_wf h Hs) as [Hw Hd].
  split.
  - by apply parse_print.
  - exists h. split; [by apply dec_jwe_members_ok|]. destruct Hs as [_ _ (Hu & Hv & Hpu & Hpv) _].
    unfold set_present, has_member, jwe_members. assoc_more. rewrite Hu, Hv.
    destruct h. simpl in *. by subst.
  - by destruct Hs.
  - unfold has_member. rewrite jwe_member_absent; [done|]. apply (bool_decide_unpack _). by vm_compute.
  - by apply epk_public_ok.
  - intros Hin. apply (assoc_None #"crit" (jwe_members h)); [|done].
    apply jwe_member_absent. apply (bool_decide_unpack _). by vm_compute.
Qed.

(** ** Encrypt then decrypt *)

Section RoundTrip.
Context `{AESLaws, JweLaws}.

(** An encrypter and a decrypter the constructors return for the same key. *)
Inductive issued (e : encrypter) (d : decrypter) : Prop :=
  | issued_dir k content kid kid' :
      NewDirectEncrypter k content kid = Ok e → NewDirectDecrypter k kid' = Ok d → issued e d
  | issued_kw k content kid kid' :
      NewA256KWEncrypter k content kid = Ok e → NewA256KWDecrypter k kid' = Ok d → issued e d
  | issued_rsa priv content kid kid' :
      NewRSAOAEP256Encrypter (Some (rsap_PublicKey priv)) content kid = Ok e →
      NewRSAOAEP256Decrypter (Some priv) kid' = Ok d → issued e d
  | issued_ecdh priv alg content kid kid' :
      NewECDHESEncrypter (Some (ecp_PublicKey priv)) alg content kid = Ok e →
      NewECDHESDecrypter (Some priv) kid' = Ok d → issued e d.

Lemma newEncrypter_Ok content kid w e :
  newEncrypter content kid w = Ok e →
  contentKeyLen (e_enc e) ≠ 0 ∧ e_wrapper e = w ∧ e_alg e = keyAlg w.
Proof. unfold newEncrypter. destruct (_ =? 0) eqn:Hn; [done|]. bool_prop. by intros [= <-]. Qed.

Lemma NewECDHESEncrypter_Ok pub alg content kid e :
  NewECDHESEncrypter (Some pub) alg content kid = Ok e →
  ∃ c x y, pub = mkECDSAPublicKey (Some c) (Some x) (Some y) ∧ curveName c ≠ [] ∧
    (alg = ECDHES ∨ alg = ECDHESA256KW) ∧ newEncrypter content (optKID kid) (ecdhWrapper c x y alg) = Ok e.
Proof.
  unfold NewECDHESEncrypter, key_curve_name. destruct (_ && _) eqn:Ha; [done|].
  apply andb_false_iff in Ha. rewrite !negb_false_iff, !bool_decide_eq_true in Ha.
  case_bool_decide as Hc; [done|]. destruct (Key_PublicKey _); [|done].
  destruct pub as [[c|] [x|] [y|]]; try done. intros He. by exists c, x, y.
Qed.

Lemma NewECDHESDecrypter_Ok priv kid d :
  NewECDHESDecrypter (Some priv) kid = Ok d →
  ∃ c x y k, ecp_PublicKey priv = mkECDSAPublicKey (Some c) (Some x) (Some y) ∧
    scalar_point c k = Some (x, y) ∧ d_unwrapper d = ecdhUnwrapper c k.
Proof.
  unfold NewECDHESDecrypter. case_bool_decide as Hc; [done|]. destruct (Key_PublicKey _); [|done].
  destruct (ecp_PublicKey priv) as [[c|] [x|] [y|]]; try done. destruct (ecp_D priv) as [k|]; [|done].
  destruct (scalar_point c k) as [p|] eqn:Hp; [|done]. destruct (_ || _) eqn:Hg; [done|]. bool_prop.
  subst p. intros [= <-]. by exists c, x, y, k.
Qed.

Lemma issued_ok e d : issued e d →
  key_pair (e_wrapper e) (d_unwrapper d) ∧ e_alg e = keyAlg (e_wrapper e) ∧ contentKeyLen (e_enc e) ≠ 0.
Proof.
  intros [k content kid kid' He Hd|k content kid kid' He Hd|priv content kid kid' He Hd|
          priv alg content kid kid' He Hd].
  - unfold NewDirectEncrypter in He. destruct (_ || _); [done|].
    apply newEncrypter_Ok in He as (Hn & -> & ->).
    unfold NewDirectDecrypter in Hd. destruct (_ && _); [done|]. by injection Hd as <-.
  - unfold NewA256KWEncrypter in He. destruct (negb _); [done|].
    apply newEncrypter_Ok in He as (Hn & -> & ->).
    unfold NewA256KWDecrypter in Hd. destruct (negb _); [done|]. by injection Hd as <-.
  - apply check_Ok in He as [_ He]. apply newEncrypter_Ok in He as (Hn & -> & ->).
    apply check_Ok in Hd as [_ Hd]. destruct (_ || _); [done|]. destruct (negb (forallb _ _)); [done|].
    destruct (rsa_Validate priv) eqn:Hv; [|done]. cbn [negb] in Hd. by injection Hd as <-.
  - apply NewECDHESEncrypter_Ok in He as (c & x & y & Hp & Hc & Ha & He).
    apply newEncrypter_Ok in He as (Hn & -> & ->).
    apply NewECDHESDecrypter_Ok in Hd as (c' & x' & y' & k & Hp' & Hk & ->).
    rewrite Hp in Hp'. injection Hp' as <- <- <-. done.
Qed.

Lemma enc_known enc : contentKeyLen enc ≠ 0 →
  utf8_valid enc = true ∧ enc ≠ [] ∧ 0 ≤ contentKeyLen enc.
Proof.
  unfold contentKeyLen. intros Hn.
  do 3 (case_bool_decide; [by subst|]). done.
Qed.

Lemma alg_known w u : key_pair w u → utf8_valid (keyAlg w) = true ∧ keyAlg w ≠ [].
Proof. destruct w, u; try done. intros (_ & _ & _ & [-> | ->]); done. Qed.

Lemma extended_sendable h h' : sendable h → extended h h' → sendable h'.
Proof.
  intros [Hu Hr Hp Hk] [->|(epk & -> & He)]; [done|].
  split; [done|done|done|]. by intros k [= <-].
Qed.

(** The header that an encrypter writes, before the wrapper extends it. *)
Definition sent_header (e : encrypter) (cfg : encryptConfig) : jweHeader :=
  mkJweHeader (e_alg e) (e_enc e) (e_kid e) (x_typ cfg) (x_cty cfg) None [] [] false false.

(** What an encrypter produces opens, under the header it wrote. *)
Lemma encrypt_opens e d plaintext cfg compact :
  issued e d → (d_kid d = [] ∨ e_kid e = [] ∨ d_kid d = e_kid e) →
  utf8_strings [e_kid e; x_typ cfg; x_cty cfg] →
  encrypt e plaintext cfg = Ok compact → len compact ≤ maxTokenBytes →
  ∃ protected ek iv ct tag hdr,
    opens d compact plaintext protected ek iv ct tag hdr ∧ extended (sent_header e cfg) hdr.
Proof.
  intros (Hp & Ha & Hn)%issued_ok Hkid Hu He Hl. unfold encrypt in He.
  set (hdr := mkJweHeader (e_alg e) (e_enc e) _ _ _ _ _ _ _ _) in He.
  destruct (enc_known _ Hn) as (Hue & Hne & Hpos). destruct (alg_known _ _ Hp) as (Hua & Hna).
  assert (Hs : sendable hdr).
  { split; [|by rewrite <- Ha in Hna|done|done]. unfold utf8_strings in *. rewrite !list.Forall_cons in *.
    cbn [hdr w_Alg w_Enc w_Kid w_Typ w_Cty]. rewrite Ha. naive_solver. }
  apply bind_Ok in He as ([[hdr' cek] ek] & Hw & He).
  destruct (unwrap_wrap _ _ hdr _ hdr' cek ek Hp Ha eq_refl eq_refl eq_refl Hpos Hw) as (Hext & Hsup & Hun).
  apply bind_Ok in He as ([] & Hc & He). apply bind_Ok in He as (iv & Hiv & He). apply Ok_inj in He.
  apply rand_Read_len in Hiv; [|done].
  assert (Hsame : w_Alg hdr' = w_Alg hdr ∧ w_Enc hdr' = w_Enc hdr ∧ w_Kid hdr' = w_Kid hdr)
    by (destruct Hext as [->|(k & -> & _)]; done).
  destruct Hsame as (Hsa & Hse & Hsk).
  set (protected := print (JObj (jwe_members hdr'))) in He.
  set (sealed := gcm_Seal cek iv plaintext (Encode protected)) in He.
  pose proof (gcm_Seal_len cek iv plaintext (Encode protected)) as Hsl. fold sealed in Hsl.
  exists protected, ek, iv. do 2 eexists. exists hdr'. split; [|exact Hext]. split.
  - symmetry. exact He.
  - done.
  - exists (jwe_members hdr'). by eapply sendable_header_ok, extended_sendable.
  - by rewrite Hsk.
  - rewrite Hsa. cbn [hdr w_Alg]. by rewrite Ha.
  - by rewrite Hse.
  - split; [done|]. unfold len, Overhead in *. rewrite length_drop. lia.
  - exists cek. rewrite Hse. split; [done|]. split; [done|]. rewrite take_drop. apply gcm_Open_Seal.
Qed.

(** C32: what an encrypter of any algorithm produces, the decrypter built
    for the same key decrypts to the plaintext, provided the kids agree, the
    header strings are text and the token is within the size limit. *)
Theorem encrypt_decrypt_roundtrip e d plaintext cfg compact :
  issued e d → (d_kid d = [] ∨ e_kid e = [] ∨ d_kid d = e_kid e) →
  utf8_strings [e_kid e; x_typ cfg; x_cty cfg] →
  encrypt e plaintext cfg = Ok compact → len compact ≤ maxTokenBytes →
  Decrypt d compact = Ok plaintext.
Proof.
  intros Hi Hk Hu He Hl.
  destruct (encrypt_opens e d plaintext cfg compact Hi Hk Hu He Hl) as (p & ek & iv & ct & tag & hdr & Ho & _).
  apply Decrypt_Ok. by exists p, ek, iv, ct, tag, hdr.
Qed.
End RoundTrip.

(** ** Policies in front of a decrypter *)

Section Policies.
Context `{Crypto, AES, JweCrypto, Entropy, Unicode}.

(** The protected header passes the allowlists and names no other key. *)
Record admitted (compact : bytes) (d : Decrypter) (cfg : parseConfig) (hdr : jweHeader) : Prop := {
  ad_header : ∃ parts, parseJWEProtected compact = Ok (parts, hdr);
  ad_alg : w_Alg hdr ∈ withoutNone (allowedKeyAlgs cfg);
  ad_enc : w_Enc hdr ∈ withoutNone (allowedContentAlgs cfg);
  ad_kid : kid_conflict (Decrypter_KeyID d) (w_Kid hdr) = false }.

Lemma elem_len {A} (x : A) l : x ∈ l → (len l =? 0) = false.
Proof. intros Hx. apply Z.eqb_neq. intros ->%len_nil_inv. by apply elem_of_nil in Hx. Qed.

Lemma policy_admitted compact d cfg hdr :
  admitted compact d cfg hdr →
  decryptJWEWithPolicy compact (Some d) cfg =
    ([EvDecrypt compact], (λ p, (p, hdr)) <$> Decrypt_with d compact).
Proof.
  intros [[parts Hp] Ha He Hk]. unfold decryptJWEWithPolicy, containsAlg.
  rewrite (elem_len _ _ Ha), (elem_len _ _ He), Hp. cbn.
  rewrite !bool_decide_eq_true_2, Hk by done. cbn. by destruct (Decrypt_with d compact).
Qed.

Lemma policy_cases compact dec cfg :
  (∃ e, decryptJWEWithPolicy compact dec cfg = ([], Err e)) ∨
  ∃ d hdr, dec = Some d ∧ admitted compact d cfg hdr.
Proof.
  unfold decryptJWEWithPolicy, containsAlg. destruct dec as [d|]; [|left; by eexists].
  destruct (_ || _); [left; by eexists|].
  destruct (parseJWEProtected compact) as [[parts hdr]|e] eqn:Hp; [|left; by exists e]. cbn.
  destruct (decide (w_Alg hdr ∈ withoutNone (allowedKeyAlgs cfg))) as [Ha|Ha];
    [|left; rewrite bool_decide_eq_false_2 by done; by eexists].
  destruct (decide (w_Enc hdr ∈ withoutNone (allowedContentAlgs cfg))) as [He|He];
    [|left; rewrite (bool_decide_eq_true_2 _ Ha), bool_decide_eq_false_2 by done; by eexists].
  rewrite (bool_decide_eq_true_2 _ Ha), (bool_decide_eq_true_2 _ He).
  destruct (kid_conflict _ _) eqn:Hk; [left; by eexists|].
  right. exists d, hdr. split; [done|]. by split; [exists parts| | |].
Qed.

Lemma admitted_header compact d cfg hdr hdr' :
  admitted compact d cfg hdr → admitted compact d cfg hdr' → hdr' = hdr.
Proof. intros [[p Hp] _ _ _] [[p' Hp'] _ _ _]. congruence. Qed.

(** The steps a successful [DecryptClaims] goes through. *)
Definition claims_decrypted (compact : bytes) (dec : option Decrypter) (cfg : parseConfig)
    (payload : bytes) : Prop :=
  ∃ d hdr reg, dec = Some d ∧ admitted compact d cfg hdr ∧ Decrypt_with d compact = Ok payload ∧
    decodeObject dec_claims payload = Ok reg ∧
    claims_valid payload reg (simple_header [] (w_Typ hdr) [] []) cfg.

Lemma decryptedClaims_Ok compact dec cfg payload :
  result_of (decryptedClaims compact dec cfg) = Ok payload ↔ claims_decrypted compact dec cfg payload.
Proof.
  unfold decryptedClaims, claims_decrypted. rewrite io_bind_Ok. split.
  - intros ([p hdr] & Hd & Hr). destruct (policy_cases compact dec cfg) as [[e He]|(d & h & -> & Had)];
      [by rewrite He in Hd|].
    rewrite (policy_admitted _ _ _ _ Had) in Hd. cbn in Hd.
    destruct (Decrypt_with d compact) as [q|] eqn:Hq; [|done]. injection Hd as <- <-.
    apply io_bind_Ok in Hr as (reg & Hreg & Hr). cbn in Hreg. apply map_err_Ok in Hreg.
    apply io_bind_Ok in Hr as ([] & Hv & Hr). cbn in Hv, Hr. injection Hr as ->.
    exists d, h, reg. do 4 (split; [done|]).
    pose proof Hreg as (m & Hm & _)%decodeObject_Ok.
    destruct (validateClaims _ _ _ _) eqn:Hval; [done|]. by eapply validateClaims_None.
  - intros (d & hdr & reg & -> & Had & Hd & Hreg & Hv).
    exists (payload, hdr). rewrite (policy_admitted _ _ _ _ Had), Hd. split; [done|].
    apply io_bind_Ok. exists reg. cbn. rewrite Hreg. split; [done|].
    pose proof Hreg as (m & Hm & _)%decodeObject_Ok. by rewrite (proj2 (validateClaims_None _ _ _ _ m Hm) Hv).
Qed.

(** Nobody is called unless the header is admitted; the decrypter is first. *)
Definition calls_admitted (compact : bytes) (dec : option Decrypter) (cfg : parseConfig) (t : list event) : Prop :=
  t = [] ∨ ∃ d hdr t', dec = Some d ∧ admitted compact d cfg hdr ∧ t = EvDecrypt compact :: t' ∧
    (t' = [] ∨ is_ok (Decrypt_with d compact) = true).

Lemma policy_calls {A} compact dec cfg (k : bytes * jweHeader → io A) :
  calls_admitted compact dec cfg (trace_of (decryptJWEWithPolicy compact dec cfg ≫= k)).
Proof.
  rewrite io_bind_trace. destruct (policy_cases compact dec cfg) as [[e ->]|(d & h & -> & Had)]; [by left|].
  right. rewrite (policy_admitted _ _ _ _ Had). exists d, h. eexists. split; [done|]. split; [done|].
  split; [reflexivity|]. cbn. destruct (Decrypt_with d compact); [by right|by left].
Qed.

Lemma assign_spec {C} (unmarshal : bytes → res C) dst m :
  fst (assign unmarshal dst m) = trace_of m ∧
  (∀ c, snd (assign unmarshal dst m) = (Some c, None) ↔
     ∃ payload, result_of m = Ok payload ∧ decodeObjectInto unmarshal payload = Ok c) ∧
  (∀ dst' e, snd (assign unmarshal dst m) = (dst', Some e) → dst' = dst).
Proof.
  unfold assign. destruct m as [t [p|e]]; cbn.
  - destruct (decodeObjectInto unmarshal p) as [c|e] eqn:Hc; cbn; (split; [done|]); split.
    + intros c'. split; [intros [= <-]; by exists p|intros (q & [= <-] & Hq); congruence].
    + done.
    + intros c'. split; [done|intros (q & [= <-] & Hq); congruence].
    + by intros ? ? [= <- _].
  - split; [done|]. split; [|by intros ? ? [= <- _]]. intros c. split; [done|by intros (q & ? & _)].
Qed.

(** [DecryptClaims] sets the destination exactly when the header is
    admitted by both allowlists, the decrypter opens the token, the registered
    claims are valid for the header's type and the plaintext decodes; on an
    error the destination is untouched; and neither the decrypter nor the clock
    is consulted for a header that is not admitted. *)
Theorem DecryptClaims_spec {C} (unmarshal : bytes → res C) clock compact old dec opts :
  let cfg := apply_all applyParse opts (default_config clock) in
  let r := DecryptClaims unmarshal clock compact (Some old) dec opts in
  (∀ c, snd r = (Some c, None) ↔
     ∃ payload, claims_decrypted compact dec cfg payload ∧ decodeObjectInto unmarshal payload = Ok c) ∧
  (∀ dst e, snd r = (dst, Some e) → dst = Some old) ∧
  calls_admitted compact dec cfg (fst r).
Proof.
  cbn zeta. unfold DecryptClaims. set (cfg := apply_all _ _ _).
  destruct (assign_spec unmarshal (Some old) (decryptedClaims compact dec cfg)) as (Ht & Hok & Herr).
  split; [|split; [done|rewrite Ht; apply policy_calls]].
  intros c. rewrite Hok. by setoid_rewrite decryptedClaims_Ok.
Qed.

(** Both layers of a nested token. *)
Definition nested_accepted (compact : bytes) (dec : option Decrypter) (keys : option KeyProvider)
    (jweCfg jwsCfg : parseConfig) (payload : bytes) : Prop :=
  ∃ d hdr plaintext header, dec = Some d ∧ admitted compact d jweCfg hdr ∧
    Decrypt_with d compact = Ok plaintext ∧ typeMatches (w_Cty hdr) #"JWT" = true ∧
    (requiredType jweCfg = [] ∨ typeMatches (w_Typ hdr) (requiredType jweCfg) = true) ∧
    accepted plaintext keys jwsCfg header payload.

Lemma decryptedNested_Ok compact dec keys jweCfg jwsCfg payload :
  result_of (decryptedNested compact dec keys jweCfg jwsCfg) = Ok payload ↔
  nested_accepted compact dec keys jweCfg jwsCfg payload.
Proof.
  unfold decryptedNested, nested_accepted. rewrite io_bind_Ok. split.
  - intros ([p hdr] & Hd & Hr). destruct (policy_cases compact dec jweCfg) as [[e He]|(d & h & -> & Had)];
      [by rewrite He in Hd|].
    rewrite (policy_admitted _ _ _ _ Had) in Hd. cbn in Hd.
    destruct (Decrypt_with d compact) as [q|] eqn:Hq; [|done]. injection Hd as <- <-.
    destruct (typeMatches (w_Cty h) #"JWT") eqn:Hc; [|done]. cbn [negb] in Hr.
    destruct (_ && _) eqn:Ht; [done|]. apply andb_false_iff in Ht.
    rewrite !negb_false_iff, bool_decide_eq_true in Ht.
    apply io_bind_Ok in Hr as ([header q'] & Hv & Hr). injection Hr as ->. apply parseVerified_Ok in Hv.
    by exists d, h, q, header.
  - intros (d & hdr & q & header & -> & Had & Hd & Hc & Ht & Hv).
    exists (q, hdr). rewrite (policy_admitted _ _ _ _ Had), Hd. split; [done|].
    rewrite Hc. cbn [negb].
    rewrite (proj2 (andb_false_iff _ _)) by (rewrite !negb_false_iff, bool_decide_eq_true; done).
    apply io_bind_Ok. exists (header, payload). split; [by apply parseVerified_Ok|done].
Qed.

(** C35: [DecryptNestedJWT] sets the destination exactly when the outer
    header is admitted and says the content is a JWT, the decrypter opens it,
    and the plaintext is a signed token that the inner policy accepts and whose
    payload decodes: an encrypted token is never trusted without its own valid
    signature.  On an error the destination is untouched, and nobody is called
    before the header is admitted. *)
Theorem DecryptNestedJWT_spec {C} (unmarshal : bytes → res C) clock compact old dec keys policies :
  let jweCfg := apply_all applyParse (JWE policies) (default_config clock) in
  let jwsCfg := apply_all applyParse (JWS policies) (default_config clock) in
  let r := DecryptNestedJWT unmarshal clock compact (Some old) dec keys policies in
  (∀ c, snd r = (Some c, None) ↔
     ∃ payload, nested_accepted compact dec keys jweCfg jwsCfg payload ∧
       decodeObjectInto unmarshal payload = Ok c) ∧
  (∀ dst e, snd r = (dst, Some e) → dst = Some old) ∧
  calls_admitted compact dec jweCfg (fst r).
Proof.
  cbn zeta. unfold DecryptNestedJWT. set (jweCfg := apply_all _ (JWE policies) _).
  set (jwsCfg := apply_all _ (JWS policies) _).
  destruct (assign_spec unmarshal (Some old) (decryptedNested compact dec keys jweCfg jwsCfg))
    as (Ht & Hok & Herr).
  split; [|split; [done|rewrite Ht; apply policy_calls]].
  intros c. rewrite Hok. by setoid_rewrite decryptedNested_Ok.
Qed.
End Policies.
