(* ===== verification/Nested.v ===== *)
(** * Nested: sign, then encrypt

    The composition of Jws and Jwe that jwe.go offers: a signed token becomes the
    plaintext of an encrypted one ([EncryptNestedJWT]), and [DecryptNestedJWT]
    checks both layers.  What is issued this way is read back under policies that
    admit it. *)

From S2P Require Import Prelude Errors GoLib Utf8 GoStr Json StrictJson B64 Alg Key Dates Claims Options Jws Profiles IdTokens AesKw JweAlg Jwe.

Section Nested.
Context `{CryptoLaws, Unicode, AESLaws, !JweCrypto, !Entropy, !JweLaws}.

(** The options of an encryption. *)
Definition encrypt_config (opts : list (option EncryptOption)) : encryptConfig :=
  apply_all applyEncrypt opts (mkEncryptConfig [] []).

(** What may be nested: a compact token within the size limit with a header that
    names an algorithm, an object for a payload, and a signature. *)
Lemma validateNestedJWS_None token :
  validateNestedJWS token = None ↔
  len token ≤ maxTokenBytes ∧ ∃ headerJSON header payload m sig,
    token = compact headerJSON payload sig ∧ decodeObject dec_header headerJSON = Ok header ∧
    is_none (h_Algorithm header) = false ∧ parse payload = Ok (JObj m) ∧ sig ≠ [].
Proof.
  unfold validateNestedJWS. split.
  - destruct (_ <? len token) eqn:Hl; [done|]. bool_prop.
    destruct (split3 token) as [[[h p] s]|] eqn:Hs; [|done]. apply split3_Some in Hs as (-> & _).
    destruct (Decode h) as [hj|] eqn:Hh; [|done]. destruct (decodeObject dec_header hj) as [hdr|] eqn:Hd; [|done].
    destruct (is_none _) eqn:Hn; [done|]. destruct (Decode p) as [pj|] eqn:Hp; [|done].
    destruct (decodeObject dec_map pj) as [m|] eqn:Hm; [|done]. destruct (Decode s) as [[|c sig]|] eqn:Hg; [done| |done].
    intros _. split; [done|]. apply Decode_Some in Hh as ->, Hp as ->, Hg as ->.
    apply decodeObject_Ok in Hm as (m' & Hm & _). by exists hj, hdr, pj, m', (c :: sig).
  - intros (Hl & hj & hdr & pj & m & sig & -> & Hd & Hn & Hm & Hs).
    rewrite (proj2 (Z.ltb_ge _ _)), split3_compact, !Decode_Encode_ok by done. rewrite Hd, Hn.
    rewrite (proj2 (decodeObject_Ok dec_map pj m)) by (by exists m). by destruct sig.
Qed.

(** A token that [Sign] makes. *)
Lemma signed_nests payload m s opts sig :
  let header := signed_header s opts in
  let token := compact (print (JObj (header_members header))) payload sig in
  is_none (Signer_Algorithm s) = false → header_utf8 header → parse payload = Ok (JObj m) → sig ≠ [] →
  len token ≤ maxTokenBytes → validateNestedJWS token = None.
Proof.
  intros header token Hn Hu Hp Hs Hl. apply validateNestedJWS_None. split; [done|].
  destruct (simple_header_wf _ _ _ _ Hu) as (Hw & Hd & _). eexists _, header, payload, m, sig.
  split; [done|]. split; [|done]. apply decodeObject_Ok. exists (header_members header).
  split; [by apply parse_print|]. apply dec_header_members_ok. by intros k.
Qed.

(** The outer layer: the header that was sent is admitted and the plaintext is the
    inner token. *)
Lemma encrypt_nested_opens e d inner compact opts cfg :
  issued e d → (d_kid d = [] ∨ e_kid e = [] ∨ d_kid d = e_kid e) →
  utf8_strings [e_kid e; x_typ (encrypt_config opts)] →
  EncryptNestedJWT inner (Some (EBuiltin e)) opts = Ok compact → len compact ≤ maxTokenBytes →
  e_alg e ∈ withoutNone (allowedKeyAlgs cfg) → e_enc e ∈ withoutNone (allowedContentAlgs cfg) →
  ∃ hdr, admitted compact (DBuiltin d) cfg hdr ∧ Decrypt d compact = Ok inner ∧
    w_Cty hdr = #"JWT" ∧ w_Typ hdr = x_typ (encrypt_config opts).
Proof.
  intros Hi Hk Hu He Hl Ha Hc. unfold EncryptNestedJWT in He. apply check_Ok in He as [_ He].
  fold (encrypt_config opts) in He. cbn [encryptJWE] in He.
  destruct (encrypt_opens e d inner (mkEncryptConfig (x_typ (encrypt_config opts)) #"JWT") compact Hi Hk)
    as (p & ek & iv & ct & tag & hdr & Ho & Hext); [|done|done|].
  { unfold utf8_strings in *. rewrite !list.Forall_cons in *. cbn [x_typ x_cty]. naive_solver. }
  assert (Hsame : w_Alg hdr = e_alg e ∧ w_Enc hdr = e_enc e ∧ w_Kid hdr = e_kid e ∧ w_Cty hdr = #"JWT" ∧
    w_Typ hdr = x_typ (encrypt_config opts)) by (destruct Hext as [->|(k & -> & _)]; done).
  destruct Hsame as (Hsa & Hse & Hsk & Hsc & Hst). exists hdr. split; [|split; [|done]].
  - destruct Ho as [Hcomp Hsize [m Hh] _ _ _ _ _]. split.
    + eexists. apply parseJWEProtected_Ok. exists p, m. do 4 eexists. split; [reflexivity|].
      split; [exact Hcomp|]. split; [exact (Encode_parts_no_dot [p; ek; iv; ct; tag])|done].
    + by rewrite Hsa.
    + by rewrite Hse.
    + apply kid_conflict_false. by rewrite Hsk.
  - apply Decrypt_Ok. by exists p, ek, iv, ct, tag, hdr.
Qed.

(** Then the inner token under its own policy. *)
Lemma nested_read_back {C} (unmarshal : bytes → res C) clock e d inner compact opts keys policies old c header payload :
  let jweCfg := apply_all applyParse (JWE policies) (default_config clock) in
  let jwsCfg := apply_all applyParse (JWS policies) (default_config clock) in
  issued e d → (d_kid d = [] ∨ e_kid e = [] ∨ d_kid d = e_kid e) →
  utf8_strings [e_kid e; x_typ (encrypt_config opts)] →
  EncryptNestedJWT inner (Some (EBuiltin e)) opts = Ok compact → len compact ≤ maxTokenBytes →
  e_alg e ∈ withoutNone (allowedKeyAlgs jweCfg) → e_enc e ∈ withoutNone (allowedContentAlgs jweCfg) →
  (requiredType jweCfg = [] ∨ typeMatches (x_typ (encrypt_config opts)) (requiredType jweCfg) = true) →
  accepted inner keys jwsCfg header payload → decodeObjectInto unmarshal payload = Ok c →
  snd (DecryptNestedJWT unmarshal clock compact (Some old) (Some (DBuiltin d)) keys policies) = (Some c, None).
Proof.
  intros jweCfg jwsCfg Hi Hk Hu He Hl Ha Hc Ht Hacc Hd.
  destruct (encrypt_nested_opens e d inner compact opts jweCfg Hi Hk Hu He Hl Ha Hc) as (hdr & Had & Ho & Hcty & Htyp).
  unfold DecryptNestedJWT. fold jweCfg jwsCfg.
  apply (assign_spec unmarshal (Some old) (decryptedNested compact (Some (DBuiltin d)) keys jweCfg jwsCfg)).
  exists payload. split; [|exact Hd]. apply decryptedNested_Ok. exists (DBuiltin d), hdr, inner, header.
  split; [done|]. split; [done|]. split; [done|]. split; [by rewrite Hcty|]. by rewrite Htyp.
Qed.
(** A claims struct that is signed and encrypted. *)
Lemma nested_struct_read_back `{FlatLaws A} `{!Embeds A} clock (c old : A) s v sopts e d inner compact opts keys policies :
  let jweCfg := apply_all applyParse (JWE policies) (default_config clock) in
  let jwsCfg := apply_all applyParse (JWS policies) (default_config clock) in
  let header := signed_header s sopts in
  faithful c → Sign (Ok (marshal_flat c)) (Some s) sopts = Ok inner →
  EncryptNestedJWT inner (Some (EBuiltin e)) opts = Ok compact → len compact ≤ maxTokenBytes →
  counterpart s v → header_utf8 header → h_Algorithm header ∈ allowedAlgs jwsCfg →
  resolves keys jwsCfg (withoutNone (allowedAlgs jwsCfg)) header v →
  claims_valid (marshal_flat c) (registered (returned c)) header jwsCfg →
  issued e d → (d_kid d = [] ∨ e_kid e = [] ∨ d_kid d = e_kid e) →
  utf8_strings [e_kid e; x_typ (encrypt_config opts)] →
  e_alg e ∈ withoutNone (allowedKeyAlgs jweCfg) → e_enc e ∈ withoutNone (allowedContentAlgs jweCfg) →
  (requiredType jweCfg = [] ∨ typeMatches (x_typ (encrypt_config opts)) (requiredType jweCfg) = true) →
  snd (DecryptNestedJWT unmarshal_flat clock compact (Some old) (Some (DBuiltin d)) keys policies) =
    (Some (returned c), None).
Proof.
  intros jweCfg jwsCfg header Hf Hs He Hl Hcp Hu Ha Hr Hv Hi Hk Hue Hea Hec Ht.
  pose proof (unmarshal_marshal c Hf) as Hd.
  assert (Hli : len inner ≤ maxTokenBytes).
  { unfold EncryptNestedJWT in He. apply check_Ok in He as [Hn _]. unfold validateNestedJWS in Hn.
    destruct (maxTokenBytes <? len inner) eqn:E; [done|]. by bool_prop. }
  eapply nested_read_back; try done. eapply sign_accepted; try done. by apply embedded_claims.
Qed.

(** C33: sign, then encrypt, is read back whole: from the claims struct [c] that
    [Sign] and [EncryptNestedJWT] protect, [DecryptNestedJWT] makes the one that
    its JSON text says ([returned c]: [c] with its dates as float64 holds them and
    an empty audience absent), for every signer and the resolved verifier of its
    counterpart, every algorithm that an encrypter and the decrypter of the same
    key were built for, under any policies that admit both layers. *)
Theorem nested_roundtrip `{FlatLaws A} `{!Embeds A} clock (c old : A) s v sopts e d inner compact opts keys policies :
  let jweCfg := apply_all applyParse (JWE policies) (default_config clock) in
  let jwsCfg := apply_all applyParse (JWS policies) (default_config clock) in
  let header := signed_header s sopts in
  faithful c → Sign (Ok (marshal_flat c)) (Some s) sopts = Ok inner →
  EncryptNestedJWT inner (Some (EBuiltin e)) opts = Ok compact → len compact ≤ maxTokenBytes →
  counterpart s v → header_utf8 header → h_Algorithm header ∈ allowedAlgs jwsCfg →
  resolves keys jwsCfg (withoutNone (allowedAlgs jwsCfg)) header v →
  claims_valid (marshal_flat c) (registered (returned c)) header jwsCfg →
  issued e d → (d_kid d = [] ∨ e_kid e = [] ∨ d_kid d = e_kid e) →
  utf8_strings [e_kid e; x_typ (encrypt_config opts)] →
  e_alg e ∈ withoutNone (allowedKeyAlgs jweCfg) → e_enc e ∈ withoutNone (allowedContentAlgs jweCfg) →
  (requiredType jweCfg = [] ∨ typeMatches (x_typ (encrypt_config opts)) (requiredType jweCfg) = true) →
  snd (DecryptNestedJWT unmarshal_flat clock compact (Some old) (Some (DBuiltin d)) keys policies) =
    (Some (returned c), None).
Proof. apply nested_struct_read_back. Qed.
End Nested.
