(* ===== verification/Opaque.v ===== *)
(** * Opaque: opaque.go and rotation.go, opaque tokens and token families

    crypto/rand is [rand_Read] of [Entropy]; SHA-256 is [HashSum] of [Crypto].
    The comparison of the digests takes constant time; as a function it is
    equality. *)

From S2P Require Import Prelude Errors GoLib B64 Alg Key Thumbprint JweAlg.

(** [hex.EncodeToString]. *)
Definition hex_char (n : Z) : byte := if n <? 10 then zb (48 + n) else zb (87 + n).

Definition hex_EncodeToString (src : bytes) : bytes :=
  concat ((λ b, [hex_char (bz b / 16); hex_char (bz b mod 16)]) <$> src).

Record OpaqueToken := mkOpaqueToken { ot_Raw : bytes; ot_Hash : bytes }.

Definition opaqueTokenBytes : Z := 32.
Definition familyIDBytes : Z := 16.

Section Opaque.
Context `{Crypto, Entropy, Strconv}.

Definition HashOpaqueToken (raw : bytes) : bytes := hex_EncodeToString (HashSum SHA256 raw).

Definition OpaqueTokenFromRaw (raw : bytes) : OpaqueToken := mkOpaqueToken raw (HashOpaqueToken raw).

(** The token of the [n]-th read of random octets. *)
Definition NewOpaqueToken (n : nat) : res OpaqueToken :=
  buf ← rand_Read n opaqueTokenBytes;
  let raw := Encode buf in
  Ok (mkOpaqueToken raw (HashOpaqueToken raw)).

Definition VerifyOpaqueTokenHash (storedHash raw : bytes) : bool :=
  bool_decide (storedHash = HashOpaqueToken raw).

Definition OpaqueToken_String (t : OpaqueToken) : bytes :=
  #"OpaqueToken{Raw:<redacted>, Hash:" ++ Quote (ot_Hash t) ++ #"}".

Definition OpaqueToken_GoString (t : OpaqueToken) : bytes := OpaqueToken_String t.

(** Deprecated names. *)
Definition DeriveOpaqueToken (raw : bytes) : OpaqueToken := OpaqueTokenFromRaw raw.
Definition Hash_ (raw : bytes) : bytes := HashOpaqueToken raw.
Definition Equal (storedHash raw : bytes) : bool := VerifyOpaqueTokenHash storedHash raw.

(** ** Token families *)

Record TokenFamily := mkTokenFamily { tf_ID : bytes }.

(** The error is ignored, and with it an empty buffer is left as it was. *)
Definition NewTokenFamily (n : nat) : TokenFamily :=
  match rand_Read n familyIDBytes with
  | Ok buf => mkTokenFamily (Encode buf)
  | Err _ => mkTokenFamily (Encode (replicate (Z.to_nat familyIDBytes) x00))
  end.

Record RotationResult := mkRotationResult { Next_ : OpaqueToken; ReuseDetected : bool }.
End Opaque.

(** ** Facts *)

Lemma hex_byte_inj b c :
  hex_char (bz b / 16) = hex_char (bz c / 16) → hex_char (bz b mod 16) = hex_char (bz c mod 16) → b = c.
Proof.
  intros H1 H2. apply bz_inj. pose proof (bz_range b). pose proof (bz_range c).
  assert (Hinj : ∀ x y, 0 ≤ x < 16 → 0 ≤ y < 16 → hex_char x = hex_char y → x = y).
  { intros x y Hx Hy Heq. apply (f_equal bz) in Heq. unfold hex_char in Heq.
    destruct (x <? 10) eqn:E1, (y <? 10) eqn:E2; bool_prop; rewrite !bz_zb, !Z.mod_small in Heq by lia; lia. }
  assert (bz b / 16 = bz c / 16) by (apply Hinj; [div_lia..|done]).
  assert (bz b mod 16 = bz c mod 16) by (apply Hinj; [div_lia..|done]).
  div_lia.
Qed.

Lemma hex_inj a : ∀ b, hex_EncodeToString a = hex_EncodeToString b → a = b.
Proof.
  induction a as [|x a IH]; intros [|y b]; [done..|].
  unfold hex_EncodeToString. rewrite !fmap_cons. cbn [concat app]. intros [= H1 H2 H3].
  f_equal; [by apply hex_byte_inj|by apply IH].
Qed.

Lemma len_hex a : len (hex_EncodeToString a) = 2 * len a.
Proof.
  induction a as [|x a IH]; [done|]. unfold hex_EncodeToString in *. rewrite fmap_cons. cbn [concat].
  rewrite len_app, IH. unfold len. cbn [length]. lia.
Qed.

Lemma len_raw_url src : len (Encode src) = (4 * len src + 2) / 3.
Proof.
  unfold Encode. induction src as [| |b c|b c d src IH] using list_ind3; [done..|].
  cbn [EncodeToString]. unfold len in *. cbn [length]. div_lia.
Qed.

Section Facts.
Context `{JweLaws, Strconv}.

(** A new token is 43 characters of base64url that carry all of
    its 256 random bits, and its hash verifies it; a stored hash verifies just
    the inputs whose SHA-256 digest it is the hex form of; and a token prints
    the same whatever its raw credential is. *)
Theorem opaque_tokens n stored raw raw' :
  match NewOpaqueToken n with
  | Ok t => len (ot_Raw t) = 43 ∧ is_ok (Decode (ot_Raw t)) = true ∧
            (∀ b, rand_Read n opaqueTokenBytes = Ok b → Decode (ot_Raw t) = Ok b) ∧
            VerifyOpaqueTokenHash (ot_Hash t) (ot_Raw t) = true
  | Err _ => True
  end ∧
  (VerifyOpaqueTokenHash stored raw = true ↔ stored = hex_EncodeToString (HashSum SHA256 raw)) ∧
  (VerifyOpaqueTokenHash (HashOpaqueToken raw') raw = true ↔ HashSum SHA256 raw' = HashSum SHA256 raw) ∧
  OpaqueToken_String (mkOpaqueToken raw stored) = OpaqueToken_String (mkOpaqueToken raw' stored).
Proof.
  split; [|split; [|split; [|done]]].
  - unfold NewOpaqueToken. destruct (rand_Read n opaqueTokenBytes) as [b|e] eqn:Hb; [|done].
    cbn [mbind result_bind ot_Raw ot_Hash]. pose proof (rand_Read_len n opaqueTokenBytes b ltac:(done) Hb) as Hl.
    rewrite len_raw_url, Hl, Decode_Encode_ok. split; [done|]. split; [done|]. split; [by intros ? [= <-]|].
    by apply bool_decide_eq_true.
  - apply bool_decide_eq_true.
  - unfold VerifyOpaqueTokenHash. rewrite bool_decide_eq_true. unfold HashOpaqueToken.
    split; [apply hex_inj|by intros ->].
Qed.
End Facts.
