(* ===== verification/Rotation.v ===== *)
(** * Rotation: refresh-token rotation with reuse detection

    The policy of examples/refresh_rotation/main.go over opaque.go, rotation.go
    and revoke.go: per family the hash of the one live token is kept; presenting
    anything else revokes the family for good.  A store reads the clock once a
    call; [reads] counts the reads of crypto/rand. *)

From S2P Require Import Prelude Errors GoLib B64 Alg Key Thumbprint Dates Claims Heap JweAlg Opaque Revoke.

Definition ReasonReuseDetected : bytes := #"reuse_detected".

Record rotator := mkRotator {
  live_hashes : gmap bytes bytes;
  revoke : memoryRevocationStore;
  reads : nat }.

Definition new_rotator : rotator := mkRotator ∅ NewMemoryRevocationStore 0.

Section Rotator.
Context `{Crypto, Entropy}.
Variable range : Z → gmap bytes revocationEntry → list (bytes * revocationEntry).

(** A read of random octets that fails is counted too. *)
Definition issue (fam : TokenFamily) (r : rotator) : rotator * res OpaqueToken :=
  match NewOpaqueToken (reads r) with
  | Err e => (mkRotator (live_hashes r) (revoke r) (S (reads r)), Err e)
  | Ok tok => (mkRotator (<[tf_ID fam := ot_Hash tok]> (live_hashes r)) (revoke r) (S (reads r)), Ok tok)
  end.

Definition reuse : RotationResult := mkRotationResult (mkOpaqueToken [] []) true.

(** The clock is read by [IsRevoked], then by [Revoke]. *)
Definition rotate (fam : TokenFamily) (presented : bytes) (now now' : Time) (r : rotator) :
    rotator * res RotationResult :=
  let '(s, revoked) := IsRevoked (tf_ID fam) now (revoke r) in
  let r := mkRotator (live_hashes r) s (reads r) in
  match revoked with
  | Err e => (r, Err e)
  | Ok true => (r, Ok reuse)
  | Ok false =>
      if negb (VerifyOpaqueTokenHash (default [] (live_hashes r !! tf_ID fam)) presented) then
        let '(s, _) := Revoke range (tf_ID fam) ReasonReuseDetected zero_time now' (revoke r) in
        (mkRotator (live_hashes r) s (reads r), Ok reuse)
      else
        match issue fam r with
        | (r, Err e) => (r, Err e)
        | (r, Ok next) => (r, Ok (mkRotationResult next false))
        end
  end.

(** Calls on any families. *)
Inductive rot_op : Type :=
  | Issue (fam : TokenFamily)
  | Rotate (fam : TokenFamily) (presented : bytes) (now now' : Time).

Definition rot_step (r : rotator) (o : rot_op) : rotator :=
  match o with
  | Issue fam => fst (issue fam r)
  | Rotate fam presented now now' => fst (rotate fam presented now now' r)
  end.

Definition after_calls (r : rotator) (ops : list rot_op) : rotator := fold_left rot_step ops r.

(** [res, _ := r.rotate(...)]: with an error the result is the zero value. *)
Definition result_or_zero (res : res RotationResult) : RotationResult :=
  match res with Ok result => result | Err _ => mkRotationResult (mkOpaqueToken [] []) false end.

(** ** What calls keep *)

Hypothesis range_perm : ∀ g m, range g m ≡ₚ map_to_list m.

(** The store is well formed and unbounded, as the example makes it, and every
    revocation is for good. *)
Definition final (m : gmap bytes Time) : Prop := ∀ id t, m !! id = Some t → t = zero_time.

Record rot_inv (r : rotator) : Prop := {
  ri_store : inv (revoke r);
  ri_unbounded : capacity (revoke r) = 0;
  ri_final : final (abs (revoke r)) }.

(** The family is revoked. *)
Definition dead (id : bytes) (r : rotator) : Prop := is_Some (abs (revoke r) !! id).

Lemma purge_final (now : Time) (m : gmap bytes Time) : final m → purge now m = m.
Proof.
  intros Hm. apply map_eq. intros id. unfold purge. destruct (m !! id) as [t|] eqn:Ht.
  - apply map_lookup_filter_Some. split; [done|]. by rewrite (Hm id t Ht).
  - apply map_lookup_filter_None. by left.
Qed.

Lemma issue_store fam r : revoke (fst (issue fam r)) = revoke r.
Proof. unfold issue. by destruct (NewOpaqueToken (reads r)). Qed.

(** Revoking without an end: the store is unbounded, so it never refuses. *)
Lemma revoke_for_good (id : bytes) now s :
  inv s → capacity s = 0 → final (abs s) → id ≠ [] →
  let s' := fst (Revoke range id ReasonReuseDetected zero_time now s) in
  inv s' ∧ capacity s' = 0 ∧ abs s' = <[id := zero_time]> (abs s).
Proof.
  intros Hs Hc Hf Hid. pose proof (Revoke_refines range range_perm id ReasonReuseDetected zero_time now s Hs) as Hr.
  destruct (Revoke _ _ _ _ _ _) as [s' e]. destruct Hr as (Hi & Hcap & Hr). cbn.
  rewrite Hcap, Hc in *. unfold spec_Revoke in Hr. rewrite bool_decide_eq_false_2 in Hr by done.
  change (spec_live now zero_time) with true in Hr. cbn [negb] in Hr. change (0 <? 0) with false in Hr.
  rewrite andb_false_r in Hr. cbn [andb] in Hr. rewrite purge_final in Hr by done. by injection Hr as -> _.
Qed.

(** The cases of a rotation of a family with an identifier. *)
Inductive rotated (id presented : bytes) (r r' : rotator) : res RotationResult → Prop :=
  | rot_revoked : dead id r → abs (revoke r') = abs (revoke r) → rotated id presented r r' (Ok reuse)
  | rot_reused :
      ¬ dead id r → VerifyOpaqueTokenHash (default [] (live_hashes r !! id)) presented = false →
      abs (revoke r') = <[id := zero_time]> (abs (revoke r)) → rotated id presented r r' (Ok reuse)
  | rot_no_entropy e :
      ¬ dead id r → VerifyOpaqueTokenHash (default [] (live_hashes r !! id)) presented = true →
      abs (revoke r') = abs (revoke r) → NewOpaqueToken (reads r) = Err e → rotated id presented r r' (Err e)
  | rot_next next :
      ¬ dead id r → VerifyOpaqueTokenHash (default [] (live_hashes r !! id)) presented = true →
      abs (revoke r') = abs (revoke r) → NewOpaqueToken (reads r) = Ok next →
      live_hashes r' = <[id := ot_Hash next]> (live_hashes r) → reads r' = S (reads r) →
      rotated id presented r r' (Ok (mkRotationResult next false)).

Lemma rotate_cases fam presented now now' r :
  rot_inv r → tf_ID fam ≠ [] →
  let '(r', res) := rotate fam presented now now' r in rot_inv r' ∧ rotated (tf_ID fam) presented r r' res.
Proof.
  intros [Hi Hc Hf] Hid. unfold rotate. pose proof (IsRevoked_refines (tf_ID fam) now (revoke r) Hi) as Hq.
  destruct (IsRevoked _ _ _) as [s q]. destruct Hq as (Hs & Hcs & Hq). rewrite Hc in Hcs.
  unfold spec_IsRevoked in Hq. rewrite bool_decide_eq_false_2, purge_final in Hq by done.
  injection Hq as Ha ->. cbn [live_hashes revoke reads].
  assert (Hkeep : ∀ l n, rot_inv (mkRotator l s n)) by (intros l n; split; [done|done|cbn; by rewrite Ha]).
  case_bool_decide as Hin; [split; [apply Hkeep|]; by apply rot_revoked|].
  destruct (VerifyOpaqueTokenHash _ presented) eqn:Hv; cbn [negb].
  - unfold issue. cbn [reads]. destruct (NewOpaqueToken (reads r)) as [next|e] eqn:Hn;
      (split; [apply Hkeep|]); [by apply rot_next|by apply rot_no_entropy].
  - assert (Hfs : final (abs s)) by (by rewrite Ha).
    pose proof (revoke_for_good (tf_ID fam) now' s Hs Hcs Hfs Hid) as Hr.
    destruct (Revoke _ _ _ _ _ _) as [s' e]. cbn [fst] in Hr. destruct Hr as (Hi' & Hc' & Ha'). rewrite Ha in Ha'.
    split; [|by apply rot_reused]. split; [done|done|]. cbn [revoke]. rewrite Ha'. intros id t.
    rewrite lookup_insert_Some. intros [[_ <-]|[_ ?]]; [done|by eapply Hf].
Qed.

Lemma rotate_unnamed fam presented now now' r :
  tf_ID fam = [] → let '(r', res) := rotate fam presented now now' r in revoke r' = revoke r ∧ is_ok res = false.
Proof. intros Hid. unfold rotate, IsRevoked. by rewrite (bool_decide_eq_true_2 _ Hid). Qed.

Lemma rot_step_keeps r o : rot_inv r → rot_inv (rot_step r o) ∧ ∀ id, dead id r → dead id (rot_step r o).
Proof.
  intros Hr. assert (Hsame : ∀ r', revoke r' = revoke r → rot_inv r' ∧ ∀ id, dead id r → dead id r').
  { intros r' He. unfold dead. rewrite He. split; [|done]. destruct Hr. split; by rewrite He. }
  destruct o as [fam|fam presented now now']; cbn [rot_step]; [apply Hsame, issue_store|].
  destruct (decide (tf_ID fam = [])) as [Hid|Hid].
  - pose proof (rotate_unnamed fam presented now now' r Hid) as Hc.
    destruct (rotate _ _ _ _ _) as [r' res]. apply Hsame, Hc.
  - pose proof (rotate_cases fam presented now now' r Hr Hid) as Hc.
    destruct (rotate _ _ _ _ _) as [r' res]. cbn [fst]. destruct Hc as [Hi Hc]. split; [done|].
    unfold dead. intros id Hd. destruct Hc as [_ ->|_ _ ->|e _ _ -> _|next _ _ -> _ _ _]; try done.
    apply lookup_insert_is_Some'. by right.
Qed.

Lemma calls_keep ops : ∀ r, rot_inv r → rot_inv (after_calls r ops) ∧ ∀ id, dead id r → dead id (after_calls r ops).
Proof.
  induction ops as [|o ops IH]; intros r Hr; [done|]. destruct (rot_step_keeps r o Hr) as [Hi Hd].
  destruct (IH _ Hi) as [Hi' Hd']. split; [done|]. intros id Hid. by apply Hd', Hd.
Qed.

Lemma new_rotator_inv n : rot_inv (mkRotator ∅ NewMemoryRevocationStore n).
Proof. split; [apply inv_new|done|]. intros id t Ht. unfold abs in Ht. cbn in Ht. by rewrite fmap_empty, lookup_empty in Ht. Qed.

(** A dead family rotates no more. *)
Lemma dead_rotates fam presented now now' r :
  rot_inv r → tf_ID fam ≠ [] → dead (tf_ID fam) r → snd (rotate fam presented now now' r) = Ok reuse.
Proof.
  intros Hr Hid Hd. pose proof (rotate_cases fam presented now now' r Hr Hid) as Hc.
  destruct (rotate _ _ _ _ _) as [r' res]. by destruct Hc as [_ []].
Qed.

(** ** Rotation is safe *)

(** The live token of the family has another hash than [hash]; [n] reads of
    random octets have been made at least. *)
Definition superseded (id hash : bytes) (n : nat) (r : rotator) : Prop :=
  (n <= reads r)%nat ∧ ∃ h, live_hashes r !! id = Some h ∧ h ≠ hash.

(** No token of the reads from the [n]th up to, not including, the [k]th has the
    hash. *)
Definition fresh_between (n k : nat) (hash : bytes) : Prop :=
  ∀ m tok, (n <= m < k)%nat → NewOpaqueToken m = Ok tok → ot_Hash tok ≠ hash.

Lemma issue_reads fam r : reads (fst (issue fam r)) = S (reads r).
Proof. unfold issue. by destruct (NewOpaqueToken (reads r)). Qed.

Lemma issue_superseded fam id hash n r :
  fresh_between n (S (reads r)) hash → superseded id hash n r → superseded id hash n (fst (issue fam r)).
Proof.
  intros Hf [Hn (h & Hl & Hh)]. split; [rewrite issue_reads; lia|].
  unfold issue. destruct (NewOpaqueToken (reads r)) as [tok|e] eqn:Ht; [|by exists h].
  destruct (decide (tf_ID fam = id)) as [<-|Hne]; cbn.
  - exists (ot_Hash tok). split; [apply lookup_insert_eq|]. eapply Hf; [|exact Ht]. lia.
  - exists h. by rewrite lookup_insert_ne.
Qed.

(** A step makes at most one read, and what it issues is a token of that read. *)
Lemma rot_step_superseded id hash n k r o :
  (reads (rot_step r o) <= k)%nat → fresh_between n k hash → superseded id hash n r →
  superseded id hash n (rot_step r o).
Proof.
  assert (Hissue : ∀ fam r, (reads (fst (issue fam r)) <= k)%nat → fresh_between n k hash → superseded id hash n r →
    superseded id hash n (fst (issue fam r))).
  { intros fam r' Hk Hf Hs. rewrite issue_reads in Hk. apply issue_superseded; [|done].
    intros m tok Hm. apply Hf. lia. }
  intros Hk Hf Hs. destruct o as [fam|fam presented now now']; cbn [rot_step] in *; [by apply Hissue|].
  revert Hk. unfold rotate. destruct (IsRevoked _ _ _) as [s [[|]|e]]; [done| |done].
  destruct (negb _); [by destruct (Revoke _ _ _ _ _ _)|].
  pose proof (Hissue fam (mkRotator (live_hashes r) s (reads r))) as Hi.
  destruct (issue fam _) as [r1 [tok|e]]; intros Hk; by apply Hi.
Qed.

Lemma reads_step r o : (reads r <= reads (rot_step r o))%nat.
Proof.
  destruct o as [fam|fam presented now now']; cbn [rot_step]; [rewrite issue_reads; lia|].
  unfold rotate. destruct (IsRevoked _ _ _) as [s [[|]|e]]; [done| |done].
  destruct (negb _); [by destruct (Revoke _ _ _ _ _ _)|].
  pose proof (issue_reads fam (mkRotator (live_hashes r) s (reads r))) as Hi.
  destruct (issue fam _) as [r1 [tok|e]]; cbn [fst reads] in *; lia.
Qed.

Lemma reads_calls ops : ∀ r, (reads r <= reads (after_calls r ops))%nat.
Proof.
  induction ops as [|o ops IH]; intros r; [done|]. pose proof (reads_step r o).
  specialize (IH (rot_step r o)). change (after_calls r (o :: ops)) with (after_calls (rot_step r o) ops). lia.
Qed.

Lemma calls_superseded id hash n ops : ∀ r,
  fresh_between n (reads (after_calls r ops)) hash → superseded id hash n r →
  superseded id hash n (after_calls r ops).
Proof.
  induction ops as [|o ops IH]; intros r Hf Hs; [done|].
  change (after_calls r (o :: ops)) with (after_calls (rot_step r o) ops) in *.
  apply IH; [done|]. eapply rot_step_superseded; [apply reads_calls|exact Hf|exact Hs].
Qed.

(** A superseded token of a family is reuse. *)
Lemma superseded_rotates fam presented n now now' r :
  rot_inv r → tf_ID fam ≠ [] → superseded (tf_ID fam) (HashOpaqueToken presented) n r →
  snd (rotate fam presented now now' r) = Ok reuse.
Proof.
  intros Hr Hid [_ (h & Hl & Hh)]. pose proof (rotate_cases fam presented now now' r Hr Hid) as Hc.
  destruct (rotate fam presented now now' r) as [r' res].
  destruct Hc as [_ [_ _|_ _ _|e _ Hv _ _|m _ Hv _ _ _ _]]; [done|done|..];
    rewrite Hl in Hv; by apply bool_decide_eq_true in Hv.
Qed.

(** C38: rotation is safe, whatever calls on whatever families come before and after
    and whatever the clock says.  A rotation yields a new token only for the live
    token of a family that is not revoked, and the new token takes its place.
    Once a rotation has reported reuse, every later presentation to the family
    does, the live token's too.  And the token that a rotation used up is never
    accepted again: after any further calls, rotations of the same family among
    them, its presentation is reported as reuse, given that no random token read
    by that rotation or those calls has its hash. *)
Theorem rotation_safe before fam presented now now' :
  let r := after_calls new_rotator before in
  let r' := fst (rotate fam presented now now' r) in
  (∀ next, snd (rotate fam presented now now' r) = Ok (mkRotationResult next false) →
     ¬ dead (tf_ID fam) r ∧ HashOpaqueToken presented = default [] (live_hashes r !! tf_ID fam) ∧
     live_hashes r' !! tf_ID fam = Some (ot_Hash next)) ∧
  (∀ after presented' t t',
     snd (rotate fam presented now now' r) = Ok reuse →
     snd (rotate fam presented' t t' (after_calls r' after)) = Ok reuse) ∧
  (∀ next after t t',
     snd (rotate fam presented now now' r) = Ok (mkRotationResult next false) →
     fresh_between (reads r) (reads (after_calls r' after)) (HashOpaqueToken presented) →
     snd (rotate fam presented t t' (after_calls r' after)) = Ok reuse).
Proof.
  intros r r'. assert (Hr : rot_inv r) by apply (calls_keep before), (new_rotator_inv 0).
  destruct (decide (tf_ID fam = [])) as [Hid|Hid].
  { pose proof (rotate_unnamed fam presented now now' r Hid) as Hc.
    destruct (rotate fam presented now now' r) as [q res]. destruct Hc as [_ Hc]. cbn [snd].
    split; [|split]; intros; by subst res. }
  pose proof (rotate_cases fam presented now now' r Hr Hid) as Hc. subst r'.
  destruct (rotate fam presented now now' r) as [q res]. destruct Hc as [Hq Hc]. cbn [fst snd].
  assert (Hlater : ∀ ops, dead (tf_ID fam) q → ∀ p t t', snd (rotate fam p t t' (after_calls q ops)) = Ok reuse).
  { intros ops Hd p t t'. destruct (calls_keep ops q Hq) as [Hi Hk]. apply dead_rotates; [done|done|by apply Hk]. }
  split; [|split].
  - intros next ->. inversion Hc as [| | |n Hd Hv _ _ Hl _]; subst. split; [done|].
    apply bool_decide_eq_true in Hv. split; [done|]. by rewrite Hl, lookup_insert_eq.
  - intros after p t t' ->. apply Hlater. unfold dead. inversion Hc as [Hd He|Hd Hv He| |]; subst.
    + by rewrite He.
    + rewrite He. apply lookup_insert_is_Some'. by left.
  - intros next after t t' -> Hf. destruct (calls_keep after q Hq) as [Hi _].
    inversion Hc as [| | |n _ _ _ Hnew Hlive Hreads]; subst.
    apply (superseded_rotates fam presented (reads r)); [done|done|]. apply calls_superseded; [done|].
    split; [lia|]. exists (ot_Hash next). split; [by rewrite Hlive, lookup_insert_eq|].
    eapply Hf; [|exact Hnew]. pose proof (reads_calls after q). lia.
Qed.

(** *** Single rotations *)

Lemma NewOpaqueToken_verifies n t : NewOpaqueToken n = Ok t → ot_Hash t = HashOpaqueToken (ot_Raw t).
Proof. unfold NewOpaqueToken. intros (b & _ & [= <-])%bind_Ok. done. Qed.

(** The live token of a family that is not revoked rotates. *)
Lemma rotate_live fam presented now now' r next :
  rot_inv r → tf_ID fam ≠ [] → ¬ dead (tf_ID fam) r →
  live_hashes r !! tf_ID fam = Some (HashOpaqueToken presented) → NewOpaqueToken (reads r) = Ok next →
  let '(r', res) := rotate fam presented now now' r in
  res = Ok (mkRotationResult next false) ∧ rot_inv r' ∧ ¬ dead (tf_ID fam) r' ∧
  live_hashes r' !! tf_ID fam = Some (ot_Hash next) ∧ reads r' = S (reads r).
Proof.
  intros Hr Hid Hd Hl Hn. pose proof (rotate_cases fam presented now now' r Hr Hid) as Hc.
  destruct (rotate fam presented now now' r) as [r' res].
  assert (Hv : VerifyOpaqueTokenHash (default [] (live_hashes r !! tf_ID fam)) presented = true)
    by (rewrite Hl; by apply bool_decide_eq_true).
  destruct Hc as [Hi [?|? ?|e ? _ ? ?|n _ _ Ha Hn' Hl' Hreads]]; try congruence.
  assert (n = next) as -> by congruence. split; [done|]. split; [done|].
  split; [by unfold dead; rewrite Ha|]. split; [by rewrite Hl', lookup_insert_eq|done].
Qed.

(** Any other token is reuse, and the end of the family. *)
Lemma rotate_other fam presented now now' r h :
  rot_inv r → tf_ID fam ≠ [] → live_hashes r !! tf_ID fam = Some h → h ≠ HashOpaqueToken presented →
  let '(r', res) := rotate fam presented now now' r in res = Ok reuse ∧ rot_inv r' ∧ dead (tf_ID fam) r'.
Proof.
  intros Hr Hid Hl Hh. pose proof (rotate_cases fam presented now now' r Hr Hid) as Hc.
  destruct (rotate fam presented now now' r) as [r' res]. destruct Hc as [Hi Hc].
  assert (Hv : VerifyOpaqueTokenHash (default [] (live_hashes r !! tf_ID fam)) presented = false)
    by (rewrite Hl; by apply bool_decide_eq_false).
  destruct Hc as [Hd Ha|_ _ Ha|e _ Hv' _ _|n _ Hv' _ _ _ _]; try congruence.
  - split; [done|]. split; [done|]. unfold dead. by rewrite Ha.
  - split; [done|]. split; [done|]. unfold dead. rewrite Ha. apply lookup_insert_is_Some'. by left.
Qed.
End Rotator.
