(* ===== verification/JwtTest.v ===== *)
(** * JwtTest: jwttest/jwttest.go, the fakes for users of the library

    The fake key provider and the fake revocation store are maps; the suites of
    the package state that every implementation behaves alike, which is proved
    here of the fakes and of the built-in ones. *)

From S2P Require Import Prelude Errors GoLib Alg Key KeySet Dates Claims Options Jws Heap Revoke JweAlg.

(** ** FakeKeyProvider *)

Record FakeKeyProvider := mkFakeKeyProvider { fk_Keys : gmap bytes Key; fk_Err : err_opt }.

Definition NewFakeKeyProvider (keys : list Key) : FakeKeyProvider :=
  mkFakeKeyProvider (fold_left (λ m k, <[Kid k := k]> m) keys ∅) None.

Definition Fake_Lookup (f : FakeKeyProvider) : KeyProvider := λ kid,
  match fk_Err f with
  | Some err => Err err
  | None =>
      if bool_decide (kid = []) then
        match map_to_list (fk_Keys f) with
        | [(_, k)] => Ok (Some k)
        | _ => Ok None
        end
      else Ok (fk_Keys f !! kid)
  end.

(** ** FakeRevocationStore *)

Record fakeRevocationEntry := mkFakeEntry { fe_reason : bytes; fe_expiresAt : Time }.

(** The clock [Now] is read by each call that needs it. *)
Record FakeRevocationStore := mkFakeStore { fs_entries : gmap bytes fakeRevocationEntry; fs_Err : err_opt }.

Definition NewFakeRevocationStore : FakeRevocationStore := mkFakeStore ∅ None.

Definition Fake_Revoke (f : FakeRevocationStore) (id reason : bytes) (expiresAt : Time) : FakeRevocationStore * err_opt :=
  match fs_Err f with
  | Some err => (f, Some err)
  | None => (mkFakeStore (<[id := mkFakeEntry reason expiresAt]> (fs_entries f)) (fs_Err f), None)
  end.

Definition Fake_IsRevoked (f : FakeRevocationStore) (id : bytes) (now : Time) : FakeRevocationStore * res bool :=
  match fs_Err f with
  | Some err => (f, Err err)
  | None =>
      match fs_entries f !! id with
      | None => (f, Ok false)
      | Some e =>
          if negb (IsZero (fe_expiresAt e)) && negb (After (fe_expiresAt e) now)
          then (mkFakeStore (delete id (fs_entries f)) (fs_Err f), Ok false)
          else (f, Ok true)
      end
  end.

Definition fake_step (f : FakeRevocationStore) (o : rev_op) : FakeRevocationStore * res bool :=
  match o with
  | OpRevoke id reason t _ =>
      let '(f, e) := Fake_Revoke f id reason t in (f, match e with Some e => Err e | None => Ok true end)
  | OpIsRevoked id now => Fake_IsRevoked f id now
  end.

(** ** The conformance suites

    Each sub-test builds what it tests anew; a suite is the conjunction. *)

Definition suite_k1 : Key := FromHMACSecret #"k1-secret-k1-secret-k1-secret-32b" [ #"k1"].
Definition suite_k2 : Key := FromHMACSecret #"k2-secret-k2-secret-k2-secret-32b" [ #"k2"].

Definition found_kid (r : res (option Key)) (kid : bytes) : bool :=
  match r with Ok (Some k) => bool_decide (Kid k = kid) | _ => false end.

Definition RunKeyProviderConformance (newProvider : list Key → KeyProvider) : bool :=
  found_kid (newProvider [suite_k1; suite_k2] #"k2") #"k2" &&
  match newProvider [suite_k1] #"absent" with Ok None => true | _ => false end &&
  found_kid (newProvider [suite_k1] []) #"k1".

Definition hour : Z := 3600 * second.

(** [step] is the store under test, [now i] the [i]-th clock reading. *)
Definition RunRevocationStoreConformance {S} (step : S → rev_op → S * res bool) (newStore : S)
    (now : nat → Time) : bool :=
  match snd (step newStore (OpIsRevoked #"nope" (now 0%nat))) with Ok false => true | _ => false end &&
  (let '(s, r) := step newStore (OpRevoke #"jti-1" #"logout" (now 1%nat + hour) (now 2%nat)) in
   is_ok r && match snd (step s (OpIsRevoked #"jti-1" (now 3%nat))) with Ok true => true | _ => false end) &&
  (let '(s, _) := step newStore (OpRevoke #"jti-2" #"logout" (now 4%nat - hour) (now 5%nat)) in
   negb match snd (step s (OpIsRevoked #"jti-2" (now 6%nat))) with Ok b => b | Err _ => false end) &&
  (let '(s, _) := step newStore (OpRevoke #"kid-x" #"key_compromised" zero_time (now 7%nat)) in
   match snd (step s (OpIsRevoked #"kid-x" (now 8%nat))) with Ok b => b | Err _ => false end).

(** ** NewSigningPair *)

(** [ed25519.GenerateKey]: the key of 32 random octets. *)
Definition NewSigningPair `{Crypto, Entropy} (n : nat) (kid : bytes) : res (Signer * KeyProvider) :=
  seed ← rand_Read n 32;
  let priv := ed25519_NewKeyFromSeed seed in
  let pub := drop 32 priv in
  signer ← NewEd25519Signer priv [kid];
  Ok (signer, StaticKeyProvider (FromEd25519PublicKey pub [kid])).

(** ** The fake provider and the built-in set *)

Section Providers.

(** Keys with different kids, none empty. *)
Definition distinct_kids (keys : list Key) : Prop := NoDup (Kid <$> keys) ∧ [] ∉ (Kid <$> keys).

Lemma fake_map_lookup keys : ∀ (m : gmap bytes Key) kid k,
  NoDup (Kid <$> keys) → (∀ k, k ∈ keys → m !! Kid k = None) →
  fold_left (λ m k, <[Kid k := k]> m) keys m !! kid = Some k ↔
  (k ∈ keys ∧ Kid k = kid) ∨ m !! kid = Some k.
Proof.
  induction keys as [|k0 keys IH]; intros m kid k Hnd Hm; cbn [fold_left].
  { split; [by right|]. by intros [[?%elem_of_nil _]|?]. }
  rewrite fmap_cons in Hnd. apply list.NoDup_cons in Hnd as [Hk0 Hnd]. rewrite IH; [|done|].
  - rewrite elem_of_cons. destruct (decide (kid = Kid k0)) as [->|Hne].
    + rewrite lookup_insert_eq. rewrite (Hm k0) by (by left). split; [naive_solver|].
      intros [[[->|Hin] Hkid]|?]; [by right| |done]. left. done.
    + rewrite lookup_insert_ne by done. naive_solver.
  - intros k1 Hk1. rewrite lookup_insert_ne; [apply Hm; by right|].
    intros Heq. apply Hk0. rewrite Heq. by apply list_elem_of_fmap_2.
Qed.

Lemma distinct_unique keys : distinct_kids keys → kids_unique keys.
Proof.
  intros [Hnd _] i j k k' Hi Hj Hk _. eapply NoDup_lookup; [exact Hnd|..]; rewrite list_lookup_fmap;
    [by rewrite Hi|rewrite Hj; simpl; congruence].
Qed.

Lemma find_kid_iff keys kid k :
  distinct_kids keys → find (λ k, bool_decide (Kid k = kid)) keys = Some k ↔ k ∈ keys ∧ Kid k = kid.
Proof.
  intros [Hnd _]. split.
  - intros [Hin Hk]%find_some. bool_prop. by rewrite list_elem_of_In.
  - intros [Hin Hk]. destruct (find _ keys) as [k'|] eqn:Hf.
    + apply find_some in Hf as [Hin' Hk']. bool_prop. apply list_elem_of_In in Hin'. f_equal.
      apply list_elem_of_lookup in Hin as [i Hi], Hin' as [j Hj].
      assert (i = j) as ->; [|congruence].
      eapply (NoDup_lookup _ i j kid); [exact Hnd|..]; rewrite list_lookup_fmap; [rewrite Hi|rewrite Hj]; simpl; congruence.
    + apply list_elem_of_In in Hin. pose proof (find_none _ _ Hf _ Hin) as Hn. cbn beta in Hn. bool_prop. done.
Qed.

Lemma fake_map_perm keys :
  distinct_kids keys → map_to_list (fk_Keys (NewFakeKeyProvider keys)) ≡ₚ (λ k, (Kid k, k)) <$> keys.
Proof.
  intros [Hnd Hne]. apply list.NoDup_Permutation.
  - apply NoDup_map_to_list.
  - apply (NoDup_fmap_1 fst). rewrite <- list_fmap_compose. exact Hnd.
  - intros [kid k]. rewrite elem_of_map_to_list. cbn [fk_Keys NewFakeKeyProvider].
    rewrite fake_map_lookup; [|done|intros; apply lookup_empty]. rewrite lookup_empty, list_elem_of_fmap. naive_solver.
Qed.

(** On keys with different, non-empty kids the fake
    provider and the built-in set answer every lookup alike: a known kid, an
    unknown one, and the empty one. *)
Theorem fake_provider_conforms keys kid :
  distinct_kids keys → Fake_Lookup (NewFakeKeyProvider keys) kid = KeySet_Lookup (NewKeySet keys) kid.
Proof.
  intros Hk. pose proof (distinct_unique _ Hk) as Hu. unfold KeySet_Lookup.
  destruct (fold_Add_spec keys empty_set inv_empty) as [Hinv _].
  change (fold_left Add keys empty_set) with (NewKeySet keys) in Hinv.
  rewrite (lookup_spec _ kid Hinv), NewKeySet_keys by done. unfold Fake_Lookup, spec_lookup. cbn [fk_Err NewFakeKeyProvider].
  case_bool_decide as Hkid.
  - pose proof (fake_map_perm keys Hk) as Hp. cbn [fk_Keys NewFakeKeyProvider] in *.
    pose proof (Permutation_length Hp) as Hlen. rewrite length_fmap in Hlen.
    destruct keys as [|k [|k2 keys]].
    + by apply Permutation_nil_r in Hp as ->.
    + apply Permutation_singleton_r in Hp as ->. done.
    + destruct (map_to_list _) as [|[? ?] [|]]; done.
  - f_equal. apply option_eq. intros k. cbn [fk_Keys NewFakeKeyProvider].
    rewrite find_kid_iff by done. destruct Hk as [Hnd _].
    rewrite fake_map_lookup; [|done|intros; apply lookup_empty]. rewrite lookup_empty. naive_solver.
Qed.
End Providers.

(** ** The fake store and the built-in one *)

Section Stores.
Variable range : Z → gmap bytes revocationEntry → list (bytes * revocationEntry).
Hypothesis range_perm : ∀ g m, range g m ≡ₚ map_to_list m.

(** The revocation of an identifier that is in force at a time. *)
Definition view (now : Time) (m : gmap bytes Time) (id : bytes) : option Time :=
  match m !! id with
  | Some t => if spec_live now t then Some t else None
  | None => None
  end.

Lemma spec_live_mono now now' t : now ≤ now' → spec_live now' t = true → spec_live now t = true.
Proof. unfold spec_live, After. rewrite !orb_true_iff, !Z.ltb_lt. intuition lia. Qed.

Lemma view_purge now now' m id : now ≤ now' → view now' (purge now m) id = view now' m id.
Proof.
  intros Hle. unfold view, purge. rewrite map_lookup_filter. destruct (m !! id) as [t|]; [|done]. simpl.
  case_guard as Hl; simpl; [done|]. destruct (spec_live now' t) eqn:Hl'; [|done].
  by apply (spec_live_mono now) in Hl'.
Qed.

Lemma view_insert now m id t id' :
  view now (<[id := t]> m) id' =
  if bool_decide (id = id') then if spec_live now t then Some t else None else view now m id'.
Proof.
  unfold view. case_bool_decide as Hid; [subst; by rewrite lookup_insert_eq|]. by rewrite lookup_insert_ne.
Qed.

Lemma view_delete now m id id' :
  view now (delete id m) id' = if bool_decide (id = id') then None else view now m id'.
Proof.
  unfold view. case_bool_decide as Hid; [subst; by rewrite lookup_delete_eq|]. by rewrite lookup_delete_ne.
Qed.

Lemma view_is_Some now m id : bool_decide (is_Some (purge now m !! id)) = bool_decide (is_Some (view now m id)).
Proof.
  unfold purge, view. rewrite map_lookup_filter. destruct (m !! id) as [t|]; [|done]. simpl.
  destruct (spec_live now t) eqn:Hl; case_guard; done.
Qed.

(** The two stores agree on every revocation still in force from [last] on. *)
Definition agree (last : Time) (m : gmap bytes Time) (f : FakeRevocationStore) : Prop :=
  fs_Err f = None ∧
  ∀ now id, last ≤ now → view now m id = view now (fe_expiresAt <$> fs_entries f) id.

(** Identifiers are not empty and the clock does not go back. *)
Fixpoint well_timed (last : Time) (ops : list rev_op) : Prop :=
  match ops with
  | [] => True
  | o :: ops =>
      match o with OpRevoke id _ _ _ | OpIsRevoked id _ => id ≠ [] end ∧
      last ≤ op_time o ∧ well_timed (op_time o) ops
  end.

Lemma fake_step_agrees last m f o :
  agree last m f → well_timed last [o] →
  agree (op_time o) (fst (spec_step 0 m o)) (fst (fake_step f o)) ∧
  snd (spec_step 0 m o) = snd (fake_step f o).
Proof.
  intros [He Ha] (Hid & Hle & _). destruct o as [id reason t now|id now]; cbn [op_time spec_step fake_step] in *.
  - unfold spec_Revoke, Fake_Revoke. rewrite bool_decide_eq_false_2, He by done.
    rewrite andb_false_r. cbn [andb]. destruct (spec_live now t) eqn:Hl; cbn [negb fst snd]; (split; [|done]);
      (split; [done|]); intros now' id' Hn; cbn [fs_entries]; rewrite fmap_insert; cbn [fe_expiresAt];
      rewrite view_insert; [rewrite view_insert|rewrite view_delete]; rewrite view_purge, Ha by lia; [done|].
    case_bool_decide; [|done]. destruct (spec_live now' t) eqn:Hl'; [|done].
    apply (spec_live_mono now) in Hl'; [congruence|lia].
  - unfold spec_IsRevoked, Fake_IsRevoked. rewrite bool_decide_eq_false_2, He by done. cbn [fst snd].
    rewrite view_is_Some, Ha by lia.
    assert (Hv : view now (fe_expiresAt <$> fs_entries f) id =
      match fs_entries f !! id with
      | Some e => if spec_live now (fe_expiresAt e) then Some (fe_expiresAt e) else None | None => None end).
    { unfold view. rewrite lookup_fmap. by destruct (fs_entries f !! id). }
    rewrite Hv. clear Hv. destruct (fs_entries f !! id) as [e|] eqn:Hf.
    2:{ split; [|done]. split; [done|]. intros now' id' Hn. rewrite view_purge by lia. apply Ha. lia. }
    replace (negb (IsZero (fe_expiresAt e)) && negb (After (fe_expiresAt e) now))
      with (negb (spec_live now (fe_expiresAt e)))
      by (unfold spec_live; by destruct (IsZero _), (After _ _)).
    destruct (spec_live now (fe_expiresAt e)) eqn:Hl; cbn [negb fst snd]; (split; [|done]); (split; [done|]);
      intros now' id' Hn; rewrite view_purge, Ha by lia; [done|]. cbn [fs_entries]. rewrite fmap_delete, view_delete.
    case_bool_decide as Hid'; [|done]. subst id'. unfold view. rewrite lookup_fmap, Hf. simpl.
    destruct (spec_live now' (fe_expiresAt e)) eqn:Hl'; [|done]. apply (spec_live_mono now) in Hl'; [congruence|lia].
Qed.

Lemma fake_run_agrees ops : ∀ last m f,
  agree last m f → well_timed last ops → snd (run_ops (spec_step 0) m ops) = snd (run_ops fake_step f ops).
Proof.
  induction ops as [|o ops IH]; intros last m f Ha Hw; [done|]. destruct Hw as (Hid & Hle & Hw). cbn [run_ops].
  destruct (fake_step_agrees last m f o Ha) as [Ha' Hr]; [done|].
  destruct (spec_step 0 m o) as [m1 r1], (fake_step f o) as [f1 r2]. cbn [fst snd] in *. subst r2.
  specialize (IH _ _ _ Ha' Hw). destruct (run_ops (spec_step 0) m1 ops), (run_ops fake_step f1 ops).
  cbn [snd] in *. congruence.
Qed.

Lemma agree_new last : agree last ∅ NewFakeRevocationStore.
Proof. split; [done|]. intros now id _. cbn [fs_entries NewFakeRevocationStore]. by rewrite fmap_empty. Qed.

Lemma store_answers ops :
  snd (run_ops (rev_step range) NewMemoryRevocationStore ops) = snd (run_ops (spec_step 0) ∅ ops).
Proof.
  pose proof (run_refines range range_perm ops _ (inv_new 0)) as Hr.
  change (newMemoryRevocationStore 0) with NewMemoryRevocationStore in Hr.
  destruct (run_ops (rev_step range) NewMemoryRevocationStore ops) as [s rs]. destruct Hr as (_ & _ & Hr).
  unfold abs in Hr. cbn [items NewMemoryRevocationStore newMemoryRevocationStore capacity] in Hr.
  rewrite fmap_empty in Hr. by rewrite <- Hr.
Qed.

Lemma fake_answers last ops :
  well_timed last ops → snd (run_ops fake_step NewFakeRevocationStore ops) = snd (run_ops (spec_step 0) ∅ ops).
Proof. intros Hw. symmetry. apply (fake_run_agrees ops last); [apply agree_new|done]. Qed.

(** While identifiers are not empty and the clock does
    not go back, every history of calls gets the same answers from the fake
    store, which only forgets a revocation it is asked about, and from the
    built-in one, which sweeps and compacts a heap at every call. *)
Theorem fake_store_conforms last ops :
  well_timed last ops →
  snd (run_ops fake_step NewFakeRevocationStore ops) = snd (run_ops (rev_step range) NewMemoryRevocationStore ops).
Proof. intros Hw. by rewrite store_answers, (fake_answers last). Qed.

(** *** The suites pass *)

(** The suite sees a store through histories of at most two calls. *)
Definition answers {S} (step : S → rev_op → S * res bool) (newStore : S) (ops : list rev_op) :=
  snd (run_ops step newStore ops).

Lemma suite_answers {S} (step : S → rev_op → S * res bool) newStore now :
  answers step newStore [OpIsRevoked #"nope" (now 0%nat)] = [Ok false] →
  answers step newStore [OpRevoke #"jti-1" #"logout" (now 1%nat + hour) (now 2%nat); OpIsRevoked #"jti-1" (now 3%nat)] =
    [Ok true; Ok true] →
  answers step newStore [OpRevoke #"jti-2" #"logout" (now 4%nat - hour) (now 5%nat); OpIsRevoked #"jti-2" (now 6%nat)] =
    [Ok true; Ok false] →
  answers step newStore [OpRevoke #"kid-x" #"key_compromised" zero_time (now 7%nat); OpIsRevoked #"kid-x" (now 8%nat)] =
    [Ok true; Ok true] →
  RunRevocationStoreConformance step newStore now = true.
Proof.
  unfold answers, RunRevocationStoreConformance. cbn [run_ops]. intros H1 H2 H3 H4.
  destruct (step newStore (OpIsRevoked _ _)) as [s1 r1]. cbn [snd] in H1. injection H1 as ->.
  repeat match goal with |- context [step newStore ?o] => destruct (step newStore o) as [? ?] end.
  repeat match goal with |- context [step ?s ?o] => destruct (step s o) as [? ?] end.
  cbn [snd] in *. by simplify_eq.
Qed.

Lemma spec_pair id reason t now now' :
  id ≠ [] →
  answers (spec_step 0) ∅ [OpRevoke id reason t now; OpIsRevoked id now'] =
    [Ok true; Ok (spec_live now t && spec_live now' t)].
Proof.
  intros Hid. unfold answers. cbn [run_ops spec_step]. unfold spec_Revoke, spec_IsRevoked.
  rewrite !bool_decide_eq_false_2 by done. rewrite andb_false_r. cbn [andb].
  destruct (spec_live now t); cbn [negb snd andb]; [|done].
  rewrite view_is_Some, view_insert, (bool_decide_eq_true_2 (id = id)) by done. by destruct (spec_live now' t).
Qed.

(** Time does not go back, and the whole suite takes less than an hour. *)
Definition suite_clock (now : nat → Time) : Prop :=
  (∀ i j, (i <= j)%nat → now i ≤ now j) ∧ now 8%nat < now 0%nat + hour ∧ zero_time + hour < now 0%nat.

Lemma suite_spec now {S} (step : S → rev_op → S * res bool) newStore :
  suite_clock now →
  (∀ ops, well_timed (now 0%nat) ops → answers step newStore ops = answers (spec_step 0) ∅ ops) →
  RunRevocationStoreConformance step newStore now = true.
Proof.
  intros (Hm & Hh & Hz) Hs.
  assert (Hn : ∀ i, (i <= 8)%nat → now 0%nat ≤ now i ≤ now 8%nat) by (intros; split; apply Hm; lia).
  assert (Hl : ∀ n t, zero_time < t → spec_live n t = bool_decide (n < t)).
  { intros n t Ht. unfold spec_live, IsZero, After. rewrite (proj2 (Z.eqb_neq _ _)) by lia. cbn [orb].
    case_bool_decide; [by apply Z.ltb_lt|by apply Z.ltb_ge, Z.nlt_ge]. }
  pose proof (Hn 1%nat). pose proof (Hn 2%nat). pose proof (Hn 3%nat). pose proof (Hn 4%nat). pose proof (Hn 5%nat).
  pose proof (Hn 6%nat). pose proof (Hn 7%nat).
  assert (Hw : ∀ i id r t, (i < 8)%nat → id ≠ [] →
    well_timed (now 0%nat) [OpRevoke id r t (now i); OpIsRevoked id (now (1 + i)%nat)]).
  { intros i id r t Hi Hid. pose proof (Hm i (1 + i)%nat). cbn [well_timed op_time].
    split; [done|]. split; [apply Hn; lia|]. split; [done|]. split; [lia|done]. }
  assert (0 < hour) by done.
  apply suite_answers.
  - rewrite Hs; [done|]. cbn [well_timed op_time]. split; [done|]. split; [lia|done].
  - rewrite Hs, spec_pair by (done || by apply (Hw 2%nat); [lia|]).
    rewrite !Hl, !bool_decide_eq_true_2 by lia. done.
  - rewrite Hs, spec_pair by (done || by apply (Hw 5%nat); [lia|]).
    rewrite !Hl, !bool_decide_eq_false_2 by lia. done.
  - rewrite Hs, spec_pair by (done || by apply (Hw 7%nat); [lia|]). done.
Qed.

(** The shared suites pass on the built-in key set, the
    fake provider, the map provider, the built-in store and the fake store, for
    every clock that does not go back during a run of less than an hour. *)
Theorem conformance_suites now :
  suite_clock now →
  RunKeyProviderConformance (λ keys, KeySet_Lookup (NewKeySet keys)) = true ∧
  RunKeyProviderConformance (λ keys, Fake_Lookup (NewFakeKeyProvider keys)) = true ∧
  RunKeyProviderConformance (λ keys, MapKeyProvider (fk_Keys (NewFakeKeyProvider keys))) = true ∧
  RunRevocationStoreConformance (rev_step range) NewMemoryRevocationStore now = true ∧
  RunRevocationStoreConformance fake_step NewFakeRevocationStore now = true.
Proof.
  intros Hn. do 3 (split; [by vm_compute|]).
  split; apply (suite_spec now); try done; intros ops Hw; unfold answers.
  - apply store_answers.
  - by apply (fake_answers (now 0%nat)).
Qed.
End Stores.

(** ** The signing pair *)

Section Pair.
Context `{Crypto, Entropy}.
(** The size of a generated key. *)
Hypothesis seed_key_len : ∀ seed, len (ed25519_NewKeyFromSeed seed) = ed25519_PrivateKeySize.

Lemma okp_unambiguous k allowed : Kty k = KeyTypeOKP → KeyAlg k = [] → requireUnambiguousKeyAlgorithm k allowed = None.
Proof.
  intros Hk Ha. unfold requireUnambiguousKeyAlgorithm. rewrite bool_decide_eq_true_2 by done. cbn [negb].
  apply unambiguous_loop_None; [done|lia|]. split; [|done].
  assert (Hf : ∀ a, compatible k a = true → FamilyOf a = FamilyEdDSA).
  { intros a. unfold compatible. destruct (verifierForAlg k a) as [v|] eqn:Hv; [|done]. intros _.
    apply verifierForAlg_Ok in Hv as (_ & Hv & _). rewrite Hk in Hv. by destruct (FamilyOf a). }
  intros a b _ _ _ _ Hca%Hf Hcb%Hf. apply family_EdDSA in Hca as [->| ->], Hcb as [->| ->]; done.
Qed.

Lemma okp_verifier pub kid alg :
  len pub = 32 → FamilyOf alg = FamilyEdDSA →
  verifierForAlg (FromEd25519PublicKey pub kid) alg = Ok (VEd25519 (mkEd25519Verifier alg pub (optKID kid))).
Proof.
  intros Hl Hf. unfold verifierForAlg.
  replace (permitsVerify (FromEd25519PublicKey pub kid) alg) with (None : err_opt).
  - cbn [check]. rewrite Hf, bool_decide_eq_true_2 by done. cbn [negb]. rewrite Ed_import, Hl. cbn [Z.eqb Pos.eqb mbind result_bind].
    unfold NewEd25519VerifierFor, ed25519_PublicKeySize. rewrite Hl.
    by apply family_EdDSA in Hf as [->| ->].
  - symmetry. apply permitsVerify_None. unfold usable. naive_solver.
Qed.

(** The provider of a generated pair resolves every token the
    pair's signer makes, under either name of its algorithm and whatever else
    is allowed, to the verifier of the signer's public counterpart. *)
Theorem signing_pair n kid s lookup cfg allowed header :
  NewSigningPair n kid = Ok (s, lookup) → verifierProvider cfg = None →
  FamilyOf (h_Algorithm header) = FamilyEdDSA → h_KeyID header = Signer_KeyID s →
  Signer_KeyID s = kid ∧ ∃ v, counterpart s v ∧ resolves (Some lookup) cfg allowed header v.
Proof.
  intros Hp Hcfg Hf Hk. unfold NewSigningPair in Hp. apply bind_Ok in Hp as (seed & _ & Hp).
  unfold NewEd25519Signer in Hp. rewrite seed_key_len in Hp. cbn in Hp. injection Hp as <- <-.
  cbn [Signer_KeyID eds_kid optKID] in *. split; [done|].
  set (pub := drop 32 (ed25519_NewKeyFromSeed seed)).
  assert (Hl : len pub = 32).
  { pose proof (seed_key_len seed) as Hs. unfold pub, len, ed25519_PrivateKeySize in *. rewrite length_drop. lia. }
  exists (VEd25519 (mkEd25519Verifier (h_Algorithm header) pub kid)). split.
  { exists seed. done. }
  apply (resolves_key _ _ _ _ _ (StaticKeyProvider (FromEd25519PublicKey pub [kid])) (FromEd25519PublicKey pub [kid]));
    [done|done| |by apply okp_unambiguous|by apply okp_verifier].
  rewrite Hk. unfold StaticKeyProvider. replace (Kid (FromEd25519PublicKey pub [kid])) with kid by done.
  rewrite (bool_decide_eq_true_2 (kid = kid)) by done. by rewrite andb_false_r.
Qed.
End Pair.
