(* ===== verification/Cmw.v ===== *)
(** * Cmw: cmw.go, conceptual message wrappers (RFC 9999)

    The members of a collection are a Go map; the model keeps such a map as the
    list of its entries in the order of the labels, which is the order
    json.Marshal writes them in.  The raw text of a member is the text of a
    value the parser has read, so that reading it again gives that value: a
    nested wrapper is parsed from the tree.  Every error of this file is an
    [ErrInvalidClaim]; messages are not modelled. *)

From stdpp Require Import sorting.
From S2P Require Import Prelude Errors GoLib Utf8 GoStr SortedMap B64 Json StrictJson Float Alg Key KeySet Dates Claims Options Jws.

(** ** Data *)

Definition CMWClaimName : bytes := #"cmw".
Definition CMWContentType : bytes := #"application/cmw+json".
Definition cmwCollectionTypeKey : bytes := #"__cmwc_t".
Definition maxCMWDepth : Z := 16.

(** [CMWRecord]; the indicator is a uint32. *)
Record CMWRecord := mkCMWRecord {
  cr_Type : bytes;
  cr_Value : bytes;
  cr_Indicator : option Z }.

(** [CMW], with [CMWCollection] as the pair of its type and its members; a nil
    pointer is [None]. *)
Inductive CMW : Type :=
  | mkCMW (record : option CMWRecord) (collection : option (bytes * list (bytes * CMW))).

Lemma CMW_ind' (P : CMW → Prop) :
  (∀ r, P (mkCMW r None)) →
  (∀ r t ms, Forall (λ kv, P (snd kv)) ms → P (mkCMW r (Some (t, ms)))) → ∀ c, P c.
Proof.
  intros Hn Hs. fix IH 1. intros [r [[t ms]|]]; [|apply Hn]. apply Hs.
  induction ms as [|[k c] ms IHms]; constructor; [apply IH|exact IHms].
Qed.

(** ** The patterns *)

(** [[A-Za-z0-9][A-Za-z0-9!#$&^_.+-]{0,126}]. *)
Definition media_char (c : byte) : bool :=
  isAlpha c || is_digit c || bool_decide (c ∈ #"!#$&^_.+-").

Definition cmwMediaNamePart (s : bytes) : bool :=
  match s with
  | c :: rest => (isAlpha c || is_digit c) && forallb media_char rest && (len rest <=? 126)
  | [] => false
  end.

Definition cmwMediaName (s : bytes) : bool :=
  match Split s "/"%byte with
  | [t; st] => cmwMediaNamePart t && cmwMediaNamePart st
  | _ => false
  end.

(** [^[A-Za-z0-9_-]+$]. *)
Definition cmwBase64URL (s : bytes) : bool := negb (bool_decide (s = [])) && forallb is_b64url s.

(** A decimal number without leading zeros. *)
Definition oid_arc (s : bytes) : bool :=
  match s with
  | [] => false
  | c :: rest => is_digit c && (bool_decide (s = #"0") || (negb (beq c "0"%byte) && forallb is_digit rest))
  end.

(** A root arc from 0 to 2, then arcs after dots. *)
Definition cmwOIDPattern (s : bytes) : bool :=
  match Split s "."%byte with
  | root :: arcs => bool_decide (root ∈ [ #"0"; #"1"; #"2"]) && forallb oid_arc arcs
  | [] => false
  end.

(** package mime: [ParseMediaType] returns a nil error. *)
Class Mime := { ParseMediaType : bytes → bool }.

Definition cmwErr {A} : res A := fail ErrInvalidClaim.

Section Validate.
Context `{Mime, URL}.

Definition validateCMWMediaType (mediaType : bytes) : err_opt :=
  let '(name, _, hasParams) := Cut mediaType ";"%byte in
  if negb (cmwMediaName (TrimRight name #" ")) then Some [ErrInvalidClaim]
  else if hasParams && negb (ParseMediaType mediaType) then Some [ErrInvalidClaim]
  else None.

Definition validateCMWCollectionType (value : bytes) : err_opt :=
  if cmwOIDPattern value then None
  else if ContainsByte value ":"%byte && bool_decide (ValidateStringOrURI value = None) then None
  else Some [ErrInvalidClaim].

(** The loop of [CMWCollection.validate] over the members, in an order that only
    picks the message. *)
Section Members.
Variable validate_member : CMW → err_opt.

Fixpoint check_members (members : list (bytes * CMW)) : err_opt :=
  match members with
  | [] => None
  | (label, member) :: members =>
      if bool_decide (label = cmwCollectionTypeKey) then Some [ErrInvalidClaim]
      else match validate_member member with
           | Some err => Some err
           | None => check_members members
           end
  end.
End Members.

(** [CMW.validate] with [CMWCollection.validate]. *)
Fixpoint validate (depth : Z) (c : CMW) {struct c} : err_opt :=
  if maxCMWDepth <? depth then Some [ErrInvalidClaim]
  else
    match c with
    | mkCMW (Some _) (Some _) => Some [ErrInvalidClaim]
    | mkCMW (Some r) None => validateCMWMediaType (cr_Type r)
    | mkCMW None (Some (t, members)) =>
        match (if bool_decide (t = []) then None else validateCMWCollectionType t) with
        | Some err => Some err
        | None =>
            if len members =? 0 then Some [ErrInvalidClaim]
            else check_members (validate (depth + 1)) members
        end
    | mkCMW None None => Some [ErrInvalidClaim]
    end.

Definition Validate (c : CMW) : err_opt := validate 0 c.

(** ** Encoding *)

(** [CMW.marshal]: what json.Marshal is given; a member is encoded by its
    MarshalJSON, which validates it again. *)
Fixpoint marshal (c : CMW) : json :=
  match c with
  | mkCMW (Some r) _ =>
      JArr ([JStr (cr_Type r); JStr (EncodeToString (cr_Value r))] ++
            match cr_Indicator r with Some bits => [JNum (FormatInt bits)] | None => [] end)
  | mkCMW None (Some (t, members)) =>
      let entries := (λ kv, (kv.1, marshal kv.2)) <$> members in
      JObj (if bool_decide (t = []) then entries else put cmwCollectionTypeKey (JStr t) entries)
  | mkCMW None None => JNull
  end.

Definition MarshalJSON (c : CMW) : res bytes :=
  match Validate c with Some err => Err err | None => Ok (print (marshal c)) end.

(** ** Decoding *)

(** [jsonv2.Unmarshal] into a uint32. *)
Definition dec_uint32 (j : json) : res Z :=
  match j with
  | JNum lit => if forallb is_digit lit && (dec_value lit <? 2 ^ 32) then Ok (dec_value lit) else fail type_error
  | JNull => Ok 0
  | _ => fail type_error
  end.

Definition bad {A} (r : res A) : res A := map_err (λ _, [ErrInvalidClaim]) r.

Definition parseCMWRecord (fields : list json) : res CMWRecord :=
  match fields with
  | f0 :: f1 :: rest =>
      if 1 <? len rest then cmwErr
      else
        mediaType ← bad (dec_string f0);
        check (validateCMWMediaType mediaType)
        (encoded ← bad (dec_string f1);
         if negb (cmwBase64URL encoded) then cmwErr
         else
           value ← bad (DecodeString false encoded);
           match rest with
           | [] => Ok (mkCMWRecord mediaType value None)
           | f2 :: _ => bits ← bad (dec_uint32 f2); Ok (mkCMWRecord mediaType value (Some bits))
           end)
  | _ => cmwErr
  end.

(** The loop of [parseCMWCollection] over the members. *)
Section Collect.
Variable parse_member : json → res CMW.

Fixpoint collect (acc : bytes * list (bytes * CMW)) (members : list (bytes * json)) :
    res (bytes * list (bytes * CMW)) :=
  match members with
  | [] => Ok acc
  | (label, raw) :: members =>
      if bool_decide (label = cmwCollectionTypeKey) then
        t ← bad (dec_string raw);
        check (validateCMWCollectionType t) (collect (t, acc.2) members)
      else
        member ← parse_member raw;
        collect (acc.1, put label member acc.2) members
  end.

Definition parseCMWCollection (members : list (bytes * json)) : res CMW :=
  '(t, ms) ← collect ([], []) members;
  if len ms =? 0 then cmwErr else Ok (mkCMW None (Some (t, ms))).
End Collect.

(** [parseCMW] of the text of a value, given the value. *)
Fixpoint parse_value (depth : Z) (j : json) {struct j} : res CMW :=
  if maxCMWDepth <? depth then cmwErr
  else
    match j with
    | JArr fields => r ← parseCMWRecord fields; Ok (mkCMW (Some r) None)
    | JObj members => parseCMWCollection (parse_value (depth + 1)) members
    | _ => cmwErr
    end.

Definition parseCMW (data : bytes) (depth : Z) : res CMW :=
  if maxCMWDepth <? depth then cmwErr
  else
    match TrimLeft data [x20; x09; x0d; x0a] with
    | [] => cmwErr
    | c :: _ =>
        if beq c "["%byte || beq c "{"%byte then j ← bad (parse data); parse_value depth j
        else cmwErr
    end.

Definition ParseCMW (data : bytes) : res CMW := parseCMW data 0.

(** [*c = parsed], on success only. *)
Definition UnmarshalJSON (c : CMW) (data : bytes) : CMW * err_opt :=
  match ParseCMW data with Err err => (c, Some err) | Ok parsed => (parsed, None) end.
End Validate.

(** ** Wrappers that have a JSON form *)

(** The value of a record is not empty, the indicator is a uint32, strings are
    UTF-8 and the entries of a map are in order. *)
Definition record_ok (r : CMWRecord) : Prop :=
  utf8_valid (cr_Type r) = true ∧ cr_Value r ≠ [] ∧
  match cr_Indicator r with Some bits => 0 ≤ bits < 2 ^ 32 | None => True end.

Inductive canonical : CMW → Prop :=
  | canonical_record r : record_ok r → canonical (mkCMW (Some r) None)
  | canonical_collection t ms :
      utf8_valid t = true → in_order ms.*1 → Forall (λ l, utf8_valid l = true) ms.*1 →
      Forall (λ kv, canonical kv.2) ms → canonical (mkCMW None (Some (t, ms))).

Section Facts.
Context `{Mime, URL}.

Lemma bad_Ok {A} (r : res A) a : bad r = Ok a ↔ r = Ok a.
Proof. apply map_err_Ok. Qed.

Lemma enc6_octets ds : Forall (λ d, 0 ≤ d < 64) ds → forallb is_b64url (enc6 <$> ds) = true.
Proof. induction 1 as [|d ds Hd _ IH]; [done|]. rewrite fmap_cons. cbn [forallb]. by rewrite enc6_b64url, IH. Qed.

Lemma base64url_encode v : v ≠ [] → cmwBase64URL (EncodeToString v) = true.
Proof.
  intros Hv. unfold cmwBase64URL. rewrite EncodeToString_digits, enc6_octets by apply digits_range.
  rewrite bool_decide_eq_false_2; [done|]. rewrite <- EncodeToString_digits. destruct v as [|a [|b [|c v]]]; done.
Qed.

Lemma decode_encode v : DecodeString false (EncodeToString v) = Ok v.
Proof.
  unfold DecodeString. rewrite EncodeToString_digits, sextets_enc6 by apply digits_range. apply quanta_digits.
Qed.

(** The decoder gives an octet at least when it is given a character. *)
Lemma decode_nonempty s v : cmwBase64URL s = true → DecodeString false s = Ok v → v ≠ [].
Proof.
  unfold cmwBase64URL, DecodeString. intros [Hs Ha]%andb_true_iff. bool_prop.
  destruct s as [|c s]; [done|]. cbn [forallb] in Ha. apply andb_true_iff in Ha as [Hc _].
  cbn [sextets]. rewrite bool_decide_eq_false_2.
  2: { intros Hin. assert (Hb : is_b64url c = false); [|congruence].
       apply elem_of_cons in Hin as [->|Hin]; [done|]. apply list_elem_of_singleton in Hin as ->. done. }
  destruct (dec6 c) as [d|]; [|done]. cbn [mbind option_bind]. destruct (sextets s) as [ds|]; [|done].
  cbn [mbind option_bind]. destruct ds as [|d1 [|d2 [|d3 ds]]]; cbn [quanta]; try done; try (by intros [= <-]).
  cbv zeta. by intros (? & _ & [= <-])%bind_Ok.
Qed.

(** A record is read back, and what is read is a record of this kind. *)
Lemma parse_record_marshal r :
  record_ok r → validateCMWMediaType (cr_Type r) = None →
  parseCMWRecord ([JStr (cr_Type r); JStr (EncodeToString (cr_Value r))] ++
    match cr_Indicator r with Some bits => [JNum (FormatInt bits)] | None => [] end) = Ok r.
Proof.
  intros (Hu & Hv & Hi) Ht. unfold parseCMWRecord. cbn [app].
  replace (1 <? len _) with false by (by destruct (cr_Indicator r)).
  cbn [dec_string bad map_err mbind result_bind]. rewrite Ht. cbn [check].
  rewrite base64url_encode by done. cbn [negb]. rewrite decode_encode. cbn [bad map_err mbind result_bind].
  destruct (cr_Indicator r) as [bits|] eqn:Hb; [|by destruct r; cbn in *; subst].
  cbn [dec_uint32]. destruct (FormatInt_nonneg bits) as (d & Hd & _); [lia|].
  assert (Hdig : forallb is_digit (FormatInt bits) = true) by (rewrite Hd; apply uint_digits).
  pose proof (FormatInt_value bits) as Hval. destruct (eat "-"%byte (FormatInt bits)) as [q|] eqn:He.
  { apply eat_Some in He. rewrite He in Hdig. done. }
  destruct Hval as [Hval _]. rewrite Hdig, <- Hval. rewrite (proj2 (Z.ltb_lt _ _)) by lia.
  cbn [andb map_err mbind result_bind]. destruct r; cbn in *. by subst.
Qed.

Lemma dec_uint32_range j n : dec_uint32 j = Ok n → 0 ≤ n < 2 ^ 32.
Proof.
  destruct j as [| |lit| | |]; cbn [dec_uint32]; try done; [by intros [= <-]|].
  destruct (_ && _) eqn:E; [|done]. intros [= <-]. bool_prop. split; [|done].
  by apply dec_value_nonneg.
Qed.

Lemma parse_record_ok fields r :
  wf (JArr fields) → parseCMWRecord fields = Ok r → record_ok r ∧ validateCMWMediaType (cr_Type r) = None.
Proof.
  rewrite wf_arr. destruct fields as [|f0 [|f1 rest]]; cbn [parseCMWRecord]; try done.
  intros Hw. rewrite list.Forall_cons in Hw. destruct Hw as [Hw0 Hw]. destruct (1 <? len rest); [done|].
  intros (t & Ht & Hr)%bind_Ok. rewrite bad_Ok in Ht. apply check_Ok in Hr as [Hm Hr].
  apply bind_Ok in Hr as (e & He & Hr). rewrite bad_Ok in He. destruct (cmwBase64URL e) eqn:Hb; [|done]. cbn [negb] in Hr.
  apply bind_Ok in Hr as (v & Hv & Hr). rewrite bad_Ok in Hv. pose proof (decode_nonempty _ _ Hb Hv) as Hne.
  assert (Hu : utf8_valid t = true) by (destruct f0; try done; by apply Ok_inj in Ht as <-).
  destruct rest as [|f2 rest].
  - apply Ok_inj in Hr as <-. by split.
  - apply bind_Ok in Hr as (bits & Hbits & Hr). rewrite bad_Ok in Hbits. apply Ok_inj in Hr as <-. split; [|done].
    split; [done|]. split; [done|]. cbn. by eapply dec_uint32_range.
Qed.

Lemma check_members_None v ms :
  check_members v ms = None ↔ Forall (λ kv, kv.1 ≠ cmwCollectionTypeKey ∧ v kv.2 = None) ms.
Proof.
  induction ms as [|[l c] ms IH]; cbn [check_members]; [by split|]. rewrite list.Forall_cons, <- IH. cbn [fst snd].
  destruct (decide (l = cmwCollectionTypeKey)) as [Hl|Hl].
  - rewrite bool_decide_eq_true_2 by done. naive_solver.
  - rewrite bool_decide_eq_false_2 by done. destruct (v c); naive_solver.
Qed.

Lemma validate_record d r :
  validate d (mkCMW (Some r) None) = None ↔ d ≤ maxCMWDepth ∧ validateCMWMediaType (cr_Type r) = None.
Proof. cbn [validate]. destruct (maxCMWDepth <? d) eqn:E; bool_prop; naive_solver lia. Qed.

Lemma validate_collection d t ms :
  validate d (mkCMW None (Some (t, ms))) = None ↔
  d ≤ maxCMWDepth ∧ (t = [] ∨ validateCMWCollectionType t = None) ∧ ms ≠ [] ∧
  Forall (λ kv, kv.1 ≠ cmwCollectionTypeKey ∧ validate (d + 1) kv.2 = None) ms.
Proof.
  cbn [validate]. destruct (maxCMWDepth <? d) eqn:E; bool_prop; [split; [done|lia]|].
  assert (Hms : (if len ms =? 0 then Some [ErrInvalidClaim] else check_members (validate (d + 1)) ms) = None ↔
    ms ≠ [] ∧ Forall (λ kv, kv.1 ≠ cmwCollectionTypeKey ∧ validate (d + 1) kv.2 = None) ms).
  { rewrite <- check_members_None. destruct ms; [naive_solver|]. change (len (_ :: _) =? 0) with false. naive_solver. }
  destruct (decide (t = [])) as [->|Ht].
  - rewrite bool_decide_eq_true_2 by done. rewrite Hms. naive_solver.
  - rewrite bool_decide_eq_false_2 by done. destruct (validateCMWCollectionType t); [naive_solver|]. rewrite Hms. naive_solver.
Qed.

(** Nested less deep it is valid too, as MarshalJSON of a member finds. *)
Lemma validate_shallower c : ∀ d d', d' ≤ d → validate d c = None → validate d' c = None.
Proof.
  induction c as [r|[r|] t ms IH] using CMW_ind'; intros d d' Hd Hv.
  - destruct r as [r|]; [|cbn [validate] in Hv; by destruct (_ <? _)].
    apply validate_record in Hv as [? ?]. apply validate_record. split; [lia|done].
  - cbn [validate] in Hv. by destruct (_ <? _).
  - apply validate_collection in Hv as (? & Ht & Hne & Hall). apply validate_collection.
    split; [lia|]. split; [done|]. split; [done|]. apply list.Forall_forall. intros kv Hkv.
    destruct (Forall_elem _ _ _ Hall Hkv) as [Hl Hval]. split; [done|].
    apply (Forall_elem _ _ _ IH Hkv (d + 1)); [lia|done].
Qed.

(** What the loop over the members keeps. *)
Definition collected (d : Z) (acc : bytes * list (bytes * CMW)) : Prop :=
  (acc.1 = [] ∨ validateCMWCollectionType acc.1 = None) ∧ utf8_valid acc.1 = true ∧ in_order acc.2.*1 ∧
  Forall (λ kv, utf8_valid kv.1 = true ∧ kv.1 ≠ cmwCollectionTypeKey ∧ canonical kv.2 ∧ validate (d + 1) kv.2 = None) acc.2.

Lemma collect_collected d m : ∀ acc acc',
  Forall (λ kv, utf8_valid kv.1 = true ∧ wf kv.2) m →
  Forall (λ kv, ∀ d c, wf kv.2 → parse_value d kv.2 = Ok c → canonical c ∧ validate d c = None) m →
  collected d acc → collect (parse_value (d + 1)) acc m = Ok acc' → collected d acc'.
Proof.
  induction m as [|[l raw] m IH]; intros acc acc' Hw Hp Hacc; cbn [collect]; [by intros [= <-]|].
  apply list.Forall_cons in Hw as [[Hl Hraw] Hw]. apply list.Forall_cons in Hp as [Hpr Hp]. cbn [fst snd] in *.
  case_bool_decide as Hk.
  - intros (t & Ht & Hc)%bind_Ok. rewrite bad_Ok in Ht. apply check_Ok in Hc as [Hv Hc].
    eapply IH; [done..| |exact Hc]. destruct Hacc as (_ & _ & ? & ?). split; [by right|]. split; [|done].
    cbn. destruct raw; try done; by apply Ok_inj in Ht as <-.
  - intros (c & Hc & Hrest)%bind_Ok. eapply IH; [done..| |exact Hrest].
    destruct (Hpr _ _ Hraw Hc) as [Hcan Hval]. destruct Hacc as (? & ? & Ho & Hall).
    split; [done|]. split; [done|]. split; [by apply put_order|]. cbn [snd].
    apply list.Forall_forall. intros kv [->|Hin]%put_elem; [done|]. exact (Forall_elem _ _ _ Hall Hin).
Qed.

(** What is parsed is valid. *)
Lemma parse_value_ok j : ∀ d c, wf j → parse_value d j = Ok c → canonical c ∧ validate d c = None.
Proof.
  induction j as [| | | |fields _|m IH] using json_ind'; intros d c Hw; cbn [parse_value parseCMWCollection];
    destruct (maxCMWDepth <? d) eqn:E; try done; bool_prop.
  - intros (r & Hr & Hc)%bind_Ok. apply Ok_inj in Hc as <-. destruct (parse_record_ok _ _ Hw Hr).
    split; [by constructor|]. by apply validate_record.
  - intros ([t ms] & Hms & Hc)%bind_Ok. destruct (len ms =? 0) eqn:Hl; [done|]. bool_prop. apply Ok_inj in Hc as <-.
    apply wf_obj in Hw as [_ Hw].
    assert (Hcol : collected d (t, ms)).
    { eapply collect_collected; [exact Hw|exact IH| |exact Hms].
      split; [by left|]. split; [done|]. split; constructor. }
    destruct Hcol as (Ht & Hu & Ho & Hall). cbn [fst snd] in *. split.
    + apply canonical_collection; [done|done| |]; [apply list.Forall_fmap|]; (eapply list.Forall_impl; [exact Hall|]); naive_solver.
    + apply validate_collection. split; [done|]. split; [done|]. split; [by intros ->|].
      eapply list.Forall_impl; [exact Hall|]. naive_solver.
Qed.

Lemma collect_entries pv t ms : ∀ acc rest,
  in_order (acc ++ ms).*1 → Forall (λ kv, kv.1 ≠ cmwCollectionTypeKey ∧ pv (marshal kv.2) = Ok kv.2) ms →
  collect pv (t, acc) (((λ kv, (kv.1, marshal kv.2)) <$> ms) ++ rest) = collect pv (t, acc ++ ms) rest.
Proof.
  induction ms as [|[l c] ms IH]; intros acc rest Ho Hp; [by rewrite app_nil_r|].
  apply list.Forall_cons in Hp as [[Hl Hc] Hp]. cbn [fst snd] in *.
  rewrite fmap_cons. cbn [app collect fst snd]. rewrite bool_decide_eq_false_2 by done. rewrite Hc. cbn [mbind result_bind].
  rewrite (cons_middle (l, c) acc ms), app_assoc in *.
  rewrite put_last; [by apply IH|].
  rewrite !fmap_app in Ho. apply list.Forall_forall. intros z Hz. revert Ho. clear -Hz.
  induction acc as [|[k a] acc IH]; [by apply elem_of_nil in Hz|]. rewrite fmap_cons. cbn [app fst].
  intros Hs. inversion Hs as [|? ? Hm Hk]; subst. rewrite fmap_cons in Hz. apply elem_of_cons in Hz as [->|Hz]; [|by apply IH].
  apply (Forall_elem _ _ _ Hk). apply elem_of_app. left. apply elem_of_app. right. by left.
Qed.

(** ** Round trip *)

Lemma marshal_parse c : ∀ d, canonical c → validate d c = None → parse_value d (marshal c) = Ok c.
Proof.
  induction c as [r|r t ms IH] using CMW_ind'; intros d Hc Hv.
  - inversion Hc as [r' Hr Heq|]; subst. apply validate_record in Hv as [Hd Hv]. cbn [marshal parse_value].
    rewrite (proj2 (Z.ltb_ge _ _)) by lia. by rewrite parse_record_marshal.
  - inversion Hc as [|t' ms' Hu Ho Hlab Hcan]; subst. apply validate_collection in Hv as (Hd & Ht & Hne & Hall).
    cbn [marshal]. set (entries := (λ kv, (kv.1, marshal kv.2)) <$> ms).
    assert (Hp : Forall (λ kv, kv.1 ≠ cmwCollectionTypeKey ∧ parse_value (d + 1) (marshal kv.2) = Ok kv.2) ms).
    { apply list.Forall_forall. intros kv Hkv. pose proof (Forall_elem _ _ _ Hall Hkv) as [Hl Hval].
      split; [done|]. apply (Forall_elem _ _ _ IH Hkv); [exact (Forall_elem _ _ _ Hcan Hkv)|done]. }
    assert (Hms : len ms =? 0 = false) by (destruct ms; [done|]; apply Z.eqb_neq; unfold len; simpl; lia).
    cbn [parse_value parseCMWCollection]. rewrite (proj2 (Z.ltb_ge _ _)) by lia. unfold parseCMWCollection.
    assert (Hcol : collect (parse_value (d + 1)) ([], [])
      (if bool_decide (t = []) then entries else put cmwCollectionTypeKey (JStr t) entries) = Ok (t, ms)).
    { case_bool_decide as He.
      - subst t. rewrite <- (app_nil_r entries). unfold entries. by rewrite (collect_entries _ [] ms []).
      - destruct (put_split cmwCollectionTypeKey (JStr t) entries) as (e1 & e2 & Hent & ->).
        { intros Hin. apply list_elem_of_fmap in Hin as (x & Hx & Hin). apply list_elem_of_fmap in Hin as (kv & -> & Hkv).
          by destruct (Forall_elem _ _ _ Hall Hkv) as [Hl _]. }
        unfold entries in Hent. apply fmap_app_inv in Hent as (m1 & m2 & -> & -> & ->).
        apply list.Forall_app in Hp as [Hp1 Hp2].
        rewrite (collect_entries _ [] m1 []); [|rewrite fmap_app in Ho; by apply StronglySorted_app_1_l in Ho|done].
        cbn [collect app]. rewrite bool_decide_eq_true_2 by done. cbn [dec_string bad map_err mbind result_bind fst snd].
        destruct Ht as [?|Ht]; [done|]. rewrite Ht. cbn [check].
        rewrite <- (app_nil_r ((λ kv, (kv.1, marshal kv.2)) <$> m2)). by rewrite (collect_entries _ t m2 m1). }
    rewrite Hcol. cbn [mbind result_bind]. by rewrite Hms.
Qed.

(** The labels of the members, and of the type, occur once. *)
Lemma entries_wf t ms :
  in_order ms.*1 → Forall (λ kv, kv.1 ≠ cmwCollectionTypeKey) ms →
  Forall (λ l, utf8_valid l = true) ms.*1 → utf8_valid t = true → Forall (λ kv, wf (marshal kv.2)) ms →
  let entries := (λ kv, (kv.1, marshal kv.2)) <$> ms in
  wf (JObj (if bool_decide (t = []) then entries else put cmwCollectionTypeKey (JStr t) entries)).
Proof.
  intros Ho Hk Hl Ht Hw entries. apply wf_obj.
  assert (Hlab : entries.*1 = ms.*1) by (unfold entries; rewrite <- list_fmap_compose; by apply list_fmap_ext).
  assert (Hent : Forall (λ kv, utf8_valid kv.1 = true ∧ wf kv.2) entries).
  { apply list.Forall_fmap. rewrite list.Forall_fmap in Hl. apply list.Forall_forall. intros kv Hkv.
    split; [exact (Forall_elem _ _ _ Hl Hkv)|exact (Forall_elem _ _ _ Hw Hkv)]. }
  assert (Hnd : NoDup entries.*1) by (rewrite Hlab; by apply in_order_NoDup).
  case_bool_decide; [done|].
  assert (Hin : cmwCollectionTypeKey ∉ entries.*1).
  { rewrite Hlab. intros (kv & Heq & Hkv)%list_elem_of_fmap. by destruct (Forall_elem _ _ _ Hk Hkv). }
  split.
  - apply in_order_NoDup, put_order. by rewrite Hlab.
  - apply list.Forall_forall. intros kv [->|Hkv]%put_elem; [done|]. exact (Forall_elem _ _ _ Hent Hkv).
Qed.

Lemma depth_obj_bound (m : list (bytes * json)) b :
  0 ≤ b → Forall (λ kv, depth kv.2 ≤ b) m → depth (JObj m) ≤ 1 + b.
Proof. intros Hb. cbn [depth]. induction 1 as [|kv m Hkv _ IH]; cbn [fold_right]; lia. Qed.

Lemma marshal_wf c : ∀ d,
  canonical c → validate d c = None → wf (marshal c) ∧ depth (marshal c) ≤ maxCMWDepth + 1 - d.
Proof.
  induction c as [r|r t ms IH] using CMW_ind'; intros d Hc Hv.
  - inversion Hc as [r' (Hu & Hne & Hi) Heq|]; subst. apply validate_record in Hv as [Hd Hv]. cbn [marshal]. split.
    + apply wf_arr. constructor; [done|]. constructor; [apply Encode_valid|].
      destruct (cr_Indicator r'); repeat constructor. apply FormatInt_num_ok.
    + destruct (cr_Indicator r'); cbn; lia.
  - inversion Hc as [|t' ms' Hu Ho Hlab Hcan]; subst. apply validate_collection in Hv as (Hd & Ht & Hne & Hall).
    assert (Hsub : Forall (λ kv, wf (marshal kv.2) ∧ depth (marshal kv.2) ≤ maxCMWDepth + 1 - (d + 1)) ms).
    { apply list.Forall_forall. intros kv Hkv. destruct (Forall_elem _ _ _ Hall Hkv) as [_ Hval].
      apply (Forall_elem _ _ _ IH Hkv); [exact (Forall_elem _ _ _ Hcan Hkv)|done]. }
    cbn [marshal]. split.
    + apply entries_wf; [done| |done|done|].
      * eapply list.Forall_impl; [exact Hall|]. naive_solver.
      * eapply list.Forall_impl; [exact Hsub|]. naive_solver.
    + assert (Hpos : 1 ≤ maxCMWDepth + 1 - (d + 1)).
      { destruct ms as [|[l c] ms]; [done|]. apply list.Forall_cons in Hall as [[_ Hval] _]. cbn [snd] in Hval.
        destruct c as [r0 [[t0 ms0]|]].
        - destruct r0; [cbn [validate] in Hval; by destruct (_ <? _)|]. apply validate_collection in Hval as [? _]. lia.
        - destruct r0; [apply validate_record in Hval as [? _]; lia|cbn [validate] in Hval; by destruct (_ <? _)]. }
      replace (maxCMWDepth + 1 - d) with (1 + (maxCMWDepth + 1 - (d + 1))) by lia. apply depth_obj_bound; [lia|].
      assert (Hent : Forall (λ kv, depth kv.2 ≤ maxCMWDepth + 1 - (d + 1)) ((λ kv, (kv.1, marshal kv.2)) <$> ms)).
      { apply list.Forall_fmap. eapply list.Forall_impl; [exact Hsub|]. naive_solver. }
      case_bool_decide; [done|]. apply list.Forall_forall. intros kv [->|Hkv]%put_elem; [cbn; lia|].
      exact (Forall_elem _ _ _ Hent Hkv).
Qed.

Lemma parse_top j : wf j → depth j ≤ maxNestingDepth → (∃ l, j = JArr l) ∨ (∃ m, j = JObj m) →
  parseCMW (print j) 0 = parse_value 0 j.
Proof.
  intros Hw Hd Hj. unfold parseCMW. change (maxCMWDepth <? 0) with false. cbv iota.
  rewrite (parse_print _ Hw Hd).
  destruct Hj as [[l ->]|[m ->]]; reflexivity.
Qed.

Lemma marshal_container c d : validate d c = None → (∃ l, marshal c = JArr l) ∨ (∃ m, marshal c = JObj m).
Proof.
  destruct c as [[r|] [[t ms]|]]; cbn [validate marshal]; (destruct (_ <? _); [done|]); try done;
    intros _; [left|right]; by eexists.
Qed.

Lemma parse_print_cmw c : canonical c → Validate c = None → ParseCMW (print (marshal c)) = Ok c.
Proof.
  intros Hc Hv. destruct (marshal_wf c 0 Hc Hv) as [Hw Hd]. unfold ParseCMW.
  rewrite parse_top; [by apply marshal_parse|done|unfold maxCMWDepth, maxNestingDepth in *; lia|by eapply marshal_container].
Qed.

Lemma ParseCMW_inv data c : ParseCMW data = Ok c → canonical c ∧ Validate c = None.
Proof.
  unfold ParseCMW, parseCMW. change (maxCMWDepth <? 0) with false. cbv iota.
  destruct (TrimLeft data _) as [|b t]; [done|]. destruct (_ || _); [|done].
  intros (j & Hj & Hc)%bind_Ok. rewrite bad_Ok in Hj. apply parse_wf in Hj as [Hw _]. by eapply parse_value_ok.
Qed.

(** C27: whatever bytes are parsed, the wrapper returned is one that
    [Validate] accepts: records with a media type and a non-empty value, an
    indicator of 32 bits, collections that are not empty, nest at most sixteen
    deep and have no member under the reserved label; and it encodes again, to a
    text that parses to the same wrapper. *)
Theorem ParseCMW_sound data c :
  ParseCMW data = Ok c →
  Validate c = None ∧ canonical c ∧ ∃ b, MarshalJSON c = Ok b ∧ ParseCMW b = Ok c.
Proof.
  intros [Hc Hv]%ParseCMW_inv. split; [done|]. split; [done|]. exists (print (marshal c)).
  unfold MarshalJSON. rewrite Hv. split; [done|]. by apply parse_print_cmw.
Qed.

(** A wrapper that validates, with UTF-8 strings and no empty
    record value, encodes, and its encoding parses to it. *)
Theorem cmw_roundtrip c :
  canonical c → Validate c = None → ∃ b, MarshalJSON c = Ok b ∧ ParseCMW b = Ok c.
Proof.
  intros Hc Hv. exists (print (marshal c)). unfold MarshalJSON. rewrite Hv. split; [done|]. by apply parse_print_cmw.
Qed.
End Facts.

(** A record with an empty value validates and encodes, but not to a wrapper. *)
Lemma empty_value_encodes `{Mime, URL} :
  let c := mkCMW (Some (mkCMWRecord #"application/eat" [] None)) None in
  Validate c = None ∧ MarshalJSON c = Ok #'"['application/eat','']" ∧
  ParseCMW #'"['application/eat','']" = fail ErrInvalidClaim.
Proof. by vm_compute. Qed.

(** ** A JWT with the claim *)

Section Claims.
Context `{Mime, URL, Crypto, Unicode}.

(** [CMWClaims]: the registered claims and "cmw". *)
Record CMWClaims := mkCMWClaims { cc_Registered : RegisteredClaims; cc_CMW : option CMW }.

(** The raw value of a member is parsed by [UnmarshalJSON]; null is a nil
    pointer. *)
Definition dec_cmw_claims : json → res CMWClaims := dec_struct (mkCMWClaims zero_claims None) (λ m,
  reg ← dec_claims_members m;
  cmw ← field m CMWClaimName None (dec_ptr (parse_value 0));
  Ok (mkCMWClaims reg cmw)).

(** ** The signed form *)

Definition cmw_header (s : Signer) (opts : list (option SignOption)) : Header :=
  let cfg := apply_all applySign opts (mkSignConfig [] []) in
  simple_header (Signer_Algorithm s) (typ cfg) CMWContentType (Signer_KeyID s).

Definition SignCMW (cmw : CMW) (signer : option Signer) (opts : list (option SignOption)) : res bytes :=
  check (Validate cmw)
  (match signer with
   | None => fail ErrUnsupportedAlgorithm
   | Some signer =>
       if is_none (Signer_Algorithm signer) then fail ErrAlgorithmNotAllowed
       else
         let headerJSON := print (JObj (header_members (cmw_header signer opts))) in
         let payload := print (marshal cmw) in
         let signingInput := Encode headerJSON ++ #"." ++ Encode payload in
         sig ← Sign_with signer signingInput;
         Ok (signingInput ++ #"." ++ Encode sig)
   end).

Definition set_raw (c : parseConfig) : parseConfig :=
  mkParseConfig (allowedAlgs c) (issuer c) (audience c) (requiredType c) (now c) (leeway c) (requiredClaims c)
    (skipAudience c) (verifierProvider c) true (allowedKeyAlgs c) (allowedContentAlgs c) (mw_Realm c) (mw_OnError c).

(** After the verification, with the header it returns. *)
Definition verified_cmw (header : Header) (payload : bytes) : res CMW :=
  if negb (typeMatches (h_ContentType header) CMWContentType) || negb (ContainsByte (h_ContentType header) "/"%byte)
  then fail ErrTypeMismatch
  else ParseCMW payload.

Definition ParseSignedCMW (clock : Time) (token : bytes) (keys : option KeyProvider)
    (opts : list (option ParseOption)) : io CMW :=
  let cfg := set_raw (apply_all applyParse opts (default_config clock)) in
  '(header, payload) ← parseVerified token keys cfg;
  lift (verified_cmw header payload).

(** C26: a wrapper is returned exactly when the token is
    verified as a JWS (an allowed algorithm, the verifier resolved for the
    header, the signature over the bytes received), its "cty" is the media type
    of a JSON wrapper, and its payload parses as one; so no JWT is taken for a
    wrapper, as its payload would have to be one. *)
Theorem ParseSignedCMW_spec clock token keys opts c :
  let cfg := set_raw (apply_all applyParse opts (default_config clock)) in
  result_of (ParseSignedCMW clock token keys opts) = Ok c ↔
  ∃ header payload v,
    verified token keys cfg header payload v ∧
    typeMatches (h_ContentType header) CMWContentType = true ∧
    "/"%byte ∈ h_ContentType header ∧
    ParseCMW payload = Ok c.
Proof.
  intros cfg. unfold ParseSignedCMW. fold cfg. split.
  - intros ([header payload] & Hp & Hr)%io_bind_Ok. apply parseVerified_Ok in Hp as [(v & Hv) _].
    cbn [result_of lift snd] in Hr. unfold verified_cmw in Hr. destruct (_ || _) eqn:E; [done|]. bool_prop.
    unfold ContainsByte in *. bool_prop. by exists header, payload, v.
  - intros (header & payload & v & Hv & Ht & Hs & Hc). apply io_bind_Ok. exists (header, payload). split.
    + apply parseVerified_Ok. split; [by exists v|]. by left.
    + cbn [result_of lift snd]. unfold verified_cmw, ContainsByte. rewrite Ht, bool_decide_eq_true_2 by done. done.
Qed.
End Claims.

(** What SignCMW produces, ParseSignedCMW reads back, for
    any signer and the verifier of its public counterpart, whatever the other
    options. *)
Theorem signed_cmw_roundtrip `{CryptoLaws, Unicode, Mime, URL} c s v sopts token clock keys popts :
  let cfg := set_raw (apply_all applyParse popts (default_config clock)) in
  let header := cmw_header s sopts in
  SignCMW c (Some s) sopts = Ok token → canonical c →
  counterpart s v → header_utf8 header → len token ≤ maxTokenBytes →
  h_Algorithm header ∈ allowedAlgs cfg →
  resolves keys cfg (withoutNone (allowedAlgs cfg)) header v →
  result_of (ParseSignedCMW clock token keys popts) = Ok c.
Proof.
  intros cfg header Hs Hcan Hcp Hu Hl Ha Hr. unfold SignCMW in Hs. apply check_Ok in Hs as [Hval Hs].
  destruct (is_none _) eqn:Hn; [done|]. apply bind_Ok in Hs as (sig & Hsig & Ht%Ok_inj).
  rewrite compact_eq in Ht. subst token. fold header in Hsig, Hl |- *.
  destruct (simple_header_wf _ _ _ _ Hu) as (Hw & Hd & Hcrit).
  unfold ParseSignedCMW. fold cfg. apply io_bind_Ok. exists (header, print (marshal c)). split.
  - apply parseVerified_Ok. split; [|by left]. exists v. eexists _, sig. split; [|split; [done|]].
    + split; [done|done| |by apply elem_withoutNone|done].
      exists (header_members header). split; [by apply parse_print|]. split; [|done].
      apply dec_header_members_ok. by intros k.
    + by eapply sign_verify.
  - cbn [result_of lift snd]. unfold verified_cmw. change (h_ContentType header) with CMWContentType.
    change (ContainsByte CMWContentType "/"%byte) with true. unfold typeMatches.
    rewrite (bool_decide_eq_true_2 (norm_type _ = _)) by done.
    change (bool_decide (CMWContentType = [])) with false. cbn [negb andb orb]. by apply parse_print_cmw.
Qed.
