(* ===== verification/CacheControl.v ===== *)
(** * CacheControl: the Cache-Control parser of keyfetch.go

    Durations are nanoseconds in [Z]; the parser's saturation keeps them in the
    range of time.Duration.  The loop over the headers is compared with the
    directives read off them at once. *)

From S2P Require Import Prelude Errors GoLib Utf8 GoStr Json Float Dates Claims Options Key.

Definition maxDuration : Z := two63 - 1.

Record cacheControl := mkCacheControl {
  maxAge : Z;
  hasMaxAge : bool;
  noCache : bool;
  noStore : bool }.

Definition zero_cache : cacheControl := mkCacheControl 0 false false false.

(** The value between a leading and a trailing quotation mark. *)
Definition quoted (value : bytes) : option bytes :=
  if (2 <=? len value) && bool_decide (head value = Some x22) && bool_decide (head (rev value) = Some x22)
  then Some (take (length value - 2) (drop 1 value)) else None.

Section Cache.
Context `{Unquoter}.

Definition parseDeltaSeconds (value : bytes) : Z :=
  let value := TrimSpace value in
  match (match quoted value with Some inner => Unquote inner | None => Some value end) with
  | None => 0
  | Some value =>
      match ParseUint value with
      | Err ErrRange => maxDuration
      | Err ErrSyntax => 0
      | Ok secs => if maxDuration / second <? secs then maxDuration else secs * second
      end
  end.

(** A directive: its trimmed name, and the value when there is a "=". *)
Definition directive (part : bytes) : bytes * option bytes :=
  let '(name, value, hasValue) := Cut (TrimSpace part) "="%byte in
  (TrimSpace name, if hasValue then Some value else None).

(** The body of the inner loop; the state carries [maxAgeCount]. *)
Definition cache_step (st : cacheControl * Z) (part : bytes) : cacheControl * Z :=
  let '(out, maxAgeCount) := st in
  let '(name, value) := directive part in
  if EqualFold name #"no-cache" then (mkCacheControl (maxAge out) (hasMaxAge out) true (noStore out), maxAgeCount)
  else if EqualFold name #"no-store" then (mkCacheControl (maxAge out) (hasMaxAge out) (noCache out) true, maxAgeCount)
  else if EqualFold name #"max-age" then
    let maxAgeCount := maxAgeCount + 1 in
    let age := match value with
               | Some value => if maxAgeCount =? 1 then parseDeltaSeconds value else 0
               | None => 0
               end in
    (mkCacheControl age true (noCache out) (noStore out), maxAgeCount)
  else st.

Definition parseCacheControl (headers : list bytes) : cacheControl :=
  fst (fold_left (λ st header, fold_left cache_step (Split header ","%byte) st) headers (zero_cache, 0)).

Definition parseMaxAge (header : bytes) : Z :=
  let cache := parseCacheControl [header] in
  if noCache cache || noStore cache || negb (hasMaxAge cache) then 0 else maxAge cache.

(** ** The directives at once *)

Definition directives (headers : list bytes) : list (bytes * option bytes) :=
  h ← headers; directive <$> Split h ","%byte.

Definition named (name : bytes) (d : bytes * option bytes) : bool := EqualFold d.1 name.

(** The age of the only "max-age", when it has a value. *)
Definition only_age (ds : list (bytes * option bytes)) : Z :=
  match filter (named #"max-age") ds with
  | [(_, Some value)] => parseDeltaSeconds value
  | _ => 0
  end.

Definition cache_of (ds : list (bytes * option bytes)) : cacheControl :=
  mkCacheControl (only_age ds) (existsb (named #"max-age") ds)
    (existsb (named #"no-cache") ds) (existsb (named #"no-store") ds).
End Cache.

(** ** The loop reads the directives *)

Section Spec.
Context `{Unquoter}.

Definition ages (ds : list (bytes * option bytes)) : list (bytes * option bytes) := filter (named #"max-age") ds.

Lemma named_no n d : EqualFold d.1 n = false → ¬ named n d.
Proof. unfold named. intros ->. by intros []. Qed.

Lemma cache_step_spec ds part :
  cache_step (cache_of ds, len (ages ds)) part =
    (cache_of (ds ++ [directive part]), len (ages (ds ++ [directive part]))).
Proof.
  unfold cache_step. destruct (directive part) as [name value] eqn:Hd.
  assert (Happ : ∀ n, existsb (named n) (ds ++ [(name, value)]) = existsb (named n) ds || EqualFold name n).
  { intros n. rewrite existsb_app. cbn. by rewrite orb_false_r. }
  unfold cache_of. rewrite !Happ. unfold only_age, ages. rewrite list.filter_app.
  destruct (EqualFold name #"no-cache") eqn:Hn.
  { pose proof (EqualFold_differ name #"no-cache" #"no-store" ltac:(by vm_compute) Hn) as ->.
    pose proof (EqualFold_differ name #"no-cache" #"max-age" ltac:(by vm_compute) Hn) as Hm. rewrite Hm.
    rewrite list.filter_cons_False, app_nil_r, !orb_false_r, orb_true_r; [done|].
    by apply named_no. }
  destruct (EqualFold name #"no-store") eqn:Hs.
  { pose proof (EqualFold_differ name #"no-store" #"max-age" ltac:(by vm_compute) Hs) as Hm. rewrite Hm.
    rewrite list.filter_cons_False, app_nil_r, !orb_false_r, orb_true_r; [done|].
    by apply named_no. }
  rewrite !orb_false_r. destruct (EqualFold name #"max-age") eqn:Hm.
  - rewrite list.filter_cons_True by (unfold named; cbn [fst]; by rewrite Hm).
    cbn [filter list_filter]. rewrite orb_true_r, len_app.
    change (len [(name, value)]) with 1. f_equal.
    destruct (filter (named #"max-age") ds) as [|d l].
    + cbn [app]. change (len [] + 1 =? 1) with true. by destruct value.
    + replace (len (d :: l) + 1 =? 1) with false by (symmetry; apply Z.eqb_neq; unfold len; simpl; lia).
      destruct d as [? []], l, value; reflexivity.
  - rewrite list.filter_cons_False, app_nil_r, orb_false_r; [done|]. by apply named_no.
Qed.

Lemma fold_cache_step parts : ∀ ds,
  fold_left cache_step parts (cache_of ds, len (ages ds)) =
    (cache_of (ds ++ (directive <$> parts)), len (ages (ds ++ (directive <$> parts)))).
Proof.
  induction parts as [|part parts IH]; intros ds; [by csimpl; rewrite app_nil_r|].
  cbn [fold_left]. rewrite fmap_cons, cache_step_spec, IH. by rewrite <- app_assoc.
Qed.

Lemma fold_headers headers : ∀ ds,
  fold_left (λ st header, fold_left cache_step (Split header ","%byte) st) headers (cache_of ds, len (ages ds)) =
    (cache_of (ds ++ directives headers), len (ages (ds ++ directives headers))).
Proof.
  induction headers as [|h headers IH]; intros ds; [by csimpl; rewrite app_nil_r|].
  cbn [fold_left]. rewrite fold_cache_step, IH. unfold directives. by rewrite bind_cons, <- app_assoc.
Qed.

Lemma parseCacheControl_all headers : parseCacheControl headers = cache_of (directives headers).
Proof. unfold parseCacheControl. change (zero_cache, 0) with (cache_of [], len (ages [])). by rewrite fold_headers. Qed.

(** The loop over the header fields reads the
    directives off them all at once: any "no-cache" and any "no-store" counts,
    whatever its value, and the age is that of the only "max-age", zero when it
    is repeated or has no value. *)
Theorem parseCacheControl_spec headers : parseCacheControl headers = cache_of (directives headers).
Proof. apply parseCacheControl_all. Qed.
End Spec.

(** ** Delta-seconds *)

Section Seconds.
Context `{Unquoter}.

Definition add_digit (acc : Z) (c : byte) : Z := 10 * acc + (bz c - 48).

Lemma digit_range c : is_digit c = true → 48 ≤ bz c ≤ 57.
Proof. unfold is_digit. intros. bool_prop. lia. Qed.

Lemma fold_digits_ge s : ∀ n, 0 ≤ n → forallb is_digit s = true → n ≤ fold_left add_digit s n.
Proof.
  induction s as [|c s IH]; intros n Hn Hd; cbn [fold_left forallb] in *; [lia|].
  bool_prop. pose proof (digit_range c ltac:(done)). unfold add_digit at 2.
  assert (Hs := IH (10 * n + (bz c - 48)) ltac:(lia) ltac:(done)). lia.
Qed.

(** The loop reads the value of any digits; past 64 bits it reports the range. *)
Lemma parse_uint_digits s : ∀ n,
  0 ≤ n ≤ maxUint64 → forallb is_digit s = true →
  parse_uint_loop n s =
    let v := fold_left add_digit s n in if maxUint64 <? v then Err ErrRange else Ok v.
Proof.
  induction s as [|c s IH]; intros n Hn Hd; cbn [parse_uint_loop fold_left forallb] in *.
  { cbn zeta. by rewrite (proj2 (Z.ltb_ge _ _)) by lia. }
  apply andb_true_iff in Hd as [Hc Hd]. rewrite Hc. cbn [negb]. apply digit_range in Hc.
  assert (Hge := fold_digits_ge s (add_digit n c) ltac:(unfold add_digit; lia) Hd).
  replace (n * 10 + (bz c - 48)) with (add_digit n c) by (unfold add_digit; lia).
  destruct (maxUint64 / 10 + 1 <=? n) eqn:E.
  { bool_prop. cbn zeta. rewrite (proj2 (Z.ltb_lt _ _)); [done|].
    change (add_digit n c) with (10 * n + (bz c - 48)) in Hge at 1. unfold maxUint64 in *. div_lia. }
  destruct (maxUint64 <? add_digit n c) eqn:E2; bool_prop.
  - cbn zeta. by rewrite (proj2 (Z.ltb_lt _ _)) by lia.
  - apply IH; [unfold add_digit in *; lia|done].
Qed.

Lemma parse_uint_nonneg s : ∀ n v, 0 ≤ n → parse_uint_loop n s = Ok v → 0 ≤ v.
Proof.
  induction s as [|c s IH]; intros n v Hn Hp; cbn [parse_uint_loop] in Hp; [by apply Ok_inj in Hp as <-|].
  destruct (is_digit c) eqn:Hc; [|done]. apply digit_range in Hc. cbn [negb] in Hp.
  destruct (_ <=? n); [done|]. destruct (maxUint64 <? _); [done|]. eapply IH; [|done]. lia.
Qed.

Lemma parseDeltaSeconds_range value : 0 ≤ parseDeltaSeconds value ≤ maxDuration.
Proof.
  unfold parseDeltaSeconds. cbn zeta. destruct (match quoted _ with Some _ => _ | None => _ end) as [v|]; [|by vm_compute].
  destruct (ParseUint v) as [secs|[]] eqn:Hv; [|by vm_compute..].
  assert (0 ≤ secs).
  { unfold ParseUint in Hv. destruct v; [done|]. by eapply parse_uint_nonneg. }
  destruct (maxDuration / second <? secs) eqn:E; bool_prop; [by vm_compute|].
  unfold maxDuration, two63, second in *. div_lia.
Qed.

(** White space starts with no digit, from either end. *)
Lemma find_space_digits runes s :
  forallb (λ p, match p with c :: _ => negb (is_digit c) | [] => false end) runes = true →
  forallb is_digit s = true → find (HasPrefix s) runes = None.
Proof.
  intros Hr Hs. destruct (find (HasPrefix s) runes) as [p|] eqn:Hf; [|done].
  apply find_some in Hf as [Hp Hf]. rewrite forallb_forall in Hr. specialize (Hr p Hp). cbn beta in Hr.
  destruct p as [|c p]; [done|]. unfold HasPrefix in Hf. bool_prop.
  destruct s as [|d s]; [done|]. cbn [length take] in Hf. simplify_eq. cbn [forallb] in Hs. bool_prop. congruence.
Qed.

Lemma trim_digits runes s n :
  forallb (λ p, match p with c :: _ => negb (is_digit c) | [] => false end) runes = true →
  forallb is_digit s = true → trim_runes n runes s = s.
Proof. intros Hr Hs. destruct n; [done|]. cbn [trim_runes]. by rewrite (find_space_digits _ _ Hr Hs). Qed.

Lemma forallb_rev {A} (f : A → bool) l : forallb f l = true → forallb f (rev l) = true.
Proof. rewrite !forallb_forall. intros Hl x Hx. apply Hl. by apply in_rev. Qed.

Lemma TrimSpace_digits s : forallb is_digit s = true → TrimSpace s = s.
Proof.
  intros Hs. unfold TrimSpace. cbn zeta. rewrite !(trim_digits space_runes s) by done.
  rewrite trim_digits; [apply rev_involutive|done|by apply forallb_rev].
Qed.

Lemma quoted_digits s : forallb is_digit s = true → quoted s = None.
Proof.
  intros Hs. unfold quoted. destruct s as [|c s]; [done|].
  rewrite (bool_decide_eq_false_2 (head (c :: s) = _)), andb_false_r; [done|].
  intros [= ->]. done.
Qed.

(** Whatever the text, the duration is that of a
    non-negative [time.Duration]; the decimal text of a number of seconds gives
    that many seconds, and the largest duration when they do not fit, for
    numbers past 64 bits too. *)
Theorem delta_seconds_saturate value (n : N) :
  0 ≤ parseDeltaSeconds value < two63 ∧
  parseDeltaSeconds (FormatInt (Z.of_N n)) =
    if maxDuration / second <? Z.of_N n then maxDuration else Z.of_N n * second.
Proof.
  split; [pose proof (parseDeltaSeconds_range value); unfold maxDuration in *; lia|].
  set (m := Z.of_N n). pose proof (FormatInt_nonneg m ltac:(lia)) as (d & Hd & Hnorm).
  pose proof (FormatInt_value m) as Hv.
  assert (Hdig : forallb is_digit (FormatInt m) = true) by (rewrite Hd; apply uint_digits).
  unfold parseDeltaSeconds. cbn zeta. rewrite TrimSpace_digits, quoted_digits by done.
  assert (Hp : ParseUint (FormatInt m) = if maxUint64 <? m then Err ErrRange else Ok m).
  { assert (Hne : FormatInt m ≠ []) by (rewrite Hd; destruct d; done).
    destruct (FormatInt m) as [|c t] eqn:Ht; [done|]. unfold ParseUint. rewrite parse_uint_digits by done.
    change (fold_left add_digit (c :: t) 0) with (dec_value (c :: t)).
    cbn [eat] in Hv. destruct (beq c "-"%byte) eqn:Hc; [|by destruct Hv as [<- _]].
    bool_prop. subst. done. }
  rewrite Hp. assert (0 ≤ m) by (unfold m; lia). clearbody m.
  destruct (maxUint64 <? m) eqn:E; bool_prop; [|done].
  by rewrite (proj2 (Z.ltb_lt _ m)) by (unfold maxUint64, maxDuration, two63, second in *; div_lia).
Qed.
End Seconds.
