(* ===== verification/Fetch.v ===== *)
(** * Fetch: the network half of keyfetch.go

    URL validation, the redirect policy, the capped GET, the JWKS download and
    OpenID discovery.  package net/url parses, prints and resolves
    ([NetURL]); what the code reads of a URL are the fields of a record.  The
    network is an argument: given the requests already sent and the next URL it
    answers with a response or an error.  A computation returns, with its
    result, the URLs it sent a request to, in order.  A deadline is the number
    of requests that are answered before it passes. *)

From S2P Require Import Prelude Errors GoLib Utf8 GoStr Json StrictJson Lenient Alg Key KeySet Dates Claims CacheControl.

(** ** URLs *)

(** The fields of [url.URL]. *)
Record url := mkURL {
  Scheme : bytes;
  Opaque_ : bytes;
  User : option bytes;
  Host : bytes;
  Path : bytes;
  ForceQuery : bool;
  RawQuery : bytes;
  Fragment : bytes }.

Class NetURL := {
  url_Parse : bytes → res url;
  url_String : url → bytes;
  url_Resolve : url → bytes → res url;        (* [u.Parse(ref)] *)
  ParseIPv6 : bytes → bool }.                 (* the text is an IPv6 address, without a zone *)

Definition LastIndexByte (s : bytes) (c : byte) : option nat :=
  match IndexByte (rev s) c with Some i => Some (length s - 1 - i)%nat | None => None end.

Definition validOptionalPort (port : bytes) : bool :=
  match port with
  | [] => true
  | c :: digits => beq c ":"%byte && forallb is_digit digits
  end.

(** [u.Hostname()]. *)
Definition strip_port (host : bytes) : bytes :=
  match LastIndexByte host ":"%byte with
  | Some colon => if validOptionalPort (drop colon host) then take colon host else host
  | None => host
  end.

Definition Hostname (u : url) : bytes :=
  let host := strip_port (Host u) in
  if HasPrefix host #"[" && HasSuffix host #"]" then take (length host - 2) (drop 1 host) else host.

(** [http.removeEmptyPort], which a new request applies to its host. *)
Definition removeEmptyPort (host : bytes) : bytes :=
  match LastIndexByte host ":"%byte, LastIndexByte host "]"%byte with
  | Some i, Some j => if (j <? i)%nat then TrimSuffix host #":" else host
  | Some _, None => TrimSuffix host #":"
  | None, _ => host
  end.

Definition set_host (u : url) (host : bytes) : url :=
  mkURL (Scheme u) (Opaque_ u) (User u) host (Path u) (ForceQuery u) (RawQuery u) (Fragment u).

(** ** IP literals *)

Definition ipv4_octet (s : bytes) : bool :=
  negb (bool_decide (s = [])) && forallb is_digit s && (dec_value s <=? 255) &&
  ((len s =? 1) || negb (bool_decide (head s = Some "0"%byte))).

Definition ParseIPv4 (s : bytes) : bool :=
  let fields := Split s "."%byte in (len fields =? 4) && forallb ipv4_octet fields.

(** [net.ParseIP(s) != nil]: the first of ".", ":" and "%" tells the family. *)
Fixpoint ip_family (s : bytes) : option byte :=
  match s with
  | c :: s => if bool_decide (c ∈ [ "."%byte; ":"%byte; "%"%byte ]) then Some c else ip_family s
  | [] => None
  end.

Definition ParseIP `{NetURL} (s : bytes) : bool :=
  match ip_family s with
  | Some x2e => ParseIPv4 s
  | Some x3a => ParseIPv6 s
  | _ => false
  end.

(** ** Validation *)

Definition URLPolicy : Type := url → err_opt.

Section Policy.
Context `{NetURL, Unicode}.

(** A nil URL is [None]. *)
Definition validateHTTPSURL (u : option url) : err_opt :=
  match u with
  | Some u =>
      if negb (EqualFold (Scheme u) #"https") || bool_decide (Host u = [])
      then Some [ErrKeyFetch; ErrMalformedKey] else None
  | None => Some [ErrKeyFetch; ErrMalformedKey]
  end.

Definition policy_error (msg : string) : err_opt := Some [ErrText msg].

Definition defaultURLPolicy : URLPolicy := λ u,
  match User u with
  | Some _ => policy_error "userinfo is not allowed"
  | None =>
      let host := ToLower (TrimSuffix (Hostname u) #".") in
      if bool_decide (host = []) then policy_error "host is empty"
      else if ParseIP (TrimSuffix host #"%") || ContainsByte host "%"%byte
      then policy_error "IP-literal hosts are not allowed"
      else if bool_decide (host = #"localhost") || HasSuffix host #".localhost" ||
              HasSuffix host #".local" || HasSuffix host #".internal" ||
              HasSuffix host #".home.arpa" || negb (ContainsByte host "."%byte)
      then policy_error "local or private-looking host is not allowed"
      else None
  end.

Definition validateURL (u : url) (policy : option URLPolicy) : err_opt :=
  match validateHTTPSURL (Some u) with
  | Some err => Some err
  | None =>
      let policy := default defaultURLPolicy policy in
      match policy u with
      | Some err => Some (wrap ErrKeyFetch err)
      | None => None
      end
  end.

(** The first policy that is not nil. *)
Fixpoint selectURLPolicy (policies : list (option URLPolicy)) : URLPolicy :=
  match policies with
  | Some policy :: _ => policy
  | None :: policies => selectURLPolicy policies
  | [] => defaultURLPolicy
  end.
End Policy.

(** ** The HTTP client *)

(** What a [CheckRedirect] function returns, when not nil. *)
Inductive redirect_stop : Type :=
  | UseLastResponse
  | StopErr (e : error).

(** [http.Client]; its transport is the network argument. *)
Record Client := mkClient {
  Timeout : Z;
  CheckRedirect : option (url → list url → option redirect_stop) }.

(** [resp.Header.Get("Location")], the "Cache-Control" fields, and the body: its
    octets, and the error that ends it when it is not EOF. *)
Record response := mkResponse {
  StatusCode : Z;
  Location : bytes;
  CacheFields : list bytes;
  Body : bytes;
  BodyErr : err_opt }.

Definition network : Type := list url → url → res response.

(** The URLs requested, and the result. *)
Definition fetched (A : Type) : Type := list url * res A.

Definition no_request {A} (r : res A) : fetched A := ([], r).

Definition then_ {A B} (m : fetched A) (k : A → res B) : fetched B := (m.1, m.2 ≫= k).

Definition maxRedirects : Z := 10.
Definition defaultFetcherTimeout : Z := 30 * second.

Definition is_redirect (code : Z) : bool := bool_decide (code ∈ [301; 302; 303; 307; 308]).

Section Client.
Context `{NetURL, Unicode}.

(** [http.Client.Do] for a GET: [via] are the requests sent before [req]. *)
Fixpoint do_loop (hops : nat) (net : network) (c : Client) (via : list url) (req : url) : fetched response :=
  match hops with
  | O => ([], Err [DeadlineExceeded])
  | S hops =>
      match net via req with
      | Err e => ([req], Err e)
      | Ok resp =>
          if negb (is_redirect (StatusCode resp)) || bool_decide (Location resp = []) then ([req], Ok resp)
          else
            match url_Resolve req (Location resp) with
            | Err e => ([req], Err e)
            | Ok next =>
                match (match CheckRedirect c with
                       | Some check => check next (via ++ [req])
                       | None => if 10 <=? len (via ++ [req]) then Some (StopErr [ErrText "stopped after 10 redirects"]) else None
                       end) with
                | Some UseLastResponse => ([req], Ok resp)
                | Some (StopErr e) => ([req], Err e)
                | None => let '(sent, r) := do_loop hops net c (via ++ [req]) next in (req :: sent, r)
                end
            end
      end
  end.

Definition client_Do (hops : nat) (net : network) (c : Client) (req : url) : fetched response :=
  do_loop hops net c [] req.

(** The closure [safeHTTPClient] installs. *)
Definition safe_check (policy : URLPolicy) (next : option (url → list url → option redirect_stop))
    (u : url) (via : list url) : option redirect_stop :=
  match validateURL u (Some policy) with
  | Some err => Some (StopErr err)
  | None =>
      match next with
      | Some next => next u via
      | None => if maxRedirects <=? len via then Some (StopErr [ErrKeyFetch]) else None
      end
  end.

Definition safeHTTPClient (c : option Client) (policies : list (option URLPolicy)) : Client :=
  let out := default (mkClient defaultFetcherTimeout None) c in
  let policy := selectURLPolicy policies in
  mkClient (Timeout out) (Some (safe_check policy (CheckRedirect out))).

(** ** The capped GET *)

(** [io.ReadAll(io.LimitReader(body, n))]. *)
Definition read_limited (resp : response) (n : Z) : res bytes :=
  if n <=? 0 then Ok []
  else if n <=? len (Body resp) then Ok (take (Z.to_nat n) (Body resp))
  else match BodyErr resp with Some e => Err e | None => Ok (Body resp) end.

(** The part of [getCapped] after the request. *)
Definition read_capped (maxBytes : Z) (resp : response) : res (bytes * list bytes) :=
  if negb (StatusCode resp =? 200) then fail ErrKeyFetch
  else
    body ← map_err (wrap ErrKeyFetch) (read_limited resp (wrap64 (maxBytes + 1)));
    if maxBytes <? len body then fail ErrKeyFetch else Ok (body, CacheFields resp).

(** [http.NewRequestWithContext]: the URL is parsed again and an empty port dropped. *)
Definition new_request (u : url) : res url :=
  u ← url_Parse (url_String u); Ok (set_host u (removeEmptyPort (Host u))).

Definition getCapped (hops : nat) (net : network) (client : Client) (uri : bytes) (maxBytes : Z)
    (policies : list (option URLPolicy)) : fetched (bytes * list bytes) :=
  match url_Parse uri with
  | Err err => no_request (Err (ErrKeyFetch :: ErrMalformedKey :: err))
  | Ok u =>
      match validateURL u (Some (selectURLPolicy policies)) with
      | Some err => no_request (Err err)
      | None =>
          match map_err (wrap ErrKeyFetch) (new_request u) with
          | Err err => no_request (Err err)
          | Ok req =>
              let '(sent, r) := client_Do hops net client req in
              (sent, resp ← map_err (wrap ErrKeyFetch) r; read_capped maxBytes resp)
          end
      end
  end.

(** ** The key set *)

End Client.

Section JWKS.
Context `{NetURL, Unicode, Unquoter, Crypto}.

(** [len(doc.Keys)] after [encoding/json.Unmarshal] without an error. *)
Definition lcount (_ : Z) (_ : bytes) (v : ljson) : option Z :=
  match v with LArr l => Some (len l) | LNull => Some 0 | _ => None end.

Definition UnmarshalCount (body : bytes) : option Z :=
  v ← lparse body; lstruct 0 (lfield lcount 0 #"keys") v.

Definition parse_jwks (maxKeys : Z) (body_header : bytes * list bytes) : res (KeySet * cacheControl) :=
  let '(body, header) := body_header in
  if match UnmarshalCount body with Some n => maxKeys <? n | None => false end then fail ErrKeyFetch
  else
    set ← map_err (wrap ErrKeyFetch) (ParseKeySet body);
    Ok (set, parseCacheControl header).

Definition fetchJWKS (hops : nat) (net : network) (client : Client) (uri : bytes) (maxBytes maxKeys : Z)
    (policy : option URLPolicy) : fetched (KeySet * cacheControl) :=
  then_ (getCapped hops net client uri maxBytes [policy]) (parse_jwks maxKeys).

(** ** Discovery *)

Definition wellKnownOpenIDConfig : bytes := #"/.well-known/openid-configuration".
Definition defaultMaxJWKSBytes : Z := Z.shiftl 1 20.

Definition dec_discovery : json → res (bytes * bytes) := dec_struct ([], []) (λ m,
  issuer ← field m #"issuer" [] dec_string;
  jwks_uri ← field m #"jwks_uri" [] dec_string;
  Ok (issuer, jwks_uri)).

Definition check_discovery (issuer : bytes) (policy : URLPolicy) (body_header : bytes * list bytes) : res bytes :=
  doc ← map_err (wrap ErrKeyFetch) (decodeObject dec_discovery (fst body_header));
  let '(doc_Issuer, doc_JWKSURI) := doc in
  if negb (bool_decide (doc_Issuer = issuer)) then fail ErrKeyFetch
  else if bool_decide (doc_JWKSURI = []) then fail ErrKeyFetch
  else
    jwksURL ← map_err (wrap ErrKeyFetch) (url_Parse doc_JWKSURI);
    check (validateURL jwksURL (Some policy)) (Ok doc_JWKSURI).

Definition DiscoverJWKSURI (hops : nat) (net : network) (issuer : bytes) (client : option Client)
    (policies : list (option URLPolicy)) : fetched bytes :=
  match url_Parse issuer with
  | Err _ => no_request (fail ErrKeyFetch)
  | Ok u =>
      if negb (bool_decide (RawQuery u = [])) || ForceQuery u || negb (bool_decide (Fragment u = []))
      then no_request (fail ErrKeyFetch)
      else
        let policy := selectURLPolicy policies in
        match validateURL u (Some policy) with
        | Some err => no_request (Err err)
        | None =>
            let discoveryURI := TrimSuffix issuer #"/" ++ wellKnownOpenIDConfig in
            then_ (getCapped hops net (safeHTTPClient client [Some policy]) discoveryURI defaultMaxJWKSBytes [Some policy])
              (check_discovery issuer policy)
        end
  end.
End JWKS.

(** ** What is requested *)

(** The rules of package net/url the code relies on: a URL that was parsed
    prints to text that parses to the same scheme, user and host, and a parsed
    host is a name, in brackets when it has a colon, and an optional port. *)
Class NetURLLaws `{NetURL} := {
  reparse s u : url_Parse s = Ok u →
    ∀ u', url_Parse (url_String u) = Ok u' → Scheme u' = Scheme u ∧ User u' = User u ∧ Host u' = Host u;
  parsed_host s u : url_Parse s = Ok u →
    ∃ name port, Host u = name ++ port ∧ validOptionalPort port = true ∧
      (":"%byte ∉ name ∨ ∃ inner, name = "["%byte :: inner ++ #"]") }.

Lemma LastIndexByte_None s c : c ∉ s → LastIndexByte s c = None.
Proof.
  intros Hc. unfold LastIndexByte. rewrite (proj2 (IndexByte_None (rev s) c)); [done|].
  intros Hin. apply Hc. apply list_elem_of_In. apply in_rev. by apply list_elem_of_In.
Qed.

Lemma LastIndexByte_app a c b : c ∉ b → LastIndexByte (a ++ c :: b) c = Some (length a).
Proof.
  intros Hc. unfold LastIndexByte. rewrite rev_app_distr. cbn [rev]. rewrite <- app_assoc. cbn [app].
  rewrite IndexByte_app.
  - rewrite length_app, length_rev. cbn [length]. f_equal. lia.
  - intros Hin. apply Hc. apply list_elem_of_In, in_rev. by apply list_elem_of_In.
Qed.

Lemma digits_no c s : forallb is_digit s = true → is_digit c = false → c ∉ s.
Proof. intros Hs Hc Hin. rewrite (forallb_elem _ _ _ Hs Hin) in Hc. done. Qed.

Lemma TrimSuffix_app s p : TrimSuffix (s ++ p) p = s.
Proof.
  unfold TrimSuffix, HasSuffix. rewrite length_app.
  replace (length s + length p - length p)%nat with (length s) by lia.
  rewrite drop_app_length, take_app_length, bool_decide_eq_true_2 by done.
  by rewrite (proj2 (Nat.leb_le _ _)) by lia.
Qed.

Lemma TrimSuffix_other s c : c ∉ s ∨ (∃ t d, s = t ++ [d] ∧ d ≠ c) → TrimSuffix s [c] = s.
Proof.
  intros Hs. unfold TrimSuffix. destruct (HasSuffix s [c]) eqn:He; [|done].
  unfold HasSuffix in He. apply andb_true_iff in He as [Hl He]. bool_prop. cbn [length] in He.
  rewrite <- (take_drop (length s - 1) s), He in Hs. destruct Hs as [Hs|(t & d & Hs & Hd)].
  - destruct Hs. apply elem_of_app. right. by left.
  - apply app_inj_tail in Hs as [_ Hs]. congruence.
Qed.

(** The two shapes of a host. *)
Definition host_name (name : bytes) : Prop :=
  ":"%byte ∉ name ∨ ∃ inner, name = "["%byte :: inner ++ #"]".

Lemma host_name_trim name : host_name name → TrimSuffix name #":" = name.
Proof.
  intros [Hn|(inner & ->)]; apply TrimSuffix_other; [by left|right].
  exists ("["%byte :: inner), "]"%byte. done.
Qed.

Lemma LastIndexByte_Some s c i :
  LastIndexByte s c = Some i → ∃ a b, s = a ++ c :: b ∧ i = length a.
Proof.
  unfold LastIndexByte. destruct (IndexByte (rev s) c) as [j|] eqn:Hj; [|done]. intros [= <-].
  apply IndexByte_Some in Hj as (a & b & Hs & _ & ->). exists (rev b), (rev a).
  assert (Hr : s = rev b ++ c :: rev a).
  { rewrite <- (rev_involutive s), Hs, rev_app_distr. cbn [rev]. by rewrite <- app_assoc. }
  split; [done|]. rewrite Hr, length_app. cbn [length]. rewrite !length_rev. lia.
Qed.

Lemma strip_port_host name port :
  host_name name → validOptionalPort port = true → strip_port (name ++ port) = name.
Proof.
  intros Hn Hp. unfold strip_port. destruct port as [|c digits]; cbn [validOptionalPort] in Hp.
  - rewrite app_nil_r. destruct Hn as [Hn|(inner & ->)]; [by rewrite LastIndexByte_None|].
    destruct (LastIndexByte _ _) as [i|] eqn:Hi; [|done].
    apply LastIndexByte_Some in Hi as (a & b & Hab & ->). rewrite Hab, drop_app_length.
    destruct (validOptionalPort _) eqn:Hv; [|done]. exfalso. cbn [validOptionalPort] in Hv. bool_prop.
    change ("["%byte :: inner ++ #"]") with (("["%byte :: inner) ++ [ "]"%byte ]) in Hab.
    destruct b as [|x b _] using rev_ind.
    + by apply app_inj_tail in Hab as [_ ?].
    + change (a ++ ":"%byte :: b ++ [x]) with (a ++ (":"%byte :: b) ++ [x]) in Hab. rewrite app_assoc in Hab.
      apply app_inj_tail in Hab as [_ <-].
      assert (Hin : "]"%byte ∈ b ++ [ "]"%byte ]) by (apply elem_of_app; right; by left).
      by apply (digits_no "]"%byte) in Hin.
  - bool_prop. subst c. rewrite LastIndexByte_app by (by eapply digits_no).
    rewrite drop_app_length, take_app_length. cbn [validOptionalPort]. rewrite beq_refl.
    by replace (forallb is_digit digits) with true.
Qed.

(** Dropping an empty port keeps the name. *)
Lemma removeEmptyPort_host name port :
  host_name name → validOptionalPort port = true →
  ∃ port', removeEmptyPort (name ++ port) = name ++ port' ∧ validOptionalPort port' = true.
Proof.
  intros Hn Hp.
  assert (Ht : ∃ port', TrimSuffix (name ++ port) #":" = name ++ port' ∧ validOptionalPort port' = true).
  { destruct port as [|c digits]; [exists []; by rewrite app_nil_r, host_name_trim|].
    pose proof Hp as Hp'. cbn [validOptionalPort] in Hp'. bool_prop. subst c.
    destruct digits as [|x digits _] using rev_ind; [exists []; by rewrite TrimSuffix_app, app_nil_r|].
    exists (":"%byte :: digits ++ [x]). split; [|done]. apply TrimSuffix_other. right.
    exists (name ++ ":"%byte :: digits), x. split; [by rewrite <- app_assoc|].
    intros ->. assert (Hin : ":"%byte ∈ digits ++ [":"%byte]) by (apply elem_of_app; right; by left).
    revert Hin. by apply digits_no. }
  unfold removeEmptyPort. destruct (LastIndexByte _ ":"%byte); [|by exists port].
  destruct (LastIndexByte _ "]"%byte); [|done]. case_match; [done|by exists port].
Qed.

(** ** The redirect loop *)

Section Requests.
Context `{NetURL, Unicode}.

(** Every request after the first was admitted by the redirect policy. *)
Lemma do_loop_admitted c check net : ∀ hops via req sent r,
  CheckRedirect c = Some check → do_loop hops net c via req = (sent, r) →
  Forall (λ u, u = req ∨ ∃ via', check u via' = None) sent.
Proof.
  induction hops as [|hops IH]; intros via req sent r Hc; cbn [do_loop]; [by intros [= <- <-]|].
  destruct (net via req) as [resp|e]; [|intros [= <- <-]; by repeat constructor].
  destruct (_ || _); [intros [= <- <-]; by repeat constructor|].
  destruct (url_Resolve req _) as [next|e]; [|intros [= <- <-]; by repeat constructor].
  rewrite Hc. destruct (check next _) as [[]|] eqn:Hn; [intros [= <- <-]; by repeat constructor..|].
  destruct (do_loop hops net c _ next) as [sent' r'] eqn:Hl. intros [= <- <-].
  apply Forall_cons_2; [by left|]. eapply list.Forall_impl; [by eapply IH|]. cbn.
  intros u [->|Hu]; right; eauto.
Qed.

Lemma safe_check_None policy next u via :
  safe_check policy next u via = None → validateURL u (Some policy) = None.
Proof. unfold safe_check. by destruct (validateURL u (Some policy)). Qed.

(** With the default limit the requests are at most ten, and a deadline past the
    tenth changes nothing. *)
Lemma do_loop_limit t policy net hops : ∀ via req sent r,
  len via < maxRedirects →
  do_loop hops net (mkClient t (Some (safe_check policy None))) via req = (sent, r) →
  len via + len sent ≤ maxRedirects ∧
  (maxRedirects ≤ len via + Z.of_nat hops →
   ∀ hops', maxRedirects ≤ len via + Z.of_nat hops' →
     do_loop hops' net (mkClient t (Some (safe_check policy None))) via req = (sent, r)).
Proof.
  induction hops as [|hops IH]; intros via req sent r Hvia; cbn [do_loop].
  { intros [= <- <-]. split; [change (len via + 0 ≤ maxRedirects); lia|]. intros. lia. }
  assert (Hone : ∀ (a : res response),
    (∀ hops', do_loop (S hops') net (mkClient t (Some (safe_check policy None))) via req = ([req], a)) →
    len via + len [req] ≤ maxRedirects ∧ (maxRedirects ≤ len via + Z.of_nat (S hops) →
     ∀ hops', maxRedirects ≤ len via + Z.of_nat hops' →
     do_loop hops' net (mkClient t (Some (safe_check policy None))) via req = ([req], a))).
  { intros a Ha. split; [change (len [req]) with 1; lia|]. intros _ [|hops'] Hh; [lia|]. apply Ha. }
  cbn [do_loop] in Hone.
  destruct (net via req) as [resp|e] eqn:Hnet; [|intros [= <- <-]; by apply Hone].
  destruct (_ || _) eqn:Hcond; [intros [= <- <-]; by apply Hone|].
  destruct (url_Resolve req _) as [next|e] eqn:Hres; [|intros [= <- <-]; by apply Hone].
  cbn [CheckRedirect] in *.
  destruct (safe_check policy None next (via ++ [req])) as [[]|] eqn:Hn; [intros [= <- <-]; by apply Hone..|].
  clear Hone. destruct (do_loop hops net _ (via ++ [req]) next) as [sent' r'] eqn:Hl. intros [= <- <-].
  assert (Hlen : len (via ++ [req]) = len via + 1) by (by rewrite len_app).
  assert (Hlt : len (via ++ [req]) < maxRedirects).
  { unfold safe_check in Hn. destruct (validateURL next _); [done|].
    destruct (maxRedirects <=? _) eqn:E; [done|]. by bool_prop. }
  destruct (IH _ _ _ _ Hlt Hl) as [Hs Hfix]. split.
  - unfold len in *. cbn [length]. lia.
  - intros Hh [|hops'] Hh'; [lia|]. cbn [do_loop].
    rewrite Hnet, Hcond, Hres. cbn [CheckRedirect]. rewrite Hn. by rewrite (Hfix ltac:(lia) hops' ltac:(lia)).
Qed.
End Requests.

(** ** The capped GET *)

Section Capped.
Context `{NetURL, Unicode}.

(** The call goes through as far as the request [req]. *)
Definition requests (uri : bytes) (policies : list (option URLPolicy)) (req : url) : Prop :=
  ∃ u, url_Parse uri = Ok u ∧ validateURL u (Some (selectURLPolicy policies)) = None ∧ new_request u = Ok req.

Lemma getCapped_cases hops net client uri maxBytes policies :
  (∃ e, getCapped hops net client uri maxBytes policies = ([], Err e) ∧ errors_Is e ErrKeyFetch = true ∧
     ∀ req, ¬ requests uri policies req) ∨
  (∃ req, requests uri policies req ∧
     getCapped hops net client uri maxBytes policies =
       ((client_Do hops net client req).1,
        resp ← map_err (wrap ErrKeyFetch) (client_Do hops net client req).2; read_capped maxBytes resp)).
Proof.
  unfold getCapped, requests. destruct (url_Parse uri) as [u|e].
  2: { left. eexists. split; [done|]. split; [apply errors_Is_wrap|]. by intros req (? & ? & _). }
  destruct (validateURL u _) as [e|] eqn:Hv.
  - left. exists e. split; [done|]. split; [|by intros req (? & [= <-] & ? & _); congruence].
    unfold validateURL in Hv. destruct (validateHTTPSURL (Some u)) eqn:Hh.
    + simplify_eq. unfold validateHTTPSURL in Hh. destruct (_ || _); [by simplify_eq|done].
    + cbv zeta in Hv. change (default ?d (Some ?p)) with p in Hv. destruct (selectURLPolicy policies u); [|done]. simplify_eq. apply errors_Is_wrap.
  - destruct (new_request u) as [req|e] eqn:Hr; cbn [map_err].
    + right. exists req. split; [by exists u|]. by destruct (client_Do hops net client req).
    + left. eexists. split; [done|]. split; [apply errors_Is_wrap|]. intros req (? & [= <-] & _ & ?). congruence.
Qed.

Lemma read_capped_err maxBytes resp e : read_capped maxBytes resp = Err e → errors_Is e ErrKeyFetch = true.
Proof.
  unfold read_capped. destruct (negb _); [by intros [= <-]|]. intros [Hr|(body & _ & Hr)]%bind_Err.
  - destruct (read_limited _ _); [done|]. injection Hr as <-. apply errors_Is_wrap.
  - destruct (_ <? _); [by injection Hr as <-|done].
Qed.

Lemma getCapped_err hops net client uri maxBytes policies sent e :
  getCapped hops net client uri maxBytes policies = (sent, Err e) → errors_Is e ErrKeyFetch = true.
Proof.
  destruct (getCapped_cases hops net client uri maxBytes policies) as [(e' & -> & He & _)|(req & _ & ->)];
    [by intros [= _ <-]|].
  intros [= _ Hr]. apply bind_Err in Hr as [Hr|(resp & _ & Hr)]; [|by eapply read_capped_err].
  destruct (client_Do _ _ _ _).2; [done|]. injection Hr as <-. apply errors_Is_wrap.
Qed.

(** A document of at most [maxBytes] octets that ended without an error. *)
Lemma read_capped_Ok maxBytes resp body header :
  0 ≤ maxBytes < two63 - 1 →
  read_capped maxBytes resp = Ok (body, header) ↔
  StatusCode resp = 200 ∧ len (Body resp) ≤ maxBytes ∧ BodyErr resp = None ∧
  body = Body resp ∧ header = CacheFields resp.
Proof.
  intros Hm. unfold read_capped.
  assert (Hw : wrap64 (maxBytes + 1) = maxBytes + 1).
  { unfold wrap64. rewrite Z.mod_small; unfold two63 in *; lia. }
  rewrite Hw. destruct (StatusCode resp =? 200) eqn:Hs; bool_prop; cbn [negb]; [|by split; [|intros []]].
  unfold read_limited. rewrite (proj2 (Z.leb_gt _ _)) by lia.
  destruct (maxBytes + 1 <=? len (Body resp)) eqn:Hl; bool_prop.
  - cbn [map_err mbind result_bind]. rewrite (proj2 (Z.ltb_lt _ _)); [split; [done|lia]|].
    unfold len in *. rewrite length_take. lia.
  - destruct (BodyErr resp) as [e|]; cbn [map_err mbind result_bind]; [split; [done|naive_solver]|].
    rewrite (proj2 (Z.ltb_ge _ _)) by lia. split; [intros [= <- <-]|intros (_ & _ & _ & -> & ->); done].
    repeat split; lia.
Qed.

(** A document as it was served. *)
Definition downloaded (hops : nat) (net : network) (client : Client) (uri : bytes) (maxBytes : Z)
    (policies : list (option URLPolicy)) (sent : list url) (body : bytes) (header : list bytes) : Prop :=
  ∃ req resp,
    requests uri policies req ∧
    client_Do hops net client req = (sent, Ok resp) ∧
    StatusCode resp = 200 ∧ len (Body resp) ≤ maxBytes ∧ BodyErr resp = None ∧
    body = Body resp ∧ header = CacheFields resp.

Lemma getCapped_Ok hops net client uri maxBytes policies sent body header :
  0 ≤ maxBytes < two63 - 1 →
  getCapped hops net client uri maxBytes policies = (sent, Ok (body, header)) ↔
  downloaded hops net client uri maxBytes policies sent body header.
Proof.
  intros Hm. destruct (getCapped_cases hops net client uri maxBytes policies) as [(e & -> & _ & Hno)|(req & Hreq & ->)].
  - split; [done|]. intros (r & resp & Hr & _). by destruct (Hno r).
  - split.
    + intros [= <- Hr]. destruct (client_Do hops net client req) as [sent [resp|e]] eqn:Hd; [|done].
      cbn in Hr. apply read_capped_Ok in Hr; [|done]. by exists req, resp.
    + intros (r & resp & Hr & Hd & Hok).
      assert (r = req) as ->.
      { destruct Hr as (u & Hu & _ & Hr), Hreq as (u' & Hu' & _ & Hreq). congruence. }
      rewrite Hd. cbn [fst snd map_err mbind result_bind]. f_equal. by apply read_capped_Ok.
Qed.
End Capped.

(** ** Theorems *)

(** A policy that reads a URL's scheme, user and host name, as the default does. *)
Definition reads_name (policy : URLPolicy) `{NetURL} : Prop :=
  ∀ u u', Scheme u = Scheme u' → User u = User u' → Hostname u = Hostname u' → policy u = policy u'.

(** What validation by such a policy says of a URL whose empty port may have
    been dropped. *)
Definition admitted `{NetURL} (policy : URLPolicy) (u : url) : Prop :=
  EqualFold (Scheme u) #"https" = true ∧ policy u = None.

Section Theorems.
Context `{NetURL, Unicode, Unquoter, Crypto}.

Lemma validateURL_admitted policy u :
  validateURL u (Some policy) = None → admitted policy u.
Proof.
  unfold validateURL, validateHTTPSURL. destruct (negb _) eqn:Hs; [done|]. bool_prop.
  cbn [orb]. destruct (bool_decide _); [done|]. cbv zeta. change (default ?d (Some ?p)) with p.
  by destruct (policy u) eqn:Hp.
Qed.

Lemma Hostname_strip u u' : strip_port (Host u) = strip_port (Host u') → Hostname u = Hostname u'.
Proof. unfold Hostname. by intros ->. Qed.

Lemma default_reads_name : reads_name defaultURLPolicy.
Proof. intros u u' _ Hu Hh. unfold defaultURLPolicy. by rewrite Hu, Hh. Qed.

Lemma requests_admitted `{!NetURLLaws} uri policies req :
  reads_name (selectURLPolicy policies) → requests uri policies req → admitted (selectURLPolicy policies) req.
Proof.
  intros Hp (u & Hu & Hv & Hr). apply validateURL_admitted in Hv as [Hs Hv].
  apply bind_Ok in Hr as (x & Hx & Hr). apply Ok_inj in Hr as <-. destruct (reparse _ _ Hu _ Hx) as (Hs' & Hu' & Hh').
  destruct (parsed_host _ _ Hu) as (name & port & Hhost & Hport & Hname).
  destruct (removeEmptyPort_host name port Hname Hport) as (port' & Hre & Hport').
  assert (Hn : Hostname (set_host x (removeEmptyPort (Host x))) = Hostname u).
  { apply Hostname_strip. cbn [Host set_host]. rewrite Hh', Hhost, Hre. by rewrite !strip_port_host. }
  split; [by cbn [Scheme set_host]; rewrite Hs'|]. rewrite <- Hv. by apply Hp.
Qed.

Lemma getCapped_admitted `{!NetURLLaws} hops net client uri maxBytes policy :
  reads_name policy →
  Forall (admitted policy) (getCapped hops net (safeHTTPClient client [Some policy]) uri maxBytes [Some policy]).1.
Proof.
  intros Hp. destruct (getCapped_cases hops net (safeHTTPClient client [Some policy]) uri maxBytes [Some policy])
    as [(e & -> & _)|(req & Hreq & ->)]; [constructor|]. cbn [fst]. unfold client_Do.
  destruct (do_loop hops net _ [] req) as [sent r] eqn:Hd. cbn [fst].
  eapply do_loop_admitted in Hd; [|done]. eapply list.Forall_impl; [exact Hd|]. cbn beta.
  intros u [->|(via & Hu)]; [by apply (requests_admitted uri [Some policy])|].
  by eapply validateURL_admitted, safe_check_None.
Qed.

(** C16: whatever the network answers, every request of a
    key download and of a discovery, first or redirected, is for an https URL
    that the policy in force accepts, the default one or one that reads the same
    parts of the URL. *)
Theorem fetch_requests_admitted `{!NetURLLaws} hops net client uri issuer maxBytes maxKeys policy :
  reads_name policy →
  Forall (admitted policy) (fetchJWKS hops net (safeHTTPClient client [Some policy]) uri maxBytes maxKeys (Some policy)).1 ∧
  Forall (admitted policy) (DiscoverJWKSURI hops net issuer client [Some policy]).1 ∧
  Forall (admitted defaultURLPolicy) (DiscoverJWKSURI hops net issuer client []).1.
Proof.
  intros Hp. split; [by apply getCapped_admitted|].
  assert (Hd : ∀ policies, reads_name (selectURLPolicy policies) →
    Forall (admitted (selectURLPolicy policies)) (DiscoverJWKSURI hops net issuer client policies).1).
  { intros policies Hr. unfold DiscoverJWKSURI. destruct (url_Parse issuer) as [u|e]; [|constructor].
    destruct (_ || _); [constructor|]. cbv zeta. destruct (validateURL u _); [constructor|].
    by apply getCapped_admitted. }
  split; [by apply (Hd [Some policy])|]. apply (Hd []), default_reads_name.
Qed.

Lemma getCapped_bounded hops net timeout uri maxBytes policies policies' :
  let client := safeHTTPClient ((λ t, mkClient t None) <$> timeout) policies in
  len (getCapped hops net client uri maxBytes policies').1 ≤ maxRedirects ∧
  (maxRedirects ≤ Z.of_nat hops → ∀ hops', maxRedirects ≤ Z.of_nat hops' →
     getCapped hops' net client uri maxBytes policies' = getCapped hops net client uri maxBytes policies').
Proof.
  intros client. assert (Hc : ∃ t, client = mkClient t (Some (safe_check (selectURLPolicy policies) None))).
  { unfold client, safeHTTPClient. destruct timeout; by eexists. }
  destruct Hc as [t ->]. unfold getCapped.
  destruct (url_Parse uri) as [u|e]; [|by split].
  destruct (validateURL u _); [by split|]. destruct (map_err _ (new_request u)) as [req|e]; [|by split].
  unfold client_Do. destruct (do_loop hops net _ [] req) as [sent r] eqn:Hd.
  apply do_loop_limit in Hd as [Hl Hfix]; [|done]. change (len []) with 0 in *. split; [cbn [fst]; lia|].
  intros Hh hops' Hh'. by rewrite (Hfix ltac:(lia) hops' ltac:(lia)).
Qed.

(** C40: with no redirect policy of the caller's, a download
    sends at most ten requests, and it ends by itself: a deadline that leaves
    time for ten answers never passes, so that the result is the one without a
    deadline. *)
Theorem redirects_bounded hops net timeout uri maxBytes maxKeys policy :
  let client := safeHTTPClient ((λ t, mkClient t None) <$> timeout) [policy] in
  len (fetchJWKS hops net client uri maxBytes maxKeys policy).1 ≤ maxRedirects ∧
  fetchJWKS (10 + hops) net client uri maxBytes maxKeys policy =
    fetchJWKS 10 net client uri maxBytes maxKeys policy.
Proof.
  intros client. destruct (getCapped_bounded hops net timeout uri maxBytes [policy] [policy]) as [Hl _].
  destruct (getCapped_bounded 10 net timeout uri maxBytes [policy] [policy]) as [_ Hfix].
  fold client in Hl, Hfix. split; [exact Hl|]. unfold fetchJWKS.
  rewrite (Hfix ltac:(unfold maxRedirects; lia) (10 + hops)%nat); [done|]. unfold maxRedirects. lia.
Qed.

(** C19: a key set is returned exactly when the document was served
    whole, with status 200 and within the size limit, by the URL the client ends
    at, it is not over the key count, and it parses; the caching rules are those
    of the response.  Every failure is an [ErrKeyFetch]. *)
Theorem fetchJWKS_spec hops net client uri maxBytes maxKeys policy sent :
  0 ≤ maxBytes < two63 - 1 →
  (∀ set cache,
    fetchJWKS hops net client uri maxBytes maxKeys policy = (sent, Ok (set, cache)) ↔
    ∃ body header,
      downloaded hops net client uri maxBytes [policy] sent body header ∧
      (∀ n, UnmarshalCount body = Some n → n ≤ maxKeys) ∧
      ParseKeySet body = Ok set ∧ cache = cache_of (directives header)) ∧
  (∀ e, fetchJWKS hops net client uri maxBytes maxKeys policy = (sent, Err e) → errors_Is e ErrKeyFetch = true).
Proof.
  intros Hm. unfold fetchJWKS, then_. split.
  - intros set cache. split.
    + intros [= <- Hr]. apply bind_Ok in Hr as ([body header] & Hg & Hr).
      exists body, header. split; [apply getCapped_Ok; [done|]; by rewrite <- Hg, <- surjective_pairing|].
      unfold parse_jwks in Hr. destruct (match UnmarshalCount body with Some _ => _ | None => _ end) eqn:Hc; [done|].
      apply bind_Ok in Hr as (s & Hs & Hr). apply map_err_Ok in Hs. simplify_eq.
      split; [|split; [done|apply parseCacheControl_all]]. intros n Hn. rewrite Hn in Hc. by bool_prop.
    + intros (body & header & Hd & Hc & Hp & ->). apply getCapped_Ok in Hd; [|done].
      rewrite Hd. cbn [fst snd mbind result_bind]. f_equal. unfold parse_jwks.
      replace (match UnmarshalCount body with Some n => maxKeys <? n | None => false end) with false.
      * rewrite Hp. cbn [map_err mbind result_bind]. by rewrite parseCacheControl_all.
      * destruct (UnmarshalCount body) as [n|]; [|done]. symmetry. apply Z.ltb_ge. auto.
  - intros e [= <- Hr]. apply bind_Err in Hr as [Hr|([body header] & _ & Hr)].
    + eapply getCapped_err. by rewrite <- Hr, <- surjective_pairing.
    + unfold parse_jwks in Hr. destruct (match UnmarshalCount body with Some _ => _ | None => _ end); [by injection Hr as <-|].
      apply bind_Err in Hr as [Hr|(? & _ & ?)]; [|done]. destruct (ParseKeySet body); [done|].
      injection Hr as <-. apply errors_Is_wrap.
Qed.

Lemma validateURL_err u policy e :
  validateURL u (Some policy) = Some e → errors_Is e ErrKeyFetch = true.
Proof.
  unfold validateURL, validateHTTPSURL. destruct (_ || _); [by intros [= <-]|]. cbv zeta.
  change (default ?d (Some ?p)) with p. destruct (policy u); [|done]. intros [= <-]. apply errors_Is_wrap.
Qed.

Lemma check_discovery_Ok issuer policy body header uri :
  check_discovery issuer policy (body, header) = Ok uri ↔
  decodeObject dec_discovery body = Ok (issuer, uri) ∧ uri ≠ [] ∧
  ∃ u, url_Parse uri = Ok u ∧ validateURL u (Some policy) = None.
Proof.
  unfold check_discovery. cbn [fst]. destruct (decodeObject dec_discovery body) as [[iss ju]|e];
    cbn [map_err mbind result_bind]; [|by split; [|intros [? _]]].
  destruct (decide (iss = issuer)) as [->|Hi].
  2: { rewrite bool_decide_eq_false_2 by done. cbn [negb]. split; [done|]. intros [[= ? ?] _]. done. }
  rewrite (bool_decide_eq_true_2 (issuer = issuer)) by done. cbn [negb]. case_bool_decide as Hj.
  { split; [done|]. intros ([= <-] & Hne & _). done. }
  split.
  - intros (u & Hu & Hr)%bind_Ok. apply map_err_Ok in Hu. apply check_Ok in Hr as [Hv [= <-]]. eauto.
  - intros ([= <-] & _ & u & -> & Hv). cbn [map_err mbind result_bind]. by rewrite Hv.
Qed.

Lemma check_discovery_err issuer policy bh e :
  check_discovery issuer policy bh = Err e → errors_Is e ErrKeyFetch = true.
Proof.
  unfold check_discovery. intros [Hr|([iss ju] & _ & Hr)]%bind_Err.
  - destruct (decodeObject _ _); [done|]. injection Hr as <-. apply errors_Is_wrap.
  - destruct (negb _); [by injection Hr as <-|]. destruct (bool_decide _); [by injection Hr as <-|].
    apply bind_Err in Hr as [Hr|(u & _ & Hr)].
    + destruct (url_Parse ju); [done|]. injection Hr as <-. apply errors_Is_wrap.
    + destruct (validateURL u _) eqn:Hv; [|done]. injection Hr as <-. by eapply validateURL_err.
Qed.

(** C20: discovery answers a URI exactly when the issuer is a
    valid https URL without query or fragment, the document is served under the
    issuer, without a final slash, and the well-known path, it names the issuer
    requested, octet for octet, and a URI that is itself valid; no other
    document, and no failure, gives a URI, and every failure is an
    [ErrKeyFetch]. *)
Theorem DiscoverJWKSURI_spec hops net issuer client policies sent :
  let policy := selectURLPolicy policies in
  (∀ uri,
    DiscoverJWKSURI hops net issuer client policies = (sent, Ok uri) ↔
    ∃ u body header ju,
      (url_Parse issuer = Ok u ∧ RawQuery u = [] ∧ ForceQuery u = false ∧ Fragment u = [] ∧
       validateURL u (Some policy) = None) ∧
      downloaded hops net (safeHTTPClient client [Some policy]) (TrimSuffix issuer #"/" ++ wellKnownOpenIDConfig)
        defaultMaxJWKSBytes [Some policy] sent body header ∧
      decodeObject dec_discovery body = Ok (issuer, uri) ∧
      uri ≠ [] ∧ url_Parse uri = Ok ju ∧ validateURL ju (Some policy) = None) ∧
  (∀ e, DiscoverJWKSURI hops net issuer client policies = (sent, Err e) → errors_Is e ErrKeyFetch = true).
Proof.
  intros policy. unfold DiscoverJWKSURI. fold policy.
  destruct (url_Parse issuer) as [u|e0] eqn:Hu.
  2: { split; [|by intros e [= _ <-]]. intros uri. split; [done|]. by intros (u & ? & ? & ? & (? & _) & _). }
  destruct (_ || _) eqn:Hq.
  { split; [|by intros e [= _ <-]]. intros uri. split; [done|].
    intros (u' & ? & ? & ? & ([= <-] & Hr & Hf & Hg & _) & _). by rewrite Hr, Hf, Hg in Hq. }
  bool_prop. cbv zeta. destruct (validateURL u (Some policy)) as [e0|] eqn:Hv.
  { split; [|intros e [= _ <-]; by eapply validateURL_err]. intros uri. split; [done|].
    intros (u' & ? & ? & ? & ([= <-] & _ & _ & _ & ?) & _). congruence. }
  unfold then_. set (m := getCapped _ _ _ _ _ _). split.
  - intros uri. split.
    + intros [= <- Hr]. apply bind_Ok in Hr as ([body header] & Hg & Hr).
      apply check_discovery_Ok in Hr as (Hd & Hne & ju & Hj & Hjv). exists u, body, header, ju.
      repeat (split; [done|]). split; [|done]. 
      apply getCapped_Ok; [done|]. fold m. by rewrite <- Hg, <- surjective_pairing.
    + intros (u' & body & header & ju & _ & Hd & Hdec & Hne & Hj & Hjv).
      apply getCapped_Ok in Hd; [|done]. fold m in Hd. rewrite Hd. cbn [fst snd mbind result_bind]. f_equal.
      apply check_discovery_Ok. eauto.
  - intros e [= _ Hr]. apply bind_Err in Hr as [Hr|(bh & _ & Hr)]; [|by eapply check_discovery_err].
    eapply getCapped_err. fold m. by rewrite <- Hr, <- surjective_pairing.
Qed.
End Theorems.

(** ** Two boundary cases *)

Section Boundaries.
Context `{NetURL, Unicode}.

(** The largest size limit reads nothing: the limit plus one wraps around, so
    that a fetcher configured with it sees an empty document every time. *)
Lemma largest_limit_reads_nothing resp :
  StatusCode resp = 200 → read_capped (two63 - 1) resp = Ok ([], CacheFields resp).
Proof. intros Hs. unfold read_capped. by rewrite Hs. Qed.

(** *** Dotted quads *)

Lemma Split_chars s sep : ∀ c, c ∈ s → c = sep ∨ ∃ f, f ∈ Split s sep ∧ c ∈ f.
Proof.
  induction s as [|x s IH]; intros c; [by intros ?%elem_of_nil|]. cbn [Split].
  destruct (beq x sep) eqn:E.
  - apply beq_true in E as ->. intros [->|Hc]%elem_of_cons; [by left|]. destruct (IH c Hc) as [|(f & Hf & Hcf)]; [by left|].
    right. exists f. split; [by right|done].
  - destruct (Split s sep) as [|p ps] eqn:Hs; [by apply Split_nonempty in Hs|]. intros [->|Hc]%elem_of_cons.
    + right. exists (x :: p). split; by left.
    + destruct (IH c Hc) as [|(f & [->|Hf]%elem_of_cons & Hcf)]; [by left| |]; right;
        [exists (x :: p); split; [by left|by right]|exists f; split; [by right|done]].
Qed.

Lemma ipv4_chars s : ParseIPv4 s = true → ∀ c, c ∈ s → is_digit c || beq c "."%byte = true.
Proof.
  unfold ParseIPv4. cbv zeta. intros [_ Hf]%andb_true_iff c Hc.
  destruct (Split_chars s "."%byte c Hc) as [->|(f & Hin & Hcf)]; [by rewrite orb_true_r|].
  pose proof (forallb_elem _ _ _ Hf Hin) as Ho. unfold ipv4_octet in Ho.
  rewrite !andb_true_iff in Ho. destruct Ho as [[[_ Hd] _] _]. by rewrite (forallb_elem _ _ _ Hd Hcf).
Qed.

Lemma Split_snoc s sep : Split (s ++ [sep]) sep = Split s sep ++ [ [] ].
Proof.
  induction s as [|c s IH]; cbn [app Split]; [by rewrite beq_refl|]. rewrite IH. destruct (beq c sep); [done|].
  destruct (Split s sep) as [|p ps] eqn:Hs; [by apply Split_nonempty in Hs|done].
Qed.

(** The last character is a digit. *)
Lemma ipv4_last s : ParseIPv4 s = true → ∃ t d, s = t ++ [d] ∧ is_digit d = true.
Proof.
  intros Hp. pose proof (ipv4_chars s Hp) as Hc. destruct s as [|d s _] using rev_ind; [done|].
  exists s, d. split; [done|]. assert (Hd : is_digit d || beq d "."%byte = true).
  { apply Hc, elem_of_app. right. by left. }
  apply orb_true_iff in Hd as [|Hd%beq_true]; [done|]. subst d. exfalso.
  unfold ParseIPv4 in Hp. cbv zeta in Hp. apply andb_true_iff in Hp as [_ Hf].
  rewrite Split_snoc, forallb_app in Hf. by apply andb_true_iff in Hf as [_ ?].
Qed.

Lemma ipv4_lower s : ParseIPv4 s = true → ToLower s = s.
Proof.
  intros Hp. pose proof (ipv4_chars s Hp) as Hc. clear Hp. unfold ToLower.
  assert (Hl : ∀ c, is_digit c || beq c "."%byte = true → bz c <? 128 = true ∧ lower_ascii c = c).
  { intros c [Hd|Hd%beq_true]%orb_true_iff; [|by subst].
    unfold is_digit in Hd. apply andb_true_iff in Hd as [Hlo%Z.leb_le Hhi%Z.leb_le].
    split; [apply Z.ltb_lt; lia|]. unfold lower_ascii, is_upper. by rewrite (proj2 (Z.leb_gt 65 (bz c))) by lia. }
  replace (is_ascii s) with true.
  - induction s as [|c s IH]; [done|]. cbn [map]. rewrite (proj2 (Hl c (Hc c (list_elem_of_here _ _)))). f_equal.
    apply IH. intros d Hd. apply Hc. by right.
  - symmetry. apply forallb_forall. intros c Hin%list_elem_of_In. by apply Hl, Hc.
Qed.

Lemma ipv4_family s : ParseIPv4 s = true → ip_family s = Some "."%byte.
Proof.
  intros Hp. pose proof (ipv4_chars s Hp) as Hc. assert (Hdot : "."%byte ∈ s).
  { destruct (decide ("."%byte ∈ s)) as [|Hn]; [done|]. exfalso.
    unfold ParseIPv4 in Hp. cbv zeta in Hp. by rewrite Split_plain in Hp. }
  clear Hp. induction s as [|c s IH]; [by apply elem_of_nil in Hdot|]. cbn [ip_family].
  pose proof (Hc c (list_elem_of_here _ _)) as Hd. apply orb_true_iff in Hd as [Hd|Hd%beq_true]; [|by subst].
  rewrite bool_decide_eq_false_2.
  - apply IH; [intros d Hin; apply Hc; by right|]. apply elem_of_cons in Hdot as [<-|?]; [done|done].
  - intros Hin. rewrite !elem_of_cons in Hin. destruct Hin as [->|[->|[->|?%elem_of_nil]]]; done.
Qed.

(** The default policy refuses every IPv4 address in dotted quads, with or without
    the final dot of a full domain name. *)
Lemma dotted_quad_refused u s :
  ParseIPv4 s = true → Hostname u = s ∨ Hostname u = s ++ #"." → defaultURLPolicy u ≠ None.
Proof.
  intros Hp Hu. destruct (ipv4_last s Hp) as (t & d & Hs & Hd).
  assert (Htrim : ∀ c, is_digit c = false → TrimSuffix s [c] = s).
  { intros c Hc. apply TrimSuffix_other. right. exists t, d. split; [done|]. intros ->. congruence. }
  assert (Hh : TrimSuffix (Hostname u) #"." = s).
  { destruct Hu as [->| ->]; [by apply Htrim|apply TrimSuffix_app]. }
  unfold defaultURLPolicy. destruct (User u); [done|]. cbv zeta. rewrite Hh, ipv4_lower by done.
  destruct (bool_decide (s = [])); [done|]. rewrite (Htrim "%"%byte eq_refl : TrimSuffix s #"%" = s). unfold ParseIP.
  by rewrite (ipv4_family s Hp), Hp.
Qed.

(** It admits the shorter forms of an IPv4 address, which the C library's resolver
    takes for addresses: 127.1 is 127.0.0.1. *)
Lemma short_ipv4_admitted : defaultURLPolicy (mkURL #"https" [] None #"127.1" #"/jwks.json" false [] []) = None.
Proof. by vm_compute. Qed.

(** The key count is that of the last member whose name is "keys" up to case,
    while the parser reads the member named exactly so. *)
Example key_count_by_another_case :
  UnmarshalCount #'"{'keys':[{},{},{}],'KEYS':[]}" = Some 0 ∧
  decodeObject (dec_keys_doc #'"{'keys':[{},{},{}],'KEYS':[]}") #'"{'keys':[{},{},{}],'KEYS':[]}" =
    Ok (Some [ #"{}"; #"{}"; #"{}" ]).
Proof. by vm_compute. Qed.
End Boundaries.
