(* ===== verification/Fetcher.v ===== *)
(** * Fetcher: the state machine of KeyFetcher (keyfetch.go)

    The methods of a KeyFetcher run in goroutines that share the fields behind
    [f.mu] and meet on the [done] channel of a flight.  A state holds the fields,
    the flights started so far (in order, so that a flight is its number) and
    the calls under way; [step] performs one section under the lock, one channel
    operation, one cancellation, one timer or the passing of time.  The fetcher's
    clock ([f.now]) is an argument of each section and may return anything; so
    may the network, which may also never answer.  Timers run on the clock of
    the run time, which is part of the state and only moves forward. *)

From S2P Require Import Prelude Errors GoLib Utf8 GoStr Json Alg StrictJson Key KeySet Dates Claims Revoke CacheControl Fetch.

(** ** Time *)

Definition saturate (d : Z) : Z := Z.max (- two63) (Z.min maxDuration d).

(** [t.Sub(u)]. *)
Definition Sub (t u : Time) : Z := saturate (t - u).

Definition cacheAge (now fetchedAt : Time) : Z := let age := Sub now fetchedAt in if age <? 0 then 0 else age.

Definition defaultMaxKeyCount : Z := 100.
Definition defaultMinRefresh : Z := 60 * second.
Definition defaultMaxCacheDuration : Z := 24 * 3600 * second.
Definition defaultMaxStaleDuration : Z := 24 * 3600 * second.

(** ** Configuration *)

(** The fields of a KeyFetcher that are set once. *)
Record KeyFetcher := mkKeyFetcher {
  kf_uri : bytes;
  kf_client : option Client;
  kf_urlPolicy : URLPolicy;
  kf_minRefresh : Z;
  kf_maxBytes : Z;
  kf_maxKeys : Z;
  kf_maxCache : Z;
  kf_maxStale : Z }.

(** A nil client or policy is [None]. *)
Inductive FetcherOption : Type :=
  | WithHTTPClient (c : option Client)
  | WithURLPolicy (policy : option URLPolicy)
  | WithMinRefreshInterval (d : Z)
  | WithMaxResponseBytes (n : Z)
  | WithMaxKeyCount (n : Z)
  | WithMaxCacheDuration (d : Z)
  | WithMaxStaleDuration (d : Z).

Definition applyFetcher (o : FetcherOption) (f : KeyFetcher) : KeyFetcher :=
  let 'mkKeyFetcher uri client policy minRefresh maxBytes maxKeys maxCache maxStale := f in
  match o with
  | WithHTTPClient c =>
      mkKeyFetcher uri (match c with Some c => Some c | None => client end) policy minRefresh maxBytes maxKeys maxCache maxStale
  | WithURLPolicy p => mkKeyFetcher uri client (default policy p) minRefresh maxBytes maxKeys maxCache maxStale
  | WithMinRefreshInterval d =>
      mkKeyFetcher uri client policy (if 0 <? d then d else minRefresh) maxBytes maxKeys maxCache maxStale
  | WithMaxResponseBytes n =>
      mkKeyFetcher uri client policy minRefresh (if 0 <? n then n else maxBytes) maxKeys maxCache maxStale
  | WithMaxKeyCount n =>
      mkKeyFetcher uri client policy minRefresh maxBytes (if 0 <? n then n else maxKeys) maxCache maxStale
  | WithMaxCacheDuration d =>
      mkKeyFetcher uri client policy minRefresh maxBytes maxKeys (if 0 <? d then d else maxCache) maxStale
  | WithMaxStaleDuration d =>
      mkKeyFetcher uri client policy minRefresh maxBytes maxKeys maxCache (if 0 <=? d then d else maxStale)
  end.

Definition NewKeyFetcher `{NetURL, Unicode} (uri : bytes) (opts : list (option FetcherOption)) : KeyFetcher :=
  let f := fold_left (λ f o, match o with Some o => applyFetcher o f | None => f end) opts
    (mkKeyFetcher uri None defaultURLPolicy defaultMinRefresh defaultMaxJWKSBytes defaultMaxKeyCount
       defaultMaxCacheDuration defaultMaxStaleDuration) in
  mkKeyFetcher (kf_uri f) (Some (safeHTTPClient (kf_client f) [Some (kf_urlPolicy f)])) (kf_urlPolicy f)
    (kf_minRefresh f) (kf_maxBytes f) (kf_maxKeys f) (kf_maxCache f) (kf_maxStale f).

(** ** Contexts and timeouts *)

(** A context, known by when its deadline ends it on the clock of the run time.
    One that ends for another reason is a cancellation of the call. *)
Definition context : Type := option Z.

Definition WithoutCancel (ctx : context) : context := None.

(** [context.WithTimeout] at the time [mono]. *)
Definition WithTimeout (ctx : context) (mono timeout : Z) : context :=
  Some (match ctx with Some t => Z.min t (mono + timeout) | None => mono + timeout end).

(** [f.client.Timeout]; NewKeyFetcher always sets the client. *)
Definition client_timeout (f : KeyFetcher) : Z := match kf_client f with Some c => Timeout c | None => 0 end.

(** ** State *)

(** A flight: its goroutine is running, has written the outcome and released the
    lock, or has closed [done].  The start and the fetched document's expiry data
    are recorded for the theorems; no operation reads them.  The request starts
    on the clock of the run time and is bounded by its context. *)
Inductive phase : Type := Running | Written | Closed.

Record fetchFlight := mkFlight {
  fl_phase : phase;
  fl_set : option KeySet;
  fl_err : err_opt;
  fl_started : Time;
  fl_forced : bool;                           (* started by Refresh *)
  fl_stored : option (Time * Z);              (* when it was retained, and for how long it is fresh *)
  fl_begun : Z;
  fl_ctx : context }.                         (* fetchCtx *)

(** A call: waiting for a flight, woken by a failed one, or returned.  The time
    is that of the section that took the answer from the retained document. *)
Inductive call_state : Type :=
  | LookupWaits (kid : bytes) (fl : nat)
  | LookupFallsBack (kid : bytes) (fl : nat)
  | LookupReturned (kid : bytes) (answer : res (option Key)) (cached : option Time) (fl : option nat)
  | RefreshWaits (fl : nat)
  | RefreshReturned (answer : err_opt).

Record state := mkState {
  f_set : option KeySet;
  f_fetchedAt : Time;
  f_freshFor : Z;
  f_lastAttempt : Time;
  f_lastErr : err_opt;
  f_inflight : option nat;
  flights : list fetchFlight;
  calls_ : list call_state;
  mono : Z }.                                 (* the clock of the run time *)

Definition initial : state := mkState None zero_time 0 zero_time None None [] [] 0.

Definition set_calls (st : state) (cs : list call_state) : state :=
  mkState (f_set st) (f_fetchedAt st) (f_freshFor st) (f_lastAttempt st) (f_lastErr st) (f_inflight st) (flights st) cs (mono st).

Definition set_flights (st : state) (fs : list fetchFlight) : state :=
  mkState (f_set st) (f_fetchedAt st) (f_freshFor st) (f_lastAttempt st) (f_lastErr st) (f_inflight st) fs (calls_ st) (mono st).

Definition set_mono (st : state) (t : Z) : state :=
  mkState (f_set st) (f_fetchedAt st) (f_freshFor st) (f_lastAttempt st) (f_lastErr st) (f_inflight st) (flights st) (calls_ st) t.

(** The flight with another outcome or phase. *)
Definition finish (fl : fetchFlight) (p : phase) (set : option KeySet) (err : err_opt) (stored : option (Time * Z)) :
    fetchFlight :=
  mkFlight p set err (fl_started fl) (fl_forced fl) stored (fl_begun fl) (fl_ctx fl).

(** ** Sections of the methods *)

Definition staleAt (st : state) (now : Time) : bool := f_freshFor st <=? cacheAge now (f_fetchedAt st).

Definition mayAttemptAt (f : KeyFetcher) (st : state) (now : Time) : bool :=
  IsZero (f_lastAttempt st) || (kf_minRefresh f <=? Sub now (f_lastAttempt st)).

Definition fallbackLocked (f : KeyFetcher) (st : state) (now : Time) (fetchErr : err_opt) : option KeySet * err_opt :=
  match f_set st with
  | None => (None, fetchErr)
  | Some set =>
      let age := cacheAge now (f_fetchedAt st) in
      if (age <? f_freshFor st) || (wrap64 (age - f_freshFor st) <? kf_maxStale f) then (Some set, fetchErr)
      else (None, match fetchErr with None => Some [ErrKeyFetch] | Some e => Some e end)
  end.

Definition lookupOrErr (set : option KeySet) (kid : bytes) (err : err_opt) : res (option Key) :=
  let miss := match err with Some e => Err e | None => Ok None end in
  match set with
  | Some set => match lookup set kid with Some k => Ok (Some k) | None => miss end
  | None => miss
  end.

(** Joins the flight under way or starts one; the flight the caller waits for. *)
Definition startFlightLocked (f : KeyFetcher) (st : state) (ctx : context) (now : Time) (forced : bool) : state * nat :=
  match f_inflight st with
  | Some fl => (st, fl)
  | None =>
      let fl := length (flights st) in
      let fetchCtx := WithoutCancel ctx in
      let fetchCtx :=
        if client_timeout f <=? 0 then WithTimeout fetchCtx (mono st) defaultFetcherTimeout else fetchCtx in
      (mkState (f_set st) (f_fetchedAt st) (f_freshFor st) now (f_lastErr st) (Some fl)
         (flights st ++ [mkFlight Running None None now forced None (mono st) fetchCtx]) (calls_ st) (mono st), fl)
  end.

(** The request of a flight is cut off: by the end of its context, or by the
    timeout of an [http.Client] that has one, counted from its start. *)
Definition cut_off (f : KeyFetcher) (fl : fetchFlight) (t : Z) : bool :=
  match fl_ctx fl with Some e => e <=? t | None => false end ||
  (0 <? client_timeout f) && (fl_begun fl + client_timeout f <=? t).

(** The first section of [Lookup]: the state, and the state of the call. *)
Definition Lookup_begin (f : KeyFetcher) (st : state) (kid : bytes) (ctx : context) (now : Time) : state * call_state :=
  match match f_set st with
        | Some set => match lookup set kid with Some k => if negb (staleAt st now) then Some k else None | None => None end
        | None => None
        end with
  | Some k => (st, LookupReturned kid (Ok (Some k)) (Some now) None)
  | None =>
      if bool_decide (f_inflight st = None) && negb (mayAttemptAt f st now) then
        let '(set, lastErr) := fallbackLocked f st now (f_lastErr st) in
        (st, LookupReturned kid (lookupOrErr set kid lastErr) (Some now) None)
      else
        let '(st, fl) := startFlightLocked f st ctx now false in (st, LookupWaits kid fl)
  end.

(** [freshFor] of a document whose response says [cache]. *)
Definition fresh_for (f : KeyFetcher) (cache : cacheControl) : Z :=
  let fresh := if hasMaxAge cache then Z.min (maxAge cache) (kf_maxCache f) else kf_minRefresh f in
  if noCache cache then 0 else fresh.

(** The section of the fetching goroutine, with the outcome of [fetchJWKS]; [now]
    is when it reads the clock. *)
Definition complete (f : KeyFetcher) (st : state) (n : nat) (fl : fetchFlight) (now : Time)
    (outcome : res (KeySet * cacheControl)) : state :=
  let put set err stored :=
    <[n := finish fl Written set err stored]> (flights st) in
  match outcome with
  | Err e =>
      mkState (f_set st) (f_fetchedAt st) (f_freshFor st) (f_lastAttempt st) (Some e) None
        (put None (Some e) None) (calls_ st) (mono st)
  | Ok (set, cache) =>
      if noStore cache then
        mkState None zero_time 0 (f_lastAttempt st) None None (put (Some set) None None) (calls_ st) (mono st)
      else
        let fresh := fresh_for f cache in
        mkState (Some set) now fresh (f_lastAttempt st) None None (put (Some set) None (Some (now, fresh))) (calls_ st) (mono st)
  end.

(** ** Steps *)

Inductive action : Type :=
  | ActLookup (kid : bytes) (ctx : context) (now : Time)
  | ActRefresh (ctx : context) (now : Time)
  | ActTick (d : Z)                          (* time passes *)
  | ActComplete (fl : nat) (now : Time) (hops : nat) (net : network)   (* the network has answered *)
  | ActDeadline (fl : nat) (now : Time)      (* it has not, and the request is cut off *)
  | ActClose (fl : nat)
  | ActWake (call : nat)
  | ActCancel (call : nat) (e : cause)       (* the caller's context ended with [e] *)
  | ActFallback (call : nat) (now : Time).

(** A call that goes on. *)
Definition wake (c : call_state) (fs : list fetchFlight) : option call_state :=
  match c with
  | LookupWaits kid n =>
      fl ← fs !! n;
      match fl_phase fl with
      | Closed =>
          match fl_err fl with
          | None => Some (LookupReturned kid (lookupOrErr (fl_set fl) kid None) None (Some n))
          | Some _ => Some (LookupFallsBack kid n)
          end
      | _ => None
      end
  | RefreshWaits n =>
      fl ← fs !! n;
      match fl_phase fl with Closed => Some (RefreshReturned (fl_err fl)) | _ => None end
  | _ => None
  end.

Definition cancel (c : call_state) (e : cause) : option call_state :=
  match c with
  | LookupWaits kid n => Some (LookupReturned kid (Err [e]) None None)
  | RefreshWaits n => Some (RefreshReturned (Some [e]))
  | _ => None
  end.

Definition fall_back (f : KeyFetcher) (st : state) (c : call_state) (now : Time) : option call_state :=
  match c with
  | LookupFallsBack kid n =>
      fl ← flights st !! n;
      let '(set, err) := fallbackLocked f st now (fl_err fl) in
      Some (LookupReturned kid (lookupOrErr set kid err) (Some now) None)
  | _ => None
  end.

Section Machine.
Context `{NetURL, Unicode, Unquoter, Crypto}.
Variable f : KeyFetcher.

(** What a flight's goroutine fetches. *)
Definition download (hops : nat) (net : network) : fetched (KeySet * cacheControl) :=
  match kf_client f with
  | Some client => fetchJWKS hops net client (kf_uri f) (kf_maxBytes f) (kf_maxKeys f) (Some (kf_urlPolicy f))
  | None => no_request (fail Panicked)
  end.

(** [hops] exchanges are all the download takes: with one more it would not
    make another request. *)
Definition answered (hops : nat) (net : network) : bool :=
  (length (download hops net).1 =? length (download (S hops) net).1)%nat.

(** What [fetchJWKS] returns when its request is cut off. *)
Definition deadline_error : res (KeySet * cacheControl) := Err (wrap ErrKeyFetch [DeadlineExceeded]).

Definition step (a : action) (st : state) : option state :=
  match a with
  | ActLookup kid ctx now =>
      let '(st, c) := Lookup_begin f st kid ctx now in Some (set_calls st (calls_ st ++ [c]))
  | ActRefresh ctx now =>
      let '(st, fl) := startFlightLocked f st ctx now true in Some (set_calls st (calls_ st ++ [RefreshWaits fl]))
  | ActTick d => if 0 <? d then Some (set_mono st (mono st + d)) else None
  | ActComplete n now hops net =>
      fl ← flights st !! n;
      match fl_phase fl with
      | Running => if answered hops net then Some (complete f st n fl now (download hops net).2) else None
      | _ => None
      end
  | ActDeadline n now =>
      fl ← flights st !! n;
      match fl_phase fl with
      | Running => if cut_off f fl (mono st) then Some (complete f st n fl now deadline_error) else None
      | _ => None
      end
  | ActClose n =>
      fl ← flights st !! n;
      match fl_phase fl with
      | Written =>
          Some (set_flights st (<[n := finish fl Closed (fl_set fl) (fl_err fl) (fl_stored fl)]> (flights st)))
      | _ => None
      end
  | ActWake i => c ← calls_ st !! i; c ← wake c (flights st); Some (set_calls st (<[i := c]> (calls_ st)))
  | ActCancel i e => c ← calls_ st !! i; c ← cancel c e; Some (set_calls st (<[i := c]> (calls_ st)))
  | ActFallback i now => c ← calls_ st !! i; c ← fall_back f st c now; Some (set_calls st (<[i := c]> (calls_ st)))
  end.

Fixpoint run_actions (acts : list action) (st : state) : option state :=
  match acts with
  | [] => Some st
  | a :: acts => st ← step a st; run_actions acts st
  end.

Inductive reachable : state → Prop :=
  | reach_initial : reachable initial
  | reach_step a st st' : reachable st → step a st = Some st' → reachable st'.
End Machine.

(** ** Downloads that are answered *)

Section Answered.
Context `{NetURL, Unicode, Unquoter, Crypto}.

(** A [Do] to which one more exchange would add no request has its result. *)
Lemma do_loop_answered c net hops : ∀ via req,
  length (do_loop hops net c via req).1 = length (do_loop (S hops) net c via req).1 →
  ∀ k, do_loop (hops + k) net c via req = do_loop hops net c via req.
Proof.
  induction hops as [|hops IH]; intros via req.
  { cbn [do_loop]. repeat (case_match; try done). }
  intros Hl k. specialize (IH (via ++ [req])). revert Hl. cbn [Nat.add].
  change (do_loop (S (S hops)) net c via req) with
    (match net via req with
     | Err e => ([req], Err e)
     | Ok resp =>
         if negb (is_redirect (StatusCode resp)) || bool_decide (Location resp = []) then ([req], Ok resp)
         else
           match url_Resolve req (Location resp) with
           | Err e => ([req], Err e)
           | Ok next =>
               match (match CheckRedirect c with
                      | Some check => check next (via ++ [req])
                      | None => if 10 <=? len (via ++ [req]) then Some (StopErr [ErrText "stopped after 10 redirects"]) else None
                      end) with
               | Some UseLastResponse => ([req], Ok resp)
               | Some (StopErr e) => ([req], Err e)
               | None => let '(sent, r) := do_loop (S hops) net c (via ++ [req]) next in (req :: sent, r)
               end
           end
     end).
  cbn [do_loop]. destruct (net via req) as [resp|e]; [|done].
  destruct (_ || _); [done|]. destruct (url_Resolve req (Location resp)) as [next|e]; [|done].
  destruct (match CheckRedirect c with Some _ => _ | None => _ end) as [[]|]; [done..|].
  intros Hl. specialize (IH next). rewrite IH; [done|].
  revert Hl. cbn [do_loop]. destruct (do_loop hops net c _ next), (match net _ next with Ok _ => _ | Err _ => _ end).
  cbn [fst length]. lia.
Qed.

(** So has a download that was answered: the number of exchanges it was given
    takes no part in it. *)
Lemma download_answered f hops net k :
  answered f hops net = true → download f (hops + k) net = download f hops net.
Proof.
  unfold answered, download. destruct (kf_client f) as [c|]; [|done].
  unfold fetchJWKS, then_, getCapped. destruct (url_Parse (kf_uri f)) as [u|]; [|done].
  destruct (validateURL u _); [done|]. destruct (map_err _ (new_request u)) as [req|]; [|done].
  unfold client_Do. rewrite Nat.eqb_eq. intros Hl.
  pose proof (do_loop_answered c net hops [] req) as Ha.
  rewrite Ha; [done|]. revert Hl. by destruct (do_loop hops net c [] req), (do_loop (S hops) net c [] req).
Qed.
End Answered.

(** ** Well-formed configurations *)

Record fetcher_ok (f : KeyFetcher) : Prop := {
  ok_minRefresh : 0 < kf_minRefresh f ≤ maxDuration;
  ok_maxBytes : 0 < kf_maxBytes f < two63;
  ok_maxKeys : 0 < kf_maxKeys f;
  ok_maxCache : 0 < kf_maxCache f ≤ maxDuration;
  ok_maxStale : 0 ≤ kf_maxStale f ≤ maxDuration }.

(** The numbers are of the width of their types. *)
Definition option_typed (o : FetcherOption) : Prop :=
  match o with
  | WithMinRefreshInterval d | WithMaxCacheDuration d | WithMaxStaleDuration d => d ≤ maxDuration
  | WithMaxResponseBytes n => n < two63
  | _ => True
  end.

Lemma applyFetcher_ok o f : option_typed o → fetcher_ok f → fetcher_ok (applyFetcher o f).
Proof.
  intros Ho [? ? ? ? ?]. destruct f, o; split; cbn in *; try done;
    match goal with |- context [if ?b then _ else _] => destruct b eqn:? end; bool_prop; lia.
Qed.

(** Whatever the options, in any order, a new fetcher's limits
    and intervals are positive, the stale window is not negative, all are within
    their integer types, and its client checks every redirect against the policy
    in force. *)
Theorem NewKeyFetcher_ok `{NetURL, Unicode} uri opts :
  Forall (λ o, match o with Some o => option_typed o | None => True end) opts →
  fetcher_ok (NewKeyFetcher uri opts) ∧ kf_uri (NewKeyFetcher uri opts) = uri ∧
  ∃ client, kf_client (NewKeyFetcher uri opts) =
    Some (safeHTTPClient client [Some (kf_urlPolicy (NewKeyFetcher uri opts))]).
Proof.
  intros Hopts. unfold NewKeyFetcher. set (f0 := mkKeyFetcher uri _ _ _ _ _ _ _).
  assert (Hf : fetcher_ok f0 ∧ kf_uri f0 = uri) by (split; [by split; vm_compute|done]).
  revert Hf. generalize f0. clear f0. induction Hopts as [|o opts Ho _ IH]; intros f0 [Hf Hu]; cbn [fold_left].
  - split; [by destruct Hf; split|]. split; [done|]. by eexists.
  - apply IH. destruct o as [o|]; [|done]. split; [by apply applyFetcher_ok|]. by destruct f0, o.
Qed.

(** ** The invariant *)

Section Invariant.
Context `{NetURL, Unicode, Unquoter, Crypto}.
Variable f : KeyFetcher.

(** A flight that has its document: it is the outcome of some fetch. *)
Definition genuine (fl : fetchFlight) : Prop :=
  match fl_set fl with
  | Some s =>
      fl_phase fl ≠ Running ∧ fl_err fl = None ∧
      ∃ hops net cache, (download f hops net).2 = Ok (s, cache) ∧
        match fl_stored fl with
        | Some (_, fresh) => noStore cache = false ∧ fresh = fresh_for f cache
        | None => noStore cache = true
        end
  | None => fl_stored fl = None
  end.

(** Key [k] is that of [kid] in the document of flight [n]. *)
Definition has_key (fs : list fetchFlight) (n : nat) (kid : bytes) (k : Key) (fl : fetchFlight) : Prop :=
  fs !! n = Some fl ∧ fl_phase fl ≠ Running ∧ ∃ s, fl_set fl = Some s ∧ lookup s kid = Some k.

(** Where a returned key comes from: the flight that was waited for, or a
    retained document in its freshness and stale windows. *)
Definition provenance (fs : list fetchFlight) (kid : bytes) (k : Key) (cached : option Time) (via : option nat) : Prop :=
  match cached, via with
  | Some t, _ =>
      ∃ n fl at_ fresh, has_key fs n kid k fl ∧ fl_stored fl = Some (at_, fresh) ∧
        (cacheAge t at_ < fresh ∨ cacheAge t at_ - fresh < kf_maxStale f)
  | None, Some n => ∃ fl, has_key fs n kid k fl
  | None, None => False
  end.

Definition call_ok (fs : list fetchFlight) (c : call_state) : Prop :=
  match c with
  | LookupWaits _ n | RefreshWaits n => is_Some (fs !! n)
  | LookupFallsBack _ n => is_Some (fs !! n)
  | LookupReturned kid (Ok (Some k)) cached via => provenance fs kid k cached via
  | _ => True
  end.

Record inv (st : state) : Prop := {
  inv_running n fl : flights st !! n = Some fl → (fl_phase fl = Running ↔ f_inflight st = Some n);
  inv_inflight n : f_inflight st = Some n → is_Some (flights st !! n);
  inv_attempt : f_lastAttempt st = match list.last (flights st) with Some fl => fl_started fl | None => zero_time end;
  inv_spaced n fl fl' :
    flights st !! n = Some fl → flights st !! S n = Some fl' → fl_forced fl' = false →
    IsZero (fl_started fl) = true ∨ kf_minRefresh f ≤ Sub (fl_started fl') (fl_started fl);
  inv_genuine : Forall genuine (flights st);
  inv_set s : f_set st = Some s →
    ∃ n fl, flights st !! n = Some fl ∧ fl_set fl = Some s ∧ fl_stored fl = Some (f_fetchedAt st, f_freshFor st);
  inv_fresh : 0 ≤ f_freshFor st ≤ Z.max (kf_minRefresh f) (kf_maxCache f);
  inv_calls : Forall (call_ok (flights st)) (calls_ st) }.

(** How the flights change: started ones keep their times, finished ones their
    outcome. *)
Definition evolves (fs fs' : list fetchFlight) : Prop :=
  ∀ n fl, fs !! n = Some fl →
    ∃ fl', fs' !! n = Some fl' ∧ fl_started fl' = fl_started fl ∧ fl_forced fl' = fl_forced fl ∧
      (fl_phase fl ≠ Running →
       fl_phase fl' ≠ Running ∧ fl_set fl' = fl_set fl ∧ fl_err fl' = fl_err fl ∧ fl_stored fl' = fl_stored fl).

Lemma evolves_refl fs : evolves fs fs.
Proof. intros n fl Hn. by exists fl. Qed.

Lemma evolves_app fs fl : evolves fs (fs ++ [fl]).
Proof. intros n fl' Hn. exists fl'. split; [by apply lookup_app_l_Some|done]. Qed.

Lemma evolves_insert fs n fl fl' :
  fs !! n = Some fl → fl_started fl' = fl_started fl → fl_forced fl' = fl_forced fl →
  (fl_phase fl ≠ Running →
     fl_phase fl' ≠ Running ∧ fl_set fl' = fl_set fl ∧ fl_err fl' = fl_err fl ∧ fl_stored fl' = fl_stored fl) →
  evolves fs (<[n := fl']> fs).
Proof.
  intros Hn Hs Hf Hr m fl0 Hm. destruct (decide (m = n)) as [->|Hne].
  - rewrite Hn in Hm. injection Hm as <-. exists fl'. split; [|done].
    apply list_lookup_insert_eq. by eapply lookup_lt_Some.
  - exists fl0. rewrite list_lookup_insert_ne by done. done.
Qed.

Lemma has_key_evolves fs fs' n kid k fl :
  evolves fs fs' → has_key fs n kid k fl →
  ∃ fl', has_key fs' n kid k fl' ∧ fl_stored fl' = fl_stored fl.
Proof.
  intros He (Hn & Hr & s & Hs & Hk). destruct (He n fl Hn) as (fl' & Hn' & _ & _ & Hk').
  destruct (Hk' Hr) as (Hr' & Hset & _ & Hst). exists fl'. split; [|done]. split; [done|]. split; [done|].
  exists s. by rewrite Hset.
Qed.

Lemma call_ok_evolves fs fs' c : evolves fs fs' → call_ok fs c → call_ok fs' c.
Proof.
  intros He. assert (Hsome : ∀ n, is_Some (fs !! n) → is_Some (fs' !! n)).
  { intros n [fl Hn]. destruct (He n fl Hn) as (fl' & -> & _). by eexists. }
  destruct c as [kid n|kid n|kid [[k|]|e] cached via|n|a]; cbn [call_ok]; try done; try apply Hsome.
  unfold provenance. destruct cached as [t|].
  - intros (n & fl & at_ & fresh & Hk & Hst & Hage).
    destruct (has_key_evolves _ _ _ _ _ _ He Hk) as (fl' & Hk' & Hst').
    exists n, fl', at_, fresh. by rewrite Hst'.
  - destruct via as [n|]; [|done]. intros (fl & Hk).
    destruct (has_key_evolves _ _ _ _ _ _ He Hk) as (fl' & Hk' & _). by exists fl'.
Qed.

Lemma Forall_insert_elem {A} (P : A → Prop) l n x : Forall P l → P x → Forall P (<[n := x]> l).
Proof. intros Hl Hx. by apply Forall_insert. Qed.

Lemma inv_initial : fetcher_ok f → inv initial.
Proof.
  intros Hok. split; cbn; try done; try (by constructor).
  destruct Hok. lia.
Qed.

Lemma inv_set_calls st cs : inv st → Forall (call_ok (flights st)) cs → inv (set_calls st cs).
Proof. intros [] Hcs. by split. Qed.

Lemma inv_calls_evolves st fs : inv st → evolves (flights st) fs → Forall (call_ok fs) (calls_ st).
Proof.
  intros Hst He. eapply list.Forall_impl; [apply (inv_calls st Hst)|]. intros c. by apply call_ok_evolves.
Qed.

Lemma inv_start st ctx now forced st' n :
  inv st → (f_inflight st = None → forced = false → mayAttemptAt f st now = true) →
  startFlightLocked f st ctx now forced = (st', n) →
  inv st' ∧ is_Some (flights st' !! n) ∧ calls_ st' = calls_ st.
Proof.
  intros Hst Hmay. unfold startFlightLocked. destruct (f_inflight st) as [m|] eqn:Hin.
  { intros [= <- <-]. split; [done|]. split; [by apply (inv_inflight st Hst)|done]. }
  intros [= <- <-]. set (new := mkFlight Running None None now forced None (mono st) _).
  assert (Hnew : (flights st ++ [new]) !! length (flights st) = Some new) by (by apply list_lookup_middle).
  split; [|split; [by exists new|done]]. split; cbn [flights f_inflight f_lastAttempt f_set f_fetchedAt f_freshFor calls_].
  - intros n fl [Hn|[Hl Hn]]%lookup_app_Some.
    + rewrite (inv_running st Hst n fl Hn), Hin. split; [done|]. intros [= <-].
      apply lookup_lt_Some in Hn. lia.
    + apply list_lookup_singleton_Some in Hn as [Hn <-]. split; [|done]. intros _. f_equal. lia.
  - intros n [= <-]. by exists new.
  - by rewrite last_snoc.
  - intros n fl fl' Hn Hn' Hf. apply lookup_app_Some in Hn' as [Hn'|[Hl Hn']].
    + rewrite lookup_app_l in Hn by (apply lookup_lt_Some in Hn'; lia). by eapply (inv_spaced st Hst).
    + apply list_lookup_singleton_Some in Hn' as [Hn' <-]. cbn in Hf. specialize (Hmay eq_refl Hf).
      rewrite lookup_app_l in Hn by lia. unfold mayAttemptAt in Hmay. rewrite (inv_attempt st Hst) in Hmay.
      rewrite last_lookup in Hmay. replace (Init.Nat.pred (length (flights st))) with n in Hmay by lia.
      rewrite Hn in Hmay. apply orb_true_iff in Hmay as [?|?]; [by left|right]. by bool_prop.
  - apply list.Forall_app_2; [apply (inv_genuine st Hst)|]. by repeat constructor.
  - intros s Hs. destruct (inv_set st Hst s Hs) as (n & fl & Hn & ? & ?). exists n, fl.
    split; [by apply lookup_app_l_Some|done].
  - apply (inv_fresh st Hst).
  - apply inv_calls_evolves; [done|apply evolves_app].
Qed.

Lemma fetch_age hops net s cache : (download f hops net).2 = Ok (s, cache) → 0 ≤ maxAge cache.
Proof.
  unfold download. destruct (kf_client f) as [c|]; [|done]. unfold fetchJWKS, then_. cbn [snd].
  intros ([body header] & _ & Hr)%bind_Ok. unfold parse_jwks in Hr.
  destruct (match UnmarshalCount body with Some _ => _ | None => _ end); [done|].
  apply bind_Ok in Hr as (? & _ & Hr). simplify_eq. rewrite parseCacheControl_all. cbn [maxAge cache_of].
  unfold only_age. destruct (filter _ _) as [|[? [v|]] []]; try lia. apply parseDeltaSeconds_range.
Qed.

Lemma fresh_for_range cache :
  fetcher_ok f → 0 ≤ maxAge cache → 0 ≤ fresh_for f cache ≤ Z.max (kf_minRefresh f) (kf_maxCache f).
Proof. intros [] Ha. unfold fresh_for. destruct (noCache cache), (hasMaxAge cache); lia. Qed.

(** Replacing flight [n] by one that evolved from it. *)
Lemma inv_update st st' n fl fl' :
  inv st → flights st !! n = Some fl → flights st' = <[n := fl']> (flights st) →
  evolves (flights st) (flights st') → calls_ st' = calls_ st → f_lastAttempt st' = f_lastAttempt st →
  (fl_phase fl' = Running ↔ f_inflight st' = Some n) →
  (f_inflight st' = f_inflight st ∨ (f_inflight st = Some n ∧ f_inflight st' = None)) →
  genuine fl' →
  (∀ s, f_set st' = Some s → (f_set st = Some s ∧ f_fetchedAt st' = f_fetchedAt st ∧ f_freshFor st' = f_freshFor st) ∨
     (fl_set fl' = Some s ∧ fl_stored fl' = Some (f_fetchedAt st', f_freshFor st'))) →
  0 ≤ f_freshFor st' ≤ Z.max (kf_minRefresh f) (kf_maxCache f) →
  inv st'.
Proof.
  intros Hst Hn Hfs He Hc Ha Hrun Hin Hg Hset Hfresh.
  assert (Hlt : (n < length (flights st))%nat) by (by eapply lookup_lt_Some).
  assert (Hat : flights st' !! n = Some fl') by (rewrite Hfs; by apply list_lookup_insert_eq).
  assert (Hne : ∀ m, m ≠ n → flights st' !! m = flights st !! m).
  { intros m Hm. rewrite Hfs. by apply list_lookup_insert_ne. }
  destruct (He n fl Hn) as (fl2 & Hn2 & Hs & Hf & Hkeep). rewrite Hat in Hn2. injection Hn2 as <-.
  split.
  - intros m fm Hm. destruct (decide (m = n)) as [->|Hmn]; [by rewrite Hat in Hm; injection Hm as <-|].
    rewrite Hne in Hm by done. rewrite (inv_running st Hst m fm Hm).
    destruct Hin as [->|[-> ->]]; [done|]. split; [|done]. by intros [= ->].
  - intros m Hm. destruct (decide (m = n)) as [->|Hmn]; [by exists fl'|].
    rewrite Hne by done. apply (inv_inflight st Hst). destruct Hin as [<-|[_ ?]]; [done|congruence].
  - rewrite Ha, (inv_attempt st Hst), !last_lookup, Hfs, length_insert, <- Hfs.
    destruct (decide (Init.Nat.pred (length (flights st)) = n)) as [->|Hm].
    + rewrite Hat, Hn. by rewrite Hs.
    + by rewrite Hne.
  - intros m f1 f2 H1' H2' Hforce.
    destruct (decide (m = n)) as [->|Hm1].
    + rewrite Hat in H1'. injection H1' as <-. rewrite Hs. rewrite Hne in H2' by lia.
      by eapply (inv_spaced st Hst).
    + rewrite Hne in H1' by done. destruct (decide (S m = n)) as [<-|Hm2].
      * rewrite Hat in H2'. injection H2' as <-. rewrite Hs. rewrite Hf in Hforce.
        by eapply (inv_spaced st Hst).
      * rewrite Hne in H2' by done. by eapply (inv_spaced st Hst).
  - rewrite Hfs. apply Forall_insert_elem; [apply (inv_genuine st Hst)|done].
  - intros s Hs'. destruct (Hset s Hs') as [(Hs0 & -> & ->)|[? ?]]; [|by exists n, fl'].
    destruct (inv_set st Hst s Hs0) as (m & fm & Hm & Hms & Hmst).
    destruct (He m fm Hm) as (fm' & Hm' & _ & _ & Hk). exists m, fm'.
    assert (Hg' : genuine fm) by (by eapply Forall_lookup_1; [apply (inv_genuine st Hst)|]).
    unfold genuine in Hg'. rewrite Hms in Hg'. destruct Hg' as [Hr _]. destruct (Hk Hr) as (_ & -> & _ & ->). done.
  - done.
  - rewrite Hc. by apply inv_calls_evolves.
Qed.

Lemma inv_complete st n fl now outcome :
  fetcher_ok f → inv st → flights st !! n = Some fl → fl_phase fl = Running →
  (∀ s cache, outcome = Ok (s, cache) → ∃ hops net, (download f hops net).2 = Ok (s, cache)) →
  inv (complete f st n fl now outcome).
Proof.
  intros Hok Hst Hn Hr Ho. assert (Hin : f_inflight st = Some n) by (by apply (inv_running st Hst n fl)).
  assert (Hold : ∀ fl', fl_started fl' = fl_started fl → fl_forced fl' = fl_forced fl →
    evolves (flights st) (<[n := fl']> (flights st))) by (intros; by eapply evolves_insert).
  unfold complete. destruct outcome as [[s cache]|e];
    [destruct (Ho s cache eq_refl) as (hops & net & Hf); destruct (noStore cache) eqn:Hns|].
  - eapply (inv_update st _ n fl (finish fl Written (Some s) None None));
      cbn [flights f_inflight f_lastAttempt f_set f_fetchedAt f_freshFor calls_]; eauto; try done.
    + split; [done|]. split; [done|]. by exists hops, net, cache.
    + destruct Hok. lia.
  - eapply (inv_update st _ n fl (finish fl Written (Some s) None (Some (now, fresh_for f cache))));
      cbn [flights f_inflight f_lastAttempt f_set f_fetchedAt f_freshFor calls_]; eauto; try done.
    + split; [done|]. split; [done|]. by exists hops, net, cache.
    + apply fresh_for_range; [done|by eapply fetch_age].
  - eapply (inv_update st _ n fl (finish fl Written None (Some e) None));
      cbn [flights f_inflight f_lastAttempt f_set f_fetchedAt f_freshFor calls_]; eauto; try done.
    apply (inv_fresh st Hst).
Qed.

Lemma inv_close st n fl :
  inv st → flights st !! n = Some fl → fl_phase fl = Written →
  inv (set_flights st (<[n := finish fl Closed (fl_set fl) (fl_err fl) (fl_stored fl)]> (flights st))).
Proof.
  intros Hst Hn Hw. eapply inv_update; cbn [set_flights flights f_inflight f_lastAttempt f_set f_fetchedAt f_freshFor calls_]; eauto.
  - by eapply evolves_insert.
  - split; [done|]. intros Hin. apply (inv_running st Hst n fl Hn) in Hin. congruence.
  - assert (Hg : genuine fl) by (by eapply Forall_lookup_1; [apply (inv_genuine st Hst)|]).
    unfold genuine in *. cbn. destruct (fl_set fl); naive_solver.
  - apply (inv_fresh st Hst).
Qed.

(** A key of the retained document, within its windows. *)
Lemma cached_provenance st s kid k now :
  inv st → f_set st = Some s → lookup s kid = Some k →
  cacheAge now (f_fetchedAt st) < f_freshFor st ∨ cacheAge now (f_fetchedAt st) - f_freshFor st < kf_maxStale f →
  provenance (flights st) kid k (Some now) None.
Proof.
  intros Hst Hs Hk Hage. destruct (inv_set st Hst s Hs) as (n & fl & Hn & Hfs & Hfst).
  exists n, fl, (f_fetchedAt st), (f_freshFor st). split; [|done].
  split; [done|]. split; [|by exists s].
  assert (Hg : genuine fl) by (by eapply Forall_lookup_1; [apply (inv_genuine st Hst)|]).
  unfold genuine in Hg. rewrite Hfs in Hg. by destruct Hg.
Qed.

Lemma cacheAge_range now t : 0 ≤ cacheAge now t ≤ maxDuration.
Proof.
  unfold cacheAge, Sub, saturate. cbv zeta. destruct (_ <? 0) eqn:E; bool_prop; unfold maxDuration, two63 in *; lia.
Qed.

(** The subtraction of the stale window does not wrap around. *)
Lemma age_no_wrap st now :
  fetcher_ok f → inv st →
  wrap64 (cacheAge now (f_fetchedAt st) - f_freshFor st) = cacheAge now (f_fetchedAt st) - f_freshFor st.
Proof.
  intros [] Hst. pose proof (inv_fresh st Hst). pose proof (cacheAge_range now (f_fetchedAt st)).
  unfold wrap64. rewrite Z.mod_small; unfold maxDuration, two63 in *; lia.
Qed.

Lemma fallback_provenance st now err kid k s e :
  fetcher_ok f → inv st → fallbackLocked f st now err = (s, e) → lookupOrErr s kid e = Ok (Some k) →
  provenance (flights st) kid k (Some now) None.
Proof.
  intros Hok Hst. unfold fallbackLocked, lookupOrErr. destruct (f_set st) as [s0|] eqn:Hs.
  - cbv zeta. rewrite age_no_wrap by done. destruct (_ || _) eqn:Hw.
    + intros [= <- <-]. destruct (lookup s0 kid) as [k'|] eqn:Hk; [|by destruct err].
      intros [= <-]. eapply cached_provenance; [done|done|done|].
      apply orb_true_iff in Hw as [?|?]; bool_prop; [by left|by right].
    + intros [= <- <-]. by destruct err.
  - intros [= <- <-]. by destruct err.
Qed.

Lemma Lookup_begin_ok st kid ctx now st' c :
  fetcher_ok f → inv st → Lookup_begin f st kid ctx now = (st', c) →
  inv st' ∧ call_ok (flights st') c ∧ calls_ st' = calls_ st.
Proof.
  intros Hok Hst. unfold Lookup_begin.
  destruct (match f_set st with Some _ => _ | None => _ end) as [k|] eqn:Hk.
  { intros [= <- <-]. split; [done|]. split; [|done]. cbn [call_ok].
    destruct (f_set st) as [s|] eqn:Hs; [|done]. destruct (lookup s kid) as [k'|] eqn:Hl; [|done].
    destruct (staleAt st now) eqn:Hst'; [done|]. injection Hk as ->.
    eapply cached_provenance; [done..|]. left. unfold staleAt in Hst'. by bool_prop. }
  destruct (bool_decide _ && _) eqn:Hlim.
  - destruct (fallbackLocked f st now (f_lastErr st)) as [s e] eqn:Hfb. intros [= <- <-].
    split; [done|]. split; [|done]. cbn [call_ok].
    destruct (lookupOrErr s kid e) as [[k|]|] eqn:Hl; [|done..]. by eapply fallback_provenance.
  - destruct (startFlightLocked f st ctx now false) as [st1 n] eqn:Hsf. intros [= <- <-].
    apply inv_start in Hsf as (Hi & Hn & Hc); [done|done|].
    intros Hnone _. rewrite Hnone, bool_decide_eq_true_2 in Hlim by done. cbn [andb] in Hlim. by bool_prop.
Qed.

Lemma wake_ok st c c' : inv st → call_ok (flights st) c → wake c (flights st) = Some c' → call_ok (flights st) c'.
Proof.
  intros Hst Hc. destruct c as [kid n| |kid a cached via|n|]; cbn [wake]; try done.
  - destruct (flights st !! n) as [fl|] eqn:Hn; [|done]. cbn [mbind option_bind].
    destruct (fl_phase fl) eqn:Hp; try done. destruct (fl_err fl) eqn:He; intros [= <-]; cbn [call_ok]; [by rewrite Hn|].
    unfold lookupOrErr. destruct (fl_set fl) as [s|] eqn:Hs; [|done].
    destruct (lookup s kid) as [k|] eqn:Hk; [|done]. exists fl. split; [done|]. split; [by rewrite Hp|].
    by exists s.
  - destruct (flights st !! n) as [fl|]; [|done]. cbn [mbind option_bind].
    destruct (fl_phase fl); try done. by intros [= <-].
Qed.

Lemma set_call st i c c' : inv st → calls_ st !! i = Some c → call_ok (flights st) c' →
  inv (set_calls st (<[i := c']> (calls_ st))).
Proof. intros Hst _ Hc. apply inv_set_calls; [done|]. apply Forall_insert_elem; [apply (inv_calls st Hst)|done]. Qed.

Lemma inv_step a st st' : fetcher_ok f → inv st → step f a st = Some st' → inv st'.
Proof.
  intros Hok Hst. destruct a as [kid ctx now|ctx now|d|n now hops net|n now|n|i|i e|i now]; cbn [step].
  - destruct (Lookup_begin f st kid ctx now) as [st1 c] eqn:Hl. intros [= <-].
    apply Lookup_begin_ok in Hl as (Hi & Hc & Hcs); [|done..]. apply inv_set_calls; [done|].
    apply list.Forall_app_2; [apply (inv_calls st1 Hi)|by repeat constructor].
  - destruct (startFlightLocked f st ctx now true) as [st1 n] eqn:Hl. intros [= <-].
    apply inv_start in Hl as (Hi & Hn & Hcs); [|done..]. apply inv_set_calls; [done|].
    apply list.Forall_app_2; [apply (inv_calls st1 Hi)|by repeat constructor].
  - destruct (0 <? d); [|done]. intros [= <-]. by destruct Hst.
  - destruct (flights st !! n) as [fl|] eqn:Hn; [|done]. cbn [mbind option_bind].
    destruct (fl_phase fl) eqn:Hp; try done. destruct (answered f hops net); [|done]. intros [= <-].
    apply inv_complete; [done..|]. intros s cache Ho. by exists hops, net.
  - destruct (flights st !! n) as [fl|] eqn:Hn; [|done]. cbn [mbind option_bind].
    destruct (fl_phase fl) eqn:Hp; try done. destruct (cut_off f fl (mono st)); [|done].
    intros <-%(inj Some). by apply inv_complete.
  - destruct (flights st !! n) as [fl|] eqn:Hn; [|done]. cbn [mbind option_bind].
    destruct (fl_phase fl) eqn:Hp; try done. intros [= <-]. by apply inv_close.
  - destruct (calls_ st !! i) as [c|] eqn:Hi; [|done]. cbn [mbind option_bind].
    destruct (wake c (flights st)) as [c'|] eqn:Hw; [|done]. cbn [mbind option_bind]. intros [= <-].
    eapply set_call; [done|done|]. eapply wake_ok; [done| |done].
    by eapply Forall_lookup_1; [apply (inv_calls st Hst)|].
  - destruct (calls_ st !! i) as [c|] eqn:Hi; [|done]. cbn [mbind option_bind].
    destruct (cancel c e) as [c'|] eqn:Hw; [|done]. cbn [mbind option_bind]. intros [= <-].
    eapply set_call; [done|done|]. destruct c; try done; by injection Hw as <-.
  - destruct (calls_ st !! i) as [c|] eqn:Hi; [|done]. cbn [mbind option_bind].
    destruct (fall_back f st c now) as [c'|] eqn:Hw; [|done]. cbn [mbind option_bind]. intros [= <-].
    eapply set_call; [done|done|]. destruct c as [|kid n| | |]; try done. cbn [fall_back] in Hw.
    destruct (flights st !! n) as [fl|] eqn:Hn; [|done]. cbn [mbind option_bind] in Hw.
    destruct (fallbackLocked f st now (fl_err fl)) as [s e] eqn:Hfb. injection Hw as <-. cbn [call_ok].
    destruct (lookupOrErr s kid e) as [[k|]|] eqn:Hl; [|done..]. by eapply fallback_provenance.
Qed.

Lemma reachable_inv st : fetcher_ok f → reachable f st → inv st.
Proof. intros Hok. induction 1; [by apply inv_initial|by eapply inv_step]. Qed.
End Invariant.

(** ** Every call returns *)

(** Steps other than new calls; the passing of time; and those the fetcher makes
    by itself, that need neither an answer of the network nor a cancellation. *)
Definition internal (a : action) : bool :=
  match a with ActLookup _ _ _ | ActRefresh _ _ => false | _ => true end.

Definition tick (a : action) : bool := match a with ActTick _ => true | _ => false end.

Definition unaided (a : action) : bool :=
  match a with ActDeadline _ _ | ActClose _ | ActWake _ | ActFallback _ _ => true | _ => false end.

(** How long a fetch may take. *)
Definition fetch_timeout (f : KeyFetcher) : Z :=
  if client_timeout f <=? 0 then defaultFetcherTimeout else client_timeout f.

Definition flight_work (fl : fetchFlight) : nat :=
  match fl_phase fl with Running => 2 | Written => 1 | Closed => 0 end.

Definition call_work (c : call_state) : nat :=
  match c with
  | LookupWaits _ _ | RefreshWaits _ => 2
  | LookupFallsBack _ _ => 1
  | _ => 0
  end.

Definition returned (c : call_state) : bool := (call_work c =? 0)%nat.

(** The internal steps left. *)
Definition work (st : state) : nat :=
  (sum_list_with flight_work (flights st) + sum_list_with call_work (calls_ st))%nat.

Lemma sum_list_insert {A} (g : A → nat) l : ∀ n x y,
  l !! n = Some x → (sum_list_with g (<[n := y]> l) + g x = sum_list_with g l + g y)%nat.
Proof.
  induction l as [|z l IH]; intros [|n] x y Hn; cbn in Hn; [done|done|injection Hn as <-; cbn; lia|].
  specialize (IH n x y Hn). change (<[S n := y]> (z :: l)) with (z :: <[n := y]> l). cbn [sum_list_with]. lia.
Qed.

Section Liveness.
Context `{NetURL, Unicode, Unquoter, Crypto}.
Variable f : KeyFetcher.

Lemma call_step_work st i c c' :
  calls_ st !! i = Some c → (call_work c' < call_work c)%nat →
  (work (set_calls st (<[i := c']> (calls_ st))) < work st)%nat.
Proof.
  intros Hi Hc. pose proof (sum_list_insert call_work _ i c c' Hi). unfold work. cbn [flights calls_ set_calls]. lia.
Qed.

Lemma flight_step_work st st' n fl fl' :
  flights st !! n = Some fl → flights st' = <[n := fl']> (flights st) → calls_ st' = calls_ st →
  (flight_work fl' < flight_work fl)%nat → (work st' < work st)%nat.
Proof.
  intros Hn Hf Hc Hw. pose proof (sum_list_insert flight_work _ n fl fl' Hn). unfold work. rewrite Hf, Hc. lia.
Qed.

Lemma complete_work st n fl now outcome :
  flights st !! n = Some fl → fl_phase fl = Running → (work (complete f st n fl now outcome) < work st)%nat.
Proof.
  intros Hn Hp. unfold complete. destruct outcome as [[s cache]|e]; [destruct (noStore cache)|];
    (eapply flight_step_work; [exact Hn|reflexivity|done|unfold flight_work; rewrite Hp; cbn; lia]).
Qed.

Lemma internal_work a st st' :
  internal a = true → tick a = false → step f a st = Some st' → (work st' < work st)%nat.
Proof.
  intros Ha Ht. destruct a as [| | |n now hops net|n now|n|i|i e|i now]; try done; cbn [step].
  - destruct (flights st !! n) as [fl|] eqn:Hn; [|done]. cbn [mbind option_bind].
    destruct (fl_phase fl) eqn:Hp; try done. destruct (answered f hops net); [|done]. intros [= <-].
    by apply complete_work.
  - destruct (flights st !! n) as [fl|] eqn:Hn; [|done]. cbn [mbind option_bind].
    destruct (fl_phase fl) eqn:Hp; try done. destruct (cut_off f fl (mono st)); [|done].
    intros <-%(inj Some). by apply complete_work.
  - destruct (flights st !! n) as [fl|] eqn:Hn; [|done]. cbn [mbind option_bind].
    destruct (fl_phase fl) eqn:Hp; try done. intros [= <-].
    eapply flight_step_work; [exact Hn|reflexivity|done|unfold flight_work; rewrite Hp; cbn; lia].
  - destruct (calls_ st !! i) as [c|] eqn:Hi; [|done]. cbn [mbind option_bind].
    destruct (wake c (flights st)) as [c'|] eqn:Hw; [|done]. intros [= <-]. apply (call_step_work _ _ _ _ Hi).
    destruct c as [kid m| | |m|]; try done; cbn [wake] in Hw; destruct (flights st !! m) as [fl|]; try done;
      cbn [mbind option_bind] in Hw; destruct (fl_phase fl); try done;
      [destruct (fl_err fl)|]; injection Hw as <-; cbn; lia.
  - destruct (calls_ st !! i) as [c|] eqn:Hi; [|done]. cbn [mbind option_bind].
    destruct (cancel c e) as [c'|] eqn:Hw; [|done]. intros [= <-]. apply (call_step_work _ _ _ _ Hi).
    destruct c; try done; injection Hw as <-; cbn; lia.
  - destruct (calls_ st !! i) as [c|] eqn:Hi; [|done]. cbn [mbind option_bind].
    destruct (fall_back f st c now) as [c'|] eqn:Hw; [|done]. intros [= <-]. apply (call_step_work _ _ _ _ Hi).
    destruct c as [|kid m| | |]; try done. cbn [fall_back] in Hw. destruct (flights st !! m); [|done].
    cbn [mbind option_bind] in Hw. destruct (fallbackLocked _ _ _ _). injection Hw as <-. cbn. lia.
Qed.

(** The timers: a flight begun at [fl_begun] is bounded by the default timeout
    when the client has none, and by nothing else; [t] is no earlier than any. *)
Definition timers (t : Z) (st : state) : Prop :=
  ∀ n fl, flights st !! n = Some fl →
    fl_begun fl ≤ t ∧
    fl_ctx fl = if client_timeout f <=? 0 then Some (fl_begun fl + defaultFetcherTimeout) else None.

Lemma timers_insert t st n fl p set err stored :
  timers t st → flights st !! n = Some fl →
  ∀ st', flights st' = <[n := finish fl p set err stored]> (flights st) → timers t st'.
Proof.
  intros Ht Hn st' Hf m fm. rewrite Hf. intros [(<- & <- & _)|[_ Hm]]%list_lookup_insert_Some; [|by apply (Ht m)].
  apply (Ht _ fl Hn).
Qed.

Lemma timers_complete t st n fl now outcome :
  timers t st → flights st !! n = Some fl → timers t (complete f st n fl now outcome).
Proof.
  intros Ht Hn. unfold complete. destruct outcome as [[s cache]|e]; [destruct (noStore cache)|];
    by eapply timers_insert.
Qed.

Lemma mono_complete st n fl now outcome : mono (complete f st n fl now outcome) = mono st.
Proof. unfold complete. destruct outcome as [[s cache]|e]; [destruct (noStore cache)|]; done. Qed.

Lemma timers_start t st ctx now forced :
  timers t st → mono st ≤ t →
  timers t (startFlightLocked f st ctx now forced).1 ∧ mono (startFlightLocked f st ctx now forced).1 = mono st.
Proof.
  intros Ht Hm. unfold startFlightLocked. destruct (f_inflight st); [done|]. split; [|done].
  intros n fl [Hn|[_ [_ <-]%list_lookup_singleton_Some]]%lookup_app_Some; [by apply (Ht n)|].
  cbn [fl_begun fl_ctx]. by destruct (client_timeout f <=? 0).
Qed.

Lemma timers_begin t st kid ctx now :
  timers t st → mono st ≤ t →
  timers t (Lookup_begin f st kid ctx now).1 ∧ mono (Lookup_begin f st kid ctx now).1 = mono st.
Proof.
  intros Ht Hm. unfold Lookup_begin. destruct (match f_set st with Some _ => _ | None => _ end); [done|].
  destruct (bool_decide _ && _); [by destruct (fallbackLocked _ _ _ _)|].
  pose proof (timers_start t st ctx now false Ht Hm) as Hs. by destruct (startFlightLocked f st ctx now false).
Qed.

(** No step sets the clock back, and only time and new calls need a later bound. *)
Lemma timers_step t a st st' :
  step f a st = Some st' → timers t st → (internal a = true ∨ mono st ≤ t) →
  timers t st' ∧ mono st ≤ mono st' ∧ (tick a = false → mono st' = mono st).
Proof.
  intros Hs Ht Hor. assert (Hnew : internal a = false → mono st ≤ t) by (destruct Hor; congruence).
  destruct a as [kid ctx now|ctx now|d|n now hops net|n now|n|i|i e|i now]; cbn [step] in Hs.
  - destruct (timers_begin t st kid ctx now Ht (Hnew eq_refl)) as [Hb Hm].
    destruct (Lookup_begin f st kid ctx now) as [st1 c]. injection Hs as <-. cbn [fst] in *.
    split; [done|]. cbn [mono set_calls]. lia.
  - destruct (timers_start t st ctx now true Ht (Hnew eq_refl)) as [Hb Hm].
    destruct (startFlightLocked f st ctx now true) as [st1 n]. injection Hs as <-. cbn [fst] in *.
    split; [done|]. cbn [mono set_calls]. lia.
  - destruct (0 <? d) eqn:Hd; [|done]. injection Hs as <-. bool_prop. split; [done|].
    cbn [mono set_mono]. split; [lia|done].
  - destruct (flights st !! n) as [fl|] eqn:Hn; [|done]. cbn [mbind option_bind] in Hs.
    destruct (fl_phase fl); try done. destruct (answered f hops net); [|done]. apply (inj Some) in Hs as <-.
    rewrite mono_complete. split; [by apply timers_complete|done].
  - destruct (flights st !! n) as [fl|] eqn:Hn; [|done]. cbn [mbind option_bind] in Hs.
    destruct (fl_phase fl); try done. destruct (cut_off f fl (mono st)); [|done]. apply (inj Some) in Hs as <-.
    rewrite mono_complete. split; [by apply timers_complete|done].
  - destruct (flights st !! n) as [fl|] eqn:Hn; [|done]. cbn [mbind option_bind] in Hs.
    destruct (fl_phase fl); try done. injection Hs as <-. split; [by eapply timers_insert|done].
  - destruct (calls_ st !! i) as [c|]; [|done]. cbn [mbind option_bind] in Hs.
    destruct (wake c (flights st)); [|done]. by injection Hs as <-.
  - destruct (calls_ st !! i) as [c|]; [|done]. cbn [mbind option_bind] in Hs.
    destruct (cancel c e); [|done]. by injection Hs as <-.
  - destruct (calls_ st !! i) as [c|]; [|done]. cbn [mbind option_bind] in Hs.
    destruct (fall_back f st c now); [|done]. by injection Hs as <-.
Qed.

Lemma timers_later t t' st : timers t st → t ≤ t' → timers t' st.
Proof. intros Ht Hle n fl Hn. destruct (Ht n fl Hn). split; [lia|done]. Qed.

Lemma reachable_timers st : reachable f st → timers (mono st) st.
Proof.
  induction 1 as [|a st st' _ IH Hs]; [done|].
  destruct (timers_step _ _ _ _ Hs IH (or_intror (Z.le_refl _))) as (Ht & Hm & _). by eapply timers_later.
Qed.

(** A request is cut off exactly when it has had its time. *)
Lemma cut_off_timeout t st n fl :
  timers t st → flights st !! n = Some fl →
  cut_off f fl (mono st) = true ↔ fl_begun fl + fetch_timeout f ≤ mono st.
Proof.
  intros Ht Hn. destruct (Ht n fl Hn) as [_ Hc]. unfold cut_off, fetch_timeout. rewrite Hc.
  destruct (client_timeout f <=? 0) eqn:Hz; bool_prop.
  - rewrite (proj2 (Z.ltb_ge 0 _)), andb_false_l, orb_false_r, Z.leb_le by lia. done.
  - rewrite (proj2 (Z.ltb_lt 0 _)), andb_true_l, orb_false_l, Z.leb_le by lia. done.
Qed.

(** Once every request has had its time, the fetcher moves by itself while a
    call has not returned. *)
Lemma call_progress st t i c :
  inv f st → timers t st → t + fetch_timeout f ≤ mono st → calls_ st !! i = Some c → returned c = false →
  ∃ a st', unaided a = true ∧ step f a st = Some st'.
Proof.
  intros Hst Ht Htime Hi Hc.
  assert (Hok : call_ok f (flights st) c) by (by eapply Forall_lookup_1; [apply (inv_calls f st Hst)|]).
  assert (Hfl : ∀ n fl, flights st !! n = Some fl →
    (∃ a st', unaided a = true ∧ step f a st = Some st') ∨ fl_phase fl = Closed).
  { intros n fl Hn. destruct (fl_phase fl) eqn:Hp; [left|left|by right].
    - exists (ActDeadline n 0). eexists. split; [done|]. cbn [step]. rewrite Hn. cbn [mbind option_bind].
      rewrite Hp. rewrite (proj2 (cut_off_timeout t st n fl Ht Hn)); [done|].
      destruct (Ht n fl Hn). lia.
    - exists (ActClose n). eexists. split; [done|]. cbn [step]. rewrite Hn. cbn [mbind option_bind]. by rewrite Hp. }
  destruct c as [kid n|kid n|kid a cached via|n|a]; try done; cbn [call_ok] in Hok; destruct Hok as [fl Hn].
  - destruct (Hfl n fl Hn) as [?|Hp]; [done|]. exists (ActWake i).
    cbn [step]. rewrite Hi. cbn [mbind option_bind wake]. rewrite Hn. cbn [mbind option_bind]. rewrite Hp.
    destruct (fl_err fl); by eexists.
  - exists (ActFallback i 0). cbn [step]. rewrite Hi. cbn [mbind option_bind fall_back]. rewrite Hn. cbn [mbind option_bind].
    destruct (fallbackLocked f st 0 (fl_err fl)). by eexists.
  - destruct (Hfl n fl Hn) as [?|Hp]; [done|]. exists (ActWake i).
    cbn [step]. rewrite Hi. cbn [mbind option_bind wake]. rewrite Hn. cbn [mbind option_bind]. rewrite Hp. by eexists.
Qed.

Lemma not_all_returned cs :
  forallb returned cs = false → ∃ i c, cs !! i = Some c ∧ returned c = false.
Proof.
  induction cs as [|c cs IH]; [done|]. cbn [forallb]. destruct (returned c) eqn:Hc; cbn [andb].
  - intros (i & c' & ? & ?)%IH. by exists (S i), c'.
  - intros _. by exists 0%nat, c.
Qed.

(** A run without new calls keeps both invariants, takes at most [work] steps
    beside the passing of time, and leaves the flights as they were begun. *)
Lemma internal_run acts : ∀ t st st', fetcher_ok f →
  inv f st → timers t st → Forall (λ a, internal a = true) acts → run_actions f acts st = Some st' →
  inv f st' ∧ timers t st' ∧ (length (List.filter (λ a, negb (tick a)) acts) + work st' <= work st)%nat.
Proof.
  intros t st st' Hok. revert st. induction acts as [|a acts IH]; intros st Hst Ht Ha; cbn [run_actions].
  { intros [= ->]. split; [done|]. split; [done|]. cbn. lia. }
  apply list.Forall_cons in Ha as [Ha Hacts]. destruct (step f a st) as [st1|] eqn:Hs; [|done]. intros Hr.
  destruct (timers_step t a st st1 Hs Ht (or_introl Ha)) as (Ht1 & _ & _).
  destruct (IH st1 (inv_step f a st st1 Hok Hst Hs) Ht1 Hacts Hr) as (Hi & Ht' & Hl).
  split; [done|]. split; [done|]. cbn [List.filter]. destruct (tick a) eqn:Htick; cbn [negb length].
  - destruct a; try done. cbn [step] in Hs. destruct (0 <? d); [|done]. by injection Hs as <-.
  - pose proof (internal_work a st st1 Ha Htick Hs). lia.
Qed.

Lemma unaided_internal a : unaided a = true → internal a = true ∧ tick a = false.
Proof. by destruct a. Qed.

Lemma run_to_end n : ∀ t st, fetcher_ok f → inv f st → timers t st → t + fetch_timeout f ≤ mono st →
  (work st <= n)%nat →
  ∃ acts st', Forall (λ a, unaided a = true) acts ∧ run_actions f acts st = Some st' ∧
    forallb returned (calls_ st') = true ∧ mono st' = mono st.
Proof.
  induction n as [|n IH]; intros t st Hok Hst Ht Htime Hn;
    (destruct (forallb returned (calls_ st)) eqn:Hr; [by exists [], st|]);
    apply not_all_returned in Hr as (i & c & Hi & Hc);
    destruct (call_progress st t i c Hst Ht Htime Hi Hc) as (a & st1 & Ha & Hs);
    destruct (unaided_internal a Ha) as [Hin Htick];
    pose proof (internal_work a st st1 Hin Htick Hs) as Hw; [lia|].
  destruct (timers_step t a st st1 Hs Ht (or_introl Hin)) as (Ht1 & _ & Hm). specialize (Hm Htick).
  destruct (IH t st1 Hok (inv_step f a st st1 Hok Hst Hs) Ht1 ltac:(lia) ltac:(lia)) as (acts & st' & Hacts & Hrun & Hret & Hm').
  exists (a :: acts), st'. split; [by constructor|]. split; [|split; [done|congruence]].
  cbn [run_actions]. by rewrite Hs.
Qed.

Lemma fetch_timeout_pos : 0 < fetch_timeout f.
Proof. unfold fetch_timeout. destruct (_ <=? 0) eqn:Hz; bool_prop; [done|lia]. Qed.
End Liveness.

(** ** Theorems *)

Section Theorems.
Context `{NetURL, Unicode, Unquoter, Crypto}.
Variable f : KeyFetcher.
Hypothesis Hok : fetcher_ok f.

(** C15: in every reachable state at most one fetch is
    running, and it is the one [inflight] names, which concurrent calls join;
    every waiting call has its flight; and the retained document is the outcome
    of a finished fetch, fresh for no longer than the caps allow. *)
Theorem fetcher_single_flight st :
  reachable f st →
  (∀ n m fl fl', flights st !! n = Some fl → flights st !! m = Some fl' →
     fl_phase fl = Running → fl_phase fl' = Running → n = m ∧ f_inflight st = Some n) ∧
  (∀ n, f_inflight st = Some n → ∃ fl, flights st !! n = Some fl ∧ fl_phase fl = Running) ∧
  (∀ c n kid, c ∈ calls_ st → c = LookupWaits kid n ∨ c = LookupFallsBack kid n ∨ c = RefreshWaits n →
     is_Some (flights st !! n)) ∧
  (∀ s, f_set st = Some s → ∃ n fl hops net cache,
     flights st !! n = Some fl ∧ fl_set fl = Some s ∧ (download f hops net).2 = Ok (s, cache) ∧
     noStore cache = false ∧ f_freshFor st = fresh_for f cache) ∧
  0 ≤ f_freshFor st ≤ Z.max (kf_minRefresh f) (kf_maxCache f).
Proof.
  intros Hst%(reachable_inv f st Hok). split; [|split; [|split; [|split]]].
  - intros n m fl fl' Hn Hm Hr Hr'. apply (inv_running f st Hst n fl Hn) in Hr.
    apply (inv_running f st Hst m fl' Hm) in Hr'. split; congruence.
  - intros n Hn. destruct (inv_inflight f st Hst n Hn) as [fl Hfl]. exists fl. split; [done|].
    by apply (inv_running f st Hst n fl Hfl).
  - intros c n kid Hc Hcs. pose proof (Forall_elem _ _ _ (inv_calls f st Hst) Hc) as Hco.
    by destruct Hcs as [-> | [-> | ->]].
  - intros s Hs. destruct (inv_set f st Hst s Hs) as (n & fl & Hn & Hfs & Hfst).
    assert (Hg : genuine f fl) by (by eapply Forall_lookup_1; [apply (inv_genuine f st Hst)|]).
    unfold genuine in Hg. rewrite Hfs, Hfst in Hg. destruct Hg as (_ & _ & hops & net & cache & Hf & Hns & Hfr).
    by exists n, fl, hops, net, cache.
  - apply (inv_fresh f st Hst).
Qed.

(** C17: in every run, whatever the clock returns, a fetch that
    a Lookup started is at least the minimum interval after the start of the
    fetch before it, whether that one failed, succeeded or was a Refresh; the
    only exception is a clock that read the zero time then. *)
Theorem fetcher_rate_limited st n fl fl' :
  reachable f st →
  flights st !! n = Some fl → flights st !! S n = Some fl' → fl_forced fl' = false →
  IsZero (fl_started fl) = true ∨ kf_minRefresh f ≤ Sub (fl_started fl') (fl_started fl).
Proof. intros Hst%(reachable_inv f st Hok). by apply (inv_spaced f st Hst). Qed.

(** C14: a key that a Lookup returns is the key of that kid in a
    document some fetch of this fetcher returned: the fetch the call waited for,
    or, when the answer is from the cache, a fetch without "no-store" whose
    document was retained for less than its freshness and the stale window. *)
Theorem fetcher_provenance st kid k cached via :
  reachable f st → LookupReturned kid (Ok (Some k)) cached via ∈ calls_ st →
  ∃ n fl s hops net cache,
    flights st !! n = Some fl ∧ fl_set fl = Some s ∧ lookup s kid = Some k ∧
    (download f hops net).2 = Ok (s, cache) ∧
    match cached with
    | None => via = Some n
    | Some t =>
        noStore cache = false ∧
        ∃ at_, fl_stored fl = Some (at_, fresh_for f cache) ∧
          cacheAge t at_ < fresh_for f cache + kf_maxStale f
    end.
Proof.
  intros Hst%(reachable_inv f st Hok) Hc.
  pose proof (Forall_elem _ _ _ (inv_calls f st Hst) Hc) as Hp. cbn [call_ok] in Hp.
  assert (Hgen : ∀ n fl, has_key (flights st) n kid k fl → ∃ s hops net cache,
    fl_set fl = Some s ∧ lookup s kid = Some k ∧ (download f hops net).2 = Ok (s, cache) ∧
    match fl_stored fl with Some (_, fresh) => noStore cache = false ∧ fresh = fresh_for f cache | None => True end).
  { intros n fl (Hn & _ & s & Hs & Hk).
    assert (Hg : genuine f fl) by (by eapply Forall_lookup_1; [apply (inv_genuine f st Hst)|]).
    unfold genuine in Hg. rewrite Hs in Hg. destruct Hg as (_ & _ & hops & net & cache & Hf & Hst').
    exists s, hops, net, cache. repeat (split; [done|]). by destruct (fl_stored fl) as [[]|]. }
  destruct cached as [t|]; cbn [provenance] in Hp.
  - destruct Hp as (n & fl & at_ & fresh & Hk & Hst' & Hage). destruct (Hgen n fl Hk) as (s & hops & net & cache & Hs & Hl & Hf & Hc').
    rewrite Hst' in Hc'. destruct Hc' as [Hns ->]. exists n, fl, s, hops, net, cache.
    split; [apply Hk|]. repeat (split; [done|]). exists at_. split; [done|]. destruct Hok. lia.
  - destruct via as [n|]; [|done]. destruct Hp as (fl & Hk). destruct (Hgen n fl Hk) as (s & hops & net & cache & Hs & Hl & Hf & _).
    exists n, fl, s, hops, net, cache. split; [apply Hk|done].
Qed.

(** C18: every call returns within the timeout of a fetch (that of the HTTP
    client, or the default one when it has none), even when the network never
    answers and nobody cancels.  From every reachable state: whatever runs on
    takes, when no new call arrives, at most [work] steps beside the passing of
    time, and once the timeout has passed the fetcher can move by itself as long
    as some call has not returned; so the calls have all returned after some
    such run within the timeout.  Neither is a fetch cut off before its
    timeout, whatever contexts the callers have. *)
Theorem fetcher_answers st :
  reachable f st →
  (∀ acts st', Forall (λ a, internal a = true) acts → run_actions f acts st = Some st' →
     (length (List.filter (λ a, negb (tick a)) acts) <= work st)%nat ∧
     (mono st + fetch_timeout f ≤ mono st' →
      ∀ i c, calls_ st' !! i = Some c → returned c = false →
        ∃ a st2, unaided a = true ∧ step f a st' = Some st2)) ∧
  (∃ acts st', Forall (λ a, unaided a = true) acts ∧
     run_actions f (ActTick (fetch_timeout f) :: acts) st = Some st' ∧
     forallb returned (calls_ st') = true ∧ mono st' = mono st + fetch_timeout f) ∧
  (∀ n now st', step f (ActDeadline n now) st = Some st' →
     ∃ fl, flights st !! n = Some fl ∧ fl_begun fl + fetch_timeout f ≤ mono st).
Proof.
  intros Hr. pose proof (reachable_inv f st Hok Hr) as Hst. pose proof (reachable_timers f st Hr) as Ht.
  split; [|split].
  - intros acts st' Ha Hrun.
    destruct (internal_run f acts _ st st' Hok Hst Ht Ha Hrun) as (Hst' & Ht' & Hl).
    split; [lia|]. intros Htime i c. by eapply call_progress.
  - pose proof (fetch_timeout_pos f).
    assert (Hs : step f (ActTick (fetch_timeout f)) st = Some (set_mono st (mono st + fetch_timeout f))).
    { cbn [step]. by rewrite (proj2 (Z.ltb_lt _ _)). }
    set (st1 := set_mono st (mono st + fetch_timeout f)) in *.
    assert (Hst1 : inv f st1) by (by eapply inv_step).
    destruct (run_to_end f (work st1) (mono st) st1 Hok Hst1 Ht) as (acts & st' & ? & Hrun & ? & ?); [done|done|].
    exists acts, st'. split; [done|]. split; [|done]. cbn [run_actions]. rewrite Hs. exact Hrun.
  - intros n now st'. cbn [step]. destruct (flights st !! n) as [fl|] eqn:Hn; [|done]. cbn [mbind option_bind].
    destruct (fl_phase fl); try done. destruct (cut_off f fl (mono st)) eqn:Hc; [|done]. intros _.
    exists fl. split; [done|]. by eapply cut_off_timeout.
Qed.
End Theorems.

(** ** A document that may not be stored *)

(** After a "no-store" response, a Lookup within the minimum interval reports
    "not found" without an error, for every kid, the published ones too. *)
Lemma no_store_then_not_found f st n fl now s cache kid ctx now' :
  noStore cache = true → mayAttemptAt f st now' = false →
  Lookup_begin f (complete f st n fl now (Ok (s, cache))) kid ctx now' =
    (complete f st n fl now (Ok (s, cache)), LookupReturned kid (Ok None) (Some now') None).
Proof.
  intros Hn Hm. unfold complete. rewrite Hn. unfold Lookup_begin. cbn [f_set f_inflight].
  rewrite bool_decide_eq_true_2 by done. cbn [andb].
  change (mayAttemptAt f _ now') with (mayAttemptAt f st now'). by rewrite Hm.
Qed.
