(* ===== verification/Standards.v ===== *)
(** * Standards: .github/standards/diff.go, what changed since the baseline

    Snapshots of the tracked standards, the differences between two of them and
    the report.  A Go map is a [gmap]; the order in which [range] yields its keys
    is [range_keys], any permutation of them. *)

From stdpp Require Import sorting.
From S2P Require Import Prelude GoLib GoStr SortedMap.

(** The order in which a map is ranged over. *)
Class MapRange := {
  range_keys : ∀ {V : Type}, gmap bytes V → list bytes;
  range_keys_perm : ∀ V (m : gmap bytes V), range_keys m ≡ₚ (map_to_list m).*1 }.

(** ** Data (watch.go) *)

Record RFC := mkRFC {
  rfc_Title : bytes;
  rfc_Status : bytes;
  rfc_ObsoletedBy : list bytes;
  rfc_UpdatedBy : list bytes }.

Record Erratum := mkErratum { er_Status : bytes; er_Type : bytes; er_Section : bytes }.

(** [Record] of watch.go. *)
Record RegRecord := mkRegRecord {
  rr_Description : bytes;
  rr_Usage : bytes;
  rr_Requirements : bytes;
  rr_References : list bytes }.

Record Draft := mkDraft {
  dr_Title : bytes;
  dr_Rev : bytes;
  dr_State : bytes;
  dr_IESGState : bytes;
  dr_RFCEditorState : bytes;
  dr_StdLevel : bytes;
  dr_RFC : bytes }.

Record Snapshot := mkSnapshot {
  RFCs : gmap bytes RFC;
  Errata : gmap bytes (gmap bytes Erratum);
  Registries : gmap bytes (gmap bytes RegRecord);
  Drafts : gmap bytes Draft;
  Pages : gmap bytes bytes }.

Definition newSnapshot : Snapshot := mkSnapshot ∅ ∅ ∅ ∅ ∅.

(** [Config]; the members of [cfg.IANA] are registry files with sub-registries. *)
Record Config := mkConfig {
  cfg_RFCs : list Z;
  cfg_Drafts : list bytes;
  cfg_IANA : gmap bytes (list bytes);
  cfg_Pages : gmap bytes bytes;
  cfg_Impact : gmap bytes bytes;
  MaxBytes : Z }.

(** ** Changes *)

Definition sectionRFC : bytes := #"RFC status".
Definition sectionErrata : bytes := #"Errata".
Definition sectionRegistry : bytes := #"IANA registries".
Definition sectionDrafts : bytes := #"Drafts".
Definition sectionPages : bytes := #"Pages".

Definition sectionOrder : list bytes :=
  [sectionRFC; sectionErrata; sectionRegistry; sectionDrafts; sectionPages].

Record Change := mkChange {
  ch_Section : bytes;
  ch_Summary : bytes;
  ch_Link : bytes;
  ch_Impact : bytes }.

Definition orDash (s : bytes) : bytes := if bool_decide (s = []) then #"—" else s.

Definition appendIfChanged (parts : list bytes) (label before after : bytes) : list bytes :=
  if bool_decide (before = after) then parts
  else parts ++ [label ++ #" " ++ orDash before ++ #" → " ++ orDash after].

Definition added (before after : list bytes) : list bytes :=
  filter (λ v, v ∉ before) after.

(** The two loops of [unionKeys], one after the other, with the set of the keys seen. *)
Fixpoint unseen (seen : gset bytes) (keys : list bytes) : list bytes :=
  match keys with
  | [] => []
  | k :: keys => if bool_decide (k ∈ seen) then unseen seen keys else k :: unseen ({[k]} ∪ seen) keys
  end.

Section Diff.
Context `{MapRange, Unicode}.

Definition unionKeys {V} (a b : gmap bytes V) : list bytes :=
  Sort (unseen ∅ (range_keys a ++ range_keys b)).

(** The hint of the longest configured prefix of the subject. *)
Definition impactFor (cfg : Config) (subject : bytes) : bytes :=
  let best := fold_left (λ best prefix,
    if HasPrefix subject prefix && (len best <? len prefix) then prefix else best)
    (range_keys (cfg_Impact cfg)) [] in
  default [] (cfg_Impact cfg !! best).

Definition change (cfg : Config) (section subject summary link : bytes) : Change :=
  mkChange section summary link (impactFor cfg subject).

Definition diff_rfc (base cur : Snapshot) (cfg : Config) (id : bytes) : list Change :=
  let link := #"https://www.rfc-editor.org/info/" ++ ToLower id in
  let add := λ summary, change cfg sectionRFC id summary link in
  match RFCs base !! id, RFCs cur !! id with
  | _, None => [add (id ++ #": no longer tracked")]
  | None, Some c => [add (id ++ #": added to tracking (" ++ rfc_Status c ++ #")")]
  | Some b, Some c =>
      (if bool_decide (rfc_Status b = rfc_Status c) then []
       else [add (id ++ #" status " ++ rfc_Status b ++ #" → " ++ rfc_Status c)]) ++
      ((λ n, add (id ++ #" is updated by " ++ n)) <$> added (rfc_UpdatedBy b) (rfc_UpdatedBy c)) ++
      ((λ n, add (id ++ #" is obsoleted by " ++ n)) <$> added (rfc_ObsoletedBy b) (rfc_ObsoletedBy c))
  end.

Definition diff_erratum (cfg : Config) (doc : bytes) (b c : gmap bytes Erratum) (eid : bytes) : list Change :=
  let link := #"https://www.rfc-editor.org/errata/eid" ++ eid in
  let add := λ summary, change cfg sectionErrata doc (doc ++ #" erratum " ++ eid ++ summary) link in
  match b !! eid, c !! eid with
  | _, None => [add #": removed"]
  | None, Some ce =>
      [add (#" (" ++ er_Type ce ++ #", §" ++ er_Section ce ++ #"): new, " ++ er_Status ce)]
  | Some be, Some ce =>
      if bool_decide (er_Status be = er_Status ce) then []
      else [add (#": " ++ er_Status be ++ #" → " ++ er_Status ce)]
  end.

(** The entry of a map of maps, nil when absent. *)
Definition entry {V} (m : gmap bytes (gmap bytes V)) (k : bytes) : gmap bytes V := default ∅ (m !! k).

Definition diff_errata (base cur : Snapshot) (cfg : Config) (doc : bytes) : list Change :=
  let b := entry (Errata base) doc in
  let c := entry (Errata cur) doc in
  concat (diff_erratum cfg doc b c <$> unionKeys b c).

Definition record_parts (br cr : RegRecord) : list bytes :=
  let parts := appendIfChanged [] #"requirements" (rr_Requirements br) (rr_Requirements cr) in
  let parts := appendIfChanged parts #"usage" (rr_Usage br) (rr_Usage cr) in
  let parts := appendIfChanged parts #"description" (rr_Description br) (rr_Description cr) in
  appendIfChanged parts #"references" (Join (rr_References br) #" ") (Join (rr_References cr) #" ").

Definition diff_record (cfg : Config) (reg : bytes) (b c : gmap bytes RegRecord) (key : bytes) : list Change :=
  let '(file, id, _) := Cut reg "/"%byte in
  let link := #"https://www.iana.org/assignments/" ++ file ++ #"/" ++ file ++ #".xhtml#" ++ id in
  let add := λ summary, change cfg sectionRegistry reg (reg ++ #" " ++ key ++ summary) link in
  match b !! key, c !! key with
  | _, None => [add #": removed"]
  | None, Some _ => [add #": registered"]
  | Some br, Some cr =>
      let parts := record_parts br cr in
      if 0 <? len parts then [add (#": " ++ Join parts #"; ")] else []
  end.

Definition diff_registry (base cur : Snapshot) (cfg : Config) (reg : bytes) : list Change :=
  let b := entry (Registries base) reg in
  let c := entry (Registries cur) reg in
  concat (diff_record cfg reg b c <$> unionKeys b c).

Definition draft_parts (b c : Draft) : list bytes :=
  let parts := appendIfChanged [] #"rev" (dr_Rev b) (dr_Rev c) in
  let parts := appendIfChanged parts #"state" (dr_State b) (dr_State c) in
  let parts := appendIfChanged parts #"IESG" (dr_IESGState b) (dr_IESGState c) in
  let parts := appendIfChanged parts #"RFC Editor" (dr_RFCEditorState b) (dr_RFCEditorState c) in
  let parts := appendIfChanged parts #"level" (dr_StdLevel b) (dr_StdLevel c) in
  if negb (bool_decide (dr_RFC c = [])) && negb (bool_decide (dr_RFC c = dr_RFC b))
  then parts ++ [ #"published as " ++ dr_RFC c] else parts.

Definition diff_draft (base cur : Snapshot) (cfg : Config) (name : bytes) : list Change :=
  let link := #"https://datatracker.ietf.org/doc/" ++ name ++ #"/" in
  let add := λ summary, change cfg sectionDrafts name (name ++ summary) link in
  match Drafts base !! name, Drafts cur !! name with
  | _, None => [add #": no longer tracked"]
  | None, Some c => [add (#": added to tracking (rev " ++ dr_Rev c ++ #", " ++ orDash (dr_IESGState c) ++ #")")]
  | Some b, Some c =>
      let parts := draft_parts b c in
      if 0 <? len parts then [add (#": " ++ Join parts #"; ")] else []
  end.

Definition diff_page (base cur : Snapshot) (cfg : Config) (name : bytes) : list Change :=
  let link := default [] (cfg_Pages cfg !! name) in
  let add := λ summary, change cfg sectionPages name (name ++ summary) link in
  match Pages base !! name, Pages cur !! name with
  | _, None => [add #": no longer tracked"]
  | None, Some _ => [add #": added to tracking"]
  | Some b, Some c => if bool_decide (b = c) then [] else [add #": content changed"]
  end.

Definition Diff (base cur : Snapshot) (cfg : Config) : list Change :=
  concat (diff_rfc base cur cfg <$> unionKeys (RFCs base) (RFCs cur)) ++
  concat (diff_errata base cur cfg <$> unionKeys (Errata base) (Errata cur)) ++
  concat (diff_registry base cur cfg <$> unionKeys (Registries base) (Registries cur)) ++
  concat (diff_draft base cur cfg <$> unionKeys (Drafts base) (Drafts cur)) ++
  concat (diff_page base cur cfg <$> unionKeys (Pages base) (Pages cur)).
End Diff.

(** ** The report *)

Definition nl : bytes := [x0a].

Definition report_line (c : Change) : bytes :=
  #"- " ++ ch_Summary c ++
  (if bool_decide (ch_Link c = []) then [] else #" — [source](" ++ ch_Link c ++ #")") ++
  (if bool_decide (ch_Impact c = []) then [] else #" · likely impact: `" ++ ch_Impact c ++ #"`") ++ nl.

(** The changes of a section, in order. *)
Definition section_items (changes : list Change) (section : bytes) : list Change :=
  filter (λ c, ch_Section c = section) changes.

Definition report_section (changes : list Change) (section : bytes) : bytes :=
  match section_items changes section with
  | [] => []
  | items => #"## " ++ section ++ nl ++ nl ++ concat (report_line <$> items) ++ nl
  end.

Definition triage : bytes :=
  #"## Triage" ++ nl ++ nl ++
  #"1. For each item, decide whether the library, `COMPLIANCE.md` or `SECURITY.md` needs a change, and open a PR (tests first) or note why not." ++ nl ++
  #"2. Accept the new state so the next run starts from it:" ++ nl ++ nl ++
  #"   ```sh" ++ nl ++
  #"   cd .github/standards && go run . -accept" ++ nl ++
  #"   ```" ++ nl ++ nl ++
  #"3. Commit the updated `baseline.json` in a PR that closes this issue." ++ nl.

(** The errors are their texts. *)
Definition Report (changes : list Change) (fetchErrs : list bytes) (date : bytes) : bytes :=
  #"# Standards changes to review" ++ nl ++ nl ++
  #"Weekly standards watch, run on **" ++ date ++ #"**, compared with `.github/standards/baseline.json`." ++ nl ++ nl ++
  (if len changes =? 0 then #"No changes since the baseline." ++ nl else []) ++
  concat (report_section changes <$> sectionOrder) ++
  (if 0 <? len fetchErrs then
     #"## Fetch failures" ++ nl ++ nl ++
     #"These sources could not be checked; their baseline values were kept." ++ nl ++ nl ++
     concat ((λ err, #"- " ++ err ++ nl) <$> fetchErrs) ++ nl
   else []) ++
  (if 0 <? len changes then triage else []).

(** ** Facts *)

Lemma unseen_elem keys : ∀ seen k, k ∈ unseen seen keys ↔ k ∈ keys ∧ k ∉ seen.
Proof.
  induction keys as [|x keys IH]; intros seen k; cbn [unseen]; [split; [by intros ?%elem_of_nil|by intros [?%elem_of_nil _]]|].
  case_bool_decide as Hx; rewrite ?elem_of_cons, IH, ?elem_of_cons; [naive_solver|].
  destruct (decide (k = x)) as [->|Hne]; set_solver.
Qed.

Lemma unseen_NoDup keys : ∀ seen, NoDup (unseen seen keys).
Proof.
  induction keys as [|x keys IH]; intros seen; cbn [unseen]; [constructor|]. case_bool_decide; [done|].
  constructor; [|done]. rewrite unseen_elem. set_solver.
Qed.

Lemma HasPrefix_eq s p q : HasPrefix s p = true → HasPrefix s q = true → len p = len q → p = q.
Proof. unfold HasPrefix, len. intros Hp Hq Hl. bool_prop. rewrite <- Hp, <- Hq. f_equal. lia. Qed.

Section Facts.
Context `{MapRange}.

Lemma elem_range {V} (m : gmap bytes V) k : k ∈ range_keys m ↔ is_Some (m !! k).
Proof.
  rewrite range_keys_perm, list_elem_of_fmap. split.
  - intros ([k' v] & -> & Hv%elem_of_map_to_list). by exists v.
  - intros [v Hv]. exists (k, v). by rewrite elem_of_map_to_list.
Qed.

Lemma unionKeys_elem {V} (a b : gmap bytes V) k : k ∈ unionKeys a b ↔ is_Some (a !! k) ∨ is_Some (b !! k).
Proof. unfold unionKeys. rewrite elem_Sort, unseen_elem, elem_of_app, !elem_range. set_solver. Qed.

Lemma unionKeys_NoDup {V} (a b : gmap bytes V) : NoDup (unionKeys a b).
Proof. unfold unionKeys. rewrite Sort_perm. apply unseen_NoDup. Qed.

(** The longest prefix, or nothing. *)
Lemma longest_prefix subject keys : ∀ best,
  let r := fold_left (λ best prefix,
    if HasPrefix subject prefix && (len best <? len prefix) then prefix else best) keys best in
  (r = best ∨ (r ∈ keys ∧ HasPrefix subject r = true)) ∧ len best ≤ len r ∧
  ∀ k, k ∈ keys → HasPrefix subject k = true → len k ≤ len r.
Proof.
  induction keys as [|x keys IH]; intros best; cbn [fold_left]; [split; [by left|split; [done|by intros ? ?%elem_of_nil]]|].
  specialize (IH (if HasPrefix subject x && (len best <? len x) then x else best)). cbv zeta in *.
  destruct IH as (Hr & Hb & Hall).
  destruct (HasPrefix subject x) eqn:Hx; cbn [andb] in *; [destruct (len best <? len x) eqn:Hl; bool_prop|].
  - split; [|split; [lia|]].
    + destruct Hr as [->|[? ?]]; right; [split; [by left|done]|split; [by right|done]].
    + intros k [->|Hk]%elem_of_cons Hp; [done|]. by apply Hall.
  - split; [|split; [lia|]].
    + destruct Hr as [->|[? ?]]; [by left|right]. split; [by right|done].
    + intros k [->|Hk]%elem_of_cons Hp; [lia|]. by apply Hall.
  - split; [|split; [lia|]].
    + destruct Hr as [->|[? ?]]; [by left|right]. split; [by right|done].
    + intros k [->|Hk]%elem_of_cons Hp; [congruence|]. by apply Hall.
Qed.
End Facts.

(** *** The order of the maps does not matter *)

Lemma unionKeys_order (r1 r2 : MapRange) {V} (a b : gmap bytes V) :
  @unionKeys r1 V a b = @unionKeys r2 V a b.
Proof.
  unfold unionKeys. apply Sort_permuted, list.NoDup_Permutation; [apply unseen_NoDup..|]. intros k.
  by rewrite !unseen_elem, !elem_of_app, !elem_range.
Qed.

Lemma range_order (r1 r2 : MapRange) {V} (m : gmap bytes V) k :
  k ∈ @range_keys r1 V m → k ∈ @range_keys r2 V m.
Proof. by rewrite !elem_range. Qed.

Lemma impactFor_order (r1 r2 : MapRange) cfg subject : @impactFor r1 cfg subject = @impactFor r2 cfg subject.
Proof.
  unfold impactFor. pose proof (longest_prefix subject (@range_keys r1 _ (cfg_Impact cfg)) []) as H1.
  pose proof (longest_prefix subject (@range_keys r2 _ (cfg_Impact cfg)) []) as H2. cbv zeta in *.
  destruct H1 as (Hr1 & _ & Ha1), H2 as (Hr2 & _ & Ha2).
  set (x := fold_left _ (@range_keys r1 _ _) _) in *. set (y := fold_left _ (@range_keys r2 _ _) _) in *.
  assert (x = y) as ->; [|done].
  assert (Hle : ∀ u, (u = [] ∨ u ∈ @range_keys r1 _ (cfg_Impact cfg) ∧ HasPrefix subject u = true) →
    len u ≤ len y) by (intros u [->|[? ?]]; [apply len_nonneg|]; apply Ha2; [by apply (range_order r1 r2)|done]).
  assert (Hge : len y ≤ len x).
  { destruct Hr2 as [->|[? ?]]; [apply len_nonneg|]. apply Ha1; [by apply (range_order r2 r1)|done]. }
  specialize (Hle x Hr1). destruct Hr1 as [Hx|[_ Hx]], Hr2 as [Hy|[_ Hy]].
  - congruence.
  - rewrite Hx in *. symmetry. apply len_nil_inv. change (len (@nil byte)) with 0 in *. pose proof (len_nonneg y). lia.
  - rewrite Hy in *. apply len_nil_inv. change (len (@nil byte)) with 0 in *. pose proof (len_nonneg x). lia.
  - apply (HasPrefix_eq subject); [done|done|lia].
Qed.

Lemma section_order (r1 r2 : MapRange) {V} (a b : gmap bytes V) (f g : bytes → list Change) :
  (∀ k, f k = g k) → concat (f <$> @unionKeys r1 V a b) = concat (g <$> @unionKeys r2 V a b).
Proof. intros Hf. rewrite (unionKeys_order r1 r2). f_equal. apply list_fmap_ext. intros _ k _. apply Hf. Qed.

Section Order.
Context `{Unicode}.

Lemma Diff_order (r1 r2 : MapRange) base cur cfg : @Diff r1 _ base cur cfg = @Diff r2 _ base cur cfg.
Proof.
  unfold Diff. repeat (f_equal; [|]); apply section_order; intros k.
  - unfold diff_rfc, change. cbv zeta. by rewrite (impactFor_order r1 r2).
  - unfold diff_errata. cbv zeta. apply section_order. intros e. unfold diff_erratum, change. cbv zeta.
    by rewrite (impactFor_order r1 r2).
  - unfold diff_registry. cbv zeta. apply section_order. intros e. unfold diff_record, change.
    by rewrite (impactFor_order r1 r2).
  - unfold diff_draft, change. cbv zeta. by rewrite (impactFor_order r1 r2).
  - unfold diff_page, change. cbv zeta. by rewrite (impactFor_order r1 r2).
Qed.
End Order.

(** *** Which snapshots do not differ *)

(** The same keys, and related values. *)
Definition agree_on {V} (R : V → V → Prop) (a b : gmap bytes V) : Prop :=
  ∀ k, option_Forall2 R (a !! k) (b !! k).

(** The titles are not compared, and an RFC that is no longer listed as an
    update is not a change. *)
Definition rfc_same (b c : RFC) : Prop :=
  rfc_Status b = rfc_Status c ∧ rfc_UpdatedBy c ⊆ rfc_UpdatedBy b ∧ rfc_ObsoletedBy c ⊆ rfc_ObsoletedBy b.

Definition record_same (b c : RegRecord) : Prop :=
  rr_Requirements b = rr_Requirements c ∧ rr_Usage b = rr_Usage c ∧ rr_Description b = rr_Description c ∧
  Join (rr_References b) #" " = Join (rr_References c) #" ".

Definition draft_same (b c : Draft) : Prop :=
  dr_Rev b = dr_Rev c ∧ dr_State b = dr_State c ∧ dr_IESGState b = dr_IESGState c ∧
  dr_RFCEditorState b = dr_RFCEditorState c ∧ dr_StdLevel b = dr_StdLevel c ∧
  (dr_RFC c = [] ∨ dr_RFC c = dr_RFC b).

Definition same_standards (base cur : Snapshot) : Prop :=
  agree_on rfc_same (RFCs base) (RFCs cur) ∧
  (∀ doc, agree_on (λ b c, er_Status b = er_Status c) (entry (Errata base) doc) (entry (Errata cur) doc)) ∧
  (∀ reg, agree_on record_same (entry (Registries base) reg) (entry (Registries cur) reg)) ∧
  agree_on draft_same (Drafts base) (Drafts cur) ∧
  Pages base = Pages cur.

Lemma agree_refl {V} (R : V → V → Prop) (a : gmap bytes V) : (∀ v, R v v) → agree_on R a a.
Proof. intros HR k. destruct (a !! k); by constructor. Qed.

Lemma same_refl s : same_standards s s.
Proof.
  split; [by apply agree_refl|]. split; [intros; by apply agree_refl|]. split; [intros; by apply agree_refl|].
  split; [|done]. apply agree_refl. intros v. unfold draft_same. tauto.
Qed.

Lemma concat_nil {A} (l : list (list A)) : concat l = [] ↔ Forall (λ x, x = []) l.
Proof.
  induction l as [|x l IH]; [done|]. cbn [concat]. rewrite list.Forall_cons, <- IH.
  split; [by intros [? ?]%app_nil|by intros [-> ->]].
Qed.

Lemma section_nil `{MapRange} {V} (a b : gmap bytes V) (f : bytes → list Change) (P : bytes → Prop) :
  (∀ k, is_Some (a !! k) ∨ is_Some (b !! k) → f k = [] ↔ P k) →
  (∀ k, a !! k = None → b !! k = None → P k) →
  concat (f <$> unionKeys a b) = [] ↔ ∀ k, P k.
Proof.
  intros Hf Hn. rewrite concat_nil, list.Forall_fmap, list.Forall_forall. unfold compose. split.
  - intros Hall k. destruct (a !! k) eqn:Ha, (b !! k) eqn:Hb; [| | |by apply Hn];
      apply Hf, Hall; rewrite ?unionKeys_elem, ?Ha, ?Hb; eauto.
  - intros Hall k Hk%unionKeys_elem. by apply Hf.
Qed.

Lemma added_nil before after : added before after = [] ↔ after ⊆ before.
Proof.
  unfold added. split.
  - intros Hn v Hv. destruct (decide (v ∈ before)) as [|Hb]; [done|]. exfalso.
    apply (elem_of_nil v). rewrite <- Hn. by apply list_elem_of_filter.
  - intros Hs. destruct (filter _ _) as [|v l] eqn:Hl; [done|]. exfalso.
    assert (Hv : v ∈ filter (λ v, v ∉ before) after) by (rewrite Hl; by left).
    apply list_elem_of_filter in Hv as [Hv Ha]. by apply Hv, Hs.
Qed.

Lemma appendIfChanged_nil parts label b c : appendIfChanged parts label b c = [] ↔ parts = [] ∧ b = c.
Proof.
  unfold appendIfChanged. case_bool_decide; [naive_solver|]. split; [by intros [? ?]%app_nil|naive_solver].
Qed.

Lemma parts_nil (parts : list bytes) (c : Change) : (if 0 <? len parts then [c] else []) = [] ↔ parts = [].
Proof. destruct parts as [|p ps]; [done|]. rewrite (proj2 (Z.ltb_lt _ _)); [done|]. unfold len. cbn [length]. lia. Qed.

Lemma record_parts_nil b c : record_parts b c = [] ↔ record_same b c.
Proof. unfold record_parts, record_same. cbv zeta. rewrite !appendIfChanged_nil. tauto. Qed.

Lemma draft_parts_nil b c : draft_parts b c = [] ↔ draft_same b c.
Proof.
  unfold draft_parts, draft_same. cbv zeta. set (parts := appendIfChanged _ #"level" _ _).
  assert (Hp : parts = [] ↔ dr_Rev b = dr_Rev c ∧ dr_State b = dr_State c ∧ dr_IESGState b = dr_IESGState c ∧
    dr_RFCEditorState b = dr_RFCEditorState c ∧ dr_StdLevel b = dr_StdLevel c).
  { unfold parts. rewrite !appendIfChanged_nil. tauto. }
  clearbody parts. do 2 case_bool_decide; cbn [negb andb]; try tauto.
  split; [by intros [? ?]%app_nil|tauto].
Qed.

Section Nil.
Context `{MapRange, Unicode}.

Lemma diff_errata_nil base cur cfg doc :
  diff_errata base cur cfg doc = [] ↔
  agree_on (λ b c, er_Status b = er_Status c) (entry (Errata base) doc) (entry (Errata cur) doc).
Proof.
  unfold diff_errata, agree_on. cbv zeta. apply section_nil.
  - intros e He. unfold diff_erratum. cbv zeta. destruct (entry (Errata base) doc !! e), (entry (Errata cur) doc !! e);
      try (split; [done|by inversion 1]); [|by destruct He as [[]|[]]].
    case_bool_decide; (split; [|inversion 1]; done || by constructor).
  - intros e -> ->. constructor.
Qed.

Lemma diff_registry_nil base cur cfg reg :
  diff_registry base cur cfg reg = [] ↔
  agree_on record_same (entry (Registries base) reg) (entry (Registries cur) reg).
Proof.
  unfold diff_registry, agree_on. cbv zeta. apply section_nil.
  - intros e He. unfold diff_record. destruct (Cut reg _) as [[file id] ?]. cbv zeta.
    destruct (entry (Registries base) reg !! e), (entry (Registries cur) reg !! e);
      try (split; [done|by inversion 1]); [|by destruct He as [[]|[]]].
    rewrite parts_nil, record_parts_nil. split; [by constructor|by inversion 1].
  - intros e -> ->. constructor.
Qed.

Lemma agree_empty {V} (R : V → V → Prop) : agree_on R ∅ ∅.
Proof. intros k. rewrite lookup_empty. constructor. Qed.

Lemma diff_rfc_nil base cur cfg id :
  is_Some (RFCs base !! id) ∨ is_Some (RFCs cur !! id) →
  diff_rfc base cur cfg id = [] ↔ option_Forall2 rfc_same (RFCs base !! id) (RFCs cur !! id).
Proof.
  intros Hid. unfold diff_rfc. cbv zeta. destruct (RFCs base !! id) as [b|], (RFCs cur !! id) as [c|];
    try (split; [done|by inversion 1]); [|by destruct Hid as [[]|[]]].
  set (added1 := added _ _). set (added2 := added _ _).
  assert (Hs : rfc_same b c ↔ rfc_Status b = rfc_Status c ∧ added1 = [] ∧ added2 = []).
  { unfold rfc_same, added1, added2. by rewrite !added_nil. }
  clearbody added1 added2. transitivity (rfc_same b c); [|split; [by constructor|by inversion 1]].
  rewrite Hs. case_bool_decide; destruct added1, added2; naive_solver.
Qed.

Lemma Diff_nil base cur cfg : Diff base cur cfg = [] ↔ same_standards base cur.
Proof.
  assert (Happ : ∀ (l k : list Change), l ++ k = [] ↔ l = [] ∧ k = []).
  { intros l k. split; [by intros [? ?]%app_nil|by intros [-> ->]]. }
  assert (Hand : ∀ A B C D : Prop, (A ↔ B) → (C ↔ D) → A ∧ C ↔ B ∧ D) by tauto.
  assert (Hpages : Pages base = Pages cur ↔ ∀ k, option_Forall2 eq (Pages base !! k) (Pages cur !! k)).
  { split; [intros -> k; destruct (Pages cur !! k); by constructor|]. intros Hk. apply map_eq. intros k.
    by destruct (Hk k) as [? ? ->|]. }
  unfold Diff, same_standards. rewrite !Happ, Hpages. unfold agree_on at 1 4. apply Hand; [|apply Hand; [|apply Hand; [|apply Hand]]].
  - apply section_nil; [|by intros ? -> ->; constructor]. intros k. apply diff_rfc_nil.
  - apply section_nil; [intros; apply diff_errata_nil|]. intros k Hb Hc. unfold entry. rewrite Hb, Hc. apply agree_empty.
  - apply section_nil; [intros; apply diff_registry_nil|]. intros k Hb Hc. unfold entry. rewrite Hb, Hc. apply agree_empty.
  - apply section_nil; [|by intros ? -> ->; constructor]. intros k Hk. unfold diff_draft. cbv zeta.
    destruct (Drafts base !! k), (Drafts cur !! k); try (split; [done|by inversion 1]); [|by destruct Hk as [[]|[]]].
    rewrite parts_nil, draft_parts_nil. split; [by constructor|by inversion 1].
  - apply section_nil; [|by intros ? -> ->; constructor]. intros k Hk. unfold diff_page. cbv zeta.
    destruct (Pages base !! k), (Pages cur !! k); try (split; [done|by inversion 1]); [|by destruct Hk as [[]|[]]].
    case_bool_decide; (split; [|inversion 1]; done || by constructor).
Qed.
End Nil.

(** *** The report is complete *)

(** [x] occurs in [s]. *)
Definition occurs (x s : bytes) : Prop := ∃ pre post, s = pre ++ x ++ post.

Lemma occurs_refl x : occurs x x.
Proof. exists [], []. by rewrite app_nil_r. Qed.

Lemma occurs_app_l x s t : occurs x s → occurs x (s ++ t).
Proof. intros (pre & post & ->). exists pre, (post ++ t). by rewrite <- !app_assoc. Qed.

Lemma occurs_app_r x s t : occurs x t → occurs x (s ++ t).
Proof. intros (pre & post & ->). exists (s ++ pre), post. by rewrite <- !app_assoc. Qed.

Lemma occurs_concat x (l : list bytes) s : s ∈ l → occurs x s → occurs x (concat l).
Proof.
  induction l as [|t l IH]; [by intros ?%elem_of_nil|]. intros [->|Hs]%elem_of_cons Hx; cbn [concat].
  - by apply occurs_app_l.
  - apply occurs_app_r. by apply IH.
Qed.

Lemma Report_line changes errs date c :
  c ∈ changes → ch_Section c ∈ sectionOrder → occurs (report_line c) (Report changes errs date).
Proof.
  intros Hc Hs. assert (Hsec : occurs (report_line c) (report_section changes (ch_Section c))).
  { unfold report_section. assert (Hi : c ∈ section_items changes (ch_Section c)) by (by apply list_elem_of_filter).
    destruct (section_items changes (ch_Section c)) as [|i items]; [by apply elem_of_nil in Hi|].
    do 4 apply occurs_app_r. apply occurs_app_l. eapply occurs_concat; [|apply occurs_refl].
    apply list_elem_of_fmap. by exists c. }
  unfold Report. do 9 apply occurs_app_r. apply occurs_app_l. eapply occurs_concat; [|exact Hsec].
  apply list_elem_of_fmap. by exists (ch_Section c).
Qed.

Section Reported.
Context `{MapRange, Unicode}.

Lemma section_of (keys : list bytes) (f : bytes → list Change) section c :
  (∀ k c, c ∈ f k → ch_Section c = section) → c ∈ concat (f <$> keys) → ch_Section c = section.
Proof.
  intros Hf. rewrite list_elem_of_In, in_concat. intros (l & Hl%list_elem_of_In & Hc%list_elem_of_In).
  apply list_elem_of_fmap in Hl as (k & -> & _). by eapply Hf.
Qed.

(** Decides the section of a change by the cases of its definition. *)
Ltac in_section :=
  repeat match goal with
  | H : _ ∈ (match ?x with _ => _ end) |- _ => destruct x
  | H : _ ∈ [] |- _ => by apply elem_of_nil in H
  | H : _ ∈ [_] |- _ => by apply list_elem_of_singleton in H as ->
  | H : _ ∈ _ ++ _ |- _ => apply elem_of_app in H as [H|H]
  | H : _ ∈ _ <$> _ |- _ => apply list_elem_of_fmap in H as (? & -> & _); done
  end.

Lemma Diff_sections base cur cfg c : c ∈ Diff base cur cfg → ch_Section c ∈ sectionOrder.
Proof.
  unfold Diff. rewrite !elem_of_app. unfold sectionOrder.
  intros [Hc|[Hc|[Hc|[Hc|Hc]]]];
    [apply (section_of _ _ sectionRFC) in Hc as ->|apply (section_of _ _ sectionErrata) in Hc as ->
    |apply (section_of _ _ sectionRegistry) in Hc as ->|apply (section_of _ _ sectionDrafts) in Hc as ->
    |apply (section_of _ _ sectionPages) in Hc as ->];
    try (rewrite !elem_of_cons; tauto); intros k d Hd.
  - unfold diff_rfc in Hd. cbv zeta in Hd. in_section.
  - unfold diff_errata in Hd. cbv zeta in Hd. eapply section_of; [|exact Hd]. intros e d' Hd'.
    unfold diff_erratum in Hd'. cbv zeta in Hd'. in_section.
  - unfold diff_registry in Hd. cbv zeta in Hd. eapply section_of; [|exact Hd]. intros e d' Hd'.
    unfold diff_record in Hd'. cbv zeta in Hd'. in_section.
  - unfold diff_draft in Hd. cbv zeta in Hd. in_section.
  - unfold diff_page in Hd. cbv zeta in Hd. in_section.
Qed.

(** The watch is silent exactly when nothing watched has changed:
    the same sources are tracked, no RFC has another status or new updating or
    obsoleting RFCs, no erratum, record or draft has appeared, disappeared or
    changed, and every page is the same; the list of changes does not depend on
    the order the maps are ranged over in; and each change has its line in the
    report. *)
Theorem Diff_spec base cur cfg errs date :
  (Diff base cur cfg = [] ↔ same_standards base cur) ∧
  (∀ other : MapRange, @Diff other _ base cur cfg = Diff base cur cfg) ∧
  (∀ c, c ∈ Diff base cur cfg → occurs (report_line c) (Report (Diff base cur cfg) errs date)).
Proof.
  split; [apply Diff_nil|]. split; [intros other; apply Diff_order|].
  intros c Hc. apply Report_line; [done|by eapply Diff_sections].
Qed.
End Reported.
