(* ===== verification/Watch.v ===== *)
(** * Watch: .github/standards/watch.go, collecting the standards

    Each source is fetched by a goroutine of its own, which stores its result in
    one section under the lock: a run is a fold over the sources in the order they
    finish, any permutation of the tracked ones.  Errors are their texts.  The
    JSON documents are decoded by Lenient; encoding/xml and the texts of the
    errors of encoding/json are [Decoders]; the network is an argument, which
    answers for each URL and attempt. *)

From S2P Require Import Prelude GoLib GoStr SortedMap Json Lenient Alg Key Float Thumbprint Opaque Standards.

(** ** Fetching *)

(** What one attempt meets: the request cannot be made, it cannot be sent, or a
    response: the status, its text, the octets of the body and the error that
    ends it when it is not EOF. *)
Inductive reply : Type :=
  | NoRequest (err : bytes)
  | NotSent (err : bytes)
  | Replied (StatusCode : Z) (Status : bytes) (body : bytes) (bodyErr : option bytes).

(** The outcome of an attempt at a URL, and the error of the context when it is
    done before the delay of that attempt is over. *)
Record internet := mkInternet {
  answer : bytes → nat → reply;
  ctx_done : bytes → nat → option bytes }.

(** [io.ReadAll(io.LimitReader(body, n))]. *)
Definition read_body (body : bytes) (bodyErr : option bytes) (n : Z) : result bytes bytes :=
  if n <=? 0 then Ok []
  else if n <=? len body then Ok (take (Z.to_nat n) body)
  else match bodyErr with Some e => Err e | None => Ok body end.

(** An error comes with whether to try again. *)
Definition fetchOnce (url : bytes) (maxBytes : Z) (r : reply) : result (bool * bytes) bytes :=
  match r with
  | NoRequest err => Err (false, err)
  | NotSent err => Err (true, err)
  | Replied code status body bodyErr =>
      if negb (code =? 200) then
        Err ((500 <=? code) || (code =? 429), #"GET " ++ url ++ #": status " ++ status)
      else
        match read_body body bodyErr (wrap64 (maxBytes + 1)) with
        | Err err => Err (true, err)
        | Ok body =>
            if maxBytes <? len body
            then Err (false, #"GET " ++ url ++ #": response exceeds " ++ FormatInt maxBytes ++ #" bytes")
            else Ok body
        end
  end.

(** The attempts left, from [attempt] on. *)
Fixpoint fetch_loop (tries : nat) (net : internet) (url : bytes) (maxBytes : Z) (attempt : nat) (lastErr : bytes) :
    result bytes bytes :=
  match tries with
  | O => Err lastErr
  | S tries =>
      match (if (0 <? attempt)%nat then ctx_done net url attempt else None) with
      | Some err => Err err
      | None =>
          match fetchOnce url maxBytes (answer net url attempt) with
          | Ok body => Ok body
          | Err (false, err) => Err err
          | Err (true, err) => fetch_loop tries net url maxBytes (S attempt) err
          end
      end
  end.

Definition fetch (net : internet) (url : bytes) (maxBytes : Z) : result bytes bytes :=
  fetch_loop 3 net url maxBytes 0 [].

(** ** Documents *)

Record errata_doc := mkErrataDoc {
  ed_ID : bytes; ed_Doc : bytes; ed_Status : bytes; ed_Type : bytes; ed_Section : bytes }.

Record ianaRef := mkIanaRef { ref_Type : bytes; ref_Data : bytes; ref_Section : bytes }.

Record ianaRecord := mkIanaRecord {
  ia_Value : bytes; ia_Name : bytes; ia_Description : bytes; ia_Usage : bytes; ia_Requirements : bytes;
  ia_Xrefs : list ianaRef; ia_Reference : bytes }.

(** [ianaRegistry]; only the ID and the records of the children are read. *)
Record ianaRegistry := mkIanaRegistry { reg_ID : bytes; reg_Records : list ianaRecord }.

(** The struct [parseDraft] decodes into; RFC is the raw text of the member. *)
Record draft_doc := mkDraftDoc {
  dd_Title : bytes; dd_Rev : bytes; dd_State : bytes; dd_IESGState : bytes;
  dd_RFCEditorState : option bytes; dd_StdLevel : option bytes; dd_RFC : bytes }.

(** xml.Unmarshal into an [ianaRegistry], of which the children are kept, and the
    text of the error that json.Unmarshal returns for a document it refuses. *)
Inductive json_target : Type := RFCTarget | ErrataTarget | DraftTarget.

Class Decoders := {
  UnmarshalIANA : bytes → result bytes (list ianaRegistry);
  json_error : json_target → bytes → bytes }.

(** json.Unmarshal into the structs of [Collect] (an RFC as it is before the
    sorting) and of [parseDraft]. *)
Definition rfc_fields (m : list (bytes * bytes * ljson)) : option RFC :=
  title ← lfield lstring [] #"title" m;
  status ← lfield lstring [] #"status" m;
  obsoleted ← lfield lstrings [] #"obsoleted_by" m;
  updated ← lfield lstrings [] #"updated_by" m;
  Some (mkRFC title status obsoleted updated).

Definition errata_fields (m : list (bytes * bytes * ljson)) : option errata_doc :=
  id ← lfield lstring [] #"errata_id" m;
  doc ← lfield lstring [] #"doc-id" m;
  status ← lfield lstring [] #"errata_status_code" m;
  type ← lfield lstring [] #"errata_type_code" m;
  section ← lfield lstring [] #"section" m;
  Some (mkErrataDoc id doc status type section).

Definition errata_all (v : ljson) : option (list errata_doc) :=
  match v with
  | LArr l => mapM (lstruct (mkErrataDoc [] [] [] [] []) errata_fields) l
  | LNull => Some []
  | _ => None
  end.

Definition draft_fields (m : list (bytes * bytes * ljson)) : option draft_doc :=
  title ← lfield lstring [] #"title" m;
  rev ← lfield lstring [] #"rev" m;
  state ← lfield lstring [] #"state" m;
  iesg ← lfield lstring [] #"iesg_state" m;
  editor ← lfield lstring_ptr None #"rfceditor_state" m;
  level ← lfield lstring_ptr None #"std_level" m;
  rfc ← lfield lraw [] #"rfc" m;
  Some (mkDraftDoc title rev state iesg editor level rfc).

Definition UnmarshalRFC `{Decoders} (raw : bytes) : result bytes RFC :=
  of_option (json_error RFCTarget raw) (v ← lparse raw; lstruct (mkRFC [] [] [] []) rfc_fields v).

Definition UnmarshalErrata `{Decoders} (raw : bytes) : result bytes (list errata_doc) :=
  of_option (json_error ErrataTarget raw) (v ← lparse raw; errata_all v).

Definition UnmarshalDraft `{Decoders} (raw : bytes) : result bytes draft_doc :=
  of_option (json_error DraftTarget raw)
    (v ← lparse raw; lstruct (mkDraftDoc [] [] [] [] None None []) draft_fields v).

(** The characters of [\s]. *)
Definition re_space (c : byte) : bool := bool_decide (c ∈ [x09; x0a; x0c; x0d; x20]).

(** [spaces.ReplaceAllString(s, " ")]; [in_run] holds inside a run. *)
Fixpoint replace_spaces (in_run : bool) (s : bytes) : bytes :=
  match s with
  | [] => []
  | c :: s =>
      if re_space c then if in_run then replace_spaces true s else x20 :: replace_spaces true s
      else c :: replace_spaces false s
  end.

Definition collapse (s : bytes) : bytes := TrimSpace (replace_spaces false s).

Definition recordValue (r : ianaRecord) : bytes :=
  let v := collapse (ia_Value r) in
  if bool_decide (v = []) then collapse (ia_Name r) else v.

Definition record_refs (r : ianaRecord) : list bytes :=
  ((λ x, if bool_decide (ref_Section x = []) then ref_Data x else ref_Data x ++ #"#" ++ ref_Section x) <$>
     filter (λ x, ref_Type x ≠ #"person") (ia_Xrefs r)) ++
  (let t := collapse (ia_Reference r) in if bool_decide (t = []) then [] else [t]).

Definition normalize (r : ianaRecord) : RegRecord :=
  mkRegRecord (collapse (ia_Description r)) (collapse (ia_Usage r)) (collapse (ia_Requirements r))
    (Sort (record_refs r)).

(** The loop that numbers a key until it is free; the size of the map is enough
    fuel. *)
Fixpoint fresh_key (fuel : nat) (recs : gmap bytes RegRecord) (base key : bytes) (n : Z) : bytes :=
  match recs !! key with
  | None => key
  | Some _ =>
      match fuel with
      | O => key
      | S fuel => fresh_key fuel recs base (base ++ #"#" ++ FormatInt n) (n + 1)
      end
  end.

Definition value_counts (records : list ianaRecord) : gmap bytes Z :=
  fold_left (λ count r, <[recordValue r := default 0 (count !! recordValue r) + 1]> count) records ∅.

Definition add_record (count : gmap bytes Z) (recs : gmap bytes RegRecord) (r : ianaRecord) : gmap bytes RegRecord :=
  let key := recordValue r in
  let key := if 1 <? default 0 (count !! key) then key ++ #"|" ++ TrimSpace (ia_Usage r) else key in
  <[fresh_key (size recs) recs key key 2 := normalize r]> recs.

Definition registry_records (reg : ianaRegistry) : gmap bytes RegRecord :=
  fold_left (add_record (value_counts (reg_Records reg))) (reg_Records reg) ∅.

(** [len(only) > 0 && !slices.Contains(only, reg.ID)] is false. *)
Definition wanted (only : list bytes) (reg : ianaRegistry) : bool :=
  bool_decide (only = []) || bool_decide (reg_ID reg ∈ only).

Section Collect.
Context `{Decoders, MapRange, Crypto}.

Definition parseIANA (raw : bytes) (only : list bytes) : result bytes (gmap bytes (gmap bytes RegRecord)) :=
  children ← UnmarshalIANA raw;
  if len children =? 0 then Err #"no sub-registries found"
  else Ok (fold_left (λ out reg, if wanted only reg then <[reg_ID reg := registry_records reg]> out else out)
             children ∅).

Definition parseDraft (raw : bytes) : result bytes Draft :=
  doc ← UnmarshalDraft raw;
  if bool_decide (dd_Rev doc = []) then Err #"document has no rev"
  else
    let rfc := TrimRight (TrimLeft (dd_RFC doc) [x22; x20]) [x22; x20] in
    Ok (mkDraft (dd_Title doc) (dd_Rev doc) (dd_State doc) (dd_IESGState doc)
          (default [] (dd_RFCEditorState doc)) (default [] (dd_StdLevel doc))
          (if negb (bool_decide (rfc = [])) && negb (bool_decide (rfc = #"null"))
           then if HasPrefix rfc #"RFC" then rfc else #"RFC" ++ rfc
           else [])).

Definition hashPage (raw : bytes) : bytes := hex_EncodeToString (HashSum SHA256 (collapse raw)).

(** ** Collecting *)

Record Endpoints := mkEndpoints { ep_RFCEditor : bytes; ep_IANA : bytes; ep_Datatracker : bytes }.

Definition DefaultEndpoints : Endpoints :=
  mkEndpoints #"https://www.rfc-editor.org" #"https://www.iana.org" #"https://datatracker.ietf.org".

Definition defaultMaxBytes : Z := Z.shiftl 64 20.

Definition max_bytes (cfg : Config) : Z := if MaxBytes cfg <=? 0 then defaultMaxBytes else MaxBytes cfg.

(** [SourceError]. *)
Record SourceError := mkSourceError {
  se_Source : bytes; se_kind : bytes; se_key : bytes; se_Err : bytes }.

Definition SourceError_Error (e : SourceError) : bytes := se_Source e ++ #": " ++ se_Err e.

Definition rfcID (n : Z) : bytes := #"RFC" ++ FormatInt n.

(** A goroutine: what it fetches. *)
Inductive task : Type :=
  | TRFC (n : Z)
  | TErrata
  | TIANA (file : bytes) (only : list bytes)
  | TDraft (name : bytes)
  | TPage (name url : bytes).

#[local] Instance task_eq_dec : EqDecision task.
Proof using. solve_decision. Defined.

(** In the order the goroutines are started. *)
Definition tasks (cfg : Config) : list task :=
  (TRFC <$> cfg_RFCs cfg) ++ [TErrata] ++
  ((λ file, TIANA file (default [] (cfg_IANA cfg !! file))) <$> range_keys (cfg_IANA cfg)) ++
  (TDraft <$> cfg_Drafts cfg) ++
  ((λ name, TPage name (default [] (cfg_Pages cfg !! name))) <$> range_keys (cfg_Pages cfg)).

Definition task_url (ep : Endpoints) (t : task) : bytes :=
  match t with
  | TRFC n => ep_RFCEditor ep ++ #"/rfc/rfc" ++ FormatInt n ++ #".json"
  | TErrata => ep_RFCEditor ep ++ #"/api/v1/errata.json"
  | TIANA file _ => ep_IANA ep ++ #"/assignments/" ++ file ++ #"/" ++ file ++ #".xml"
  | TDraft name => ep_Datatracker ep ++ #"/doc/" ++ name ++ #"/doc.json"
  | TPage _ url => url
  end.

(** The error a failing goroutine reports. *)
Definition task_error (t : task) (err : bytes) : SourceError :=
  match t with
  | TRFC n => mkSourceError (#"RFC Editor " ++ rfcID n) #"rfc" (rfcID n) err
  | TErrata => mkSourceError #"RFC Editor errata" #"errata" [] err
  | TIANA file _ => mkSourceError (#"IANA " ++ file) #"iana" file err
  | TDraft name => mkSourceError (#"Datatracker " ++ name) #"draft" name err
  | TPage name _ => mkSourceError name #"page" name err
  end.

(** What a goroutine has parsed. *)
Inductive parsed : Type :=
  | PRFC (id : bytes) (v : RFC)
  | PErrata (all : list errata_doc)
  | PIANA (file : bytes) (regs : gmap bytes (gmap bytes RegRecord))
  | PDraft (name : bytes) (d : Draft)
  | PPage (name hash : bytes).

Definition parse_task (t : task) (raw : bytes) : result bytes parsed :=
  match t with
  | TRFC n =>
      doc ← UnmarshalRFC raw;
      Ok (PRFC (rfcID n) (mkRFC (rfc_Title doc) (rfc_Status doc) (Sort (rfc_ObsoletedBy doc)) (Sort (rfc_UpdatedBy doc))))
  | TErrata => all ← UnmarshalErrata raw; Ok (PErrata all)
  | TIANA file only => regs ← parseIANA raw only; Ok (PIANA file regs)
  | TDraft name => d ← parseDraft raw; Ok (PDraft name d)
  | TPage name _ => Ok (PPage name (hashPage raw))
  end.

Definition task_result (cfg : Config) (ep : Endpoints) (net : internet) (t : task) : result bytes parsed :=
  raw ← fetch net (task_url ep t) (max_bytes cfg); parse_task t raw.

(** The loop over the errata. *)
Definition add_erratum (tracked : list bytes) (m : gmap bytes (gmap bytes Erratum)) (e : errata_doc) :
    gmap bytes (gmap bytes Erratum) :=
  if bool_decide (ed_Doc e ∈ tracked)
  then <[ed_Doc e := <[ed_ID e := mkErratum (ed_Status e) (ed_Type e) (ed_Section e)]> (entry m (ed_Doc e))]> m
  else m.

(** The section under the lock. *)
Definition store (cfg : Config) (s : Snapshot) (p : parsed) : Snapshot :=
  match p with
  | PRFC id v => mkSnapshot (<[id := v]> (RFCs s)) (Errata s) (Registries s) (Drafts s) (Pages s)
  | PErrata all =>
      mkSnapshot (RFCs s) (fold_left (add_erratum (rfcID <$> cfg_RFCs cfg)) all (Errata s)) (Registries s)
        (Drafts s) (Pages s)
  | PIANA file regs =>
      mkSnapshot (RFCs s) (Errata s)
        (fold_left (λ m id, <[file ++ #"/" ++ id := entry regs id]> m) (range_keys regs) (Registries s))
        (Drafts s) (Pages s)
  | PDraft name d => mkSnapshot (RFCs s) (Errata s) (Registries s) (<[name := d]> (Drafts s)) (Pages s)
  | PPage name hash => mkSnapshot (RFCs s) (Errata s) (Registries s) (Drafts s) (<[name := hash]> (Pages s))
  end.

Definition run_task (cfg : Config) (ep : Endpoints) (net : internet) (st : Snapshot * list SourceError) (t : task) :
    Snapshot * list SourceError :=
  match task_result cfg ep net t with
  | Ok p => (store cfg st.1 p, st.2)
  | Err err => (st.1, st.2 ++ [task_error t err])
  end.

(** [slices.SortFunc] by message. *)
Fixpoint insert_error (e : SourceError) (l : list SourceError) : list SourceError :=
  match l with
  | [] => [e]
  | f :: l => if blt (SourceError_Error f) (SourceError_Error e) then f :: insert_error e l else e :: f :: l
  end.

Definition sort_errors (l : list SourceError) : list SourceError := fold_right insert_error [] l.

(** [Collect], with the goroutines finishing in the order [order]. *)
Definition Collect (order : list task) (net : internet) (cfg : Config) (ep : Endpoints) : Snapshot * list SourceError :=
  let '(snap, errs) := fold_left (run_task cfg ep net) order (newSnapshot, []) in
  (snap, sort_errors errs).

(** ** Keeping the baseline of the sources that failed *)

Definition copy_entry {V} (key : bytes) (base m : gmap bytes V) : gmap bytes V :=
  match base !! key with Some v => <[key := v]> m | None => m end.

Definition keep_one (base s : Snapshot) (se : SourceError) : Snapshot :=
  if bool_decide (se_kind se = #"rfc") then
    mkSnapshot (copy_entry (se_key se) (RFCs base) (RFCs s)) (Errata s) (Registries s) (Drafts s) (Pages s)
  else if bool_decide (se_kind se = #"errata") then
    mkSnapshot (RFCs s) (Errata base ∪ Errata s) (Registries s) (Drafts s) (Pages s)
  else if bool_decide (se_kind se = #"iana") then
    mkSnapshot (RFCs s) (Errata s)
      (fold_left (λ m id, if HasPrefix id (se_key se ++ #"/") then <[id := entry (Registries base) id]> m else m)
         (range_keys (Registries base)) (Registries s))
      (Drafts s) (Pages s)
  else if bool_decide (se_kind se = #"draft") then
    mkSnapshot (RFCs s) (Errata s) (Registries s) (copy_entry (se_key se) (Drafts base) (Drafts s)) (Pages s)
  else if bool_decide (se_kind se = #"page") then
    mkSnapshot (RFCs s) (Errata s) (Registries s) (Drafts s) (copy_entry (se_key se) (Pages base) (Pages s))
  else s.

Definition KeepFrom (s base : Snapshot) (errs : list SourceError) : Snapshot :=
  fold_left (keep_one base) errs s.
End Collect.

(** ** Registry files lose no record *)

Lemma FormatInt_inj a b : FormatInt a = FormatInt b → a = b.
Proof.
  intros Hab. pose proof (FormatInt_value a) as Ha. pose proof (FormatInt_value b) as Hb. rewrite Hab in Ha.
  destruct (eat _ (FormatInt b)); destruct Ha as [Ha _], Hb as [Hb _]; congruence.
Qed.

Lemma rfcID_inj a b : rfcID a = rfcID b → a = b.
Proof. intros Hab. by apply FormatInt_inj, (app_inv_head #"RFC"). Qed.

Lemma distinct_keys_bound {V} (m : gmap bytes V) (l : list bytes) :
  NoDup l → (∀ k, k ∈ l → is_Some (m !! k)) → (length l <= size m)%nat.
Proof.
  intros Hnd Hl. rewrite <- (size_list_to_set (C := gset bytes) l), <- size_dom by done.
  apply subseteq_size. intros k Hk. rewrite elem_of_list_to_set in Hk. by apply elem_of_dom, Hl.
Qed.

(** The keys tried before the [n]-th suffix. *)
Lemma fresh_key_free recs base fuel : ∀ used key n,
  (size recs <= fuel + length used)%nat → NoDup (key :: used) →
  (∀ k, k ∈ key :: used → k = base ∨ ∃ m, m < n ∧ k = base ++ #"#" ++ FormatInt m) →
  (∀ k, k ∈ used → is_Some (recs !! k)) →
  recs !! fresh_key fuel recs base key n = None.
Proof.
  induction fuel as [|fuel IH]; intros used key n Hf Hnd Hform Hused; cbn [fresh_key];
    destruct (recs !! key) as [r|] eqn:Hk; try done.
  - exfalso. assert (Hb : (length (key :: used) <= size recs)%nat).
    { apply distinct_keys_bound; [done|]. intros k [->|?]%elem_of_cons; [by exists r|by apply Hused]. }
    simpl in *. lia.
  - apply (IH (key :: used)).
    + simpl. lia.
    + constructor; [|done]. intros [Hb|(m & Hm & Hb)]%Hform.
      * apply (f_equal length) in Hb. rewrite !length_app in Hb. simpl in Hb. lia.
      * apply app_inv_head, (app_inv_head #"#"), FormatInt_inj in Hb. lia.
    + intros k [->|Hin]%elem_of_cons; [right; exists n; split; [lia|done]|].
      destruct (Hform k Hin) as [|(m & Hm & Hb)]; [by left|right]. exists m. split; [lia|done].
    + intros k [->|?]%elem_of_cons; [by exists r|by apply Hused].
Qed.

Lemma fresh_key_new recs key : recs !! fresh_key (size recs) recs key key 2 = None.
Proof.
  apply (fresh_key_free recs key (size recs) []); [cbn [length]; lia|apply NoDup_singleton| |by intros ? ?%elem_of_nil].
  intros k ->%list_elem_of_singleton. by left.
Qed.

Lemma add_records count records : ∀ recs,
  ∃ keys, NoDup keys ∧ length keys = length records ∧ (∀ k, k ∈ keys → recs !! k = None) ∧
    fold_left (add_record count) records recs = list_to_map (zip keys (normalize <$> records)) ∪ recs.
Proof.
  induction records as [|r records IH]; intros recs; cbn [fold_left].
  { exists []. split; [constructor|]. split; [done|]. split; [by intros ? ?%elem_of_nil|]. symmetry. apply (left_id_L ∅ (∪)). }
  unfold add_record at 2. cbv zeta. set (base := if _ <? _ then _ else _).
  pose proof (fresh_key_new recs base) as Hf. set (key := fresh_key _ _ _ _ _) in *.
  destruct (IH (<[key := normalize r]> recs)) as (keys & Hnd & Hl & Hnone & Heq).
  exists (key :: keys). split; [|split; [by simpl; rewrite Hl|split]].
  - constructor; [|done]. intros Hin%Hnone. by rewrite lookup_insert_eq in Hin.
  - intros k [->|Hin]%elem_of_cons; [done|]. apply Hnone in Hin. by apply lookup_insert_None in Hin as [? _].
  - rewrite Heq. change (list_to_map (zip (key :: keys) (normalize <$> r :: records)))
      with (<[key := normalize r]> (list_to_map (zip keys (normalize <$> records)) : gmap bytes RegRecord)).
    rewrite <- insert_union_r, insert_union_l; [done|].
    apply not_elem_of_list_to_map_1. intros Hin. apply list_elem_of_fmap in Hin as ([k v] & -> & Hin%elem_of_zip_l).
    apply Hnone in Hin. by rewrite lookup_insert_eq in Hin.
Qed.

Lemma registry_records_keys reg :
  ∃ keys, NoDup keys ∧ length keys = length (reg_Records reg) ∧
    registry_records reg = list_to_map (zip keys (normalize <$> reg_Records reg)).
Proof.
  destruct (add_records (value_counts (reg_Records reg)) (reg_Records reg) ∅) as (keys & Hnd & Hl & _ & Heq).
  exists keys. split; [done|]. split; [done|]. unfold registry_records. by rewrite Heq, map_union_empty.
Qed.

(** A registry file is refused when it has no
    sub-registries; otherwise exactly the wanted sub-registries are there, and
    each keeps every one of its records under a key of its own: records that
    share a value, or a value and a usage, never replace one another. *)
Theorem parseIANA_complete `{Decoders} raw only out :
  parseIANA raw only = Ok out →
  ∃ children, UnmarshalIANA raw = Ok children ∧ children ≠ [] ∧
    (∀ id, is_Some (out !! id) ↔ ∃ reg, reg ∈ children ∧ wanted only reg = true ∧ reg_ID reg = id) ∧
    ∀ id recs, out !! id = Some recs → ∃ reg keys, reg ∈ children ∧ reg_ID reg = id ∧
      NoDup keys ∧ length keys = length (reg_Records reg) ∧
      recs = list_to_map (zip keys (normalize <$> reg_Records reg)).
Proof.
  unfold parseIANA. intros (children & Hu & Hp)%bind_Ok. exists children. split; [done|].
  destruct (len children =? 0) eqn:Hl; bool_prop; [done|]. apply Ok_inj in Hp. split; [by intros ->|].
  assert (Hfold : ∀ m : gmap bytes (gmap bytes RegRecord),
    let out := fold_left (λ out reg, if wanted only reg then <[reg_ID reg := registry_records reg]> out else out) children m in
    (∀ id, is_Some (out !! id) ↔ is_Some (m !! id) ∨ ∃ reg, reg ∈ children ∧ wanted only reg = true ∧ reg_ID reg = id) ∧
    ∀ id recs, out !! id = Some recs → m !! id = Some recs ∨ ∃ reg, reg ∈ children ∧ reg_ID reg = id ∧ recs = registry_records reg).
  { clear. induction children as [|reg children IH]; intros m; cbn [fold_left].
    { split; [|by left]. intros id. split; [by left|]. intros [?|(? & ?%elem_of_nil & _)]; done. }
    specialize (IH (if wanted only reg then <[reg_ID reg := registry_records reg]> m else m)). cbv zeta in *.
    destruct IH as [IH1 IH2]. split.
    - intros id. rewrite IH1. setoid_rewrite elem_of_cons. destruct (wanted only reg) eqn:Hw; [|naive_solver congruence].
      rewrite lookup_insert_is_Some. destruct (decide (reg_ID reg = id)); naive_solver.
    - intros id recs Hr. setoid_rewrite elem_of_cons. apply IH2 in Hr as [Hr|(r & ? & ? & ?)]; [|right; exists r; auto].
      destruct (wanted only reg); [|by left]. apply lookup_insert_Some in Hr as [[? ?]|[_ ?]]; [|by left].
      right. exists reg. auto. }
  destruct (Hfold ∅) as [H1 H2]. rewrite Hp in H1, H2. split.
  - intros id. rewrite H1, lookup_empty. split; [intros [[]|?]; done|by right].
  - intros id recs [Hn|(reg & Hin & Hid & ->)]%H2; [by rewrite lookup_empty in Hn|].
    destruct (registry_records_keys reg) as (keys & Hnd & Hlen & Heq). by exists reg, keys.
Qed.

(** A body is the one of the first attempt that did not ask for another. *)
Lemma fetch_Ok net url maxBytes body :
  fetch net url maxBytes = Ok body →
  ∃ attempt, (attempt < 3)%nat ∧ fetchOnce url maxBytes (answer net url attempt) = Ok body ∧
    ∀ earlier, (earlier < attempt)%nat → ∃ err, fetchOnce url maxBytes (answer net url earlier) = Err (true, err).
Proof.
  assert (Hloop : ∀ tries attempt last, fetch_loop tries net url maxBytes attempt last = Ok body →
    (∀ earlier, (earlier < attempt)%nat → ∃ err, fetchOnce url maxBytes (answer net url earlier) = Err (true, err)) →
    ∃ a, (a < attempt + tries)%nat ∧ fetchOnce url maxBytes (answer net url a) = Ok body ∧
      ∀ earlier, (earlier < a)%nat → ∃ err, fetchOnce url maxBytes (answer net url earlier) = Err (true, err)).
  { induction tries as [|tries IH]; intros attempt last; cbn [fetch_loop]; [done|].
    destruct (if (0 <? attempt)%nat then _ else None); [done|].
    destruct (fetchOnce url maxBytes (answer net url attempt)) as [b|[[] err]] eqn:E; [|intros Hr He|done].
    - intros [= ->] He. exists attempt. split; [lia|]. done.
    - destruct (IH _ _ Hr) as (a & Ha & Hb).
      + intros earlier Hl. destruct (decide (earlier = attempt)) as [->|]; [by exists err|]. apply He. lia.
      + exists a. split; [lia|done]. }
  intros Hr. apply (Hloop 3%nat 0%nat [] Hr). lia.
Qed.

Lemma replace_run ws b st :
  ws ≠ [] → Forall (λ c, re_space c = true) ws →
  replace_spaces st (ws ++ b) = (if st then [] else [x20]) ++ replace_spaces true b.
Proof.
  intros Hne Hws. destruct Hws as [|c ws Hc Hws]; [done|]. cbn [app replace_spaces]. rewrite Hc.
  assert (Hr : replace_spaces true (ws ++ b) = replace_spaces true b).
  { clear Hne. induction Hws as [|d ws Hd _ IH]; [done|]. cbn [app replace_spaces]. by rewrite Hd. }
  rewrite Hr. by destruct st.
Qed.

(** Only whether there is white space is fingerprinted, not which. *)
Lemma hashPage_spaces `{Crypto} a ws ws' b :
  ws ≠ [] → ws' ≠ [] → Forall (λ c, re_space c = true) ws → Forall (λ c, re_space c = true) ws' →
  hashPage (a ++ ws ++ b) = hashPage (a ++ ws' ++ b).
Proof.
  intros Hn Hn' Hw Hw'. unfold hashPage, collapse. do 3 f_equal.
  assert (Hr : ∀ st, replace_spaces st (a ++ ws ++ b) = replace_spaces st (a ++ ws' ++ b)).
  { induction a as [|c a IH]; intros st; cbn [app]; [by rewrite !replace_run|]. cbn [replace_spaces]. by rewrite !IH. }
  apply Hr.
Qed.
