(* ===== verification/Outage.v ===== *)
(** * Outage: .github/standards/main.go, and what a failed source does to a run

    A run of Watch.v assigns to the entries of five maps; as sequences of
    assignments the runs of a configuration are compared, whatever the order the
    goroutines finish in.  Then the command: what it prints and writes, and that
    an accepted state stays silent through outages. *)

From S2P Require Import Prelude GoLib GoStr SortedMap Alg Standards Watch.

(** ** Maps as sequences of assignments *)

Definition apply_writes {V} (l : list (bytes * V)) (m : gmap bytes V) : gmap bytes V :=
  fold_left (λ m kv, <[kv.1 := kv.2]> m) l m.

Definition functional {V} (l : list (bytes * V)) : Prop := ∀ k v v', (k, v) ∈ l → (k, v') ∈ l → v = v'.

Lemma apply_writes_app {V} (l1 l2 : list (bytes * V)) m :
  apply_writes (l1 ++ l2) m = apply_writes l2 (apply_writes l1 m).
Proof. apply fold_left_app. Qed.

Lemma apply_writes_cases {V} (l : list (bytes * V)) : ∀ m k v,
  apply_writes l m !! k = Some v → (k, v) ∈ l ∨ (k ∉ l.*1 ∧ m !! k = Some v).
Proof.
  induction l as [|[k0 v0] l IH]; intros m k v Hv; [right; split; [by intros ?%elem_of_nil|done]|].
  destruct (IH _ _ _ Hv) as [Hin|[Hn Hm]]; [left; by right|]. cbn [fst snd] in Hm.
  apply lookup_insert_Some in Hm as [[-> ->]|[Hne Hm]]; [left; by left|right].
  split; [|done]. rewrite fmap_cons, not_elem_of_cons. cbn [fst]. naive_solver.
Qed.

Lemma apply_writes_some {V} (l : list (bytes * V)) : ∀ m k,
  k ∈ l.*1 ∨ is_Some (m !! k) → is_Some (apply_writes l m !! k).
Proof.
  induction l as [|[k0 v0] l IH]; intros m k Hk; [by destruct Hk as [?%elem_of_nil|?]|].
  apply IH. rewrite fmap_cons, elem_of_cons in Hk. cbn [fst snd] in *.
  destruct (decide (k = k0)) as [->|Hne]; [right; rewrite lookup_insert_eq; by eexists|].
  rewrite lookup_insert_ne by done. naive_solver.
Qed.

Lemma apply_writes_lookup {V} (l : list (bytes * V)) k v :
  functional l → apply_writes l ∅ !! k = Some v ↔ (k, v) ∈ l.
Proof.
  intros Hf. split.
  - intros [?|[_ Hn]]%apply_writes_cases; [done|]. by rewrite lookup_empty in Hn.
  - intros Hin. destruct (apply_writes_some l ∅ k) as [v' Hv].
    { left. apply list_elem_of_fmap. by exists (k, v). }
    rewrite Hv. destruct (apply_writes_cases _ _ _ _ Hv) as [Hin'|[_ Hn]].
    + f_equal. by apply (Hf k).
    + by rewrite lookup_empty in Hn.
Qed.

(** The assignments of a parsed document, map by map. *)
Definition rfc_writes (p : parsed) : list (bytes * RFC) := match p with PRFC id v => [(id, v)] | _ => [] end.
Definition draft_writes (p : parsed) : list (bytes * Draft) := match p with PDraft name d => [(name, d)] | _ => [] end.
Definition page_writes (p : parsed) : list (bytes * bytes) := match p with PPage name h => [(name, h)] | _ => [] end.
Definition registry_writes `{MapRange} (p : parsed) : list (bytes * gmap bytes RegRecord) :=
  match p with
  | PIANA file regs => (λ id, (file ++ #"/" ++ id, entry regs id)) <$> range_keys regs
  | _ => []
  end.

Section Stored.
Context `{Decoders, MapRange, Crypto}.

Lemma registry_fold (file : bytes) (regs : gmap bytes (gmap bytes RegRecord)) (keys : list bytes) : ∀ m,
  fold_left (λ m id, <[file ++ #"/" ++ id := entry regs id]> m) keys m =
  apply_writes ((λ id, (file ++ #"/" ++ id, entry regs id)) <$> keys) m.
Proof. induction keys as [|k keys IH]; intros m; [done|]. rewrite fmap_cons. cbn [fold_left]. by rewrite IH. Qed.

Definition store_all (cfg : Config) (ps : list parsed) (s : Snapshot) : Snapshot := fold_left (store cfg) ps s.

Lemma store_all_maps cfg ps : ∀ s,
  RFCs (store_all cfg ps s) = apply_writes (flat_map rfc_writes ps) (RFCs s) ∧
  Registries (store_all cfg ps s) = apply_writes (flat_map registry_writes ps) (Registries s) ∧
  Drafts (store_all cfg ps s) = apply_writes (flat_map draft_writes ps) (Drafts s) ∧
  Pages (store_all cfg ps s) = apply_writes (flat_map page_writes ps) (Pages s).
Proof.
  induction ps as [|p ps IH]; intros s; [done|]. cbn [flat_map]. rewrite !apply_writes_app.
  change (store_all cfg (p :: ps) s) with (store_all cfg ps (store cfg s p)).
  destruct (IH (store cfg s p)) as (-> & -> & -> & ->). destruct p; try done.
  cbn [store RFCs Registries Drafts Pages rfc_writes registry_writes draft_writes page_writes].
  by rewrite registry_fold.
Qed.

(** The errata come from the one goroutine that fetches them. *)
Lemma store_all_errata cfg ps : ∀ s,
  (∀ all, PErrata all ∉ ps) → Errata (store_all cfg ps s) = Errata s.
Proof.
  induction ps as [|p ps IH]; intros s Hp; [done|].
  change (store_all cfg (p :: ps) s) with (store_all cfg ps (store cfg s p)). rewrite IH.
  - destruct p; try done. exfalso. apply (Hp all). by left.
  - intros all Hin. apply (Hp all). by right.
Qed.

(** What the goroutines parse and which of them fail. *)
Definition parsed_of cfg ep net (order : list task) : list parsed :=
  omap (λ t, match task_result cfg ep net t with Ok p => Some p | Err _ => None end) order.

Definition errors_of cfg ep net (order : list task) : list SourceError :=
  omap (λ t, match task_result cfg ep net t with Ok _ => None | Err err => Some (task_error t err) end) order.

Lemma run_tasks cfg ep net order : ∀ s errs,
  fold_left (run_task cfg ep net) order (s, errs) =
  (store_all cfg (parsed_of cfg ep net order) s, errs ++ errors_of cfg ep net order).
Proof.
  induction order as [|t order IH]; intros s errs; [cbn; by rewrite app_nil_r|]. cbn [fold_left].
  unfold run_task at 2. unfold parsed_of, errors_of. cbn [omap list_omap fst snd].
  destruct (task_result cfg ep net t) as [p|err]; rewrite IH; [done|]. by rewrite <- app_assoc.
Qed.

Lemma insert_error_perm e l : insert_error e l ≡ₚ e :: l.
Proof.
  induction l as [|f l IH]; [done|]. cbn [insert_error]. destruct (blt _ _); [|done]. rewrite IH. apply Permutation_swap.
Qed.

Lemma sort_errors_perm l : sort_errors l ≡ₚ l.
Proof.
  induction l as [|e l IH]; [done|]. change (insert_error e (sort_errors l) ≡ₚ e :: l). by rewrite insert_error_perm, IH.
Qed.

Lemma Collect_eq order net cfg ep :
  Collect order net cfg ep =
  (store_all cfg (parsed_of cfg ep net order) newSnapshot, sort_errors (errors_of cfg ep net order)).
Proof. unfold Collect. by rewrite run_tasks. Qed.

Lemma elem_parsed cfg ep net order p :
  p ∈ parsed_of cfg ep net order ↔ ∃ t, t ∈ order ∧ task_result cfg ep net t = Ok p.
Proof.
  unfold parsed_of. rewrite list_elem_of_omap. split; intros (t & Ht & Hr); exists t; (split; [done|]).
  - destruct (task_result cfg ep net t); [by injection Hr as ->|done].
  - by rewrite Hr.
Qed.

Lemma elem_errors cfg ep net order e :
  e ∈ sort_errors (errors_of cfg ep net order) ↔
  ∃ t err, t ∈ order ∧ task_result cfg ep net t = Err err ∧ e = task_error t err.
Proof.
  rewrite sort_errors_perm. unfold errors_of. rewrite list_elem_of_omap. split.
  - intros (t & Ht & Hr). destruct (task_result cfg ep net t) as [|err] eqn:E; [done|]. injection Hr as <-. by exists t, err.
  - intros (t & err & Ht & Hr & ->). exists t. by rewrite Hr.
Qed.

Lemma elem_writes {V} (w : parsed → list (bytes * V)) ps kv :
  kv ∈ flat_map w ps ↔ ∃ p, p ∈ ps ∧ kv ∈ w p.
Proof.
  rewrite list_elem_of_In, in_flat_map. by setoid_rewrite list_elem_of_In.
Qed.
End Stored.

(** ** An outage keeps the baseline *)

Record snap_sub (s t : Snapshot) : Prop := {
  sub_RFCs : RFCs s ⊆ RFCs t;
  sub_Errata : Errata s ⊆ Errata t;
  sub_Registries : Registries s ⊆ Registries t;
  sub_Drafts : Drafts s ⊆ Drafts t;
  sub_Pages : Pages s ⊆ Pages t }.

Lemma snap_sub_refl s : snap_sub s s.
Proof. by split. Qed.

Lemma snap_sub_trans s t u : snap_sub s t → snap_sub t u → snap_sub s u.
Proof. intros [] []. split; by etrans. Qed.

Lemma snap_sub_antisym s t : snap_sub s t → snap_sub t s → s = t.
Proof. destruct s, t. intros [] []. cbn in *. f_equal; by apply (anti_symm (⊆)). Qed.

(** The baseline entries the failure of a source stands for. *)
Record covered (base s : Snapshot) (e : SourceError) : Prop := {
  cov_rfc : se_kind e = #"rfc" → ∀ v, RFCs base !! se_key e = Some v → RFCs s !! se_key e = Some v;
  cov_errata : se_kind e = #"errata" → Errata base ⊆ Errata s;
  cov_iana : se_kind e = #"iana" → ∀ id v, HasPrefix id (se_key e ++ #"/") = true →
    Registries base !! id = Some v → Registries s !! id = Some v;
  cov_draft : se_kind e = #"draft" → ∀ v, Drafts base !! se_key e = Some v → Drafts s !! se_key e = Some v;
  cov_page : se_kind e = #"page" → ∀ v, Pages base !! se_key e = Some v → Pages s !! se_key e = Some v }.

Lemma covered_sub base s t e : covered base s e → snap_sub s t → covered base t e.
Proof.
  intros [C1 C2 C3 C4 C5] [S1 S2 S3 S4 S5]. split.
  - intros Hk v Hv. eapply lookup_weaken; [|exact S1]. by apply C1.
  - intros Hk. etrans; [by apply C2|done].
  - intros Hk id v Hp Hv. eapply lookup_weaken; [|exact S3]. by apply C3.
  - intros Hk v Hv. eapply lookup_weaken; [|exact S4]. by apply C4.
  - intros Hk v Hv. eapply lookup_weaken; [|exact S5]. by apply C5.
Qed.

Lemma copy_entry_sub {V} (key : bytes) (base m : gmap bytes V) :
  m ⊆ base → copy_entry key base m ⊆ base ∧ m ⊆ copy_entry key base m ∧
    ∀ v, base !! key = Some v → copy_entry key base m !! key = Some v.
Proof.
  intros Hm. unfold copy_entry. destruct (base !! key) as [v|] eqn:Hb; [|done].
  split; [by apply insert_subseteq_l|]. split; [|intros w [= <-]; apply lookup_insert_eq].
  apply map_subseteq_spec. intros k w Hk. destruct (decide (k = key)) as [->|Hne].
  - rewrite lookup_insert_eq. rewrite <- Hb. by eapply lookup_weaken in Hk as ->.
  - by rewrite lookup_insert_ne.
Qed.

Section Keep.
Context `{MapRange}.

(** The copies of the entries that a test selects. *)
Lemma copy_entries_sub {V} (sel : bytes → bool) (base : gmap bytes (gmap bytes V)) (keys : list bytes) : ∀ m,
  m ⊆ base → (∀ k, k ∈ keys → is_Some (base !! k)) →
  let r := fold_left (λ m id, if sel id then <[id := entry base id]> m else m) keys m in
  r ⊆ base ∧ m ⊆ r ∧ ∀ k, k ∈ keys → sel k = true → r !! k = base !! k.
Proof.
  induction keys as [|k0 keys IH]; intros m Hm Hk; cbn [fold_left]; [split; [done|split; [done|by intros ? ?%elem_of_nil]]|].
  destruct (Hk k0) as [v0 Hv0]; [by left|].
  assert (Hc : (if sel k0 then <[k0 := entry base k0]> m else m) ⊆ base ∧ m ⊆ (if sel k0 then <[k0 := entry base k0]> m else m) ∧
    (sel k0 = true → (if sel k0 then <[k0 := entry base k0]> m else m) !! k0 = Some v0)).
  { destruct (sel k0); [|done]. destruct (copy_entry_sub k0 base m Hm) as (H1 & H2 & H3).
    unfold copy_entry in H1, H2, H3. unfold entry. rewrite Hv0 in H1, H2, H3 |- *. split; [done|]. split; [done|].
    intros _. by apply H3. }
  destruct Hc as (H1 & H2 & H3). destruct (IH _ H1) as (H4 & H5 & H6); [intros k Hin; apply Hk; by right|].
  split; [done|]. split; [by etrans|]. intros k [->|Hin]%elem_of_cons Hsel; [|by apply H6].
  rewrite Hv0. eapply lookup_weaken; [|exact H5]. by apply H3.
Qed.

Lemma keep_one_sub base s e :
  snap_sub s base → snap_sub (keep_one base s e) base ∧ snap_sub s (keep_one base s e) ∧ covered base (keep_one base s e) e.
Proof.
  intros [H1 H2 H3 H4 H5]. unfold keep_one. destruct e as [src kind key err]. cbn [se_kind se_key].
  case_bool_decide as E1; [|case_bool_decide as E2; [|case_bool_decide as E3; [|case_bool_decide as E4; [|case_bool_decide as E5]]]];
    try subst kind.
  - destruct (copy_entry_sub key _ _ H1) as (Ha & Hb & Hc). by repeat split.
  - assert (Hu : Errata base ∪ Errata s = Errata base).
    { apply map_eq. intros k. rewrite lookup_union. destruct (Errata base !! k) eqn:Hk, (Errata s !! k) eqn:Hs; try done.
      eapply lookup_weaken in Hs; [|exact H2]. congruence. }
    repeat split; try done; cbn [Errata]; by rewrite Hu.
  - destruct (copy_entries_sub (λ id, HasPrefix id (key ++ #"/")) _ (range_keys (Registries base)) _ H3) as (Ha & Hb & Hc).
    { intros k. apply elem_range. }
    repeat split; try done. intros _ id v Hp Hv. cbn [Registries]. rewrite Hc; [done| |done].
    apply elem_range. by exists v.
  - destruct (copy_entry_sub key _ _ H4) as (Ha & Hb & Hc). by repeat split.
  - destruct (copy_entry_sub key _ _ H5) as (Ha & Hb & Hc). by repeat split.
  - by repeat split.
Qed.

Lemma KeepFrom_sub base errs : ∀ s,
  snap_sub s base → snap_sub (KeepFrom s base errs) base ∧ snap_sub s (KeepFrom s base errs) ∧
    ∀ e, e ∈ errs → covered base (KeepFrom s base errs) e.
Proof.
  induction errs as [|e errs IH]; intros s Hs; [split; [done|split; [apply snap_sub_refl|by intros ? ?%elem_of_nil]]|].
  destruct (keep_one_sub base s e Hs) as (H1 & H2 & H3).
  change (KeepFrom s base (e :: errs)) with (KeepFrom (keep_one base s e) base errs).
  destruct (IH _ H1) as (H4 & H5 & H6). split; [done|]. split; [by eapply snap_sub_trans|].
  intros e' [->|Hin]%elem_of_cons; [by eapply covered_sub|by apply H6].
Qed.
End Keep.

Section Outage.
Context `{Decoders, MapRange, Crypto}.
Variables (cfg : Config) (ep : Endpoints).

(** The document of a source is a document of its kind, under its name. *)
Lemma result_shape net t p :
  task_result cfg ep net t = Ok p →
  match t, p with
  | TRFC n, PRFC id _ => id = rfcID n
  | TErrata, PErrata _ => True
  | TIANA file _, PIANA file' _ => file' = file
  | TDraft name, PDraft name' _ => name' = name
  | TPage name _, PPage name' _ => name' = name
  | _, _ => False
  end.
Proof.
  unfold task_result. intros (raw & _ & Hp)%bind_Ok. destruct t; cbn [parse_task] in Hp;
    try (apply bind_Ok in Hp as (? & _ & Hp)); by injection Hp as <-.
Qed.

Lemma iana_task file only : TIANA file only ∈ tasks cfg → only = default [] (cfg_IANA cfg !! file) ∧ is_Some (cfg_IANA cfg !! file).
Proof.
  unfold tasks. rewrite !elem_of_app, !list_elem_of_fmap, list_elem_of_singleton.
  intros [(? & ? & _)|[?|[(f & [= -> ->] & Hf)|[(? & ? & _)|(? & ? & _)]]]]; try done. split; [done|]. by apply elem_range.
Qed.

Lemma page_task name url : TPage name url ∈ tasks cfg → url = default [] (cfg_Pages cfg !! name).
Proof.
  unfold tasks. rewrite !elem_of_app, !list_elem_of_fmap, list_elem_of_singleton.
  by intros [(? & ? & _)|[?|[(? & ? & _)|[(? & ? & _)|(f & [= -> ->] & Hf)]]]].
Qed.

(** The registry files have plain names. *)
Hypothesis plain_files : ∀ file, is_Some (cfg_IANA cfg !! file) → "/"%byte ∉ file.

Lemma registry_key_inj (file id file' id' : bytes) :
  "/"%byte ∉ file → "/"%byte ∉ file' → file ++ #"/" ++ id = file' ++ #"/" ++ id' → file = file' ∧ id = id'.
Proof.
  intros Hf Hf' Heq. apply (f_equal (λ s, Split s "/"%byte)) in Heq as Hs.
  change (file ++ #"/" ++ id) with (file ++ "/"%byte :: id) in *.
  change (file' ++ #"/" ++ id') with (file' ++ "/"%byte :: id') in *.
  rewrite !Split_cons in Hs by done. injection Hs as -> _. apply app_inv_head in Heq. by injection Heq.
Qed.

Lemma writes_functional net order :
  (∀ t, t ∈ order → t ∈ tasks cfg) →
  let ps := parsed_of cfg ep net order in
  functional (flat_map rfc_writes ps) ∧ functional (flat_map registry_writes ps) ∧
  functional (flat_map draft_writes ps) ∧ functional (flat_map page_writes ps).
Proof.
  intros Hord ps.
  assert (Hsame : ∀ t p t' p', t = t' → task_result cfg ep net t = Ok p → task_result cfg ep net t' = Ok p' → p = p') by congruence.
  split; [|split; [|split]]; intros k v v' (p & (t & Ht & Hr)%elem_parsed & Hv)%elem_writes
    (p' & (t' & Ht' & Hr')%elem_parsed & Hv')%elem_writes;
    pose proof (result_shape _ _ _ Hr) as Hs; pose proof (result_shape _ _ _ Hr') as Hs'.
  - destruct p; cbn [rfc_writes] in Hv; try by apply elem_of_nil in Hv.
    destruct p'; cbn [rfc_writes] in Hv'; try by apply elem_of_nil in Hv'.
    apply list_elem_of_singleton in Hv as [= <- <-], Hv' as [= <- <-]. destruct t; try done. destruct t'; try done. subst k.
    apply rfcID_inj in Hs'. specialize (Hsame _ _ _ _ (f_equal TRFC Hs') Hr Hr'). congruence.
  - destruct p; cbn [registry_writes] in Hv; try by apply elem_of_nil in Hv.
    destruct p'; cbn [registry_writes] in Hv'; try by apply elem_of_nil in Hv'.
    apply list_elem_of_fmap in Hv as (id & [= -> ->] & _), Hv' as (id' & [= Hk ->] & _).
    destruct t; try done. destruct t'; try done. subst.
    apply Hord, iana_task in Ht as [-> Hf], Ht' as [-> Hf'].
    apply registry_key_inj in Hk as [<- <-]; [|by apply plain_files..].
    specialize (Hsame _ _ _ _ eq_refl Hr Hr'). congruence.
  - destruct p; cbn [draft_writes] in Hv; try by apply elem_of_nil in Hv.
    destruct p'; cbn [draft_writes] in Hv'; try by apply elem_of_nil in Hv'.
    apply list_elem_of_singleton in Hv as [= <- <-], Hv' as [= <- <-]. destruct t; try done. destruct t'; try done. subst.
    specialize (Hsame _ _ _ _ eq_refl Hr Hr'). congruence.
  - destruct p; cbn [page_writes] in Hv; try by apply elem_of_nil in Hv.
    destruct p'; cbn [page_writes] in Hv'; try by apply elem_of_nil in Hv'.
    apply list_elem_of_singleton in Hv as [= <- <-], Hv' as [= <- <-]. destruct t; try done. destruct t'; try done. subst.
    apply Hord, page_task in Ht as ->, Ht' as ->. specialize (Hsame _ _ _ _ eq_refl Hr Hr'). congruence.
Qed.

Definition errata_snapshot (r : result bytes parsed) : gmap bytes (gmap bytes Erratum) :=
  match r with
  | Ok (PErrata all) => fold_left (add_erratum (rfcID <$> cfg_RFCs cfg)) all ∅
  | _ => ∅
  end.

Lemma no_errata net order : TErrata ∉ order → ∀ all, PErrata all ∉ parsed_of cfg ep net order.
Proof. intros Ho all (t & Ht & Hr)%elem_parsed. apply result_shape in Hr. by destruct t. Qed.

Lemma errata_once net order :
  order ≡ₚ tasks cfg →
  Errata (store_all cfg (parsed_of cfg ep net order) newSnapshot) = errata_snapshot (task_result cfg ep net TErrata).
Proof.
  intros Hp. assert (Hin : TErrata ∈ order).
  { rewrite Hp. unfold tasks. rewrite !elem_of_app, list_elem_of_singleton. tauto. }
  apply list_elem_of_split in Hin as (l1 & l2 & ->). unfold tasks in Hp. cbn [app] in Hp.
  apply Permutation_app_inv in Hp.
  assert (Hn : TErrata ∉ l1 ++ l2).
  { rewrite Hp, !elem_of_app, !list_elem_of_fmap. naive_solver. }
  rewrite elem_of_app in Hn. unfold parsed_of. rewrite omap_app. cbn [omap list_omap].
  unfold store_all. rewrite fold_left_app.
  pose proof (store_all_errata cfg _ newSnapshot (no_errata net l1 ltac:(tauto))) as Hs1.
  change (fold_left (store cfg) (omap _ l1) newSnapshot) with (store_all cfg (parsed_of cfg ep net l1) newSnapshot).
  set (s1 := store_all _ _ _) in *. destruct (task_result cfg ep net TErrata) as [p|err] eqn:Hr.
  - pose proof (result_shape _ _ _ Hr) as Hs. destruct p; try done. cbn [fold_left errata_snapshot].
    pose proof (store_all_errata cfg _ (store cfg s1 (PErrata all)) (no_errata net l2 ltac:(tauto))) as Hs2.
    etrans; [exact Hs2|]. cbn [store Errata]. by rewrite Hs1.
  - etrans; [exact (store_all_errata cfg _ s1 (no_errata net l2 ltac:(tauto)))|exact Hs1].
Qed.

(** Every assignment of one run is one of another run that met the same
    documents. *)
Variables net0 net1 : internet.
Hypothesis same_or_down : ∀ t, t ∈ tasks cfg →
  is_ok (task_result cfg ep net1 t) = false ∨ task_result cfg ep net1 t = task_result cfg ep net0 t.

Lemma writes_sub {V} (w : parsed → list (bytes * V)) (order0 order1 : list task) kv :
  order0 ≡ₚ tasks cfg → order1 ≡ₚ tasks cfg →
  kv ∈ flat_map w (parsed_of cfg ep net1 order1) → kv ∈ flat_map w (parsed_of cfg ep net0 order0).
Proof.
  intros Hp0 Hp1 (p & (t & Ht & Hr)%elem_parsed & Hv)%elem_writes. apply elem_writes. exists p. split; [|done].
  apply elem_parsed. exists t. rewrite Hp1 in Ht. rewrite Hp0. split; [done|].
  destruct (same_or_down t Ht) as [Hd|<-]; [|done]. by rewrite Hr in Hd.
Qed.

Lemma writes_or_error {V} (w : parsed → list (bytes * V)) (order0 order1 : list task) kv :
  order0 ≡ₚ tasks cfg → order1 ≡ₚ tasks cfg → kv ∈ flat_map w (parsed_of cfg ep net0 order0) →
  kv ∈ flat_map w (parsed_of cfg ep net1 order1) ∨
  ∃ t err p, task_result cfg ep net0 t = Ok p ∧ kv ∈ w p ∧
    task_error t err ∈ sort_errors (errors_of cfg ep net1 order1).
Proof.
  intros Hp0 Hp1 (p & (t & Ht & Hr)%elem_parsed & Hv)%elem_writes. rewrite Hp0 in Ht.
  destruct (task_result cfg ep net1 t) as [p1|err] eqn:E.
  - left. apply elem_writes. exists p. split; [|done]. apply elem_parsed. exists t. rewrite Hp1. split; [done|].
    destruct (same_or_down t Ht) as [Hd|Hd]; rewrite E in Hd; [done|congruence].
  - right. exists t, err, p. split; [done|]. split; [done|]. apply elem_errors. exists t, err. by rewrite Hp1.
Qed.

(** One map: what was collected is in the baseline, and what is kept is all of it. *)
Lemma map_sub {V} (w : parsed → list (bytes * V)) (order0 order1 : list task) :
  order0 ≡ₚ tasks cfg → order1 ≡ₚ tasks cfg →
  functional (flat_map w (parsed_of cfg ep net0 order0)) → functional (flat_map w (parsed_of cfg ep net1 order1)) →
  apply_writes (flat_map w (parsed_of cfg ep net1 order1)) ∅ ⊆ apply_writes (flat_map w (parsed_of cfg ep net0 order0)) ∅.
Proof.
  intros Hp0 Hp1 Hf0 Hf1. apply map_subseteq_spec. intros k v. rewrite !apply_writes_lookup by done. by apply writes_sub.
Qed.

Lemma map_restored {V} (w : parsed → list (bytes * V)) (order0 order1 : list task) (kept : gmap bytes V) :
  order0 ≡ₚ tasks cfg → order1 ≡ₚ tasks cfg →
  functional (flat_map w (parsed_of cfg ep net0 order0)) → functional (flat_map w (parsed_of cfg ep net1 order1)) →
  apply_writes (flat_map w (parsed_of cfg ep net1 order1)) ∅ ⊆ kept →
  (∀ t err p k v, task_result cfg ep net0 t = Ok p → (k, v) ∈ w p →
     task_error t err ∈ sort_errors (errors_of cfg ep net1 order1) →
     apply_writes (flat_map w (parsed_of cfg ep net0 order0)) ∅ !! k = Some v → kept !! k = Some v) →
  apply_writes (flat_map w (parsed_of cfg ep net0 order0)) ∅ ⊆ kept.
Proof.
  intros Hp0 Hp1 Hf0 Hf1 Hsub Herr. apply map_subseteq_spec. intros k v Hv. pose proof Hv as Hin.
  rewrite apply_writes_lookup in Hin by done.
  destruct (writes_or_error w order0 order1 (k, v) Hp0 Hp1 Hin) as [Hc|(t & err & p & Hr & Hw & He)]; [|by eapply Herr].
  eapply lookup_weaken; [|exact Hsub]. by apply apply_writes_lookup.
Qed.

Lemma HasPrefix_app p s : HasPrefix (p ++ s) p = true.
Proof. unfold HasPrefix. by rewrite take_app_length, bool_decide_eq_true_2. Qed.

Lemma outage_keeps (order0 order1 : list task) :
  order0 ≡ₚ tasks cfg → order1 ≡ₚ tasks cfg →
  let base := fst (Collect order0 net0 cfg ep) in
  let '(cur, errs) := Collect order1 net1 cfg ep in
  KeepFrom cur base errs = base.
Proof.
  intros Hp0 Hp1. rewrite !Collect_eq. cbv zeta. cbn [fst].
  set (base := store_all cfg (parsed_of cfg ep net0 order0) newSnapshot).
  set (cur := store_all cfg (parsed_of cfg ep net1 order1) newSnapshot).
  set (errs := sort_errors _).
  destruct (store_all_maps cfg (parsed_of cfg ep net0 order0) newSnapshot) as (Hr0 & Hg0 & Hd0 & Hg0').
  destruct (store_all_maps cfg (parsed_of cfg ep net1 order1) newSnapshot) as (Hr1 & Hg1 & Hd1 & Hg1').
  cbn [RFCs Registries Drafts Pages newSnapshot] in *. fold base in Hr0, Hg0, Hd0, Hg0'. fold cur in Hr1, Hg1, Hd1, Hg1'.
  destruct (writes_functional net0 order0) as (F1 & F2 & F3 & F4); [intros t; by rewrite Hp0|].
  destruct (writes_functional net1 order1) as (G1 & G2 & G3 & G4); [intros t; by rewrite Hp1|].
  assert (Herrata : Errata cur = Errata base ∨ Errata cur = ∅ ∧ ∃ err, task_error TErrata err ∈ errs).
  { unfold cur, base. rewrite !errata_once by done. assert (Hin : TErrata ∈ tasks cfg).
    { unfold tasks. rewrite !elem_of_app, list_elem_of_singleton. tauto. }
    destruct (same_or_down TErrata Hin) as [Hdown| ->]; [|by left]. right.
    destruct (task_result cfg ep net1 TErrata) as [|err] eqn:E; [done|]. split; [done|]. exists err.
    apply elem_errors. exists TErrata, err. by rewrite Hp1. }
  assert (Hsub : snap_sub cur base).
  { split; rewrite ?Hr1, ?Hr0, ?Hg1, ?Hg0, ?Hd1, ?Hd0, ?Hg1', ?Hg0'; try by apply map_sub.
    destruct Herrata as [-> |[-> _]]; [done|apply map_empty_subseteq]. }
  destruct (KeepFrom_sub base errs cur Hsub) as (K1 & K2 & K3).
  apply snap_sub_antisym; [done|]. destruct K2 as [S1 S2 S3 S4 S5]. split.
  - rewrite Hr0. apply (map_restored _ order0 order1); try done; [by rewrite <- Hr1|]. rewrite <- Hr0.
    intros t err p k v Hr Hw He Hv. pose proof (result_shape _ _ _ Hr) as Hs.
    destruct p; cbn [rfc_writes] in Hw; try by apply elem_of_nil in Hw.
    apply list_elem_of_singleton in Hw as [= -> ->]. destruct t; try done. subst id. by apply (cov_rfc _ _ _ (K3 _ He)).
  - destruct Herrata as [<-|[_ [err He]]]; [done|]. by apply (cov_errata _ _ _ (K3 _ He)).
  - rewrite Hg0. apply (map_restored _ order0 order1); try done; [by rewrite <- Hg1|]. rewrite <- Hg0.
    intros t err p k v Hr Hw He Hv. pose proof (result_shape _ _ _ Hr) as Hs.
    destruct p; cbn [registry_writes] in Hw; try by apply elem_of_nil in Hw.
    apply list_elem_of_fmap in Hw as (id & [= -> ->] & _). destruct t; try done. subst.
    apply (cov_iana _ _ _ (K3 _ He)); [done| |done]. cbn [task_error se_key]. 
    replace (file0 ++ "/"%byte :: id) with ((file0 ++ #"/") ++ id) by (by rewrite <- app_assoc). apply HasPrefix_app.
  - rewrite Hd0. apply (map_restored _ order0 order1); try done; [by rewrite <- Hd1|]. rewrite <- Hd0.
    intros t err p k v Hr Hw He Hv. pose proof (result_shape _ _ _ Hr) as Hs.
    destruct p; cbn [draft_writes] in Hw; try by apply elem_of_nil in Hw.
    apply list_elem_of_singleton in Hw as [= -> ->]. destruct t; try done. subst. by apply (cov_draft _ _ _ (K3 _ He)).
  - rewrite Hg0'. apply (map_restored _ order0 order1); try done; [by rewrite <- Hg1'|]. rewrite <- Hg0'.
    intros t err p k v Hr Hw He Hv. pose proof (result_shape _ _ _ Hr) as Hs.
    destruct p; cbn [page_writes] in Hw; try by apply elem_of_nil in Hw.
    apply list_elem_of_singleton in Hw as [= -> ->]. destruct t; try done. subst. by apply (cov_page _ _ _ (K3 _ He)).
Qed.
End Outage.

(** ** The command (main.go) *)

(** What a run prints and writes. *)
Inductive effect : Type :=
  | Warning (err : bytes)
  | WriteSnapshot (s : Snapshot)
  | WriteBaseline (s : Snapshot)
  | WriteReport (body : bytes)
  | WriteOutput (changed : bool).

(** The flags: whether the optional paths are given. *)
Record runOptions := mkRunOptions {
  o_snapshot : bool; o_githubOutput : bool; o_accept : bool; o_date : bytes }.

(** Reading baseline.json: it does not exist, it cannot be read, or the outcome
    of decoding it. *)
Inductive baseline_file : Type :=
  | NotExist
  | Unreadable (err : bytes)
  | Contents (decoded : result bytes Snapshot).

Definition read_baseline (f : baseline_file) : result bytes Snapshot :=
  match f with NotExist => Ok newSnapshot | Unreadable err => Err err | Contents r => r end.

Section Run.
Context `{Decoders, MapRange, Crypto, Unicode}.

(** The outcome of writing a file, the outcome of loading tracked.json and the
    order in which the goroutines finish. *)
Definition run (write : effect → option bytes) (config : result bytes Config) (baseline : baseline_file)
    (order : Config → list task) (net : internet) (ep : Endpoints) (opts : runOptions) : list effect * option bytes :=
  match config with
  | Err err => ([], Some err)
  | Ok cfg =>
      match read_baseline baseline with
      | Err err => ([], Some err)
      | Ok base =>
          let '(cur, errs) := Collect (order cfg) net cfg ep in
          let cur := KeepFrom cur base errs in
          let warnings := Warning <$> (SourceError_Error <$> errs) in
          let snapshot := if o_snapshot opts then [WriteSnapshot cur] else [] in
          match (if o_snapshot opts then write (WriteSnapshot cur) else None) with
          | Some err => (warnings ++ snapshot, Some err)
          | None =>
              if o_accept opts then
                if 0 <? len errs
                then (warnings ++ snapshot,
                      Some (#"refusing to accept a partial snapshot (" ++ FormatInt (len errs) ++ #" sources failed)"))
                else (warnings ++ snapshot ++ [WriteBaseline cur], write (WriteBaseline cur))
              else
                let changes := Diff base cur cfg in
                let report := WriteReport (Report changes (SourceError_Error <$> errs) (o_date opts)) in
                match write report with
                | Some err => (warnings ++ snapshot ++ [report], Some err)
                | None =>
                    if o_githubOutput opts then
                      let output := WriteOutput (0 <? len changes) in
                      (warnings ++ snapshot ++ [report; output], write output)
                    else (warnings ++ snapshot ++ [report], None)
                end
          end
      end
  end.

(** A baseline is only written from a run in which every source answered. *)
Lemma run_baseline write config baseline order net ep opts s :
  WriteBaseline s ∈ fst (run write config baseline order net ep opts) →
  o_accept opts = true ∧ ∃ cfg, config = Ok cfg ∧ Collect (order cfg) net cfg ep = (s, []).
Proof.
  unfold run. destruct config as [cfg|]; [|by intros ?%elem_of_nil].
  destruct (read_baseline baseline) as [base|]; [|by intros ?%elem_of_nil].
  destruct (Collect (order cfg) net cfg ep) as [cur errs] eqn:Hc. cbv zeta.
  assert (Hw : ∀ l : list bytes, WriteBaseline s ∉ Warning <$> l) by (intros l (? & ? & _)%list_elem_of_fmap; done).
  assert (Hs : WriteBaseline s ∉ if o_snapshot opts then [WriteSnapshot (KeepFrom cur base errs)] else []).
  { destruct (o_snapshot opts); [by intros ?%list_elem_of_singleton|by intros ?%elem_of_nil]. }
  destruct (if o_snapshot opts then _ else None); cbn [fst]; [rewrite elem_of_app; by intros [?%Hw|?]|].
  destruct (o_accept opts).
  - destruct errs as [|e errs]; cbn [fst].
    + change (0 <? len (@nil SourceError)) with false. cbv iota. cbn [fst]. rewrite !elem_of_app, list_elem_of_singleton.
      intros [?%Hw|[?|[= ->]]]; [done|done|]. split; [done|]. by exists cfg.
    + rewrite (proj2 (Z.ltb_lt _ _)) by (unfold len; simpl; lia). cbn [fst]. rewrite elem_of_app.
      by intros [?%Hw|?].
  - destruct (write _); [|destruct (o_githubOutput opts)]; cbn [fst]; rewrite !elem_of_app, ?elem_of_cons;
      intros [?%Hw|[?|Hin]]; try done.
    all: rewrite ?elem_of_nil in Hin; naive_solver.
Qed.

(** What a check reports of a run. *)
Lemma run_check write cfg base order net ep opts e :
  o_accept opts = false → let '(cur, errs) := Collect (order cfg) net cfg ep in
  let changes := Diff base (KeepFrom cur base errs) cfg in
  e ∈ fst (run write (Ok cfg) (Contents (Ok base)) order net ep opts) →
  match e with
  | WriteReport r => r = Report changes (SourceError_Error <$> errs) (o_date opts)
  | WriteOutput changed => changed = (0 <? len changes)
  | WriteBaseline _ => False
  | WriteSnapshot s => s = KeepFrom cur base errs
  | Warning _ => True
  end.
Proof.
  intros Ha. destruct (Collect (order cfg) net cfg ep) as [cur errs] eqn:Hc. cbv zeta. intros Hin.
  unfold run in Hin. cbn [read_baseline] in Hin. rewrite Hc, Ha in Hin. cbv zeta in Hin.
  repeat match type of Hin with
  | _ ∈ fst (match ?x with _ => _ end) => destruct x
  | _ ∈ fst (_, _) => cbn [fst] in Hin
  | _ ∈ _ ++ _ => apply elem_of_app in Hin as [Hin|Hin]
  | _ ∈ _ <$> _ => apply list_elem_of_fmap in Hin as (? & -> & _); done
  | _ ∈ [] => by apply elem_of_nil in Hin
  | _ ∈ _ :: _ => apply elem_of_cons in Hin as [->|Hin]; [done|]
  | _ ∈ (if ?b then _ else _) => destruct b
  end.
Qed.

(** C37: once a state of the standards is accepted, a later check
    under the same configuration whose sources each answer as they did or cannot
    be reached reports no change, however many sources fail and in whatever order
    the goroutines of the two runs finish: the failed sources keep their baseline
    values, and an outage is never taken for a removal. *)
Theorem outage_no_change write write' cfg baseline order order' net net' ep opts opts' base :
  (∀ file, is_Some (cfg_IANA cfg !! file) → "/"%byte ∉ file) →
  order cfg ≡ₚ tasks cfg → order' cfg ≡ₚ tasks cfg →
  (∀ t, t ∈ tasks cfg →
     is_ok (task_result cfg ep net' t) = false ∨ task_result cfg ep net' t = task_result cfg ep net t) →
  WriteBaseline base ∈ fst (run write (Ok cfg) baseline order net ep opts) →
  o_accept opts' = false →
  ∀ e, e ∈ fst (run write' (Ok cfg) (Contents (Ok base)) order' net' ep opts') →
  match e with
  | WriteReport r => ∃ errs, r = Report [] errs (o_date opts')
  | WriteOutput changed => changed = false
  | WriteSnapshot s => s = base
  | WriteBaseline _ => False
  | Warning _ => True
  end.
Proof.
  intros Hf Hp Hp' Hsame Hb Ha' e He. apply run_baseline in Hb as (_ & cfg1 & [= <-] & Hc).
  pose proof (outage_keeps cfg ep Hf net net' Hsame (order cfg) (order' cfg) Hp Hp') as Hk.
  pose proof (run_check write' cfg base order' net' ep opts' e Ha') as Hr.
  rewrite Hc in Hk. cbv zeta in Hk. cbn [fst] in Hk. destruct (Collect (order' cfg) net' cfg ep) as [cur errs].
  rewrite Hk in Hr. specialize (Hr He).
  assert (Hd : Diff base base cfg = []).
  { apply Diff_nil. apply same_refl. }
  rewrite Hd in Hr. destruct e; try done. by exists (SourceError_Error <$> errs).
Qed.
End Run.
