(* ===== verification/ExampleStructs.v ===== *)
(** * ExampleStructs: the claims structs that the examples declare

    Each main under examples/ embeds one of the library's claims structs in its
    own and adds string fields.  A string field is a part ([Flat]) on its own, so
    the structs are parts by the laws of IdTokens, and what is issued as one of
    them is read back. *)

From S2P Require Import Prelude Errors GoLib Utf8 GoStr Json StrictJson RawJson Key Dates Claims Profiles IdTokens.

(** ** A string field *)

(** The value of a field, by its member name and whether the tag says
    [omitempty]. *)
Record text_field (name : bytes) (omitempty : bool) := mkText { text : bytes }.
Arguments mkText {_ _} _.
Arguments text {_ _} _.

Definition text_value (omitempty : bool) (s : bytes) : option json :=
  if omitempty then opt_string s else Some (JStr s).

#[export] Instance text_flat name omitempty : Flat (text_field name omitempty) := {
  names := [name];
  members f := flatten [(name, text_value omitempty (text f))];
  decode _ m := mkText <$> field m name [] dec_string }.

#[refine] Definition text_laws name omitempty (Hn : utf8_valid name = true) : FlatLaws (text_field name omitempty) := {|
  faithful f := utf8_valid (text f) = true; returned f := f |}.
Proof.
  - apply NoDup_singleton.
  - intros f. exact (flatten_names [(name, text_value omitempty (text f))]).
  - intros f Hf. apply flatten_wf; [change (utf8_valid name && true = true); by rewrite Hn|]. apply list.Forall_singleton. cbn [snd].
    unfold text_value. destruct omitempty; [by apply string_wf|]. intros j [= <-]. split; [done|simpl; lia].
  - intros t t' m m' Hm _. cbn. f_equal. apply field_ext, Hm. by left.
  - intros f t _ _. cbn [decode members text_flat].
    assert (Hf : field (flatten [(name, text_value omitempty (text f))]) name [] dec_string = Ok (text f)).
    { unfold field. rewrite assoc_flatten by apply NoDup_singleton. cbn [entry]. rewrite bool_decide_eq_true_2 by done.
      unfold text_value. destruct omitempty; [apply dec_omit|done]. }
    rewrite Hf. by destruct f.
Defined.

(** ** Embedding *)

#[export] Instance RegisteredClaims_embeds : Embeds RegisteredClaims := {
  registered := id; decode_registered t m a Hd := Hd }.

#[export] #[refine] Instance embed_embeds `{Embeds A, Flat B} : Embeds (A * B) := { registered p := registered p.1 }.
Proof. intros t m a (r & Hr & (q & _ & [= <-])%bind_Ok)%bind_Ok. by eapply decode_registered. Defined.

#[refine] Definition iso_embeds {A B : Type} (f : B → A) (g : A → B) (Hgf : ∀ a, f (g a) = a) `{Embeds A} :
    @Embeds B (iso_flat f g) := {| registered b := registered (f b) |}.
Proof. intros t m b (a & Ha & <-)%fmap_Ok. rewrite Hgf. by eapply decode_registered. Defined.

(** ** The structs *)

(** basic_hmac *)
Record sessionClaims := mkSessionClaims { ses_registered : RegisteredClaims; Role : bytes }.

(** http_middleware *)
Record apiClaims := mkApiClaims { api_registered : RegisteredClaims; Scope : bytes }.

(** jwe_roundtrip: its [payload] *)
Record accountPayload := mkAccountPayload { acc_registered : RegisteredClaims; AccountID : bytes; Tier : bytes }.

(** verify_idtoken *)
Record googleIDToken := mkGoogleIDToken { goo_claims : IDTokenClaims; goo_HostedDomain : bytes }.

Definition session_parts (c : sessionClaims) : RegisteredClaims * text_field #"role" false :=
  (ses_registered c, mkText (Role c)).
Definition session_of (p : RegisteredClaims * text_field #"role" false) : sessionClaims :=
  mkSessionClaims p.1 (text p.2).

Definition api_parts (c : apiClaims) : RegisteredClaims * text_field #"scope" false :=
  (api_registered c, mkText (Scope c)).
Definition api_of (p : RegisteredClaims * text_field #"scope" false) : apiClaims := mkApiClaims p.1 (text p.2).

Definition account_parts (c : accountPayload) :
    RegisteredClaims * (text_field #"account_id" false * text_field #"tier" false) :=
  (acc_registered c, (mkText (AccountID c), mkText (Tier c))).
Definition account_of (p : RegisteredClaims * (text_field #"account_id" false * text_field #"tier" false)) :
    accountPayload := mkAccountPayload p.1 (text p.2.1) (text p.2.2).

Definition google_parts (c : googleIDToken) : IDTokenClaims * text_field #"hd" true :=
  (goo_claims c, mkText (goo_HostedDomain c)).
Definition google_of (p : IDTokenClaims * text_field #"hd" true) : googleIDToken := mkGoogleIDToken p.1 (text p.2).

#[export] Instance session_flat : Flat sessionClaims := iso_flat session_parts session_of.
#[export] Instance api_flat : Flat apiClaims := iso_flat api_parts api_of.
#[export] Instance account_flat : Flat accountPayload := iso_flat account_parts account_of.
#[export] Instance google_flat : Flat googleIDToken := iso_flat google_parts google_of.

#[export] Instance session_laws : FlatLaws sessionClaims.
Proof.
  apply (@iso_laws _ _ session_parts session_of _).
  apply (@embed_laws RegisteredClaims _ _ (text_field #"role" false) _ (text_laws #"role" false eq_refl)). by_names.
Defined.

#[export] Instance api_laws : FlatLaws apiClaims.
Proof.
  apply (@iso_laws _ _ api_parts api_of _).
  apply (@embed_laws RegisteredClaims _ _ (text_field #"scope" false) _ (text_laws #"scope" false eq_refl)). by_names.
Defined.

#[export] Instance account_laws : FlatLaws accountPayload.
Proof.
  apply (@iso_laws _ _ account_parts account_of _).
  apply (@embed_laws RegisteredClaims _ _ (text_field #"account_id" false * text_field #"tier" false) _
    (@embed_laws _ _ (text_laws #"account_id" false eq_refl) _ _ (text_laws #"tier" false eq_refl) ltac:(by_names))). by_names.
Defined.

#[export] Instance google_laws : FlatLaws googleIDToken.
Proof.
  apply (@iso_laws _ _ google_parts google_of _).
  apply (@embed_laws IDTokenClaims _ _ (text_field #"hd" true) _ (text_laws #"hd" true eq_refl)). by_names.
Defined.

#[export] Instance session_embeds : Embeds sessionClaims.
Proof. refine (iso_embeds session_parts session_of _). by intros [? []]. Defined.
#[export] Instance api_embeds : Embeds apiClaims.
Proof. refine (iso_embeds api_parts api_of _). by intros [? []]. Defined.
#[export] Instance account_embeds : Embeds accountPayload.
Proof. refine (iso_embeds account_parts account_of _). by intros [? [[] []]]. Defined.
#[export] Instance google_embeds : Embeds googleIDToken.
Proof. refine (iso_embeds google_parts google_of _). by intros [? []]. Defined.
