(* ===== verification/Examples.v ===== *)
(** * Examples: the programs under examples/, run from end to end

    Each main makes a key, issues a token, reads it back and prints what it got.
    A program is what it writes to standard output together with how it ends:
    normally, or in [log.Fatal] with an error.  [now i] is what its i-th call of
    [time.Now] gives, the clock of the parser included, and an error's text is a
    parameter. *)

From S2P Require Import Prelude Errors GoLib Utf8 GoStr Json StrictJson B64 Alg Key Thumbprint KeySet Dates Claims Heap Revoke JweAlg Opaque Rotation Options Jws HttpAuth Profiles IdTokens Login AesKw Jwe Nested JwtTest ExampleStructs.

(** ** Programs *)

Definition prog (A : Type) : Type := bytes * res A.

#[export] Instance prog_ret : MRet prog := λ A a, ([], Ok a).
#[export] Instance prog_bind : MBind prog := λ A B k m,
  match m with
  | (out, Ok a) => let '(out', r) := k a in (out ++ out', r)
  | (out, Err e) => (out, Err e)
  end.

(** [if err != nil { log.Fatal(err) }] *)
Definition must {A} (r : res A) : prog A := ([], r).
Definition must_nil (err : err_opt) : prog () := must (guard_err err).

Definition Print (out : bytes) : prog () := (out, Ok ()).
Definition Println (line : bytes) : prog () := Print (line ++ [x0a]).

Lemma must_ok {A B} (a : A) (k : A → prog B) : must (Ok a) ≫= k = k a.
Proof. cbn. by destruct (k a). Qed.

Lemma must_nil_ok {A} (k : () → prog A) : must_nil None ≫= k = k ().
Proof. apply must_ok. Qed.

Lemma print_then {A} out (k : () → prog A) : Print out ≫= k = (out ++ fst (k ()), snd (k ())).
Proof. cbn. by destruct (k ()). Qed.

Definition minute : Z := 60 * second.

(** The claims a main fills in; the other fields are zero. *)
Definition some_claims (iss sub : bytes) (aud : Audience) (exp iat : option Time) : RegisteredClaims :=
  mkRegisteredClaims iss sub aud exp None iat [] None.

Section Programs.
Context `{URL, Crypto, Unicode, Strconv, AES, JweCrypto, Entropy}.

(** ** basic_hmac *)

Definition zero_session : sessionClaims := mkSessionClaims zero_claims [].

Definition issued_session (now : nat → Time) : sessionClaims :=
  mkSessionClaims (some_claims #"https://auth.example" #"user-42" (Some [ #"https://api.example"])
    (Some (now 0%nat + 15 * minute)) (Some (now 1%nat))) #"admin".

Definition session_options : list (option ParseOption) :=
  [Some (WithAllowedAlgorithms [HS256]); Some (WithIssuer #"https://auth.example");
   Some (WithAudience #"https://api.example")].

Definition basic_hmac (now : nat → Time) : prog () :=
  secret ← must (rand_Read 0 32);
  signer ← must (NewHMACSigner HS256 secret [ #"sess-key-1"]);
  token ← must (Sign (Ok (marshal_flat (issued_session now))) (Some signer) []);
  _ ← Println (#"token: " ++ token);
  let keys := StaticKeyProvider (FromHMACSecret secret [ #"sess-key-1"]) in
  let '(claims, err) :=
    snd (Parse unmarshal_flat (now 2%nat) token (Some zero_session) (Some keys) session_options) in
  _ ← must_nil err;
  let claims := default zero_session claims in
  Print (#"verified: sub=" ++ Subject (ses_registered claims) ++ #" role=" ++ Role claims ++ [x0a]).

(** ** http_middleware *)

Variable Error : list cause → bytes.

Definition zero_api : apiClaims := mkApiClaims zero_claims [].

Definition issued_api (now : nat → Time) : apiClaims :=
  mkApiClaims (some_claims [] #"user-7" (Some [ #"https://api.example"]) (Some (now 0%nat + minute)) None) #"read".

Definition text_plain : bytes := #"text/plain; charset=utf-8".

(** The handler behind the middleware, on the payload that it leaves in the
    request context; the status of a handler that just writes is 200. *)
Definition protected (payload : option bytes) : response :=
  match ClaimsFromContext unmarshal_flat payload (Some zero_api) with
  | (_, Some err) => mkResponse 500 None text_plain (Error err ++ [x0a])
  | (claims, None) =>
      let claims := default zero_api claims in
      mkResponse 200 None text_plain
        (#"hello " ++ Subject (api_registered claims) ++ #" (scope " ++ Quote (Scope claims) ++ #")" ++ [x0a])
  end.

Definition ServeHTTP (keys : KeyProvider) (clock : Time) (authorization : list bytes) : response :=
  match snd (Middleware (Some keys)
               [Some (WithAllowedAlgorithms [HS256]); Some (WithAudience #"https://api.example")]
               clock authorization) with
  | Responded r _ => r
  | Next payload => protected (Some payload)
  end.

Definition http_middleware (now : nat → Time) : prog () :=
  let secret := #"a-32-byte-hmac-secret-for-hs256!!" in
  signer ← must (NewHMACSigner HS256 secret [ #"k1"]);
  let keys := StaticKeyProvider (FromHMACSecret secret [ #"k1"]) in
  let token := match Sign (Ok (marshal_flat (issued_api now))) (Some signer) [] with Ok t => t | Err _ => [] end in
  let rec := ServeHTTP keys (now 1%nat) [ #"Bearer " ++ token] in
  _ ← Print (#"with token:   " ++ FormatInt (status rec) ++ #" " ++ body rec);
  let rec := ServeHTTP keys (now 2%nat) [] in
  Print (#"no token:     " ++ FormatInt (status rec) ++ #"  WWW-Authenticate: " ++
         default [] (www_authenticate rec) ++ [x0a]).

(** ** jwe_roundtrip *)

(** The EC key pair that main generates, and [ed25519.GenerateKey]: the key of a
    random seed and its public half. *)
Variable ecdsa_GenerateKey : Curve → res (Z * (Z * Z)).

Definition private_key (c : Curve) (pair : Z * (Z * Z)) : ECDSAPrivateKey :=
  let '(d, (x, y)) := pair in mkECDSAPrivateKey (mkECDSAPublicKey (Some c) (Some x) (Some y)) (Some d).

Definition ed25519_GenerateKey (n : nat) : res (bytes * bytes) :=
  seed ← rand_Read n 32;
  let key := ed25519_NewKeyFromSeed seed in
  Ok (drop 32 key, key).

Definition zero_account : accountPayload := mkAccountPayload zero_claims [] [].

Definition issued_account (now : nat → Time) : accountPayload :=
  mkAccountPayload (some_claims #"https://issuer.example" [] (Some [ #"account-api"])
    (Some (now 0%nat + 5 * minute)) None) #"acct-9" #"gold".

Definition account_policies : NestedJWTPolicies :=
  mkPolicies
    [Some (WithAllowedKeyAlgorithms [ECDHESA256KW]); Some (WithAllowedContentAlgorithms [A256GCM]);
     Some (WithRequiredType #"account+jwt")]
    [Some (WithAllowedAlgorithms [Ed25519]); Some (WithIssuer #"https://issuer.example");
     Some (WithAudience #"account-api")].

(** The encryption itself draws the first two reads of [rand_Read]. *)
Definition jwe_roundtrip (now : nat → Time) : prog () :=
  recipient ← must (private_key P256 <$> ecdsa_GenerateKey P256);
  '(verifyKey, signKey) ← must (ed25519_GenerateKey 2);
  signer ← must (NewEd25519Signer signKey [ #"sig-1"]);
  inner ← must (Sign (Ok (marshal_flat (issued_account now))) (Some signer) []);
  enc ← must (NewECDHESEncrypter (Some (ecp_PublicKey recipient)) ECDHESA256KW A256GCM [ #"enc-1"]);
  compact ← must (EncryptNestedJWT inner (Some (EBuiltin enc)) [Some (WithJWEType #"account+jwt")]);
  _ ← Println (#"nested compact JWE: " ++ compact);
  dec ← must (NewECDHESDecrypter (Some recipient) [ #"enc-1"]);
  let verificationKeys := StaticKeyProvider (FromEd25519PublicKey verifyKey [ #"sig-1"]) in
  let '(claims, err) :=
    snd (DecryptNestedJWT unmarshal_flat (now 1%nat) compact (Some zero_account) (Some (DBuiltin dec))
           (Some verificationKeys) account_policies) in
  _ ← must_nil err;
  let claims := default zero_account claims in
  Print (#"decrypted: account=" ++ AccountID claims ++ #" tier=" ++ Tier claims ++ [x0a]).

(** ** verify_idtoken *)

Definition zero_google : googleIDToken :=
  mkGoogleIDToken (mkIDTokenClaims zero_claims
    (mkStandardClaims [] [] [] [] [] [] [] [] [] [] None [] [] [] [] [] None None None [])
    [] [] [] None [] []) [].

Definition issued_google (now : nat → Time) : googleIDToken :=
  mkGoogleIDToken
    (mkIDTokenClaims
       (some_claims #"https://accounts.google.com" #"110169484474386276334"
          (Some [ #"1234567890.apps.googleusercontent.com"]) (Some (now 0%nat + 60 * minute)) (Some (now 1%nat)))
       (mkStandardClaims #"John Smith" [] [] [] [] [] [] [] [] #"jsmith@example.com" (Some true)
          [] [] [] [] [] None None None #"nonce-from-session")
       [] [] [] None [] [])
    #"example.com".

Definition google_options : list (option ParseOption) :=
  [Some (WithAllowedAlgorithms [ES256; RS256]); Some (WithIssuer #"https://accounts.google.com");
   Some (WithAudience #"1234567890.apps.googleusercontent.com");
   Some (WithRequiredClaims [ #"iss"; #"sub"; #"aud"; #"exp"; #"iat"])].

Definition google_context : IDTokenValidationContext :=
  mkIDTokenValidationContext #"1234567890.apps.googleusercontent.com" [] #"nonce-from-session" true [] [] ES256.

Definition verify_idtoken (now : nat → Time) : prog () :=
  priv ← must (private_key P256 <$> ecdsa_GenerateKey P256);
  let kid := #"2024-06" in
  signer ← must (NewECDSASigner ES256 (Some priv) [kid]);
  idToken ← must (Sign (Ok (marshal_flat (issued_google now))) (Some signer) []);
  let jwks := match KeySet_MarshalJSON (NewKeySet [FromECDSAPublicKey (Some (ecp_PublicKey priv)) [kid]]) with
              | Ok b => b | Err _ => [] end in
  keys ← must (ParseKeySet jwks);
  let '(claims, err) :=
    snd (Parse unmarshal_flat (now 2%nat) idToken (Some zero_google) (Some (KeySet_Lookup keys)) google_options) in
  let claims := default zero_google claims in
  let err := match err with
             | None => ValidateIDTokenForContext (goo_claims claims) google_context
             | Some err => Some err end in
  _ ← must_nil err;
  Print (#"verified ID token: sub=" ++ Subject (id_registered (goo_claims claims)) ++
         #" email=" ++ Email (id_standard (goo_claims claims)) ++ #" hd=" ++ goo_HostedDomain claims ++ [x0a]).

(** ** refresh_rotation *)

Variable range : Z → gmap bytes revocationEntry → list (bytes * revocationEntry).

Definition format_bool (b : bool) : bytes := if b then #"true" else #"false".

(** A rotation reads the clock once, or twice when it revokes. *)
Definition refresh_rotation (now : nat → Time) : prog () :=
  let fam := NewTokenFamily 0 in
  let '(r, t0) := issue fam (mkRotator ∅ NewMemoryRevocationStore 1) in
  t0 ← must t0;
  let '(r, res) := rotate range fam (ot_Raw t0) (now 0%nat) (now 1%nat) r in
  let res := result_or_zero res in
  let t1 := Next_ res in
  _ ← Println (#"t0 -> t1 (reuse=" ++ format_bool (ReuseDetected res) ++ #")");
  let '(r, res) := rotate range fam (ot_Raw t1) (now 1%nat) (now 2%nat) r in
  let res := result_or_zero res in
  let t2 := Next_ res in
  _ ← Println (#"t1 -> t2 (reuse=" ++ format_bool (ReuseDetected res) ++ #")");
  let '(r, res) := rotate range fam (ot_Raw t1) (now 2%nat) (now 3%nat) r in
  _ ← Println (#"replay t1 -> reuse=" ++ format_bool (ReuseDetected (result_or_zero res)) ++ #" (family now revoked)");
  let '(r, res) := rotate range fam (ot_Raw t2) (now 4%nat) (now 5%nat) r in
  Println (#"present t2 -> reuse=" ++ format_bool (ReuseDetected (result_or_zero res)) ++ #" (family is dead)").
End Programs.

(** ** What the runs need of the clock *)

(** Every reading is between 1970 and an hour before the end of 9999, and the
    [k]th, by which the token is checked, comes before the token expires, by the
    15.26 microseconds that a date may lose on the way. *)
Definition clock_ok (now : nat → Time) (k : nat) (lifetime : Z) : Prop :=
  (∀ i, (i <= k)%nat → 0 ≤ now i ≤ maxNumericDate * second - 60 * minute) ∧
  now k + 15259 < now 0%nat + lifetime.

Lemma clock_expiry now k lifetime :
  clock_ok now k lifetime → 0 ≤ lifetime ≤ 60 * minute →
  date_in_range (now 0%nat + lifetime) ∧ now k < read_date (now 0%nat + lifetime) ∧
  len (NumericDate_lit (now 0%nat + lifetime)) ≤ 22.
Proof.
  intros [Hr Ht] Hl. specialize (Hr 0%nat ltac:(lia)).
  assert (Hd : date_in_range (now 0%nat + lifetime)).
  { unfold date_in_range, minNumericDate, maxNumericDate, minute, second in *. lia. }
  split; [done|]. destruct (read_date_near _ Hd) as [Hn _]. split; [lia|].
  apply NumericDate_lit_len. unfold maxNumericDate, minute, second in *. lia.
Qed.

Lemma clock_read now k lifetime i :
  clock_ok now k lifetime → (i <= k)%nat → date_in_range (now i) ∧ len (NumericDate_lit (now i)) ≤ 22.
Proof.
  intros [Hr _] Hi. specialize (Hr i Hi). split.
  - unfold date_in_range, minNumericDate, maxNumericDate, minute, second in *. lia.
  - apply NumericDate_lit_len. unfold maxNumericDate, minute, second in *. lia.
Qed.

(** ** Issuing *)

Section Issuing.
Context `{URL, CryptoLaws, Unicode, Strconv}.

(** A payload that is an object is signed, and the token is hardly longer. *)
Lemma sign_short payload m s n :
  is_none (Signer_Algorithm s) = false → parse payload = Ok (JObj m) →
  (∀ msg, ∃ sig, Sign_with s msg = Ok sig ∧ len sig ≤ 64) →
  let header := print (JObj (header_members (signed_header s []))) in
  len header ≤ 200 → len payload ≤ n →
  ∃ sig, Sign (Ok payload) (Some s) [] = Ok (compact header payload sig) ∧
    len (compact header payload sig) ≤ 2 * n + 1000 ∧ ∃ msg, Sign_with s msg = Ok sig.
Proof.
  intros Hn Hp Hs header Hh Hl.
  destruct (Hs (Encode header ++ #"." ++ Encode payload)) as (sig & Hsig & Hsl).
  exists sig. split; [|split; [|by eexists]].
  - apply Sign_Ok. split; [done|]. split; [|by exists sig].
    exists m. apply decodeObject_Ok. by exists m.
  - unfold compact. rewrite !len_app, !len_Encode. change (len #".") with 1.
    pose proof (len_nonneg payload). pose proof (len_nonneg sig). pose proof (len_nonneg header). div_lia.
Qed.

Lemma some_claims_faithful iss sub aud exp iat :
  utf8_strings [iss; sub] → utf8_strings (default [] aud) → date_ok exp → date_ok iat →
  registered_faithful (some_claims iss sub aud exp iat).
Proof.
  intros Hs Ha He Hi. unfold utf8_strings in *. rewrite !list.Forall_cons in Hs. destruct Hs as (? & ? & _).
  split; [split; [|done]|by repeat constructor|done|done].
  cbn. intros t Ht d ->. rewrite !elem_of_cons in Ht. destruct Ht as [Ht|[Ht|[Ht|Ht]]].
  - by apply He.
  - done.
  - by apply Hi.
  - by apply elem_of_nil in Ht.
Qed.

(** The claims are valid for a policy that asks for no more than the issuer and
    the audience that they have. *)
Lemma some_claims_valid raw iss sub a exp iat header cfg :
  leeway cfg = 0 → now cfg < read_date exp → (issuer cfg = [] ∨ iss = issuer cfg) → audience cfg = a → a ≠ [] →
  requiredType cfg = [] →
  (∀ name, name ∈ requiredClaims cfg → ∃ m j, parse raw = Ok (JObj m) ∧ (name, j) ∈ m ∧ j ≠ JNull) →
  claims_valid raw (norm_claims (some_claims iss sub (Some [a]) (Some exp) iat)) header cfg.
Proof.
  intros Hl Ht Hi Ha Hne Hy Hr. split; try done.
  - intros t [= <-]. rewrite Hl. change (neg_duration 0) with 0. lia.
  - intros _. exists [a]. split; [done|]. rewrite Ha. by left.
  - intros Hno. by rewrite Ha in Hno.
  - by left.
Qed.

(** A struct is issued as a short token, which is accepted where its signer is known
    and read back. *)
Lemma issue `{FlatLaws A} `{!Embeds A} (c : A) s v keys cfg n :
  let header := signed_header s [] in
  let headerJSON := print (JObj (header_members header)) in
  faithful c → len (marshal_flat c) ≤ n → n ≤ 1000 → len headerJSON ≤ 200 → header_utf8 header →
  is_none (Signer_Algorithm s) = false → (∀ msg, ∃ sig, Sign_with s msg = Ok sig ∧ len sig ≤ 64) →
  counterpart s v → h_Algorithm header ∈ allowedAlgs cfg →
  resolves keys cfg (withoutNone (allowedAlgs cfg)) header v →
  claims_valid (marshal_flat c) (registered (returned c)) header cfg →
  ∃ sig, let token := compact headerJSON (marshal_flat c) sig in
    Sign (Ok (marshal_flat c)) (Some s) [] = Ok token ∧ len token ≤ 2 * n + 1000 ∧
    accepted token keys cfg header (marshal_flat c).
Proof.
  intros header headerJSON Hf Hl Hn Hh Hu Ha Hs Hcp Hin Hr Hv. destruct (parse_marshal _ Hf) as [_ Hp].
  destruct (sign_short _ _ _ n Ha Hp Hs Hh Hl) as (sig & Htok & Hsize & _). exists sig. cbv zeta.
  split; [exact Htok|]. split; [exact Hsize|].
  assert (Hmax : len (compact headerJSON (marshal_flat c) sig) ≤ maxTokenBytes)
    by (change maxTokenBytes with 1048576; unfold headerJSON, header; lia).
  eapply sign_accepted; [exact Htok|exact Hcp|exact Hu|exact Hmax|exact Hin|exact Hr| |exact Hv].
  by apply embedded_claims, unmarshal_marshal.
Qed.

(** What is accepted of a struct, [Parse] reads. *)
Lemma accepted_read `{FlatLaws A} clock (c old : A) token keys opts header :
  faithful c → accepted token keys (apply_all applyParse opts (default_config clock)) header (marshal_flat c) →
  snd (Parse unmarshal_flat clock token (Some old) keys opts) = (Some (returned c), None).
Proof. intros Hf Hacc. eapply accepted_parse; [exact Hacc|by apply unmarshal_marshal]. Qed.

(** One allowed algorithm is unambiguous. *)
Lemma one_algorithm key a : requireUnambiguousKeyAlgorithm key [a] = None.
Proof.
  unfold requireUnambiguousKeyAlgorithm. destruct (negb _); [done|]. cbn [unambiguous_loop].
  rewrite bool_decide_eq_false_2 by apply not_elem_of_nil. by destruct (verifierForAlg key a).
Qed.

(** So are two when the key cannot verify the second. *)
Lemma two_algorithms key a b :
  is_ok (verifierForAlg key b) = false → requireUnambiguousKeyAlgorithm key [a; b] = None.
Proof.
  intros Hb. unfold requireUnambiguousKeyAlgorithm. destruct (negb _); [done|]. cbn [unambiguous_loop].
  rewrite bool_decide_eq_false_2 by apply not_elem_of_nil.
  destruct (verifierForAlg key b) as [|e]; [done|].
  by destruct (verifierForAlg key a); cbn; destruct (bool_decide _).
Qed.

(** A static provider answers for its key. *)
Lemma static_resolves key cfg allowed header v :
  verifierProvider cfg = None → h_KeyID header = Kid key →
  requireUnambiguousKeyAlgorithm key allowed = None → verifierForAlg key (h_Algorithm header) = Ok v →
  resolves (Some (StaticKeyProvider key)) cfg allowed header v.
Proof.
  intros Hp Hk Hu Hv. apply (resolves_key _ _ _ _ _ (StaticKeyProvider key) key); [done|done| |done|done].
  unfold StaticKeyProvider. rewrite Hk, (bool_decide_eq_true_2 (Kid key = Kid key)) by done. by rewrite andb_false_r.
Qed.

(** *** HS256 *)

Lemma hs256_signer secret kid :
  32 ≤ len secret →
  let s := mkHmacSigner HS256 secret kid SHA256 in
  NewHMACSigner HS256 secret [kid] = Ok (SHmac s) ∧
  verifierForAlg (FromHMACSecret secret [kid]) HS256 = Ok (VHmac s).
Proof.
  intros Hl. assert (Hn : NewHMACSigner HS256 secret [kid] = Ok (SHmac (mkHmacSigner HS256 secret kid SHA256))).
  { unfold NewHMACSigner, newHmacSigner. change (HashOf HS256) with (Some SHA256). cbn [Hash_Size].
    change (bool_decide (FamilyOf HS256 = FamilyHMAC)) with true. by rewrite (proj2 (Z.ltb_ge _ _)). }
  split; [done|]. unfold verifierForAlg. change (permitsVerify (FromHMACSecret secret [kid]) HS256) with (None : err_opt).
  cbn [check]. change (FamilyOf HS256) with FamilyHMAC. cbn [check]. rewrite HMAC_import.
  rewrite bool_decide_eq_false_2 by (intros ->; unfold len in Hl; cbn in Hl; lia).
  unfold NewHMACVerifier, NewHMACSigner in *. change (Kid (FromHMACSecret secret [kid])) with kid.
  by destruct (newHmacSigner HS256 secret [kid]) as [s|]; [injection Hn as ->|].
Qed.
End Issuing.

(** ** The runs *)

(** The length of a concatenation with literal strings in it. *)
Ltac len_text :=
  rewrite !len_app;
  repeat match goal with |- context [len ?l] =>
    lazymatch l with NumericDate_lit _ => fail | _ => let n := eval vm_compute in (len l) in change (len l) with n end
  end.

(** The text of a struct whose strings are literals, by evaluating all but its dates. *)
Ltac json_text :=
  unfold marshal_flat;
  match goal with |- context [members ?c] =>
    let m := eval cbv -[NumericDate_lit Z.add Z.mul minute second] in (members c) in change (members c) with m end;
  repeat match goal with |- context [NumericDate_lit ?t] => generalize (NumericDate_lit t); intros end;
  cbn [print Join fmap list_fmap fst snd]; rewrite <- !app_assoc; by vm_compute.

Section Runs.
Context `{URL, CryptoLaws, Unicode, Strconv, AESLaws, !JweCrypto, !Entropy, !JweLaws}.
(** The size of an HMAC and of a digest is that of the hash. *)
Hypothesis HMAC_len : ∀ h k m, len (HMAC h k m) = Hash_Size h.
Hypothesis HashSum_len : ∀ h m, len (HashSum h m) = Hash_Size h.
(** A generated key is a scalar and its point, and signs. *)
Variable ecdsa_GenerateKey : Curve → res (Z * (Z * Z)).
Hypothesis generated : ∀ c d p, ecdsa_GenerateKey c = Ok (d, p) → scalar_point c d = Some p.
Hypothesis seed_key_len : ∀ seed, len (ed25519_NewKeyFromSeed seed) = ed25519_PrivateKeySize.
Hypothesis ecdsa_signs : ∀ c d h digest p, scalar_point c d = Some p → is_ok (ecdsa_Sign c d h digest) = true.

Lemma hmac_short secret kid msg :
  ∃ sig, Sign_with (SHmac (mkHmacSigner HS256 secret kid SHA256)) msg = Ok sig ∧ len sig ≤ 64.
Proof. eexists. split; [done|]. unfold hmac_Sign. by rewrite HMAC_len. Qed.

(** *** basic_hmac *)

(** The payload, member by member. *)
Lemma session_json now :
  marshal_flat (issued_session now) =
  #'"{'iss':'https://auth.example','sub':'user-42','aud':'https://api.example','exp':" ++
  NumericDate_lit (now 0%nat + 15 * minute) ++ #'",'iat':" ++ NumericDate_lit (now 1%nat) ++
  #'",'role':'admin'}".
Proof. json_text. Qed.

(** The concrete strings of a struct, and its dates. *)
Lemma date_ok_some t : date_in_range t → date_ok (Some t).
Proof. by intros Ht ? [= <-]. Qed.

Lemma session_faithful now : clock_ok now 2 (15 * minute) → faithful (issued_session now).
Proof.
  intros Hc. destruct (clock_expiry _ _ _ Hc ltac:(done)) as (He & _). destruct (clock_read _ _ _ 1 Hc ltac:(lia)) as [Hi _].
  split; [|done]. apply some_claims_faithful; [by repeat constructor..| |]; by apply date_ok_some.
Qed.

(** basic_hmac reads its token back and prints what it means to print, whatever
    the entropy, when it takes less than a quarter of an hour. *)
Lemma basic_hmac_prints now secret :
  clock_ok now 2 (15 * minute) → rand_Read 0 32 = Ok secret →
  ∃ token, basic_hmac now =
    (#"token: " ++ token ++ [x0a] ++ #"verified: sub=user-42 role=admin" ++ [x0a], Ok ()).
Proof.
  intros Hc Hs. pose proof (rand_Read_len 0 32 secret ltac:(done) Hs) as Hl.
  destruct (hs256_signer secret #"sess-key-1") as [Hsign Hver]; [lia|].
  destruct (clock_expiry _ _ _ Hc ltac:(done)) as (He & Ht & Hle). destruct (clock_read _ _ _ 1 Hc ltac:(lia)) as [_ Hli].
  set (s := SHmac (mkHmacSigner HS256 secret #"sess-key-1" SHA256)) in *.
  pose proof (session_faithful now Hc) as Hf.
  set (keys := StaticKeyProvider (FromHMACSecret secret [ #"sess-key-1"])).
  destruct (issue (issued_session now) s (VHmac (mkHmacSigner HS256 secret #"sess-key-1" SHA256)) (Some keys)
    (apply_all applyParse session_options (default_config (now 2%nat))) 300 Hf) as (sig & Htok & _ & Hacc);
    [|done|by vm_compute|by repeat constructor|done|apply hmac_short|done|by left|..].
  { rewrite session_json. len_text. lia. }
  { apply static_resolves; [done|done|apply one_algorithm|exact Hver]. }
  { by apply some_claims_valid; [..|intros ? ?%elem_of_nil]; try done; right. }
  set (token := compact _ _ sig) in *. clearbody token.
  pose proof (accepted_read (now 2%nat) _ zero_session _ _ session_options _ Hf Hacc) as Hread. clear Hacc.
  exists token. unfold basic_hmac. rewrite Hs, must_ok, Hsign, must_ok, Htok, must_ok. cbv zeta. fold keys.
  unfold Println. rewrite print_then, Hread, must_nil_ok, <- !app_assoc. reflexivity.
Qed.

(** *** http_middleware *)

Lemma api_json now :
  marshal_flat (issued_api now) =
  #'"{'sub':'user-7','aud':'https://api.example','exp':" ++ NumericDate_lit (now 0%nat + minute) ++
  #'",'scope':'read'}".
Proof. json_text. Qed.

Lemma api_faithful now : clock_ok now 1 minute → faithful (issued_api now).
Proof.
  intros Hc. destruct (clock_expiry _ _ _ Hc ltac:(done)) as (He & _).
  split; [|done]. apply some_claims_faithful; [by repeat constructor..|by apply date_ok_some|done].
Qed.

(** The protected handler greets the bearer of a payload that decodes. *)
Lemma protected_greets Error c :
  faithful c →
  protected Error (Some (marshal_flat c)) =
    mkResponse 200 None text_plain
      (#"hello " ++ Subject (api_registered c) ++ #" (scope " ++ Quote (Scope c) ++ #")" ++ [x0a]).
Proof.
  intros Hc. unfold protected, ClaimsFromContext, decodeFreshObject. by rewrite (unmarshal_marshal c Hc).
Qed.

(** http_middleware admits the bearer of its token to the handler, which reads the
    claims that were signed, and turns the anonymous request away with a challenge,
    when it takes less than a minute. *)
Lemma http_middleware_prints Error now :
  clock_ok now 1 minute →
  http_middleware Error now =
    (#'"with token:   200 hello user-7 (scope 'read')" ++ [x0a] ++
     #"no token:     401  WWW-Authenticate: Bearer" ++ [x0a], Ok ()).
Proof.
  intros Hc. set (secret := #"a-32-byte-hmac-secret-for-hs256!!").
  destruct (hs256_signer secret #"k1") as [Hsign Hver]; [by vm_compute|].
  destruct (clock_expiry _ _ _ Hc ltac:(done)) as (He & Ht & Hle).
  set (s := SHmac (mkHmacSigner HS256 secret #"k1" SHA256)) in *.
  pose proof (api_faithful now Hc) as Hf. set (keys := StaticKeyProvider (FromHMACSecret secret [ #"k1"])).
  set (cfg := apply_all applyParse [Some (WithAllowedAlgorithms [HS256]); Some (WithAudience #"https://api.example")]
    (default_config (now 1%nat))).
  destruct (issue (issued_api now) s (VHmac (mkHmacSigner HS256 secret #"k1" SHA256)) (Some keys) cfg 300 Hf)
    as (sig & Htok & _ & Hacc);
    [|done|by vm_compute|by repeat constructor|done|apply hmac_short|done|by left|..].
  { rewrite api_json. len_text. lia. }
  { apply static_resolves; [done|done|apply one_algorithm|exact Hver]. }
  { by apply some_claims_valid; [..|intros ? ?%elem_of_nil]; try done; left. }
  set (token := compact _ _ sig) in *.
  assert (Hserve : ServeHTTP Error keys (now 1%nat) [ #"Bearer " ++ token] = protected Error (Some (marshal_flat (issued_api now)))).
  { apply parseVerified_Ok in Hacc. unfold ServeHTTP, Middleware. fold cfg.
    unfold token. rewrite (proj2 BearerToken_spec). fold token. unfold result_of in Hacc.
    destruct (parseVerified token (Some keys) cfg) as [t r]. cbn [snd] in Hacc. by rewrite Hacc. }
  unfold http_middleware. fold secret. rewrite Hsign, must_ok, Htok. fold keys. cbv zeta. fold token.
  rewrite Hserve, (protected_greets _ _ Hf), print_then. by vm_compute.
Qed.

(** *** EC keys *)

(** The JWK of a point of P-256. *)
Definition ec_jwk (x y : Z) (kid : bytes) : Key :=
  FromECDSAPublicKey (Some (mkECDSAPublicKey (Some P256) (Some x) (Some y))) [kid].

Lemma ec_jwk_fields x y kid :
  on_curve P256 x y = true →
  ec_jwk x y kid = mkKey KeyTypeEC kid [] [] [] [] [] #"P-256" (be_bytes 32 x) (be_bytes 32 y) [].
Proof. intros Hon. unfold ec_jwk, FromECDSAPublicKey. by rewrite Hon. Qed.

Lemma ec_jwk_len x y kid :
  on_curve P256 x y = true → utf8_valid kid = true → len (print (Key_json (ec_jwk x y kid))) ≤ 6 * len kid + 800.
Proof.
  intros Hon Hk. unfold Key_json. rewrite ec_jwk_fields by done.
  assert (Hm : ∀ z, len (enc_material (be_bytes 32 z)) = 43 ∧ utf8_valid (enc_material (be_bytes 32 z)) = true).
  { intros z. rewrite enc_material_Encode. split; [|apply Encode_valid].
    rewrite len_Encode. unfold len. by rewrite length_be_bytes. }
  destruct (Hm x) as [Hx Hxu], (Hm y) as [Hy Hyu].
  etransitivity; [apply print_obj_len|]. unfold Key_jwk, jwk_members.
  cbn [j_kty j_kid j_use j_key_ops j_alg j_n j_e j_crv j_x j_y j_k Kty Kid Use KeyOps KeyAlg key_n key_e key_crv key_x key_y].
  rewrite !members_len_app.
  pose proof (omit_len #"kid" kid Hk). pose proof (omit_len #"x" _ Hxu). pose proof (omit_len #"y" _ Hyu).
  rewrite Hx, Hy in *. change (len (quote #"kid")) with 5 in *. change (len (quote #"x")) with 3 in *.
  change (len (quote #"y")) with 3 in *.
  repeat match goal with |- context [members_len ?m] =>
    lazymatch m with omit _ (enc_material (be_bytes _ _)) => fail | omit _ kid => fail
    | _ => let n := eval vm_compute in (members_len m) in change (members_len m) with n end end.
  lia.
Qed.

Lemma es256_verifier x y kid :
  on_curve P256 x y = true → 0 ≤ x < 256 ^ coord_size P256 → 0 ≤ y < 256 ^ coord_size P256 →
  Key_PublicKey (ec_jwk x y kid) = Ok (ECPub P256 x y) ∧
  verifierForAlg (ec_jwk x y kid) ES256 = Ok (VEcdsa (mkEcdsaVerifier ES256 P256 x y kid SHA256 32)) ∧
  is_ok (verifierForAlg (ec_jwk x y kid) RS256) = false.
Proof.
  intros Hon Hx Hy. assert (Hp : Key_PublicKey (ec_jwk x y kid) = Ok (ECPub P256 x y)) by (by apply EC_import).
  split; [done|]. unfold verifierForAlg. rewrite ec_jwk_fields in * by done. split; [|done].
  change (FamilyOf ES256) with FamilyECDSA. cbn [check]. rewrite Hp. cbn [mbind result_bind].
  unfold NewECDSAVerifier. change (ECDSAParams ES256) with (Some (P256, SHA256, 32)).
  unfold validateECDSAPublicKey. by rewrite Hon.
Qed.

Lemma ec_publishable x y kid :
  on_curve P256 x y = true → 0 ≤ x < 256 ^ coord_size P256 → 0 ≤ y < 256 ^ coord_size P256 →
  utf8_valid kid = true → len kid ≤ 100 → publishable (ec_jwk x y kid).
Proof.
  intros Hon Hx Hy Hk Hl. destruct (es256_verifier x y kid Hon Hx Hy) as (Hp & _).
  destruct (ec_key_ok P256 x y kid ltac:(done) Hon Hk) as [[Hc Hs] Hu].
  assert (Hty : Kty (ec_jwk x y kid) = KeyTypeEC) by (by rewrite ec_jwk_fields).
  split; [done|by rewrite Hty|done| | |].
  - unfold validateRepresentation. fold (ec_jwk x y kid) in Hc. rewrite Hc, Hty, Hp.
    by destruct (curveByName _).
  - rewrite ec_jwk_fields by done. unfold material_bounded.
    cbn [key_n key_e key_x key_y key_k].
    assert (Hb : ∀ z, len (be_bytes 32 z) ≤ MaxJWKMaterialBytes) by (intros z; unfold len; by rewrite length_be_bytes).
    by repeat constructor.
  - intros b. rewrite Key_Marshal_print by (by rewrite Hty). intros <-%Ok_inj.
    pose proof (ec_jwk_len x y kid Hon Hk) as Hj. unfold Key_json in Hj. change MaxJWKJSONBytes with 65536. lia.
Qed.

Lemma kids_unique_one k : kids_unique [k].
Proof. intros i j a b Hi Hj _ _. apply lookup_lt_Some in Hi, Hj. simpl in *. lia. Qed.

(** A published key set of one EC key: what is served, parsed, and looked up. *)
Lemma ec_served x y :
  on_curve P256 x y = true → 0 ≤ x < 256 ^ coord_size P256 → 0 ≤ y < 256 ^ coord_size P256 →
  let key := ec_jwk x y #"2024-06" in
  ∃ jwks, KeySet_MarshalJSON (NewKeySet [key]) = Ok jwks ∧ ParseKeySet jwks = Ok (NewKeySet [key]) ∧
    KeySet_Lookup (NewKeySet [key]) #"2024-06" = Ok (Some key).
Proof.
  intros Hon Hx Hy key. assert (Hk : Forall publishable [key]) by (apply list.Forall_singleton, ec_publishable; [done..|by vm_compute]).
  eexists. split; [apply KeySet_Marshal_print; [done|apply kids_unique_one]|]. split.
  - apply parse_served; [done|done|]. etransitivity; [apply print_obj_len|].
    rewrite members_len_cons. cbn [fst snd fmap list_fmap print Join]. rewrite !len_app.
    pose proof (ec_jwk_len x y #"2024-06" Hon eq_refl) as Hj. unfold Key_json in Hj. unfold key_tree. fold key in Hj.
    change (members_len []) with 0. change (len (quote #"keys")) with 6. change (len #"[") with 1.
    change (len #"]") with 1. change (len #"2024-06") with 7 in Hj. change MaxKeySetJSONBytes with 8389632. lia.
  - unfold key. rewrite ec_jwk_fields by done. generalize (be_bytes 32 x), (be_bytes 32 y). intros bx byy. by vm_compute.
Qed.

(** *** verify_idtoken *)

Lemma google_json now :
  marshal_flat (issued_google now) =
  #'"{'iss':'https://accounts.google.com','sub':'110169484474386276334','aud':'1234567890.apps.googleusercontent.com','exp':" ++
  NumericDate_lit (now 0%nat + 60 * minute) ++ #'",'iat':" ++ NumericDate_lit (now 1%nat) ++
  #'",'name':'John Smith','email':'jsmith@example.com','email_verified':true,'nonce':'nonce-from-session','hd':'example.com'}".
Proof. json_text. Qed.

Lemma google_faithful now : clock_ok now 2 (60 * minute) → faithful (issued_google now).
Proof.
  intros Hc. destruct (clock_expiry _ _ _ Hc ltac:(done)) as (He & _). destruct (clock_read _ _ _ 1 Hc ltac:(lia)) as [Hi _].
  split; [|done]. split; [apply some_claims_faithful; [by repeat constructor..| |]; by apply date_ok_some|].
  split; [split; [by repeat constructor|done|done]|]. by repeat constructor.
Qed.

Lemma es256_signer d x y kid :
  scalar_point P256 d = Some (x, y) →
  let s := SEcdsa (mkEcdsaSigner ES256 P256 d kid SHA256 32) in
  NewECDSASigner ES256 (Some (private_key P256 (d, (x, y)))) [kid] = Ok s ∧
  ∀ msg, ∃ sig, Sign_with s msg = Ok sig ∧ len sig ≤ 64.
Proof.
  intros Hd s. destruct (scalar_point_ok P256 d x y ltac:(done) Hd) as (Hon & Hx & Hy). split.
  - unfold NewECDSASigner. change (ECDSAParams ES256) with (Some (P256, SHA256, 32)).
    unfold validateECDSAPrivateKey, private_key. rewrite bool_decide_eq_true_2, Hd, Hon by done. cbn [negb].
    by rewrite bool_decide_eq_true_2.
  - intros msg. cbn [Sign_with s]. unfold ecdsaSigner_Sign. cbn [es_curve es_D es_hash es_size].
    pose proof (ecdsa_signs P256 d SHA256 (HashSum SHA256 msg) _ Hd) as Hs.
    destruct (ecdsa_Sign P256 d SHA256 (HashSum SHA256 msg)) as [[r t]|] eqn:Hrt; [|done]. cbn [mbind result_bind].
    eexists. split; [done|]. unfold ecdsa_sig. rewrite len_app. unfold len. by rewrite !length_be_bytes.
Qed.

(** The claims of the token as they are read back. *)
Lemma google_returned now :
  returned (issued_google now) =
  mkGoogleIDToken
    (mkIDTokenClaims
       (norm_claims (some_claims #"https://accounts.google.com" #"110169484474386276334"
          (Some [ #"1234567890.apps.googleusercontent.com"]) (Some (now 0%nat + 60 * minute)) (Some (now 1%nat))))
       (id_standard (goo_claims (issued_google now))) [] [] [] None [] [])
    #"example.com".
Proof. done. Qed.

Lemma google_context_valid now :
  url_Scheme #"https://accounts.google.com" = Some #"https" →
  ValidateIDTokenForContext (goo_claims (returned (issued_google now))) google_context = None.
Proof.
  intros Hu. rewrite google_returned. unfold norm_claims, some_claims.
  cbn [goo_claims Issuer Subject rc_Audience ExpiresAt NotBefore IssuedAt ID rc_Confirmation fmap option_fmap option_map].
  generalize (read_date (now 0%nat + 60 * minute)), (read_date (now 1%nat)). intros exp iat.
  vm_compute in Hu. vm_compute. by rewrite Hu.
Qed.

Lemma google_valid now header :
  parse (marshal_flat (issued_google now)) = Ok (JObj (members (issued_google now))) →
  now 2%nat < read_date (now 0%nat + 60 * minute) →
  claims_valid (marshal_flat (issued_google now)) (registered (returned (issued_google now))) header
    (apply_all applyParse google_options (default_config (now 2%nat))).
Proof.
  intros Hp Ht. change (registered (returned (issued_google now))) with
    (norm_claims (some_claims #"https://accounts.google.com" #"110169484474386276334"
          (Some [ #"1234567890.apps.googleusercontent.com"]) (Some (now 0%nat + 60 * minute)) (Some (now 1%nat)))).
  apply some_claims_valid; [done|exact Ht|by right|done|done|done|].
  apply (required_present_spec _ _ _ Hp). done.
Qed.

(** verify_idtoken verifies the ID token with the key set that the provider
    publishes, finds its claims valid for the session, and prints them, when it
    takes less than an hour. *)
Lemma verify_idtoken_prints now d x y :
  clock_ok now 2 (60 * minute) → url_Scheme #"https://accounts.google.com" = Some #"https" →
  ecdsa_GenerateKey P256 = Ok (d, (x, y)) →
  verify_idtoken ecdsa_GenerateKey now =
    (#"verified ID token: sub=110169484474386276334 email=jsmith@example.com hd=example.com" ++ [x0a], Ok ()).
Proof.
  intros Hc Hurl Hgen. pose proof (generated _ _ _ Hgen) as Hd.
  destruct (scalar_point_ok P256 d x y ltac:(done) Hd) as (Hon & Hx & Hy).
  destruct (es256_signer d x y #"2024-06" Hd) as [Hsign Hshort].
  destruct (es256_verifier x y #"2024-06" Hon Hx Hy) as (_ & Hver & Hrs).
  destruct (ec_served x y Hon Hx Hy) as (jwks & Hserve & Hparse & Hlook).
  destruct (clock_expiry _ _ _ Hc ltac:(done)) as (He & Ht & Hle). destruct (clock_read _ _ _ 1 Hc ltac:(lia)) as [_ Hli].
  set (s := SEcdsa (mkEcdsaSigner ES256 P256 d #"2024-06" SHA256 32)) in *.
  pose proof (google_faithful now Hc) as Hf. destruct (parse_marshal _ Hf) as [_ Hp].
  set (key := ec_jwk x y #"2024-06") in *.
  destruct (issue (issued_google now) s (VEcdsa (mkEcdsaVerifier ES256 P256 x y #"2024-06" SHA256 32))
    (Some (KeySet_Lookup (NewKeySet [key]))) (apply_all applyParse google_options (default_config (now 2%nat))) 400 Hf)
    as (sig & Htok & _ & Hacc);
    [|done|by vm_compute|by repeat constructor|done|exact Hshort| |by left| |exact (google_valid now _ Hp Ht)|].
  { rewrite google_json. len_text. lia. }
  { do 5 (split; [reflexivity|]). exact Hd. }
  { apply (resolves_key _ _ _ _ _ (KeySet_Lookup (NewKeySet [key])) key); [done|done|exact Hlook| |exact Hver].
    change (withoutNone _) with [ES256; RS256]. by apply two_algorithms. }
  set (token := compact _ _ sig) in *. clearbody token.
  pose proof (accepted_read (now 2%nat) _ zero_google _ _ google_options _ Hf Hacc) as Hread. clear Hacc.
  unfold verify_idtoken. rewrite Hgen. change (private_key P256 <$> Ok (d, (x, y))) with (Ok (E := list cause) (private_key P256 (d, (x, y)))).
  rewrite must_ok. cbv zeta.
  change (ecp_PublicKey (private_key P256 (d, (x, y)))) with (mkECDSAPublicKey (Some P256) (Some x) (Some y)).
  fold (ec_jwk x y #"2024-06"). fold key. rewrite Hsign, must_ok, Htok, must_ok, Hserve, Hparse, must_ok, Hread.
  change (default zero_google (Some (returned (issued_google now)))) with (returned (issued_google now)).
  rewrite (google_context_valid now Hurl), must_nil_ok. reflexivity.
Qed.

(** *** jwe_roundtrip *)

(** The header of the example's encryption, ephemeral key included. *)
Definition account_header (x y : Z) : jweHeader :=
  mkJweHeader ECDHESA256KW A256GCM #"enc-1" #"account+jwt" #"JWT" (Some (ec_jwk x y [])) [] [] false false.

Lemma account_header_len x y :
  on_curve P256 x y = true → len (print (JObj (jwe_members (account_header x y)))) ≤ 1000.
Proof.
  intros Hon. etransitivity; [apply print_obj_len|]. pose proof (ec_jwk_len x y [] Hon eq_refl) as Hj.
  change (jwe_members (account_header x y)) with
    ([(#"alg", JStr ECDHESA256KW); (#"enc", JStr A256GCM); (#"kid", JStr #"enc-1"); (#"typ", JStr #"account+jwt");
      (#"cty", JStr #"JWT")] ++ [(#"epk", Key_json (ec_jwk x y []))]).
  rewrite members_len_app, (members_len_cons (#"epk", _)). cbn [fst snd].
  change (members_len []) with 0. change (len []) with 0 in Hj. change (len (quote #"epk")) with 5.
  match goal with |- context [members_len ?m] => let n := eval vm_compute in (members_len m) in change (members_len m) with n end.
  lia.
Qed.

(** An agreement with an ephemeral key and a wrapped content key succeed, and the
    token is not much longer than the plaintext. *)
Lemma account_encrypts d x y d' x' y' cek iv plaintext n :
  scalar_point P256 d = Some (x, y) → GenerateKey P256 = Ok (d', (x', y')) →
  rand_Read 0 32 = Ok cek → rand_Read 1 NonceSize = Ok iv → len plaintext ≤ n →
  ∃ compact,
    encrypt (mkEncrypter ECDHESA256KW A256GCM #"enc-1" (ecdhWrapper P256 x y ECDHESA256KW)) plaintext
      (mkEncryptConfig #"account+jwt" #"JWT") = Ok compact ∧ len compact ≤ 2 * n + 3000.
Proof.
  intros Hd Hg Hcek Hiv Hn. pose proof (GenerateKey_ok _ _ _ Hg) as Hd'.
  destruct (scalar_point_ok P256 d x y ltac:(done) Hd) as (Hon & _).
  destruct (scalar_point_ok P256 d' x' y' ltac:(done) Hd') as (Hon' & _).
  pose proof (rand_Read_len 0 32 cek ltac:(done) Hcek) as Hcl. pose proof (rand_Read_len 1 NonceSize iv ltac:(done) Hiv) as Hil.
  set (z := ecdh_X P256 d' (x, y)). set (kek := concatKDF z ECDHESA256KW [] [] 256).
  assert (Hkl : len kek = 32).
  { unfold kek, concatKDF. pose proof (HashSum_len SHA256 (kdf_input z ECDHESA256KW [] [] 256)) as Hh.
    unfold len in *. rewrite length_take. change (Z.to_nat (256 / 8)) with 32%nat.
    change (Hash_Size SHA256) with 32 in Hh. lia. }
  destruct (aesKWWrap kek cek) as [ek|e] eqn:Hek.
  2:{ pose proof (aesKWWrap_total kek cek Hkl ltac:(lia) ltac:(by rewrite Hcl)) as Ht. by rewrite Hek in Ht. }
  pose proof (aesKWWrap_length _ _ _ Hek) as Hel.
  assert (Hz : ecdhZ P256 d' P256 x y = Ok z) by (unfold ecdhZ; rewrite bool_decide_eq_true_2, Hd', Hon by done; done).
  unfold encrypt. cbn [e_enc e_alg e_kid e_wrapper x_typ x_cty wrap_key]. unfold ecdh_wrap.
  rewrite Hg. cbn [mbind result_bind]. rewrite Hz. cbn [mbind result_bind].
  change (bool_decide (ECDHESA256KW = ECDHES)) with false. change (bool_decide (ECDHESA256KW = ECDHESA256KW)) with true.
  change (contentKeyLen A256GCM) with 32. fold kek. rewrite Hcek. cbn [mbind result_bind]. rewrite Hek. cbn [mbind result_bind].
  unfold NewCipher. rewrite Hcl. change (bool_decide (32 ∈ [16; 24; 32])) with true. cbn [mbind result_bind]. rewrite Hiv.
  cbn [mbind result_bind]. fold (ec_jwk x' y' []).
  change (set_EPK _ _) with (account_header x' y').
  eexists. split; [done|].
  set (protected := Encode _). set (sealed := gcm_Seal _ _ _ _). set (k := (length sealed - _)%nat).
  pose proof (gcm_Seal_len cek iv plaintext protected) as Hsl. fold sealed in Hsl.
  pose proof (account_header_len x' y' Hon') as Hhl.
  assert (Hpl : len protected ≤ 1335).
  { unfold protected. rewrite len_Encode. pose proof (len_nonneg (print (JObj (jwe_members (account_header x' y'))))). div_lia. }
  assert (Hsplit : len (take k sealed) + len (drop k sealed) = len sealed) by (rewrite <- len_app; by rewrite take_drop).
  unfold dotted. cbn [Join]. rewrite !len_app, !len_Encode. change (len #".") with 1. unfold NonceSize in *.
  pose proof (len_nonneg (take k sealed)). pose proof (len_nonneg (drop k sealed)). rewrite Hel, Hcl, Hil. div_lia.
Qed.

Lemma account_json now :
  marshal_flat (issued_account now) =
  #'"{'iss':'https://issuer.example','aud':'account-api','exp':" ++ NumericDate_lit (now 0%nat + 5 * minute) ++
  #'",'account_id':'acct-9','tier':'gold'}".
Proof. json_text. Qed.

Lemma account_faithful now : clock_ok now 1 (5 * minute) → faithful (issued_account now).
Proof.
  intros Hc. destruct (clock_expiry _ _ _ Hc ltac:(done)) as (He & _).
  split; [apply some_claims_faithful; [by repeat constructor..|by apply date_ok_some|done]|done].
Qed.

(** The recipient's key makes an encrypter and a decrypter. *)
Lemma recipient_pair d x y kid :
  scalar_point P256 d = Some (x, y) →
  let recipient := private_key P256 (d, (x, y)) in
  let e := mkEncrypter ECDHESA256KW A256GCM kid (ecdhWrapper P256 x y ECDHESA256KW) in
  let u := mkDecrypter kid (ecdhUnwrapper P256 d) in
  NewECDHESEncrypter (Some (ecp_PublicKey recipient)) ECDHESA256KW A256GCM [kid] = Ok e ∧
  NewECDHESDecrypter (Some recipient) [kid] = Ok u ∧ issued e u.
Proof.
  intros Hd recipient e u. destruct (scalar_point_ok P256 d x y ltac:(done) Hd) as (Hon & Hx & Hy).
  assert (Hk : Key_PublicKey (FromECDSAPublicKey (Some (ecp_PublicKey recipient)) []) = Ok (ECPub P256 x y)) by (by apply EC_import).
  assert (He : NewECDHESEncrypter (Some (ecp_PublicKey recipient)) ECDHESA256KW A256GCM [kid] = Ok e).
  { unfold NewECDHESEncrypter. rewrite Hk. reflexivity. }
  assert (Hu : NewECDHESDecrypter (Some recipient) [kid] = Ok u).
  { unfold NewECDHESDecrypter. rewrite Hk. cbn [recipient private_key ecp_PublicKey ecp_D key_curve_name ec_Curve].
    rewrite Hd, Hon, bool_decide_eq_false_2 by done. by rewrite bool_decide_eq_true_2. }
  split; [done|]. split; [done|]. by eapply issued_ecdh.
Qed.

(** The signing key of a seed. *)
Lemma ed25519_pair n seed kid :
  rand_Read n 32 = Ok seed →
  let key := ed25519_NewKeyFromSeed seed in
  let s := SEd25519 (mkEd25519Signer key kid) in
  let v := VEd25519 (mkEd25519Verifier Ed25519 (drop 32 key) kid) in
  ed25519_GenerateKey n = Ok (drop 32 key, key) ∧ NewEd25519Signer key [kid] = Ok s ∧
  verifierForAlg (FromEd25519PublicKey (drop 32 key) [kid]) Ed25519 = Ok v ∧ counterpart s v ∧
  ∀ msg sig, Sign_with s msg = Ok sig → len sig = 64.
Proof.
  intros Hs key s v. pose proof (seed_key_len seed) as Hl. fold key in Hl.
  split; [unfold ed25519_GenerateKey; by rewrite Hs|]. split; [unfold NewEd25519Signer; by rewrite Hl|]. split.
  { apply okp_verifier; [|done]. unfold len, ed25519_PrivateKeySize in *. rewrite length_drop. lia. }
  split; [by exists seed|]. intros msg sig [= <-]. apply ed25519_Sign_len.
Qed.

(** jwe_roundtrip signs, encrypts, decrypts and verifies, and prints the claims that
    went in, when it takes less than five minutes. *)
Lemma jwe_roundtrip_prints now d x y seed cek iv d' p' :
  clock_ok now 1 (5 * minute) → ecdsa_GenerateKey P256 = Ok (d, (x, y)) → rand_Read 2 32 = Ok seed →
  GenerateKey P256 = Ok (d', p') → rand_Read 0 32 = Ok cek → rand_Read 1 NonceSize = Ok iv →
  ∃ token, jwe_roundtrip ecdsa_GenerateKey now =
    (#"nested compact JWE: " ++ token ++ [x0a] ++ #"decrypted: account=acct-9 tier=gold" ++ [x0a], Ok ()).
Proof.
  intros Hc Hgen Hseed Hg Hcek Hiv. destruct p' as [x' y'].
  pose proof (generated _ _ _ Hgen) as Hd. destruct (recipient_pair d x y #"enc-1" Hd) as (Henc & Hdec & Hissued).
  destruct (ed25519_pair 2 seed #"sig-1" Hseed) as (Hkey & Hsign & Hver & Hcp & Hsl).
  set (key := ed25519_NewKeyFromSeed seed) in *. set (s := SEd25519 (mkEd25519Signer key #"sig-1")) in *.
  set (e := mkEncrypter _ _ _ _) in *. set (u := mkDecrypter _ _) in *.
  destruct (clock_expiry _ _ _ Hc ltac:(done)) as (He & Ht & Hle).
  pose proof (account_faithful now Hc) as Hf. destruct (parse_marshal _ Hf) as [_ Hp].
  destruct (sign_short (marshal_flat (issued_account now)) _ s 300 eq_refl Hp) as (sig & Htok & Hsize & msg & Hsig); [|by vm_compute| |].
  { intros m. eexists. split; [done|]. by rewrite ed25519_Sign_len. }
  { rewrite account_json. len_text. lia. }
  set (inner := compact _ _ sig) in *.
  destruct (account_encrypts d x y d' x' y' cek iv inner 2000 Hd Hg Hcek Hiv) as (token & Htoken & Htl); [lia|]. fold e in Htoken.
  assert (Hnested : EncryptNestedJWT inner (Some (EBuiltin e)) [Some (WithJWEType #"account+jwt")] = Ok token).
  { unfold EncryptNestedJWT. replace (validateNestedJWS inner) with (None : err_opt); [exact Htoken|]. symmetry.
    eapply signed_nests; [done|by repeat constructor|exact Hp| |change maxTokenBytes with 1048576; fold inner; lia].
    intros ->. specialize (Hsl msg [] Hsig). done. }
  assert (Hread : snd (DecryptNestedJWT unmarshal_flat (now 1%nat) token (Some zero_account) (Some (DBuiltin u))
    (Some (StaticKeyProvider (FromEd25519PublicKey (drop 32 key) [ #"sig-1"]))) account_policies) =
    (Some (returned (issued_account now)), None)).
  { refine (nested_struct_read_back _ _ zero_account s _ [] e u inner token [Some (WithJWEType #"account+jwt")] _
      account_policies Hf Htok Hnested _ Hcp _ _ _ _ Hissued _ _ _ _ _).
    - change maxTokenBytes with 1048576. lia.
    - by repeat constructor.
    - by left.
    - apply static_resolves; [done|done|apply one_algorithm|exact Hver].
    - by apply some_claims_valid; [..|intros ? ?%elem_of_nil]; try done; right.
    - by right; right.
    - by repeat constructor.
    - by left.
    - by left.
    - by right. }
  exists token. unfold jwe_roundtrip. rewrite Hgen. change (private_key P256 <$> Ok (d, (x, y))) with (Ok (E := list cause) (private_key P256 (d, (x, y)))).
  rewrite must_ok, Hkey, must_ok, Hsign, must_ok, Htok, must_ok, Henc, must_ok, Hnested, must_ok.
  unfold Println. rewrite print_then, Hdec, must_ok. cbv zeta. rewrite Hread, must_nil_ok, <- !app_assoc. reflexivity.
Qed.

Lemma family_named n : tf_ID (NewTokenFamily n) ≠ [].
Proof.
  unfold NewTokenFamily. destruct (rand_Read n familyIDBytes) as [b|e] eqn:Hb; [|done].
  cbn [tf_ID]. intros He. pose proof (rand_Read_len n familyIDBytes b ltac:(done) Hb) as Hl.
  pose proof (len_raw_url b) as Hn. rewrite He, Hl in Hn. done.
Qed.

(** Two rotations, the replay of a superseded token that is detected, and the
    live token that is dead with its family. *)
Lemma refresh_rotation_prints range now t0 t1 t2 :
  (∀ g m, range g m ≡ₚ map_to_list m) →
  NewOpaqueToken 1 = Ok t0 → NewOpaqueToken 2 = Ok t1 → NewOpaqueToken 3 = Ok t2 → ot_Hash t2 ≠ ot_Hash t1 →
  refresh_rotation range now =
    (#"t0 -> t1 (reuse=false)" ++ [x0a] ++ #"t1 -> t2 (reuse=false)" ++ [x0a] ++
     #"replay t1 -> reuse=true (family now revoked)" ++ [x0a] ++
     #"present t2 -> reuse=true (family is dead)" ++ [x0a], Ok ()).
Proof.
  intros Hrange Ht0 Ht1 Ht2 Hne. unfold refresh_rotation.
  pose proof (family_named 0) as Hid. set (fam := NewTokenFamily 0) in *. clearbody fam.
  unfold Rotation.issue at 1. cbn [reads]. rewrite Ht0. cbn [live_hashes revoke].
  set (r0 := mkRotator _ _ 2). assert (Hr0 : rot_inv r0) by (destruct (new_rotator_inv 0); by split).
  assert (Hd0 : ¬ dead (tf_ID fam) r0).
  { unfold dead, abs. cbn. rewrite fmap_empty, lookup_empty. by intros []. }
  assert (Hl0 : live_hashes r0 !! tf_ID fam = Some (HashOpaqueToken (ot_Raw t0))).
  { cbn. by rewrite lookup_insert_eq, (NewOpaqueToken_verifies _ _ Ht0). }
  assert (Hn0 : reads r0 = 2%nat) by done. rewrite must_ok. clearbody r0.
  assert (Ht1' : NewOpaqueToken (reads r0) = Ok t1) by (by rewrite Hn0).
  pose proof (rotate_live range Hrange fam (ot_Raw t0) (now 0%nat) (now 1%nat) r0 t1 Hr0 Hid Hd0 Hl0 Ht1') as Hs.
  destruct (rotate range fam (ot_Raw t0) _ _ r0) as [r1 q1]. destruct Hs as (-> & Hr1 & Hd1 & Hl1 & Hn1).
  cbn [result_or_zero Next_ ReuseDetected]. unfold Println; rewrite print_then.
  rewrite (NewOpaqueToken_verifies _ _ Ht1) in Hl1. rewrite Hn0 in Hn1.
  assert (Ht2' : NewOpaqueToken (reads r1) = Ok t2) by (by rewrite Hn1).
  pose proof (rotate_live range Hrange fam (ot_Raw t1) (now 1%nat) (now 2%nat) r1 t2 Hr1 Hid Hd1 Hl1 Ht2') as Hs.
  destruct (rotate range fam (ot_Raw t1) _ _ r1) as [r2 q2]. destruct Hs as (-> & Hr2 & Hd2 & Hl2 & _).
  cbn [result_or_zero Next_ ReuseDetected]. unfold Println; rewrite print_then.
  rewrite (NewOpaqueToken_verifies _ _ Ht1) in Hne.
  pose proof (rotate_other range Hrange fam (ot_Raw t1) (now 2%nat) (now 3%nat) r2 _ Hr2 Hid Hl2 Hne) as Hs.
  destruct (rotate range fam (ot_Raw t1) _ _ r2) as [r3 q3]. destruct Hs as (-> & Hr3 & Hd3).
  cbn [result_or_zero ReuseDetected reuse]. unfold Println; rewrite print_then.
  pose proof (dead_rotates range Hrange fam (ot_Raw t2) (now 4%nat) (now 5%nat) r3 Hr3 Hid Hd3) as Hs.
  destruct (rotate range fam (ot_Raw t2) _ _ r3) as [r4 q4]. cbn [snd] in Hs. rewrite Hs. reflexivity.
Qed.

(** C39: every example program does what it shows.  Whatever the clock within the
    life of the token it issues, and whatever the entropy as long as there is some,
    basic_hmac and verify_idtoken read back the claims that they signed (the latter
    through the key set that the provider publishes, with the claims valid for the
    session), http_middleware serves the bearer of its token and challenges the
    anonymous request, jwe_roundtrip opens what it signed and encrypted; and
    refresh_rotation, whatever the clock and the order in which the run time ranges
    over a map, as long as its last two tokens differ in their hash, rotates twice,
    detects the replay and finds the family dead.  None of them ends in
    [log.Fatal]. *)
Theorem examples_print :
  (∀ now secret, clock_ok now 2 (15 * minute) → rand_Read 0 32 = Ok secret →
     ∃ token, basic_hmac now =
       (#"token: " ++ token ++ [x0a] ++ #"verified: sub=user-42 role=admin" ++ [x0a], Ok ())) ∧
  (∀ Error now, clock_ok now 1 minute →
     http_middleware Error now =
       (#'"with token:   200 hello user-7 (scope 'read')" ++ [x0a] ++
        #"no token:     401  WWW-Authenticate: Bearer" ++ [x0a], Ok ())) ∧
  (∀ now d x y seed cek iv d' p',
     clock_ok now 1 (5 * minute) → ecdsa_GenerateKey P256 = Ok (d, (x, y)) → rand_Read 2 32 = Ok seed →
     GenerateKey P256 = Ok (d', p') → rand_Read 0 32 = Ok cek → rand_Read 1 NonceSize = Ok iv →
     ∃ token, jwe_roundtrip ecdsa_GenerateKey now =
       (#"nested compact JWE: " ++ token ++ [x0a] ++ #"decrypted: account=acct-9 tier=gold" ++ [x0a], Ok ())) ∧
  (∀ now d x y,
     clock_ok now 2 (60 * minute) → url_Scheme #"https://accounts.google.com" = Some #"https" →
     ecdsa_GenerateKey P256 = Ok (d, (x, y)) →
     verify_idtoken ecdsa_GenerateKey now =
       (#"verified ID token: sub=110169484474386276334 email=jsmith@example.com hd=example.com" ++ [x0a], Ok ())) ∧
  (∀ range now t0 t1 t2,
     (∀ g m, range g m ≡ₚ map_to_list m) →
     NewOpaqueToken 1 = Ok t0 → NewOpaqueToken 2 = Ok t1 → NewOpaqueToken 3 = Ok t2 → ot_Hash t2 ≠ ot_Hash t1 →
     refresh_rotation range now =
       (#"t0 -> t1 (reuse=false)" ++ [x0a] ++ #"t1 -> t2 (reuse=false)" ++ [x0a] ++
        #"replay t1 -> reuse=true (family now revoked)" ++ [x0a] ++
        #"present t2 -> reuse=true (family is dead)" ++ [x0a], Ok ())).
Proof.
  split; [exact basic_hmac_prints|]. split; [exact http_middleware_prints|].
  split; [exact jwe_roundtrip_prints|]. split; [exact verify_idtoken_prints|exact refresh_rotation_prints].
Qed.
End Runs.
