(* ===== verification/Witness.v ===== *)
(** * Witness: concrete parameters and concrete runs

    The cryptographic primitives, the Unicode tables, strconv.Quote, the hash
    registry and net/url are parameters of the model.  Here they are
    instantiated by small computable functions that satisfy the laws assumed of
    them, and each theorem with hypotheses is applied to a concrete input of the
    program: a token that is signed and parsed, a key set that is published, a
    revocation. *)

From S2P Require Import Prelude Errors GoLib B64 Utf8 GoStr Json Alg StrictJson Key Thumbprint RawJson KeySet Slices Sharing Dates Claims Options Jws Profiles IdTokens Login Heap Revoke HttpAuth AesKw JweAlg Jwe Nested Opaque Rotation JwtTest ExampleStructs Examples Cmw Standards Watch Outage CacheControl Fetch Fetcher.

(** ** Toy primitives *)

Definition toy_digest (h : Hash) (b : bytes) : bytes := be_bytes (Z.to_nat (Hash_Size h)) (be_val b).

Definition toy_size (c : Curve) : Z := (BitSize c + 7) / 8.

Definition toy_r (c : Curve) (d : Z) (digest : bytes) : Z := (be_val digest + d) mod 256 ^ toy_size c.

Definition known_curve (c : Curve) : bool := match c with OtherCurve _ => false | _ => true end.

Definition seed32 (seed : bytes) : bytes := be_bytes 32 (be_val seed).

(** The scalars of the toy curves. *)
Definition toy_scalar (c : Curve) (d : Z) : bool := known_curve c && (0 <=? d) && (d <? 255).

(** The public half of a scalar is the scalar with its successor, the two halves
    of an Ed25519 key are the same, and an RSA signature is the digest. *)
#[export] Instance toy_crypto : Crypto := {
  HMAC h key msg := toy_digest h (key ++ msg);
  HashSum := toy_digest;
  on_curve c x y := y =? x + 1;
  scalar_point c d := if toy_scalar c d then Some (d, d + 1) else None;
  ecdsa_Sign c d h digest := if known_curve c then Ok (toy_r c d digest, 1) else fail (ErrText "curve");
  ecdsa_Verify c p digest r s := (r =? toy_r c (fst p) digest) && (s =? 1);
  rsa_Validate k := true;
  rsa_SignPSS k h digest := Ok digest;
  rsa_VerifyPSS n e h digest sig := bool_decide (sig = digest);
  rsa_VerifyPKCS1v15 n e h digest sig := bool_decide (sig = digest);
  ed25519_NewKeyFromSeed seed := seed32 seed ++ seed32 seed;
  ed25519_Sign key msg := be_bytes 64 (be_val (drop 32 key ++ msg));
  ed25519_Verify pub msg sig := bool_decide (sig = be_bytes 64 (be_val (pub ++ msg))) }.

#[export] Instance toy_laws : CryptoLaws.
Proof.
  split.
  - intros c d h digest r s size p Hp -> Hs. cbn in *.
    destruct (known_curve c) eqn:Hc; [|done]. injection Hs as <- <-.
    destruct (toy_scalar c d); [|done]. injection Hp as <-.
    assert (Hpow : 2 ≤ 256 ^ toy_size c) by (destruct c; [by vm_compute..|done]).
    fold (toy_size c). split; [apply Z.mod_pos_bound; lia|]. split; [lia|].
    cbn. by rewrite !Z.eqb_refl.
  - intros k n h digest sig _ _ Hs. apply Ok_inj in Hs as <-. by apply bool_decide_eq_true.
  - intros k msg. change (len (be_bytes 64 (be_val (drop 32 k ++ msg))) = ed25519_SignatureSize).
    unfold len. by rewrite length_be_bytes.
  - intros seed msg k. by apply bool_decide_eq_true.
Qed.

(** A block reversed, a tag that is a checksum of everything, a shared secret
    that is the product of the scalars, and entropy that is not random. *)
#[export] Instance toy_aes : AES := { aes_Encrypt _ b := rev b; aes_Decrypt _ b := rev b }.

#[export] Instance toy_aes_laws : AESLaws.
Proof. by split; intros key b Hb; cbn; rewrite ?length_rev, ?rev_involutive. Qed.

Definition toy_tag (k iv p aad : bytes) : bytes := be_bytes 16 (be_val (k ++ iv ++ p ++ aad)).

#[export] Instance toy_jwe : JweCrypto := {
  gcm_Seal k iv p aad := p ++ toy_tag k iv p aad;
  gcm_Open k iv c aad :=
    let p := take (length c - 16) c in
    if bool_decide (drop (length c - 16) c = toy_tag k iv p aad) then Some p else None;
  ecdh_X c d p := be_bytes (Z.to_nat (coord_size c)) (d * fst p);
  rsa_DecryptOAEP k c := Ok c }.

#[export] Instance toy_entropy : Entropy := {
  rand_Read n size := Ok (replicate (Z.to_nat size) (zb (7 + Z.of_nat n)));
  GenerateKey c := if known_curve c then Ok (5, (5, 6)) else fail (ErrText "curve");
  rsa_EncryptOAEP pub m := Ok m }.

#[export] Instance toy_jwe_laws : JweLaws.
Proof.
  split.
  - intros k iv p aad. cbn [gcm_Open gcm_Seal toy_jwe].
    assert (Hl : (length (p ++ toy_tag k iv p aad) - 16)%nat = length p).
    { rewrite length_app. unfold toy_tag. rewrite length_be_bytes. lia. }
    rewrite Hl, take_app_length, drop_app_length. by rewrite bool_decide_eq_true_2.
  - intros k iv p aad. change (gcm_Seal k iv p aad) with (p ++ toy_tag k iv p aad).
    rewrite len_app. unfold len at 2, toy_tag. by rewrite length_be_bytes.
  - intros n size b Hs Hb. apply Ok_inj in Hb as <-. unfold len. rewrite length_replicate. lia.
  - intros c d p Hg. cbn in *. destruct c; [injection Hg as <- <-; reflexivity..|done].
  - intros c d x y Hc Hp. cbn in *. destruct (toy_scalar c d) eqn:Hd; [|done]. injection Hp as <- <-.
    unfold toy_scalar in Hd. bool_prop.
    assert (Hpow : 256 ≤ 256 ^ coord_size c) by (destruct c; [by vm_compute..|done]).
    split; [apply Z.eqb_refl|lia].
  - intros c d p d' p' Hp Hp'. cbn in *.
    destruct (toy_scalar c d); [|done]. destruct (toy_scalar c d'); [|done].
    injection Hp as <-. injection Hp' as <-. cbn. by rewrite Z.mul_comm.
  - intros k m c _ Hc. by apply Ok_inj in Hc as <-.
Qed.

#[export] Instance toy_unicode : Unicode := { MapToLower := λ s, s }.
#[export] Instance toy_strconv : Strconv := { QuoteWide := λ _, #'"'?'" }.
#[export] Instance toy_registry : HashRegistry := { linked := λ _, None }.
#[export] Instance toy_url : URL := { url_Scheme s := Some (take (default 0%nat (IndexByte s ":"%byte)) s) }.

(** https URLs without a port or a query, and text without escapes. *)
Definition toy_parse (s : bytes) : res url :=
  match strip_prefix #"https://" s with
  | Some t =>
      let i := default (length t) (IndexByte t "/"%byte) in
      if bool_decide (":"%byte ∈ take i t) then fail (ErrText "net/url")
      else Ok (mkURL #"https" [] None (take i t) (drop i t) false [] [])
  | None => fail (ErrText "net/url")
  end.

#[export] Instance toy_neturl : NetURL := {
  url_Parse := toy_parse;
  url_String u := #"https://" ++ Host u ++ Path u;
  url_Resolve u ref := toy_parse ref;
  ParseIPv6 _ := true }.

#[export] Instance toy_neturl_laws : NetURLLaws.
Proof.
  assert (Hinv : ∀ s u, toy_parse s = Ok u → ∃ t, let i := default (length t) (IndexByte t "/"%byte) in
    ":"%byte ∉ take i t ∧ u = mkURL #"https" [] None (take i t) (drop i t) false [] []).
  { intros s u. unfold toy_parse. destruct (strip_prefix _ s) as [t|]; [|done]. cbv zeta. intros Hu.
    exists t. cbv zeta. destruct (bool_decide _) eqn:Hd; [done|]. bool_prop. by apply Ok_inj in Hu as <-. }
  split.
  - intros s u Hu u' Hu'. destruct (Hinv s u Hu) as (t & Hc & ->). cbv zeta in *. cbn [Scheme User Host] in *.
    change (url_String _) with (#"https://" ++ take (default (length t) (IndexByte t "/"%byte)) t ++
      drop (default (length t) (IndexByte t "/"%byte)) t) in Hu'.
    rewrite take_drop in Hu'. change (toy_parse (#"https://" ++ t) = Ok u') in Hu'.
    assert (Hs : strip_prefix #"https://" (#"https://" ++ t) = Some t) by reflexivity.
    unfold toy_parse in Hu'. rewrite Hs in Hu'. cbv zeta in Hu'. rewrite bool_decide_eq_false_2 in Hu' by done.
    by apply Ok_inj in Hu' as <-.
  - intros s u Hu. destruct (Hinv s u Hu) as (t & Hc & ->). cbv zeta in Hc. eexists _, []. cbn [Host].
    rewrite app_nil_r. split; [done|]. split; [done|by left].
Qed.

#[export] Instance toy_unquoter : Unquoter := { UnquoteSlow _ := None }.

(** ** Keys *)

Definition secret : bytes := #"0123456789abcdef0123456789abcdef".

Definition oct_key : Key := FromHMACSecret secret [ #"kid-1"].

Definition ed_key : Key := FromEd25519PublicKey secret [ #"ed-1"].

Definition toy_signer : hmacSigner := mkHmacSigner HS256 secret #"kid-1" SHA256.

(** ** A token *)

Definition payload : bytes := #'"{'sub':'alice','exp':2000}".

Definition token : bytes :=
  match Sign (Ok payload) (Some (SHmac toy_signer)) [] with Ok t => t | Err _ => [] end.

Definition options : list (option ParseOption) := [Some (WithAllowedAlgorithms [HS256])].

Definition clock : Time := 1000 * second.

Definition registered : RegisteredClaims :=
  mkRegisteredClaims [] #"alice" None (Some (2000 * second)) None None [] None.

Definition request : list bytes := [ #"Bearer " ++ token].

(** Discharges a closed, decidable goal by running it. *)
Ltac run := vm_compute; first [reflexivity | congruence | by repeat constructor].

Lemma sign_then_verify_witness :
  ∃ sig, Sign_with (SHmac toy_signer) payload = Ok sig ∧ Verify_with (VHmac toy_signer) payload sig = None.
Proof.
  eexists. split; [reflexivity|]. apply (sign_then_verify (SHmac toy_signer) (VHmac toy_signer)); reflexivity.
Defined.

Lemma verifierForAlg_sound_witness :
  verifierForAlg oct_key HS256 = Ok (VHmac toy_signer) ∧ usable oct_key HS256.
Proof.
  split; [run|]. apply (verifierForAlg_sound oct_key HS256 (VHmac toy_signer)). run.
Defined.

Lemma verifierForAlg_errors_witness :
  verifierForAlg oct_key ES256 = fail ErrAlgorithmNotAllowed.
Proof.
  apply (verifierForAlg_errors oct_key ES256); [|run..].
  split; [by left|]. split; [by left|]. by left.
Defined.

Lemma key_json_roundtrip_witness :
  ∃ b, Key_MarshalJSON ed_key = Ok b ∧ Key_UnmarshalJSON b = Ok ed_key.
Proof. apply (key_json_roundtrip ed_key). split; run. Defined.

Lemma key_import_export_witness :
  Key_PublicKey (FromECDSAPublicKey (Some (mkECDSAPublicKey (Some P256) (Some 3) (Some 4))) []) =
    Ok (ECPub P256 3 4).
Proof. apply (key_import_export []); run. Defined.

Lemma thumbprint_canonical_witness :
  ∃ s, thumbprintInput ed_key = Ok s ∧ s = print (JObj (required_members ed_key)).
Proof.
  destruct (thumbprintInput ed_key) as [s|e] eqn:Hs; [|by vm_compute in Hs].
  exists s. split; [done|]. by apply (thumbprint_canonical ed_key ed_key s s).
Defined.

Lemma ThumbprintBytes_agrees_witness :
  ThumbprintBytes KeyTypeOKP secret [5] = Thumbprint ed_key [5].
Proof. apply (ThumbprintBytes_agrees secret [ #"ed-1"] [5]). run. Defined.

(** ** Key sets *)

Definition key_set_doc : bytes :=
  match KeySet_MarshalJSON (NewKeySet [ed_key]) with Ok b => b | Err _ => [] end.


Lemma permissive_extends_strict_witness :
  ∃ keys diags, NewKeySet [ed_key] = NewKeySet keys ∧
    ParseKeySetPermissive key_set_doc = Ok (NewKeySet (filter (λ k, understandsJWK k) keys), diags).
Proof. apply (permissive_extends_strict key_set_doc (NewKeySet [ed_key])). run. Defined.

Lemma keyset_json_roundtrip_witness :
  ∃ b, KeySet_MarshalJSON (NewKeySet [ed_key]) = Ok b ∧
    (len b ≤ MaxKeySetJSONBytes →
     ParseKeySet b = Ok (NewKeySet [ed_key]) ∧ Keys (NewKeySet [ed_key]) = [ed_key]).
Proof.
  apply (keyset_json_roundtrip [ed_key]).
  - apply list.Forall_singleton. split; [split; run|split; run|run|run|run|].
    intros b Hb. vm_compute in Hb. apply Ok_inj in Hb as <-. run.
  - intros i j k k' Hi Hj _ _. apply lookup_lt_Some in Hi, Hj. simpl in *. lia.
  - run.
Defined.

(** ** Claims *)

Lemma claims_roundtrip_witness :
  dec_claims (JObj (claims_members registered)) = Ok registered.
Proof.
  apply (claims_roundtrip registered). split; [|done].
  intros t Ht d ->. rewrite !elem_of_cons in Ht.
  destruct Ht as [[= ->]|[Ht|[Ht|Ht]]]; [|done..|by apply elem_of_nil in Ht].
  unfold date_in_range, minNumericDate, maxNumericDate, second. lia.
Defined.

(** ** Heaps *)

Lemma heap_correct_witness :
  ∃ h', Pop (λ z : Z, z) (Init (λ z, z) [5; 3; 9; 1]) = Some (1, h').
Proof.
  destruct (heap_correct (λ z : Z, z)) as (Hinit & _ & Hpop).
  destruct (Hpop (Init (λ z, z) [5; 3; 9; 1])) as (a & h' & Hp & _); [apply Hinit|done|].
  exists h'. rewrite Hp. vm_compute in Hp. congruence.
Defined.

(** ** Tokens *)

Definition config : parseConfig := apply_all applyParse options (default_config clock).

Definition provider : KeyProvider := StaticKeyProvider oct_key.

Lemma registered_valid header : claims_valid payload registered header config.
Proof.
  split; try (by left); try done.
  - intros t [= <-]. by vm_compute.
  - intros name Hn. by apply elem_of_nil in Hn.
Qed.

Lemma validateClaims_spec_witness :
  validateClaims payload registered (signed_header (SHmac toy_signer) []) config = None.
Proof.
  apply (validateClaims_spec payload registered _ config
           [(#"sub", JStr #"alice"); (#"exp", JNum #"2000")]); [run|apply registered_valid].
Defined.

Lemma token_signed : Sign (Ok payload) (Some (SHmac toy_signer)) [] = Ok token.
Proof. run. Qed.

Lemma token_resolves :
  resolves (Some provider) config (withoutNone (allowedAlgs config))
    (signed_header (SHmac toy_signer) []) (VHmac toy_signer).
Proof. apply (resolves_key _ _ _ _ _ provider oct_key); run. Qed.

Lemma sign_parse_roundtrip_witness :
  snd (Parse (decodeStrict dec_claims) clock token (Some zero_claims) (Some provider) options) = (Some registered, None).
Proof.
  assert (Hu : header_utf8 (signed_header (SHmac toy_signer) [])) by run.
  assert (Hl : len token ≤ maxTokenBytes) by run.
  assert (Ha : h_Algorithm (signed_header (SHmac toy_signer) []) ∈ allowedAlgs config) by (left).
  assert (Hd : decodeObject dec_claims payload = Ok registered) by run.
  exact (sign_parse_roundtrip (decodeStrict dec_claims) clock payload (SHmac toy_signer) (VHmac toy_signer) []
           token (Some provider) options zero_claims registered registered token_signed eq_refl Hu Hl Ha
           token_resolves Hd (registered_valid _) Hd).
Defined.

(** ** An ID token *)

Definition id_claims : IDTokenClaims :=
  mkIDTokenClaims
    (mkRegisteredClaims #"https://op.example" #"alice" (Some [ #"client"]) (Some (2000 * second)) None
       (Some (900 * second)) [] None)
    (mkStandardClaims #"Alice" [] [] [] [] [] [] [] [] #"a@example.com" (Some true) [] [] [] [] [] None
       (Some (mkAddress [] [] #"Paris" [] [] [])) None #"n-1")
    [] (half_hash SHA256 #"access") [] None [] [ #"pwd"].

Definition id_token : bytes :=
  match Sign (Ok (marshal_flat id_claims)) (Some (SHmac toy_signer)) [] with Ok t => t | Err _ => [] end.

Definition id_options : list (option ParseOption) :=
  [Some (WithAllowedAlgorithms [HS256]); Some (WithAudience #"client"); Some (WithIssuer #"https://op.example")].

Definition login_context : IDTokenValidationContext :=
  mkIDTokenValidationContext #"client" [] #"n-1" true #"access" [] HS256.

Lemma id_claims_faithful : registered_faithful (id_registered id_claims).
Proof.
  split; [split; [|done]| | |done].
  - intros t Ht d ->. rewrite !elem_of_cons in Ht.
    destruct Ht as [[= ->]|[Ht|[[= ->]|Ht]]]; [|done| |by apply elem_of_nil in Ht].
    + unfold date_in_range, minNumericDate, maxNumericDate, second. lia.
    + unfold date_in_range, minNumericDate, maxNumericDate, second. lia.
  - repeat constructor.
  - repeat constructor.
Qed.

Definition google_token : GoogleIDToken :=
  mkIDToken (id_registered id_claims) (id_standard id_claims) (mkGoogleClaims #"example.com" [] []).

Lemma tokens_roundtrip_witness :
  decodeObjectInto unmarshal_flat (marshal_flat google_token) = Ok google_token.
Proof.
  destruct tokens_roundtrip as [Hg _]. refine (proj2 (Hg google_token _ _ _) _).
  - apply id_claims_faithful.
  - split; [repeat constructor|intros a [= <-]; repeat constructor|done].
  - repeat constructor.
  - split; [done|]. repeat constructor; intros t [= <-]; eexists; (split; [reflexivity|by vm_compute]).
Defined.

Lemma id_token_parsed :
  snd (Parse unmarshal_flat clock id_token (Some id_claims) (Some provider) id_options) = (Some id_claims, None).
Proof. run. Qed.

Lemma id_token_login_sound_witness : context_ok id_claims login_context.
Proof.
  apply (id_token_login_sound clock id_token id_claims id_claims (Some provider) id_options login_context
           id_token_parsed). run.
Defined.

Lemma id_faithful : faithful id_claims.
Proof.
  split; [apply id_claims_faithful|]. split; [|split; [repeat constructor|split; [done|repeat constructor]]].
  split; [repeat constructor|intros a [= <-]; repeat constructor|done].
Qed.

Lemma id_valid header :
  claims_valid (marshal_flat id_claims) (IdTokens.registered (IdTokens.returned id_claims)) header
    (apply_all applyParse id_options (default_config clock)).
Proof.
  assert (Hreg : IdTokens.registered (IdTokens.returned id_claims) = id_registered id_claims) by (vm_compute; reflexivity).
  rewrite Hreg. clear Hreg. split; try (by left); try done; try (by right).
  - intros t [= <-]. by vm_compute.
  - intros _. exists [ #"client"]. split; [done|by left].
  - intros name Hn. by apply elem_of_nil in Hn.
Qed.

Lemma id_token_signed : Sign (Ok (marshal_flat id_claims)) (Some (SHmac toy_signer)) [] = Ok id_token.
Proof. run. Qed.

Lemma issued_struct_read_back_witness :
  snd (Parse unmarshal_flat clock id_token (Some id_claims) (Some provider) id_options) =
    (Some (IdTokens.returned id_claims), None) ∧ IdTokens.returned id_claims = id_claims.
Proof.
  split; [|vm_compute; reflexivity].
  refine (issued_struct_read_back (A := IDTokenClaims) clock id_claims id_claims (SHmac toy_signer)
            (VHmac toy_signer) [] id_token (Some provider) id_options id_faithful id_token_signed eq_refl _ _ _ _
            (id_valid _)); [run|run|by left|].
  apply (resolves_key _ _ _ _ _ provider oct_key); run.
Defined.

(** The same header with another algorithm name. *)
Definition none_header : Header := simple_header #"nOnE" #"JWT" [] #"kid-1".

Lemma none_rejected_witness :
  ∃ e, parseVerified (compact (print (JObj (header_members none_header))) payload []) (Some provider)
         config = ([], Err e).
Proof. apply (none_rejected _ payload [] none_header (Some provider) config); run. Defined.

Lemma claims_from_context_witness :
  ClaimsFromContext (decodeStrict dec_claims) None (Some zero_claims) = (Some zero_claims, Some [ErrNoClaimsInContext]).
Proof.
  assert (Hn : snd (Middleware (Some provider) options clock request) = Next payload) by run.
  destruct (claims_from_context (decodeStrict dec_claims) (Some provider) options clock request payload zero_claims Hn)
    as [Hc _]. exact Hc.
Defined.

Lemma challenge_injection_safe_witness :
  ∃ v, www_authenticate (WriteInsufficientScope #'"a'b\c" [ #"read"; #'"x'y"; #"write"]) = Some v ∧
    v = #'"Bearer realm='abc', error='insufficient_scope', scope='read write'" ∧
    read_challenge v = Some [(#"realm", #"abc"); (#"error", #"insufficient_scope"); (#"scope", #"read write")].
Proof.
  assert (Hq : ∀ s, go_literal (QuoteWide s)) by (intros s; by exists #"?").
  destruct (www_authenticate (WriteInsufficientScope #'"a'b\c" [ #"read"; #'"x'y"; #"write"])) as [v|] eqn:Hv;
    [|by vm_compute in Hv].
  exists v. split; [reflexivity|]. split; [vm_compute in Hv; vm_compute; congruence|].
  pose proof (proj1 (proj1 (proj2 (challenge_injection_safe Hq #'"a'b\c" None [ #"read"; #'"x'y"; #"write"])) v Hv)) as Hr.
  rewrite Hr. vm_compute. reflexivity.
Defined.

(** ** Sharing *)

(** An HMAC secret in the program's array 0. *)
Definition shared_key : KeyRef :=
  mkKeyRef #"oct" #"k1" [] None [] None None [] None None (Some (mkView 0 0 4 4)).

Definition room (n : nat) : nat := n.

(** The program overwrites the secret after it has been added, and then the copy a
    lookup gave it (array 2). *)
Definition tampering : list act :=
  [ MakeOctets #"good"; CallNewKeySet [shared_key]; WriteOctet 0 0 "b"%byte; CallLookup 0 #"k1";
    WriteOctet 2 0 "f"%byte; CallLookup 0 #"k1" ].

Lemma keys_copied_witness :
  let '(w, (calls, answers)) := run_program room room room empty_world tampering in
  vrun [] calls = (holdings w, answers) ∧
  answers !! 5%nat = Some [mkKey #"oct" #"k1" [] [] [] [] [] [] [] [] #"good"] ∧
  arrays (octets (w_memory w)) !! 0%nat = Some #"bood" ∧
  take 4 <$> arrays (octets (w_memory w)) !! 2%nat = Some #"food".
Proof.
  pose proof (keys_copied room room room tampering) as Hc.
  destruct (run_program room room room empty_world tampering) as [w [calls answers]] eqn:Hr.
  split; [exact (proj1 Hc)|]. clear Hc. revert Hr. vm_compute. intros Hr. injection Hr as <- <- <-. done.
Defined.

(** ** Revocation *)

Definition range (now : Z) (m : gmap bytes revocationEntry) : list (bytes * revocationEntry) :=
  map_to_list m.

Lemma range_perm (g : Z) (m : gmap bytes revocationEntry) : range g m ≡ₚ map_to_list m.
Proof. done. Qed.

Definition history : list rev_op := [OpRevoke #"a" [] 500 100; OpIsRevoked #"a" 200; OpIsRevoked #"a" 600].

Lemma store_refines_witness :
  snd (run_ops (rev_step range) (newMemoryRevocationStore 8) history) =
  snd (run_ops (spec_step 8) ∅ history).
Proof. apply (store_refines range range_perm 8 history). Defined.

Lemma store_bounded_witness :
  let s := fst (run_ops (rev_step range) (newMemoryRevocationStore 8) history) in
  (Z.of_nat (size (items s)) ≤ 8 ∧ len (expirations s) ≤ 2 * 8 + 64) ∧
  len (expirations (fst (Revoke range #"b" [] 900 700 s))) ≤
    2 * Z.of_nat (size (items (fst (Revoke range #"b" [] 900 700 s)))) + 64.
Proof.
  cbn zeta. split.
  - exact (proj1 (proj2 (store_bounded range range_perm 8 history #"b" [] 900 700)) eq_refl).
  - apply (store_bounded range range_perm 8 history #"b" [] 900 700); vm_compute; reflexivity.
Defined.

Lemma revocation_holds_witness :
  snd (IsRevoked #"a" 200 (fst (Revoke range #"a" [] 500 100
         (fst (run_ops (rev_step range) (newMemoryRevocationStore 8) []))))) = Ok true.
Proof. apply (revocation_holds range range_perm 8 [] #"a" [] 500 100 [] 200); run. Defined.

(** ** Encryption *)

Lemma key_wrap_inverse_witness :
  is_ok (aesKWWrap secret #"sixteen octets!!") = true.
Proof. apply (key_wrap_inverse secret #"sixteen octets!!" []); run. Defined.

Lemma kdf_input_unambiguous_witness :
  #"alice" = #"alice" ∧ kdf_input #"z" A256GCM #"alice" #"bob" 256 = kdf_input #"z" A256GCM #"alice" #"bob" 256.
Proof.
  split; [|done].
  apply (kdf_input_unambiguous #"z" #"z" A256GCM A256GCM #"alice" #"alice" #"bob" #"bob" 256 256);
    [by repeat constructor|done|done|done|done].
Defined.

Definition ec_private : ECDSAPrivateKey :=
  mkECDSAPrivateKey (mkECDSAPublicKey (Some P256) (Some 9) (Some 10)) (Some 9).

Definition ec_encrypter : encrypter :=
  mkEncrypter ECDHESA256KW A256GCM #"ec-1" (ecdhWrapper P256 9 10 ECDHESA256KW).

Definition ec_decrypter : decrypter := mkDecrypter #"ec-1" (ecdhUnwrapper P256 9).

Definition jwe_token : bytes :=
  match encrypt ec_encrypter payload (mkEncryptConfig [] []) with Ok t => t | Err _ => [] end.

Lemma ec_issued : issued ec_encrypter ec_decrypter.
Proof. apply (issued_ecdh _ _ ec_private ECDHESA256KW A256GCM [ #"ec-1"] [ #"ec-1"]); run. Qed.

Lemma encrypt_decrypt_roundtrip_witness : Decrypt ec_decrypter jwe_token = Ok payload.
Proof.
  assert (He : encrypt ec_encrypter payload (mkEncryptConfig [] []) = Ok jwe_token) by run.
  assert (Hu : utf8_strings [e_kid ec_encrypter; []; []]) by run.
  assert (Hl : len jwe_token ≤ maxTokenBytes) by run.
  exact (encrypt_decrypt_roundtrip ec_encrypter ec_decrypter payload (mkEncryptConfig [] []) jwe_token
           ec_issued (or_intror (or_intror eq_refl)) Hu He Hl).
Defined.

(** *** Nested *)

Definition nested_token : bytes :=
  match EncryptNestedJWT id_token (Some (EBuiltin ec_encrypter)) [] with Ok t => t | Err _ => [] end.

Definition nested_policies : NestedJWTPolicies :=
  mkPolicies [Some (WithAllowedKeyAlgorithms [ECDHESA256KW]); Some (WithAllowedContentAlgorithms [A256GCM])] id_options.

Lemma nested_roundtrip_witness :
  snd (DecryptNestedJWT unmarshal_flat clock nested_token (Some id_claims) (Some (DBuiltin ec_decrypter)) (Some provider)
         nested_policies) = (Some (IdTokens.returned id_claims), None).
Proof.
  refine (nested_roundtrip (A := IDTokenClaims) clock id_claims id_claims (SHmac toy_signer) (VHmac toy_signer) []
            ec_encrypter ec_decrypter id_token nested_token [] (Some provider) nested_policies id_faithful id_token_signed
            _ _ eq_refl _ _ _ (id_valid _) ec_issued (or_intror (or_intror eq_refl)) _ _ _ (or_introl eq_refl));
    [run|run|run|by left| |run|by left|by left].
  apply (resolves_key _ _ _ _ _ provider oct_key); run.
Defined.

(** *** The examples *)

Definition toy_generate (c : Curve) : res (Z * (Z * Z)) :=
  if known_curve c then Ok (9, (9, 10)) else fail (ErrText "curve").

Definition demo_clock : nat → Time := λ _, 1700000000 * second.

Lemma demo_clock_ok k lifetime : 15259 < lifetime → clock_ok demo_clock k lifetime.
Proof.
  intros Hl. unfold clock_ok, demo_clock. split; [|lia].
  intros i _. unfold maxNumericDate, minute, second. lia.
Qed.

Lemma toy_generated c d p : toy_generate c = Ok (d, p) → scalar_point c d = Some p.
Proof. unfold toy_generate. destruct c; [by intros [= <- <-]..|done]. Qed.

Lemma toy_digest_len h m : len (toy_digest h m) = Hash_Size h.
Proof. unfold len, toy_digest. rewrite length_be_bytes. by destruct h. Qed.

Lemma toy_HMAC_len h k m : len (HMAC h k m) = Hash_Size h.
Proof. apply toy_digest_len. Qed.

Lemma toy_HashSum_len h m : len (HashSum h m) = Hash_Size h.
Proof. apply toy_digest_len. Qed.

Lemma toy_signs c d h digest p : scalar_point c d = Some p → is_ok (ecdsa_Sign c d h digest) = true.
Proof. cbn. unfold toy_scalar. by destruct (known_curve c). Qed.

Lemma toy_seed_len seed : len (ed25519_NewKeyFromSeed seed) = ed25519_PrivateKeySize.
Proof.
  change (len (seed32 seed ++ seed32 seed) = 64). rewrite len_app. unfold len, seed32. by rewrite length_be_bytes.
Qed.

Lemma examples_print_witness :
  (∃ token, basic_hmac demo_clock =
     (#"token: " ++ token ++ [x0a] ++ #"verified: sub=user-42 role=admin" ++ [x0a], Ok ())) ∧
  http_middleware (λ _, []) demo_clock =
    (#'"with token:   200 hello user-7 (scope 'read')" ++ [x0a] ++
     #"no token:     401  WWW-Authenticate: Bearer" ++ [x0a], Ok ()) ∧
  (∃ token, jwe_roundtrip toy_generate demo_clock =
     (#"nested compact JWE: " ++ token ++ [x0a] ++ #"decrypted: account=acct-9 tier=gold" ++ [x0a], Ok ())) ∧
  verify_idtoken toy_generate demo_clock =
    (#"verified ID token: sub=110169484474386276334 email=jsmith@example.com hd=example.com" ++ [x0a], Ok ()) ∧
  refresh_rotation range demo_clock =
    (#"t0 -> t1 (reuse=false)" ++ [x0a] ++ #"t1 -> t2 (reuse=false)" ++ [x0a] ++
     #"replay t1 -> reuse=true (family now revoked)" ++ [x0a] ++
     #"present t2 -> reuse=true (family is dead)" ++ [x0a], Ok ()).
Proof.
  destruct (examples_print toy_HMAC_len toy_HashSum_len toy_generate toy_generated toy_seed_len toy_signs)
    as (Hbasic & Hhttp & Hjwe & Hid & Hrot).
  split; [eapply Hbasic; [by apply demo_clock_ok|reflexivity]|].
  split; [apply Hhttp; by apply demo_clock_ok|].
  split; [eapply Hjwe; [by apply demo_clock_ok|reflexivity..]|].
  split; [eapply Hid; [by apply demo_clock_ok|reflexivity|reflexivity]|].
  eapply Hrot; [apply range_perm|reflexivity|reflexivity|reflexivity|vm_compute; discriminate].
Defined.

(** ** Remote keys *)

Definition jwks_uri : bytes := #"https://keys.example.com/jwks.json".

(** A server that redirects once and then serves the key set for a minute. *)
Definition toy_network : network := λ via req,
  match via with
  | [] => Ok (mkResponse 302 #"https://cdn.example.com/jwks.json" [] [] None)
  | _ => Ok (mkResponse 200 [] [ #"max-age=60, must-revalidate"] key_set_doc None)
  end.

Definition toy_options : list (option FetcherOption) := [Some (WithMaxResponseBytes 5000); None; Some (WithMaxKeyCount 0)].

Definition toy_fetcher : KeyFetcher := NewKeyFetcher jwks_uri toy_options.

Lemma NewKeyFetcher_ok_witness :
  fetcher_ok toy_fetcher ∧ kf_maxBytes toy_fetcher = 5000 ∧ kf_maxKeys toy_fetcher = 100.
Proof.
  destruct (NewKeyFetcher_ok jwks_uri toy_options) as (Hok & _ & _); [by repeat constructor|].
  split; [exact Hok|]. by split.
Defined.

Lemma toy_fetcher_ok : fetcher_ok toy_fetcher.
Proof. split; by vm_compute. Qed.

Definition toy_fetch : fetched (KeySet * cacheControl) :=
  fetchJWKS 10 toy_network (safeHTTPClient None [Some defaultURLPolicy]) jwks_uri 5000 100 (Some defaultURLPolicy).

Definition toy_cache : cacheControl := mkCacheControl (60 * second) true false false.

Lemma toy_fetch_result : toy_fetch = (toy_fetch.1, Ok (NewKeySet [ed_key], toy_cache)).
Proof. run. Qed.

Lemma fetch_requests_admitted_witness :
  (Host <$> toy_fetch.1) = [ #"keys.example.com"; #"cdn.example.com"] ∧
  Forall (admitted defaultURLPolicy) toy_fetch.1.
Proof.
  split; [run|].
  exact (proj1 (fetch_requests_admitted 10 toy_network None jwks_uri [] 5000 100 defaultURLPolicy default_reads_name)).
Defined.

Lemma fetchJWKS_spec_witness :
  ∃ body header, ParseKeySet body = Ok (NewKeySet [ed_key]) ∧ toy_cache = cache_of (directives header).
Proof.
  assert (Hb : 0 ≤ 5000 < two63 - 1) by (unfold two63; lia).
  pose proof (proj1 (fetchJWKS_spec 10 toy_network (safeHTTPClient None [Some defaultURLPolicy]) jwks_uri 5000 100
    (Some defaultURLPolicy) toy_fetch.1 Hb)) as Hspec.
  destruct (proj1 (Hspec _ _) toy_fetch_result) as (body & header & _ & _ & Hp & Hc). by exists body, header.
Defined.

(** Two calls that share a flight, which succeeds; a cached answer; a forced fetch
    that is never answered and is cut off after its 30 seconds; an answer from
    the retained document. *)
Definition toy_run : list action :=
  [ActLookup #"ed-1" None 100; ActLookup #"none" (Some 5) 101; ActComplete 0 200 10 toy_network; ActClose 0;
   ActWake 0; ActWake 1;
   ActLookup #"ed-1" None (30 * second); ActRefresh (Some 1) (40 * second); ActLookup #"none" None (41 * second);
   ActTick (30 * second); ActDeadline 1 (42 * second);
   ActClose 1; ActWake 3; ActWake 4; ActFallback 4 (43 * second)].

Definition toy_state : state := default initial (run_actions toy_fetcher toy_run initial).

Lemma run_reachable f acts : ∀ st st', reachable f st → run_actions f acts st = Some st' → reachable f st'.
Proof.
  induction acts as [|a acts IH]; intros st st' Hst; cbn [run_actions]; [by intros [= <-]|].
  destruct (step f a st) as [st1|] eqn:Hs; [|done]. intros Hr. eapply IH; [|done]. by eapply reach_step.
Qed.

Lemma toy_reachable : reachable toy_fetcher toy_state.
Proof.
  destruct (run_actions toy_fetcher toy_run initial) as [st|] eqn:Hr.
  - unfold toy_state. rewrite Hr. eapply run_reachable; [apply reach_initial|exact Hr].
  - exfalso. revert Hr. vm_compute. congruence.
Qed.

Definition toy_calls : list call_state :=
  [LookupReturned #"ed-1" (Ok (Some ed_key)) None (Some 0%nat);
   LookupReturned #"none" (Ok None) None (Some 0%nat);
   LookupReturned #"ed-1" (Ok (Some ed_key)) (Some (30 * second)) None;
   RefreshReturned (Some [ErrKeyFetch; DeadlineExceeded]);
   LookupReturned #"none" (Err [ErrKeyFetch; DeadlineExceeded]) (Some (43 * second)) None].

Lemma toy_run_calls : calls_ toy_state = toy_calls ∧ f_inflight toy_state = None ∧ work toy_state = 0%nat.
Proof. split; [|split]; vm_compute; reflexivity. Qed.

Lemma fetcher_single_flight_witness :
  calls_ toy_state = toy_calls ∧ 0 ≤ f_freshFor toy_state ≤ Z.max (kf_minRefresh toy_fetcher) (kf_maxCache toy_fetcher).
Proof.
  split; [apply toy_run_calls|].
  destruct (fetcher_single_flight toy_fetcher toy_fetcher_ok toy_state toy_reachable) as (_ & _ & _ & _ & Hf). exact Hf.
Defined.

(** A second attempt a minute after the first, which failed. *)
Definition retry_run : list action :=
  [ActLookup #"ed-1" None 100; ActTick (30 * second); ActDeadline 0 200;
   ActLookup #"ed-1" None (30 * second); ActLookup #"ed-1" None (61 * second)].

Definition retry_state : state := default initial (run_actions toy_fetcher retry_run initial).

Lemma retry_reachable : reachable toy_fetcher retry_state.
Proof.
  destruct (run_actions toy_fetcher retry_run initial) as [st|] eqn:Hr.
  - unfold retry_state. rewrite Hr. eapply run_reachable; [apply reach_initial|exact Hr].
  - exfalso. revert Hr. vm_compute. congruence.
Qed.

Lemma fetcher_rate_limited_witness :
  ∃ fl fl', flights retry_state !! 0%nat = Some fl ∧ flights retry_state !! 1%nat = Some fl' ∧
    (IsZero (fl_started fl) = true ∨ kf_minRefresh toy_fetcher ≤ Sub (fl_started fl') (fl_started fl)).
Proof.
  eexists _, _. split; [vm_compute; reflexivity|]. split; [vm_compute; reflexivity|].
  apply (fetcher_rate_limited toy_fetcher toy_fetcher_ok retry_state 0); [apply retry_reachable|vm_compute; reflexivity..].
Defined.

Lemma fetcher_provenance_witness :
  ∃ n fl s, flights toy_state !! n = Some fl ∧ fl_set fl = Some s ∧ lookup s #"ed-1" = Some ed_key.
Proof.
  assert (Hin : LookupReturned #"ed-1" (Ok (Some ed_key)) (Some (30 * second)) None ∈ calls_ toy_state).
  { rewrite (proj1 toy_run_calls). unfold toy_calls. right. right. by left. }
  destruct (fetcher_provenance toy_fetcher toy_fetcher_ok toy_state _ _ _ _ toy_reachable Hin)
    as (n & fl & s & _ & _ & _ & Hn & Hs & Hk & _).
  exists n, fl, s. split; [exact Hn|]. split; [exact Hs|exact Hk].
Defined.

Lemma fetcher_answers_witness :
  ∃ acts st', run_actions toy_fetcher (ActTick (30 * second) :: acts) retry_state = Some st' ∧
    forallb returned (calls_ st') = true.
Proof.
  destruct (proj1 (proj2 (fetcher_answers toy_fetcher toy_fetcher_ok retry_state retry_reachable)))
    as (acts & st' & _ & Hr & Ha & _).
  exists acts, st'. split; [exact Hr|exact Ha].
Defined.

(** ** Conceptual message wrappers *)

#[export] Instance toy_mime : Mime := { ParseMediaType _ := true }.

(** A record and a collection of it, as the encoder writes them. *)
Definition cmw_doc : bytes :=
  #'"{'__cmwc_t':'tag:example.com,2026:t','a':['application/x','AQI',5],'b':{'c':['text/x','AA']}}".

Definition cmw_value : CMW := match ParseCMW cmw_doc with Ok c => c | Err _ => mkCMW None None end.

Lemma cmw_parsed : ParseCMW cmw_doc = Ok cmw_value.
Proof. vm_compute. reflexivity. Qed.

Lemma ParseCMW_sound_witness : Validate cmw_value = None ∧ MarshalJSON cmw_value = Ok cmw_doc.
Proof.
  pose proof (ParseCMW_sound cmw_doc cmw_value cmw_parsed) as (Hv & _ & b & Hb & _).
  split; [exact Hv|]. vm_compute. reflexivity.
Defined.

Lemma cmw_value_canonical : canonical cmw_value.
Proof. exact (proj1 (ParseCMW_inv cmw_doc cmw_value cmw_parsed)). Qed.

Lemma cmw_roundtrip_witness : ∃ b, MarshalJSON cmw_value = Ok b ∧ ParseCMW b = Ok cmw_value.
Proof. apply (cmw_roundtrip cmw_value cmw_value_canonical). vm_compute. reflexivity. Defined.

Definition cmw_token : bytes :=
  match SignCMW cmw_value (Some (SHmac toy_signer)) [] with Ok t => t | Err _ => [] end.

Lemma cmw_token_signed : SignCMW cmw_value (Some (SHmac toy_signer)) [] = Ok cmw_token.
Proof. vm_compute. reflexivity. Qed.

Lemma cmw_resolves :
  resolves (Some provider) (set_raw config) (withoutNone (allowedAlgs (set_raw config)))
    (cmw_header (SHmac toy_signer) []) (VHmac toy_signer).
Proof. apply (resolves_key _ _ _ _ _ provider oct_key); run. Qed.

Lemma signed_cmw_roundtrip_witness :
  result_of (ParseSignedCMW clock cmw_token (Some provider) options) = Ok cmw_value.
Proof.
  assert (Hu : header_utf8 (cmw_header (SHmac toy_signer) [])) by run.
  assert (Hl : len cmw_token ≤ maxTokenBytes) by run.
  assert (Ha : h_Algorithm (cmw_header (SHmac toy_signer) []) ∈ allowedAlgs (set_raw config)) by (left).
  exact (signed_cmw_roundtrip cmw_value (SHmac toy_signer) (VHmac toy_signer) [] cmw_token clock (Some provider) options
           cmw_token_signed cmw_value_canonical eq_refl Hu Hl Ha cmw_resolves).
Defined.

(** ** Opaque tokens *)

Definition opaque : OpaqueToken :=
  match NewOpaqueToken 0 with Ok t => t | Err _ => mkOpaqueToken [] [] end.

Lemma opaque_tokens_witness :
  len (ot_Raw opaque) = 43 ∧ VerifyOpaqueTokenHash (ot_Hash opaque) (ot_Raw opaque) = true.
Proof.
  destruct (opaque_tokens 0 (ot_Hash opaque) (ot_Raw opaque) []) as [H _].
  change (NewOpaqueToken 0) with (Ok opaque : res OpaqueToken) in H. cbv iota in H.
  destruct H as (Hl & _ & _ & Hv). split; [exact Hl|exact Hv].
Defined.

(** ** Rotation *)

(** The n-th read of random octets answers the octet n. *)
Definition counting_entropy : Entropy := {|
  rand_Read n size := Ok (replicate (Z.to_nat size) (zb (Z.of_nat n)));
  GenerateKey := GenerateKey;
  rsa_EncryptOAEP := rsa_EncryptOAEP |}.

Definition nth_token (n : nat) : OpaqueToken :=
  match NewOpaqueToken (H0 := counting_entropy) n with Ok t => t | Err _ => mkOpaqueToken [] [] end.

Definition family : TokenFamily := mkTokenFamily #"family".

(** The tokens of the next reads differ from the first. *)
Lemma counting_fresh :
  fresh_between (H := toy_crypto) (H0 := counting_entropy) 1 3 (HashOpaqueToken (ot_Raw (nth_token 0))).
Proof.
  intros m tok Hm Ht.
  do 3 (destruct m as [|m]; [first [lia|vm_compute in Ht; injection Ht as <-; vm_compute; discriminate]|]). lia.
Qed.

(** A token is issued and rotated, and its successor rotated; then the first one
    comes back. *)
Lemma rotation_safe_witness :
  let r := after_calls (H0 := counting_entropy) range new_rotator [Issue family] in
  let r' := fst (rotate (H0 := counting_entropy) range family (ot_Raw (nth_token 0)) 100 100 r) in
  let r'' := after_calls (H0 := counting_entropy) range r' [Rotate family (ot_Raw (nth_token 1)) 110 110] in
  snd (rotate (H0 := counting_entropy) range family (ot_Raw (nth_token 0)) 200 200 r'') = Ok reuse.
Proof.
  destruct (rotation_safe (H0 := counting_entropy) range range_perm [Issue family] family (ot_Raw (nth_token 0)) 100 100)
    as (_ & _ & H).
  apply (H (nth_token 1) [Rotate family (ot_Raw (nth_token 1)) 110 110] 200 200); [vm_compute; reflexivity|].
  exact counting_fresh.
Defined.

(** ** The test helpers *)

Lemma fake_provider_conforms_witness :
  Fake_Lookup (NewFakeKeyProvider [oct_key; ed_key]) #"ed-1" = Ok (Some ed_key).
Proof.
  rewrite (fake_provider_conforms [oct_key; ed_key] #"ed-1"); [vm_compute; reflexivity|].
  split; apply (bool_decide_unpack _); vm_compute; exact I.
Defined.

Lemma fake_store_conforms_witness :
  snd (run_ops fake_step NewFakeRevocationStore history) = [Ok true; Ok true; Ok false].
Proof.
  rewrite (fake_store_conforms range range_perm 0 history); [vm_compute; reflexivity|].
  repeat split; (done || lia).
Defined.

Lemma seed_key_len seed : len (ed25519_NewKeyFromSeed seed) = ed25519_PrivateKeySize.
Proof.
  change (len (seed32 seed ++ seed32 seed) = 64). rewrite len_app. unfold len, seed32. by rewrite length_be_bytes.
Qed.

Definition pair : Signer * KeyProvider :=
  match NewSigningPair 0 #"ed-2" with Ok p => p | Err _ => (SHmac toy_signer, provider) end.

Lemma signing_pair_witness : Signer_KeyID (fst pair) = #"ed-2".
Proof.
  apply (signing_pair seed_key_len 0 #"ed-2" (fst pair) (snd pair) config [Ed25519]
           (simple_header Ed25519 #"JWT" [] #"ed-2")); reflexivity.
Defined.

Lemma conformance_suites_witness :
  RunRevocationStoreConformance fake_step NewFakeRevocationStore (λ _, clock) = true.
Proof.
  apply (conformance_suites range range_perm (λ _, clock)).
  split; [intros; lia|]. split; vm_compute; reflexivity.
Defined.

(** ** The standards watch *)

#[export] Instance toy_range : MapRange := {
  range_keys V m := (map_to_list m).*1;
  range_keys_perm V m := Permutation_refl _ }.

Definition toy_record (usage : bytes) : ianaRecord := mkIanaRecord #"alg" [] #"x" usage [] [] [].

Definition claims_registry : ianaRegistry := mkIanaRegistry #"claims" [toy_record #"JWS"; toy_record #"JWE"; toy_record #"JWE"].

#[export] Instance toy_decoders : Decoders := {
  UnmarshalIANA raw := Ok [claims_registry];
  json_error _ _ := #"invalid document" }.

Definition watch_config : Config :=
  mkConfig [7519] [ #"draft-ietf-oauth-rfc8725bis"] {[ #"jwt" := [ #"claims"] ]} {[ #"OIDC" := #"https://openid.net/" ]}
    {[ #"RFC7519" := #"jwt.go" ]} 0.

Definition rfc_doc : bytes :=
  #'"{'title':'JSON Web Token','status':'PROPOSED STANDARD','obsoleted_by':[],'updated_by':['RFC8725','RFC7797']}".

Definition errata_docs : bytes :=
  #'"[{'errata_id':'5906','doc-id':'RFC7519','errata_status_code':'Reported','errata_type_code':'Technical','section':'4.1.3'}]".

Definition draft_text : bytes := #'"{'rev':'10','state':'Active','rfc':null,'rfceditor_state':null}".

(** What the sources serve. *)
Definition served (url : bytes) : bytes :=
  if HasSuffix url #"errata.json" then errata_docs
  else if HasSuffix url #"rfc7519.json" then rfc_doc
  else if HasSuffix url #".json" then draft_text
  else url.

Definition online : internet := mkInternet (λ url _, Replied 200 #"200 OK" (served url) None) (λ _ _, None).
Definition offline : internet := mkInternet (λ _ _, NotSent #"no route to host") (λ _ _, None).

Definition check_options : runOptions := mkRunOptions false true false #"2026-01-01".
Definition accept_options : runOptions := mkRunOptions false true true #"2026-01-01".

Definition accepted_state : Snapshot := fst (Collect (tasks watch_config) online watch_config DefaultEndpoints).

Definition accept_run : list effect :=
  fst (Outage.run (λ _, None) (Ok watch_config) NotExist tasks online DefaultEndpoints accept_options).

Definition check_run : list effect :=
  fst (Outage.run (λ _, None) (Ok watch_config) (Contents (Ok accepted_state)) (λ cfg, rev (tasks cfg)) offline DefaultEndpoints
         check_options).

Definition check_report : effect := default (WriteOutput true) (check_run !! 5%nat).

Lemma accept_writes : WriteBaseline accepted_state ∈ accept_run.
Proof. apply (list_elem_of_lookup_2 _ 0). vm_compute. reflexivity. Qed.

Definition check_body : bytes := match check_report with WriteReport r => r | _ => [] end.

Lemma check_report_eq : check_report = WriteReport check_body.
Proof. vm_compute. reflexivity. Qed.

Lemma check_reports : check_report ∈ check_run.
Proof. apply (list_elem_of_lookup_2 _ 5). vm_compute. reflexivity. Qed.

Lemma watch_files file : is_Some (cfg_IANA watch_config !! file) → "/"%byte ∉ file.
Proof.
  intros [v Hv]. change (({[ #"jwt" := [ #"claims"] ]} : gmap bytes (list bytes)) !! file = Some v) in Hv. apply lookup_singleton_Some in Hv as [<- _]. apply (bool_decide_unpack _). vm_compute. exact I.
Qed.

Lemma outage_no_change_witness :
  ∃ errs, check_body = Report [] errs #"2026-01-01".
Proof.
  assert (Hdown : ∀ t, t ∈ tasks watch_config → is_ok (task_result watch_config DefaultEndpoints offline t) = false ∨
    task_result watch_config DefaultEndpoints offline t = task_result watch_config DefaultEndpoints online t)
    by (intros t _; left; reflexivity).
  pose proof (outage_no_change (λ _, None) (λ _, None) watch_config NotExist tasks (λ cfg, rev (tasks cfg)) online offline
    DefaultEndpoints accept_options check_options accepted_state watch_files (Permutation_refl _)
    (Permutation_sym (Permutation_rev _)) Hdown accept_writes eq_refl check_report check_reports) as H.
  rewrite check_report_eq in H. exact H.
Defined.

Definition claims_file : gmap bytes (gmap bytes RegRecord) :=
  match parseIANA [] [ #"claims"] with Ok out => out | Err _ => ∅ end.

Lemma claims_count : (size <$> claims_file !! #"claims") = Some 3%nat.
Proof. vm_compute. reflexivity. Qed.

Lemma parseIANA_complete_witness :
  ∃ recs reg keys, claims_file !! #"claims" = Some recs ∧ size recs = 3%nat ∧ reg ∈ [claims_registry] ∧ NoDup keys ∧
    recs = list_to_map (zip keys (normalize <$> reg_Records reg)).
Proof.
  assert (Hp : parseIANA [] [ #"claims"] = Ok claims_file) by reflexivity.
  destruct (parseIANA_complete [] [ #"claims"] claims_file Hp) as (children & Hu & _ & _ & Hrec).
  apply Ok_inj in Hu as <-. pose proof claims_count as Hc.
  destruct (claims_file !! #"claims") as [recs|] eqn:Hr; [|discriminate Hc].
  destruct (Hrec _ _ Hr) as (reg & keys & Hin & _ & Hnd & _ & Heq).
  exists recs, reg, keys. split; [reflexivity|]. split; [by injection Hc|]. split; [exact Hin|]. split; [exact Hnd|exact Heq].
Defined.

Lemma Diff_spec_witness :
  Diff newSnapshot accepted_state watch_config ≠ [] ∧ Diff accepted_state accepted_state watch_config = [].
Proof.
  split; [vm_compute; discriminate|].
  exact (proj2 (proj1 (Diff_spec accepted_state accepted_state watch_config [] [])) (same_refl _)).
Defined.
